(* ===== verification/_CoqProject ===== *)
-Q . S2P
Prelude.v
Cxx.v
Effects.v
Store.v
Request.v
RequestFacts.v
MapStore.v
Memcached.v
RequestSafety.v
RequestErrors.v
RequestTests.v
Concurrency.v
StdMap.v
Statsd.v
Aggregator.v
AggregatorFacts.v
Rocks.v
RocksFacts.v
RocksHttp.v
Connection.v
Server.v
ServerFacts.v
ServerRun.v
Session.v
OptionHandler.v
Options.v
OptionsFacts.v
Logging.v
LoggingFacts.v
Service.v
ServiceFacts.v
MpmcQueue.v
MpmcQueueFacts.v
Atomics.v
WeakQueue.v
WeakQueueFacts.v
Fmt.v
FmtFacts.v
FmtBuffer.v
FmtMemory.v
FmtDouble.v
FmtDoubleFacts.v
FmtFormat.v
FmtArgsFacts.v
FmtFormatFacts.v
FmtTemplate.v
FmtTemplateFacts.v
FmtPrintf.v
FmtPrintfFacts.v
FmtPrintfTemplate.v
FmtPrintfTemplateFacts.v
FmtError.v
FmtPosix.v
FmtPosixFacts.v
FmtStream.v
FmtValues.v
FmtMakeValue.v
FmtVariadic.v
FmtWriter.v
PatternFormatter.v
PatternFormatterFacts.v
Platform.v
FileSinks.v
FileSinksFacts.v
FileLoggers.v
AsyncLog.v
AsyncLogFacts.v
AsyncQueue.v
Console.v
ConsoleFacts.v
SyslogSink.v
SystemSinks.v
ProgramLog.v
Facade.v
LogSites.v
Program.v
