(* ===== verification/Prelude.v ===== *)
(** * Quitsies: a verification library for the quitsies key/value service

    Quitsies is a network service in C++: clients speak the memcached text
    protocol over TCP, values live in RocksDB, a small HTTP server offers
    administration, metrics go to statsd over UDP, and log lines are written
    by the bundled spdlog (with the bundled fmt) on a background thread.
    This library models that program as functions and step relations of the
    kernel's language and proves what makes each part correct.  Every
    definition is executable; witnesses evaluate the theorems on concrete
    inputs.  This file holds what all others share: bytes, machine integers,
    the exception monad, tactics and the hint databases.

    ** The parts of the program, and where they are modelled

    Paths are below [src/src/].

    - The database interface [quitsies/db/store.hpp] is the class [Store] of
      [Store.v], with the contract [StoreContract] clients rely on.  A client
      is a program tree ([Effects.v]) that calls the interface; the same tree
      is run against one store ([run]) or interleaved with other threads.
      [MapStore.v] is a reference implementation, with a failing variant.
    - The memcached parser [quitsies/tcp/request.cpp] is [Request.v]
      ([step_char] is the body of the loop of [request::process]);
      [Memcached.v] holds the specification: what a command means on a map.
      [RequestFacts], [RequestSafety] and [RequestErrors] prove the invariant,
      independence of the way bytes are split, totality, the bound on the
      buffer, the refinement and the behaviour on malformed input.
      [Concurrency.v] interleaves ADD requests of many threads.
    - One connection, [quitsies/tcp/connection.cpp], is [Connection.v]; the
      acceptor, the manager and the signal handling of [tcp/server.cpp] and
      [connection_manager.cpp] are the state machine of [Server.v]
      ([ServerFacts]); [ServerRun.v] puts the threads of [server::run] around
      it, and [server::stop]; [Session.v] follows one client over one
      connection from the wire to the specification.
    - [quitsies/db/rocks.cpp] is [Rocks.v]: RocksDB and its backup engine are
      the classes [RocksDB] and [RocksEnv], with documented laws.
      [RocksFacts] discharges [StoreContract]; [RocksHttp] treats opening,
      destruction and the HTTP endpoints.
    - Metrics: [quitsies/stats/statsd.cpp] is [Statsd.v] (the four masks of
      [snprintf] and the 256 byte buffer), [statsd_aggregator.cpp] is
      [Aggregator.v] over the ordered map of [StdMap.v], its background thread
      interleaved with callers ([AggregatorFacts]).
    - The command line: [OptionHandler/option_handler.h] is [OptionHandler.v],
      [quitsies/options.cpp] is [Options.v] ([OptionsFacts]); [service.cpp] is
      [Service.v] ([ServiceFacts]), the table of options of the real program
      included, and [Program.v] to its end.
    - Logging: the front end, the sinks' interface and the registry of spdlog
      are [Logging.v] ([LoggingFacts]).  The console sinks, with the
      composite and coloured ones, the factories and the default error
      handler are [Console.v] ([ConsoleFacts]).  The file sinks are
      [FileSinks.v] over a file system whose calls may fail
      ([FileSinksFacts], and [FileLoggers.v] for their factories).  The sinks
      of other systems are [SyslogSink.v], over the state [openlog] shares
      between sinks, and [SystemSinks.v] (Android, the debugger and the
      console of Windows).  The
      formatter of log lines is [PatternFormatter.v]
      ([PatternFormatterFacts]).  [Facade.v] has the functions of namespace
      [spdlog] and the methods of a logger, which act on the one registry.
    - The asynchronous logger has three levels.  [MpmcQueue.v] models the
      lock-free queue one atomic access per step, sequentially consistent, and
      [MpmcQueueFacts] proves it a bounded FIFO; [WeakQueue.v] is the same
      code under the memory orders it names, over the memory model of
      [Atomics.v], and [WeakQueueFacts] shows by simulation that it is
      still that FIFO and free of data races; [AsyncLog.v] models producers
      and worker over the list of queued values ([AsyncLogFacts] proves
      delivery), and [AsyncQueue.v] shows that the queue refines that list.
      [ProgramLog.v] composes all of this
      for the logger [log::create] makes, and [LogSites.v] instantiates it with
      the log statements of the program.
    - fmt, bundled under [spdlog/fmt/bundled/] ([format.h], [format.cc],
      [posix.cc], [ostream.h], [time.h]).  Text: [Fmt.v] is the writing of
      integers and strings ([FmtFacts]), [FmtDouble.v] that of floating-point
      numbers around the C library's digits ([FmtDoubleFacts]), [FmtValues.v]
      the class [FormatInt] and the order of [StringRef], [FmtWriter.v] the
      stream operators of the writers.  Memory: [FmtBuffer.v] is a buffer
      whose growth is an interface; [FmtMemory.v] is [MemoryBuffer] at the
      level of pointers and blocks.  Arguments: [FmtMakeValue.v] is the union
      a C++ value is stored in and read from, [FmtVariadic.v] the word and the
      array a variadic call builds, shown to refine the list of typed
      arguments of [FmtFormat.v] ([FmtArgsFacts]).  Format strings:
      [FmtFormat.v] has the parser of replacement fields and the loop of
      [format] ([FmtFormatFacts]), [FmtTemplate.v] the reference of that
      language, and [FmtTemplateFacts] proves that [format] on a printed
      template is its expansion; [FmtPrintf.v], [FmtPrintfFacts],
      [FmtPrintfTemplate.v] and [FmtPrintfTemplateFacts] do the same for
      [printf].  Around them: [FmtError.v] the messages of system errors,
      [FmtStream.v] output to streams and files and the formatting of times,
      [FmtPosix.v] the classes [File] and [BufferedFile] over a table of
      descriptors whose calls may fail ([FmtPosixFacts]).
    - The platform layer [spdlog/details/os.h], as far as it is compiled on
      Linux, is [Platform.v].

    Interaction: [main] ([Service]) opens the store and starts the server;
    the server creates a connection per client and feeds it reads; the
    connection feeds its request; the request executes against [Store], that
    is [Rocks], which counts its operations with the aggregator; every part
    logs through a logger of the registry.  [RocksFacts.rocks_serves_commands],
    [Session] and [ProgramLog] prove properties across those borders.

    ** What the groups of theorems show

    - Protocol: [process] on the wire form of any well-formed command acts as
      the map specification and prepares its reply, in any split of the
      bytes; no exception leaves it; its invariant holds in every reachable
      state; unknown words, negative lengths, stray tokens and failing stores
      are characterised, the flaws of the code included.
    - Concurrency: interleaved ADDs are serializable, have one winner and do
      not deadlock; a SET in between is lost.
    - Server: the manager's set is the set of open connections; shutdown
      closes all of them, except for an accept in flight and the calls of [stop]
      that have taken a connection from the set and not yet closed it; after
      that every thread of [run] can end, once the timers have expired, and [run] does
      not return earlier; the limits of the
      command line reach the connection shifted by one.
    - Storage and metrics: every database operation is counted once; counters
      are conserved between threads; failed opening and destruction; HTTP
      put/get round trip.
    - Command line: the options round trip, rejected negative numbers, and
      the ways the program ends, each with its exact condition.
    - Logging: which sinks a call reaches, composite sinks included; names
      and settings of the registry, whatever a program calls; the
      queue is a race-free FIFO for any interleaving and whatever value its
      loads may still read; the worker delivers what was
      queued before it was told to end, in order; rotation moves every file
      to the next and loses exactly the last one; a pattern prints its fields; and, end to end, standard output holds one line per accepted
      call of the program, in the threads' orders.
    - fmt: numerals in every format, with the case in which their digits are
      written to where the buffer was; values stay typed from the call to the
      visitor; [format] and [printf] end unless [snprintf] reports errors for
      ever, round trip on the templates their references accept, and [format]
      names the error of the malformed continuations listed; buffers neither leak nor
      free twice; descriptors are not leaked; error texts and numerals fit
      their arrays.
    - Platform: the offset from UTC agrees with the civil calendar, in the
      range of years where [int] and [long] do not overflow.

    ** Bounds and fuel

    Loops over a string are structural.  The loop of [format] takes
    [S (length s)] rounds, shown to be enough ([FmtFormatFacts]);
    the loop around [snprintf] has no bound in the code: its fuel [turns] is
    part of the interface [FloatLib], two turns are enough when [snprintf]
    reports no error and two more than the limit of the buffer's memory when
    there is one, and without either the loop does not end ([FmtFormatFacts]);
    [printf] takes [S (length s)] rounds as well; the buffer for [strerror_r]
    doubles until its size passes [size_t], at most 57 times; [strftime] is
    given more room until that is 256 times the length of the format, as in
    the code; a call that is
    interrupted is repeated as long as the system's replies say so, and the
    replies are a list;
    decimal printing divides [dec_fuel] times, enough for any width used; a
    file is opened at most [open_tries] times, as in the code.  Integers keep
    their width: [u64] and [i32] below wrap around, and a theorem that needs
    a range says so.  Interleavings are lists of steps of any length.

    ** What is not modelled, and why

    - boost::asio, RocksDB, the UDP socket, served and the C library's
      floating-point digits, time zone and locale are code outside the
      repository: inputs, parameters or classes with laws, each with an
      instance.  A completion handler is atomic unless the model says
      otherwise; the write buffer of a destroyed connection is not tracked.
    - The memory model of the queue has histories and views, without load
      buffering: a load reads a value that was stored before.  Elsewhere
      atomic accesses (levels, flags of the helper) are sequentially
      consistent, and [AsyncLog] lets [wait_empty_q] see the list itself.
    - The functions registered with [on_epoch] are taken not to throw, and so
      is sending on the statsd client's socket (an exception of its constructor
      is in [Service.make_stats]).
    - The C library's buffering of files: what [fwrite] accepted counts as
      written ([Console] keeps apart what was flushed).  Pointers into buffers
      are indices, none for the one [prepare_int_buffer] keeps while the buffer
      moves.  What a writer holds when an exception leaves it is not stated.
    - Of fmt: wide characters, which repeat the code for [char] on another
      character type, and the class [Locale] of [posix.h]; the program uses
      neither.  [FmtPosix] keeps track of descriptors, not of what files
      contain.
    - Of the branches for other systems, which this program does not
      compile, only the sinks are modelled.
    - Test framework, build files and generated configuration headers.  The
      cases of [quitsies/tcp/request.test.cpp] are evaluated on the model in
      [RequestTests.v]. *)
From Stdlib Require Export ZArith Ascii String Lia.
From stdpp Require Export base tactics strings gmap sets option list.

(** ** Bytes

    A C++ [std::string], a [char*] with a length, and the content of a socket
    buffer are lists of 8-bit characters. *)
Abbreviation char := ascii (only parsing).
Abbreviation bytes := (list ascii) (only parsing).

(** A literal of the source. *)
Definition lit (s : string) : bytes := String.list_ascii_of_string s.

Declare Scope cxx_scope.
Delimit Scope cxx_scope with cxx.
Notation "! s" := (lit s%string) (at level 8, s at level 0, format "! s") : cxx_scope.
Open Scope cxx_scope.

Definition cr : ascii := "013"%char.
Definition lf : ascii := "010"%char.
Definition tab : ascii := "009"%char.
Definition vtab : ascii := "011"%char.
Definition ffeed : ascii := "012"%char.
Definition space : ascii := " "%char.
Definition crlf : bytes := [cr; lf].

(** Length of a byte string as the C++ [size_t]. *)
Definition len {A} (l : list A) : Z := Z.of_nat (length l).

(** ** Machine integers *)
Definition wrap_u (w : Z) (z : Z) : Z := (z mod 2 ^ w)%Z.
Definition wrap_s (w : Z) (z : Z) : Z := ((z + 2 ^ (w - 1)) mod 2 ^ w - 2 ^ (w - 1))%Z.

(** [size_t], [uint64_t] and [uintmax_t] *)
Definition u64 (z : Z) : Z := wrap_u 64 z.
(** [int] *)
Definition i32 (z : Z) : Z := wrap_s 32 z.
(** [long long] and [intmax_t] *)
Definition i64 (z : Z) : Z := wrap_s 64 z.

Definition int_min : Z := -2147483648.
Definition int_max : Z := 2147483647.
Definition llong_min : Z := -9223372036854775808.
Definition llong_max : Z := 9223372036854775807.
Definition size_max : Z := 18446744073709551615.

(** ** Exceptions

    The classes of [std::exception] the source throws or catches, with the
    text [what()] returns. *)
Inductive exn : Type :=
| runtime_error (msg : bytes)
| invalid_argument (msg : bytes)
| out_of_range (msg : bytes)
| spdlog_ex (msg : bytes).

Definition what (e : exn) : bytes :=
  match e with
  | runtime_error m | invalid_argument m | out_of_range m | spdlog_ex m => m
  end.

#[export] Instance exn_eq_dec : EqDecision exn.
Proof. solve_decision. Defined.

(** The outcome of a C++ function: a value, or the exception that left it. *)
Inductive exc (A : Type) : Type :=
| Ok (a : A)
| Thrown (e : exn).
Arguments Ok {A} a.
Arguments Thrown {A} e.

#[export] Instance exc_eq_dec {A} `{EqDecision A} : EqDecision (exc A).
Proof. solve_decision. Defined.

Definition exc_bind {A B} (m : exc A) (f : A -> exc B) : exc B :=
  match m with Ok a => f a | Thrown e => Thrown e end.
Definition exc_map {A B} (f : A -> B) (m : exc A) : exc B :=
  match m with Ok a => Ok (f a) | Thrown e => Thrown e end.

Notation "'let!' x := m 'in' k" := (exc_bind m (fun x => k))
  (at level 200, x pattern, right associativity) : cxx_scope.

(** Left fold of a fallible step: a loop whose body may throw. *)
Fixpoint exc_fold {A S} (f : S -> A -> exc S) (s : S) (l : list A) : exc S :=
  match l with
  | [] => Ok s
  | a :: l => let! s' := f s a in exc_fold f s' l
  end.

(** ** Automation *)
Create HintDb cxx.

(** Split every conjunction and existential of the context. *)
Ltac split_hyps :=
  repeat match goal with
  | H : _ /\ _ |- _ => destruct H
  | H : exists _, _ |- _ => destruct H
  end.

(** Case analysis on the scrutinee of a match or the test of an [if]. *)
Ltac case_goal :=
  match goal with
  | |- context [match ?x with _ => _ end] =>
      lazymatch x with context [match _ with _ => _ end] => fail | _ => destruct x eqn:? end
  end.
Ltac case_hyp H :=
  match type of H with
  | context [match ?x with _ => _ end] =>
      lazymatch x with context [match _ with _ => _ end] => fail | _ => destruct x eqn:? end
  end.

(** Booleans of arithmetic tests as propositions. *)
Ltac bool_to_prop :=
  repeat match goal with
  | H : (_ && _)%bool = true |- _ => apply andb_prop in H as [? ?]
  | H : (_ && _)%bool = false |- _ => apply andb_false_iff in H
  | H : (_ || _)%bool = false |- _ => apply orb_false_elim in H as [? ?]
  | H : (_ <? _)%Z = true |- _ => apply Z.ltb_lt in H
  | H : (_ <? _)%Z = false |- _ => apply Z.ltb_ge in H
  | H : (_ <=? _)%Z = true |- _ => apply Z.leb_le in H
  | H : (_ <=? _)%Z = false |- _ => apply Z.leb_gt in H
  | H : (_ =? _)%Z = true |- _ => apply Z.eqb_eq in H
  | H : (_ =? _)%Z = false |- _ => apply Z.eqb_neq in H
  | H : bool_decide _ = true |- _ => apply bool_decide_eq_true in H
  | H : bool_decide _ = false |- _ => apply bool_decide_eq_false in H
  end.

(** ** Generic lemmas *)
Lemma wrap_u_range w z : (0 <= w)%Z -> (0 <= wrap_u w z < 2 ^ w)%Z.
Proof. intros Hw. apply Z.mod_pos_bound. now apply Z.pow_pos_nonneg. Qed.
Lemma wrap_u_id w z : (0 <= z < 2 ^ w)%Z -> wrap_u w z = z.
Proof. intros. now apply Z.mod_small. Qed.
Lemma u64_range z : (0 <= u64 z <= size_max)%Z.
Proof. pose proof (wrap_u_range 64 z ltac:(lia)). unfold u64, size_max. lia. Qed.
Lemma u64_id z : (0 <= z <= size_max)%Z -> u64 z = z.
Proof. intros. apply wrap_u_id. unfold size_max in *. lia. Qed.
Lemma u64_neg z : (- size_max <= z < 0)%Z -> u64 z = (z + size_max + 1)%Z.
Proof.
  intros. unfold u64, wrap_u, size_max in *. symmetry.
  apply (Z.mod_unique_pos _ _ (-1)); lia.
Qed.
Lemma wrap_s_id w z :
  (0 < w)%Z -> (- 2 ^ (w - 1) <= z < 2 ^ (w - 1))%Z -> wrap_s w z = z.
Proof.
  intros Hw Hz. unfold wrap_s.
  assert (2 ^ w = 2 * 2 ^ (w - 1))%Z
    by (rewrite <- Z.pow_succ_r by lia; f_equal; lia).
  rewrite Z.mod_small; lia.
Qed.
Lemma i64_id z : (llong_min <= z <= llong_max)%Z -> i64 z = z.
Proof. intros. apply wrap_s_id; unfold llong_min, llong_max in *; lia. Qed.
Lemma i32_id z : (int_min <= z <= int_max)%Z -> i32 z = z.
Proof. intros. apply wrap_s_id; unfold int_min, int_max in *; lia. Qed.

Lemma len_app {A} (l k : list A) : len (l ++ k) = (len l + len k)%Z.
Proof. unfold len. rewrite length_app. lia. Qed.
Lemma len_nonneg {A} (l : list A) : (0 <= len l)%Z.
Proof. unfold len. lia. Qed.
Lemma len_nil {A} : len (@nil A) = 0%Z.
Proof. done. Qed.
Lemma len_cons {A} (x : A) l : len (x :: l) = (1 + len l)%Z.
Proof. unfold len. simpl. lia. Qed.
#[export] Hint Rewrite @len_app @len_nil @len_cons : cxx.
#[export] Hint Resolve len_nonneg u64_range : cxx.

Lemma exc_fold_app {A S} (f : S -> A -> exc S) l1 l2 s :
  exc_fold f s (l1 ++ l2) = exc_bind (exc_fold f s l1) (fun s' => exc_fold f s' l2).
Proof.
  revert s; induction l1 as [|a l1 IH]; intros s; simpl; [done|].
  destruct (f s a); simpl; auto.
Qed.

(** A sequence that returns: its first part returned. *)
Lemma exc_bind_ok {A B} (m : exc A) (f : A -> exc B) b :
  exc_bind m f = Ok b <-> exists a, m = Ok a /\ f a = Ok b.
Proof. destruct m as [a|e]; simpl; split; [eauto|intros (?&[= <-]&?); done|done|intros (?&?&?); done]. Qed.
Ltac exc_inv :=
  repeat match goal with
  | H : exc_bind _ _ = Ok _ |- _ => apply exc_bind_ok in H as (? & ? & ?)
  | H : Ok _ = Ok _ |- _ => injection H as H
  | H : Thrown _ = Ok _ |- _ => discriminate H
  | H : (let '_ := ?x in _) = Ok _ |- _ => destruct x eqn:?
  | H : (if ?b then _ else _) = Ok _ |- _ => destruct b eqn:?
  end.
