(* ===== verification/Cxx.v ===== *)
(** * The parts of the C++ standard library the source relies on

    Number printing and parsing ([ostream << integer], [std::stoi],
    [std::stoll]), the string-backed stream [std::stringstream], and the
    character tests.  These are definitions of the language's library, not of
    the repository: they carry no map entry, and the components are written
    on top of them. *)
From S2P Require Import Prelude.

Open Scope Z_scope.

(** ** Decimal numerals *)
Definition digit_char (d : Z) : ascii := ascii_of_N (Z.to_N (48 + d)).
Definition char_code (c : ascii) : Z := Z.of_N (N_of_ascii c).
Definition digit_val (c : ascii) : option Z :=
  let v := char_code c - 48 in
  if (0 <=? v) && (v <=? 9) then Some v else None.

(** Most significant digit first; [fuel] bounds the number of digits. *)
Fixpoint dec_digits (fuel : nat) (n : Z) : bytes :=
  match fuel with
  | O => []
  | S fuel =>
      if n <? 10 then [digit_char n]
      else dec_digits fuel (n / 10) ++ [digit_char (n mod 10)]
  end.
(** A number below [2 ^ k] has at most [k] digits (one for zero). *)
Definition dec_fuel (n : Z) : nat := S (Z.to_nat (Z.log2 n)).
Definition dec_nat (n : Z) : bytes := dec_digits (dec_fuel n) n.
(** [ss << z] for an integer [z]. *)
Definition dec (z : Z) : bytes :=
  if z <? 0 then "-"%char :: dec_nat (- z) else dec_nat z.

(** The longest prefix of digits, accumulated in base ten: [None] when there
    is no digit at all. *)
Fixpoint scan_digits (acc : Z) (s : bytes) : Z :=
  match s with
  | [] => acc
  | c :: s' => match digit_val c with
               | Some d => scan_digits (acc * 10 + d) s'
               | None => acc
               end
  end.
Definition parse_digits (s : bytes) : option Z :=
  match s with
  | c :: _ => match digit_val c with Some _ => Some (scan_digits 0 s) | None => None end
  | [] => None
  end.

(** [isspace] in the C locale. *)
Definition isspace (c : ascii) : bool :=
  bool_decide (c = space) || bool_decide (c = tab) || bool_decide (c = ffeed)
  || bool_decide (c = cr) || bool_decide (c = lf) || bool_decide (c = vtab).

Fixpoint skip_space (s : bytes) : bytes :=
  match s with
  | c :: s' => if isspace c then skip_space s' else s
  | [] => []
  end.

(** [strtol(s, &end, 10)] as an unbounded integer: leading white space, an
    optional sign, digits up to the first other character. *)
Definition strtol (s : bytes) : option Z :=
  match skip_space s with
  | c :: s' =>
      if decide (c = "-"%char) then Z.opp <$> parse_digits s'
      else if decide (c = "+"%char) then parse_digits s'
      else parse_digits (c :: s')
  | [] => None
  end.

(** [std::stoi] / [std::stoll]: [std::invalid_argument] when nothing was
    converted, [std::out_of_range] when the value does not fit; libstdc++
    names the function in [what()]. *)
Definition sto (name : bytes) (lo hi : Z) (s : bytes) : exc Z :=
  match strtol s with
  | None => Thrown (invalid_argument name)
  | Some z => if (lo <=? z) && (z <=? hi) then Ok z else Thrown (out_of_range name)
  end.
Definition stoi (s : bytes) : exc Z := sto !"stoi" int_min int_max s.
Definition stoll (s : bytes) : exc Z := sto !"stoll" llong_min llong_max s.

(** ** [std::stringstream]

    The characters of the buffer and the put position.  Writing at the end
    appends; writing before the end overwrites. *)
Record sstream := SStream { ss_str : bytes; ss_pos : nat }.

Definition ss_empty : sstream := SStream [] 0.
(** [ss.str(s)] moves the put position to the beginning. *)
Definition ss_reset (s : bytes) : sstream := SStream s 0.
(** [ss << c] *)
Definition ss_putc (c : ascii) (ss : sstream) : sstream :=
  SStream
    (if (ss_pos ss <? length (ss_str ss))%nat
     then <[ss_pos ss := c]> (ss_str ss) else ss_str ss ++ [c])
    (S (ss_pos ss)).
(** [ss << s] *)
Fixpoint ss_puts (s : bytes) (ss : sstream) : sstream :=
  match s with [] => ss | c :: s => ss_puts s (ss_putc c ss) end.
(** [ss.tellp()] *)
Definition ss_tellp (ss : sstream) : Z := Z.of_nat (ss_pos ss).
(** [ss.seekp(off, std::ios_base::end)]; a position before the start fails
    and leaves the position as it is. *)
Definition ss_seekp_end (off : Z) (ss : sstream) : sstream :=
  let p := len (ss_str ss) + off in
  if (0 <=? p) && (p <=? len (ss_str ss)) then SStream (ss_str ss) (Z.to_nat p) else ss.

(** The put position is at the end: every write appends. *)
Definition ss_at_end (ss : sstream) : Prop := ss_pos ss = length (ss_str ss).

(** ** Numerals: lemmas *)
Lemma digit_val_char d : 0 <= d <= 9 -> digit_val (digit_char d) = Some d.
Proof.
  intros Hd. unfold digit_val, digit_char, char_code.
  rewrite N_ascii_embedding by lia.
  replace (Z.of_N (Z.to_N (48 + d)) - 48) with d by lia.
  destruct (0 <=? d) eqn:?, (d <=? 9) eqn:?; simpl; bool_to_prop; auto; lia.
Qed.

Lemma scan_digits_app acc s t :
  Forall (fun c => is_Some (digit_val c)) s ->
  scan_digits acc (s ++ t) = scan_digits (scan_digits acc s) t.
Proof.
  intros Hs; revert acc; induction Hs as [|c s [d Hd] Hs IH]; intros acc; simpl; [done|].
  now rewrite Hd.
Qed.

Lemma dec_digits_are_digits fuel n :
  0 <= n -> Forall (fun c => is_Some (digit_val c)) (dec_digits fuel n).
Proof.
  revert n; induction fuel as [|fuel IH]; intros n Hn; simpl; [constructor|].
  destruct (n <? 10) eqn:?; bool_to_prop.
  - constructor; [rewrite digit_val_char by lia; eauto | constructor].
  - apply Forall_app; split; [apply IH; apply Z.div_pos; lia|].
    constructor; [|constructor].
    rewrite digit_val_char by (pose proof (Z.mod_pos_bound n 10); lia). eauto.
Qed.

Lemma dec_digits_scan fuel n :
  0 <= n < 2 ^ Z.of_nat fuel -> scan_digits 0 (dec_digits fuel n) = n.
Proof.
  revert n; induction fuel as [|fuel IH]; intros n Hn; simpl; [lia|].
  destruct (n <? 10) eqn:?; bool_to_prop.
  - simpl. rewrite digit_val_char by lia. lia.
  - rewrite scan_digits_app by (apply dec_digits_are_digits, Z.div_pos; lia).
    rewrite IH.
    + simpl. rewrite digit_val_char by (pose proof (Z.mod_pos_bound n 10); lia).
      pose proof (Z.div_mod n 10). lia.
    + split; [apply Z.div_pos; lia|].
      apply Z.div_lt_upper_bound; [lia|].
      rewrite Nat2Z.inj_succ, Z.pow_succ_r in Hn by lia. lia.
Qed.

Lemma dec_nat_digits n : 0 <= n -> Forall (fun c => is_Some (digit_val c)) (dec_nat n).
Proof. apply dec_digits_are_digits. Qed.

Lemma dec_nat_scan n : 0 <= n -> scan_digits 0 (dec_nat n) = n.
Proof.
  intros Hn. apply dec_digits_scan. split; [done|].
  unfold dec_fuel. rewrite Nat2Z.inj_succ, Z2Nat.id by apply Z.log2_nonneg.
  destruct (decide (n = 0)) as [->|]; [done|]. apply Z.log2_spec. lia.
Qed.

Lemma dec_nat_nonempty n : dec_nat n <> [].
Proof. unfold dec_nat; simpl. destruct (n <? 10); [done|]. by destruct (dec_digits _ _). Qed.

Lemma parse_digits_dec n : 0 <= n -> parse_digits (dec_nat n) = Some n.
Proof.
  intros Hn. pose proof (dec_nat_digits n Hn) as Hd. pose proof (dec_nat_scan n Hn) as Hs.
  pose proof (dec_nat_nonempty n).
  destruct (dec_nat n) as [|c s]; [done|].
  apply Forall_cons in Hd as [[d Hd] _]. unfold parse_digits. now rewrite Hd, Hs.
Qed.

(** Characters that can start a number are neither signs nor white space. *)
Lemma digit_not_special c :
  is_Some (digit_val c) -> isspace c = false /\ c <> "-"%char /\ c <> "+"%char.
Proof.
  destruct c as [[] [] [] [] [] [] [] []]; vm_compute;
    intros [? ?]; try discriminate; repeat split; congruence.
Qed.

Lemma strtol_dec z : strtol (dec z) = Some z.
Proof.
  unfold dec, strtol. destruct (z <? 0) eqn:?; bool_to_prop.
  - simpl. destruct (decide ("-"%char = "-"%char)); [|done].
    rewrite parse_digits_dec by lia. simpl. f_equal; lia.
  - pose proof (dec_nat_digits z ltac:(lia)) as Hd. pose proof (parse_digits_dec z ltac:(lia)) as Hp.
    pose proof (dec_nat_nonempty z). destruct (dec_nat z) as [|c s]; [done|].
    apply Forall_cons in Hd as [Hd _].
    apply digit_not_special in Hd as (Hsp & Hm & Hplus). simpl. rewrite Hsp.
    destruct (decide _); [done|]. destruct (decide _); [done|]. exact Hp.
Qed.

Lemma stoi_dec z : int_min <= z <= int_max -> stoi (dec z) = Ok z.
Proof.
  intros [H1 H2]. unfold stoi, sto. rewrite strtol_dec.
  apply Z.leb_le in H1, H2. now rewrite H1, H2.
Qed.
Lemma stoll_dec z : llong_min <= z <= llong_max -> stoll (dec z) = Ok z.
Proof.
  intros [H1 H2]. unfold stoll, sto. rewrite strtol_dec.
  apply Z.leb_le in H1, H2. now rewrite H1, H2.
Qed.

(** A numeral has no white space in it. *)
Lemma dec_no_space z : Forall (fun c => isspace c = false) (dec z).
Proof.
  assert (Hn : forall n, 0 <= n -> Forall (fun c => isspace c = false) (dec_nat n)).
  { intros n Hn. eapply Forall_impl; [apply (dec_nat_digits n Hn)|].
    intros c Hc; now apply digit_not_special in Hc. }
  unfold dec. destruct (z <? 0) eqn:?; bool_to_prop; [constructor; [done|]|]; apply Hn; lia.
Qed.
Lemma dec_nonempty z : dec z <> [].
Proof. unfold dec. destruct (z <? 0); [done|]. apply dec_nat_nonempty. Qed.

Lemma stoi_range s z : stoi s = Ok z -> int_min <= z <= int_max.
Proof.
  unfold stoi, sto. destruct (strtol s); [|done].
  destruct (_ && _)%bool eqn:E; intros; simplify_eq; bool_to_prop; lia.
Qed.
Lemma stoll_range s z : stoll s = Ok z -> llong_min <= z <= llong_max.
Proof.
  unfold stoll, sto. destruct (strtol s); [|done].
  destruct (_ && _)%bool eqn:E; intros; simplify_eq; bool_to_prop; lia.
Qed.

(** ** Streams: lemmas *)
Lemma ss_putc_end c ss :
  ss_at_end ss -> ss_putc c ss = SStream (ss_str ss ++ [c]) (S (ss_pos ss)).
Proof. unfold ss_at_end, ss_putc. intros ->. by rewrite Nat.ltb_irrefl. Qed.
Lemma ss_putc_at_end c ss : ss_at_end ss -> ss_at_end (ss_putc c ss).
Proof.
  intros H. rewrite ss_putc_end by done. unfold ss_at_end in *; simpl.
  rewrite length_app; simpl; lia.
Qed.
Lemma ss_puts_end s ss :
  ss_at_end ss -> ss_puts s ss = SStream (ss_str ss ++ s) (ss_pos ss + length s).
Proof.
  revert ss; induction s as [|c s IH]; intros ss H; simpl.
  - rewrite app_nil_r, Nat.add_0_r. by destruct ss.
  - rewrite IH by now apply ss_putc_at_end. rewrite ss_putc_end by done. simpl.
    rewrite <- app_assoc; simpl. f_equal; lia.
Qed.
Lemma ss_puts_at_end s ss : ss_at_end ss -> ss_at_end (ss_puts s ss).
Proof.
  intros H. rewrite ss_puts_end by done. unfold ss_at_end in *; simpl.
  rewrite length_app. lia.
Qed.
Lemma ss_empty_at_end : ss_at_end ss_empty.
Proof. done. Qed.
Lemma ss_reset_nil_at_end : ss_at_end (ss_reset []).
Proof. done. Qed.
Lemma ss_tellp_end ss : ss_at_end ss -> ss_tellp ss = len (ss_str ss).
Proof. unfold ss_at_end, ss_tellp, len. by intros ->. Qed.
#[export] Hint Resolve ss_putc_at_end ss_puts_at_end ss_empty_at_end ss_reset_nil_at_end : cxx.

Arguments ss_putc : simpl never.
Arguments ss_puts : simpl never.
Arguments dec : simpl never.
