(* ===== verification/Effects.v ===== *)
(** * Programs that call a component behind an interface

    The request handlers of the source reach the database through the virtual
    methods of [db::store].  A handler is modelled as a program tree: it
    returns, throws, or calls one method and continues with what the method
    answered (a value or an exception).  The same tree has two meanings:
    [run] executes it against one implementation, call after call, and the
    interleaving semantics of [Concurrency] lets several threads take turns
    between calls. *)
From S2P Require Import Prelude.

Section Prog.
Context {E : Type -> Type}.

Inductive prog (A : Type) : Type :=
| Ret (a : A)
| Raise (e : exn)
| Call {X : Type} (c : E X) (k : exc X -> prog A).
Global Arguments Ret {A} a.
Global Arguments Raise {A} e.
Global Arguments Call {A X} c k.

Fixpoint bind {A B} (p : prog A) (f : A -> prog B) : prog B :=
  match p with
  | Ret a => f a
  | Raise e => Raise e
  | Call c k => Call c (fun r => bind (k r) f)
  end.

(** [try { p } catch (std::exception & e) { h(e) }] *)
Fixpoint catch {A} (p : prog A) (h : exn -> prog A) : prog A :=
  match p with
  | Ret a => Ret a
  | Raise e => h e
  | Call c k => Call c (fun r => catch (k r) h)
  end.

(** A method call whose exception propagates. *)
Definition trigger {X} (c : E X) : prog X :=
  Call c (fun r => match r with Ok x => Ret x | Thrown e => Raise e end).

(** A computation that makes no call. *)
Definition of_exc {A} (m : exc A) : prog A :=
  match m with Ok a => Ret a | Thrown e => Raise e end.

(** Pointwise equality of trees: they make the same calls and continue the
    same way on every answer. *)
Inductive prog_eq {A} : prog A -> prog A -> Prop :=
| prog_eq_ret a : prog_eq (Ret a) (Ret a)
| prog_eq_raise e : prog_eq (Raise e) (Raise e)
| prog_eq_call {X} (c : E X) k1 k2 :
    (forall r, prog_eq (k1 r) (k2 r)) -> prog_eq (Call c k1) (Call c k2).

Global Instance prog_eq_refl {A} : Reflexive (@prog_eq A).
Proof. intros p; induction p; constructor; auto. Qed.
Global Instance prog_eq_sym {A} : Symmetric (@prog_eq A).
Proof. intros p q H; induction H; constructor; auto. Qed.

Global Instance prog_equiv {A} : Equiv (prog A) := prog_eq.
Global Instance bind_proper {A B} :
  Proper (prog_eq ==> pointwise_relation A prog_eq ==> @prog_eq B) bind.
Proof.
  intros p q H f g Hfg; induction H; simpl; [apply Hfg|constructor|].
  constructor; auto.
Qed.
Global Instance catch_proper {A} :
  Proper (prog_eq ==> pointwise_relation exn prog_eq ==> @prog_eq A) catch.
Proof.
  intros p q H f g Hfg; induction H; simpl; [constructor|apply Hfg|].
  constructor; auto.
Qed.

Lemma bind_bind {A B C} (p : prog A) (f : A -> prog B) (g : B -> prog C) :
  prog_eq (bind (bind p f) g) (bind p (fun a => bind (f a) g)).
Proof. induction p; simpl; try constructor; auto; reflexivity. Qed.
Lemma bind_ret {A} (p : prog A) : prog_eq (bind p Ret) p.
Proof. induction p; simpl; constructor; auto. Qed.
End Prog.
Arguments prog E A : clear implicits.

Notation "x <- p ;; q" := (bind p (fun x => q))
  (at level 100, p at next level, right associativity) : cxx_scope.
Notation "p ;;; q" := (bind p (fun _ => q))
  (at level 100, right associativity) : cxx_scope.

(** ** Sequential execution

    A handler answers each call on the state of the callee; [None] is a call
    that never returns (a lock that is not free). *)
Inductive outcome (S A : Type) : Type :=
| Done (s : S) (r : exc A)
| Blocked.
Arguments Done {S A} s r.
Arguments Blocked {S A}.

Section Run.
Context {E : Type -> Type} {S : Type}.
Variable handle : forall X, E X -> S -> option (S * exc X).

Fixpoint run {A} (p : prog E A) (s : S) : outcome S A :=
  match p with
  | Ret a => Done s (Ok a)
  | Raise e => Done s (Thrown e)
  | Call c k =>
      match handle _ c s with
      | Some (s', r) => run (k r) s'
      | None => Blocked
      end
  end.

Definition outcome_bind {A B} (o : outcome S A) (f : S -> exc A -> outcome S B) :
  outcome S B :=
  match o with Done s r => f s r | Blocked => Blocked end.

Lemma run_bind {A B} (p : prog E A) (f : A -> prog E B) s :
  run (bind p f) s =
  outcome_bind (run p s) (fun s' r =>
    match r with Ok a => run (f a) s' | Thrown e => Done s' (Thrown e) end).
Proof.
  revert s; induction p as [a|e|X c k IH]; intros s; simpl; [done..|].
  destruct (handle X c s) as [[s' r]|]; simpl; auto.
Qed.
Lemma run_catch {A} (p : prog E A) h s :
  run (catch p h) s =
  outcome_bind (run p s) (fun s' r =>
    match r with Ok a => Done s' (Ok a) | Thrown e => run (h e) s' end).
Proof.
  revert s; induction p as [a|e|X c k IH]; intros s; simpl; [done..|].
  destruct (handle X c s) as [[s' r]|]; simpl; auto.
Qed.
Lemma run_trigger {X} (c : E X) s :
  run (trigger c) s = match handle _ c s with Some (s', r) => Done s' r | None => Blocked end.
Proof. simpl. destruct (handle X c s) as [[s' [x|e]]|]; done. Qed.

Global Instance run_proper {A} : Proper (prog_eq ==> eq ==> eq) (@run A).
Proof.
  intros p q H s _ <-; revert s; induction H; intros s; simpl; [done..|].
  destruct (handle X c s) as [[s' r]|]; auto.
Qed.
End Run.

(** ** Total correctness of a handler

    [wp p s Q]: from [s] every call of [p] returns, and [Q] holds of the final
    state and the outcome. *)
Section Wp.
Context {E : Type -> Type} {S : Type}.
Variable handle : forall X, E X -> S -> option (S * exc X).

Definition wp {A} (p : prog E A) (s : S) (Q : S -> exc A -> Prop) : Prop :=
  exists s' r, run handle p s = Done s' r /\ Q s' r.

(** The postcondition of the first part of a sequence. *)
Definition then_wp {A B} (f : A -> prog E B) (Q : S -> exc B -> Prop) (s : S) (r : exc A) : Prop :=
  match r with Ok a => wp (f a) s Q | Thrown e => Q s (Thrown e) end.
Definition handler_wp {A} (h : exn -> prog E A) (Q : S -> exc A -> Prop) (s : S) (r : exc A) : Prop :=
  match r with Ok a => Q s (Ok a) | Thrown e => wp (h e) s Q end.

Lemma wp_ret {A} (a : A) s Q : Q s (Ok a) -> wp (Ret a) s Q.
Proof. intros HQ. by exists s, (Ok a). Qed.
Lemma wp_raise {A} e s (Q : S -> exc A -> Prop) : Q s (Thrown e) -> wp (Raise e) s Q.
Proof. intros HQ. by exists s, (Thrown e). Qed.
Lemma wp_bind {A B} (p : prog E A) (f : A -> prog E B) s Q :
  wp p s (then_wp f Q) -> wp (bind p f) s Q.
Proof.
  intros (s' & [a|e] & Hrun & HQ); unfold wp; rewrite run_bind, Hrun; simpl; [done|].
  by exists s', (Thrown e).
Qed.
Lemma wp_catch {A} (p : prog E A) h s Q : wp p s (handler_wp h Q) -> wp (catch p h) s Q.
Proof.
  intros (s' & [a|e] & Hrun & HQ); unfold wp; rewrite run_catch, Hrun; simpl; [|done].
  by exists s', (Ok a).
Qed.
Lemma wp_trigger {X} (c : E X) s s' r (Q : S -> exc X -> Prop) :
  handle X c s = Some (s', r) -> Q s' r -> wp (trigger c) s Q.
Proof. intros Hh HQ. exists s', r. by rewrite run_trigger, Hh. Qed.
Lemma wp_mono {A} (p : prog E A) s (Q Q' : S -> exc A -> Prop) :
  wp p s Q -> (forall s' r, Q s' r -> Q' s' r) -> wp p s Q'.
Proof. intros (s' & r & Hrun & HQ) HQQ. exists s', r. auto. Qed.
End Wp.

#[export] Hint Rewrite @run_bind @run_catch @run_trigger : prog.
