(* ===== verification/Store.v ===== *)
(** * The database interface, [src/src/quitsies/db/store.hpp]

    [status] is the answer of every operation; [Store] is the virtual class
    [store] as a typeclass over the implementation's state; [StoreContract]
    is what an implementation promises about the key/value map it stands for
    when the underlying database works.  Clients ([Request], [Connection]) are
    proved against the class; [Rocks] discharges the contract. *)
From S2P Require Import Prelude Effects.

(** [class status] *)
Record status := Status { ok : bool; is_not_found : bool; to_string : bytes }.

#[export] Instance status_eq_dec : EqDecision status.
Proof. solve_decision. Defined.

(** The constructor's default arguments. *)
Definition mk_status (is_ok : bool) : status := Status is_ok false [].

(** The calls a client can make.  [get] fills the string its second argument
    points to: the answer carries that string. *)
Inductive storeE : Type -> Type :=
| SGet (key : bytes) : storeE (status * bytes)
| SDel (key : bytes) : storeE status
| SPut (key value : bytes) : storeE status
| SLock : storeE unit
| SUnlock : storeE unit.

(** [class store]: the operations a request handler uses.  A call may throw;
    [lock] does not return ([None]) while the mutex is held. *)
Class Store (D : Type) := {
  store_get : bytes -> D -> D * exc (status * bytes);
  store_del : bytes -> D -> D * exc status;
  store_put : bytes -> bytes -> D -> D * exc status;
  store_lock : D -> option D;
  store_unlock : D -> D
}.

(** Dispatch of one call on an implementation. *)
Definition store_handle {D} `{Store D} (X : Type) (c : storeE X) (d : D) :
  option (D * exc X) :=
  match c in storeE X return option (D * exc X) with
  | SGet k => Some (store_get k d)
  | SDel k => Some (store_del k d)
  | SPut k v => Some (store_put k v d)
  | SLock => match store_lock d with Some d' => Some (d', Ok tt) | None => None end
  | SUnlock => Some (store_unlock d, Ok tt)
  end.

(** What an implementation promises: it stands for a finite map
    ([store_view]) and a mutex ([store_held]); while it is [store_ready] every
    operation succeeds, answers from the map, updates only the key it is given
    and leaves the mutex alone. *)
Class StoreContract (D : Type) `{Store D} := {
  store_view : D -> gmap bytes bytes;
  store_held : D -> bool;
  store_ready : D -> Prop;
  contract_get k d :
    store_ready d ->
    exists d' s v, store_get k d = (d', Ok (s, v))
      /\ store_ready d' /\ store_view d' = store_view d /\ store_held d' = store_held d
      /\ match store_view d !! k with
         | Some w => ok s = true /\ v = w
         | None => ok s = false /\ is_not_found s = true
         end;
  contract_put k w d :
    store_ready d ->
    exists d' s, store_put k w d = (d', Ok s)
      /\ store_ready d' /\ store_view d' = <[k := w]> (store_view d)
      /\ store_held d' = store_held d /\ ok s = true;
  contract_del k d :
    store_ready d ->
    exists d' s, store_del k d = (d', Ok s)
      /\ store_ready d' /\ store_view d' = delete k (store_view d)
      /\ store_held d' = store_held d /\ ok s = true;
  contract_lock d :
    store_lock d = None <-> store_held d = true;
  contract_locked d d' :
    store_lock d = Some d' ->
    store_view d' = store_view d /\ store_held d' = true /\ (store_ready d -> store_ready d');
  contract_unlock d :
    store_view (store_unlock d) = store_view d /\ store_held (store_unlock d) = false
    /\ (store_ready d -> store_ready (store_unlock d))
}.

(** ** Rules for the calls of a handler on a ready store *)
Section ContractRules.
Context {D : Type} `{StoreContract D}.

(** Everything a handler may rely on between two calls. *)
Definition at_map (m : gmap bytes bytes) (held : bool) (d : D) : Prop :=
  store_ready d /\ store_view d = m /\ store_held d = held.

Lemma wp_get k m b d (Q : D -> exc (status * bytes) -> Prop) :
  at_map m b d ->
  (forall d' s v, at_map m b d' ->
     match m !! k with
     | Some w => ok s = true /\ v = w
     | None => ok s = false /\ is_not_found s = true
     end -> Q d' (Ok (s, v))) ->
  wp store_handle (trigger (SGet k)) d Q.
Proof.
  intros (Hr & <- & <-) HQ.
  destruct (contract_get k d Hr) as (d' & s & v & Hget & Hr' & Hv & Hh & Hm).
  eapply wp_trigger; [simpl; by rewrite Hget|]. by apply HQ.
Qed.
Lemma wp_put k w m b d (Q : D -> exc status -> Prop) :
  at_map m b d ->
  (forall d' s, at_map (<[k := w]> m) b d' -> ok s = true -> Q d' (Ok s)) ->
  wp store_handle (trigger (SPut k w)) d Q.
Proof.
  intros (Hr & <- & <-) HQ.
  destruct (contract_put k w d Hr) as (d' & s & Hput & Hr' & Hv & Hh & Hok).
  eapply wp_trigger; [simpl; by rewrite Hput|]. by apply HQ.
Qed.
Lemma wp_del k m b d (Q : D -> exc status -> Prop) :
  at_map m b d ->
  (forall d' s, at_map (delete k m) b d' -> ok s = true -> Q d' (Ok s)) ->
  wp store_handle (trigger (SDel k)) d Q.
Proof.
  intros (Hr & <- & <-) HQ.
  destruct (contract_del k d Hr) as (d' & s & Hdel & Hr' & Hv & Hh & Hok).
  eapply wp_trigger; [simpl; by rewrite Hdel|]. by apply HQ.
Qed.
Lemma wp_lock m d (Q : D -> exc unit -> Prop) :
  at_map m false d -> (forall d', at_map m true d' -> Q d' (Ok tt)) ->
  wp store_handle (trigger SLock) d Q.
Proof.
  intros (Hr & <- & Hf) HQ.
  destruct (store_lock d) as [d'|] eqn:Hl; [|apply contract_lock in Hl; congruence].
  eapply wp_trigger; [simpl; by rewrite Hl|].
  apply contract_locked in Hl as (Hv & Hh & Hr'). apply HQ. split_and!; auto.
Qed.
Lemma wp_unlock m b d (Q : D -> exc unit -> Prop) :
  at_map m b d -> (forall d', at_map m false d' -> Q d' (Ok tt)) ->
  wp store_handle (trigger SUnlock) d Q.
Proof.
  intros (Hr & <- & Hf) HQ. eapply wp_trigger; [done|].
  destruct (contract_unlock d) as (Hv & Hh & Hr'). apply HQ. split_and!; auto.
Qed.
End ContractRules.

(** One step of symbolic execution of a handler on a ready store. *)
Ltac wp_step :=
  lazymatch goal with
  | |- wp _ (Ret _) _ _ => apply wp_ret
  | |- wp _ (Raise _) _ _ => apply wp_raise
  | |- wp _ (bind _ _) _ _ => apply wp_bind
  | |- wp _ (catch _ _) _ _ => apply wp_catch
  | |- wp _ (trigger (SGet _)) _ _ => eapply wp_get; [eassumption|]; let d := fresh "d" in let s := fresh "s" in let v := fresh "v" in
      intros d s v ? ?
  | |- wp _ (trigger (SPut _ _)) _ _ => eapply wp_put; [eassumption|]; let d := fresh "d" in let s := fresh "s" in intros d s ? ?
  | |- wp _ (trigger (SDel _)) _ _ => eapply wp_del; [eassumption|]; let d := fresh "d" in let s := fresh "s" in intros d s ? ?
  | |- wp _ (trigger SLock) _ _ => eapply wp_lock; [eassumption|];
      let d := fresh "d" in intros d ?
  | |- wp _ (trigger SUnlock) _ _ => eapply wp_unlock; [eassumption|];
      let d := fresh "d" in intros d ?
  | |- then_wp _ _ _ _ _ => unfold then_wp; cbv beta iota
  | |- handler_wp _ _ _ _ _ => unfold handler_wp; cbv beta iota
  end.

(** Use what the answers of the calls say about the returned [status]. *)
Ltac use_status :=
  destruct_and?; subst;
  repeat match goal with
  | H : ok ?s = _ |- context [ok ?s] => rewrite H
  | H : is_not_found ?s = _ |- context [is_not_found ?s] => rewrite H
  end; cbn [negb].
