(* ===== verification/Request.v ===== *)
(** * The memcached request parser,
      [src/src/quitsies/tcp/request.hpp] and [request.cpp]

    One [request] per connection parses the bytes of the socket one character
    at a time.  [step_char] is the body of the loop of [request::process],
    [process_loop] the loop, [process] the whole method, [prepare_response]
    the execution of a complete command on the store. *)
From S2P Require Import Prelude Cxx Effects Store.

Open Scope Z_scope.

(** ** Data *)
Inductive status_type :=
| COMMAND | DELETE_KEY | STORAGE_KEY | FLAGS | EXPTIME | NBYTES | NOREP | DATA
| RETRIEVAL_KEY | RETRIEVAL_KEYS | FINISHED | QUITTING.
Inductive command_type := NONE | SET | ADD | GET | GETS | DELETE | QUIT | PING.

#[export] Instance status_type_eq_dec : EqDecision status_type.
Proof. solve_decision. Defined.
#[export] Instance command_type_eq_dec : EqDecision command_type.
Proof. solve_decision. Defined.

(** [_db] says whether the shared pointer is set; the store itself is the
    state the programs run on.  [_log] and [_stats] are never used by the
    class. *)
Record request := Request {
  _db : bool;
  _max_bytes : Z;
  _status : status_type;
  _buffer : sstream;
  _response : bytes;
  _command : command_type;
  _keys : list bytes;
  _flags : Z;
  _exp_time : Z;
  _remaining : Z;
  _no_reply : bool
}.

(** The constructor leaves [_command] uninitialised: [garbage] is whatever
    the memory holds. *)
Definition new_request (garbage : command_type) (db : bool) (max_bytes : Z) : request :=
  Request db max_bytes COMMAND ss_empty [] garbage [] 0 0 0 false.

Definition reset (r : request) : request :=
  Request (_db r) (_max_bytes r) COMMAND (ss_reset []) [] NONE [] 0 0 0 false.

(** Assignments to one member. *)
Definition with_status (s : status_type) (r : request) : request :=
  Request (_db r) (_max_bytes r) s (_buffer r) (_response r) (_command r) (_keys r)
    (_flags r) (_exp_time r) (_remaining r) (_no_reply r).
Definition with_buffer (b : sstream) (r : request) : request :=
  Request (_db r) (_max_bytes r) (_status r) b (_response r) (_command r) (_keys r)
    (_flags r) (_exp_time r) (_remaining r) (_no_reply r).
Definition with_response (s : bytes) (r : request) : request :=
  Request (_db r) (_max_bytes r) (_status r) (_buffer r) s (_command r) (_keys r)
    (_flags r) (_exp_time r) (_remaining r) (_no_reply r).
Definition with_command (c : command_type) (r : request) : request :=
  Request (_db r) (_max_bytes r) (_status r) (_buffer r) (_response r) c (_keys r)
    (_flags r) (_exp_time r) (_remaining r) (_no_reply r).
Definition push_key (k : bytes) (r : request) : request :=
  Request (_db r) (_max_bytes r) (_status r) (_buffer r) (_response r) (_command r)
    (_keys r ++ [k]) (_flags r) (_exp_time r) (_remaining r) (_no_reply r).
Definition with_flags (z : Z) (r : request) : request :=
  Request (_db r) (_max_bytes r) (_status r) (_buffer r) (_response r) (_command r) (_keys r)
    z (_exp_time r) (_remaining r) (_no_reply r).
Definition with_exp_time (z : Z) (r : request) : request :=
  Request (_db r) (_max_bytes r) (_status r) (_buffer r) (_response r) (_command r) (_keys r)
    (_flags r) z (_remaining r) (_no_reply r).
Definition with_remaining (z : Z) (r : request) : request :=
  Request (_db r) (_max_bytes r) (_status r) (_buffer r) (_response r) (_command r) (_keys r)
    (_flags r) (_exp_time r) z (_no_reply r).
Definition with_no_reply (b : bool) (r : request) : request :=
  Request (_db r) (_max_bytes r) (_status r) (_buffer r) (_response r) (_command r) (_keys r)
    (_flags r) (_exp_time r) (_remaining r) b.

(** [_buffer << c], [_buffer.str(std::string())], [_buffer.str()] *)
Definition buffer_putc (c : ascii) (r : request) : request :=
  with_buffer (ss_putc c (_buffer r)) r.
Definition clear_buffer (r : request) : request := with_buffer (ss_reset []) r.
Definition buffer_str (r : request) : bytes := ss_str (_buffer r).

(** ** Helpers of request.cpp *)
Definition is_white_space (c : ascii) : bool :=
  bool_decide (c = space) || bool_decide (c = tab) || bool_decide (c = ffeed)
  || bool_decide (c = cr) || bool_decide (c = lf) || bool_decide (c = vtab).

Definition command_from_str (cmd : bytes) : command_type :=
  if decide (cmd = !"set") then SET
  else if decide (cmd = !"add") then ADD
  else if decide (cmd = !"get") then GET
  else if decide (cmd = !"gets") then GETS
  else if decide (cmd = !"delete") then DELETE
  else if decide (cmd = !"quit") then QUIT
  else if decide (cmd = !"ping") then PING
  else NONE.

Definition status_from_command (cmd : command_type) : exc status_type :=
  match cmd with
  | SET | ADD => Ok STORAGE_KEY
  | GET | GETS => Ok RETRIEVAL_KEY
  | DELETE => Ok DELETE_KEY
  | QUIT => Ok QUITTING
  | PING => Ok FINISHED
  | NONE => Thrown (runtime_error !"unsupported command")
  end.

(** ** [request::prepare_response] *)
Definition finish (response : bytes) (r : request) : request :=
  with_status FINISHED (with_response response r).

Definition error_line (msg : bytes) : bytes := !"ERROR " ++ msg ++ crlf.

(** The loop over [_keys] of GET and GETS. *)
Fixpoint retrieve (keys : list bytes) (ss : bytes) : prog storeE bytes :=
  match keys with
  | [] => Ret ss
  | key :: keys =>
      sv <- trigger (SGet key) ;;
      retrieve keys
        (if ok sv.1
         then ss ++ !"VALUE " ++ key ++ !" 0 " ++ dec (len sv.2) ++ crlf ++ sv.2 ++ crlf
         else ss)
  end.

(** The [try] block: what it leaves in the local stream [ss]. *)
Definition respond (r : request) (key0 : bytes) : prog storeE bytes :=
  match _command r with
  | DELETE =>
      sv <- trigger (SGet key0) ;;
      if negb (ok sv.1) then Ret (!"NOT_FOUND" ++ crlf)
      else
        st <- trigger (SDel key0) ;;
        Ret (if ok st then !"DELETED" ++ crlf else error_line (to_string st))
  | ADD =>
      trigger SLock ;;;
      sv <- trigger (SGet key0) ;;
      ss <- (if negb (ok sv.1) then
               if is_not_found sv.1 then
                 st <- trigger (SPut key0 (buffer_str r)) ;;
                 Ret (if ok st then !"STORED" ++ crlf else error_line (to_string st))
               else Ret (error_line (to_string sv.1))
             else Ret (!"NOT_STORED" ++ crlf)) ;;
      trigger SUnlock ;;;
      Ret ss
  | SET =>
      st <- trigger (SPut key0 (buffer_str r)) ;;
      Ret (if ok st then !"STORED" ++ crlf else error_line (to_string st))
  | GET | GETS =>
      ss <- retrieve (_keys r) [] ;;
      Ret (ss ++ !"END" ++ crlf)
  | NONE | QUIT | PING => Raise (runtime_error !"unsupported command")
  end.

Definition prepare_response (r : request) : prog storeE request :=
  if decide (_command r = PING) then Ret (finish (!"PONG" ++ crlf) r)
  else if negb (_db r) then
    Ret (finish (!"ERROR The server isn't configured with a database" ++ crlf) r)
  else
    match _keys r with
    | [] => Ret (finish (!"ERROR No key was found in request" ++ crlf) r)
    | key0 :: _ =>
        response <- catch (respond r key0) (fun e => Ret (error_line (what e))) ;;
        Ret (finish response r)
    end.

(** ** [request::process] *)

(** How one iteration of the loop ends: go on with the next character,
    [prepare_response(); return;], or an exception (the members keep the
    values they had when it was thrown). *)
Inductive step :=
| Next (r : request)
| Respond (r : request)
| Throw (r : request) (e : exn).

Definition invalid_key : exn := runtime_error !"invalid key".

Definition step_char (c : ascii) (r : request) : step :=
  if decide (_status r = DATA) then
    if 0 <? _remaining r
    then Next (buffer_putc c (with_remaining (_remaining r - 1) r))
    else Respond r
  else if is_white_space c then
    match _status r with
    | COMMAND =>
        let cmd := command_from_str (buffer_str r) in
        let r := clear_buffer (with_command cmd r) in
        match status_from_command cmd with
        | Thrown e => Throw r e
        | Ok st =>
            let r := with_status st r in
            if decide (st = FINISHED) then Respond r else Next r
        end
    | DELETE_KEY =>
        let key := buffer_str r in
        if len key =? 0 then Throw r invalid_key
        else Next (with_status NOREP (clear_buffer (push_key key r)))
    | STORAGE_KEY =>
        let key := buffer_str r in
        if len key =? 0 then Throw r invalid_key
        else Next (with_status FLAGS (clear_buffer (push_key key r)))
    | FLAGS =>
        match stoi (buffer_str r) with
        | Thrown e => Throw r e
        | Ok z => Next (with_status EXPTIME (clear_buffer (with_flags z r)))
        end
    | EXPTIME =>
        match stoi (buffer_str r) with
        | Thrown e => Throw r e
        | Ok z => Next (with_status NBYTES (clear_buffer (with_exp_time z r)))
        end
    | NBYTES =>
        match stoi (buffer_str r) with
        | Thrown e => Throw r e
        | Ok z => Next (with_status NOREP (clear_buffer (with_remaining (u64 z) r)))
        end
    | NOREP =>
        if decide (buffer_str r = !"noreply") then
          Next (with_status NOREP (with_no_reply true (clear_buffer r)))
        else if 0 <? _remaining r then Next (with_status DATA r)
        else Respond r
    | RETRIEVAL_KEY | RETRIEVAL_KEYS =>
        if ss_tellp (_buffer r) =? 0 then Respond r
        else
          let key := buffer_str r in
          if len key =? 0 then Throw r invalid_key
          else Next (clear_buffer (push_key key r))
    | DATA | FINISHED | QUITTING => Next r
    end
  else Next (buffer_putc c r).

(** The [catch] of [process]. *)
Definition client_error (e : exn) (r : request) : request :=
  with_response (!"CLIENT_ERROR " ++ what e ++ crlf) (with_status FINISHED r).

Fixpoint process_loop (data : bytes) (r : request) : prog storeE request :=
  match data with
  | [] => Ret r
  | c :: data =>
      match step_char c r with
      | Next r => process_loop data r
      | Respond r => prepare_response r
      | Throw r e => Ret (client_error e r)
      end
  end.

Definition over_limit (length : Z) (r : request) : bool :=
  (0 <? _max_bytes r) && (_max_bytes r <=? u64 (length + ss_tellp (_buffer r))).

Definition process (data : bytes) (r : request) : prog storeE request :=
  if over_limit (len data) r
  then Ret (client_error (runtime_error !"request size exceeded max bytes") r)
  else process_loop data r.

Definition get_response (r : request) : exc bytes :=
  if decide (_status r = FINISHED) then Ok (_response r)
  else Thrown (runtime_error !"request not fully parsed").
