(* ===== verification/RequestFacts.v ===== *)
(** * The request parser: lemmas *)
From S2P Require Import Prelude Cxx Effects Store Request.

Open Scope Z_scope.

#[export] Instance status_type_inhabited : Inhabited status_type := populate COMMAND.

(** A token: what a request line has between two white-space characters. *)
Definition token (s : bytes) : Prop := Forall (fun c => is_white_space c = false) s.

#[export] Instance token_dec s : Decision (token s).
Proof. unfold token. apply _. Defined.

Lemma token_dec_numeral z : token (dec z).
Proof. exact (dec_no_space z). Qed.
#[export] Hint Resolve token_dec_numeral : cxx.

(** ** One iteration *)
Lemma step_char_text c r :
  _status r <> DATA -> is_white_space c = false -> step_char c r = Next (buffer_putc c r).
Proof. intros Hs Hc. unfold step_char. rewrite decide_False by done. now rewrite Hc. Qed.

Lemma step_char_data c r :
  _status r = DATA -> 0 < _remaining r ->
  step_char c r = Next (buffer_putc c (with_remaining (_remaining r - 1) r)).
Proof.
  intros Hs Hr. unfold step_char. rewrite decide_True by done.
  apply Z.ltb_lt in Hr. now rewrite Hr.
Qed.

Lemma step_char_data_end c r :
  _status r = DATA -> _remaining r = 0 -> step_char c r = Respond r.
Proof.
  intros Hs Hr. unfold step_char. rewrite decide_True by done. now rewrite Hr.
Qed.

(** ** Whole tokens and data blocks *)
Lemma loop_token s rest db mx st buf resp cmd ks fl ex rm nr :
  token s -> st <> DATA ->
  process_loop (s ++ rest) (Request db mx st buf resp cmd ks fl ex rm nr) =
  process_loop rest (Request db mx st (ss_puts s buf) resp cmd ks fl ex rm nr).
Proof.
  intros Hs Hst; revert buf; induction Hs as [|c s Hc Hs IH]; intros buf; [done|].
  simpl. rewrite step_char_text by done. apply IH.
Qed.

Lemma loop_data s rest db mx buf resp cmd ks fl ex rm nr :
  len s <= rm ->
  process_loop (s ++ rest) (Request db mx DATA buf resp cmd ks fl ex rm nr) =
  process_loop rest (Request db mx DATA (ss_puts s buf) resp cmd ks fl ex (rm - len s) nr).
Proof.
  revert buf rm; induction s as [|c s IH]; intros buf rm Hrm.
  - rewrite len_nil. by replace (rm - 0) with rm by lia.
  - rewrite len_cons in *. pose proof (len_nonneg s). simpl.
    rewrite step_char_data by (simpl; lia || done).
    unfold with_remaining, buffer_putc, with_buffer; simpl.
    rewrite IH by lia. do 2 f_equal. lia.
Qed.

Lemma puts_fresh s : ss_puts s (ss_reset []) = SStream s (length s).
Proof. now rewrite ss_puts_end by done. Qed.
Lemma puts_empty s : ss_puts s ss_empty = SStream s (length s).
Proof. now rewrite ss_puts_end by done. Qed.

(** A loop iteration at a white-space character. *)
Lemma loop_next c data r r' :
  step_char c r = Next r' -> process_loop (c :: data) r = process_loop data r'.
Proof. simpl. by intros ->. Qed.
Lemma loop_respond c data r r' :
  step_char c r = Respond r' -> process_loop (c :: data) r = prepare_response r'.
Proof. simpl. by intros ->. Qed.
Lemma loop_throw c data r r' e :
  step_char c r = Throw r' e -> process_loop (c :: data) r = Ret (client_error e r').
Proof. simpl. by intros ->. Qed.

Section Boundaries.
Context (db : bool) (mx : Z) (resp : bytes) (cmd : command_type) (ks : list bytes)
        (fl ex rm : Z) (nr : bool) (s : bytes).

(** The state at the end of a token: the buffer holds the token. *)
Abbreviation at_status st :=
  (Request db mx st (SStream s (length s)) resp cmd ks fl ex rm nr).

Lemma ws_command c :
  is_white_space c = true ->
  step_char c (at_status COMMAND) =
  let r := Request db mx COMMAND (ss_reset []) resp (command_from_str s) ks fl ex rm nr in
  match status_from_command (command_from_str s) with
  | Thrown e => Throw r e
  | Ok st => if decide (st = FINISHED) then Respond (with_status st r)
             else Next (with_status st r)
  end.
Proof. intros Hc. unfold step_char. rewrite decide_False by done. by rewrite Hc. Qed.

Lemma ws_command_next c st :
  is_white_space c = true -> status_from_command (command_from_str s) = Ok st ->
  st <> FINISHED ->
  step_char c (at_status COMMAND) =
  Next (Request db mx st (ss_reset []) resp (command_from_str s) ks fl ex rm nr).
Proof. intros Hc Hs Hst. rewrite ws_command by done. simpl. rewrite Hs. by rewrite decide_False. Qed.

Lemma ws_storage_key c :
  is_white_space c = true -> s <> [] ->
  step_char c (at_status STORAGE_KEY) =
  Next (Request db mx FLAGS (ss_reset []) resp cmd (ks ++ [s]) fl ex rm nr).
Proof.
  intros Hc Hs. unfold step_char. rewrite decide_False by done. rewrite Hc. simpl.
  by destruct s.
Qed.
Lemma ws_delete_key c :
  is_white_space c = true -> s <> [] ->
  step_char c (at_status DELETE_KEY) =
  Next (Request db mx NOREP (ss_reset []) resp cmd (ks ++ [s]) fl ex rm nr).
Proof.
  intros Hc Hs. unfold step_char. rewrite decide_False by done. rewrite Hc. simpl.
  by destruct s.
Qed.
Lemma ws_retrieval_key c :
  is_white_space c = true -> s <> [] ->
  step_char c (at_status RETRIEVAL_KEY) =
  Next (Request db mx RETRIEVAL_KEY (ss_reset []) resp cmd (ks ++ [s]) fl ex rm nr).
Proof.
  intros Hc Hs. unfold step_char. rewrite decide_False by done. rewrite Hc. simpl.
  by destruct s.
Qed.
Lemma ws_retrieval_end c :
  is_white_space c = true -> s = [] ->
  step_char c (at_status RETRIEVAL_KEY) = Respond (at_status RETRIEVAL_KEY).
Proof.
  intros Hc Hs. unfold step_char. rewrite decide_False by done. rewrite Hc. simpl.
  by subst s.
Qed.
Lemma ws_flags c z :
  is_white_space c = true -> stoi s = Ok z ->
  step_char c (at_status FLAGS) =
  Next (Request db mx EXPTIME (ss_reset []) resp cmd ks z ex rm nr).
Proof.
  intros Hc Hs. unfold step_char. rewrite decide_False by done. rewrite Hc. simpl.
  unfold buffer_str; simpl. by rewrite Hs.
Qed.
Lemma ws_exptime c z :
  is_white_space c = true -> stoi s = Ok z ->
  step_char c (at_status EXPTIME) =
  Next (Request db mx NBYTES (ss_reset []) resp cmd ks fl z rm nr).
Proof.
  intros Hc Hs. unfold step_char. rewrite decide_False by done. rewrite Hc. simpl.
  unfold buffer_str; simpl. by rewrite Hs.
Qed.
Lemma ws_nbytes c z :
  is_white_space c = true -> stoi s = Ok z ->
  step_char c (at_status NBYTES) =
  Next (Request db mx NOREP (ss_reset []) resp cmd ks fl ex (u64 z) nr).
Proof.
  intros Hc Hs. unfold step_char. rewrite decide_False by done. rewrite Hc. simpl.
  unfold buffer_str; simpl. by rewrite Hs.
Qed.
Lemma ws_noreply c :
  is_white_space c = true -> s = !"noreply" ->
  step_char c (at_status NOREP) =
  Next (Request db mx NOREP (ss_reset []) resp cmd ks fl ex rm true).
Proof.
  intros Hc Hs. unfold step_char. rewrite decide_False by done. rewrite Hc. simpl.
  by rewrite decide_True by done.
Qed.
Lemma ws_header_end c :
  is_white_space c = true -> s <> !"noreply" ->
  step_char c (at_status NOREP) =
  if 0 <? rm then Next (at_status DATA) else Respond (at_status NOREP).
Proof.
  intros Hc Hs. unfold step_char. rewrite decide_False by done. rewrite Hc. simpl.
  by rewrite decide_False by done.
Qed.
End Boundaries.

(** Literal words of the protocol are tokens. *)
Ltac solve_token := solve [vm_compute; repeat (constructor; [reflexivity|]); constructor].

(** Read one token and the white-space character after it. *)
Ltac read_token :=
  rewrite <- ?app_assoc; cbn [app];
  rewrite loop_token by (by eauto with cxx || solve_token || done);
  rewrite ?puts_fresh, ?puts_empty.
