(* ===== verification/MapStore.v ===== *)
(** * A reference store: a finite map and a mutex

    It implements [Store], meets [StoreContract], and is the concrete
    instance at which the theorems about request handlers are evaluated.  Its
    failing variant answers every call with what a script says, which is how
    the error branches are exercised. *)
From S2P Require Import Prelude Effects Store.

Record mstore := MStore { ms_map : gmap bytes bytes; ms_held : bool }.

#[export] Instance mstore_store : Store mstore := {
  store_get k d :=
    (d, Ok match ms_map d !! k with
           | Some v => (mk_status true, v)
           | None => (Status false true [], [])
           end);
  store_del k d := (MStore (delete k (ms_map d)) (ms_held d), Ok (mk_status true));
  store_put k v d := (MStore (<[k := v]> (ms_map d)) (ms_held d), Ok (mk_status true));
  store_lock d := if ms_held d then None else Some (MStore (ms_map d) true);
  store_unlock d := MStore (ms_map d) false
}.

#[export] Program Instance mstore_contract : StoreContract mstore := {
  store_view := ms_map;
  store_held := ms_held;
  store_ready _ := True
}.
Next Obligation. intros k [m h] _; simpl. destruct (m !! k); eauto 10. Qed.
Next Obligation. intros k w [m h] _; simpl; eauto 10. Qed.
Next Obligation. intros k [m h] _; simpl; eauto 10. Qed.
Next Obligation. intros [m []]; simpl; split; congruence. Qed.
Next Obligation. intros [m []] d' Heq; simplify_eq/=; auto. Qed.
Next Obligation. intros [m h]; simpl; auto. Qed.

(** A store whose answers are fixed: [None] in a field makes that call throw. *)
Record sstore := SStore {
  ss_get : exc (status * bytes); ss_del : exc status; ss_put : exc status; ss_held : bool
}.
Definition sstore_with_held (b : bool) (d : sstore) : sstore :=
  SStore (ss_get d) (ss_del d) (ss_put d) b.
#[export] Instance sstore_store : Store sstore := {
  store_get _ d := (d, ss_get d);
  store_del _ d := (d, ss_del d);
  store_put _ _ d := (d, ss_put d);
  store_lock d := if ss_held d then None else Some (sstore_with_held true d);
  store_unlock d := sstore_with_held false d
}.
