(* ===== verification/Memcached.v ===== *)
(** * The memcached text protocol on a key/value map: the specification of
      the request parser and executor, and the refinement

    A [command] is what a client means; [render] is the request line (and data
    block) it sends; [exec] is its effect on the map and the reply it is
    owed.  The theorems say that [process] of [Request], fed the rendered
    bytes over any store that meets [StoreContract], has that effect and
    prepares that reply. *)
From S2P Require Import Prelude Cxx Effects Store Request RequestFacts MapStore.

Open Scope Z_scope.

(** ** Specification *)
Inductive storage_kind := KSet | KAdd.

Inductive command :=
| CStore (kind : storage_kind) (key : bytes) (flags exptime : Z) (value : bytes) (noreply : bool)
| CGet (multi : bool) (key : bytes) (keys : list bytes)
| CDelete (key : bytes) (noreply : bool)
| CPing.

#[export] Instance storage_kind_eq_dec : EqDecision storage_kind.
Proof. solve_decision. Defined.
#[export] Instance command_eq_dec : EqDecision command.
Proof. solve_decision. Defined.

Definition kind_name (k : storage_kind) : bytes :=
  match k with KSet => !"set" | KAdd => !"add" end.
Definition kind_command (k : storage_kind) : command_type :=
  match k with KSet => SET | KAdd => ADD end.

Definition noreply_field (nr : bool) : bytes := if nr then space :: !"noreply" else [].

(** [<name> <key> <flags> <exptime> <bytes> [noreply]\r\n] *)
Definition storage_prefix (k : storage_kind) (key : bytes) (flags exptime n : Z) : bytes :=
  kind_name k ++ space :: key ++ space :: dec flags ++ space :: dec exptime ++ space :: dec n.
Definition storage_header (k : storage_kind) (key : bytes) (flags exptime n : Z) (nr : bool)
    : bytes :=
  storage_prefix k key flags exptime n ++ noreply_field nr ++ crlf.

Definition keys_field (keys : list bytes) : bytes := mjoin ((fun k => space :: k) <$> keys).

Definition render (c : command) : bytes :=
  match c with
  | CStore k key f e v nr => storage_header k key f e (len v) nr ++ v ++ crlf
  | CGet multi key keys =>
      (if multi then !"gets" else !"get") ++ keys_field (key :: keys) ++ crlf
  | CDelete key nr => !"delete" ++ space :: key ++ noreply_field nr ++ crlf
  | CPing => !"ping" ++ crlf
  end.

Definition key_ok (k : bytes) : Prop := k <> [] /\ token k.
Definition int_ok (z : Z) : Prop := int_min <= z <= int_max.

Definition command_ok (c : command) : Prop :=
  match c with
  | CStore _ key f e v _ => key_ok key /\ int_ok f /\ int_ok e /\ len v <= int_max
  | CGet _ key keys => Forall key_ok (key :: keys)
  | CDelete key _ => key_ok key
  | CPing => True
  end.

Definition command_noreply (c : command) : bool :=
  match c with CStore _ _ _ _ _ nr | CDelete _ nr => nr | _ => false end.

Definition value_block (m : gmap bytes bytes) (k : bytes) : bytes :=
  match m !! k with
  | Some v => !"VALUE " ++ k ++ !" 0 " ++ dec (len v) ++ crlf ++ v ++ crlf
  | None => []
  end.

Definition exec (c : command) (m : gmap bytes bytes) : gmap bytes bytes * bytes :=
  match c with
  | CStore KSet key _ _ v _ => (<[key := v]> m, !"STORED" ++ crlf)
  | CStore KAdd key _ _ v _ =>
      match m !! key with
      | None => (<[key := v]> m, !"STORED" ++ crlf)
      | Some _ => (m, !"NOT_STORED" ++ crlf)
      end
  | CGet _ key keys => (m, mjoin (value_block m <$> key :: keys) ++ !"END" ++ crlf)
  | CDelete key _ =>
      match m !! key with
      | Some _ => (delete key m, !"DELETED" ++ crlf)
      | None => (m, !"NOT_FOUND" ++ crlf)
      end
  | CPing => (m, !"PONG" ++ crlf)
  end.

(** ** Parsing

    The request object a rendered command leaves when [prepare_response] is
    called. *)
Definition parsed (db : bool) (mx : Z) (c : command) : request :=
  match c with
  | CStore k key f e v nr =>
      Request db mx (if bool_decide (v = []) then NOREP else DATA)
        (SStream v (length v)) [] (kind_command k) [key] f e 0 nr
  | CGet multi key keys =>
      Request db mx RETRIEVAL_KEY ss_empty [] (if multi then GETS else GET)
        (key :: keys) 0 0 0 false
  | CDelete key nr => Request db mx NOREP ss_empty [] DELETE [key] 0 0 0 nr
  | CPing => Request db mx FINISHED ss_empty [] PING [] 0 0 0 false
  end.

Section Parsing.
Context (db : bool) (mx : Z) (g : command_type).

Lemma loop_storage_prefix k key f e n c rest :
  key_ok key -> int_ok f -> int_ok e -> int_ok n -> is_white_space c = true ->
  process_loop (storage_prefix k key f e n ++ c :: rest) (new_request g db mx) =
  process_loop rest
    (Request db mx NOREP ss_empty [] (kind_command k) [key] f e (u64 n) false).
Proof.
  intros [Hk Hkt] Hf He Hn Hc. unfold storage_prefix, new_request.
  assert (Hname : token (kind_name k)) by (destruct k; solve_token).
  read_token. erewrite loop_next by (by apply ws_command_next; destruct k).
  replace (command_from_str (kind_name k)) with (kind_command k) by (by destruct k).
  read_token. erewrite loop_next by (by apply ws_storage_key).
  read_token. erewrite loop_next by (apply ws_flags; [done | by apply stoi_dec]).
  read_token. erewrite loop_next by (apply ws_exptime; [done | by apply stoi_dec]).
  read_token. erewrite loop_next by (apply ws_nbytes; [done | by apply stoi_dec]).
  done.
Qed.

(** The end of the header line: [\r] ends the last token, [\n] the line. *)
Lemma loop_header_lf c ks f e n nr rest :
  process_loop (lf :: rest) (Request db mx NOREP ss_empty [] c ks f e n nr) =
  let r := Request db mx NOREP ss_empty [] c ks f e n nr in
  if 0 <? n then process_loop rest (with_status DATA r) else prepare_response r.
Proof.
  simpl process_loop.
  rewrite (ws_header_end _ _ _ _ _ _ _ _ _ []) by (reflexivity || discriminate).
  by destruct (0 <? n).
Qed.

Lemma loop_storage_header k key f e n nr rest :
  key_ok key -> int_ok f -> int_ok e -> int_ok n ->
  process_loop (storage_header k key f e n nr ++ rest) (new_request g db mx) =
  let r := Request db mx NOREP ss_empty [] (kind_command k) [key] f e (u64 n) nr in
  if 0 <? u64 n then process_loop rest (with_status DATA r) else prepare_response r.
Proof.
  intros Hk Hf He Hn. unfold storage_header, crlf. rewrite <- app_assoc.
  destruct nr; cbn [noreply_field app]; rewrite loop_storage_prefix by done.
  - read_token. erewrite loop_next by (by apply ws_noreply). apply loop_header_lf.
  - apply loop_header_lf.
Qed.

Lemma keys_field_cons k ks : keys_field (k :: ks) = space :: k ++ keys_field ks.
Proof. done. Qed.

Lemma loop_keys k ks acc c rest :
  Forall key_ok (k :: ks) ->
  process_loop (k ++ keys_field ks ++ cr :: rest)
    (Request db mx RETRIEVAL_KEY ss_empty [] c acc 0 0 0 false) =
  process_loop rest (Request db mx RETRIEVAL_KEY ss_empty [] c (acc ++ k :: ks) 0 0 0 false).
Proof.
  revert k acc; induction ks as [|k' ks IH]; intros k acc Hks;
    apply Forall_cons in Hks as [[Hk Hkt] Hks].
  - cbn [keys_field fmap list_fmap mjoin list_join]. read_token.
    by erewrite loop_next by (by apply ws_retrieval_key).
  - rewrite keys_field_cons. read_token.
    erewrite loop_next by (by apply ws_retrieval_key).
    change (ss_reset []) with ss_empty.
    assert (Heq : acc ++ k :: k' :: ks = (acc ++ [k]) ++ k' :: ks) by (by rewrite <- app_assoc).
    rewrite Heq, <- IH, <- app_assoc by done. done.
Qed.
Lemma loop_retrieval_keys k ks acc c rest :
  Forall key_ok (k :: ks) ->
  process_loop (k ++ keys_field ks ++ crlf ++ rest)
    (Request db mx RETRIEVAL_KEY ss_empty [] c acc 0 0 0 false) =
  prepare_response (Request db mx RETRIEVAL_KEY ss_empty [] c (acc ++ k :: ks) 0 0 0 false).
Proof.
  intros Hks. unfold crlf. cbn [app]. rewrite loop_keys by done.
  by erewrite loop_respond by (by apply (ws_retrieval_end _ _ _ _ _ _ _ _ _ [])).
Qed.

(** A complete, well-formed command is parsed into [parsed]; whatever follows
    it in the same chunk is not looked at. *)
Lemma loop_render c rest :
  command_ok c ->
  process_loop (render c ++ rest) (new_request g db mx) = prepare_response (parsed db mx c).
Proof.
  destruct c as [k key f e v nr|multi key keys|key nr|]; simpl command_ok; intros Hc.
  - destruct Hc as (Hk & Hf & He & Hv). pose proof (len_nonneg v) as Hv0.
    cbn [render]. rewrite <- app_assoc, loop_storage_header
      by (done || unfold int_ok, int_min in *; lia).
    rewrite u64_id by (unfold size_max, int_max in *; lia). cbn [parsed].
    destruct v as [|b v']; [done|]. set (v := b :: v') in *.
    rewrite bool_decide_false by done.
    replace (0 <? len v) with true
      by (symmetry; apply Z.ltb_lt; unfold v; rewrite len_cons; pose proof (len_nonneg v'); lia).
    cbv zeta. unfold with_status.
    cbn [_db _max_bytes _buffer _response _command _keys _flags _exp_time _remaining _no_reply].
    rewrite <- app_assoc, loop_data by lia. rewrite puts_empty, Z.sub_diag.
    cbn [crlf app]. erewrite loop_respond by (by apply step_char_data_end). done.
  - cbn [render]. set (nm := if multi then lit "gets" else lit "get").
    unfold new_request. rewrite keys_field_cons, <- !app_assoc. cbn [app].
    rewrite loop_token by (done || unfold nm; destruct multi; solve_token).
    rewrite puts_empty.
    erewrite loop_next by (by apply ws_command_next; unfold nm; destruct multi).
    change (ss_reset []) with ss_empty.
    rewrite <- (app_assoc key), loop_retrieval_keys by done.
    unfold nm; by destruct multi.
  - cbn [render]. destruct Hc as [Hk Hkt]. unfold new_request, crlf. read_token.
    erewrite loop_next by (by apply ws_command_next). read_token.
    destruct nr; cbn [noreply_field app].
    + erewrite loop_next by (by apply ws_delete_key). read_token.
      erewrite loop_next by (by apply ws_noreply).
      erewrite loop_respond; [done|].
      rewrite (ws_header_end _ _ _ _ _ _ _ _ _ []) by done. done.
    + erewrite loop_next by (by apply ws_delete_key).
      erewrite loop_respond; [done|].
      rewrite (ws_header_end _ _ _ _ _ _ _ _ _ []) by done. done.
  - cbn [render]. unfold new_request, crlf. read_token.
    erewrite loop_respond; [done|]. by rewrite ws_command.
Qed.
End Parsing.

(** The first key of a command. *)
Definition first_key (c : command) : bytes :=
  match c with CStore _ k _ _ _ _ | CGet _ k _ | CDelete k _ => k | CPing => [] end.

(** ** From the [try] block to the whole method, over any store *)
Section Assemble.
Context {D : Type} `{Store D}.

Lemma wp_prepare_respond c mx m (d : D) (P : D -> Prop) :
  (c = CPing -> P d) ->
  (c <> CPing -> wp store_handle (respond (parsed true mx c) (first_key c)) d
                   (fun d' r => P d' /\ r = Ok (exec c m).2)) ->
  wp store_handle (prepare_response (parsed true mx c)) d (fun d' r =>
    P d' /\ r = Ok (finish (exec c m).2 (parsed true mx c))).
Proof.
  intros Hping Hresp. unfold prepare_response.
  destruct (decide (c = CPing)) as [->|Hc]; [apply wp_ret; auto|].
  assert (Hkeys : exists ks, _keys (parsed true mx c) = first_key c :: ks)
    by (destruct c; simpl; eauto; done).
  destruct Hkeys as [ks ->].
  rewrite decide_False by (destruct c as [[]|[]| |]; done).
  replace (negb _) with false by (by destruct c).
  do 2 wp_step. eapply wp_mono; [by apply Hresp|]. intros d' r [HP ->].
  repeat wp_step. done.
Qed.

Lemma wp_process_command c g mx rest m (d : D) (P : D -> Prop) :
  command_ok c -> over_limit (len (render c ++ rest)) (new_request g true mx) = false ->
  wp store_handle (prepare_response (parsed true mx c)) d (fun d' r =>
    P d' /\ r = Ok (finish (exec c m).2 (parsed true mx c))) ->
  wp store_handle (process (render c ++ rest) (new_request g true mx)) d (fun d' r =>
    P d' /\ exists q, r = Ok q /\ get_response q = Ok (exec c m).2
      /\ _no_reply q = command_noreply c /\ _status q = FINISHED
      /\ reset q = new_request NONE true mx).
Proof.
  intros Hc Hlim Hwp. unfold process. rewrite Hlim, loop_render by done.
  eapply wp_mono; [exact Hwp|]. intros d' r [Hd' ->]. split; [done|].
  eexists; split; [done|]. by destruct c as [[]|[]| |].
Qed.
End Assemble.

(** ** Execution on a store that meets the contract *)
Section Execution.
Context {D : Type} `{StoreContract D}.

Lemma wp_retrieve ks ss m b (d : D) (Q : D -> exc bytes -> Prop) :
  at_map m b d ->
  (forall d', at_map m b d' -> Q d' (Ok (ss ++ mjoin (value_block m <$> ks)))) ->
  wp store_handle (retrieve ks ss) d Q.
Proof.
  revert ss d; induction ks as [|k ks IH]; intros ss d Hd HQ; cbn [retrieve].
  - wp_step. specialize (HQ d Hd). cbn in HQ. by rewrite app_nil_r in HQ.
  - do 3 wp_step. eapply IH; [done|]. intros d' Hd'.
    specialize (HQ d' Hd'). cbn [fmap list_fmap mjoin list_join fst snd] in *.
    unfold value_block at 1 in HQ.
    destruct (m !! k); use_status; [|done]. by rewrite <- !app_assoc in *.
Qed.

(** The [try] block of [prepare_response] on a parsed command. *)
Lemma wp_respond c mx (d : D) m :
  c <> CPing -> at_map m false d ->
  wp store_handle (respond (parsed true mx c) (first_key c)) d
    (fun d' r => at_map (exec c m).1 false d' /\ r = Ok (exec c m).2).
Proof.
  intros Hc Hd.
  destruct c as [[] key f e v nr|multi key keys|key nr|]; [..|done]; cbn [first_key].
  - unfold respond; cbn [parsed _command kind_command buffer_str].
    repeat wp_step. use_status. auto.
  - unfold respond; cbn [parsed _command kind_command buffer_str]. do 4 wp_step. repeat wp_step.
    cbn [fst snd exec] in *.
    destruct (m !! key); use_status.
    + repeat wp_step. auto.
    + do 4 wp_step. use_status. repeat wp_step. auto.
  - assert (Heq : respond (parsed true mx (CGet multi key keys)) key =
      bind (retrieve (key :: keys) []) (fun ss => Ret (ss ++ lit "END" ++ crlf)))
      by (by destruct multi).
    rewrite Heq. wp_step. eapply wp_retrieve; [done|]. intros d' Hd'. do 2 wp_step. auto.
  - unfold respond; cbn [parsed _command]. do 3 wp_step. cbn [fst exec] in *.
    destruct (m !! key); use_status.
    + do 4 wp_step. use_status. auto.
    + wp_step. auto.
Qed.

Lemma wp_prepare c mx (d : D) m :
  at_map m false d ->
  wp store_handle (prepare_response (parsed true mx c)) d (fun d' r =>
    at_map (exec c m).1 false d' /\ r = Ok (finish (exec c m).2 (parsed true mx c))).
Proof.
  intros Hd. apply wp_prepare_respond; [by intros ->|]. intros Hc.
  by apply wp_respond.
Qed.
End Execution.

(** ** The main theorem *)

(** (C1) Refinement.  For every well-formed command (set, add, get, gets,
    delete, ping; any key, flags, expiry and data), over every store that
    meets [StoreContract] and whose mutex is free, [request::process] on the
    command's wire form (with anything after it in the same chunk, within the
    byte limit) terminates, leaves the store at the map [exec] gives, with
    the mutex free, and leaves a finished request whose response is the reply
    [exec] gives. *)
Theorem process_refines_exec {D : Type} `{StoreContract D} c g mx rest (d : D) m :
  command_ok c ->
  over_limit (len (render c ++ rest)) (new_request g true mx) = false ->
  at_map m false d ->
  wp store_handle (process (render c ++ rest) (new_request g true mx)) d (fun d' r =>
    at_map (exec c m).1 false d' /\
    exists q, r = Ok q /\ get_response q = Ok (exec c m).2
      /\ _no_reply q = command_noreply c /\ _status q = FINISHED
      /\ reset q = new_request NONE true mx).
Proof.
  intros Hc Hlim Hd. apply wp_process_command; [done..|]. by apply wp_prepare.
Qed.

Definition demo_map : gmap bytes bytes := {[ !"k" := !"old" ]}.

Lemma process_refines_exec_witness :
  wp store_handle
    (process (render (CStore KAdd !"key" 20 (-1) !"hello world" false) ++ !"tail")
       (new_request QUIT true 64)) (MStore demo_map false)
    (fun d' r =>
      at_map (<[ !"key" := !"hello world" ]> demo_map) false d' /\
      exists q, r = Ok q /\ get_response q = Ok (!"STORED" ++ crlf)
        /\ _no_reply q = false /\ _status q = FINISHED
        /\ reset q = new_request NONE true 64).
Proof.
  refine (process_refines_exec (CStore KAdd !"key" 20 (-1) !"hello world" false)
            QUIT 64 !"tail" (MStore demo_map false) demo_map _ _ _).
  - repeat split; [discriminate|solve_token|..]; vm_compute; congruence.
  - reflexivity.
  - repeat split.
Defined.
