(* ===== verification/RequestSafety.v ===== *)
(** * The request parser: invariant, chunking, totality, bounds *)
From S2P Require Import Prelude Cxx Effects Store Request RequestFacts MapStore Memcached.

Open Scope Z_scope.

(** ** The scan without its effect

    [scan] is where the loop over a chunk gets before it calls
    [prepare_response] or throws. *)
Fixpoint scan (data : bytes) (r : request) : step :=
  match data with
  | [] => Next r
  | c :: data => match step_char c r with Next r => scan data r | s => s end
  end.

(** What the loop does once the scan has stopped, with the rest of the
    data. *)
Definition resume (rest : bytes) (s : step) : prog storeE request :=
  match s with
  | Next r => process_loop rest r
  | Respond r => prepare_response r
  | Throw r e => Ret (client_error e r)
  end.

Lemma loop_app a b r : process_loop (a ++ b) r = resume b (scan a r).
Proof. revert r; induction a as [|c a IH]; intros r; simpl; [done|]. by destruct (step_char c r). Qed.
Lemma loop_scan a r : process_loop a r = resume [] (scan a r).
Proof. rewrite <- loop_app. by rewrite app_nil_r. Qed.

(** ** The invariant of reachable requests *)
Definition is_storage (c : command_type) : Prop := c = SET \/ c = ADD.
Definition is_retrieval (c : command_type) : Prop := c = GET \/ c = GETS.

(** The members each parser status determines. *)
Definition phase (r : request) : Prop :=
  match _status r with
  | COMMAND => _keys r = [] /\ _remaining r = 0
  | DELETE_KEY => _command r = DELETE /\ _keys r = [] /\ _remaining r = 0
  | STORAGE_KEY => is_storage (_command r) /\ _keys r = []
  | FLAGS | EXPTIME | NBYTES => is_storage (_command r) /\ length (_keys r) = 1%nat
  | NOREP => (is_storage (_command r) \/ _command r = DELETE /\ _remaining r = 0)
             /\ length (_keys r) = 1%nat
  | DATA => is_storage (_command r) /\ length (_keys r) = 1%nat
  | RETRIEVAL_KEY => is_retrieval (_command r)
  | RETRIEVAL_KEYS => False
  | FINISHED => True
  | QUITTING => _command r = QUIT
  end.

Record wf (r : request) : Prop := {
  wf_buffer : ss_at_end (_buffer r);
  wf_token : _status r <> DATA -> _status r <> FINISHED -> token (buffer_str r);
  wf_keys : Forall key_ok (_keys r);
  wf_flags : int_ok (_flags r);
  wf_exp_time : int_ok (_exp_time r);
  wf_remaining : 0 <= _remaining r <= size_max;
  wf_phase : phase r
}.

Lemma wf_new g db mx : wf (new_request g db mx).
Proof.
  split; simpl; try done; try (unfold int_ok, int_min, int_max, size_max; lia).
  intros _ _. constructor.
Qed.
Lemma wf_reset r : wf (reset r).
Proof.
  split; simpl; try done; try (unfold int_ok, int_min, int_max, size_max; lia).
  intros _ _. constructor.
Qed.
#[export] Hint Resolve wf_new wf_reset : cxx.

Lemma wf_client_error e r : wf r -> wf (client_error e r).
Proof. intros []; by split. Qed.
Lemma wf_finish s r : wf r -> wf (finish s r).
Proof. intros []; by split. Qed.
#[export] Hint Resolve wf_client_error wf_finish : cxx.

(** What an iteration leaves behind satisfies the invariant again. *)
Definition step_wf (s : step) : Prop :=
  match s with Next r | Respond r | Throw r _ => wf r end.

Lemma wf_putc_text c r :
  wf r -> _status r <> DATA -> is_white_space c = false -> wf (buffer_putc c r).
Proof.
  intros [Hb Ht Hk Hf He Hr Hp] Hs Hc. split; try done.
  - by apply ss_putc_at_end.
  - intros _ Hfin. change (token (ss_str (ss_putc c (_buffer r)))).
    rewrite ss_putc_end by done. simpl.
    apply Forall_app; split; [by apply Ht|]. by repeat constructor.
Qed.

Lemma wf_putc_data c r :
  wf r -> _status r = DATA -> 0 < _remaining r ->
  wf (buffer_putc c (with_remaining (_remaining r - 1) r)).
Proof.
  intros [Hb Ht Hk Hf He Hr Hp] Hs Hpos. split; try done.
  - by apply ss_putc_at_end.
  - simpl. lia.
  - unfold phase in *. simpl. by rewrite Hs in *.
Qed.

Lemma token_nil : token [].
Proof. constructor. Qed.
#[export] Hint Resolve token_nil : cxx.

Lemma len_zero {A} (l : list A) : (len l =? 0) = false -> l <> [].
Proof. intros H ->. done. Qed.

Lemma wf_push_key st r :
  wf r -> _status r <> DATA -> _status r <> FINISHED -> buffer_str r <> [] ->
  phase (with_status st (clear_buffer (push_key (buffer_str r) r))) ->
  wf (with_status st (clear_buffer (push_key (buffer_str r) r))).
Proof.
  intros [Hb Ht Hk Hf He Hr Hp] Hs1 Hs2 Hne Hph. split; auto with cxx; try done.
  simpl. apply Forall_app; split; [done|]. constructor; [|constructor]. split; auto.
Qed.

Lemma status_from_command_phase c st :
  status_from_command c = Ok st ->
  match st with
  | STORAGE_KEY => is_storage c
  | RETRIEVAL_KEY => is_retrieval c
  | DELETE_KEY => c = DELETE
  | QUITTING => c = QUIT
  | FINISHED => c = PING
  | _ => False
  end.
Proof. destruct c; simpl; intros; simplify_eq; auto; [by left|by right|by left|by right]. Qed.

(** The end of the command word. *)
Lemma wf_set_command cmd st r :
  wf r -> _status r = COMMAND ->
  match st with
  | STORAGE_KEY => is_storage cmd | RETRIEVAL_KEY => is_retrieval cmd
  | DELETE_KEY => cmd = DELETE | QUITTING => cmd = QUIT | FINISHED => cmd = PING
  | COMMAND => True | _ => False
  end ->
  wf (with_status st (clear_buffer (with_command cmd r))).
Proof.
  intros [Hb Ht Hk Hf He Hr Hp] Hst H. unfold phase in Hp. rewrite Hst in Hp.
  split; auto with cxx; try done. unfold phase; simpl. destruct st; intuition.
Qed.

Lemma wf_command_word r :
  wf r -> _status r = COMMAND ->
  let cmd := command_from_str (buffer_str r) in
  let r' := clear_buffer (with_command cmd r) in
  wf r' /\ (forall st, status_from_command cmd = Ok st -> wf (with_status st r')).
Proof.
  intros Hwf Hst cmd r'. split.
  - replace r' with (with_status COMMAND r')
      by (unfold r', with_status, clear_buffer, with_buffer, with_command; simpl; by rewrite Hst).
    by apply wf_set_command.
  - intros st E. apply status_from_command_phase in E. apply wf_set_command; [done..|].
    by destruct st.
Qed.

(** White space outside a data block. *)
Lemma step_space_wf c r :
  wf r -> _status r <> DATA -> is_white_space c = true -> step_wf (step_char c r).
Proof.
  intros Hwf Hd Hc. unfold step_char. rewrite decide_False, Hc by done.
  pose proof Hwf as [Hb Ht Hk Hf He Hr Hp]. unfold phase in Hp.
  destruct (_status r) eqn:Hst; try done.
  - destruct (wf_command_word r Hwf Hst) as [H1 H2].
    destruct (status_from_command _) as [st|e] eqn:E; [|done].
    cbv zeta. specialize (H2 st eq_refl). by case_decide.
  - destruct (len _ =? 0) eqn:E; [done|]. apply len_zero in E.
    apply wf_push_key; try congruence. destruct Hp as (Hcmd & Hks & Hrm).
    unfold phase; simpl. rewrite Hks. auto.
  - destruct (len _ =? 0) eqn:E; [done|]. apply len_zero in E.
    apply wf_push_key; try congruence. destruct Hp as (Hcmd & Hks).
    unfold phase; simpl. by rewrite Hks.
  - destruct (stoi _) eqn:E; [|done]. apply stoi_range in E. by split; auto with cxx.
  - destruct (stoi _) eqn:E; [|done]. apply stoi_range in E. by split; auto with cxx.
  - destruct (stoi _) eqn:E; [|done]. split; simpl; auto with cxx; try done.
    unfold phase; simpl. split; [left|]; tauto.
  - case_decide; [by split; auto with cxx|].
    destruct (0 <? _remaining r) eqn:E; [|done]. bool_to_prop.
    split; auto; try done. unfold phase; simpl.
    destruct Hp as [[?|[? ?]] ?]; [done|lia].
  - destruct (_ =? 0) eqn:E1; [done|]. destruct (len _ =? 0) eqn:E; [done|].
    apply len_zero in E.
    replace (clear_buffer _) with (with_status RETRIEVAL_KEY (clear_buffer (push_key (buffer_str r) r)))
      by (unfold with_status, clear_buffer, with_buffer, push_key; simpl; by rewrite Hst).
    apply wf_push_key; try congruence; done.
Qed.

Lemma step_char_wf c r : wf r -> step_wf (step_char c r).
Proof.
  intros Hwf. destruct (decide (_status r = DATA)) as [Hd|Hd].
  - unfold step_char. rewrite decide_True by done.
    destruct (0 <? _remaining r) eqn:E; bool_to_prop; [by apply wf_putc_data|done].
  - destruct (is_white_space c) eqn:Hc; [by apply step_space_wf|].
    rewrite step_char_text by done. by apply wf_putc_text.
Qed.

Lemma scan_wf data r : wf r -> step_wf (scan data r).
Proof.
  revert r; induction data as [|c data IH]; intros r Hr; simpl; [done|].
  pose proof (step_char_wf c r Hr). destruct (step_char c r); auto.
Qed.

(** ** The outcome of [prepare_response] and [process] *)
Section Outcome.
Context {D : Type} `{Store D}.

Lemma run_prepare_response r (d d' : D) x :
  run store_handle (prepare_response r) d = Done d' x -> exists s, x = Ok (finish s r).
Proof.
  unfold prepare_response. case_decide; [intros [= _ <-]; eauto|].
  destruct (negb _); [intros [= _ <-]; eauto|].
  destruct (_keys r) as [|k ks]; [intros [= _ <-]; eauto|].
  rewrite run_bind, run_catch.
  destruct (run store_handle (respond r k) d) as [d1 [s|e]|]; simpl; [..|done];
    intros [= _ <-]; eauto.
Qed.

(** How [process] ends: the input ran out, a response was prepared, or an
    exception became an error response. *)
Lemma run_process_cases data r (d d' : D) x :
  run store_handle (process data r) d = Done d' x ->
  exists r', x = Ok r' /\
    ((over_limit (len data) r = false /\ scan data r = Next r' /\ d' = d)
     \/ (exists r0 s, over_limit (len data) r = false /\ scan data r = Respond r0 /\ r' = finish s r0)
     \/ (exists r0 e, (r0 = r /\ over_limit (len data) r = true \/ over_limit (len data) r = false /\ scan data r = Throw r0 e)
                     /\ r' = client_error e r0 /\ d' = d)).
Proof.
  unfold process. destruct (over_limit _ _) eqn:Hov.
  { intros [= <- <-]. eauto 12. }
  rewrite loop_scan. destruct (scan data r) as [r1|r1|r1 e] eqn:Hs; simpl.
  - intros [= <- <-]. eauto 10.
  - intros Hrun. pose proof (run_prepare_response _ _ _ _ Hrun) as [s ->]. eauto 12.
  - intros [= <- <-]. eauto 12.
Qed.

Lemma run_process_wf data r (d d' : D) r' :
  wf r -> run store_handle (process data r) d = Done d' (Ok r') -> wf r'.
Proof.
  intros Hr Hrun. apply run_process_cases in Hrun as (r1 & [= <-] & Hc).
  pose proof (scan_wf data r Hr) as Hw.
  destruct Hc as [(_ & Hs & _)|[(r0 & s & _ & Hs & ->)|(r0 & e & Hs & -> & _)]].
  - by rewrite Hs in Hw.
  - rewrite Hs in Hw. auto with cxx.
  - destruct Hs as [[-> _]|[_ Hs]]; [|rewrite Hs in Hw]; auto with cxx.
Qed.

(** The requests a connection can hold: the constructed one, what [process]
    makes of a reachable one on any data over any state of the store, and a
    reset one. *)
Inductive reachable (g : command_type) (db : bool) (mx : Z) : request -> Prop :=
| reach_new : reachable g db mx (new_request g db mx)
| reach_process r data d d' r' :
    reachable g db mx r ->
    run store_handle (process data r) d = Done d' (Ok r') ->
    reachable g db mx r'
| reach_reset r : reachable g db mx r -> reachable g db mx (reset r).
End Outcome.

(** (C2) Invariant.  Every request a connection can ever hold is well formed:
    the buffer's put position is at its end (so [tellp] is the length), the
    keys are non-empty tokens, the integers are in the range of [int] and
    [size_t], and the members agree with the parser status: a storage command
    has exactly one key from FLAGS on, DATA and the numeric fields belong to
    storage commands only, RETRIEVAL_KEYS is never entered. *)
Theorem reachable_wf {D : Type} `{Store D} g db mx r :
  reachable (D := D) g db mx r -> wf r.
Proof.
  induction 1; auto with cxx. by eapply run_process_wf.
Qed.

Lemma reachable_wf_witness :
  wf (Request true 0 DATA (SStream !"he" 2) [] SET [!"key"] 7 (-1) 3 false).
Proof.
  apply (reachable_wf (D := mstore) NONE true 0).
  apply reach_process with (r := new_request NONE true 0) (data := !"set key 7 -1 5" ++ crlf ++ !"he")
    (d := MStore ∅ false) (d' := MStore ∅ false); [constructor|].
  vm_compute. reflexivity.
Defined.

(** (C3) Error handling.  No exception leaves [process]: whatever the bytes,
    the state of the request and the answers of the store (exceptions
    included), the call does not end by throwing. *)
Theorem process_never_throws {D : Type} `{Store D} data r (d d' : D) e :
  run store_handle (process data r) d <> Done d' (Thrown e).
Proof. intros Hrun. by apply run_process_cases in Hrun as (r' & ? & _). Qed.

(** ** Chunking *)

(** What an iteration keeps. *)
Lemma step_char_keeps c r r' :
  step_char c r = Next r' ->
  _max_bytes r' = _max_bytes r /\ (_status r <> FINISHED -> _status r' <> FINISHED).
Proof.
  unfold step_char. intros H. repeat case_match; simplify_eq; simpl; split; done || congruence.
Qed.
Lemma scan_keeps data r r' :
  scan data r = Next r' ->
  _max_bytes r' = _max_bytes r /\ (_status r <> FINISHED -> _status r' <> FINISHED).
Proof.
  revert r; induction data as [|c data IH]; intros r; simpl; [by intros [= <-]|].
  destruct (step_char c r) as [r1| |] eqn:E; [|done..]. intros Hs.
  apply step_char_keeps in E. apply IH in Hs. intuition congruence.
Qed.

(** Feeding a request as a connection does: chunk after chunk, until the
    request is finished or the client quits. *)
Fixpoint feed (chunks : list bytes) (r : request) : prog storeE request :=
  match chunks with
  | [] => Ret r
  | c :: chunks =>
      r <- process c r ;;
      match _status r with
      | FINISHED | QUITTING => Ret r
      | _ => feed chunks r
      end
  end.

Lemma process_no_limit data r : _max_bytes r = 0 -> process data r = process_loop data r.
Proof. unfold process, over_limit. by intros ->. Qed.

(** (C4) Equivalence.  With no byte limit the way the bytes of a request are
    split into reads does not matter: what the store and the request become by
    feeding any list of chunks one read at a time is what a single [process]
    of the concatenated bytes makes of them (unless the client quits, after
    which the connection reads no more). *)
Theorem feed_process_concat {D : Type} `{Store D} chunks r (d d' : D) r' :
  _max_bytes r = 0 -> _status r <> FINISHED ->
  run store_handle (feed chunks r) d = Done d' (Ok r') ->
  _status r' <> QUITTING ->
  run store_handle (process (mjoin chunks) r) d = Done d' (Ok r').
Proof.
  revert r d; induction chunks as [|c chunks IH]; intros r d Hmx Hst Hrun Hq.
  { by rewrite process_no_limit. }
  cbn [feed mjoin list_join] in *. rewrite process_no_limit by done.
  rewrite run_bind, process_no_limit, loop_scan in Hrun by done. rewrite loop_app. destruct (scan c r) as [r1|r1|r1 e] eqn:Hs; simpl in *.
  - pose proof (scan_keeps _ _ _ Hs) as [Hmx1 Hst1]. specialize (Hst1 Hst).
    rewrite <- process_no_limit by congruence.
    apply IH; [congruence|done| |done]. destruct (_status r1) eqn:E; simpl in Hrun; try done.
    injection Hrun as <- <-. congruence.
  - destruct (run _ (prepare_response r1) d) as [d1 x|] eqn:Hp; [|done].
    pose proof (run_prepare_response _ _ _ _ Hp) as [s ->]. by simpl in *.
  - done.
Qed.

Lemma feed_process_concat_witness :
  let chunks := [ !"set k 0 0"; !" 5" ++ crlf ++ !"he"; !"llo" ++ crlf ] in
  exists d' r',
    run store_handle (feed chunks (new_request NONE true 0)) (MStore ∅ false) = Done d' (Ok r') /\
    run store_handle (process (mjoin chunks) (new_request NONE true 0)) (MStore ∅ false)
      = Done d' (Ok r').
Proof.
  intros chunks. eexists _, _. split; [vm_compute; reflexivity|].
  refine (feed_process_concat chunks (new_request NONE true 0) (MStore ∅ false) _ _ _ _ _ _);
    [reflexivity | discriminate | vm_compute; reflexivity | discriminate].
Defined.

(** ** The byte limit *)
Definition next_request (s : step) : request :=
  match s with Next r | Respond r | Throw r _ => r end.

Lemma step_buffer_growth c r :
  wf r -> len (buffer_str (next_request (step_char c r))) <= len (buffer_str r) + 1.
Proof.
  intros Hwf. pose proof (wf_buffer _ Hwf) as Hb. pose proof (len_nonneg (buffer_str r)).
  assert (Hput : len (ss_str (ss_putc c (_buffer r))) = len (buffer_str r) + 1)
    by (rewrite ss_putc_end by done; unfold buffer_str; simpl; rewrite len_app; done).
  unfold step_char, next_request.
  repeat case_match; simplify_eq; unfold buffer_str in *; simpl in *; rewrite ?len_nil; lia.
Qed.

Lemma scan_buffer_growth data r :
  wf r -> len (buffer_str (next_request (scan data r))) <= len (buffer_str r) + len data.
Proof.
  revert r; induction data as [|c data IH]; intros r Hwf; simpl.
  - rewrite len_nil. lia.
  - pose proof (step_buffer_growth c r Hwf) as H1. pose proof (step_char_wf c r Hwf) as H2.
    rewrite len_cons. pose proof (len_nonneg data).
    destruct (step_char c r); simpl in *; [|lia..]. specialize (IH _ H2). lia.
Qed.

(** (C5) Bounds.  With a byte limit set, the buffer of a request never
    reaches it: if it is below the limit before a chunk it is below the limit
    after it, whatever the chunk (any chunk whose length together with the
    buffer's is a [size_t]) and the outcome. *)
Theorem process_buffer_bound {D : Type} `{Store D} data r (d d' : D) r' :
  wf r -> 0 < _max_bytes r -> len (buffer_str r) < _max_bytes r ->
  len data + len (buffer_str r) <= size_max ->
  run store_handle (process data r) d = Done d' (Ok r') ->
  len (buffer_str r') < _max_bytes r.
Proof.
  intros Hwf Hmx Hlt Hfit Hrun. pose proof (len_nonneg data). pose proof (len_nonneg (buffer_str r)).
  pose proof (scan_buffer_growth data r Hwf) as Hg.
  assert (Hov : over_limit (len data) r = false -> len data + len (buffer_str r) < _max_bytes r).
  { unfold over_limit. rewrite ss_tellp_end by apply Hwf. fold (buffer_str r).
    rewrite u64_id by lia. apply Z.ltb_lt in Hmx. rewrite Hmx. simpl. intros; bool_to_prop. lia. }
  apply run_process_cases in Hrun as (r1 & [= <-] & Hc).
  destruct Hc as [(Hl & Hs & _)|[(r0 & s & Hl & Hs & ->)|(r0 & e & [[-> _]|[Hl Hs]] & -> & _)]];
    [| |done|]; specialize (Hov Hl); rewrite Hs in Hg; simpl in Hg; unfold buffer_str in *;
    simpl; lia.
Qed.

Lemma process_buffer_bound_witness :
  len (buffer_str (client_error (runtime_error !"request size exceeded max bytes")
                     (new_request NONE true 8))) < 8.
Proof.
  refine (process_buffer_bound !"get somekey" (new_request NONE true 8) (MStore ∅ false)
            (MStore ∅ false) _ _ _ _ _ _); [apply wf_new|vm_compute; congruence..|].
  reflexivity.
Defined.
