(* ===== verification/RequestErrors.v ===== *)
(** * The request parser: malformed input and failing stores *)
From S2P Require Import Prelude Cxx Effects Store Request RequestFacts MapStore Memcached.

Open Scope Z_scope.

(** ** Malformed requests *)
Lemma status_from_none : status_from_command NONE = Thrown (runtime_error !"unsupported command").
Proof. done. Qed.

(** Error handling.  A line whose first word is not one of the seven
    commands (a blank line included, and so the [\r\n] that follows the data
    of an empty value when it arrives in a read of its own) is answered
    [CLIENT_ERROR unsupported command] without touching the store, and the
    rest of the chunk is dropped. *)
Theorem unknown_command_rejected g db mx w c rest :
  token w -> command_from_str w = NONE -> is_white_space c = true ->
  over_limit (len (w ++ c :: rest)) (new_request g db mx) = false ->
  exists r, process (w ++ c :: rest) (new_request g db mx) = Ret r
    /\ get_response r = Ok (!"CLIENT_ERROR unsupported command" ++ crlf)
    /\ _keys r = [] /\ _no_reply r = false.
Proof.
  intros Hw Hcmd Hc Hlim. unfold process. rewrite Hlim. unfold new_request.
  rewrite loop_token by done. rewrite puts_empty.
  erewrite loop_throw by (rewrite ws_command, Hcmd, status_from_none by done; reflexivity).
  by eexists.
Qed.

Lemma unknown_command_rejected_witness :
  exists r, process crlf (new_request SET true 0) = Ret r
    /\ get_response r = Ok (!"CLIENT_ERROR unsupported command" ++ crlf)
    /\ _keys r = [] /\ _no_reply r = false.
Proof.
  refine (unknown_command_rejected SET true 0 [] cr [lf] _ _ _ _); [constructor|reflexivity..].
Defined.

(** Error handling.  A number field that [std::stoi] rejects (no digits,
    or a value that is not an [int]) ends the request with [CLIENT_ERROR
    stoi], whichever of the three number fields it is, before any data is
    read; the fields before it are parsed. *)
Theorem bad_number_rejected g db mx (k : storage_kind) key fields w rest :
  key_ok key -> Forall (fun z => int_ok z) fields -> (length fields < 3)%nat ->
  token w -> (forall z, stoi w <> Ok z) ->
  let line := kind_name k ++ space :: key ++ space
    :: mjoin ((fun z => dec z ++ [space]) <$> fields) ++ w ++ space :: rest in
  exists r, process_loop line (new_request g db mx) = Ret r
    /\ get_response r = Ok (!"CLIENT_ERROR stoi" ++ crlf).
Proof.
  intros [Hk Hkt] Hf Hlen Hw Hbad line. unfold line, new_request.
  assert (Hname : token (kind_name k)) by (destruct k; solve_token).
  read_token. erewrite loop_next by (by apply ws_command_next; destruct k).
  read_token. erewrite loop_next by (by apply ws_storage_key).
  assert (Hwhat : exists e, stoi w = Thrown e /\ what e = lit "stoi").
  { destruct (stoi w) as [z|e] eqn:E; [by destruct (Hbad z)|]. exists e; split; [done|].
    unfold stoi, sto in E. repeat case_match; by simplify_eq. }
  destruct Hwhat as (e & He & Hwhat).
  assert (Hend : forall st r, st = FLAGS \/ st = EXPTIME \/ st = NBYTES ->
    _status r = st -> buffer_str r = w -> step_char space r = Throw r e).
  { intros st r Hst Hr Hb. unfold step_char. rewrite Hr, Hb, He.
    by destruct Hst as [-> |[-> | ->]]. }
  assert (Hreply : forall r, get_response (client_error e r) = Ok (lit "CLIENT_ERROR stoi" ++ crlf)).
  { intros r. unfold get_response, client_error; simpl. by rewrite Hwhat. }
  destruct fields as [|z1 [|z2 [|]]]; cbn [fmap list_fmap mjoin list_join length] in *; [..|lia];
    repeat (apply Forall_cons in Hf as [? Hf]); rewrite ?app_nil_l, <- ?app_assoc.
  - rewrite loop_token, puts_fresh by done. erewrite loop_throw by (eapply (Hend FLAGS); [tauto|done|done]). eauto.
  - read_token. erewrite loop_next by (apply ws_flags; [done | by apply stoi_dec]).
    rewrite loop_token, puts_fresh by done. erewrite loop_throw by (eapply (Hend EXPTIME); [tauto|done|done]). eauto.
  - read_token. erewrite loop_next by (apply ws_flags; [done | by apply stoi_dec]).
    read_token. erewrite loop_next by (apply ws_exptime; [done | by apply stoi_dec]).
    rewrite loop_token, puts_fresh by done. erewrite loop_throw by (eapply (Hend NBYTES); [tauto|done|done]). eauto.
Qed.

Lemma bad_number_rejected_witness :
  exists r, process_loop (!"set k 0 2147483648 5" ++ crlf) (new_request NONE true 0) = Ret r
    /\ get_response r = Ok (!"CLIENT_ERROR stoi" ++ crlf).
Proof.
  refine (bad_number_rejected NONE true 0 KSet !"k" [0] !"2147483648" (!"5" ++ crlf) _ _ _ _ _).
  - split; [discriminate|solve_token].
  - repeat constructor; vm_compute; congruence.
  - simpl; lia.
  - solve_token.
  - vm_compute. discriminate.
Defined.

(** (C6) Bounds.  A negative byte count is converted to [size_t] unchecked: it
    becomes [2^64 + n], the request goes to DATA, and every byte the client
    sends from then on (up to that many) is swallowed without a reply. *)
Theorem negative_length_swallows g db k key f e n nr data :
  key_ok key -> int_ok f -> int_ok e -> int_ok n -> n < 0 -> len data <= size_max + 1 + n ->
  process (storage_header k key f e n nr ++ data) (new_request g db 0) =
  Ret (Request db 0 DATA (SStream data (length data)) [] (kind_command k) [key] f e
         (size_max + 1 + n - len data) nr).
Proof.
  intros Hk Hf He Hn Hneg Hlen. unfold int_ok, int_min, int_max in *.
  unfold process. simpl over_limit. cbv iota.
  rewrite loop_storage_header by done. rewrite u64_neg by (unfold size_max in *; lia).
  replace (0 <? n + size_max + 1) with true by (symmetry; apply Z.ltb_lt; unfold size_max; lia).
  cbv zeta. unfold with_status; simpl.
  rewrite <- (app_nil_r data) at 1. rewrite loop_data by lia. rewrite puts_empty.
  simpl. do 2 f_equal. lia.
Qed.

Lemma negative_length_swallows_witness :
  process (!"set k 0 0 -1" ++ crlf ++ !"get k" ++ crlf) (new_request NONE true 0) =
  Ret (Request true 0 DATA (SStream (!"get k" ++ crlf) 7) [] SET [!"k"] 0 0
         18446744073709551608 false).
Proof.
  refine (negative_length_swallows NONE true KSet !"k" 0 0 (-1) false (!"get k" ++ crlf) _ _ _ _ _ _);
    try (vm_compute; repeat split; congruence).
  split; [discriminate|solve_token].
Defined.

(** Functional behaviour.  A token other than [noreply] after the byte
    count (the [[noreply]] of the tests, or nothing but a trailing space) is
    left in the buffer: the value stored is that token followed by the
    first [n] bytes after the carriage return, the line feed of the header
    included, so the last byte of the client's data is cut off and taken for
    the end of the block. *)
Theorem stray_token_stored {D : Type} `{StoreContract D} g k key f e t body c rest (d : D) m :
  key_ok key -> int_ok f -> int_ok e -> token t -> t <> !"noreply" ->
  0 < len body <= int_max -> at_map m false d ->
  let cmd := CStore k key f e (t ++ body) false in
  wp store_handle
    (process (storage_prefix k key f e (len body) ++ space :: t ++ cr :: body ++ c :: rest)
       (new_request g true 0)) d
    (fun d' r => at_map (exec cmd m).1 false d' /\
       exists q, r = Ok q /\ get_response q = Ok (exec cmd m).2).
Proof.
  intros Hk Hf He Ht Hnr Hb Hd cmd. unfold process. simpl over_limit. cbv iota.
  unfold int_ok, int_min, int_max in *.
  rewrite loop_storage_prefix by (done || unfold int_ok, int_min, int_max; lia).
  rewrite u64_id by (unfold size_max; lia).
  rewrite loop_token, puts_empty by done.
  assert (Hpos : (0 <? len body) = true) by (apply Z.ltb_lt; lia).
  erewrite loop_next by (rewrite ws_header_end, Hpos by done; reflexivity).
  rewrite loop_data, ss_puts_end, Z.sub_diag by (done || lia).
  erewrite loop_respond by (by apply step_char_data_end). simpl ss_str; simpl ss_pos.
  assert (Hparsed : Request true 0 DATA (SStream (t ++ body) (length t + length body)) []
    (kind_command k) [key] f e 0 false = parsed true 0 cmd).
  { simpl. rewrite length_app, bool_decide_false; [done|]. intros Hnil.
    apply app_eq_nil in Hnil as [_ ->]. done. }
  rewrite Hparsed. eapply wp_mono; [by apply wp_prepare|].
  intros d' r [Hd' ->]; eauto.
Qed.

Lemma stray_token_stored_witness :
  wp store_handle
    (process (!"add key3 20 0 11 [noreply]" ++ crlf ++ !"hello world" ++ crlf)
       (new_request NONE true 0)) (MStore ∅ false)
    (fun d' r => at_map (<[ !"key3" := !"[noreply]" ++ lf :: !"hello worl" ]> ∅) false d' /\
       exists q, r = Ok q /\ get_response q = Ok (!"STORED" ++ crlf)).
Proof.
  refine (stray_token_stored NONE KAdd !"key3" 20 0 !"[noreply]" (lf :: !"hello worl") "d"%char crlf
            (MStore ∅ false) ∅ _ _ _ _ _ _ _);
    try (vm_compute; repeat split; congruence).
  - split; [discriminate|solve_token].
  - solve_token.
Defined.

(** ** Failing stores *)

(** The store throws between the [lock] and the [unlock] of an ADD of [k]:
    [get] does, or it says that the key is not there and [put] does. *)
Definition add_throws {D : Type} `{Store D} (r : request) (k : bytes) (d d' : D) (e : exn) : Prop :=
  store_get k d = (d', Thrown e)
  \/ exists d1 s v, store_get k d = (d1, Ok (s, v)) /\ ok s = false /\ is_not_found s = true
       /\ store_put k (buffer_str r) d1 = (d', Thrown e).

(** (C7) Error handling.  If the store throws while ADD holds its mutex, from
    [get] or from [put], the handler answers with the error but never calls
    [unlock]: the mutex stays as [lock] left it.  On a store whose [lock] waits
    for its owner the next ADD, of any key, blocks for ever. *)
Theorem add_exception_keeps_lock {D : Type} `{Store D} r k ks (d d1 d2 : D) e :
  _command r = ADD -> _db r = true -> _keys r = k :: ks ->
  store_lock d = Some d1 -> add_throws r k d1 d2 e ->
  run store_handle (prepare_response r) d = Done d2 (Ok (finish (error_line (what e)) r))
  /\ (store_lock d2 = None -> forall r', _command r' = ADD -> _db r' = true -> _keys r' <> [] ->
       run store_handle (prepare_response r') d2 = Blocked).
Proof.
  intros Hc Hdb Hks Hl Ht. split.
  - unfold prepare_response. rewrite Hc, Hdb, Hks, decide_False by done. simpl negb. cbv iota.
    rewrite !run_bind, !run_catch. unfold respond. rewrite Hc. simpl. rewrite Hl. simpl.
    destruct Ht as [->|(d' & s & v & -> & Hs & Hn & Hp)]; [done|]. simpl. rewrite Hs, Hn. simpl. by rewrite Hp.
  - intros Hl2 r' Hc' Hdb' Hks'. unfold prepare_response. destruct (_keys r') as [|k' ks']; [done|].
    rewrite Hc', Hdb', decide_False by done. simpl negb. cbv iota.
    rewrite run_bind, run_catch. unfold respond. rewrite Hc'. simpl. by rewrite Hl2.
Qed.

Lemma add_exception_keeps_lock_witness :
  let r := parsed true 0 (CStore KAdd !"k" 0 0 !"v" false) in
  let e := runtime_error !"disk" in
  let gets b := sstore_with_held b (SStore (Thrown e) (Ok (mk_status true)) (Ok (mk_status true)) false) in
  let puts b := sstore_with_held b (SStore (Ok (Status false true [], [])) (Ok (mk_status true)) (Thrown e) false) in
  (run store_handle (prepare_response r) (gets false) = Done (gets true) (Ok (finish (!"ERROR disk" ++ crlf) r))
   /\ run store_handle (prepare_response r) (gets true) = Blocked)
  /\ (run store_handle (prepare_response r) (puts false) = Done (puts true) (Ok (finish (!"ERROR disk" ++ crlf) r))
   /\ run store_handle (prepare_response r) (puts true) = Blocked).
Proof.
  intros r e gets puts. split.
  - destruct (add_exception_keeps_lock r !"k" [] (gets false) (gets true) (gets true) e) as [H1 H2];
      [reflexivity..|left; reflexivity|]. split; [exact H1|]. apply H2; [reflexivity..|discriminate].
  - destruct (add_exception_keeps_lock r !"k" [] (puts false) (puts true) (puts true) e) as [H1 H2];
      [reflexivity..| |].
    { right. exists (puts true), (Status false true []), []. repeat split; reflexivity. }
    split; [exact H1|]. apply H2; [reflexivity..|discriminate].
Defined.

(** Error handling.  DELETE treats every failure of [get] as an absent
    key: also when the database reports an error that is not not-found, the
    reply is [NOT_FOUND], and [del] is not called. *)
Theorem delete_hides_read_error {D : Type} `{Store D} r k ks (d d1 : D) s v :
  _command r = DELETE -> _db r = true -> _keys r = k :: ks ->
  store_get k d = (d1, Ok (s, v)) -> ok s = false ->
  run store_handle (prepare_response r) d = Done d1 (Ok (finish (!"NOT_FOUND" ++ crlf) r)).
Proof.
  intros Hc Hdb Hks Hg Hs. unfold prepare_response.
  rewrite Hc, Hdb, Hks, decide_False by done. simpl negb. cbv iota.
  rewrite run_bind, run_catch. unfold respond. rewrite Hc. simpl. rewrite Hg. simpl. by rewrite Hs.
Qed.

Lemma delete_hides_read_error_witness :
  let r := parsed true 0 (CDelete !"k" false) in
  let d := SStore (Ok (Status false false !"IO error", [])) (Ok (mk_status true))
             (Ok (mk_status true)) false in
  run store_handle (prepare_response r) d = Done d (Ok (finish (!"NOT_FOUND" ++ crlf) r)).
Proof.
  intros r d.
  refine (delete_hides_read_error r !"k" [] d d (Status false false !"IO error") [] _ _ _ _ _);
    reflexivity.
Defined.
