(* ===== verification/RequestTests.v ===== *)
(** * The repository's own tests of the request parser,
      [src/src/quitsies/tcp/request.test.cpp]

    Each case of the test file is evaluated on the model, with the checks the
    test makes: what the tests accept of the code, the model does. *)
From S2P Require Import Prelude Cxx Effects Store MapStore Request.

Open Scope Z_scope.

(** [request req(NULL, mock_logger, mock_stats, 0)]: no store, no limit. *)
Definition test_request : request := new_request NONE false 0.
Definition no_store : mstore := MStore ∅ false.

(** The requests before every part and after the last; [None] when a call
    throws or blocks. *)
Fixpoint process_parts (parts : list bytes) (r : request) : option (list request) :=
  match parts with
  | [] => Some [r]
  | part :: parts =>
      match run store_handle (process part r) no_store with
      | Done _ (Ok r') => cons r <$> process_parts parts r'
      | _ => None
      end
  end.
Definition finished (r : request) : bool := bool_decide (_status r = FINISHED).
(** FINISHED after the last part and not before. *)
Definition finishes_last (parts : list bytes) : bool :=
  match process_parts parts test_request with
  | Some rs => match reverse rs with
               | r :: before => finished r && forallb (fun r => negb (finished r)) before
               | [] => false
               end
  | None => false
  end.
(** The members the tests look at. *)
Definition parsed_as (cmd : bytes) : option (command_type * list bytes * Z * Z * bool * bytes) :=
  match process_parts [cmd] test_request with
  | Some [_; r] =>
      if finished r
      then Some (_command r, _keys r, _flags r, _exp_time r, _no_reply r, buffer_str r) else None
  | _ => None
  end.

Example test_full_commands :
  forallb (fun cmd => finishes_last [cmd])
    [ !"get key1" ++ crlf; !"add key2 20 0 11" ++ crlf ++ !"hello world" ++ crlf;
      !"add key3 20 0 11 [noreply]" ++ crlf ++ !"hello world" ++ crlf;
      !"gets key4 key5 key6" ++ crlf; !"set key4 0 0 5" ++ crlf ++ !"hello" ++ crlf ] = true.
Proof. vm_compute. reflexivity. Qed.

Example test_split_commands :
  forallb finishes_last
    [ [ !"gets key"; !"4 key5 key6 "; !"key7 key8" ++ crlf ];
      [ !"add ke"; !"y2 20 0 11" ++ crlf; !"hello world" ++ crlf ];
      [ !"add key3 2"; !"0 0 11 [nor"; !"eply]" ++ crlf ++ !"hello world" ++ crlf ];
      [ !"s"; !"et "; !"key4"; !" 0 0 "; !"5" ++ crlf ++ !"hello" ++ crlf ];
      [ !"get "; !"key1"; crlf ] ] = true.
Proof. vm_compute. reflexivity. Qed.

Example test_set :
  parsed_as (!"set key4 1 1 5" ++ crlf ++ !"hello" ++ crlf)
  = Some (SET, [ !"key4" ], 1, 1, false, !"hello").
Proof. vm_compute. reflexivity. Qed.
Example test_set_noreply :
  parsed_as (!"set key4 1 1 5 noreply" ++ crlf ++ !"hello" ++ crlf)
  = Some (SET, [ !"key4" ], 1, 1, true, !"hello").
Proof. vm_compute. reflexivity. Qed.
Example test_get : parsed_as (!"get key5" ++ crlf) = Some (GET, [ !"key5" ], 0, 0, false, []).
Proof. vm_compute. reflexivity. Qed.
Example test_gets :
  parsed_as (!"gets key6 key7 key8" ++ crlf) = Some (GETS, [ !"key6"; !"key7"; !"key8" ], 0, 0, false, []).
Proof. vm_compute. reflexivity. Qed.
Example test_delete : parsed_as (!"delete key5" ++ crlf) = Some (DELETE, [ !"key5" ], 0, 0, false, []).
Proof. vm_compute. reflexivity. Qed.
Example test_delete_noreply :
  parsed_as (!"delete key5 noreply" ++ crlf) = Some (DELETE, [ !"key5" ], 0, 0, true, []).
Proof. vm_compute. reflexivity. Qed.
Example test_ping :
  match process_parts [ !"ping" ++ crlf ] test_request with
  | Some [_; r] => (_command r, get_response r)
  | _ => (NONE, Ok [])
  end = (PING, Ok (!"PONG" ++ crlf)).
Proof. vm_compute. reflexivity. Qed.
