(* ===== verification/Concurrency.v ===== *)
(** * Request handlers on several threads

    [server::run] executes the handlers of different connections on a pool of
    threads over one store.  A configuration is the list of handler programs
    and the shared store; a step lets one thread make its next call.  Between
    two calls of a handler any other thread may run: only the store's mutex,
    which ADD takes, keeps handlers apart. *)
From S2P Require Import Prelude Cxx Effects Store Request RequestFacts MapStore Memcached.

(** ** Interleaving semantics *)
Section Interleaving.
Context {D : Type} `{Store D} {A : Type}.

(** One call of one thread; [None] when it has finished or its call waits. *)
Definition advance (p : prog storeE A) (d : D) : option (prog storeE A * D) :=
  match p with
  | Call c k =>
      match store_handle _ c d with Some (d', r) => Some (k r, d') | None => None end
  | _ => None
  end.

Inductive cstep : list (prog storeE A) * D -> list (prog storeE A) * D -> Prop :=
| cstep_thread ts i p p' d d' :
    ts !! i = Some p -> advance p d = Some (p', d') -> cstep (ts, d) (<[i := p']> ts, d').

Definition csteps := rtc cstep.

(** A schedule names the thread that makes each next call. *)
Fixpoint run_schedule (sched : list nat) (c : list (prog storeE A) * D) :
    option (list (prog storeE A) * D) :=
  match sched with
  | [] => Some c
  | i :: sched =>
      match c.1 !! i with
      | Some p =>
          match advance p c.2 with
          | Some (p', d') => run_schedule sched (<[i := p']> c.1, d')
          | None => None
          end
      | None => None
      end
  end.

Lemma run_schedule_csteps sched c c' : run_schedule sched c = Some c' -> csteps c c'.
Proof.
  revert c; induction sched as [|i sched IH]; intros [ts d]; cbn [run_schedule fst snd].
  - intros [= ->]. apply rtc_refl.
  - destruct (ts !! i) as [p|] eqn:Hi; [|done].
    destruct (advance p d) as [[p' d']|] eqn:Ha; [|done].
    intros Hs. eapply rtc_l; [by eapply cstep_thread|]. by apply IH.
Qed.

Definition finished (p : prog storeE A) : Prop := exists a, p = Ret a.

(** Running the threads one after the other: the history lists who ran and
    what it returned. *)
Inductive serial (init : list (prog storeE A)) (d0 : D) : list (nat * A) -> D -> Prop :=
| serial_nil : serial init d0 [] d0
| serial_snoc h d1 i p d2 a :
    serial init d0 h d1 -> init !! i = Some p -> i ∉ h.*1 ->
    run store_handle p d1 = Done d2 (Ok a) ->
    serial init d0 (h ++ [(i, a)]) d2.

(** The body of a critical section, on a store that does not throw: only
    [get], [put] and [del] until the [unlock], which is the last call. *)
Inductive section : prog storeE A -> Prop :=
| section_get key k : (forall x, section (k (Ok x))) -> section (Call (SGet key) k)
| section_put key v k : (forall x, section (k (Ok x))) -> section (Call (SPut key v) k)
| section_del key k : (forall x, section (k (Ok x))) -> section (Call (SDel key) k)
| section_unlock k : finished (k (Ok tt)) -> section (Call SUnlock k).

(** A handler that does everything inside one critical section. *)
Inductive locked : prog storeE A -> Prop :=
| locked_intro k : section (k (Ok tt)) -> locked (Call SLock k).
End Interleaving.

(** ** Serializability of handlers that hold the lock *)
Section Serializability.
Context {D : Type} `{StoreContract D} {A : Type}.
Context (init : list (prog storeE A)) (d0 : D).
Hypothesis init_locked : Forall locked init.

Definition free (d : D) : Prop := store_ready d /\ store_held d = false.
Definition busy (d : D) : Prop := store_ready d /\ store_held d = true.

(** Thread [i] has run to its end exactly when the history says so, and has
    otherwise not started. *)
Definition outside (h : list (nat * A)) (i : nat) (p : prog storeE A) : Prop :=
  (exists a, (i, a) ∈ h /\ p = Ret a) \/ (i ∉ h.*1 /\ init !! i = Some p).

(** Either nobody is inside the critical section, or exactly one thread is,
    and running it to its end gives what running it from the state in which
    it entered gives. *)
Inductive inv : list (prog storeE A) * D -> Prop :=
| inv_free ts d h :
    serial init d0 h d -> free d -> length ts = length init ->
    (forall i p, ts !! i = Some p -> outside h i p) ->
    inv (ts, d)
| inv_busy ts d h d1 i p q :
    serial init d0 h d1 -> busy d -> length ts = length init ->
    (forall j p, j <> i -> ts !! j = Some p -> outside h j p) ->
    i ∉ h.*1 -> init !! i = Some q ->
    ts !! i = Some p -> section p ->
    run store_handle p d = run store_handle q d1 ->
    inv (ts, d).

Lemma advance_run (p p' : prog storeE A) d d' :
  advance p d = Some (p', d') -> run store_handle p d = run store_handle p' d'.
Proof.
  destruct p as [| |X c k]; simpl; [done..|].
  by destruct (store_handle X c d) as [[d1 r]|]; intros [= <- <-].
Qed.

(** The thread inside the section can always make its next call. *)
Lemma section_advance (p : prog storeE A) d :
  section p -> busy d ->
  exists p' d', advance p d = Some (p', d') /\
    ((section p' /\ busy d') \/ (finished p' /\ free d')).
Proof.
  intros Hp [Hr Hh]; destruct Hp as [key k Hk|key v k Hk|key k Hk|k Hk]; simpl.
  - destruct (contract_get key d Hr) as (d' & s & v & -> & Hr' & _ & Hh' & _).
    eexists _, d'. split; [done|]. left. split; [done|]. split; congruence.
  - destruct (contract_put key v d Hr) as (d' & s & -> & Hr' & _ & Hh' & _).
    eexists _, d'. split; [done|]. left. split; [done|]. split; congruence.
  - destruct (contract_del key d Hr) as (d' & s & -> & Hr' & _ & Hh' & _).
    eexists _, d'. split; [done|]. left. split; [done|]. split; congruence.
  - destruct (contract_unlock d) as (_ & Hh' & Hr').
    eexists _, _. split; [done|]. right. split; [done|]. split; auto.
Qed.

Lemma locked_advance (p : prog storeE A) d :
  locked p -> free d ->
  exists p' d', advance p d = Some (p', d') /\ section p' /\ busy d'.
Proof.
  intros [k Hk] [Hr Hh]; simpl. destruct (store_lock d) as [d'|] eqn:Hl.
  - pose proof (contract_locked _ _ Hl) as (_ & Hh' & Hr').
    eexists _, d'. split_and!; [done..|]. by split; auto.
  - apply contract_lock in Hl. congruence.
Qed.

Lemma locked_waits (p : prog storeE A) d : locked p -> busy d -> advance p d = None.
Proof. intros [k _] [_ Hh]; simpl. apply contract_lock in Hh. by rewrite Hh. Qed.

Lemma outside_keeps h i a j p : j <> i -> outside h j p -> outside (h ++ [(i, a)]) j p.
Proof.
  intros Hne [(b & Hb & ->)|[Hnot Hp]].
  - left. exists b. split; [|done]. apply elem_of_app. by left.
  - right. split; [|done]. rewrite fmap_app. simpl. rewrite not_elem_of_app. split; [done|].
    intros Hin. apply list_elem_of_singleton in Hin. done.
Qed.

Lemma outside_not_started h i p :
  outside h i p -> ~ finished p -> i ∉ h.*1 /\ init !! i = Some p.
Proof. intros [(a & _ & ->)|?] Hf; [|done]. destruct Hf. by exists a. Qed.

Lemma init_is_locked i p : init !! i = Some p -> locked p.
Proof. by apply Forall_lookup_1. Qed.

Lemma advance_not_finished (p p' : prog storeE A) (d d' : D) :
  advance p d = Some (p', d') -> ~ finished p.
Proof. by intros Ha [a ->]. Qed.

Lemma outside_update (ts : list (prog storeE A)) h i p' :
  (forall j p, ts !! j = Some p -> outside h j p) ->
  forall j p, j <> i -> <[i := p']> ts !! j = Some p -> outside h j p.
Proof. intros Hout j p Hne. rewrite list_lookup_insert_ne by done. apply Hout. Qed.

Lemma inv_step c c' : inv c -> cstep c c' -> inv c'.
Proof.
  intros Hinv Hstep. inversion Hstep as [ts i p p' d d' Hi Hadv]; subst.
  inversion Hinv as [ts0 d0' h Hser Hfree Hlen Hout Heq|
                     ts0 d0' h d1 j q q0 Hser Hbusy Hlen Hout Hj Hq Htj Hsec Hrun Heq]; subst.
  - destruct (outside_not_started h i p (Hout i p Hi) (advance_not_finished _ _ _ _ Hadv))
      as [Hnot Hinit].
    pose proof (init_is_locked i p Hinit) as Hl.
    destruct (locked_advance p d Hl Hfree) as (p2 & d2 & Hadv2 & Hsec & Hbusy).
    rewrite Hadv in Hadv2. injection Hadv2 as <- <-.
    apply (inv_busy _ _ h d i p' p); auto.
    + by rewrite length_insert.
    + by apply outside_update.
    + apply list_lookup_insert_eq. by eapply lookup_lt_Some.
    + symmetry. by apply advance_run.
  - destruct (decide (i = j)) as [->|Hne].
    + rewrite Hi in Htj. injection Htj as <-.
      destruct (section_advance p d Hsec Hbusy) as (p2 & d2 & Hadv2 & Hcase).
      rewrite Hadv in Hadv2. injection Hadv2 as <- <-.
      rewrite (advance_run _ _ _ _ Hadv) in Hrun.
      destruct Hcase as [[Hsec' Hbusy']|[[a ->] Hfree']].
      * apply (inv_busy _ _ h d1 j p' q0); auto.
        { by rewrite length_insert. }
        { intros j' p2 Hne. rewrite list_lookup_insert_ne by done. by apply Hout. }
        apply list_lookup_insert_eq. by eapply lookup_lt_Some.
      * apply (inv_free _ _ (h ++ [(j, a)])); auto.
        { by apply serial_snoc with d1 q0. }
        { by rewrite length_insert. }
        intros j' p2 Hj'. destruct (decide (j' = j)) as [->|Hne].
        { rewrite list_lookup_insert_eq in Hj' by (by eapply lookup_lt_Some).
          injection Hj' as <-. left. exists a. split; [|done]. apply elem_of_app. right.
          by apply list_elem_of_singleton. }
        rewrite list_lookup_insert_ne in Hj' by done. apply outside_keeps; auto.
    + destruct (outside_not_started h i p (Hout i p Hne Hi) (advance_not_finished _ _ _ _ Hadv))
        as [_ Hinit].
      pose proof (init_is_locked i p Hinit) as Hl. by rewrite locked_waits in Hadv.
Qed.

Lemma inv_start : free d0 -> inv (init, d0).
Proof.
  intros Hf. apply (inv_free _ _ []); auto; [constructor|].
  intros i p Hi. right. split; [|done]. apply not_elem_of_nil.
Qed.

Lemma inv_steps c c' : inv c -> csteps c c' -> inv c'.
Proof. induction 2; eauto using inv_step. Qed.

(** Every thread that ran is in the history once. *)
Lemma serial_nodup h d : serial init d0 h d -> NoDup h.*1.
Proof.
  induction 1 as [|h d1 i p d2 a Hs IH Hi Hnot Hrun]; [constructor|].
  rewrite fmap_app. simpl. apply NoDup_app. split_and!; [done| |apply NoDup_singleton].
  intros x Hx Hx'. apply list_elem_of_singleton in Hx' as ->. done.
Qed.

Lemma serial_in_range h d i a :
  serial init d0 h d -> (i, a) ∈ h -> (i < length init)%nat.
Proof.
  induction 1 as [|h d1 j p d2 b Hs IH Hj Hnot Hrun]; intros Hin.
  - by apply not_elem_of_nil in Hin.
  - apply elem_of_app in Hin as [Hin|Hin]; [auto|].
    apply list_elem_of_singleton in Hin. simplify_eq. by eapply lookup_lt_Some.
Qed.

Lemma serializable_aux ts d :
  inv (ts, d) -> Forall finished ts ->
  exists h, serial init d0 h d /\ free d
    /\ forall i a, ts !! i = Some (Ret a) -> (i, a) ∈ h.
Proof.
  intros Hinv Hfin.
  inversion Hinv as [ts0 d0' h Hser Hfree Hlen Hout Heq|
                     ts0 d0' h d1 j q q0 Hser Hbusy Hlen Hout Hj Hq Htj Hsec Hrun Heq]; subst.
  - exists h. split_and!; auto; [apply Hfree..|]. intros i a Hi.
    destruct (Hout i _ Hi) as [(b & Hb & Hab)|[_ Hinit]]; [by injection Hab as ->|].
    apply init_is_locked in Hinit. by inversion Hinit.
  - pose proof (Forall_lookup_1 _ _ _ _ Hfin Htj) as [a Ha]. subst. by inversion Hsec.
Qed.
Lemma finished_dec_all (ts : list (prog storeE A)) :
  Forall finished ts \/ exists i p, ts !! i = Some p /\ ~ finished p.
Proof.
  induction ts as [|p ts [IH|(i & q & Hi & Hq)]]; [by left; constructor| |].
  - destruct p as [a|e|X c k]; [left; constructor; [by exists a|done]|right..];
      eexists 0%nat, _; (split; [reflexivity|]); by intros [b ?].
  - right. exists (S i), q. by split.
Qed.

Lemma inv_progress ts d :
  inv (ts, d) -> Forall finished ts \/ exists c, cstep (ts, d) c.
Proof.
  intros Hinv.
  inversion Hinv as [ts0 d0' h Hser Hfree Hlen Hout Heq|
                     ts0 d0' h d1 j q q0 Hser Hbusy Hlen Hout Hj Hq Htj Hsec Hrun Heq]; subst.
  - destruct (finished_dec_all ts) as [?|(i & p & Hi & Hp)]; [by left|right].
    destruct (outside_not_started h i p (Hout i p Hi) Hp) as [_ Hinit].
    apply init_is_locked in Hinit.
    destruct (locked_advance p d Hinit Hfree) as (p' & d' & Ha & _).
    eexists. by eapply cstep_thread.
  - right. destruct (section_advance q d Hsec Hbusy) as (p' & d' & Ha & _).
    eexists. by eapply cstep_thread.
Qed.
End Serializability.

(** ** ADD *)
Definition add_handler (mx : Z) (key value : bytes) : prog storeE request :=
  prepare_response (parsed true mx (CStore KAdd key 0 0 value false)).

(** The ADD handler is one critical section. *)
Lemma add_handler_locked mx key value : locked (add_handler mx key value).
Proof.
  constructor. cbn -[lit]. constructor. intros [s v]. cbn -[lit].
  destruct (ok s); cbn -[lit]; [constructor; cbn -[lit]; eexists; reflexivity|].
  destruct (is_not_found s); cbn -[lit]; [|constructor; cbn -[lit]; eexists; reflexivity].
  constructor. intros st. cbn -[lit].
  destruct (ok st); constructor; cbn -[lit]; eexists; reflexivity.
Qed.

(** What one ADD does when it runs alone. *)
Lemma run_add {D : Type} `{StoreContract D} mx key value (d d' : D) q :
  free d -> run store_handle (add_handler mx key value) d = Done d' (Ok q) ->
  let mr := exec (CStore KAdd key 0 0 value false) (store_view d) in
  free d' /\ store_view d' = mr.1 /\ _response q = mr.2.
Proof.
  intros [Hr Hh] Hrun.
  destruct (wp_prepare (CStore KAdd key 0 0 value false) mx d (store_view d))
    as (d1 & x & Hrun' & (Hr1 & Hv1 & Hh1) & ->); [by split_and!|].
  unfold add_handler in Hrun. rewrite Hrun in Hrun'. injection Hrun' as <- ->.
  done.
Qed.

(** Sequential ADDs of one absent key: the first is stored, the others are
    not. *)
Lemma serial_adds {D : Type} `{StoreContract D} mx key (values : list bytes) (d0 d : D) h :
  free d0 -> store_view d0 !! key = None ->
  serial (add_handler mx key <$> values) d0 h d ->
  free d /\
  match h with
  | [] => store_view d !! key = None
  | (i, q) :: h' =>
      _response q = !"STORED" ++ crlf
      /\ store_view d !! key = values !! i
      /\ Forall (fun jq => _response jq.2 = !"NOT_STORED" ++ crlf) h'
  end.
Proof.
  intros Hfree Hnone. induction 1 as [|h d1 i p d2 q Hs IH Hi Hnot Hrun]; [done|].
  destruct IH as [Hfree1 IH].
  apply list_lookup_fmap_Some in Hi as (v & -> & Hv).
  pose proof (run_add mx key v d1 d2 q Hfree1 Hrun) as Hadd. cbn -[lit] in Hadd.
  destruct h as [|[j q'] h]; cbn [app].
  - rewrite IH in Hadd. cbn [fst snd] in Hadd. destruct Hadd as (? & Hview & Hresp).
    split_and!; auto. by rewrite Hview, lookup_insert_eq.
  - destruct IH as (Hq' & Hview' & Hall).
    assert (Hsome : exists w, store_view d1 !! key = Some w /\ values !! j = Some w).
    { rewrite Hview'. pose proof (serial_in_range _ _ _ _ j q' Hs ltac:(by left)) as Hlt.
      rewrite length_fmap in Hlt. apply lookup_lt_is_Some in Hlt as [w Hw]. by exists w. }
    destruct Hsome as (w & Hw & Hjw). rewrite Hw in Hadd. cbn [fst snd] in Hadd. destruct Hadd as (? & Hview & Hresp).
    split_and!; auto; [congruence|]. apply Forall_app; split; [done|]. by repeat constructor.
Qed.

(** (C8) Serializability.  ADD requests running on any number of threads,
    for any keys and values, over a store that meets [StoreContract]:
    whenever all of them have finished, the store is in the state, and every
    thread has the result, that running those handlers one after the other in
    some order gives. *)
Theorem add_serializable {D : Type} `{StoreContract D} mx (reqs : list (bytes * bytes))
    (d0 d : D) ts :
  let init := (fun kv => add_handler mx kv.1 kv.2) <$> reqs in
  free d0 -> csteps (init, d0) (ts, d) -> Forall finished ts ->
  exists h, serial init d0 h d /\ NoDup h.*1 /\ free d
    /\ forall i a, ts !! i = Some (Ret a) -> (i, a) ∈ h.
Proof.
  intros init Hfree Hsteps Hfin.
  assert (Hl : Forall locked init)
    by (apply Forall_fmap, Forall_true; intros [k v]; apply add_handler_locked).
  pose proof (inv_steps init d0 Hl _ _ (inv_start init d0 Hfree) Hsteps) as Hinv.
  destruct (serializable_aux init d0 Hl ts d Hinv Hfin) as (h & Hs & Hd & Hh).
  exists h. split_and!; auto. by eapply serial_nodup.
Qed.

(** Two ADDs of one key, interleaved as far as the lock lets them. *)
Definition two_adds : list (bytes * bytes) := [(!"k", !"a"); (!"k", !"b")].

Definition two_add_handlers : list (prog storeE request) :=
  (fun kv => add_handler 0 kv.1 kv.2) <$> two_adds.
Definition two_adds_schedule : list nat := [1; 1; 1; 1; 0; 0; 0]%nat.

(** The configuration a schedule leads to. *)
Ltac schedule_witness t :=
  let c := eval vm_compute in t in
  lazymatch c with Some (?ts, ?d) => exists ts, d end.

Lemma add_serializable_witness :
  exists ts d, csteps (two_add_handlers, MStore ∅ false) (ts, d) /\ exists h,
    serial two_add_handlers (MStore ∅ false) h d /\ NoDup h.*1 /\ free d
    /\ forall i a, ts !! i = Some (Ret a) -> (i, a) ∈ h.
Proof.
  schedule_witness (run_schedule two_adds_schedule (two_add_handlers, MStore ∅ false)).
  assert (Hsteps : csteps (two_add_handlers, MStore ∅ false) (_, _))
    by (apply (run_schedule_csteps two_adds_schedule); vm_compute; reflexivity).
  split; [exact Hsteps|].
  apply (add_serializable 0 two_adds (MStore ∅ false) _ _ ltac:(by split) Hsteps).
  repeat (constructor; [eexists; reflexivity|]). constructor.
Defined.

(** Functional behaviour.  Any number (at least one) of threads that
    concurrently ADD different values under one absent key: when all have
    finished, exactly one of them was answered [STORED], the key holds the
    value of that one, and all the others were answered [NOT_STORED]. *)
Theorem add_one_winner {D : Type} `{StoreContract D} mx key (values : list bytes) (d0 d : D) ts :
  values <> [] -> free d0 -> store_view d0 !! key = None ->
  csteps (add_handler mx key <$> values, d0) (ts, d) -> Forall finished ts ->
  exists i v, values !! i = Some v /\ store_view d !! key = Some v
    /\ forall j q, ts !! j = Some (Ret q) ->
         _response q = if decide (j = i) then !"STORED" ++ crlf else !"NOT_STORED" ++ crlf.
Proof.
  intros Hne Hfree Hnone Hsteps Hfin.
  set (init := add_handler mx key <$> values) in *.
  assert (Hl : Forall locked init)
    by (apply Forall_fmap, Forall_true; intros v; apply add_handler_locked).
  pose proof (inv_steps init d0 Hl _ _ (inv_start init d0 Hfree) Hsteps) as Hinv.
  assert (Hlen : length ts = length values).
  { assert (length ts = length init) as -> by (by inversion Hinv).
    unfold init. by rewrite length_fmap. }
  destruct (serializable_aux init d0 Hl ts d Hinv Hfin) as (h & Hs & Hd & Hh).
  destruct (serial_adds mx key values d0 d h Hfree Hnone Hs) as [_ Hcase].
  assert (Hthread : forall j v, values !! j = Some v -> exists q, (j, q) ∈ h).
  { intros j v Hj. apply lookup_lt_Some in Hj. rewrite <- Hlen in Hj.
    apply lookup_lt_is_Some in Hj as [p Hp].
    pose proof (Forall_lookup_1 _ _ _ _ Hfin Hp) as [a ->]. eauto. }
  destruct h as [|[i q] h].
  { destruct values as [|v values]; [done|]. destruct (Hthread 0%nat v eq_refl) as [a Ha].
    by apply not_elem_of_nil in Ha. }
  destruct Hcase as (Hq & Hview & Hall).
  pose proof (serial_nodup init d0 _ _ Hs) as Hnd. cbn [fmap list_fmap fst] in Hnd.
  apply NoDup_cons in Hnd as [Hi Hnd].
  destruct (values !! i) as [v|] eqn:Hv.
  2:{ destruct values as [|w values]; [done|].
      apply lookup_ge_None in Hv. exfalso.
      assert (Hlt : (i < length (w :: values))%nat); [|lia].
      rewrite <- (length_fmap (add_handler mx key)). fold init.
      eapply serial_in_range; [exact Hs|]. by left. }
  exists i, v. split_and!; [done..|]. intros j a Hj. apply Hh in Hj.
  apply elem_of_cons in Hj as [Heq|Hin].
  - injection Heq as -> ->. by rewrite decide_True.
  - rewrite decide_False.
    + by eapply (proj1 (Forall_forall _ _)) in Hall; [|exact Hin].
    + intros ->. apply Hi. apply list_elem_of_fmap. by exists (i, a).
Qed.

Lemma add_one_winner_witness :
  exists ts d, csteps (add_handler 0 !"k" <$> [ !"a"; !"b" ], MStore ∅ false) (ts, d) /\
  exists i v, [ !"a"; !"b" ] !! i = Some v /\ ms_map d !! (!"k") = Some v
    /\ forall j q, ts !! j = Some (Ret q) ->
         _response q = if decide (j = i) then !"STORED" ++ crlf else !"NOT_STORED" ++ crlf.
Proof.
  schedule_witness (run_schedule two_adds_schedule
    (add_handler 0 !"k" <$> [ !"a"; !"b" ], MStore ∅ false)).
  assert (Hsteps : csteps (add_handler 0 !"k" <$> [ !"a"; !"b" ], MStore ∅ false) (_, _))
    by (apply (run_schedule_csteps two_adds_schedule); vm_compute; reflexivity).
  split; [exact Hsteps|].
  refine (add_one_winner 0 !"k" [ !"a"; !"b" ] (MStore ∅ false) _ _ _ _ _ Hsteps _);
    [discriminate|by split|reflexivity|].
  repeat (constructor; [eexists; reflexivity|]). constructor.
Defined.

(** (C9) Liveness.  Concurrent ADDs do not deadlock: in every configuration
    they can reach over a store that meets [StoreContract], either all of them
    have finished or some thread can make its next call. *)
Theorem add_no_deadlock {D : Type} `{StoreContract D} mx (reqs : list (bytes * bytes))
    (d0 d : D) ts :
  free d0 -> csteps ((fun kv => add_handler mx kv.1 kv.2) <$> reqs, d0) (ts, d) ->
  Forall finished ts \/ exists c, cstep (ts, d) c.
Proof.
  intros Hfree Hsteps. set (init := _ <$> reqs) in *.
  assert (Hl : Forall locked init)
    by (apply Forall_fmap, Forall_true; intros [k v]; apply add_handler_locked).
  apply (inv_progress init d0 Hl), (inv_steps init d0 Hl _ _ (inv_start init d0 Hfree) Hsteps).
Qed.

Lemma add_no_deadlock_witness :
  exists ts d, csteps (two_add_handlers, MStore ∅ false) (ts, d) /\
    (Forall finished ts \/ exists c, cstep (ts, d) c).
Proof.
  schedule_witness (run_schedule [1%nat; 1%nat] (two_add_handlers, MStore ∅ false)).
  assert (Hsteps : csteps (two_add_handlers, MStore ∅ false) (_, _))
    by (apply (run_schedule_csteps [1%nat; 1%nat]); vm_compute; reflexivity).
  split; [exact Hsteps|].
  refine (add_no_deadlock 0 two_adds (MStore ∅ false) _ _ ltac:(by split) Hsteps).
Defined.

(** ** ADD against SET

    SET does not take the lock. *)
Definition set_handler (mx : Z) (key value : bytes) : prog storeE request :=
  prepare_response (parsed true mx (CStore KSet key 0 0 value false)).

Definition replies (ts : list (prog storeE request)) : list (option bytes) :=
  (fun p => match p with Ret q => Some (_response q) | _ => None end) <$> ts.

Definition add_and_set : list (prog storeE request) :=
  [add_handler 0 !"k" !"from add"; set_handler 0 !"k" !"from set"].

Definition race_schedule : list nat := [0; 0; 1; 0; 0]%nat.

(** Safety.  ADD is not atomic against SET: on an empty store there is
    an execution of one ADD and one SET of the same key in which SET puts its
    value between ADD's [get] and ADD's [put]; both are answered [STORED] and
    ADD's value overwrites SET's, although the key existed when ADD wrote it.
    No execution of the two handlers one after the other gives that. *)
Theorem add_set_race :
  exists ts d,
    csteps (add_and_set, MStore ∅ false) (ts, d)
    /\ replies ts = [Some (!"STORED" ++ crlf); Some (!"STORED" ++ crlf)]
    /\ ms_map d !! (!"k") = Some (!"from add")
    /\ ~ exists h d', serial add_and_set (MStore ∅ false) h d' /\ length h = 2%nat
         /\ Forall (fun iq => _response iq.2 = !"STORED" ++ crlf) h
         /\ ms_map d' !! (!"k") = Some (!"from add").
Proof.
  schedule_witness (run_schedule race_schedule (add_and_set, MStore ∅ false)).
  split; [by apply (run_schedule_csteps race_schedule)|].
  split; [by vm_compute|]. split; [by vm_compute|].
  intros (h & d' & Hs & Hlen & Hall & Hk).
  inversion Hs as [Heq|h1 d1 i p d2 a Hs1 Hi Hnot Hrun]; subst; [done|].
  inversion Hs1 as [Heq|h2 d2 j q d3 b Hs2 Hj Hnot2 Hrun2]; subst; [done|].
  inversion Hs2 as [Heq|h3 d3 l r d4 c Hs3 Hl Hnot3 Hrun3]; subst;
    [|rewrite !length_app in Hlen; simpl in Hlen; lia].
  apply not_elem_of_cons in Hnot as [Hij _].
  destruct i as [|[|]], j as [|[|]]; try done; simplify_eq; vm_compute in Hi, Hj; simplify_eq;
    vm_compute in Hrun2; simplify_eq; vm_compute in Hrun; simplify_eq.
Qed.
