(* ===== verification/StdMap.v ===== *)
(** * [std::map<std::string, V>]

    The ordered map of the C++ library, as the list of its pairs in the order
    iteration visits them: ascending by key, keys compared byte by byte as
    unsigned characters.  The lemmas relate it to stdpp's [gmap]. *)
From Stdlib Require Sorting.Sorted.
From S2P Require Import Prelude Cxx.

Open Scope Z_scope.

(** [a < b] of [std::string]. *)
Fixpoint bytes_ltb (a b : bytes) : bool :=
  match a, b with
  | _, [] => false
  | [], _ :: _ => true
  | x :: a, y :: b =>
      if char_code x <? char_code y then true
      else if char_code y <? char_code x then false
      else bytes_ltb a b
  end.
Definition bytes_lt (a b : bytes) : Prop := bytes_ltb a b = true.

Section StdMap.
Context {V : Type}.

Abbreviation smap := (list (bytes * V)).

(** [m.find(k)]: [None] is [m.end()]. *)
Fixpoint smap_find (k : bytes) (m : smap) : option V :=
  match m with
  | [] => None
  | (k', v) :: m => if decide (k = k') then Some v else smap_find k m
  end.

(** [m[k] = v] *)
Fixpoint smap_set (k : bytes) (v : V) (m : smap) : smap :=
  match m with
  | [] => [(k, v)]
  | (k', v') :: m' =>
      if decide (k = k') then (k, v) :: m'
      else if bytes_ltb k k' then (k, v) :: m
      else (k', v') :: smap_set k v m'
  end.

Definition smap_sorted (m : smap) : Prop := Sorted.StronglySorted bytes_lt m.*1.
End StdMap.
Abbreviation smap V := (list (bytes * V)) (only parsing).

(** ** The order *)
Lemma char_code_inj x y : char_code x = char_code y -> x = y.
Proof.
  unfold char_code. intros H. apply N2Z.inj in H.
  rewrite <- (ascii_N_embedding x), <- (ascii_N_embedding y). by f_equal.
Qed.

Lemma bytes_lt_irrefl a : ~ bytes_lt a a.
Proof. unfold bytes_lt. induction a as [|x a IH]; simpl; [done|]. by rewrite Z.ltb_irrefl. Qed.

Lemma bytes_lt_trans a b c : bytes_lt a b -> bytes_lt b c -> bytes_lt a c.
Proof.
  unfold bytes_lt. revert b c; induction a as [|x a IH]; intros [|y b] [|z c]; simpl; try done.
  repeat case_match; bool_to_prop; try done; try lia; eauto.
Qed.

(** Two different strings are ordered one way or the other. *)
Lemma bytes_lt_total a b : a <> b -> bytes_ltb a b = false -> bytes_lt b a.
Proof.
  unfold bytes_lt. revert b; induction a as [|x a IH]; intros [|y b] Hne; simpl; try done.
  repeat case_match; bool_to_prop; try done; try lia.
  intros Hlt. apply IH; [|done]. intros ->. apply Hne. f_equal. apply char_code_inj. lia.
Qed.

(** ** The operations *)
Section Lemmas.
Context {V : Type}.
Implicit Types m : smap V.

Lemma smap_find_set_eq k v m : smap_find k (smap_set k v m) = Some v.
Proof.
  induction m as [|[k' v'] m IH]; simpl; [by rewrite decide_True|].
  destruct (decide (k = k')) as [->|Hne]; simpl; [by rewrite decide_True|].
  destruct (bytes_ltb k k'); simpl; [by rewrite decide_True|]. by rewrite decide_False.
Qed.

Lemma smap_find_set_ne k k' v m : k <> k' -> smap_find k (smap_set k' v m) = smap_find k m.
Proof.
  intros Hne. induction m as [|[k2 v2] m IH]; simpl; [by rewrite decide_False|].
  destruct (decide (k' = k2)) as [->|Hne']; simpl.
  - by rewrite !decide_False.
  - destruct (bytes_ltb k' k2); simpl; [by rewrite decide_False|].
    by destruct (decide (k = k2)).
Qed.

Lemma smap_set_keys k v m x : x ∈ (smap_set k v m).*1 -> x = k \/ x ∈ m.*1.
Proof.
  induction m as [|[k' v'] m IH]; simpl; [set_solver|].
  repeat case_match; subst; simpl; set_solver.
Qed.

Lemma smap_set_sorted k v m : smap_sorted m -> smap_sorted (smap_set k v m).
Proof.
  unfold smap_sorted. induction m as [|[k' v'] m IH]; simpl; intros Hs.
  { repeat constructor. }
  apply Sorted.StronglySorted_inv in Hs as [Hs Hall].
  destruct (decide (k = k')) as [->|Hne]; simpl; [by constructor|].
  destruct (bytes_ltb k k') eqn:Hlt; simpl.
  - constructor; [by constructor|]. constructor; [done|].
    eapply List.Forall_impl; [|exact Hall]. intros a Ha. by eapply bytes_lt_trans.
  - constructor; [auto|]. apply List.Forall_forall. intros x Hx%list_elem_of_In.
    apply smap_set_keys in Hx as [->|Hx].
    + by apply bytes_lt_total.
    + by eapply List.Forall_forall in Hall; [|by apply list_elem_of_In].
Qed.

Lemma smap_sorted_nodup m : smap_sorted m -> NoDup m.*1.
Proof.
  unfold smap_sorted. induction (m.*1) as [|k ks IH]; intros Hs; [constructor|].
  apply Sorted.StronglySorted_inv in Hs as [Hs Hall]. constructor; [|auto].
  intros Hin. eapply List.Forall_forall in Hall; [|by apply list_elem_of_In].
  by apply bytes_lt_irrefl in Hall.
Qed.

(** The map it stands for. *)
Lemma smap_find_gmap k m : smap_find k m = (list_to_map m : gmap bytes V) !! k.
Proof.
  induction m as [|[k' v'] m IH]; simpl; [by rewrite lookup_empty|].
  destruct (decide (k = k')) as [->|Hne]; [by rewrite lookup_insert_eq|].
  by rewrite lookup_insert_ne.
Qed.
Lemma smap_set_gmap k v m :
  (list_to_map (smap_set k v m) : gmap bytes V) = <[k := v]> (list_to_map m).
Proof.
  apply map_eq. intros k'. rewrite <- smap_find_gmap.
  destruct (decide (k' = k)) as [->|Hne].
  - by rewrite smap_find_set_eq, lookup_insert_eq.
  - by rewrite smap_find_set_ne, lookup_insert_ne, smap_find_gmap.
Qed.
End Lemmas.
#[export] Hint Resolve smap_set_sorted : cxx.
