(* ===== verification/Statsd.v ===== *)
(** * The statsd client, [src/src/quitsies/stats/statsd.hpp] and [statsd.cpp]

    A message is formatted with [snprintf] into a buffer of 256 bytes and sent
    as one UDP datagram.  [vformat] is the part of [printf] the four masks
    use; how [%d] reads an argument wider than an [int] is a matter of the
    calling convention, an interface with the one of x86-64 as its instance.
    The socket and the resolver are Boost's: a packet is a value the model
    returns. *)
From S2P Require Import Prelude Cxx.

Open Scope Z_scope.

(** ** [snprintf] *)

(** [s.c_str()] as a C string ends at the first NUL. *)
Fixpoint c_str (s : bytes) : bytes :=
  match s with
  | [] => []
  | c :: s => if decide (c = "000"%char) then [] else c :: c_str s
  end.

(** An argument as the caller passes it through the ellipsis. *)
Inductive printf_arg := PStr (s : bytes) | PIntmax (z : Z) | PUintmax (z : Z).

Definition percent : ascii := "%"%char.

(** What [va_arg(ap, int)] finds where the caller passed an [intmax_t]: the
    language does not define it, so it is a parameter.  With the calling
    convention of x86-64, which the service is built for, it is the low 32
    bits of the register. *)
Class VarArgs := read_int : Z -> Z.
#[export] Instance x86_64 : VarArgs := i32.

(** [%s], [%d], [%lu] ([PRIuMAX] on LP64) and [%%].  [%d] reads an [int].
    [None]: a directive outside these, or one that does not find its
    argument. *)
Section Client.
Context `{Hva : VarArgs}.
Fixpoint vformat (fmt : bytes) (args : list printf_arg) : option bytes :=
  match fmt with
  | [] => Some []
  | p :: fmt' =>
      if decide (p = percent) then
        match fmt' with
        | [] => None
        | d :: rest =>
            if decide (d = percent) then cons percent <$> vformat rest args
            else if decide (d = "s"%char) then
              match args with
              | PStr s :: args => app (c_str s) <$> vformat rest args
              | _ => None
              end
            else if decide (d = "d"%char) then
              match args with
              | PIntmax z :: args => app (dec (read_int z)) <$> vformat rest args
              | _ => None
              end
            else if decide (d = "l"%char) then
              match rest with
              | d' :: rest =>
                  if decide (d' = "u"%char) then
                    match args with
                    | PUintmax z :: args => app (dec (u64 z)) <$> vformat rest args
                    | _ => None
                    end
                  else None
              | [] => None
              end
            else None
        end
      else cons p <$> vformat fmt' args
  end.

(** ** The client *)
Definition type_counter : bytes := !"%s:%d|c".
Definition type_timer : bytes := !"%s:%lu|ms".
Definition type_gauge : bytes := !"%s:%lu|g".
Definition type_set : bytes := !"%s:%d|s".

Definition max_buffer_size : Z := 256.

(** [statsd]: the socket and the endpoint are the environment's. *)
Record statsd := Statsd { _prefix : bytes }.

Definition new_statsd (prefix : bytes) : statsd := Statsd (prefix ++ !".").

(** What a call to the client does: sends one datagram, throws, or has
    undefined behaviour (the format string does not match the arguments). *)
Inductive send_result :=
| Sent (packet : bytes)
| SendThrows (e : exn)
| SendUndefined.

Definition message_too_long : exn :=
  runtime_error !"stat message larger than max buffer size".

(** [bytes] of the source, the return value of [snprintf], is the length of
    the whole message, also when the buffer truncates it. *)
Definition send_stat (mask : bytes) (args : list printf_arg) (s : statsd) : send_result :=
  let full_path := _prefix s ++ mask in
  match vformat (c_str full_path) args with
  | None => SendUndefined
  | Some msg =>
      let n := len msg in
      if (n <=? 0) || (max_buffer_size <=? n) then SendThrows message_too_long
      else Sent msg
  end.

Definition statsd_counter (name : bytes) (value : Z) (s : statsd) : send_result :=
  send_stat type_counter [PStr name; PIntmax value] s.
Definition statsd_timer (name : bytes) (value : Z) (s : statsd) : send_result :=
  send_stat type_timer [PStr name; PUintmax value] s.
Definition statsd_gauge (name : bytes) (value : Z) (s : statsd) : send_result :=
  send_stat type_gauge [PStr name; PUintmax value] s.
Definition statsd_set (name : bytes) (value : Z) (s : statsd) : send_result :=
  send_stat type_set [PStr name; PIntmax value] s.

(** ** Lemmas *)
Definition plain (s : bytes) : Prop := Forall (fun c => c <> "000"%char /\ c <> percent) s.
Definition nul_free (s : bytes) : Prop := Forall (fun c => c <> "000"%char) s.

Lemma c_str_id s : nul_free s -> c_str s = s.
Proof. induction 1 as [|c s Hc Hs IH]; simpl; [done|]. by rewrite decide_False, IH. Qed.
Lemma c_str_app s t : nul_free s -> c_str (s ++ t) = s ++ c_str t.
Proof. induction 1 as [|c s Hc Hs IH]; simpl; [done|]. by rewrite decide_False, IH. Qed.
Lemma plain_nul_free s : plain s -> nul_free s.
Proof. intros H. eapply Forall_impl; [exact H|]. by intros c [? _]. Qed.

Lemma vformat_plain s fmt args : plain s -> vformat (s ++ fmt) args = app s <$> vformat fmt args.
Proof.
  induction 1 as [|c s [_ Hc] Hs IH]; cbn [app vformat].
  - by destruct (vformat fmt args).
  - rewrite decide_False by done. rewrite IH. by destruct (vformat fmt args).
Qed.

(** The message of each kind for a prefix without [%]. *)
Definition stat_line (prefix name value suffix : bytes) : bytes :=
  prefix ++ !"." ++ name ++ !":" ++ value ++ suffix.

Lemma new_prefix_plain prefix : plain prefix -> plain (_prefix (new_statsd prefix)).
Proof. intros H. apply Forall_app; split; [done|]. by repeat constructor. Qed.

Definition send_message (msg : bytes) : send_result :=
  if max_buffer_size <=? len msg then SendThrows message_too_long else Sent msg.

Lemma send_stat_plain prefix mask args body :
  plain prefix -> nul_free mask ->
  vformat mask args = Some body -> 0 < len body ->
  send_stat mask args (new_statsd prefix) = send_message (prefix ++ !"." ++ body).
Proof.
  intros Hp Hm Hf Hb. unfold send_stat, send_message.
  pose proof (new_prefix_plain prefix Hp) as Hp'.
  rewrite c_str_app, (c_str_id mask) by (done || by apply plain_nul_free).
  rewrite vformat_plain, Hf by done. simpl. rewrite <- app_assoc.
  replace (len _ <=? 0) with false; [done|].
  symmetry. apply Z.leb_gt. rewrite !len_app. pose proof (len_nonneg prefix). simpl. 
  change (len [ "."%char ]) with 1. lia.
Qed.

Lemma stat_bytes_pos (s : bytes) c t : 0 < len (s ++ c :: t).
Proof. rewrite len_app, len_cons. pose proof (len_nonneg s). pose proof (len_nonneg t). lia. Qed.

(** (C10) Functional behaviour and bounds.  For a prefix without [%] and NUL
    and a name without NUL, each of the four calls either throws, exactly when
    the message would not fit the buffer with its terminator, or sends the
    one datagram [<prefix>.<name>:<value>|<type>], never truncated; counters
    and sets print the number that is read as an [int] where the value was
    passed (on x86-64 its low 32 bits, signed), timers and gauges the whole
    unsigned 64-bit value. *)
Theorem statsd_messages prefix name value :
  plain prefix -> nul_free name ->
  let s := new_statsd prefix in
  statsd_counter name value s = send_message (stat_line prefix name (dec (read_int value)) !"|c")
  /\ statsd_set name value s = send_message (stat_line prefix name (dec (read_int value)) !"|s")
  /\ statsd_gauge name value s = send_message (stat_line prefix name (dec (u64 value)) !"|g")
  /\ statsd_timer name value s = send_message (stat_line prefix name (dec (u64 value)) !"|ms").
Proof.
  intros Hp Hn s. pose proof (c_str_id name Hn) as Hc.
  split_and!; (apply send_stat_plain; [done|by apply (bool_decide_unpack _); vm_compute| |apply stat_bytes_pos]);
    by rewrite <- Hc at 2.
Qed.

End Client.

Lemma statsd_messages_witness :
  let s := new_statsd !"quitsies" in
  statsd_counter !"rocksdb.get.success" 4294967297 s
    = send_message (stat_line !"quitsies" !"rocksdb.get.success" (dec (i32 4294967297)) !"|c")
  /\ statsd_set !"rocksdb.get.success" 4294967297 s
    = send_message (stat_line !"quitsies" !"rocksdb.get.success" (dec (i32 4294967297)) !"|s")
  /\ statsd_gauge !"rocksdb.get.success" 4294967297 s
    = send_message (stat_line !"quitsies" !"rocksdb.get.success" (dec (u64 4294967297)) !"|g")
  /\ statsd_timer !"rocksdb.get.success" 4294967297 s
    = send_message (stat_line !"quitsies" !"rocksdb.get.success" (dec (u64 4294967297)) !"|ms").
Proof.
  apply (statsd_messages !"quitsies" !"rocksdb.get.success" 4294967297);
    vm_compute; repeat (constructor; [by try split|]); constructor.
Defined.

(** A prefix with a conversion in it takes the arguments meant for the mask. *)
Example percent_prefix_undefined :
  statsd_counter !"n" 1 (new_statsd !"%s") = SendUndefined.
Proof. reflexivity. Qed.
