(* ===== verification/Aggregator.v ===== *)
(** * Metrics aggregation, [src/src/quitsies/stats/aggregator.hpp],
      [null_aggregator.hpp], [statsd_aggregator.hpp] and [.cpp]

    The interface [aggregator] is the class [Aggregator]; [null_aggregator]
    and [statsd_aggregator] are its two instances.  The background thread of
    [statsd_aggregator] is a step machine ([bg_step]) interleaved with the
    metric calls of the other threads. *)
From S2P Require Import Prelude Cxx StdMap Statsd.

Open Scope Z_scope.

(** ** The interface

    [E] is the type of the functions registered with [on_epoch]. *)
Class Aggregator (A E : Type) := {
  agg_counter : bytes -> Z -> A -> A;
  agg_timer : bytes -> Z -> A -> A;
  agg_gauge : bytes -> Z -> A -> A;
  agg_set : bytes -> Z -> A -> A;
  agg_on_epoch : E -> A -> A
}.

(** A metric call, as a value. *)
Inductive stat_op :=
| OpCounter (name : bytes) (value : Z)
| OpTimer (name : bytes) (value : Z)
| OpGauge (name : bytes) (value : Z)
| OpSet (name : bytes) (value : Z).

Definition apply_op {A E} `{Aggregator A E} (op : stat_op) (a : A) : A :=
  match op with
  | OpCounter n v => agg_counter (E := E) n v a
  | OpTimer n v => agg_timer (E := E) n v a
  | OpGauge n v => agg_gauge (E := E) n v a
  | OpSet n v => agg_set (E := E) n v a
  end.

(** [class null_aggregator]: every method is empty. *)
Inductive null_aggregator := Null_aggregator.
#[export] Instance null_aggregator_agg E : Aggregator null_aggregator E := {
  agg_counter _ _ a := a;
  agg_timer _ _ a := a;
  agg_gauge _ _ a := a;
  agg_set _ _ a := a;
  agg_on_epoch _ a := a
}.

(** ** [class statsd_aggregator]

    The mutexes make each of the four maps and the vector of calls atomic;
    a method below is what happens while its mutex is held. *)
Record statsd_aggregator (E : Type) := StatsdAggregator {
  _sets : smap Z;
  _timers : smap Z;
  _gauges : smap Z;
  _counters : smap Z;
  _statsd_client : statsd;
  _background_running : bool;
  _epoch_calls : list E
}.
Arguments StatsdAggregator {E}.
Arguments _sets {E}. Arguments _timers {E}. Arguments _gauges {E}. Arguments _counters {E}.
Arguments _statsd_client {E}. Arguments _background_running {E}. Arguments _epoch_calls {E}.

Section StatsdAggregator.
Context {E : Type}.
Implicit Types a : statsd_aggregator E.

Definition new_statsd_aggregator (prefix : bytes) : statsd_aggregator E :=
  StatsdAggregator [] [] [] [] (new_statsd prefix) true [].

Definition with_sets m a :=
  StatsdAggregator m (_timers a) (_gauges a) (_counters a) (_statsd_client a)
    (_background_running a) (_epoch_calls a).
Definition with_timers m a :=
  StatsdAggregator (_sets a) m (_gauges a) (_counters a) (_statsd_client a)
    (_background_running a) (_epoch_calls a).
Definition with_gauges m a :=
  StatsdAggregator (_sets a) (_timers a) m (_counters a) (_statsd_client a)
    (_background_running a) (_epoch_calls a).
Definition with_counters m a :=
  StatsdAggregator (_sets a) (_timers a) (_gauges a) m (_statsd_client a)
    (_background_running a) (_epoch_calls a).

Definition counter (name : bytes) (value : Z) a :=
  match smap_find name (_counters a) with
  | Some v => with_counters (smap_set name (i64 (v + value)) (_counters a)) a
  | None => with_counters (smap_set name value (_counters a)) a
  end.
Definition timer (name : bytes) (value : Z) a := with_timers (smap_set name value (_timers a)) a.
Definition gauge (name : bytes) (value : Z) a := with_gauges (smap_set name value (_gauges a)) a.
Definition set (name : bytes) (value : Z) a := with_sets (smap_set name value (_sets a)) a.
Definition on_epoch (call : E) a :=
  StatsdAggregator (_sets a) (_timers a) (_gauges a) (_counters a) (_statsd_client a)
    (_background_running a) (_epoch_calls a ++ [call]).

(** The destructor clears the flag the background thread tests. *)
Definition stop_background a :=
  StatsdAggregator (_sets a) (_timers a) (_gauges a) (_counters a) (_statsd_client a)
    false (_epoch_calls a).
End StatsdAggregator.

#[export] Instance statsd_aggregator_agg E : Aggregator (statsd_aggregator E) E := {
  agg_counter := counter;
  agg_timer := timer;
  agg_gauge := gauge;
  agg_set := set;
  agg_on_epoch := on_epoch
}.

(** ** The background thread *)

(** Where the thread is in the body of the loop of [background_loop]: in a
    block, with what is left of it to do.  [BgCalls] holds the mutex of the
    registered calls and makes the metric calls of the functions registered
    when it took it; the other blocks send what is left of the map they
    swapped out. *)
Inductive bg_pc :=
| BgLoopTest
| BgCalls (ops : list stat_op)
| BgSets (s : smap Z)
| BgTimers (t : smap Z)
| BgGauges (g : smap Z)
| BgCounters (c : smap Z)
| BgSleep
| BgReturned
| BgTerminated.

Inductive kind := KCounter | KTimer | KGauge | KSetStat.
#[export] Instance kind_eq_dec : EqDecision kind.
Proof. solve_decision. Defined.

Definition client_call (k : kind) (name : bytes) (value : Z) (s : statsd) : send_result :=
  match k with
  | KCounter => statsd_counter name value s
  | KTimer => statsd_timer name value s
  | KGauge => statsd_gauge name value s
  | KSetStat => statsd_set name value s
  end.

Section Background.
Context {E : Type}.

(** The aggregator, the position of the thread, what it handed to the client
    so far, and (for the statements only) every metric call made so far, by
    whichever thread. *)
Record bg_state := BgState {
  bg_agg : statsd_aggregator E;
  bg_at : bg_pc;
  bg_sent : list (kind * bytes * Z);
  bg_recorded : list stat_op
}.

Definition bg_init (prefix : bytes) : bg_state :=
  BgState (new_statsd_aggregator prefix) BgLoopTest [] [].

Definition bg_goto (pc : bg_pc) (s : bg_state) : bg_state :=
  BgState (bg_agg s) pc (bg_sent s) (bg_recorded s).
(** The aggregator changes under a mutex; in particular
    [{ lock_guard; std::swap(local, member); }], after which the member is
    empty. *)
Definition bg_swap (a : statsd_aggregator E) (pc : bg_pc) (s : bg_state) : bg_state :=
  BgState a pc (bg_sent s) (bg_recorded s).
(** A metric call of any thread. *)
Definition bg_record (op : stat_op) (s : bg_state) : bg_state :=
  BgState (apply_op (E := E) op (bg_agg s)) (bg_at s) (bg_sent s) (bg_recorded s ++ [op]).

(** Send the first metric of a block; an exception leaves the function of the
    thread, which is [std::terminate]; so does, in the model, undefined
    behaviour. *)
Definition send_first (k : kind) (name : bytes) (value : Z) (next : bg_pc) (s : bg_state) : bg_state :=
  match client_call k name value (_statsd_client (bg_agg s)) with
  | Sent _ => BgState (bg_agg s) next (bg_sent s ++ [(k, name, value)]) (bg_recorded s)
  | SendThrows _ | SendUndefined => bg_goto BgTerminated s
  end.

(** One step of the background thread.  [epoch_ops] says which metric calls
    the registered functions make this time (the values come from the
    database and the file system, not from the aggregator). *)
Definition bg_step (epoch_ops : E -> list stat_op) (s : bg_state) : bg_state :=
  let a := bg_agg s in
  match bg_at s with
  | BgLoopTest =>
      bg_goto (if _background_running a then BgCalls (_epoch_calls a ≫= epoch_ops)
               else BgReturned) s
  | BgCalls (op :: ops) => bg_goto (BgCalls ops) (bg_record op s)
  | BgCalls [] => bg_swap (with_sets [] a) (BgSets (_sets a)) s
  | BgSets ((n, v) :: m) => send_first KSetStat n v (BgSets m) s
  | BgSets [] => bg_swap (with_timers [] a) (BgTimers (_timers a)) s
  | BgTimers ((n, v) :: m) => send_first KTimer n v (BgTimers m) s
  | BgTimers [] => bg_swap (with_gauges [] a) (BgGauges (_gauges a)) s
  | BgGauges ((n, v) :: m) => send_first KGauge n v (BgGauges m) s
  | BgGauges [] => bg_swap (with_counters [] a) (BgCounters (_counters a)) s
  | BgCounters ((n, v) :: m) => send_first KCounter n v (BgCounters m) s
  | BgCounters [] => bg_goto BgSleep s
  | BgSleep => bg_goto BgLoopTest s
  | BgReturned | BgTerminated => s
  end.

(** ** The system: the background thread and the callers *)
Inductive event :=
| EvOp (op : stat_op)
| EvOnEpoch (call : E)
| EvStop
| EvBg (epoch_ops : E -> list stat_op).

Definition is_terminated (pc : bg_pc) : bool :=
  match pc with BgTerminated => true | _ => false end.
Definition holds_epochs_mutex (pc : bg_pc) : bool :=
  match pc with BgCalls _ => true | _ => false end.

(** [on_epoch] waits while the thread holds the mutex of the calls; nothing
    happens any more once the process was terminated. *)
Definition sys_step (ev : event) (s : bg_state) : option bg_state :=
  if is_terminated (bg_at s) then None
  else
    match ev with
    | EvOp op => Some (bg_record op s)
    | EvOnEpoch call =>
        if holds_epochs_mutex (bg_at s) then None
        else Some (bg_swap (on_epoch call (bg_agg s)) (bg_at s) s)
    | EvStop => Some (bg_swap (stop_background (bg_agg s)) (bg_at s) s)
    | EvBg eo => Some (bg_step eo s)
    end.

Fixpoint sys_run (evs : list event) (s : bg_state) : option bg_state :=
  match evs with
  | [] => Some s
  | ev :: evs => match sys_step ev s with Some s => sys_run evs s | None => None end
  end.
End Background.
Arguments bg_state E : clear implicits.
Arguments event E : clear implicits.

(** ** The abstraction: one channel per kind of metric

    For one kind, the aggregator is a channel: a map of values recorded since
    the last swap, a batch being sent, and what was sent.  Counters merge a
    new value into the recorded one by addition, the others replace it. *)
Record chan := Chan { ch_cur : smap Z; ch_pend : smap Z; ch_out : list (bytes * Z) }.

Definition merge (k : kind) (old : option Z) (v : Z) : Z :=
  match k, old with KCounter, Some o => i64 (o + v) | _, _ => v end.
Definition chan_record (k : kind) (n : bytes) (v : Z) (c : chan) : chan :=
  Chan (smap_set n (merge k (smap_find n (ch_cur c)) v) (ch_cur c)) (ch_pend c) (ch_out c).
Definition chan_swap (c : chan) : chan := Chan [] (ch_cur c) (ch_out c).

(** [chan_step k vs c c']: from [c] to [c'] while the values [vs] were
    recorded. *)
Inductive chan_step (k : kind) : list (bytes * Z) -> chan -> chan -> Prop :=
| chan_stay c : chan_step k [] c c
| chan_rec n v c : chan_step k [(n, v)] c (chan_record k n v c)
| chan_flush cur out : chan_step k [] (Chan cur [] out) (Chan [] cur out)
| chan_send n v cur pend out :
    chan_step k [] (Chan cur ((n, v) :: pend) out) (Chan cur pend (out ++ [(n, v)])).

Definition op_kind (op : stat_op) : kind :=
  match op with
  | OpCounter _ _ => KCounter | OpTimer _ _ => KTimer
  | OpGauge _ _ => KGauge | OpSet _ _ => KSetStat
  end.
Definition op_value (op : stat_op) : bytes * Z :=
  match op with OpCounter n v | OpTimer n v | OpGauge n v | OpSet n v => (n, v) end.

Definition recorded_of (k : kind) (ops : list stat_op) : list (bytes * Z) :=
  op_value <$> filter (fun op => op_kind op = k) ops.
Definition sent_of (k : kind) (l : list (kind * bytes * Z)) : list (bytes * Z) :=
  (fun x => (x.1.2, x.2)) <$> filter (fun x => x.1.1 = k) l.

Section Projection.
Context {E : Type}.

Definition cur_of (k : kind) (a : statsd_aggregator E) : smap Z :=
  match k with
  | KCounter => _counters a | KTimer => _timers a | KGauge => _gauges a | KSetStat => _sets a
  end.
Definition pend_of (k : kind) (pc : bg_pc) : smap Z :=
  match k, pc with
  | KCounter, BgCounters m | KTimer, BgTimers m | KGauge, BgGauges m | KSetStat, BgSets m => m
  | _, _ => []
  end.
Definition proj (k : kind) (s : bg_state E) : chan :=
  Chan (cur_of k (bg_agg s)) (pend_of k (bg_at s)) (sent_of k (bg_sent s)).
End Projection.
