(* ===== verification/AggregatorFacts.v ===== *)
(** * Metrics aggregation: nothing is lost, nothing is sent twice *)
From Stdlib Require Sorting.Sorted.
From S2P Require Import Prelude Cxx StdMap Statsd Aggregator.

Open Scope Z_scope.

(** ** Sums and last values over lists of named values *)
Definition sum_of (n : bytes) (l : list (bytes * Z)) : Z :=
  foldr (fun nv acc => (if decide (nv.1 = n) then nv.2 else 0) + acc) 0 l.
Definition last_of (n : bytes) (l : list (bytes * Z)) : option Z :=
  last (snd <$> filter (fun nv => nv.1 = n) l).

Lemma sum_of_app n l1 l2 : sum_of n (l1 ++ l2) = sum_of n l1 + sum_of n l2.
Proof. induction l1 as [|x l1 IH]; simpl; [lia|]. rewrite IH. lia. Qed.

Lemma last_of_app n l1 l2 :
  last_of n (l1 ++ l2) = match last_of n l2 with Some v => Some v | None => last_of n l1 end.
Proof. unfold last_of. by rewrite filter_app, fmap_app, last_app. Qed.
Lemma last_of_one n n' v : last_of n [(n', v)] = if decide (n' = n) then Some v else None.
Proof. unfold last_of. rewrite filter_cons, filter_nil. simpl. by case_decide. Qed.

(** A map holds each name once: its sum is its value, its last is its value. *)
Lemma sum_of_absent n (m : smap Z) : n ∉ m.*1 -> sum_of n m = 0.
Proof.
  induction m as [|[n' v] m IH]; simpl; intros Hn; [done|].
  apply not_elem_of_cons in Hn as [Hne Hn]. rewrite decide_False by congruence. rewrite IH by done. lia.
Qed.
Lemma smap_find_absent n (m : smap Z) : n ∉ m.*1 -> smap_find n m = None.
Proof.
  induction m as [|[n' v] m IH]; simpl; intros Hn; [done|].
  apply not_elem_of_cons in Hn as [Hne Hn]. rewrite decide_False by done. auto.
Qed.
Lemma sum_of_smap n (m : smap Z) : NoDup m.*1 -> sum_of n m = default 0 (smap_find n m).
Proof.
  induction m as [|[n' v] m IH]; simpl; intros Hnd; [done|].
  apply NoDup_cons in Hnd as [Hn Hnd]. destruct (decide (n = n')) as [->|Hne].
  - rewrite decide_True, sum_of_absent by done. simpl. lia.
  - rewrite decide_False by congruence. rewrite IH by done. lia.
Qed.
Lemma last_of_smap n (m : smap Z) : NoDup m.*1 -> last_of n m = smap_find n m.
Proof.
  induction m as [|[n' v] m IH]; cbn [fmap list_fmap fst]; intros Hnd; [done|].
  apply NoDup_cons in Hnd as [Hn Hnd].
  change ((n', v) :: m) with ([(n', v)] ++ m). rewrite last_of_app, last_of_one, IH by done.
  simpl. destruct (decide (n = n')) as [->|Hne].
  - by rewrite decide_True, smap_find_absent.
  - rewrite decide_False by congruence. by destruct (smap_find n m).
Qed.

(** ** The channel invariants *)
Definition mod64 (x y : Z) : Prop := x mod 2 ^ 64 = y mod 2 ^ 64.
#[export] Instance mod64_equiv : Equivalence mod64.
Proof. split; unfold mod64; congruence. Qed.
#[export] Instance mod64_add : Proper (mod64 ==> mod64 ==> mod64) Z.add.
Proof.
  intros x x' Hx y y' Hy. unfold mod64 in *. rewrite (Z.add_mod x y), (Z.add_mod x' y') by lia.
  by rewrite Hx, Hy.
Qed.
Lemma i64_mod64 z : mod64 (i64 z) z.
Proof.
  unfold mod64, i64, wrap_s. set (h := 2 ^ (64 - 1)).
  rewrite Zminus_mod_idemp_l. f_equal. lia.
Qed.

Ltac mod64_lia := unfold mod64; f_equal; lia.

Record chan_ok (k : kind) (recorded : list (bytes * Z)) (c : chan) : Prop := {
  ok_cur : smap_sorted (ch_cur c);
  ok_pend : smap_sorted (ch_pend c);
  ok_sum : k = KCounter -> forall n,
    mod64 (sum_of n (ch_out c) + sum_of n (ch_pend c) + sum_of n (ch_cur c)) (sum_of n recorded);
  ok_last : k <> KCounter -> forall n,
    last_of n (ch_out c ++ ch_pend c ++ ch_cur c) = last_of n recorded
}.

Lemma sum_of_set n n' v (m : smap Z) :
  smap_sorted m ->
  sum_of n (smap_set n' v m) = if decide (n = n') then v else sum_of n m.
Proof.
  intros Hs. rewrite !sum_of_smap by (apply smap_sorted_nodup; auto with cxx).
  case_decide as Hd; [subst; by rewrite smap_find_set_eq|]. by rewrite smap_find_set_ne.
Qed.

Lemma chan_record_sum n' n v c :
  smap_sorted (ch_cur c) ->
  mod64 (sum_of n' (ch_cur (chan_record KCounter n v c)))
        (sum_of n' (ch_cur c) + sum_of n' [(n, v)]).
Proof.
  intros Hs. simpl. rewrite sum_of_set by done.
  destruct (decide (n' = n)) as [->|Hne].
  - rewrite decide_True, sum_of_smap by (done || by apply smap_sorted_nodup).
    destruct (smap_find n (ch_cur c)) as [o|]; simpl; [rewrite i64_mod64|]; mod64_lia.
  - rewrite decide_False by congruence. mod64_lia.
Qed.

Lemma chan_record_last k n' n v c l :
  smap_sorted (ch_cur c) -> k <> KCounter ->
  last_of n' (l ++ ch_cur (chan_record k n v c)) = last_of n' ((l ++ ch_cur c) ++ [(n, v)]).
Proof.
  intros Hs Hk. rewrite !last_of_app, last_of_one.
  unfold chan_record; cbn [ch_cur].
  rewrite (last_of_smap n' (ch_cur c)) by (by apply smap_sorted_nodup).
  rewrite last_of_smap by (by apply smap_sorted_nodup, smap_set_sorted).
  destruct (decide (n = n')) as [->|Hne].
  - rewrite smap_find_set_eq. by destruct k.
  - by rewrite smap_find_set_ne by congruence.
Qed.

Lemma chan_step_ok k vs R c c' :
  chan_ok k R c -> chan_step k vs c c' -> chan_ok k (R ++ vs) c'.
Proof.
  intros [Hcur Hpend Hsum Hlast] Hstep. inversion Hstep; subst; rewrite ?app_nil_r.
  - by split.
  - split; simpl; auto with cxx.
    + intros -> n'. rewrite (sum_of_app n' R), <- Hsum by done.
      pose proof (chan_record_sum n' n v c Hcur) as Hr. simpl in Hr. rewrite Hr. simpl. mod64_lia.
    + intros Hk n'. rewrite (last_of_app n' R), <- Hlast, <- last_of_app by done.
      rewrite app_assoc. pose proof (chan_record_last k n' n v c (ch_out c ++ ch_pend c) Hcur Hk) as Hr.
      simpl in Hr. by rewrite Hr, <- !app_assoc.
  - split; simpl in *; auto.
    + intros Hk n. rewrite <- Hsum by done. mod64_lia.
    + intros Hk n. rewrite <- Hlast by done. by rewrite app_nil_r.
  - apply Sorted.StronglySorted_inv in Hpend as Hinv. destruct Hinv as [Hp _].
    split; simpl in *; auto.
    + intros Hk n'. rewrite <- Hsum by done. rewrite sum_of_app. simpl. mod64_lia.
    + intros Hk n'. rewrite <- Hlast by done. by rewrite <- app_assoc.
Qed.

(** ** The aggregator refines the channels *)
Section Refinement.
Context {E : Type}.
Implicit Types s : bg_state E.

Lemma recorded_of_app k l1 l2 : recorded_of k (l1 ++ l2) = recorded_of k l1 ++ recorded_of k l2.
Proof. unfold recorded_of. by rewrite filter_app, fmap_app. Qed.
Lemma recorded_of_one k op :
  recorded_of k [op] = if decide (op_kind op = k) then [op_value op] else [].
Proof. unfold recorded_of. rewrite filter_cons, filter_nil. by case_decide. Qed.
Lemma sent_of_snoc k l k' n v :
  sent_of k (l ++ [(k', n, v)]) = sent_of k l ++ if decide (k' = k) then [(n, v)] else [].
Proof.
  unfold sent_of. rewrite filter_app, fmap_app, filter_cons, filter_nil. f_equal.
  simpl. by case_decide.
Qed.

(** What a step of the system does to the channel of one kind. *)
Definition simulates (k : kind) (s s' : bg_state E) : Prop :=
  exists vs, chan_step k vs (proj k s) (proj k s')
    /\ recorded_of k (bg_recorded s') = recorded_of k (bg_recorded s) ++ vs.

Lemma simulates_same k s s' :
  proj k s' = proj k s -> bg_recorded s' = bg_recorded s -> simulates k s s'.
Proof. intros H1 H2. exists []. rewrite H1, H2, app_nil_r. split; [constructor|done]. Qed.

(** A metric call is [chan_record] on the channel of its kind and leaves the
    others alone. *)
Lemma proj_record k op s :
  proj k (bg_record op s) =
  if decide (op_kind op = k)
  then chan_record k (op_value op).1 (op_value op).2 (proj k s) else proj k s.
Proof.
  case_decide as Hk; [subst k|].
  - destruct op; unfold proj, bg_record, chan_record; simpl; [|done..].
    unfold counter. by destruct (smap_find name (_counters (bg_agg s))).
  - destruct op, k; simpl in Hk; try done; unfold proj, bg_record; simpl; unfold counter;
      by case_match.
Qed.

Lemma simulates_record k op s : simulates k s (bg_record op s).
Proof.
  exists (recorded_of k [op]). split; [|apply recorded_of_app].
  rewrite recorded_of_one, proj_record. case_decide; [|constructor].
  destruct (op_value op); constructor.
Qed.

(** Swapping a member out into an empty local, sending the first metric of the
    local, and moving between blocks. *)
Lemma simulates_send k k' n v pc s :
  bg_at s <> BgTerminated ->
  pend_of k' (bg_at s) = (n, v) :: pend_of k' pc ->
  (forall k2, k2 <> k' -> pend_of k2 (bg_at s) = pend_of k2 pc) ->
  bg_at (send_first k' n v pc s) <> BgTerminated ->
  simulates k s (send_first k' n v pc s).
Proof.
  intros Hs Hpend Hother. unfold send_first.
  destruct (client_call _ _ _ _); [|done..]. intros _. exists [].
  split; [|by rewrite app_nil_r]. unfold proj; simpl. rewrite sent_of_snoc.
  destruct (decide (k' = k)) as [<-|Hne].
  - rewrite Hpend. constructor.
  - rewrite (Hother k) by congruence. rewrite app_nil_r. constructor.
Qed.

Lemma simulates_swap k k' a pc s :
  pend_of k' (bg_at s) = [] -> pend_of k' pc = cur_of k' (bg_agg s) ->
  cur_of k' a = [] ->
  (forall k2, k2 <> k' -> cur_of k2 a = cur_of k2 (bg_agg s)
                          /\ pend_of k2 pc = [] /\ pend_of k2 (bg_at s) = []) ->
  simulates k s (bg_swap a pc s).
Proof.
  intros Hp0 Hp Hc Hother. exists []. split; [|by rewrite app_nil_r]. unfold proj; simpl.
  destruct (decide (k = k')) as [->|Hne].
  - rewrite Hp0, Hp, Hc. constructor.
  - destruct (Hother k Hne) as (-> & -> & ->). constructor.
Qed.

Lemma simulates_bg_step k eo s :
  bg_at s <> BgTerminated -> bg_at (bg_step eo s) <> BgTerminated -> simulates k s (bg_step eo s).
Proof.
  intros Hs. unfold bg_step. destruct (bg_at s) as [|[|op ops]|m|m|m|m| | |] eqn:Hpc; intros Hs'.
  - apply simulates_same; [|done]. unfold proj; simpl. rewrite Hpc.
    by destruct k, (_background_running (bg_agg s)).
  - apply (simulates_swap k KSetStat); rewrite ?Hpc; try done. by intros [].
  - destruct (simulates_record k op s) as (vs & Hstep & Hrec). exists vs. split; [|done].
    replace (proj k (bg_goto _ _)) with (proj k (bg_record op s)); [done|].
    unfold proj; simpl. rewrite Hpc. by destruct k.
  - destruct m as [|[n v] m].
    + apply (simulates_swap k KTimer); rewrite ?Hpc; try done. by intros [].
    + apply simulates_send; rewrite ?Hpc; try done. by intros [].
  - destruct m as [|[n v] m].
    + apply (simulates_swap k KGauge); rewrite ?Hpc; try done. by intros [].
    + apply simulates_send; rewrite ?Hpc; try done. by intros [].
  - destruct m as [|[n v] m].
    + apply (simulates_swap k KCounter); rewrite ?Hpc; try done. by intros [].
    + apply simulates_send; rewrite ?Hpc; try done. by intros [].
  - destruct m as [|[n v] m].
    + apply simulates_same; [|done]. unfold proj; simpl. rewrite Hpc. by destruct k.
    + apply simulates_send; rewrite ?Hpc; try done. by intros [].
  - apply simulates_same; [|done]. unfold proj; simpl. rewrite Hpc. by destruct k.
  - by apply simulates_same.
  - done.
Qed.

Lemma simulates_sys_step k ev s s' :
  sys_step ev s = Some s' -> bg_at s' <> BgTerminated -> simulates k s s'.
Proof.
  unfold sys_step. destruct (is_terminated (bg_at s)) eqn:Ht; [done|].
  assert (Hs : bg_at s <> BgTerminated) by (intros Heq; by rewrite Heq in Ht).
  destruct ev as [op|call| |eo].
  - intros [= <-] _. apply simulates_record.
  - destruct (holds_epochs_mutex _); [done|]. intros [= <-] _. apply simulates_same; [|done].
    unfold proj; simpl. by destruct k.
  - intros [= <-] _. apply simulates_same; [|done]. unfold proj; simpl. by destruct k.
  - intros [= <-] Hs'. by apply simulates_bg_step.
Qed.

Lemma sys_step_from_live ev s s' : sys_step ev s = Some s' -> bg_at s <> BgTerminated.
Proof. unfold sys_step. intros H Heq. by rewrite Heq in H. Qed.

Lemma sys_run_snoc evs ev s :
  sys_run (evs ++ [ev]) s = match sys_run evs s with Some s1 => sys_step ev s1 | None => None end.
Proof.
  revert s; induction evs as [|e evs IH]; intros s; simpl; [by destruct (sys_step ev s)|].
  by destruct (sys_step e s).
Qed.

Lemma chan_ok_init k prefix : chan_ok k [] (proj k (bg_init (E := E) prefix)).
Proof. destruct k; split; try (constructor || done). Qed.

Lemma sys_run_ok k evs prefix s :
  sys_run evs (bg_init prefix) = Some s -> bg_at s <> BgTerminated ->
  chan_ok k (recorded_of k (bg_recorded s)) (proj k s).
Proof.
  revert s; induction evs as [|ev evs IH] using rev_ind; intros s.
  { intros [= <-] _. apply chan_ok_init. }
  rewrite sys_run_snoc. destruct (sys_run evs _) as [s1|]; [|done]. intros Hstep Hs.
  destruct (simulates_sys_step k ev s1 s Hstep Hs) as (vs & Hvs & ->).
  eapply chan_step_ok; [|done]. apply IH; [done|]. by eapply sys_step_from_live.
Qed.
End Refinement.

(** (C11) Conservation.  In every run of the aggregator (metric calls of any
    threads, registrations and shutdown, interleaved in any way with the steps
    of the background thread, whatever its registered functions record), as
    long as the process has not been terminated: for every counter name, what
    was handed to the statsd client, plus what is in the batch being sent,
    plus what is in the map, is the sum of all values recorded under it
    (modulo the 64 bits of [intmax_t]).  No increment is lost and none is sent
    twice. *)
Theorem counters_conserved {E} (evs : list (event E)) prefix s n :
  sys_run evs (bg_init prefix) = Some s -> bg_at s <> BgTerminated ->
  mod64 (sum_of n (sent_of KCounter (bg_sent s))
         + sum_of n (pend_of KCounter (bg_at s)) + sum_of n (_counters (bg_agg s)))
        (sum_of n (recorded_of KCounter (bg_recorded s))).
Proof. intros Hrun Hs. by apply (ok_sum _ _ _ (sys_run_ok KCounter evs prefix s Hrun Hs)). Qed.

Definition demo_events : list (event unit) :=
  [EvOp (OpCounter !"a" 2); EvOnEpoch tt; EvBg (fun _ => []); EvOp (OpCounter !"b" 5)]
  ++ replicate 6 (EvBg (fun _ => [OpGauge !"g" 7]))
  ++ [EvOp (OpCounter !"a" 40)]
  ++ replicate 2 (EvBg (fun _ => [])) ++ [EvOp (OpCounter !"a" (-1))].

Lemma counters_conserved_witness :
  exists s, sys_run demo_events (bg_init !"q") = Some s /\
  mod64 (sum_of !"a" (sent_of KCounter (bg_sent s))
         + sum_of !"a" (pend_of KCounter (bg_at s)) + sum_of !"a" (_counters (bg_agg s)))
        (sum_of !"a" (recorded_of KCounter (bg_recorded s))).
Proof.
  let s := eval vm_compute in (sys_run demo_events (bg_init (lit "q"))) in
  lazymatch s with Some ?s => exists s end.
  split; [reflexivity|].
  apply (counters_conserved demo_events !"q"); [reflexivity|discriminate].
Defined.

(** Functional behaviour.  For gauges, timers and sets the last value
    recorded under a name is never lost or overtaken by an older one: in every
    such run it is the last one under that name in what was sent, followed by
    the batch being sent, followed by the map. *)
Theorem last_value_wins {E} (evs : list (event E)) prefix s k n :
  sys_run evs (bg_init prefix) = Some s -> bg_at s <> BgTerminated -> k <> KCounter ->
  last_of n (sent_of k (bg_sent s) ++ pend_of k (bg_at s) ++ cur_of k (bg_agg s))
  = last_of n (recorded_of k (bg_recorded s)).
Proof. intros Hrun Hs Hk. by apply (ok_last _ _ _ (sys_run_ok k evs prefix s Hrun Hs)). Qed.

Definition gauge_events : list (event unit) :=
  [EvOp (OpGauge !"g" 2); EvBg (fun _ => [])] ++ replicate 5 (EvBg (fun _ => []))
  ++ [EvOp (OpGauge !"g" 3)].

Lemma last_value_wins_witness :
  exists s, sys_run gauge_events (bg_init !"q") = Some s /\
  last_of !"g" (sent_of KGauge (bg_sent s) ++ pend_of KGauge (bg_at s) ++ cur_of KGauge (bg_agg s))
  = last_of !"g" (recorded_of KGauge (bg_recorded s)).
Proof.
  let s := eval vm_compute in (sys_run gauge_events (bg_init (lit "q"))) in
  lazymatch s with Some ?s => exists s end.
  split; [reflexivity|].
  apply (last_value_wins gauge_events !"q"); [reflexivity|discriminate..].
Defined.

(** A metric whose message does not fit the statsd buffer (a
    name of 256 bytes will do) ends the process: when the background thread
    comes to send it, the exception leaves the function of the thread.  Nothing
    of the rest of the batch is sent. *)
Theorem long_metric_terminates {E} (s : bg_state E) prefix n v m eo :
  plain prefix -> nul_free n -> _statsd_client (bg_agg s) = new_statsd prefix ->
  bg_at s = BgCounters ((n, v) :: m) ->
  max_buffer_size <= len (stat_line prefix n (dec (i32 v)) !"|c") ->
  exists s', sys_step (EvBg eo) s = Some s' /\ bg_at s' = BgTerminated
    /\ bg_sent s' = bg_sent s /\ forall ev, sys_step ev s' = None.
Proof.
  intros Hp Hn Hc Hpc Hlen. unfold sys_step at 1, bg_step. rewrite Hpc. simpl.
  unfold send_first. rewrite Hc. simpl client_call.
  unfold statsd_counter. pose proof (c_str_id n Hn) as Hcs.
  rewrite (send_stat_plain prefix _ _ (n ++ lit ":" ++ dec (i32 v) ++ lit "|c"));
    [|done|by apply (bool_decide_unpack _); vm_compute|by rewrite <- Hcs at 2|apply stat_bytes_pos].
  unfold send_message. apply Z.leb_le in Hlen. unfold stat_line in Hlen. rewrite Hlen.
  eexists. split_and!; done.
Qed.

Lemma long_metric_terminates_witness :
  let n := replicate 256 "x"%char in
  let a := with_counters [(n, 1)] (new_statsd_aggregator (E := unit) !"q") in
  let s := BgState a (BgCounters [(n, 1)]) [] [] in
  exists s', sys_step (EvBg (fun _ => [])) s = Some s' /\ bg_at s' = BgTerminated
    /\ bg_sent s' = [] /\ forall ev, sys_step ev s' = None.
Proof.
  intros n a s. apply (long_metric_terminates s !"q" n 1 []).
  - repeat constructor; discriminate.
  - apply Forall_replicate. discriminate.
  - reflexivity.
  - reflexivity.
  - vm_compute. congruence.
Defined.
