(* ===== verification/Rocks.v ===== *)
(** * The RocksDB store, [src/src/quitsies/db/rocks.hpp] and [rocks.cpp]

    RocksDB and its backup engine are third-party code: the classes [RocksDB]
    and [RocksEnv] are their observable interface, parameters of the model.
    [rocks] is the class of the source; every method is a function on it.  A
    method that dereferences [_db] or [_local_stats] is a partial function:
    [None] is the undefined behaviour of an invalid pointer.  The HTTP
    endpoints are the functions registered by [register_endpoints]. *)
From S2P Require Import Prelude Cxx Effects Store Statsd Aggregator.

Open Scope Z_scope.

(** ** The third-party interface *)

(** [rocksdb::Status], by what the source observes of it. *)
Record rstatus := RStatus { s_ok : bool; s_IsNotFound : bool; s_ToString : bytes }.

(** [rocksdb::DBWithTTL] and [rocksdb::Statistics]. *)
Class RocksDB (DB : Type) := {
  db_Get : bytes -> DB -> DB * rstatus * bytes;
  db_Delete : bytes -> DB -> DB * rstatus;
  db_Put : bytes -> bytes -> DB -> DB * rstatus;
  db_estimate_num_keys : DB -> Z;
  db_tickers : DB -> list (bytes * Z);
  db_stats_string : DB -> bytes
}.

(** [rocksdb::BackupInfo] *)
Record backup_info := BackupInfo { backup_id : Z; timestamp : Z; size : Z }.

(** The arguments of [DBWithTTL::Open] the source computes. *)
Record db_options := DbOptions {
  opt_universal : bool; opt_memtable : Z; opt_block_cap : Z; opt_shard_bits : Z;
  opt_max_open_files : Z; opt_statistics : bool
}.

(** What the static functions of RocksDB do to the disk [W]. *)
Class RocksEnv (W DB : Type) := {
  engine : Type;
  BackupEngine_Open : bytes -> W -> W * rstatus * engine;
  CreateNewBackup : engine -> DB -> W -> W * rstatus;
  PurgeOldBackups : engine -> Z -> W -> W * rstatus;
  GetBackupInfo : engine -> W -> list backup_info;
  BackupEngineReadOnly_Open : bytes -> W -> W * rstatus * engine;
  RestoreDBFromLatestBackup : engine -> bytes -> W -> W * rstatus;
  DBWithTTL_Open : db_options -> bytes -> Z -> W -> W * rstatus * DB
}.

(** What the laws of RocksDB promise of a database that works: it is a
    map. *)
Class RocksDBLaws (DB : Type) `{RocksDB DB} := {
  db_view : DB -> gmap bytes bytes;
  db_healthy : DB -> Prop;
  law_get k d :
    db_healthy d ->
    exists d' s v, db_Get k d = (d', s, v) /\ db_healthy d' /\ db_view d' = db_view d
      /\ match db_view d !! k with
         | Some w => s_ok s = true /\ v = w
         | None => s_ok s = false /\ s_IsNotFound s = true
         end;
  law_put k v d :
    db_healthy d ->
    exists d' s, db_Put k v d = (d', s) /\ db_healthy d' /\ db_view d' = <[k := v]> (db_view d)
      /\ s_ok s = true;
  law_delete k d :
    db_healthy d ->
    exists d' s, db_Delete k d = (d', s) /\ db_healthy d' /\ db_view d' = delete k (db_view d)
      /\ s_ok s = true /\ s_IsNotFound s = false
}.

(** ** [class rocks] *)

(** The raw pointer [_db]: the constructor does not initialise it. *)
Inductive db_ptr (DB : Type) := Dangling | Null | Ptr (d : DB).
Arguments Dangling {DB}. Arguments Null {DB}. Arguments Ptr {DB} d.

Inductive log_level := LDebug | LInfo | LError.

(** [_log] is the sequence of calls made on the logger. *)
Record rocks (DB A : Type) := Rocks {
  _path : bytes; _ttl : Z; _memtable : Z; _shard_bits : Z; _block_cap : Z; _max_files : Z;
  _debug : bool; _write_mode : bool; _restore : bool;
  _db : db_ptr DB;
  _local_stats : option A;
  _rocks_stats : bool;
  _log : list (log_level * bytes);
  _db_mutex : bool
}.
Arguments Rocks {DB A}.
Arguments _path {DB A}. Arguments _ttl {DB A}. Arguments _memtable {DB A}.
Arguments _shard_bits {DB A}. Arguments _block_cap {DB A}. Arguments _max_files {DB A}.
Arguments _debug {DB A}. Arguments _write_mode {DB A}. Arguments _restore {DB A}.
Arguments _db {DB A}. Arguments _local_stats {DB A}. Arguments _rocks_stats {DB A}.
Arguments _log {DB A}. Arguments _db_mutex {DB A}.

(** The functions handed to [on_epoch]: [open] registers one. *)
Inductive epoch_fn := RocksEpoch.

Section RocksClass.
Context {DB A : Type} `{RocksDB DB} `{Aggregator A epoch_fn}.
Implicit Types r : rocks DB A.

(** [null] is the [null_aggregator] the constructor allocates. *)
Definition new_rocks (null : A) : rocks DB A :=
  Rocks !"/tmp/quitsies" 0 (Z.shiftl 128 20) 4 (Z.shiftl 8 20) (-1)
    false false false Dangling (Some null) false [] false.

Definition with_db (p : db_ptr DB) r : rocks DB A :=
  Rocks (_path r) (_ttl r) (_memtable r) (_shard_bits r) (_block_cap r) (_max_files r)
    (_debug r) (_write_mode r) (_restore r) p (_local_stats r) (_rocks_stats r) (_log r)
    (_db_mutex r).
Definition with_stats (a : A) r : rocks DB A :=
  Rocks (_path r) (_ttl r) (_memtable r) (_shard_bits r) (_block_cap r) (_max_files r)
    (_debug r) (_write_mode r) (_restore r) (_db r) (Some a) (_rocks_stats r) (_log r)
    (_db_mutex r).
Definition with_mutex (b : bool) r : rocks DB A :=
  Rocks (_path r) (_ttl r) (_memtable r) (_shard_bits r) (_block_cap r) (_max_files r)
    (_debug r) (_write_mode r) (_restore r) (_db r) (_local_stats r) (_rocks_stats r) (_log r) b.
Definition log_call (l : log_level) (msg : bytes) r : rocks DB A :=
  Rocks (_path r) (_ttl r) (_memtable r) (_shard_bits r) (_block_cap r) (_max_files r)
    (_debug r) (_write_mode r) (_restore r) (_db r) (_local_stats r) (_rocks_stats r)
    (_log r ++ [(l, msg)]) (_db_mutex r).

(** [_db->...] *)
Definition db_of r : option DB := match _db r with Ptr d => Some d | _ => None end.
(** [_local_stats->counter(name, 1)] *)
Definition count (name : bytes) r : option (rocks DB A) :=
  (fun a => with_stats (apply_op (OpCounter name 1) a) r) <$> _local_stats r.

(** *** The virtual methods of [store] *)
Definition get (key : bytes) r : option (rocks DB A * (status * bytes)) :=
  d ← db_of r;
  let '(d, s, value) := db_Get key d in
  let r := with_db (Ptr d) r in
  if s_ok s then
    r ← count !"rocksdb.get.success" r; Some (r, (mk_status true, value))
  else
    let isNotFound := s_IsNotFound s in
    r ← count (if isNotFound then !"rocksdb.get.not_found" else !"rocksdb.get.error") r;
    Some (r, (Status (s_ok s) isNotFound [], value)).

Definition del (key : bytes) r : option (rocks DB A * status) :=
  d ← db_of r;
  let '(d, s) := db_Delete key d in
  let r := with_db (Ptr d) r in
  let isNotFound := s_IsNotFound s in
  r ← count (if isNotFound then !"rocksdb.delete.not_found"
             else if s_ok s then !"rocksdb.delete.success"
             else !"rocksdb.delete.error") r;
  Some (r, Status (s_ok s) isNotFound []).

Definition put (key value : bytes) r : option (rocks DB A * status) :=
  d ← db_of r;
  let '(d, s) := db_Put key value d in
  let r := with_db (Ptr d) r in
  if s_ok s then
    r ← count !"rocksdb.put.success" r; Some (r, mk_status true)
  else
    r ← count !"rocksdb.put.error" r; Some (r, Status false false (s_ToString s)).

Definition lock r : option (rocks DB A) :=
  if _db_mutex r then None else Some (with_mutex true r).
Definition unlock r : rocks DB A := with_mutex false r.

(** The destructor: [None] when it deletes a pointer that was never set. *)
Definition destroy r : option (rocks DB A) :=
  let r := Rocks (_path r) (_ttl r) (_memtable r) (_shard_bits r) (_block_cap r) (_max_files r)
    (_debug r) (_write_mode r) (_restore r) (_db r) (_local_stats r) false (_log r) (_db_mutex r) in
  match _db r with
  | Dangling => None
  | Null => Some r
  | Ptr _ => Some (with_db Null r)
  end.
End RocksClass.

(** ** The folder size *)

(** What the file system answers about one entry: [status()] may throw;
    [file_size] may throw; a directory is iterated in some order and the
    iteration itself may stop with an exception. *)
Inductive fs_node :=
| FsFile (file_size : exc Z)
| FsDir (entries : list fs_node) (stop : option exn)
| FsBadStatus (e : exn).

(** [get_folder_size] on an existing directory: the size accumulates in the
    reference argument, the second component is the exception that leaves
    the function, the third the debug lines logged by the [catch] blocks.
    The body of the loop is [visit]. *)
Fixpoint folder_entry (n : fs_node) (file_size : Z) (log : list bytes) : Z * list bytes * option exn :=
  match n with
  | FsBadStatus e => (file_size, log, Some e)
  | FsFile (Ok z) => (u64 (file_size + z), log, None)
  | FsFile (Thrown e) => (file_size, log, Some e)
  | FsDir entries stop =>
      let fix loop (es : list fs_node) (file_size : Z) (log : list bytes) :=
        match es with
        | [] => (file_size, log, stop)
        | n :: es =>
            match folder_entry n file_size log with
            | (file_size, log, None) => loop es file_size log
            | (file_size, log, Some e) =>
                loop es file_size
                  (log ++ [!"Failed to evaluate folder size for metrics: " ++ what e])
            end
        end
      in loop entries file_size log
  end.

(** [get_folder_size(root)]; [None] is a root that does not exist, a root that
    is not a directory is one whose iteration throws at once. *)
Definition get_folder_size (root : option (list fs_node * option exn)) (file_size : Z) :
    Z * list bytes * option exn :=
  match root with
  | Some (entries, stop) => folder_entry (FsDir entries stop) file_size []
  | None => (file_size, [], None)
  end.

(** ** Opening and the periodic metrics *)
Section Open.
Context {W DB A : Type} `{RocksDB DB} `{Aggregator A epoch_fn} `{RocksEnv W DB}.
Implicit Types r : rocks DB A.

(** [std::cin.peek()] answers a character code; neither call consumes it. *)
Definition restore_confirmed (peek : Z) : bool := (peek =? 121) || (peek =? 89).

(** The block [if ( _restore )]. *)
Definition restore_backup (peek : Z) (w : W) r : W * exc (rocks DB A) * rocks DB A :=
  if negb (restore_confirmed peek)
  then (w, Thrown (runtime_error !"Aborting backup restore"), r)
  else
    let '(w, s, e) := BackupEngineReadOnly_Open (DB := DB) (_path r ++ !"_backup") w in
    let '(w, s) := if s_ok s then RestoreDBFromLatestBackup (DB := DB) e (_path r) w else (w, s) in
    if negb (s_ok s) then
      let r := log_call LError (!"failed to restore backup: " ++ s_ToString s) r in
      (w, Thrown (runtime_error !"failed to restore backup"), r)
    else
      let r := log_call LInfo !"successfully restored backup." r in (w, Ok r, r).

Definition open_options r : db_options :=
  DbOptions (_write_mode r) (_memtable r) (_block_cap r) (_shard_bits r) (_max_files r)
    (_rocks_stats r).

Definition normalise_ttl r : rocks DB A :=
  Rocks (_path r) (if _ttl r =? 0 then -1 else _ttl r) (_memtable r) (_shard_bits r) (_block_cap r)
    (_max_files r) (_debug r) (_write_mode r) (_restore r) (_db r) (_local_stats r)
    (_rocks_stats r) (_log r) (_db_mutex r).

(** [_rocks_stats] is set (and handed to the options) in debug mode. *)
Definition debug_stats r : rocks DB A :=
  if _debug r then
    let r := log_call LInfo
      !"DEBUG MODE: Collecting granular rocksdb metrics. This will have a small impact on performance." r in
    Rocks (_path r) (_ttl r) (_memtable r) (_shard_bits r) (_block_cap r) (_max_files r)
      (_debug r) (_write_mode r) (_restore r) (_db r) (_local_stats r) true (_log r) (_db_mutex r)
  else r.

(** What is left of [open] after the restore. *)
Definition open_db (w : W) r : W * exc unit * rocks DB A :=
  let r := debug_stats (normalise_ttl r) in
  let '(w, s, d) := DBWithTTL_Open (open_options r) (_path r) (_ttl r) w in
  if negb (s_ok s) then
    (w, Thrown (runtime_error (!"Database failed to open at " ++ _path r ++ !": " ++ s_ToString s)),
     with_db Null r)
  else
    let r := with_db (Ptr d) r in
    (w, Ok tt,
     match _local_stats r with
     | Some a => with_stats (agg_on_epoch RocksEpoch a) r
     | None => r
     end).

Definition open (stats : option A) (peek : Z) (w : W) r : W * exc unit * rocks DB A :=
  let r := Rocks (_path r) (_ttl r) (_memtable r) (_shard_bits r) (_block_cap r) (_max_files r)
    (_debug r) (_write_mode r) (_restore r) (_db r) stats (_rocks_stats r) [] (_db_mutex r) in
  let r := log_call LInfo (!"setting up DB at " ++ _path r) r in
  if _restore r then
    match restore_backup peek w r with
    | (w, Ok r, _) => open_db w r
    | (w, Thrown e, r) => (w, Thrown e, r)
    end
  else open_db w r.

(** The function registered with [on_epoch]: the metric calls it makes on
    [_local_stats], and the exception that leaves it. *)
Definition epoch_gauges (root : option (list fs_node * option exn)) r :
    option (list stat_op * option exn) :=
  d ← db_of r;
  let ops := OpGauge !"rocksdb.estimate-num-keys" (db_estimate_num_keys d)
    :: (if _rocks_stats r then (fun t => OpGauge t.1 t.2) <$> db_tickers d else []) in
  match get_folder_size root 0 with
  | (folder_size, _, None) =>
      Some (ops ++ [OpGauge !"rocksdb.db-size" folder_size;
                    OpGauge !"rocksdb.db-size-mb" (folder_size / 1000000)], None)
  | (_, _, Some e) => Some (ops, Some e)
  end.
End Open.

(** ** The HTTP endpoints *)

(** [served::response] as far as the handlers use it. *)
Record response := Response { res_status : Z; res_body : bytes }.
Definition res_ok : response := Response 200 [].
(** [res << s] and [res.set_status(c)] *)
Definition res_write (s : bytes) (res : response) : response :=
  Response (res_status res) (res_body res ++ s).
Definition set_status (c : Z) (res : response) : response := Response c (res_body res).

Section Endpoints.
Context {W DB A : Type} `{RocksDB DB} `{Aggregator A epoch_fn} `{RocksEnv W DB}.
Implicit Types r : rocks DB A.

Definition http_stats (res : response) r : option response :=
  d ← db_of r;
  let res := res_write (!"rocksdb.estimate-num-keys COUNT : " ++ dec (db_estimate_num_keys d)
                        ++ [lf]) res in
  Some (if _rocks_stats r then res_write (db_stats_string d) res else res).

Definition http_key_get (key : bytes) (res : response) r : option (rocks DB A * response) :=
  '(r, (st, value)) ← get key r;
  if ok st then Some (r, res_write value res)
  else if is_not_found st then Some (r, set_status 404 res)
  else Some (log_call LError (!"failed to obtain key " ++ key ++ !": " ++ to_string st) r,
             res_write (to_string st) (set_status 500 res)).

(** The same function is registered for PUT and for POST. *)
Definition http_key_put (key body : bytes) (res : response) r : option (rocks DB A * response) :=
  '(r, st) ← put key body r;
  if negb (ok st)
  then Some (log_call LError (!"failed to set key " ++ key ++ !": " ++ to_string st) r,
             res_write (to_string st) (set_status 500 res))
  else Some (r, res).

Definition backup_path r : bytes := _path r ++ !"_backup".

Definition http_backup_create (res : response) (w : W) r : option (W * rocks DB A * response) :=
  let r := log_call LInfo (!"attempting to create new backup at: " ++ backup_path r) r in
  let '(w, s, e) := BackupEngine_Open (DB := DB) (backup_path r) w in
  '(w, s) ← (if s_ok s then d ← db_of r; Some (CreateNewBackup e d w) else Some (w, s));
  if negb (s_ok s) then
    r ← count !"rocksdb.backup.create.error" r;
    Some (w, log_call LError (!"failed to create new backup: " ++ s_ToString s) r,
          res_write (s_ToString s) (set_status 500 res))
  else
    r ← count !"rocksdb.backup.create.success" r;
    Some (w, log_call LInfo (!"created new backup at: " ++ backup_path r) r,
          res_write !"Success" res).

Definition http_backup_clean (res : response) (w : W) r : option (W * rocks DB A * response) :=
  let r := log_call LInfo (!"attempting to purge old backups at: " ++ backup_path r) r in
  let '(w, s, e) := BackupEngine_Open (DB := DB) (backup_path r) w in
  let '(w, s) := if s_ok s then PurgeOldBackups (DB := DB) e 1 w else (w, s) in
  if negb (s_ok s) then
    r ← count !"rocksdb.backup.clean.error" r;
    Some (w, log_call LError (!"failed to purge backups: " ++ s_ToString s) r,
          res_write (s_ToString s) (set_status 500 res))
  else
    r ← count !"rocksdb.backup.clean.success" r;
    Some (w, log_call LInfo (!"purged old backups at: " ++ backup_path r) r,
          res_write !"Success" res).

Definition dquote : ascii := "034"%char.

(** One iteration of the loop over the backups. *)
Definition put_info (ss : sstream) (i : backup_info) : sstream :=
  let ss := ss_puts ("{"%char :: dquote :: !"id" ++ [dquote; ":"%char; dquote]) ss in
  let ss := ss_puts (dec (backup_id i)) ss in
  let ss := ss_puts [dquote] ss in
  let ss := ss_puts (!", " ++ dquote :: !"timestamp" ++ dquote :: !":") ss in
  let ss := ss_puts (dec (timestamp i)) ss in
  let ss := ss_puts (!", " ++ dquote :: !"size" ++ dquote :: !":") ss in
  let ss := ss_puts (dec (size i)) ss in
  ss_puts !"}," ss.

Definition backup_json (infos : list backup_info) : bytes :=
  let ss := ss_puts !"[" ss_empty in
  let ss := fold_left put_info infos ss in
  let ss := if 0 <? len infos then ss_seekp_end (-1) ss else ss in
  ss_str (ss_puts !"]" ss).

Definition http_backup_info (res : response) (w : W) r : W * rocks DB A * response :=
  let '(w, s, e) := BackupEngine_Open (DB := DB) (backup_path r) w in
  if negb (s_ok s) then
    (w, log_call LError (!"failed to read backup: " ++ s_ToString s) r,
     res_write (s_ToString s) (set_status 500 res))
  else (w, r, res_write (backup_json (GetBackupInfo (DB := DB) e w)) res).

(** [/endpoints]: [served]'s list of paths, each with its methods. *)
Definition http_endpoints (endpoints : list (bytes * list bytes)) (res : response) : response :=
  fold_left (fun res (ep : bytes * list bytes) =>
    fold_left (fun res (m : bytes) => res_write (m ++ space :: ep.1 ++ [lf]) res) ep.2 res)
    endpoints res.
End Endpoints.
