(* ===== verification/RocksFacts.v ===== *)
(** * The RocksDB store: theorems

    [rocks] meets [StoreContract] when RocksDB meets its laws; every command
    served over it acts as the specification says and counts its database
    operations; opening, destruction, the HTTP endpoints and the periodic
    metrics. *)
From S2P Require Import Prelude Cxx Effects Store Request RequestFacts Memcached.
From S2P Require Import StdMap Statsd Aggregator Rocks.

Open Scope Z_scope.

(** ** [rocks] as a [Store]

    [ub] is what a call on an invalid pointer answers: nothing is assumed
    about it. *)
Section AsStore.
Context {DB A : Type} `{RocksDB DB} `{Aggregator A epoch_fn}.
Variable ub : forall X, rocks DB A -> exc X.

Definition or_ub {X} (r : rocks DB A) (o : option (rocks DB A * X)) : rocks DB A * exc X :=
  match o with Some (r', x) => (r', Ok x) | None => (r, ub X r) end.

Definition rocks_store : Store (rocks DB A) := {|
  store_get k r := or_ub r (get k r);
  store_del k r := or_ub r (del k r);
  store_put k v r := or_ub r (put k v r);
  store_lock := lock;
  store_unlock := unlock
|}.
End AsStore.

Section Contract.
Context {DB A : Type} `{RocksDBLaws DB} `{Aggregator A epoch_fn}.
Variable ub : forall X, rocks DB A -> exc X.
#[local] Instance rocks_store_inst : Store (rocks DB A) := rocks_store ub.

(** The store between two calls: [r0] with the database at [m], the mutex at
    [b] and the aggregator at [a]. *)
Definition rocks_at (r0 : rocks DB A) (m : gmap bytes bytes) (b : bool) (a : A)
    (r : rocks DB A) : Prop :=
  exists d, r = with_mutex b (with_stats a (with_db (Ptr d) r0))
    /\ db_healthy d /\ db_view d = m.

Definition counted (name : bytes) (a : A) : A := apply_op (OpCounter name 1) a.

Lemma get_at r0 m b a r k :
  rocks_at r0 m b a r ->
  exists r' s v, get k r = Some (r', (s, v))
    /\ rocks_at r0 m b (counted (if m !! k then !"rocksdb.get.success"
                                 else !"rocksdb.get.not_found") a) r'
    /\ match m !! k with
       | Some w => ok s = true /\ v = w
       | None => ok s = false /\ is_not_found s = true
       end.
Proof.
  intros (d & -> & Hd & <-). destruct (law_get k d Hd) as (d' & s & v & Heq & Hd' & Hv & Hm).
  unfold get; simpl. rewrite Heq. destruct (db_view d !! k) as [w|]; destruct Hm as [Hs Hn].
  - rewrite Hs. simpl. do 3 eexists; split; [done|]. split; [by exists d'|done].
  - rewrite Hs, Hn. simpl. do 3 eexists; split; [done|]. split; [by exists d'|done].
Qed.
Lemma put_at r0 m b a r k v :
  rocks_at r0 m b a r ->
  exists r' s, put k v r = Some (r', s)
    /\ rocks_at r0 (<[k := v]> m) b (counted !"rocksdb.put.success" a) r' /\ ok s = true.
Proof.
  intros (d & -> & Hd & <-). destruct (law_put k v d Hd) as (d' & s & Heq & Hd' & Hv & Hs).
  unfold put; simpl. rewrite Heq, Hs. simpl. do 2 eexists; split; [done|].
  split; [by exists d'|done].
Qed.
Lemma del_at r0 m b a r k :
  rocks_at r0 m b a r ->
  exists r' s, del k r = Some (r', s)
    /\ rocks_at r0 (delete k m) b (counted !"rocksdb.delete.success" a) r' /\ ok s = true.
Proof.
  intros (d & -> & Hd & <-). destruct (law_delete k d Hd) as (d' & s & Heq & Hd' & Hv & Hs & Hn).
  unfold del; simpl. rewrite Heq, Hn, Hs. simpl. do 2 eexists; split; [done|].
  split; [by exists d'|done].
Qed.

(** What the contract of the interface says, for [rocks]. *)
Definition rocks_view (r : rocks DB A) : gmap bytes bytes :=
  match db_of r with Some d => db_view d | None => ∅ end.
Definition rocks_ready (r : rocks DB A) : Prop :=
  exists d, db_of r = Some d /\ db_healthy d /\ is_Some (_local_stats r).

Lemma rocks_at_self r : rocks_ready r -> exists a, rocks_at r (rocks_view r) (_db_mutex r) a r.
Proof.
  intros (d & Hd & Hh & [a Ha]). exists a, d. unfold rocks_view. rewrite Hd. split_and!; [|done..].
  destruct r; unfold db_of in Hd; simpl in *. case_match; by simplify_eq.
Qed.
Lemma rocks_at_facts r0 m b a r :
  rocks_at r0 m b a r -> rocks_ready r /\ rocks_view r = m /\ _db_mutex r = b.
Proof. intros (d & -> & Hd & Hm). split; [exists d; eauto|done]. Qed.

Definition rocks_contract : StoreContract (rocks DB A).
Proof.
  refine {| store_view := rocks_view; store_held := @_db_mutex DB A; store_ready := rocks_ready |}.
  - intros k r Hr. destruct (rocks_at_self r Hr) as [a Ha].
    destruct (get_at _ _ _ _ _ k Ha) as (r' & s & v & Heq & Hat & Hm).
    apply rocks_at_facts in Hat as (? & ? & ?). exists r', s, v. simpl. by rewrite Heq.
  - intros k w r Hr. destruct (rocks_at_self r Hr) as [a Ha].
    destruct (put_at _ _ _ _ _ k w Ha) as (r' & s & Heq & Hat & Hs).
    apply rocks_at_facts in Hat as (? & ? & ?). exists r', s. simpl. by rewrite Heq.
  - intros k r Hr. destruct (rocks_at_self r Hr) as [a Ha].
    destruct (del_at _ _ _ _ _ k Ha) as (r' & s & Heq & Hat & Hs).
    apply rocks_at_facts in Hat as (? & ? & ?). exists r', s. simpl. by rewrite Heq.
  - intros r. simpl. unfold lock. destruct (_db_mutex r); split; congruence.
  - intros r r'. simpl. unfold lock. destruct (_db_mutex r); [done|]. intros [= <-]. done.
  - done.
Defined.
End Contract.

(** ** Commands served over [rocks]: effect, reply and metrics *)

(** The counters a command is owed, from the map it finds. *)
Definition get_metric (m : gmap bytes bytes) (k : bytes) : bytes :=
  if m !! k then !"rocksdb.get.success" else !"rocksdb.get.not_found".
Definition metrics (c : command) (m : gmap bytes bytes) : list bytes :=
  match c with
  | CStore KSet _ _ _ _ _ => [ !"rocksdb.put.success" ]
  | CStore KAdd k _ _ _ _ =>
      get_metric m k :: (if m !! k then [] else [ !"rocksdb.put.success" ])
  | CGet _ k ks => get_metric m <$> k :: ks
  | CDelete k _ => get_metric m k :: (if m !! k then [ !"rocksdb.delete.success" ] else [])
  | CPing => []
  end.

Section Serve.
Context {DB A : Type} `{RocksDBLaws DB} `{Aggregator A epoch_fn}.
Variable ub : forall X, rocks DB A -> exc X.
#[local] Instance rocks_store_serve : Store (rocks DB A) := rocks_store ub.
Implicit Types r : rocks DB A.

Definition count_all (names : list bytes) (a : A) : A :=
  fold_left (fun a n => counted (A := A) n a) names a.

Lemma wp_rget r0 k m b a r (Q : rocks DB A -> exc (status * bytes) -> Prop) :
  rocks_at r0 m b a r ->
  (forall r' s v, rocks_at r0 m b (counted (get_metric m k) a) r' ->
     match m !! k with
     | Some w => ok s = true /\ v = w
     | None => ok s = false /\ is_not_found s = true
     end -> Q r' (Ok (s, v))) ->
  wp store_handle (trigger (SGet k)) r Q.
Proof.
  intros Hr HQ. destruct (get_at _ _ _ _ _ k Hr) as (r' & s & v & Heq & Hat & Hm).
  eapply wp_trigger; [simpl; by rewrite Heq|]. by apply HQ.
Qed.
Lemma wp_rput r0 k w m b a r (Q : rocks DB A -> exc status -> Prop) :
  rocks_at r0 m b a r ->
  (forall r' s, rocks_at r0 (<[k := w]> m) b (counted !"rocksdb.put.success" a) r' ->
     ok s = true -> Q r' (Ok s)) ->
  wp store_handle (trigger (SPut k w)) r Q.
Proof.
  intros Hr HQ. destruct (put_at _ _ _ _ _ k w Hr) as (r' & s & Heq & Hat & Hs).
  eapply wp_trigger; [simpl; by rewrite Heq|]. by apply HQ.
Qed.
Lemma wp_rdel r0 k m b a r (Q : rocks DB A -> exc status -> Prop) :
  rocks_at r0 m b a r ->
  (forall r' s, rocks_at r0 (delete k m) b (counted !"rocksdb.delete.success" a) r' ->
     ok s = true -> Q r' (Ok s)) ->
  wp store_handle (trigger (SDel k)) r Q.
Proof.
  intros Hr HQ. destruct (del_at _ _ _ _ _ k Hr) as (r' & s & Heq & Hat & Hs).
  eapply wp_trigger; [simpl; by rewrite Heq|]. by apply HQ.
Qed.
Lemma wp_rlock r0 m a r (Q : rocks DB A -> exc unit -> Prop) :
  rocks_at r0 m false a r -> (forall r', rocks_at r0 m true a r' -> Q r' (Ok tt)) ->
  wp store_handle (trigger SLock) r Q.
Proof.
  intros (d & -> & Hd & Hm) HQ. eapply wp_trigger; [done|]. apply HQ. by exists d.
Qed.
Lemma wp_runlock r0 m b a r (Q : rocks DB A -> exc unit -> Prop) :
  rocks_at r0 m b a r -> (forall r', rocks_at r0 m false a r' -> Q r' (Ok tt)) ->
  wp store_handle (trigger SUnlock) r Q.
Proof.
  intros (d & -> & Hd & Hm) HQ. eapply wp_trigger; [done|]. apply HQ. by exists d.
Qed.

#[local] Ltac rstep :=
  lazymatch goal with
  | |- wp _ (trigger (SGet _)) _ _ => eapply wp_rget; [eassumption|]; intros ? ? ? ? ?
  | |- wp _ (trigger (SPut _ _)) _ _ => eapply wp_rput; [eassumption|]; intros ? ? ? ?
  | |- wp _ (trigger (SDel _)) _ _ => eapply wp_rdel; [eassumption|]; intros ? ? ? ?
  | |- wp _ (trigger SLock) _ _ => eapply wp_rlock; [eassumption|]; intros ? ?
  | |- wp _ (trigger SUnlock) _ _ => eapply wp_runlock; [eassumption|]; intros ? ?
  | |- _ => wp_step
  end.

Lemma wp_rretrieve r0 ks ss m b a r (Q : rocks DB A -> exc bytes -> Prop) :
  rocks_at r0 m b a r ->
  (forall r', rocks_at r0 m b (count_all (get_metric m <$> ks) a) r' ->
     Q r' (Ok (ss ++ mjoin (value_block m <$> ks)))) ->
  wp store_handle (retrieve ks ss) r Q.
Proof.
  revert ss r a; induction ks as [|k ks IH]; intros ss r a Hr HQ; cbn [retrieve].
  - rstep. specialize (HQ r Hr). cbn in HQ. by rewrite app_nil_r in HQ.
  - do 3 rstep. eapply IH; [done|]. intros r2 Hr2.
    specialize (HQ r2 Hr2). cbn [fmap list_fmap mjoin list_join fst snd] in *.
    unfold value_block at 1 in HQ.
    destruct (m !! k); use_status; [|done]. by rewrite <- !app_assoc in *.
Qed.

Lemma wp_rrespond c mx r0 m a r :
  c <> CPing -> rocks_at r0 m false a r ->
  wp store_handle (respond (parsed true mx c) (first_key c)) r (fun r' x =>
    rocks_at r0 (exec c m).1 false (count_all (metrics c m) a) r' /\ x = Ok (exec c m).2).
Proof.
  intros Hc Hd.
  destruct c as [[] key f e v nr|multi key keys|key nr|]; [..|done]; cbn [first_key].
  - unfold respond; cbn [parsed _command kind_command buffer_str].
    repeat rstep. use_status. auto.
  - unfold respond; cbn [parsed _command kind_command buffer_str]. do 4 rstep. repeat rstep.
    cbn [fst snd exec metrics] in *.
    destruct (m !! key); use_status.
    + repeat rstep. auto.
    + do 4 rstep. use_status. repeat rstep. auto.
  - assert (Heq : respond (parsed true mx (CGet multi key keys)) key =
      bind (retrieve (key :: keys) []) (fun ss => Ret (ss ++ lit "END" ++ crlf)))
      by (by destruct multi).
    rewrite Heq. rstep. eapply wp_rretrieve; [done|]. intros d' Hd'. do 2 rstep. auto.
  - unfold respond; cbn [parsed _command]. do 3 rstep. cbn [fst exec metrics] in *.
    destruct (m !! key); use_status.
    + do 4 rstep. use_status. auto.
    + rstep. auto.
Qed.

(** (C13) Refinement and metrics.  Over a store on a RocksDB that meets its
    laws, with the mutex free: [process] on the wire form of a well-formed
    command [c] acts on the database as [exec] says, leaves the reply [exec]
    gives, frees the mutex, changes nothing else of the store object, and
    records in the aggregator exactly the counters [metrics c] lists (one per
    database operation, named by its outcome). *)
Theorem rocks_serves_commands c g mx rest r0 m a r :
  command_ok c ->
  over_limit (len (render c ++ rest)) (new_request g true mx) = false ->
  rocks_at r0 m false a r ->
  wp store_handle (process (render c ++ rest) (new_request g true mx)) r (fun r' x =>
    rocks_at r0 (exec c m).1 false (count_all (metrics c m) a) r' /\
    exists q, x = Ok q /\ get_response q = Ok (exec c m).2
      /\ _no_reply q = command_noreply c /\ _status q = FINISHED
      /\ reset q = new_request NONE true mx).
Proof.
  intros Hc Hlim Hr. apply wp_process_command; [done..|].
  apply wp_prepare_respond; [by intros ->|]. intros Hp. by apply wp_rrespond.
Qed.
End Serve.

(** *** A database in memory *)
Record mem_db := MemDb { mem_map : gmap bytes bytes; mem_fails : bool }.
Definition rs_ok : rstatus := RStatus true false !"OK".
Definition rs_not_found : rstatus := RStatus false true !"NotFound: ".
Definition rs_io_error : rstatus := RStatus false false !"IO error: disk".
#[export] Instance mem_rocksdb : RocksDB mem_db := {
  db_Get k d :=
    if mem_fails d then (d, rs_io_error, [])
    else match mem_map d !! k with
         | Some v => (d, rs_ok, v) | None => (d, rs_not_found, [])
         end;
  db_Delete k d := if mem_fails d then (d, rs_io_error) else (MemDb (delete k (mem_map d)) false, rs_ok);
  db_Put k v d := if mem_fails d then (d, rs_io_error) else (MemDb (<[k := v]> (mem_map d)) false, rs_ok);
  db_estimate_num_keys d := Z.of_nat (base.size (mem_map d));
  db_tickers _ := [(!"rocksdb.bytes.read", 7)];
  db_stats_string _ := !"rocksdb.bytes.read COUNT : 7"
}.
#[export] Program Instance mem_rocksdb_laws : RocksDBLaws mem_db := {
  db_view := mem_map; db_healthy d := mem_fails d = false
}.
Next Obligation. intros k [m []] Hd; [done|]. simpl. destruct (m !! k); eauto 10. Qed.
Next Obligation. intros k v [m []] Hd; [done|]. simpl. eauto 10. Qed.
Next Obligation. intros k [m []] Hd; [done|]. simpl. eauto 10. Qed.

Definition demo_agg : statsd_aggregator epoch_fn := new_statsd_aggregator !"quitsies".
Definition demo_rocks (m : gmap bytes bytes) : rocks mem_db (statsd_aggregator epoch_fn) :=
  with_db (Ptr (MemDb m false)) (new_rocks demo_agg).

Lemma rocks_serves_commands_witness :
  wp (@store_handle _ (rocks_store (fun X _ => Thrown (runtime_error []))))
    (process (render (CStore KAdd !"key" 20 (-1) !"hello" false)) (new_request QUIT true 64))
    (demo_rocks ∅) (fun r' x =>
      rocks_at (demo_rocks ∅) {[ !"key" := !"hello" ]} false
        (counted !"rocksdb.put.success" (counted !"rocksdb.get.not_found" demo_agg)) r' /\
      exists q, x = Ok q /\ get_response q = Ok (!"STORED" ++ crlf)
        /\ _no_reply q = false /\ _status q = FINISHED
        /\ reset q = new_request NONE true 64).
Proof.
  refine (rocks_serves_commands _ (CStore KAdd !"key" 20 (-1) !"hello" false) QUIT 64 []
            (demo_rocks ∅) ∅ demo_agg (demo_rocks ∅) _ _ _).
  - repeat split; [discriminate|solve_token|..]; vm_compute; congruence.
  - reflexivity.
  - by exists (MemDb ∅ false).
Defined.
