(* ===== verification/RocksHttp.v ===== *)
(** * The RocksDB store: opening, HTTP endpoints, backups and folder size

    Theorems about [open] and the destructor, the [/key] and [/backup_info]
    endpoints, and [get_folder_size]. *)
From S2P Require Import Prelude Cxx Effects Store StdMap Statsd Aggregator Rocks RocksFacts.

Open Scope Z_scope.

(** ** Opening *)
Section Opening.
Context {W DB A : Type} `{RocksDB DB} `{Aggregator A epoch_fn} `{RocksEnv W DB}.
Implicit Types r : rocks DB A.

(** [open] got as far as [DBWithTTL::Open], on this disk and object. *)
Definition reached_db (peek : Z) (w : W) r (w1 : W) (r1 : rocks DB A) : Prop :=
  if _restore r then exists r2, restore_backup peek w r = (w1, Ok r1, r2)
  else w1 = w /\ r1 = r.

(** The object the body of [open] starts from. *)
Definition opening (stats : option A) r : rocks DB A :=
  Rocks (_path r) (_ttl r) (_memtable r) (_shard_bits r) (_block_cap r) (_max_files r)
    (_debug r) (_write_mode r) (_restore r) (_db r) stats (_rocks_stats r)
    [(LInfo, !"setting up DB at " ++ _path r)] (_db_mutex r).

Lemma open_unfold stats peek w r :
  open stats peek w r =
  if _restore r then
    match restore_backup peek w (opening stats r) with
    | (w, Ok r, _) => open_db w r
    | (w, Thrown e, r) => (w, Thrown e, r)
    end
  else open_db w (opening stats r).
Proof. done. Qed.

(** The restore changes nothing of the object but its log. *)
Lemma restore_backup_frame peek w r w' x r' :
  restore_backup peek w r = (w', x, r') ->
  let f q := (_path q, _ttl q, _max_files q, _debug q, _db q, _local_stats q) in
  f r' = f r /\ match x with Ok r1 => r1 = r' | Thrown _ => True end.
Proof.
  unfold restore_backup. intros Heq. repeat case_match; by simplify_eq/=.
Qed.

(** What [open_db] does, on both branches. *)
Lemma open_db_spec w r w' x r' :
  open_db w r = (w', x, r') ->
  match x with
  | Ok _ => exists opts s d,
      DBWithTTL_Open opts (_path r) (if _ttl r =? 0 then -1 else _ttl r) w = (w', s, d)
      /\ s_ok s = true /\ _db r' = Ptr d
      /\ opt_max_open_files opts = _max_files r
      /\ _local_stats r' = agg_on_epoch RocksEpoch <$> _local_stats r
  | Thrown e => exists s, e = runtime_error (!"Database failed to open at " ++ _path r ++ !": " ++ s)
      /\ _db r' = Null
  end.
Proof.
  unfold open_db. set (r1 := debug_stats (normalise_ttl r)).
  assert (Hf : _path r1 = _path r /\ _ttl r1 = (if _ttl r =? 0 then -1 else _ttl r)
               /\ _local_stats r1 = _local_stats r /\ opt_max_open_files (open_options r1) = _max_files r).
  { unfold r1, debug_stats, normalise_ttl; simpl. by destruct (_debug r). }
  destruct Hf as (Hp & Ht & Hs & Hm). rewrite <- Hp, <- Ht, <- Hs. clearbody r1.
  destruct (DBWithTTL_Open _ _ _ w) as [[w1 s] d] eqn:Hopen.
  destruct (s_ok s) eqn:Hok; cbn [negb]; intros [= <- <- <-].
  - exists (open_options r1), s, d. split_and!; try done; by destruct r1 as [??????????[]].
  - by exists (s_ToString s).
Qed.

(** Opening.  When [open] returns, [DBWithTTL::Open] succeeded, at the
    configured path and with a time to live that is never 0 (0 means none and
    is passed as -1), every method is usable ([_db] points to the database,
    so [get] is defined), the metrics function is registered, and a restore,
    if one was asked for, was confirmed. *)
Theorem open_ok_usable stats peek (w w' : W) r r' :
  open (Some stats) peek w r = (w', Ok tt, r') ->
  (exists opts w1 s d ttl, DBWithTTL_Open opts (_path r) ttl w1 = (w', s, d) /\ s_ok s = true
     /\ _db r' = Ptr d /\ ttl <> 0 /\ (_ttl r <> 0 -> ttl = _ttl r)
     /\ opt_max_open_files opts = _max_files r)
  /\ _local_stats r' = Some (agg_on_epoch RocksEpoch stats)
  /\ (forall k, is_Some (get k r'))
  /\ (_restore r = true -> peek = 121 \/ peek = 89).
Proof.
  rewrite open_unfold. intros Hopen.
  assert (Hgo : exists w1 r1, open_db w1 r1 = (w', Ok tt, r') /\ _path r1 = _path r
    /\ _ttl r1 = _ttl r /\ _max_files r1 = _max_files r /\ _local_stats r1 = Some stats
    /\ (_restore r = true -> peek = 121 \/ peek = 89)).
  { destruct (_restore r); [|exists w, (opening (Some stats) r); by split_and!].
    destruct (restore_backup _ _ _) as [[w1 [r1|e]] r2] eqn:Hr; [|done].
    exists w1, r1. pose proof (restore_backup_frame _ _ _ _ _ _ Hr) as [Hf ->].
    injection Hf as Hp Ht Hm Hd Hdb Hs. split_and!; try done. intros _.
    revert Hr. unfold restore_backup. destruct (restore_confirmed peek) eqn:Hc; [|done].
    intros _. unfold restore_confirmed in Hc. apply orb_prop in Hc. lia. }
  destruct Hgo as (w1 & r1 & Hdb & Hp & Ht & Hm & Hs & Hc).
  apply open_db_spec in Hdb as (opts & s & d & Hop & Hok & Hdb & Hmo & Hst).
  rewrite Hp, Ht in Hop. rewrite Hs in Hst. split_and!; [|done| |done].
  - do 5 eexists. split; [exact Hop|]. split_and!; try done; [| |congruence];
      destruct (_ttl r =? 0) eqn:Hz; bool_to_prop; lia.
  - intros k. unfold get, db_of, count. rewrite Hdb. simpl.
    destruct (db_Get k d) as [[d1 st] v]. destruct r' as [??????????[]]; simpl in *; [|done].
    destruct (s_ok st); simpl; eauto.
Qed.

(** Destruction after a failed [open].  The destructor is defined after
    a failed [DBWithTTL::Open] (the pointer was reset), but when the restore
    is refused or fails [_db] was never assigned and the destructor, which
    runs when [main] returns 1, deletes a garbage pointer. *)
Theorem failed_open_destroy stats peek (w w' : W) r r' e :
  _db r = Dangling ->
  open stats peek w r = (w', Thrown e, r') ->
  destroy r' = None <-> e = runtime_error !"Aborting backup restore"
                       \/ e = runtime_error !"failed to restore backup".
Proof.
  rewrite open_unfold. intros Hdang Hopen.
  assert (Hdb : forall w1 r1, open_db w1 r1 = (w', Thrown e, r') ->
    destroy r' = None <-> e = runtime_error !"Aborting backup restore"
                         \/ e = runtime_error !"failed to restore backup").
  { intros w1 r1 Hdb. apply open_db_spec in Hdb as (s & -> & Hnull). unfold destroy.
    rewrite Hnull. split; [done|]. intros [[=]|[=]]. }
  destruct (_restore r); [|eauto].
  destruct (restore_backup _ _ _) as [[w1 [r1|e1]] r2] eqn:Hr; [eauto|].
  simplify_eq. pose proof (restore_backup_frame _ _ _ _ _ _ Hr) as [Hf _].
  injection Hf as _ _ _ _ Hf _. unfold destroy. rewrite Hf, Hdang. split; [intros _|done].
  revert Hr. unfold restore_backup. repeat case_match; intros; simplify_eq/=; auto.
Qed.
End Opening.

(** *** A disk in memory: one backup, taken and restored *)
Record mem_disk := MemDisk { disk_db : gmap bytes bytes; disk_backups : list (gmap bytes bytes); disk_broken : bool }.
#[export] Instance mem_env : RocksEnv mem_disk mem_db := {
  engine := unit;
  BackupEngine_Open _ w := (w, (if disk_broken w then rs_io_error else rs_ok), tt);
  CreateNewBackup _ d w := (MemDisk (disk_db w) (mem_map d :: disk_backups w) (disk_broken w), rs_ok);
  PurgeOldBackups _ n w :=
    (MemDisk (disk_db w) (take (Z.to_nat n) (disk_backups w)) (disk_broken w), rs_ok);
  GetBackupInfo _ w :=
    imap (fun i m => BackupInfo (Z.of_nat i + 1) 1500000000 (Z.of_nat (base.size m))) (disk_backups w);
  BackupEngineReadOnly_Open _ w := (w, (if disk_broken w then rs_io_error else rs_ok), tt);
  RestoreDBFromLatestBackup _ _ w :=
    match disk_backups w with
    | m :: _ => (MemDisk m (disk_backups w) (disk_broken w), rs_ok)
    | [] => (w, rs_not_found)
    end;
  DBWithTTL_Open _ _ _ w :=
    if disk_broken w then (w, rs_io_error, MemDb ∅ false) else (w, rs_ok, MemDb (disk_db w) false)
}.

Definition restoring : rocks mem_db (statsd_aggregator epoch_fn) :=
  let r := new_rocks demo_agg in
  Rocks (_path r) (_ttl r) (_memtable r) (_shard_bits r) (_block_cap r) (_max_files r)
    (_debug r) (_write_mode r) true (_db r) (_local_stats r) (_rocks_stats r) (_log r) (_db_mutex r).
Definition demo_disk : mem_disk := MemDisk ∅ [ {[ !"k" := !"saved" ]} ] false.

Lemma open_ok_usable_witness :
  is_Some (get !"k" (open (Some demo_agg) 121 demo_disk restoring).2).
Proof.
  refine (proj1 (proj2 (proj2 (open_ok_usable demo_agg 121 demo_disk
    (open (Some demo_agg) 121 demo_disk restoring).1.1 restoring
    (open (Some demo_agg) 121 demo_disk restoring).2 _))) !"k").
  reflexivity.
Defined.

Lemma failed_open_destroy_witness :
  destroy (open (Some demo_agg) 110 demo_disk restoring).2 = None.
Proof.
  refine (proj2 (failed_open_destroy (Some demo_agg) 110 demo_disk
    (open (Some demo_agg) 110 demo_disk restoring).1.1 restoring
    (open (Some demo_agg) 110 demo_disk restoring).2
    (runtime_error !"Aborting backup restore") _ _) _);
    [reflexivity | reflexivity | by left].
Defined.

(** ** Backups as JSON *)

(** Elements separated by [sep]. *)
Fixpoint join (sep : bytes) (l : list bytes) : bytes :=
  match l with
  | [] => []
  | [x] => x
  | x :: l => x ++ sep ++ join sep l
  end.
Definition quoted (s : bytes) : bytes := dquote :: s ++ [dquote].
Definition info_object (i : backup_info) : bytes :=
  !"{" ++ quoted !"id" ++ !":" ++ quoted (dec (backup_id i)) ++ !", "
    ++ quoted !"timestamp" ++ !":" ++ dec (timestamp i) ++ !", "
    ++ quoted !"size" ++ !":" ++ dec (size i) ++ !"}".

Definition ends_with (s : bytes) (ss : sstream) : Prop := ss_at_end ss /\ ss_str ss = s.
Lemma puts_ends_with t s ss : ends_with s ss -> ends_with (s ++ t) (ss_puts t ss).
Proof.
  intros [He <-]. split; [auto with cxx|]. by rewrite ss_puts_end.
Qed.
Lemma put_info_ends_with i s ss :
  ends_with s ss -> ends_with (s ++ info_object i ++ !",") (put_info ss i).
Proof.
  intros He. unfold put_info.
  assert (Heq : forall x y t, x = y -> ends_with x t -> ends_with y t) by (by intros ??? ->).
  eapply Heq; [|do 8 apply puts_ends_with; exact He].
  unfold info_object, quoted. rewrite <- !app_assoc. f_equal. cbn. by rewrite <- !app_assoc.
Qed.
#[local] Arguments info_object : simpl never.
#[local] Arguments put_info : simpl never.
Lemma put_infos_ends_with l s ss :
  ends_with s ss ->
  ends_with (s ++ mjoin ((fun i => info_object i ++ !",") <$> l)) (fold_left put_info l ss).
Proof.
  revert s ss; induction l as [|i l IH]; intros s ss He; [by rewrite app_nil_r|].
  cbn [fmap list_fmap mjoin list_join fold_left]. rewrite app_assoc. by apply IH, put_info_ends_with.
Qed.
Lemma mjoin_trailing sep i l :
  mjoin ((fun x => info_object x ++ sep) <$> i :: l) =
  join sep (info_object <$> i :: l) ++ sep.
Proof.
  revert i; induction l as [|j l IH]; intros i; [cbn; by rewrite app_nil_r|].
  etransitivity; [exact (f_equal (app (info_object i ++ sep)) (IH j))|].
  set (t := info_object <$> j :: l). change (info_object <$> i :: j :: l) with (info_object i :: t).
  change (join sep (info_object i :: t)) with (info_object i ++ sep ++ join sep t).
  by rewrite <- !app_assoc.
Qed.
(** Overwriting the last character. *)
Lemma overwrite_last s c c' ss :
  ends_with (s ++ [c]) ss -> ss_str (ss_puts [c'] (ss_seekp_end (-1) ss)) = s ++ [c'].
Proof.
  intros [_ Hs]. unfold ss_seekp_end. rewrite Hs. autorewrite with cxx.
  pose proof (len_nonneg s).
  replace ((0 <=? _) && _) with true by (symmetry; apply andb_true_intro; split; lia).
  unfold len. simpl ss_puts. unfold ss_putc; simpl.
  replace (Z.to_nat _) with (length s) by lia.
  rewrite length_app; simpl. replace (length s <? length s + 1)%nat with true
    by (symmetry; apply Nat.ltb_lt; lia).
  by rewrite insert_app_r_alt, Nat.sub_diag by done.
Qed.

(** Backup listing.  The body of [/backup_info] is the JSON array of the
    backups in their order, comma separated: writing [\]] over the comma the
    loop leaves at the end never truncates an object, and the empty list
    gives the empty array. *)
Theorem backup_json_array infos :
  backup_json infos = !"[" ++ join !"," (info_object <$> infos) ++ !"]".
Proof.
  unfold backup_json.
  pose proof (put_infos_ends_with infos !"[" (ss_puts !"[" ss_empty)
    (puts_ends_with !"[" [] ss_empty (conj eq_refl eq_refl))) as He.
  destruct infos as [|i l]; [done|].
  rewrite mjoin_trailing, app_assoc in He.
  replace (0 <? len (i :: l)) with true
    by (symmetry; apply Z.ltb_lt; rewrite len_cons; pose proof (len_nonneg l); lia).
  rewrite app_assoc. by apply (overwrite_last _ ","%char).
Qed.

(** ** The folder size *)
Section FsInd.
Variable P : fs_node -> Prop.
Hypothesis HF : forall z, P (FsFile z).
Hypothesis HD : forall es stop, Forall P es -> P (FsDir es stop).
Hypothesis HB : forall e, P (FsBadStatus e).
Fixpoint fs_node_rect' (n : fs_node) : P n :=
  match n with
  | FsFile z => HF z
  | FsDir es stop =>
      HD es stop ((fix go es : Forall P es :=
        match es with
        | [] => @List.Forall_nil _ P
        | n :: es => @List.Forall_cons _ P n es (fs_node_rect' n) (go es)
        end) es)
  | FsBadStatus e => HB e
  end.
End FsInd.

(** What a node holds: the sizes of the regular files below it that can be
    read, and the exceptions, in the order of the walk. *)
Fixpoint readable (n : fs_node) : list Z :=
  match n with
  | FsFile (Ok z) => [z]
  | FsFile (Thrown _) | FsBadStatus _ => []
  | FsDir es _ => es ≫= readable
  end.
Definition escapes (n : fs_node) : option exn :=
  match n with
  | FsFile (Ok _) => None
  | FsFile (Thrown e) | FsBadStatus e => Some e
  | FsDir _ stop => stop
  end.
Fixpoint caught (n : fs_node) : list exn :=
  match n with
  | FsDir es _ => es ≫= (fun n => caught n ++ option_list (escapes n))
  | _ => []
  end.
Definition sum (l : list Z) : Z := fold_right Z.add 0 l.
Lemma sum_app l k : sum (l ++ k) = sum l + sum k.
Proof. induction l; simpl; [done|]. unfold sum in *; simpl. lia. Qed.
Lemma u64_add a b : u64 (u64 a + b) = u64 (a + b).
Proof. unfold u64, wrap_u. by rewrite Zplus_mod_idemp_l. Qed.

Definition debug_line (e : exn) : bytes :=
  !"Failed to evaluate folder size for metrics: " ++ what e.

Lemma folder_entry_spec n acc log :
  folder_entry n (u64 acc) log =
  (u64 (acc + sum (readable n)), log ++ (debug_line <$> caught n), escapes n).
Proof.
  revert acc log; induction n as [[z|e]|es stop IH|e] using fs_node_rect'; intros acc log.
  1,2,4: cbn; rewrite ?Z.add_0_r, ?app_nil_r, ?u64_add; done.
  cbn [folder_entry readable caught escapes].
  revert acc log; induction IH as [|n es Hn _ IHes]; intros acc log.
  { cbn. by rewrite Z.add_0_r, app_nil_r. }
  rewrite Hn. cbn [mbind list_bind]. rewrite sum_app, fmap_app, fmap_app, Z.add_assoc, !app_assoc.
  destruct (escapes n) as [e|]; rewrite IHes; [done|]. by rewrite app_nil_r.
Qed.

(** Folder size.  [get_folder_size] on an existing directory adds up the
    sizes of all the regular files below it that can be read (modulo 2^64,
    the width of the sum), each once: an entry that throws, at any depth,
    costs its own contribution and one debug line, never its siblings'.  Only
    an exception of the iteration over the root itself leaves the function. *)
Theorem get_folder_size_sum entries stop :
  get_folder_size (Some (entries, stop)) 0 =
  (u64 (sum (entries ≫= readable)),
   debug_line <$> (entries ≫= (fun n => caught n ++ option_list (escapes n))), stop).
Proof.
  unfold get_folder_size. change 0 with (u64 0) at 1. by rewrite folder_entry_spec.
Qed.

(** ** The key endpoints *)
Section KeyEndpoints.
Context {DB A : Type} `{RocksDBLaws DB} `{Aggregator A epoch_fn}.
Implicit Types r : rocks DB A.

(** (C14) HTTP round trip.  On a working database, PUT (or POST) of a body at
    [/key/k] answers 200 with no body, and a following GET of any key answers
    200 with exactly the stored bytes: the body just put for [k], the
    previous value for any other key that has one, and 404 for a key that has
    none. *)
Theorem http_put_get k k' body r :
  rocks_ready r ->
  exists r1 r2 res,
    http_key_put k body res_ok r = Some (r1, res_ok)
    /\ http_key_get k' res_ok r1 = Some (r2, res)
    /\ rocks_view r2 = <[k := body]> (rocks_view r)
    /\ res = match rocks_view r2 !! k' with
             | Some v => Response 200 v
             | None => Response 404 []
             end.
Proof.
  intros Hr. destruct (rocks_at_self r Hr) as [a Ha].
  destruct (put_at _ _ _ _ _ k body Ha) as (r1 & s1 & Hput & Hat1 & Hs1).
  destruct (get_at _ _ _ _ _ k' Hat1) as (r2 & s2 & v & Hget & Hat2 & Hm).
  apply rocks_at_facts in Hat2 as (_ & Hv & _). exists r1, r2.
  unfold http_key_put, http_key_get. rewrite Hput, Hget. cbn [mbind option_bind].
  rewrite Hs1, Hv. cbn [negb].
  destruct (_ !! k'); destruct Hm as [Hok Hx]; rewrite Hok.
  - subst v. by eexists.
  - rewrite Hx. by eexists.
Qed.
End KeyEndpoints.

Lemma http_put_get_witness :
  exists r1 r2 res,
    http_key_put !"k" !"body" res_ok (demo_rocks ∅) = Some (r1, res_ok)
    /\ http_key_get !"k" res_ok r1 = Some (r2, res)
    /\ rocks_view r2 = <[ !"k" := !"body" ]> (rocks_view (demo_rocks ∅))
    /\ res = match rocks_view r2 !! !"k" with
             | Some v => Response 200 v
             | None => Response 404 []
             end.
Proof.
  apply (http_put_get !"k" !"k" !"body" (demo_rocks ∅)). exists (MemDb ∅ false). by repeat split.
Defined.
