(* ===== verification/Connection.v ===== *)
(** * A TCP connection, [src/src/quitsies/tcp/connection.hpp] and [.cpp]

    The socket and the timers are boost::asio objects: the model keeps what
    the source asks of them (which asynchronous operation is outstanding,
    when a timer expires, how many waits are pending on it) and takes their
    completions as inputs.  A completion handler is a function on the
    connection and the store; it says whether it called
    [_connection_manager.stop] on itself. *)
From S2P Require Import Prelude Cxx Effects Store Request.

Open Scope Z_scope.

(** ** boost::asio *)

(** [deadline_timer]: an expiry in milliseconds, the waits that are still
    waiting, and those whose handler is queued because it expired. *)
Record deadline_timer := DeadlineTimer { t_expires : Z; t_pending : nat; t_queued : nat }.
Definition timer_at (expires : Z) : deadline_timer := DeadlineTimer expires 0 0.
Definition timer_wait (t : deadline_timer) : deadline_timer :=
  DeadlineTimer (t_expires t) (S (t_pending t)) (t_queued t).
(** [cancel] completes the waiting ones with [operation_aborted], for which
    both handlers of the source do nothing; a queued handler is past
    cancelling. *)
Definition timer_cancel (t : deadline_timer) : deadline_timer :=
  DeadlineTimer (t_expires t) 0 (t_queued t).
(** Time passes the expiry. *)
Definition timer_expire (now : Z) (t : deadline_timer) : deadline_timer :=
  if t_expires t <=? now
  then DeadlineTimer (t_expires t) 0 (t_queued t + t_pending t) else t.
(** A queued handler starts to run. *)
Definition timer_take (t : deadline_timer) : option deadline_timer :=
  match t_queued t with
  | O => None
  | S n => Some (DeadlineTimer (t_expires t) (t_pending t) n)
  end.

(** The outstanding operation on the socket. *)
Inductive io := IoNone | IoRead | IoWrite (data : bytes).

(** How it completes: [error_code] is success, [operation_aborted] or
    another error. *)
Inductive error_code := Success | Aborted | OtherError.
#[export] Instance error_code_eq_dec : EqDecision error_code.
Proof. solve_decision. Defined.

(** ** [class connection]

    [c_sent] is what the completed writes put on the wire. *)
Record connection := Connection {
  _socket_open : bool;
  _request : request;
  _read_timeout : Z;
  _write_timeout : Z;
  _read_timer : deadline_timer;
  _write_timer : deadline_timer;
  c_io : io;
  c_sent : list bytes
}.

Definition read_buffer_size : Z := 8192.

(** The constructor, at time [now]; the timers expire at a time fixed here. *)
Definition new_connection (garbage : command_type) (now : Z) (db : bool)
    (max_req_size_bytes read_timeout write_timeout : Z) : connection :=
  Connection true (new_request garbage db max_req_size_bytes) read_timeout write_timeout
    (timer_at (now + read_timeout)) (timer_at (now + write_timeout)) IoNone [].

Definition with_request (r : request) (c : connection) : connection :=
  Connection (_socket_open c) r (_read_timeout c) (_write_timeout c) (_read_timer c)
    (_write_timer c) (c_io c) (c_sent c).
Definition with_read_timer (t : deadline_timer) (c : connection) : connection :=
  Connection (_socket_open c) (_request c) (_read_timeout c) (_write_timeout c) t
    (_write_timer c) (c_io c) (c_sent c).
Definition with_write_timer (t : deadline_timer) (c : connection) : connection :=
  Connection (_socket_open c) (_request c) (_read_timeout c) (_write_timeout c) (_read_timer c)
    t (c_io c) (c_sent c).
Definition with_io (i : io) (c : connection) : connection :=
  Connection (_socket_open c) (_request c) (_read_timeout c) (_write_timeout c) (_read_timer c)
    (_write_timer c) i (c_sent c).
Definition with_sent (l : list bytes) (c : connection) : connection :=
  Connection (_socket_open c) (_request c) (_read_timeout c) (_write_timeout c) (_read_timer c)
    (_write_timer c) (c_io c) l.

Definition do_read (c : connection) : connection := with_io IoRead c.

(** [asio::buffer(_request.get_response())]: the bytes are those of the
    response ([get_response] may throw out of the handler). *)
Definition do_write (c : connection) : exc connection :=
  let! resp := get_response (_request c) in Ok (with_io (IoWrite resp) c).

Definition start (c : connection) : connection :=
  let c := do_read c in
  if 0 <? _read_timeout c then with_read_timer (timer_wait (_read_timer c)) c else c.

(** [shutdown] ignores its error and [close] succeeds on a socket that is
    closed already. *)
Definition stop (c : connection) : connection :=
  Connection false (_request c) (_read_timeout c) (_write_timeout c) (_read_timer c)
    (_write_timer c) (c_io c) (c_sent c).

(** The [_request.reset(); start();] of both handlers. *)
Definition restart (c : connection) : connection :=
  start (with_request (reset (_request c)) c).

(** The handler of the [FINISHED] case. *)
Definition finished_request (c : connection) : exc connection :=
  let c := with_read_timer (timer_cancel (_read_timer c)) c in
  let c := if 0 <? _write_timeout c
           then with_write_timer (timer_wait (_write_timer c)) c else c in
  if _no_reply (_request c)
  then Ok (restart (with_write_timer (timer_cancel (_write_timer c)) c))
  else do_write c.

Section Handlers.
Context {D : Type} `{Store D}.

(** The handler of [async_read_some], given the bytes it read.  The boolean
    says whether it calls [_connection_manager.stop] on the connection;
    [None] is a handler that never returns (a store call that blocks). *)
Definition on_read (ec : error_code) (data : bytes) (c : connection) (d : D) :
    option (D * exc (connection * bool)) :=
  let c := with_io IoNone c in
  match ec with
  | Success =>
      match run store_handle (process data (_request c)) d with
      | Blocked => None
      | Done d (Thrown e) => Some (d, Thrown e)
      | Done d (Ok r) =>
          let c := with_request r c in
          Some (d, match _status r with
                   | FINISHED => let! c := finished_request c in Ok (c, false)
                   | QUITTING => Ok (c, true)
                   | _ => Ok (do_read c, false)
                   end)
      end
  | Aborted => Some (d, Ok (c, false))
  | OtherError => Some (d, Ok (c, true))
  end.
End Handlers.

(** The handler of [async_write]: on success everything was written. *)
Definition on_write (ec : error_code) (c : connection) : connection * bool :=
  let sent := match c_io c with IoWrite data => c_sent c ++ [data] | _ => c_sent c end in
  let c := with_io IoNone c in
  match ec with
  | Success =>
      let c := with_sent sent c in
      (restart (with_write_timer (timer_cancel (_write_timer c)) c), false)
  | Aborted => (c, false)
  | OtherError => (c, true)
  end.
