(* ===== verification/Server.v ===== *)
(** * The TCP server and the connection manager,
      [src/src/quitsies/tcp/server.hpp], [server.cpp],
      [connection_manager.hpp] and [connection_manager.cpp]

    The server is a state machine: its events are the completions boost::asio
    delivers.  The threads of [run] execute completion handlers concurrently;
    what they do with the acceptor and the manager, which they share without a
    common lock, is split into the steps other handlers can come between: the
    handlers of the acceptor and of the signal set, and [stop], which takes a
    connection from the set under the mutex and closes it afterwards. *)
From S2P Require Import Prelude Cxx Effects Store Request Connection.

Open Scope Z_scope.

(** ** [class connection_manager] *)

(** A connection is the object a shared pointer points to: a number.  The
    manager holds the set of pointers; all connection objects live in one
    heap. *)
Record heap := Heap { h_conns : gmap nat connection; _connections : gset nat }.

Definition on_conn (f : connection -> connection) (c : nat) (h : heap) : heap :=
  Heap (alter f c (h_conns h)) (_connections h).

(** [start] inserts under the mutex, then calls [c->start()] outside it. *)
Definition manager_insert (c : nat) (h : heap) : heap :=
  Heap (h_conns h) ({[c]} ∪ _connections h).
Definition manager_start_connection (c : nat) (h : heap) : heap := on_conn start c h.
(** [stop] erases under the mutex, then calls [c->stop()] outside it: where a
    call of it is, and its next step. *)
Inductive stop_pc := StErase (c : nat) | StClose (c : nat).
#[export] Instance stop_pc_eq_dec : EqDecision stop_pc.
Proof. solve_decision. Defined.
Definition manager_stop (pc : stop_pc) (h : heap) : heap * option stop_pc :=
  match pc with
  | StErase c => (Heap (h_conns h) (_connections h ∖ {[c]}), Some (StClose c))
  | StClose c => (on_conn stop c h, None)
  end.
(** The loop calls [stop] on every member, in the order of the set. *)
Definition manager_stop_all (h : heap) : heap :=
  let h := foldr (on_conn stop) h (elements (_connections h)) in
  Heap (h_conns h) ∅.

(** ** [class server] *)

(** Where the handler of [async_accept] is: waiting; past the test of
    [is_open] with a new socket; past the insertion; returned for good. *)
Inductive accept_pc := AcWaiting | AcAccepted | AcInserted (c : nat) | AcReturned.
(** Where the signal handler is. *)
Inductive signal_pc := SgWaiting | SgClosed | SgDone.

#[export] Instance accept_pc_eq_dec : EqDecision accept_pc.
Proof. solve_decision. Defined.
#[export] Instance signal_pc_eq_dec : EqDecision signal_pc.
Proof. solve_decision. Defined.

Record server (D : Type) := Server {
  _acceptor_open : bool;
  sv_heap : heap;
  sv_fresh : nat;
  sv_store : D;
  _sv_read_timeout : Z;
  _sv_write_timeout : Z;
  _req_max_bytes : Z;
  sv_accept : accept_pc;
  sv_signal : signal_pc;
  sv_now : Z;
  sv_stops : list stop_pc
}.
Arguments Server {D}.
Arguments _acceptor_open {D}. Arguments sv_heap {D}. Arguments sv_fresh {D}.
Arguments sv_store {D}. Arguments _sv_read_timeout {D}. Arguments _sv_write_timeout {D}.
Arguments _req_max_bytes {D}. Arguments sv_accept {D}. Arguments sv_signal {D}.
Arguments sv_now {D}. Arguments sv_stops {D}.

Section ServerClass.
Context {D : Type} `{Store D}.
Implicit Types s : server D.

(** The constructor: limits at zero, listening, waiting for a signal. *)
Definition new_server (d : D) : server D :=
  Server true (Heap ∅ ∅) 0 d 0 0 0 AcWaiting SgWaiting 0 [].

Definition set_read_timeout (ms : Z) s : server D :=
  Server (_acceptor_open s) (sv_heap s) (sv_fresh s) (sv_store s) ms (_sv_write_timeout s)
    (_req_max_bytes s) (sv_accept s) (sv_signal s) (sv_now s) (sv_stops s).
Definition set_write_timeout (ms : Z) s : server D :=
  Server (_acceptor_open s) (sv_heap s) (sv_fresh s) (sv_store s) (_sv_read_timeout s) ms
    (_req_max_bytes s) (sv_accept s) (sv_signal s) (sv_now s) (sv_stops s).
Definition set_max_request_bytes (n : Z) s : server D :=
  Server (_acceptor_open s) (sv_heap s) (sv_fresh s) (sv_store s) (_sv_read_timeout s)
    (_sv_write_timeout s) n (sv_accept s) (sv_signal s) (sv_now s) (sv_stops s).

Definition with_heap (h : heap) s : server D :=
  Server (_acceptor_open s) h (sv_fresh s) (sv_store s) (_sv_read_timeout s)
    (_sv_write_timeout s) (_req_max_bytes s) (sv_accept s) (sv_signal s) (sv_now s) (sv_stops s).
Definition with_store (d : D) s : server D :=
  Server (_acceptor_open s) (sv_heap s) (sv_fresh s) d (_sv_read_timeout s)
    (_sv_write_timeout s) (_req_max_bytes s) (sv_accept s) (sv_signal s) (sv_now s) (sv_stops s).
Definition with_accept (pc : accept_pc) s : server D :=
  Server (_acceptor_open s) (sv_heap s) (sv_fresh s) (sv_store s) (_sv_read_timeout s)
    (_sv_write_timeout s) (_req_max_bytes s) pc (sv_signal s) (sv_now s) (sv_stops s).
Definition with_signal (acceptor_open : bool) (pc : signal_pc) s : server D :=
  Server acceptor_open (sv_heap s) (sv_fresh s) (sv_store s) (_sv_read_timeout s)
    (_sv_write_timeout s) (_req_max_bytes s) (sv_accept s) pc (sv_now s) (sv_stops s).
Definition with_stops (l : list stop_pc) s : server D :=
  Server (_acceptor_open s) (sv_heap s) (sv_fresh s) (sv_store s) (_sv_read_timeout s)
    (_sv_write_timeout s) (_req_max_bytes s) (sv_accept s) (sv_signal s) (sv_now s) l.
Definition with_now (t : Z) s : server D :=
  Server (_acceptor_open s) (sv_heap s) (sv_fresh s) (sv_store s) (_sv_read_timeout s)
    (_sv_write_timeout s) (_req_max_bytes s) (sv_accept s) (sv_signal s) t (sv_stops s).

(** [std::make_shared<connection>(_io_service, ..., _stats, _read_timeout,
    _write_timeout, _req_max_bytes)]: the three limits are the constructor's
    [size_t max_req_size_bytes], [int read_timeout], [int write_timeout], in
    that order, and convert to these types. *)
Definition make_connection (garbage : command_type) s : connection :=
  new_connection garbage (sv_now s) true
    (u64 (_sv_read_timeout s)) (i32 (_sv_write_timeout s)) (i32 (_req_max_bytes s)).

(** [do_accept]'s handler, step by step. *)
Definition accept_begin (ok : bool) s : server D :=
  if negb (_acceptor_open s) then with_accept AcReturned s
  else if ok then with_accept AcAccepted s else s.
Definition accept_insert (garbage : command_type) s : server D :=
  let c := sv_fresh s in
  let h := Heap (<[c := make_connection garbage s]> (h_conns (sv_heap s)))
             (_connections (sv_heap s)) in
  Server (_acceptor_open s) (manager_insert c h) (S c) (sv_store s) (_sv_read_timeout s)
    (_sv_write_timeout s) (_req_max_bytes s) (AcInserted c) (sv_signal s) (sv_now s) (sv_stops s).
Definition accept_start (c : nat) s : server D :=
  with_accept AcWaiting (with_heap (manager_start_connection c (sv_heap s)) s).

(** A handler of a connection has run; when it ends in a call of the manager's
    [stop], that call is still to be executed. *)
Definition handled (c : nat) (conn : connection) (stopped : bool) s : server D :=
  let h := Heap (<[c := conn]> (h_conns (sv_heap s))) (_connections (sv_heap s)) in
  with_stops (if stopped then sv_stops s ++ [StErase c] else sv_stops s) (with_heap h s).
(** The [i]-th call of [stop] takes a step. *)
Definition stop_step (i : nat) (pc : stop_pc) s : server D :=
  let '(h, next) := manager_stop pc (sv_heap s) in
  with_stops (match next with Some pc => <[i := pc]> (sv_stops s) | None => delete i (sv_stops s) end)
    (with_heap h s).

Inductive timer_name := ReadTimer | WriteTimer.
Definition get_timer (n : timer_name) (c : connection) : deadline_timer :=
  match n with ReadTimer => _read_timer c | WriteTimer => _write_timer c end.
Definition set_timer (n : timer_name) (t : deadline_timer) (c : connection) : connection :=
  match n with ReadTimer => with_read_timer t c | WriteTimer => with_write_timer t c end.

Inductive sv_event :=
| EvAccept (ok : bool)
| EvInsert (garbage : command_type)
| EvStart
| EvSignal
| EvStopAll
| EvStop (i : nat)
| EvRead (c : nat) (ec : error_code) (data : bytes)
| EvWrite (c : nat) (ec : error_code)
| EvClock (t : Z)
| EvExpire (c : nat) (n : timer_name)
| EvTimer (c : nat) (n : timer_name).

(** One step; [None]: the event cannot happen in this state (the operation is
    not outstanding, time does not go back), the handler does not return, or
    an exception left it, which ends the process. *)
Definition sv_step (ev : sv_event) s : option (server D) :=
  let conns := h_conns (sv_heap s) in
  match ev with
  | EvAccept ok => if decide (sv_accept s = AcWaiting) then Some (accept_begin ok s) else None
  | EvInsert g => if decide (sv_accept s = AcAccepted) then Some (accept_insert g s) else None
  | EvStart => match sv_accept s with AcInserted c => Some (accept_start c s) | _ => None end
  | EvSignal =>
      if decide (sv_signal s = SgWaiting) then Some (with_signal false SgClosed s) else None
  | EvStopAll =>
      if decide (sv_signal s = SgClosed)
      then Some (with_signal (_acceptor_open s) SgDone (with_heap (manager_stop_all (sv_heap s)) s))
      else None
  | EvStop i => pc ← sv_stops s !! i; Some (stop_step i pc s)
  | EvRead c ec data =>
      conn ← conns !! c;
      match c_io conn with
      | IoRead =>
          if len data <=? read_buffer_size then
            match on_read ec data conn (sv_store s) with
            | Some (d, Ok (conn, stopped)) => Some (handled c conn stopped (with_store d s))
            | _ => None
            end
          else None
      | _ => None
      end
  | EvWrite c ec =>
      conn ← conns !! c;
      match c_io conn with
      | IoWrite _ => let '(conn, stopped) := on_write ec conn in Some (handled c conn stopped s)
      | _ => None
      end
  | EvClock t => if sv_now s <=? t then Some (with_now t s) else None
  | EvExpire c n =>
      conn ← conns !! c;
      Some (handled c (set_timer n (timer_expire (sv_now s) (get_timer n conn)) conn) false s)
  | EvTimer c n =>
      conn ← conns !! c;
      t ← timer_take (get_timer n conn);
      Some (handled c (set_timer n t conn) true s)
  end.

Fixpoint sv_run (evs : list sv_event) s : option (server D) :=
  match evs with
  | [] => Some s
  | ev :: evs => s ← sv_step ev s; sv_run evs s
  end.

(** The states a configured server can be in. *)
Definition configured (rt wt mb : Z) (d : D) : server D :=
  set_max_request_bytes mb (set_write_timeout wt (set_read_timeout rt (new_server d))).
End ServerClass.
