(* ===== verification/ServerFacts.v ===== *)
(** * The TCP server: invariants, shutdown and limits

    Between the two steps of [connection_manager::stop] a connection is out of
    the set and still open: the invariant and the theorem on shutdown say so. *)
From S2P Require Import Prelude Cxx Effects Store Request RequestFacts MapStore RequestSafety.
From S2P Require Import Connection Server.

Open Scope Z_scope.

(** ** One connection *)

(** What the outstanding operation says about the request. *)
Definition conn_ok (c : connection) : Prop :=
  wf (_request c) /\
  match c_io c with
  | IoNone => True
  | IoRead => _status (_request c) <> FINISHED
  | IoWrite resp => get_response (_request c) = Ok resp /\ _no_reply (_request c) = false
  end.

Lemma start_ok c : wf (_request c) -> _status (_request c) <> FINISHED -> conn_ok (start c).
Proof. intros Hw Hs. unfold start, do_read. by case_match. Qed.
Lemma start_open c : _socket_open (start c) = _socket_open c.
Proof. unfold start, do_read. by case_match. Qed.
Lemma restart_ok c : wf (_request c) -> conn_ok (restart c).
Proof. intros Hw. apply start_ok; [apply wf_reset|done]. Qed.
Lemma restart_open c : _socket_open (restart c) = _socket_open c.
Proof. unfold restart. by rewrite start_open. Qed.
#[export] Hint Resolve start_ok restart_ok : cxx.

(** The handler of a finished request sends the response or, when none is
    wanted, waits for the next request; it does not throw. *)
Lemma finished_request_ok c :
  wf (_request c) -> _status (_request c) = FINISHED ->
  exists c', finished_request c = Ok c' /\ conn_ok c' /\ _socket_open c' = _socket_open c.
Proof.
  intros Hw Hf. unfold finished_request.
  set (c1 := if 0 <? _write_timeout _ then _ else _).
  assert (Hc1 : _request c1 = _request c /\ _socket_open c1 = _socket_open c)
    by (unfold c1; by case_match).
  destruct Hc1 as [Hr Ho]. rewrite Hr. clearbody c1. destruct (_no_reply (_request c)) eqn:Hn.
  - eexists; split; [done|]. split.
    + apply restart_ok. simpl. by rewrite Hr.
    + rewrite restart_open. done.
  - unfold do_write, get_response. rewrite Hr, decide_True by done.
    eexists; split; [done|]. split; [|done]. split; simpl; rewrite Hr; [done|].
    unfold get_response. by rewrite decide_True.
Qed.

Section Handlers.
Context {D : Type} `{Store D}.

(** The read handler: it does not throw, and leaves a consistent
    connection. *)
Lemma on_read_ok ec data c (d d' : D) x :
  conn_ok c -> on_read ec data c d = Some (d', x) ->
  exists c' b, x = Ok (c', b) /\ conn_ok c' /\ _socket_open c' = _socket_open c.
Proof.
  intros [Hw _]. unfold on_read. destruct ec.
  2,3: intros [= <- <-]; do 2 eexists; split; [done|]; done.
  change (_request (with_io IoNone c)) with (_request c).
  destruct (run _ _ d) as [d1 [r|e]|] eqn:Hrun; [..|done]; intros [= <- <-].
  2: { by apply run_process_cases in Hrun as (r' & ? & _). }
  apply run_process_wf in Hrun; [|done].
  destruct (_status r) eqn:Hs;
    try (do 2 eexists; split; [done|]; split; [split; simpl; [done|congruence]|done]).
  - destruct (finished_request_ok (with_request r (with_io IoNone c))) as (c' & -> & Hok & Ho);
      [done..|]. do 2 eexists; split; [done|]. done.
  - do 2 eexists; split; [done|]. done.
Qed.
End Handlers.

Lemma on_write_ok ec c c' b :
  conn_ok c -> on_write ec c = (c', b) -> conn_ok c' /\ _socket_open c' = _socket_open c.
Proof.
  intros [Hw _]. unfold on_write. destruct ec; intros [= <- <-]; [|done..].
  rewrite restart_open. split; [|done]. by apply restart_ok.
Qed.

(** ** The manager and the heap *)

(** The manager's set is the set of open connections, but for those that a
    call of [stop] has taken from the set and not yet closed. *)
Definition heap_ok (stops : list stop_pc) (h : heap) : Prop :=
  (forall c conn, h_conns h !! c = Some conn -> conn_ok conn)
  /\ (forall c, c ∈ _connections h <->
        StClose c ∉ stops /\ exists conn, h_conns h !! c = Some conn /\ _socket_open conn = true).

Lemma heap_ok_insert c conn conn' stops h :
  heap_ok stops h -> h_conns h !! c = Some conn -> conn_ok conn' ->
  _socket_open conn' = _socket_open conn ->
  heap_ok stops (Heap (<[c := conn']> (h_conns h)) (_connections h)).
Proof.
  intros [Hok Hm] Hc Hok' Ho. split; simpl.
  - intros c1 conn1 [[-> <-]|[_ Hl]]%lookup_insert_Some; eauto.
  - intros c1. rewrite Hm. f_equiv. destruct (decide (c1 = c)) as [->|Hne].
    + rewrite lookup_insert_eq, Hc. split; intros (? & [= <-] & ?); eexists; split;
        try done; congruence.
    + by rewrite lookup_insert_ne.
Qed.
Lemma heap_ok_snoc c stops h : heap_ok stops h -> heap_ok (stops ++ [StErase c]) h.
Proof.
  intros [Hok Hm]. split; [done|]. intros c1. rewrite Hm. f_equiv. by rewrite elem_of_app, list_elem_of_singleton; naive_solver.
Qed.

Lemma elem_of_replace {A} (l : list A) i x y z :
  l !! i = Some x -> z <> x -> z ∈ <[i := y]> l <-> z = y \/ z ∈ l.
Proof.
  intros Hi Hne. rewrite !list_elem_of_lookup. split.
  - intros (k & [(<- & -> & _)|[Hk Hl]]%list_lookup_insert_Some); eauto.
  - intros [->|(k & Hk)]; [exists i; apply list_lookup_insert_eq; by eapply lookup_lt_Some|].
    exists k. rewrite list_lookup_insert_ne; [done|]. intros ->. congruence.
Qed.
Lemma elem_of_remove {A} (l : list A) i x z : l !! i = Some x -> z <> x -> z ∈ delete i l <-> z ∈ l.
Proof.
  intros Hi Hne. rewrite (delete_take_drop l i). rewrite <- (take_drop_middle l i x Hi) at 3.
  rewrite !elem_of_app, elem_of_cons. naive_solver.
Qed.

(** A step of [stop]. *)
Lemma heap_ok_erase c i stops h :
  heap_ok stops h -> stops !! i = Some (StErase c) ->
  heap_ok (<[i := StClose c]> stops) (Heap (h_conns h) (_connections h ∖ {[c]})).
Proof.
  intros [Hok Hm] Hi. split; simpl; [done|]. intros c1.
  rewrite elem_of_difference, elem_of_singleton, Hm, (elem_of_replace _ _ _ _ _ Hi) by done. naive_solver.
Qed.
Lemma heap_ok_close c i stops h :
  heap_ok stops h -> stops !! i = Some (StClose c) -> heap_ok (delete i stops) (on_conn stop c h).
Proof.
  intros [Hok Hm] Hi. split; simpl.
  - intros c1 conn1 Hl. destruct (decide (c1 = c)) as [->|Hne].
    + rewrite lookup_alter_eq in Hl. destruct (h_conns h !! c) eqn:Hc; [|done].
      injection Hl as <-. exact (Hok c _ Hc).
    + rewrite lookup_alter_ne in Hl by done. by apply (Hok c1).
  - intros c1. rewrite Hm. destruct (decide (c1 = c)) as [->|Hne].
    + rewrite lookup_alter_eq. split.
      * intros [[] _]. by eapply list_elem_of_lookup_2.
      * intros (_ & conn & Hl & Ho). destruct (h_conns h !! c); [|done]. by simplify_eq/=.
    + rewrite lookup_alter_ne by done. by rewrite (elem_of_remove _ _ _ _ Hi) by congruence.
Qed.

(** [stop_all] leaves no connection open. *)
Lemma stop_list_lookup l h c :
  h_conns (foldr (on_conn stop) h l) !! c =
  (if decide (c ∈ l) then stop else id) <$> h_conns h !! c.
Proof.
  induction l as [|c1 l IH]; cbn [foldr].
  { rewrite decide_False by set_solver. by destruct (h_conns h !! c). }
  unfold on_conn at 1. cbn [h_conns].
  destruct (decide (c = c1)) as [->|Hne].
  - rewrite lookup_alter_eq, IH, (decide_True (P := c1 ∈ c1 :: l)) by set_solver.
    destruct (h_conns h !! c1) as [conn|]; [|done]. simpl. by case_decide.
  - rewrite lookup_alter_ne, IH by done. repeat case_decide; (done || set_solver).
Qed.

(** Closed, or about to be. *)
Definition all_closing (stops : list stop_pc) (h : heap) : Prop :=
  _connections h = ∅
  /\ forall c conn, h_conns h !! c = Some conn -> _socket_open conn = true -> StClose c ∈ stops.
Definition all_closed (h : heap) : Prop :=
  _connections h = ∅ /\ forall c conn, h_conns h !! c = Some conn -> _socket_open conn = false.

Lemma stop_all_closes stops h :
  heap_ok stops h -> heap_ok stops (manager_stop_all h) /\ all_closing stops (manager_stop_all h).
Proof.
  intros [Hok Hm].
  assert (Hl : forall c conn, h_conns (manager_stop_all h) !! c = Some conn ->
    conn_ok conn /\ (_socket_open conn = true -> StClose c ∈ stops)).
  { intros c conn. simpl. rewrite stop_list_lookup. destruct (h_conns h !! c) as [conn0|] eqn:Hc;
      [|done]. intros [= <-]. pose proof (Hok _ _ Hc). case_decide as Hin; [done|].
    split; [done|]. simpl. intros Ho. destruct (decide (StClose c ∈ stops)); [done|].
    destruct Hin. apply elem_of_elements, Hm. eauto. }
  split; [split|split; [done|]].
  - intros c conn Hc. by destruct (Hl c conn Hc).
  - intros c. split; [set_solver|]. intros (Hn & conn & Hc & Ho). destruct Hn. by eapply Hl.
  - intros c conn Hc. by destruct (Hl c conn Hc).
Qed.

(** ** The server *)
Section Invariant.
Context {D : Type} `{Store D}.
Implicit Types s : server D.

(** The connection being accepted has not started. *)
Definition accept_ok (s : server D) : Prop :=
  match sv_accept s with
  | AcInserted c => exists conn, h_conns (sv_heap s) !! c = Some conn
      /\ c_io conn = IoNone /\ _status (_request conn) = COMMAND
  | _ => True
  end.

Record server_ok (s : server D) : Prop := {
  ok_heap : heap_ok (sv_stops s) (sv_heap s);
  ok_stops : forall c, StErase c ∈ sv_stops s \/ StClose c ∈ sv_stops s -> is_Some (h_conns (sv_heap s) !! c);
  ok_fresh : forall c, is_Some (h_conns (sv_heap s) !! c) -> (c < sv_fresh s)%nat;
  ok_accept : accept_ok s;
  ok_acceptor : sv_signal s <> SgWaiting -> _acceptor_open s = false
}.

Lemma ok_configured rt wt mb (d : D) : server_ok (configured rt wt mb d).
Proof.
  split; simpl; try done.
  - split; [done|]. intros c. split; [set_solver|]. by intros (_ & conn & ? & _).
  - intros c. by rewrite !elem_of_nil; intros [].
  - intros c [conn Hc]. done.
Qed.

(** A step that replaces one connection, and possibly asks to stop it. *)
Lemma ok_handled c conn conn' b s :
  server_ok s -> h_conns (sv_heap s) !! c = Some conn ->
  conn_ok conn' -> _socket_open conn' = _socket_open conn ->
  (c_io conn = IoNone -> c_io conn' = IoNone /\ _request conn' = _request conn) ->
  server_ok (handled c conn' b s).
Proof.
  intros [Hh Hst Hf Ha Hs] Hc Hok Ho Hio.
  assert (Hh' : heap_ok (sv_stops s) (Heap (<[c := conn']> (h_conns (sv_heap s))) (_connections (sv_heap s))))
    by (by eapply heap_ok_insert).
  split; simpl.
  - destruct b; [by apply heap_ok_snoc|done].
  - intros c1. destruct (decide (c1 = c)) as [->|Hne]; [rewrite lookup_insert_eq; eauto|].
    rewrite lookup_insert_ne by done. intros Hc1. apply Hst. destruct b; [|done].
    rewrite !elem_of_app, !list_elem_of_singleton in Hc1. naive_solver.
  - intros c1 [conn1 [[<- _]|[_ H2]]%lookup_insert_Some]; eauto.
  - unfold accept_ok in *. simpl. destruct (sv_accept s) as [| |c1|]; try done.
    destruct Ha as (conn1 & H1 & Hi & Hcm). destruct (decide (c1 = c)) as [->|];
      [|rewrite lookup_insert_ne by done; eauto].
    rewrite lookup_insert_eq. rewrite Hc in H1. injection H1 as <-.
    destruct (Hio Hi) as [? Hr]. eexists; split; [done|]. split; [done|]. by rewrite Hr.
  - done.
Qed.
Lemma ok_stop_step i pc s : server_ok s -> sv_stops s !! i = Some pc -> server_ok (stop_step i pc s).
Proof.
  intros [Hh Hst Hf Ha Hs] Hi. pose proof (list_elem_of_lookup_2 _ _ _ Hi) as Hin. destruct pc as [c|c]; (split; simpl).
  - by apply heap_ok_erase.
  - intros c1. rewrite !(list_elem_of_lookup (<[_ := _]> _)).
    intros [(k & [(_ & ? & _)|[_ Hk]]%list_lookup_insert_Some)|(k & [(_ & ? & _)|[_ Hk]]%list_lookup_insert_Some)];
      simplify_eq; apply Hst; eauto using list_elem_of_lookup_2.
  - done.
  - done.
  - done.
  - by apply heap_ok_close.
  - intros c1 Hc1. assert (Hin1 : is_Some (h_conns (sv_heap s) !! c1)).
    { apply Hst. rewrite !delete_take_drop, !elem_of_app in Hc1. 
      rewrite <- (take_drop_middle _ _ _ Hi), !elem_of_app, !elem_of_cons. naive_solver. }
    destruct (decide (c1 = c)) as [->|]; [rewrite lookup_alter_eq|by rewrite lookup_alter_ne].
    destruct Hin1 as [conn ->]. by eexists.
  - intros c1 [conn1 Hc1]. apply Hf. destruct (decide (c1 = c)) as [->|]; [|rewrite lookup_alter_ne in Hc1 by done; by eexists].
    rewrite lookup_alter_eq in Hc1. destruct (h_conns (sv_heap s) !! c); [by eexists|done].
  - unfold accept_ok in *. simpl. destruct (sv_accept s) as [| |c1|]; try done.
    destruct Ha as (conn1 & H1 & Hi1 & Hc1). destruct (decide (c1 = c)) as [->|]; [|rewrite lookup_alter_ne by done; eauto].
    rewrite lookup_alter_eq, H1. by eexists.
  - done.
Qed.

Lemma ok_accept_insert g s : server_ok s -> sv_accept s = AcAccepted -> server_ok (accept_insert g s).
Proof.
  intros [[Hok Hm] Hst Hf Ha Hs] _. set (c := sv_fresh s).
  assert (Hnone : h_conns (sv_heap s) !! c = None).
  { destruct (_ !! c) as [conn0|] eqn:Hc; [|done]. specialize (Hf c). rewrite Hc in Hf.
    assert (Hlt : (c < sv_fresh s)%nat) by eauto. unfold c in Hlt. lia. }
  assert (Hnst : StClose c ∉ sv_stops s).
  { intros Hin. destruct (Hst c) as [conn0 Hc]; [by right|]. congruence. }
  split; simpl.
  - split; simpl.
    + intros c1 conn1 [[<- <-]|[_ Hc]]%lookup_insert_Some; [|eauto]. split; [apply wf_new|done].
    + intros c1. rewrite elem_of_union, elem_of_singleton, Hm.
      destruct (decide (c1 = c)) as [->|Hne].
      * rewrite lookup_insert_eq. split; [by split; [|eexists]|by left].
      * rewrite lookup_insert_ne by done. naive_solver.
  - intros c1 Hc1%Hst. destruct (decide (c1 = c)) as [->|]; [by rewrite lookup_insert_eq|by rewrite lookup_insert_ne].
  - intros c1 [conn1 [[<- _]|[_ Hc]]%lookup_insert_Some]; [lia|]. specialize (Hf c1). 
    fold c. unfold c. destruct (decide (c1 < sv_fresh s)%nat); [lia|]. destruct n. eauto.
  - unfold accept_ok. simpl. rewrite lookup_insert_eq. by eexists.
  - done.
Qed.

Lemma ok_accept_start c s : server_ok s -> sv_accept s = AcInserted c -> server_ok (accept_start c s).
Proof.
  intros [Hh Hst0 Hf Ha Hs] Hac. unfold accept_ok in Ha. rewrite Hac in Ha.
  destruct Ha as (conn & Hc & Hio & Hst).
  assert (Heq : alter start c (h_conns (sv_heap s)) = <[c := start conn]> (h_conns (sv_heap s))).
  { apply map_eq. intros c1. destruct (decide (c1 = c)) as [->|].
    - by rewrite lookup_alter_eq, Hc, lookup_insert_eq.
    - by rewrite lookup_alter_ne, lookup_insert_ne. }
  unfold accept_start, manager_start_connection, on_conn. rewrite Heq. split; simpl; try done.
  - eapply heap_ok_insert; [done..| |apply start_open].
    destruct Hh as [Hok _]. destruct (Hok _ _ Hc) as [Hw _]. apply start_ok; [done|congruence].
  - intros c1 Hc1%Hst0. destruct (decide (c1 = c)) as [->|]; [by rewrite lookup_insert_eq|by rewrite lookup_insert_ne].
  - intros c1 [conn1 [[<- _]|[_ Hc1]]%lookup_insert_Some]; eauto.
Qed.

Lemma ok_stop_all s : server_ok s -> sv_signal s = SgClosed ->
  server_ok (with_signal (_acceptor_open s) SgDone (with_heap (manager_stop_all (sv_heap s)) s)).
Proof.
  intros [Hh Hst Hf Ha Hs] Hsg. split; simpl; [by apply stop_all_closes|..].
  - intros c [conn Hc]%Hst. rewrite stop_list_lookup, Hc. by eexists.
  - intros c [conn Hc]. rewrite stop_list_lookup in Hc. destruct (h_conns (sv_heap s) !! c) eqn:E; eauto.
    done.
  - unfold accept_ok in *. simpl. destruct (sv_accept s) as [| |c|]; try done.
    destruct Ha as (conn & Hc & Hio & Hst1). rewrite stop_list_lookup, Hc. simpl.
    eexists; split; [done|]. by case_decide.
  - intros _. apply Hs. congruence.
Qed.

Lemma set_timer_frame n t c :
  _request (set_timer n t c) = _request c /\ c_io (set_timer n t c) = c_io c
  /\ _socket_open (set_timer n t c) = _socket_open c.
Proof. by destruct n. Qed.
Lemma conn_ok_set_timer n t c : conn_ok c -> conn_ok (set_timer n t c).
Proof. by destruct n. Qed.

Lemma ok_step ev s s' : server_ok s -> sv_step ev s = Some s' -> server_ok s'.
Proof.
  intros Hs. pose proof (ok_heap _ Hs) as [Hok _].
  destruct ev as [ok|g| | | |i|c ec data|c ec|t|c n|c n]; simpl; intros Hst.
  - case_decide; [|done]. injection Hst as <-. unfold accept_begin.
    destruct Hs as [? ? ? ? ?]. repeat case_match; split; done.
  - case_decide; [|done]. injection Hst as <-. by apply ok_accept_insert.
  - destruct (sv_accept s) eqn:E; try done. injection Hst as <-. by apply ok_accept_start.
  - case_decide; [|done]. injection Hst as <-. destruct Hs as [? ? ? ? ?]. by split.
  - case_decide; [|done]. injection Hst as <-. by apply ok_stop_all.
  - destruct (sv_stops s !! i) as [pc|] eqn:Hi; [|done]. injection Hst as <-. by apply ok_stop_step.
  - destruct (h_conns _ !! c) as [conn|] eqn:Hc; [|done]. simpl in Hst.
    destruct (c_io conn) eqn:Hio; try done. case_match; [|done].
    destruct (on_read ec data conn (sv_store s)) as [[d x]|] eqn:Hr; [|done].
    apply on_read_ok in Hr as (c' & b & -> & Hok' & Ho); [|eauto]. injection Hst as <-.
    eapply (ok_handled c conn c' b (with_store d s)); try done; [|congruence].
    destruct Hs as [? ? ? ? ?]. by split.
  - destruct (h_conns _ !! c) as [conn|] eqn:Hc; [|done]. simpl in Hst.
    destruct (c_io conn) eqn:Hio; try done.
    destruct (on_write ec conn) as [c' b] eqn:Hw. injection Hst as <-.
    apply on_write_ok in Hw as [Hok' Ho]; [|eauto].
    eapply ok_handled; try done. congruence.
  - case_match; [|done]. injection Hst as <-. destruct Hs as [? ? ? ? ?]. by split.
  - destruct (h_conns _ !! c) as [conn|] eqn:Hc; [|done]. injection Hst as <-.
    destruct (set_timer_frame n (timer_expire (sv_now s) (get_timer n conn)) conn) as (Hr & Hi & Ho).
    eapply ok_handled; try done; [apply conn_ok_set_timer; eauto|]. by rewrite Hi.
  - destruct (h_conns _ !! c) as [conn|] eqn:Hc; [|done]. simpl in Hst.
    destruct (timer_take _) as [t|]; [|done]. injection Hst as <-.
    destruct (set_timer_frame n t conn) as (Hr & Hi & Ho).
    eapply ok_handled; try done; [apply conn_ok_set_timer; eauto|]. by rewrite Hi.
Qed.

Lemma ok_run evs s s' : server_ok s -> sv_run evs s = Some s' -> server_ok s'.
Proof.
  revert s; induction evs as [|ev evs IH]; simpl; intros s Hs; [by intros [= <-]|].
  destruct (sv_step ev s) as [s1|] eqn:E; [|done]. simpl. apply IH. by eapply ok_step.
Qed.

(** (C15) Invariant of the server.  In every state reached from a configured
    server, by any interleaving of accepts, signals, reads, writes, clock and
    timer events over any store: the connection manager's set is exactly the
    set of connections whose socket is open, but for those that a call of
    [stop] has just taken from the set and is about to close; a connection that is reading
    holds a well-formed unfinished request (so [process] is never called on a
    finished one), and one that is writing sends the response of its finished
    request, which did not ask for silence. *)
Theorem server_invariant rt wt mb (d : D) evs s :
  sv_run evs (configured rt wt mb d) = Some s ->
  (forall c, c ∈ _connections (sv_heap s) <->
     StClose c ∉ sv_stops s /\ exists conn, h_conns (sv_heap s) !! c = Some conn /\ _socket_open conn = true)
  /\ (forall c conn, h_conns (sv_heap s) !! c = Some conn -> conn_ok conn).
Proof. intros Hrun. by destruct (ok_run _ _ _ (ok_configured _ _ _ _) Hrun) as [[? ?] _ _ _ _]. Qed.

(** After [stop_all] with no accept handler between its test and its
    insertion: what is open is about to be closed by a call of [stop] that had
    taken it from the set. *)
Definition shutting (s : server D) : Prop :=
  sv_signal s = SgDone /\ sv_accept s <> AcAccepted /\ all_closing (sv_stops s) (sv_heap s).
(** All is closed. *)
Definition shut (s : server D) : Prop :=
  sv_signal s = SgDone /\ sv_accept s <> AcAccepted /\ all_closed (sv_heap s).

(** The open connections. *)
Definition open_in (s : server D) (c : nat) : Prop :=
  exists conn, h_conns (sv_heap s) !! c = Some conn /\ _socket_open conn = true.

(** After [stop_all] no connection is opened and none enters the set. *)
Lemma closing_step ev s s' :
  server_ok s -> sv_signal s = SgDone -> sv_accept s <> AcAccepted -> _connections (sv_heap s) = ∅ ->
  sv_step ev s = Some s' ->
  sv_signal s' = SgDone /\ sv_accept s' <> AcAccepted /\ _connections (sv_heap s') = ∅
  /\ forall c, open_in s' c -> open_in s c.
Proof.
  intros Hs Hg Ha Hm. pose proof (ok_heap _ Hs) as [Hok _].
  assert (Hac : _acceptor_open s = false) by (apply (ok_acceptor _ Hs); congruence).
  assert (Hrep : forall c conn conn' b s0, sv_signal s0 = SgDone -> sv_accept s0 <> AcAccepted ->
    _connections (sv_heap s0) = ∅ -> h_conns (sv_heap s0) = h_conns (sv_heap s) ->
    h_conns (sv_heap s) !! c = Some conn -> _socket_open conn' = _socket_open conn ->
    let s' := handled c conn' b s0 in
    sv_signal s' = SgDone /\ sv_accept s' <> AcAccepted /\ _connections (sv_heap s') = ∅
    /\ forall c, open_in s' c -> open_in s c).
  { intros c conn conn' b s0 Hg0 Ha0 Hm0 Hh Hc Ho. split_and!; [done..|]. intros c1 (conn1 & H1 & Ho1). simpl in H1.
    rewrite Hh in H1. apply lookup_insert_Some in H1 as [[<- <-]|[_ H1]]; [|by exists conn1].
    exists conn. by rewrite <- Ho. }
  destruct ev as [ok|g| | | |i|c ec data|c ec|t|c n|c n]; simpl; intros Hst.
  - case_decide; [|done]. injection Hst as <-. unfold accept_begin. rewrite Hac. by split_and!.
  - case_decide; [|done]. congruence.
  - destruct (sv_accept s) eqn:E; try done. injection Hst as <-. split_and!; [done..|].
    intros c1 (conn1 & H1 & Ho1). simpl in H1. destruct (decide (c1 = c)) as [->|].
    + rewrite lookup_alter_eq in H1. destruct (h_conns _ !! c) as [conn|] eqn:Hc; [|done].
      injection H1 as <-. rewrite start_open in Ho1. by exists conn.
    + rewrite lookup_alter_ne in H1 by done. by exists conn1.
  - case_decide; [congruence|done].
  - case_decide; [congruence|done].
  - destruct (sv_stops s !! i) as [[c|c]|]; [..|done]; injection Hst as <-; (split_and!; [done|done|simpl; set_solver|]); [done|].
    intros c1 (conn1 & H1 & Ho1). simpl in H1. destruct (decide (c1 = c)) as [->|].
    + rewrite lookup_alter_eq in H1. destruct (h_conns _ !! c); [|done]. by simplify_eq/=.
    + rewrite lookup_alter_ne in H1 by done. by exists conn1.
  - destruct (h_conns _ !! c) as [conn|] eqn:Hc; [|done]. simpl in Hst.
    destruct (c_io conn) eqn:Hio; try done. case_match; [|done].
    destruct (on_read ec data conn (sv_store s)) as [[d x]|] eqn:Hr; [|done].
    apply on_read_ok in Hr as (c' & b & -> & Hok' & Ho); [|eauto]. injection Hst as <-.
    by eapply (Hrep c conn c' b (with_store d s)).
  - destruct (h_conns _ !! c) as [conn|] eqn:Hc; [|done]. simpl in Hst.
    destruct (c_io conn) eqn:Hio; try done.
    destruct (on_write ec conn) as [c' b] eqn:Hw. injection Hst as <-.
    apply on_write_ok in Hw as [Hok' Ho]; [|eauto]. by eapply Hrep.
  - case_match; [|done]. injection Hst as <-. by split_and!.
  - destruct (h_conns _ !! c) as [conn|] eqn:Hc; [|done]. injection Hst as <-.
    eapply Hrep; [done..|]. apply set_timer_frame.
  - destruct (h_conns _ !! c) as [conn|] eqn:Hc; [|done]. simpl in Hst.
    destruct (timer_take _) as [t|]; [|done]. injection Hst as <-.
    eapply Hrep; [done..|]. apply set_timer_frame.
Qed.
Lemma closing_run evs s s' :
  server_ok s -> sv_signal s = SgDone -> sv_accept s <> AcAccepted -> _connections (sv_heap s) = ∅ ->
  sv_run evs s = Some s' ->
  server_ok s' /\ sv_signal s' = SgDone /\ sv_accept s' <> AcAccepted /\ _connections (sv_heap s') = ∅
  /\ forall c, open_in s' c -> open_in s c.
Proof.
  revert s; induction evs as [|ev evs IH]; simpl; intros s Hs Hg Ha Hm; [by intros [= <-]|].
  destruct (sv_step ev s) as [s1|] eqn:E; [|done]. simpl. intros Hr.
  destruct (closing_step ev s s1 Hs Hg Ha Hm E) as (Hg1 & Ha1 & Hm1 & Ho1).
  destruct (IH s1 (ok_step _ _ _ Hs E) Hg1 Ha1 Hm1 Hr) as (? & ? & ? & ? & Ho). split_and!; auto.
Qed.
Lemma shut_step ev s s' : server_ok s -> shut s -> sv_step ev s = Some s' -> shut s'.
Proof.
  intros Hs (Hg & Ha & Hm & Hcl) Hst. destruct (closing_step ev s s' Hs Hg Ha Hm Hst) as (? & ? & ? & Ho).
  split; [done|]. split; [done|]. split; [done|]. intros c conn Hc.
  destruct (_socket_open conn) eqn:E; [|done]. destruct (Ho c) as (conn0 & Hc0 & E0); [by exists conn|].
  by rewrite (Hcl c conn0 Hc0) in E0.
Qed.

(** The calls of [stop] that are left can be finished, and close what they
    have to. *)
Fixpoint stop_steps (l : list stop_pc) : list sv_event :=
  match l with
  | [] => []
  | StErase _ :: l => EvStop 0 :: EvStop 0 :: stop_steps l
  | StClose _ :: l => EvStop 0 :: stop_steps l
  end.
Lemma stops_finish l s :
  sv_stops s = l -> exists s', sv_run (stop_steps l) s = Some s' /\ sv_stops s' = [].
Proof.
  revert s; induction l as [|[c|c] l IH]; intros s Hl; [by exists s|..];
    cbn [stop_steps sv_run sv_step]; rewrite Hl; cbn [lookup list_lookup mbind option_bind].
  - cbn [stop_step manager_stop with_stops sv_stops with_heap]. rewrite Hl. cbn. apply IH. done.
  - apply IH. cbn [stop_step manager_stop with_stops sv_stops]. by rewrite Hl.
Qed.

Lemma sv_run_app evs1 evs2 s : sv_run (evs1 ++ evs2) s = (s ← sv_run evs1 s; sv_run evs2 s).
Proof.
  revert s; induction evs1 as [|ev evs1 IH]; simpl; intros s; [done|].
  destruct (sv_step ev s); simpl; auto.
Qed.

(** (C16) Shutdown.  When the signal handler runs [stop_all] at a moment no
    accept handler is between its test of [is_open] and its insertion, then from
    that moment on and whatever happens next: the manager is empty, no
    connection is opened any more, and one that is still open was, when
    [stop_all] ran, in the hands of a call of [stop] that had taken it from the
    set and not yet closed it, and still is.  Those calls can always be
    finished, and when they are, every connection is closed for good. *)
Theorem shutdown_closes_all rt wt mb (d : D) evs evs' s s' :
  sv_run evs (configured rt wt mb d) = Some s -> sv_accept s <> AcAccepted ->
  sv_run (EvStopAll :: evs') s = Some s' ->
  sv_signal s' = SgDone /\ _connections (sv_heap s') = ∅
  /\ (forall c, open_in s' c -> StClose c ∈ sv_stops s /\ StClose c ∈ sv_stops s')
  /\ exists s'', sv_run (stop_steps (sv_stops s')) s' = Some s''
       /\ forall evs'' s3, sv_run evs'' s'' = Some s3 -> forall c, ~ open_in s3 c.
Proof.
  intros Hrun Hac. pose proof (ok_run _ _ _ (ok_configured _ _ _ _) Hrun) as Hs.
  cbn [sv_run]. destruct (sv_step EvStopAll s) as [s1|] eqn:E; [|done]. simpl. intros Hrun'.
  pose proof (ok_step _ _ _ Hs E) as Hs1.
  assert (Hsh : shutting s1 /\ sv_stops s1 = sv_stops s).
  { simpl in E. case_decide; [|done]. injection E as <-. split; [|done]. split; [done|]. split; [done|].
    by apply stop_all_closes, (ok_heap _ Hs). }
  destruct Hsh as [(Hg1 & Ha1 & Hm1 & Ho1) Hst1].
  destruct (closing_run _ _ _ Hs1 Hg1 Ha1 Hm1 Hrun') as (Hs' & Hg' & Ha' & Hm' & Ho').
  assert (Hin : forall s c, server_ok s -> _connections (sv_heap s) = ∅ -> open_in s c -> StClose c ∈ sv_stops s).
  { intros s0 c Hs0 Hm0 Ho. destruct (decide (StClose c ∈ sv_stops s0)); [done|].
    pose proof (proj2 (proj2 (ok_heap _ Hs0) c) (conj n Ho)) as Hc. rewrite Hm0 in Hc. set_solver. }
  split_and!; [done|done|..].
  - intros c Hc. split; [|by apply Hin]. rewrite <- Hst1. by apply Hin; [..|apply Ho'].
  - destruct (stops_finish (sv_stops s') s' eq_refl) as (s'' & Hr'' & Hst''). exists s''. split; [done|].
    destruct (closing_run _ _ _ Hs' Hg' Ha' Hm' Hr'') as (Hs'' & Hg'' & Ha'' & Hm'' & _).
    intros evs'' s3 Hr3 c Hc. destruct (closing_run _ _ _ Hs'' Hg'' Ha'' Hm'' Hr3) as (_ & _ & _ & _ & Ho3).
    apply Ho3, Hin in Hc; [|done..]. rewrite Hst'' in Hc. set_solver.
Qed.
End Invariant.

(** *** Concrete runs over the map store *)
Definition demo_server : server mstore := configured 0 0 0 (MStore ∅ false).
(** Accept one connection. *)
Definition connect : list sv_event := [EvAccept true; EvInsert NONE; EvStart].
Definition run_from (s : server mstore) (evs : list sv_event) : server mstore :=
  default s (sv_run evs s).

Lemma server_invariant_witness :
  let s := run_from demo_server (connect ++ [EvRead 0 Success (!"get k" ++ crlf)]) in
  0%nat ∈ _connections (sv_heap s) <->
    StClose 0 ∉ sv_stops s /\ exists conn, h_conns (sv_heap s) !! 0%nat = Some conn /\ _socket_open conn = true.
Proof.
  cbv zeta. refine (proj1 (server_invariant 0 0 0 (MStore ∅ false)
    (connect ++ [EvRead 0 Success (!"get k" ++ crlf)]) _ _) 0%nat). vm_compute. reflexivity.
Defined.

(** Two connections; a client of the first one quits, and [stop] has taken it
    from the set when [stop_all] runs. *)
Definition half_stopped : server mstore :=
  run_from demo_server (connect ++ connect ++ [EvRead 0 Success (!"quit" ++ crlf); EvStop 0; EvSignal]).
Definition stop_in_flight : server mstore := run_from half_stopped [EvStopAll; EvAccept false].

Lemma shutdown_closes_all_witness :
  open_in stop_in_flight 0 /\ ~ open_in stop_in_flight 1 /\ sv_stops stop_in_flight = [StClose 0]
  /\ _connections (sv_heap stop_in_flight) = ∅
  /\ exists s'', sv_run [EvStop 0] stop_in_flight = Some s''
       /\ forall evs'' s3, sv_run evs'' s'' = Some s3 -> forall c, ~ open_in s3 c.
Proof.
  destruct (shutdown_closes_all 0 0 0 (MStore ∅ false)
    (connect ++ connect ++ [EvRead 0 Success (!"quit" ++ crlf); EvStop 0; EvSignal])
    [EvAccept false] half_stopped stop_in_flight) as (_ & Hm & Ho & He).
  - vm_compute. reflexivity.
  - vm_compute. discriminate.
  - vm_compute. reflexivity.
  - split; [eexists; split; vm_compute; reflexivity|].
    split; [intros (conn & Hc & Hop); vm_compute in Hc; injection Hc as <-; discriminate|].
    split; [vm_compute; reflexivity|]. split; [exact Hm|exact He].
Defined.

(** Shutdown race.  The proviso of the shutdown theorem is needed: when
    the signal is handled by another thread between the accept handler's test
    and its insertion, the server shuts down completely (acceptor closed,
    [stop_all] done, the accept handler returned for good) with a connection
    that is still open, registered, and answers requests. *)
Theorem shutdown_race :
  exists evs s conn,
    sv_run evs demo_server = Some s /\ sv_signal s = SgDone /\ sv_accept s = AcReturned
    /\ _acceptor_open s = false
    /\ h_conns (sv_heap s) !! 0%nat = Some conn /\ _socket_open conn = true
    /\ 0%nat ∈ _connections (sv_heap s)
    /\ c_sent conn = [ !"PONG" ++ crlf ].
Proof.
  exists [EvAccept true; EvSignal; EvStopAll; EvInsert NONE; EvStart; EvAccept false;
          EvRead 0 Success (!"ping" ++ crlf); EvWrite 0 Success].
  eexists _, _. split; [vm_compute; reflexivity|].
  split_and!; reflexivity.
Qed.

(** ** The limits *)
Section Limits.
Context {D : Type} `{Store D}.

Lemma handled_lookup c conn (b : bool) (s : server D) :
  h_conns (sv_heap (handled c conn b s)) !! c = Some conn
  /\ sv_now (handled c conn b s) = sv_now s
  /\ sv_stops (handled c conn b s) = if b then sv_stops s ++ [StErase c] else sv_stops s.
Proof. simpl. by rewrite lookup_insert_eq. Qed.
(** The last call of [stop], from its beginning to its end. *)
Lemma last_stop c conn l (s : server D) :
  sv_stops s = l ++ [StErase c] -> h_conns (sv_heap s) !! c = Some conn ->
  exists s', sv_run [EvStop (length l); EvStop (length l)] s = Some s'
    /\ h_conns (sv_heap s') !! c = Some (stop conn) /\ c ∉ _connections (sv_heap s').
Proof.
  intros Hst Hc. cbn [sv_run sv_step].
  assert (Hl : forall pc, (l ++ [pc]) !! length l = Some pc) by (intros pc; rewrite lookup_app_r, Nat.sub_diag; done).
  rewrite Hst, Hl. cbn [mbind option_bind stop_step manager_stop with_stops sv_stops with_heap].
  rewrite Hst, insert_app_r_alt, Nat.sub_diag by done. simpl. rewrite Hl. simpl.
  eexists. split; [done|]. simpl. rewrite lookup_alter_eq, Hc. split; [done|set_solver].
Qed.

Definition too_big : bytes := !"CLIENT_ERROR request size exceeded max bytes" ++ crlf.

Lemma on_read_over_limit data c (d : D) :
  over_limit (len data) (_request c) = true -> _no_reply (_request c) = false ->
  exists c', on_read Success data c d = Some (d, Ok (c', false)) /\ c_io c' = IoWrite too_big.
Proof.
  intros Hlim Hnr. unfold on_read. change (_request (with_io IoNone c)) with (_request c).
  unfold process. rewrite Hlim. cbn [run]. unfold finished_request, do_write.
  cbn [_request with_request with_read_timer with_write_timer client_error with_response with_status
       _status _no_reply].
  destruct (0 <? _); cbn; rewrite Hnr; by eexists.
Qed.

(** The limits are shifted.  [do_accept] passes the read timeout, the
    write timeout and the byte limit where the connection expects the byte
    limit, the read timeout and the write timeout.  So on a server configured
    with a read timeout of [rt] milliseconds and nothing else, a new
    connection never waits on a read timer, and the first read of [rt] bytes
    or more is answered with the error for an oversized request. *)
Theorem limits_shifted rt (d : D) g data :
  0 < rt <= int_max -> rt <= len data <= read_buffer_size ->
  exists s s' conn conn',
    sv_run [EvAccept true; EvInsert g; EvStart] (configured rt 0 0 d) = Some s
    /\ sv_step (EvRead 0 Success data) s = Some s'
    /\ h_conns (sv_heap s) !! 0%nat = Some conn /\ t_pending (_read_timer conn) = 0%nat
    /\ h_conns (sv_heap s') !! 0%nat = Some conn' /\ c_io conn' = IoWrite too_big.
Proof.
  intros Hrt Hlen. unfold int_max, read_buffer_size in *.
  assert (Hlim : over_limit (len data) (new_request g true (u64 rt)) = true).
  { unfold over_limit, new_request, ss_tellp. simpl.
    rewrite Z.add_0_r, !u64_id by (unfold size_max; lia). apply andb_true_intro; split; lia. }
  set (conn := start (new_connection g 0 true (u64 rt) (i32 0) (i32 0))).
  destruct (on_read_over_limit data conn d Hlim eq_refl) as (conn' & Hread & Hio).
  eexists _, _, conn, conn'. split; [reflexivity|]. split.
  { cbn [sv_step]. change (h_conns _ !! 0%nat) with (Some conn). cbn [mbind option_bind].
    change (c_io conn) with IoRead. rewrite (proj2 (Z.leb_le (len data) read_buffer_size)) by (unfold read_buffer_size; lia).
    change (sv_store _) with d. rewrite Hread. reflexivity. }
  by repeat split.
Qed.

(** The read timeout limits the connection, not the request.  The timer
    expires [_read_timeout] after the connection was created and is never set
    again: on a connection that old, as soon as a response is written and the
    connection waits for the next request, the timer fires and the connection
    is stopped and forgotten, before the client had any time. *)
Theorem read_timeout_is_lifetime (s : server D) c conn resp :
  h_conns (sv_heap s) !! c = Some conn -> c_io conn = IoWrite resp ->
  0 < _read_timeout conn -> t_expires (_read_timer conn) <= sv_now s ->
  exists s' conn',
    sv_run [EvWrite c Success; EvExpire c ReadTimer; EvTimer c ReadTimer;
            EvStop (length (sv_stops s)); EvStop (length (sv_stops s))] s = Some s'
    /\ h_conns (sv_heap s') !! c = Some conn' /\ _socket_open conn' = false
    /\ c_sent conn' = c_sent conn ++ [resp] /\ c ∉ _connections (sv_heap s').
Proof.
  intros Hc Hio Hrt Hexp.
  change (sv_run _ s) with (s1 ← sv_step (EvWrite c Success) s; s2 ← sv_step (EvExpire c ReadTimer) s1;
    s3 ← sv_step (EvTimer c ReadTimer) s2; sv_run [EvStop (length (sv_stops s)); EvStop (length (sv_stops s))] s3).
  cbn [sv_step mbind option_bind]. rewrite Hc. cbn [mbind option_bind].
  rewrite Hio. unfold on_write. rewrite Hio.
  set (conn1 := restart _).
  assert (Hconn1 : _read_timer conn1 = timer_wait (_read_timer conn) /\ c_sent conn1 = c_sent conn ++ [resp]).
  { unfold conn1, restart, start. simpl. rewrite (proj2 (Z.ltb_lt _ _) Hrt). done. }
  destruct Hconn1 as [Ht1 Hs1]. clearbody conn1. cbn [mbind option_bind].
  destruct (handled_lookup c conn1 false s) as (Hl1 & Hn1 & _). rewrite Hl1, Hn1.
  cbn [mbind option_bind]. set (conn2 := set_timer _ _ conn1). set (s1 := handled c conn1 false s).
  destruct (handled_lookup c conn2 false s1) as (Hl2 & _). rewrite Hl2. cbn [mbind option_bind].
  assert (Htake : exists t, timer_take (get_timer ReadTimer conn2) = Some t).
  { unfold conn2. simpl. rewrite Ht1. unfold timer_expire. cbn [t_expires timer_wait].
    rewrite (proj2 (Z.leb_le _ _) Hexp). cbn [t_pending t_queued timer_wait].
    rewrite Nat.add_succ_r. by eexists. }
  destruct Htake as [t ->]. cbn [mbind option_bind].
  destruct (handled_lookup c (set_timer ReadTimer t conn2) true (handled c conn2 false s1))
    as (Hl3 & _ & Hn3).
  destruct (last_stop c _ (sv_stops s) _ Hn3 Hl3) as (s4 & Hr4 & Hl4 & Hm4).
  exists s4. eexists. split; [exact Hr4|]. split; [exact Hl4|]. split; [done|]. split; [done|done].
Qed.
End Limits.

Lemma limits_shifted_witness :
  exists s s' conn conn',
    sv_run [EvAccept true; EvInsert NONE; EvStart] (configured 5 0 0 (MStore ∅ false)) = Some s
    /\ sv_step (EvRead 0 Success (!"ping" ++ crlf)) s = Some s'
    /\ h_conns (sv_heap s) !! 0%nat = Some conn /\ t_pending (_read_timer conn) = 0%nat
    /\ h_conns (sv_heap s') !! 0%nat = Some conn' /\ c_io conn' = IoWrite too_big.
Proof.
  apply (limits_shifted 5 (MStore ∅ false) NONE (!"ping" ++ crlf)); vm_compute; split; congruence.
Defined.

(** A connection with a read timeout of 1000 ms (the server's write timeout,
    as the limits are shifted), one request answered after 2000 ms. *)
Definition old_server : server mstore :=
  run_from (configured 0 1000 0 (MStore ∅ false))
    (connect ++ [EvRead 0 Success (!"ping" ++ crlf); EvClock 2000]).
Definition old_conn : connection :=
  default (new_connection NONE 0 true 0 0 0) (h_conns (sv_heap old_server) !! 0%nat).

Lemma read_timeout_is_lifetime_witness :
  exists s' conn',
    sv_run [EvWrite 0 Success; EvExpire 0 ReadTimer; EvTimer 0 ReadTimer; EvStop 0; EvStop 0] old_server = Some s'
    /\ h_conns (sv_heap s') !! 0%nat = Some conn' /\ _socket_open conn' = false
    /\ c_sent conn' = [] ++ [ !"PONG" ++ crlf ] /\ 0%nat ∉ _connections (sv_heap s').
Proof.
  refine (read_timeout_is_lifetime old_server 0 old_conn (!"PONG" ++ crlf) _ _ _ _);
    vm_compute; congruence.
Defined.
