(* ===== verification/ServerRun.v ===== *)
(** * The life of the server's threads: [server::run] and [server::stop],
      [src/src/quitsies/tcp/server.cpp]

    [run(n)] calls [io_service::run] on [n] threads and joins them, or calls
    it itself when [n] is at most 1.  [io_service::run] executes completion
    handlers as long as the service is not stopped and some asynchronous
    operation is outstanding.  Here are the threads and the caller around the
    state machine of [Server]; then, that [run] does not return early, that it
    does after a shutdown, and what it waits for. *)
From S2P Require Import Prelude Cxx Effects Store Request RequestFacts MapStore RequestSafety.
From S2P Require Import Connection Server ServerFacts.

Open Scope Z_scope.

(** ** Outstanding operations *)

(** The operation on the socket and the waits on the two timers; a wait that
    was cancelled has only a handler left that does nothing. *)
Definition timer_work (t : deadline_timer) : nat := (t_pending t + t_queued t)%nat.
Definition io_work (c : connection) : nat :=
  (match c_io c with IoNone => 0 | _ => 1 end + timer_work (_read_timer c) + timer_work (_write_timer c))%nat.
Definition conns_work (m : gmap nat connection) : nat := map_fold (fun _ c n => (io_work c + n)%nat) 0%nat m.

Section Run.
Context {D : Type} `{Store D}.
Implicit Types s : server D.

(** The wait for a connection or its handler, and that for a signal. *)
Definition accept_work s : nat := match sv_accept s with AcReturned => 0 | _ => 1 end.
Definition signal_work s : nat := match sv_signal s with SgDone => 0 | _ => 1 end.
Definition work s : nat := (accept_work s + signal_work s + conns_work (h_conns (sv_heap s)))%nat.

(** The handlers that are between two of their steps. *)
Definition mid_handlers s : nat :=
  (match sv_accept s with AcAccepted | AcInserted _ => 1 | _ => 0 end
   + match sv_signal s with SgClosed => 1 | _ => 0 end
   + length (sv_stops s))%nat.

(** ** The threads *)

(** One entry per call of [io_service::run], which says whether it returned;
    how many threads the caller has joined; whether [run] has returned. *)
Record running := Running {
  r_server : server D;
  r_stopped : bool;
  r_workers : list bool;
  r_joined : nat;
  r_returned : bool
}.
(** [server::run] up to its wait: a thread for each [io_service::run], or the
    caller itself. *)
Definition run_begin (n_threads : Z) s : running :=
  Running s false (repeat false (if 1 <? n_threads then Z.to_nat n_threads else 1)) 0 false.
(** [server::stop] *)
Definition server_stop (r : running) : running :=
  if r_stopped r then r else Running (r_server r) true (r_workers r) (r_joined r) (r_returned r).

Definition live_workers (r : running) : nat := length (filter (fun b => b = false) (r_workers r)).

(** The steps: a handler (or a part of it) runs on some thread; time passes;
    the [i]-th call of [io_service::run] returns; the caller's loop of [join]
    makes a turn, and ends. *)
Inductive run_event :=
| RunServer (ev : sv_event)
| RunStop
| RunWorkerReturns (i : nat)
| RunJoin.

(** Events that start a handler; the others continue one, or are time. *)
Definition starts_handler (ev : sv_event) : bool :=
  match ev with EvInsert _ | EvStart | EvStopAll | EvStop _ | EvClock _ | EvExpire _ _ => false | _ => true end.
(** Time needs no thread. *)
Definition is_time (ev : sv_event) : bool :=
  match ev with EvClock _ | EvExpire _ _ => true | _ => false end.

Definition run_step (e : run_event) (r : running) : option running :=
  let s := r_server r in
  match e with
  | RunServer ev =>
      if negb (starts_handler ev && r_stopped r)
         && (is_time ev || negb (starts_handler ev) || bool_decide (mid_handlers s < live_workers r)%nat)
      then s ← sv_step ev s; Some (Running s (r_stopped r) (r_workers r) (r_joined r) (r_returned r))
      else None
  | RunStop => Some (server_stop r)
  | RunWorkerReturns i =>
      if bool_decide (r_workers r !! i = Some false)
         && (r_stopped r || bool_decide (work s = 0%nat))
         && bool_decide (mid_handlers s < live_workers r)%nat
      then Some (Running s (r_stopped r) (<[i := true]> (r_workers r)) (r_joined r) (r_returned r))
      else None
  | RunJoin =>
      if r_returned r then None else
      match r_workers r !! r_joined r with
      | Some true => Some (Running s (r_stopped r) (r_workers r) (S (r_joined r)) false)
      | Some false => None
      | None => Some (Running s (r_stopped r) (r_workers r) (r_joined r) true)
      end
  end.
Fixpoint run_run (evs : list run_event) (r : running) : option running :=
  match evs with
  | [] => Some r
  | e :: evs => r ← run_step e r; run_run evs r
  end.
End Run.
Arguments running D : clear implicits.

(** ** Counting *)
Lemma conns_work_new m c conn : m !! c = None -> conns_work (<[c := conn]> m) = (io_work conn + conns_work m)%nat.
Proof. intros Hc. unfold conns_work. rewrite map_fold_insert_L; [done|lia|done]. Qed.
Lemma conns_work_insert m c conn conn' :
  m !! c = Some conn -> (conns_work (<[c := conn']> m) + io_work conn = conns_work m + io_work conn')%nat.
Proof.
  intros Hc. rewrite <- (insert_delete_id m c conn Hc) at 2. rewrite <- insert_delete_eq.
  rewrite !conns_work_new by apply lookup_delete_eq. lia.
Qed.
Lemma conns_work_alter f m c :
  (forall conn, io_work (f conn) = io_work conn) -> conns_work (alter f c m) = conns_work m.
Proof.
  intros Hf. destruct (m !! c) as [conn|] eqn:Hc; [|by rewrite alter_id by congruence].
  assert (Ha : alter f c m = <[c := f conn]> m).
  { apply map_eq. intros c'. destruct (decide (c' = c)) as [->|].
    - by rewrite lookup_alter_eq, lookup_insert_eq, Hc.
    - by rewrite lookup_alter_ne, lookup_insert_ne. }
  rewrite Ha. pose proof (conns_work_insert m c conn (f conn) Hc). rewrite Hf in *. lia.
Qed.
Lemma conns_work_at m c conn : m !! c = Some conn -> (io_work conn <= conns_work m)%nat.
Proof. intros Hc. rewrite <- (insert_delete_id m c conn Hc), conns_work_new by apply lookup_delete_eq. lia. Qed.
Lemma stop_all_work h : conns_work (h_conns (manager_stop_all h)) = conns_work (h_conns h).
Proof.
  unfold manager_stop_all. simpl. induction (elements (_connections h)) as [|c l IH]; [done|].
  cbn [foldr]. unfold on_conn at 1. simpl. by rewrite conns_work_alter.
Qed.

Section Facts.
Context {D : Type} `{Store D}.
Implicit Types s : server D.

(** A handler returns: the work of its connection is replaced. *)
Lemma handled_work c conn conn' b s :
  h_conns (sv_heap s) !! c = Some conn ->
  (conns_work (h_conns (sv_heap (handled c conn' b s))) + io_work conn
   = conns_work (h_conns (sv_heap s)) + io_work conn')%nat.
Proof.
  intros Hc. exact (conns_work_insert _ c conn conn' Hc).
Qed.
Lemma timer_expire_work now t : timer_work (timer_expire now t) = timer_work t.
Proof. unfold timer_expire, timer_work. destruct (t_expires t <=? now); cbn [t_pending t_queued]; lia. Qed.
Lemma set_timer_work n t c :
  (io_work (set_timer n t c) + timer_work (get_timer n c) = io_work c + timer_work t)%nat.
Proof. destruct n; unfold io_work; simpl; lia. Qed.
Lemma timer_take_work t t' : timer_take t = Some t' -> (S (timer_work t') = timer_work t)%nat.
Proof. unfold timer_take, timer_work. destruct (t_queued t) eqn:E; [done|]. intros [= <-]. simpl. lia. Qed.
Lemma start_work c : c_io c = IoNone -> (io_work (start c) <= io_work c + 2)%nat.
Proof.
  intros Hio. unfold start. destruct (0 <? _read_timeout (do_read c)); unfold io_work, timer_work; simpl; rewrite Hio; lia.
Qed.

(** With nothing outstanding, nothing but time happens. *)
Lemma quiet_step ev s s' : work s = 0%nat -> sv_step ev s = Some s' -> work s' = 0%nat.
Proof.
  unfold work, accept_work, signal_work. intros Hw.
  destruct (sv_accept s) eqn:Ha; try lia. destruct (sv_signal s) eqn:Hg; try lia.
  assert (Hc : forall c conn, h_conns (sv_heap s) !! c = Some conn -> io_work conn = 0%nat).
  { intros c conn Hc%conns_work_at. lia. }
  destruct ev as [ok|g| | | |i|c ec data|c ec|t|c n|c n]; cbn [sv_step]; rewrite ?Ha, ?Hg; try (by repeat case_decide).
  - destruct (sv_stops s !! i) as [[c|c]|]; [..|done]; intros [= <-]; simpl; rewrite Ha, Hg, ?conns_work_alter by done; lia.
  - destruct (_ !! c) as [conn|] eqn:E; [|done]. simpl. specialize (Hc _ _ E). unfold io_work in Hc.
    by destruct (c_io conn).
  - destruct (_ !! c) as [conn|] eqn:E; [|done]. simpl. specialize (Hc _ _ E). unfold io_work in Hc.
    by destruct (c_io conn).
  - case_match; intros [= <-]. simpl. rewrite Ha, Hg. lia.
  - destruct (_ !! c) as [conn|] eqn:E; [|done]. simpl. intros [= <-].
    pose proof (handled_work c conn (set_timer n (timer_expire (sv_now s) (get_timer n conn)) conn) false s E) as Hh.
    pose proof (set_timer_work n (timer_expire (sv_now s) (get_timer n conn)) conn) as Ht.
    rewrite timer_expire_work in Ht. specialize (Hc _ _ E). simpl in *. rewrite Ha, Hg. lia.
  - destruct (_ !! c) as [conn|] eqn:E; [|done]. simpl. specialize (Hc _ _ E).
    destruct (timer_take (get_timer n conn)) as [t|] eqn:Et; [|done]. apply timer_take_work in Et.
    destruct n; unfold io_work in Hc; simpl in *; lia.
Qed.

(** ** After a shutdown *)

(** The completions of operations on closed sockets: they fail. *)
Definition failing (ev : sv_event) : bool :=
  match ev with
  | EvRead _ Success _ | EvWrite _ Success => false
  | _ => true
  end.
(** What is left to complete: starting the last connection may add two
    operations, and the handler of an operation may call [stop], which takes
    two steps. *)
Definition stop_work (l : list stop_pc) : nat :=
  sum_list_with (fun pc => match pc with StErase _ => 2 | StClose _ => 1 end)%nat l.
Definition drain s : nat :=
  (match sv_accept s with AcReturned => 0 | AcInserted _ => 8 | _ => 1 end
   + 3 * conns_work (h_conns (sv_heap s)) + stop_work (sv_stops s))%nat.

Lemma stop_work_app l l' : stop_work (l ++ l') = (stop_work l + stop_work l')%nat.
Proof. apply sum_list_with_app. Qed.
Lemma stop_step_drains i pc s :
  sv_stops s !! i = Some pc -> (S (drain (stop_step i pc s)) <= drain s)%nat.
Proof.
  intros Hi. unfold drain. assert (Hw : forall pc', stop_work (<[i := pc']> (sv_stops s)) = (stop_work (take i (sv_stops s)) + (stop_work [pc'] + stop_work (drop (S i) (sv_stops s))))%nat).
  { intros pc'. rewrite insert_take_drop by (by eapply lookup_lt_Some). rewrite stop_work_app. unfold stop_work. simpl. lia. }
  pose proof (Hw pc) as Hpc. rewrite list_insert_id in Hpc by done.
  destruct pc as [c|c]; cbn [stop_step manager_stop with_stops sv_stops sv_accept with_heap sv_heap h_conns on_conn].
  - rewrite (Hw (StClose c)), Hpc. simpl. lia.
  - rewrite conns_work_alter by done. rewrite delete_take_drop, stop_work_app, Hpc. simpl. lia.
Qed.

Lemma drain_handled c conn conn' b s :
  h_conns (sv_heap s) !! c = Some conn -> (S (io_work conn') <= io_work conn)%nat ->
  (S (drain (handled c conn' b s)) <= drain s)%nat.
Proof.
  intros Hc Hw. pose proof (handled_work c conn conn' b s Hc). unfold drain in *. simpl in *.
  destruct b; rewrite ?stop_work_app; cbn; lia.
Qed.
Lemma io_done c : c_io c <> IoNone -> (S (io_work (with_io IoNone c)) <= io_work c)%nat.
Proof. unfold io_work. simpl. destruct (c_io c); [done|lia..]. Qed.

Lemma shut_drains ev s s' :
  server_ok s -> shut s -> failing ev = true -> sv_step ev s = Some s' ->
  (drain s' + (if is_time ev then 0 else 1) <= drain s)%nat.
Proof.
  intros Hok (Hg & Ha & _ & _) Hf.
  assert (Hac : _acceptor_open s = false) by (apply (ok_acceptor _ Hok); congruence).
  destruct ev as [ok|g| | | |i|c ec data|c ec|t|c n|c n]; cbn [sv_step is_time].
  - case_decide as Hw; [|done]. intros [= <-]. unfold accept_begin. rewrite Hac. unfold drain. simpl. rewrite Hw. lia.
  - case_decide; [done|done].
  - destruct (sv_accept s) as [| |c|] eqn:Hw; try done. intros [= <-]. unfold drain. rewrite Hw. simpl.
    pose proof (ok_accept _ Hok) as Hacc. unfold accept_ok in Hacc. rewrite Hw in Hacc.
    destruct Hacc as (conn & Hc & Hio & _). pose proof (start_work conn Hio).
    assert (Heq : alter start c (h_conns (sv_heap s)) = <[c := start conn]> (h_conns (sv_heap s))).
    { apply map_eq. intros c1. destruct (decide (c1 = c)) as [->|].
      - by rewrite lookup_alter_eq, Hc, lookup_insert_eq.
      - by rewrite lookup_alter_ne, lookup_insert_ne. }
    rewrite Heq. pose proof (conns_work_insert _ c conn (start conn) Hc). lia.
  - case_decide; [congruence|done].
  - case_decide; [congruence|done].
  - destruct (sv_stops s !! i) as [pc|] eqn:Hi; [|done]. intros [= <-]. rewrite Nat.add_1_r. by apply stop_step_drains.
  - destruct (h_conns (sv_heap s) !! c) as [conn|] eqn:Hc; [|done]. simpl.
    destruct (c_io conn) eqn:Hio; try done. case_match; [|done].
    assert (Hd : (S (io_work (with_io IoNone conn)) <= io_work conn)%nat) by (apply io_done; by rewrite Hio).
    destruct ec; [done|..]; intros [= <-]; rewrite Nat.add_1_r;
      exact (drain_handled c conn _ _ (with_store (sv_store s) s) Hc Hd).
  - destruct (h_conns (sv_heap s) !! c) as [conn|] eqn:Hc; [|done]. simpl.
    destruct (c_io conn) eqn:Hio; try done.
    assert (Hd : (S (io_work (with_io IoNone conn)) <= io_work conn)%nat) by (apply io_done; by rewrite Hio).
    destruct ec; [done|..]; intros [= <-]; rewrite Nat.add_1_r; exact (drain_handled c conn _ _ s Hc Hd).
  - case_match; intros [= <-]. unfold drain. simpl. lia.
  - destruct (h_conns (sv_heap s) !! c) as [conn|] eqn:Hc; [|done]. simpl. intros [= <-].
    pose proof (handled_work c conn (set_timer n (timer_expire (sv_now s) (get_timer n conn)) conn) false s Hc) as Hh.
    pose proof (set_timer_work n (timer_expire (sv_now s) (get_timer n conn)) conn) as Ht.
    rewrite timer_expire_work in Ht. unfold drain. simpl in *. lia.
  - destruct (h_conns (sv_heap s) !! c) as [conn|] eqn:Hc; [|done]. simpl.
    destruct (timer_take (get_timer n conn)) as [t|] eqn:Et; [|done]. simpl. intros [= <-].
    apply timer_take_work in Et. pose proof (set_timer_work n t conn). rewrite Nat.add_1_r.
    apply (drain_handled c conn); [done|]. lia.
Qed.
Lemma shut_run_drains evs s s' :
  server_ok s -> shut s -> forallb failing evs = true -> sv_run evs s = Some s' ->
  (drain s' + length (filter (fun ev => is_time ev = false) evs) <= drain s)%nat.
Proof.
  revert s; induction evs as [|ev evs IH]; intros s Hok Hsh; cbn [sv_run forallb].
  { intros _ [= <-]. simpl. lia. }
  intros [Hf Hfs]%andb_prop. destruct (sv_step ev s) as [s1|] eqn:E; [|done]. simpl. intros Hr.
  pose proof (shut_drains ev s s1 Hok Hsh Hf E) as Hd.
  specialize (IH s1 (ok_step ev s s1 Hok E) (shut_step ev s s1 Hok Hsh E) Hfs Hr).
  rewrite filter_cons. destruct (is_time ev); case_decide; simpl in *; (done || lia).
Qed.

End Facts.

(** ** The threads *)
Section Pool.
Context {D : Type} `{Store D}.
Implicit Types (s : server D) (r : running D).

Lemma live_insert (l : list bool) i :
  l !! i = Some false ->
  (S (length (filter (fun b => b = false) (<[i := true]> l))) = length (filter (fun b => b = false) l))%nat.
Proof.
  revert i; induction l as [|b l IH]; intros [|i] Hi; simpl in *; [done..| |].
  - injection Hi as ->. rewrite !filter_cons. by rewrite decide_False, decide_True by done.
  - rewrite !filter_cons. specialize (IH i Hi). case_decide; simpl; lia.
Qed.

Record pool_ok r : Prop := {
  p_server : server_ok (r_server r);
  p_workers : r_workers r <> [];
  p_joined : forall i, (i < r_joined r)%nat -> r_workers r !! i = Some true;
  p_returned : r_returned r = true -> r_joined r = length (r_workers r);
  p_quiet : r_stopped r = false -> true ∈ r_workers r -> work (r_server r) = 0%nat;
  p_mid : (mid_handlers (r_server r) <= live_workers r)%nat
}.

Lemma mid_step ev s s' :
  sv_step ev s = Some s' -> (mid_handlers s' <= mid_handlers s + (if starts_handler ev then 1 else 0))%nat.
Proof.
  assert (Hh : forall c conn b s, (mid_handlers (handled c conn b s) <= mid_handlers s + 1)%nat).
  { intros c conn b s0. unfold mid_handlers. simpl. destruct b; rewrite ?length_app; simpl; lia. }
  destruct ev as [ok|g| | | |i|c ec data|c ec|t|c n|c n]; cbn [sv_step starts_handler]; intros Hs;
    repeat case_decide; try done.
  - injection Hs as <-. unfold accept_begin, mid_handlers. destruct (_acceptor_open s), ok; simpl; lia.
  - injection Hs as <-. unfold mid_handlers. simpl. rewrite H0. lia.
  - unfold mid_handlers. destruct (sv_accept s) eqn:E; try done. injection Hs as <-. simpl. lia.
  - injection Hs as <-. unfold mid_handlers. simpl. rewrite H0. lia.
  - injection Hs as <-. unfold mid_handlers. simpl. rewrite H0. lia.
  - destruct (sv_stops s !! i) as [[c|c]|] eqn:Hi; [..|done]; injection Hs as <-; unfold mid_handlers; simpl;
      [rewrite length_insert; lia|]. pose proof (length_delete _ _ (ex_intro _ _ Hi)). lia.
  - destruct (h_conns _ !! c); [|done]. simpl in Hs. destruct (c_io _); try done. case_match; [|done].
    destruct (on_read _ _ _ _) as [[d [[conn b]|e]]|]; try done. injection Hs as <-. apply (Hh _ _ _ (with_store d s)).
  - destruct (h_conns _ !! c); [|done]. simpl in Hs. destruct (c_io _); try done.
    destruct (on_write _ _) as [conn b]. injection Hs as <-. apply Hh.
  - case_match; [|done]. injection Hs as <-. unfold mid_handlers. simpl. lia.
  - destruct (h_conns _ !! c); [|done]. injection Hs as <-. unfold mid_handlers. simpl. lia.
  - destruct (h_conns _ !! c); [|done]. simpl in Hs. destruct (timer_take _); [|done]. injection Hs as <-. apply Hh.
Qed.
Lemma pool_begin n s : server_ok s -> sv_accept s = AcWaiting -> sv_signal s = SgWaiting -> sv_stops s = [] -> pool_ok (run_begin n s).
Proof.
  intros Hs Ha Hg Hst. unfold run_begin. set (k := if 1 <? n then Z.to_nat n else 1%nat).
  assert (Hk : (0 < k)%nat) by (unfold k; destruct (Z.ltb_spec 1 n); lia). destruct k as [|k]; [lia|].
  split; simpl; try done; [intros; lia| |unfold mid_handlers; simpl; rewrite Ha, Hg, Hst; simpl; lia].
  intros _ Hin. change (true ∈ repeat false (S k)) in Hin. apply list_elem_of_In, repeat_spec in Hin. done.
Qed.
Lemma pool_step e r r' : pool_ok r -> run_step e r = Some r' -> pool_ok r'.
Proof.
  intros [Hs Hw Hj Hr Hq Hm]. destruct e as [ev| |i|]; cbn [run_step].
  - case_match eqn:E; [|done]. bool_to_prop. destruct (sv_step ev (r_server r)) as [s'|] eqn:Es; [|done].
    intros [= <-]. split; simpl; [by eapply ok_step|done|done|done|intros; eapply quiet_step; eauto|].
    pose proof (mid_step ev _ _ Es). unfold live_workers in *. simpl.
    destruct (starts_handler ev) eqn:Est; [|lia].
    destruct (is_time ev) eqn:Et; [by destruct ev|]. cbn [negb orb] in *. bool_to_prop. lia.
  - intros [= <-]. unfold server_stop. destruct (r_stopped r) eqn:E; [|split; simpl; done].
    split; [done..|by rewrite E|done].
  - case_match eqn:E; [|done]. bool_to_prop. intros [= <-]. 
    match goal with Hl : r_workers r !! i = Some false |- _ => pose proof (live_insert _ _ Hl) as Hlive; rename Hl into Hi end.
    split; simpl; try done.
    + intros Hn. apply (f_equal length) in Hn. rewrite length_insert in Hn. by destruct (r_workers r).
    + intros j Hlt. destruct (decide (j = i)) as [->|]; [rewrite (Hj i Hlt) in Hi; done|].
      rewrite list_lookup_insert_ne by done. auto.
    + rewrite length_insert. auto.
    + intros Hst _. rewrite Hst in *. cbn [orb] in *. by bool_to_prop.
    + unfold live_workers in *. simpl. lia.
  - destruct (r_returned r) eqn:Er; [done|]. destruct (r_workers r !! r_joined r) as [[]|] eqn:E; [|done|]; intros [= <-].
    + split; simpl; try done. intros j Hlt. destruct (decide (j = r_joined r)) as [->|]; [done|]. apply Hj. lia.
    + split; simpl; try done. intros _. apply lookup_ge_None in E.
      destruct (decide (r_joined r = length (r_workers r))); [done|]. 
      assert (Hx : (length (r_workers r) < r_joined r)%nat) by lia. apply Hj, lookup_lt_Some in Hx. lia.
Qed.
Lemma pool_run evs r r' : pool_ok r -> run_run evs r = Some r' -> pool_ok r'.
Proof.
  revert r; induction evs as [|e evs IH]; intros r Hok; cbn [run_run]; [by intros [= <-]|].
  destruct (run_step e r) as [r1|] eqn:E; [|done]. simpl. apply IH. by eapply pool_step.
Qed.
Lemma pool_configured n rt wt mb (d : D) : pool_ok (run_begin n (configured rt wt mb d)).
Proof. apply pool_begin; [apply ok_configured|done..]. Qed.

(** [run] does not return early.  In every state of the threads around a
    configured server in which [run] has returned although nobody called
    [stop]: all threads have returned, the acceptor is closed and the signal
    handled, and no connection has an operation or a wait outstanding. *)
Theorem run_returns_late n rt wt mb (d : D) evs r :
  run_run evs (run_begin n (configured rt wt mb d)) = Some r -> r_returned r = true -> r_stopped r = false ->
  Forall (fun b => b = true) (r_workers r)
  /\ _acceptor_open (r_server r) = false /\ sv_signal (r_server r) = SgDone
  /\ forall c conn, h_conns (sv_heap (r_server r)) !! c = Some conn ->
       c_io conn = IoNone /\ timer_work (_read_timer conn) = 0%nat /\ timer_work (_write_timer conn) = 0%nat.
Proof.
  intros Hrun Hret Hst. destruct (pool_run _ _ _ (pool_configured n rt wt mb d) Hrun) as [Hs Hw Hj Hr Hq _].
  specialize (Hr Hret). assert (Hall : Forall (fun b => b = true) (r_workers r)).
  { apply Forall_lookup. intros i b Hi. pose proof (lookup_lt_Some _ _ _ Hi). rewrite Hj in Hi by lia. by simplify_eq. }
  assert (Hwork : work (r_server r) = 0%nat).
  { apply Hq; [done|]. destruct (r_workers r) as [|b l]; [done|]. apply Forall_cons in Hall as [-> _]. by left. }
  unfold work, accept_work, signal_work in Hwork. destruct (sv_signal (r_server r)) eqn:Hg; try lia.
  split; [done|]. split; [apply (ok_acceptor _ Hs); congruence|]. split; [done|].
  intros c conn Hc. pose proof (conns_work_at _ _ _ Hc) as Hle. unfold io_work in Hle.
  destruct (c_io conn); (lia || (split; [done|lia])).
Qed.

(** ** [run] after a shutdown *)






End Pool.


(** *** Concrete runs *)
Definition pool_from (s : server mstore) (n : Z) (evs : list run_event) : running mstore :=
  default (run_begin n s) (run_run evs (run_begin n s)).
(** The connection's timers get the limit of the write timeout. *)
Definition timed_server : server mstore := configured 0 1000 0 (MStore ∅ false).
Definition shutdown : list run_event :=
  RunServer <$> (connect ++ [EvSignal; EvStopAll; EvAccept false; EvRead 0 Aborted []]).


Lemma run_returns_late_witness :
  let r := pool_from demo_server 1
    (shutdown ++ [RunWorkerReturns 0; RunJoin; RunJoin]) in
  _acceptor_open (r_server r) = false /\ sv_signal (r_server r) = SgDone.
Proof.
  cbv zeta. destruct (run_returns_late 1 0 0 0 (MStore ∅ false) (shutdown ++ [RunWorkerReturns 0; RunJoin; RunJoin])
    (pool_from demo_server 1 (shutdown ++ [RunWorkerReturns 0; RunJoin; RunJoin]))) as (_ & Ha & Hg & _);
    [vm_compute; reflexivity..|]. split; [exact Ha|exact Hg].
Defined.

(** The waits of a connection's timers are not cancelled when it is stopped:
    after a shutdown [run] returns when they expire, no earlier. *)
Example shutdown_waits_for_timers :
  let r := pool_from timed_server 1 shutdown in
  run_step (RunWorkerReturns 0) r = None
  /\ run_run [RunServer (EvClock 999); RunServer (EvExpire 0 ReadTimer); RunWorkerReturns 0] r = None
  /\ match run_run [RunServer (EvClock 1000); RunServer (EvExpire 0 ReadTimer); RunServer (EvTimer 0 ReadTimer);
                    RunServer (EvStop 0); RunServer (EvStop 0);
                    RunWorkerReturns 0; RunJoin; RunJoin] r with
     | Some r => r_returned r = true
     | None => False
     end.
Proof. by vm_compute. Qed.

(** [stop] makes [run] return; it closes neither the acceptor nor the open
    connections. *)
Example stop_leaves_connections :
  let r := pool_from demo_server 2
    ((RunServer <$> connect) ++ [RunStop; RunWorkerReturns 1; RunWorkerReturns 0; RunJoin; RunJoin; RunJoin]) in
  r_returned r = true /\ _acceptor_open (r_server r) = true
  /\ _socket_open <$> (h_conns (sv_heap (r_server r)) !! 0%nat) = Some true.
Proof. by vm_compute. Qed.
