(* ===== verification/OptionHandler.v ===== *)
(** * Command line parsing, [src/src/OptionHandler/option_handler.h]

    [Handler] collects, for every declared option, the arguments the command
    line gives it.  Iterators into the input are the suffix they point to. *)
From S2P Require Import Prelude Cxx StdMap.

Open Scope Z_scope.

(** ** [std::string::at] and [substr] *)
Definition at_message (n : nat) (s : bytes) : bytes :=
  !"basic_string::at: __n (which is " ++ dec (Z.of_nat n)
    ++ !") >= this->size() (which is " ++ dec (len s) ++ !")".
Definition str_at (s : bytes) (n : nat) : exc ascii :=
  match s !! n with Some c => Ok c | None => Thrown (out_of_range (at_message n s)) end.
Definition substr_message (n : nat) (s : bytes) : bytes :=
  !"basic_string::substr: __pos (which is " ++ dec (Z.of_nat n)
    ++ !") > this->size() (which is " ++ dec (len s) ++ !")".
Definition substr (s : bytes) (n : nat) : exc bytes :=
  if (length s <? n)%nat then Thrown (out_of_range (substr_message n s)) else Ok (drop n s).

Definition dash : ascii := "-"%char.

(** ** [class Handler] *)
Inductive ArgumentType := NONE | REQUIRED | OPTIONAL.
#[export] Instance ArgumentType_eq_dec : EqDecision ArgumentType.
Proof. solve_decision. Defined.

(** [struct Option] *)
Record Option := MkOption {
  short_name : ascii; long_name : bytes; type : ArgumentType; multiple : bool
}.

Record Handler := MkHandler {
  declared_options : list Option;
  input : list bytes;
  parsed_input : list (bytes * list bytes)
}.

(** The constructor takes the arguments after the program name. *)
Definition new_handler (argv : list bytes) : Handler := MkHandler [] argv [].

Definition is_short (s : bytes) : exc bool :=
  let! c0 := str_at s 0 in
  if decide (c0 = dash) then
    let! c1 := str_at s 1 in Ok (bool_decide (c1 <> dash))
  else Ok false.
Definition is_long (s : bytes) : exc bool :=
  let! c0 := str_at s 0 in
  if decide (c0 = dash) then
    let! c1 := str_at s 1 in Ok (bool_decide (c1 = dash))
  else Ok false.
(** [is_long(s) || is_short(s)] *)
Definition is_option (s : bytes) : exc bool :=
  let! l := is_long s in if l then Ok true else is_short s.

Definition no_argument_for_required (name : bytes) : exn :=
  invalid_argument (!"REQUIRED option '" ++ name ++ !"' without argument").
Definition argument_for_none (name : bytes) : exn :=
  invalid_argument (!"NONE option '" ++ name ++ !"' with argument").

Section Update.
(** What assigning to the first element of an empty vector leaves: undefined
    in C++, unconstrained here.  It takes two declarations of the same long
    name, one of them without an argument. *)
Variable ub_front : bytes -> exc (list bytes).
Abbreviation parsed := (list (bytes * list bytes)) (only parsing).

(** The test of the loop in [update]. *)
Definition designates (o : Option) (s : bytes) : exc bool :=
  let! opt := is_option s in
  if opt then
    let! c1 := str_at s 1 in
    if decide (c1 = short_name o) then Ok true
    else let! rest := substr s 2 in Ok (bool_decide (rest = long_name o))
  else Ok false.

Definition update_none (o : Option) (next : list bytes) (p : parsed) : exc parsed :=
  let! given := match next with
                | [] => Ok false
                | s :: _ => exc_map negb (is_option s)
                end in
  if given then Thrown (argument_for_none (long_name o))
  else Ok match smap_find (long_name o) p with
          | None => smap_set (long_name o) [] p
          | Some _ => p
          end.

(** The body of the [while] of [update_optional]. *)
Definition add_argument (o : Option) (s : bytes) (p : parsed) : exc parsed :=
  match smap_find (long_name o) p with
  | None => Ok (smap_set (long_name o) [s] p)
  | Some v =>
      if multiple o then Ok (smap_set (long_name o) (v ++ [s]) p)
      else
        let! v := match v with _ :: v => Ok (s :: v) | [] => ub_front s end in
        Ok (smap_set (long_name o) v p)
  end.
Fixpoint take_arguments (o : Option) (str : list bytes) (p : parsed) : exc parsed :=
  match str with
  | [] => Ok p
  | s :: str =>
      let! opt := is_option s in
      if opt then Ok p else let! p := add_argument o s p in take_arguments o str p
  end.
(** [if (str+1 != input.end()) str++;] then the loop. *)
Definition update_optional (o : Option) (s : bytes) (next : list bytes) (p : parsed) : exc parsed :=
  take_arguments o (match next with [] => [s] | _ => next end) p.

Definition update_required (o : Option) (s : bytes) (next : list bytes) (p : parsed) : exc parsed :=
  let! missing := match next with [] => Ok true | a :: _ => is_option a end in
  if missing then Thrown (no_argument_for_required (long_name o)) else update_optional o s next p.

Fixpoint update_loop (o : Option) (str : list bytes) (p : parsed) : exc parsed :=
  match str with
  | [] => Ok p
  | s :: next =>
      let! here := designates o s in
      let! p := (if here then
                   match type o with
                   | NONE => update_none o next p
                   | REQUIRED => update_required o s next p
                   | OPTIONAL => update_optional o s next p
                   end
                 else Ok p) in
      update_loop o next p
  end.

Definition update (o : Option) (h : Handler) : exc Handler :=
  let! p := update_loop o (input h) (parsed_input h) in
  Ok (MkHandler (declared_options h) (input h) p).

Definition add_option (short : ascii) (long : bytes) (ty : ArgumentType) (mult : bool)
    (h : Handler) : exc Handler :=
  let o := MkOption short long ty mult in
  update o (MkHandler (declared_options h ++ [o]) (input h) (parsed_input h)).
End Update.

Definition get_option (name : bytes) (h : Handler) : bool :=
  match smap_find name (parsed_input h) with
  | Some _ => negb (bool_decide (parsed_input h = []))
  | None => false
  end.
Definition get_argument (name : bytes) (h : Handler) : bytes :=
  match smap_find name (parsed_input h) with
  | Some (v :: _) => v
  | _ => []
  end.
Definition get_arguments (name : bytes) (h : Handler) : list bytes :=
  match smap_find name (parsed_input h) with Some v => v | None => [] end.
