(* ===== verification/Options.v ===== *)
(** * The options of the program, [src/src/quitsies/options.hpp] and
      [options.cpp]

    An option writes through a pointer to a variable of its owner; the
    pointer is a getter and a setter on a settings type [C].
    [parse_arg_options] gives back the settings, its boolean result and what
    it printed. *)
From S2P Require Import Prelude Cxx StdMap OptionHandler.

Open Scope Z_scope.

Section Options.
Context {C : Type}.
Variable ub_front : bytes -> exc (list bytes).

Record pointer (T : Type) := Pointer { load : C -> T; store : T -> C -> C }.
Arguments load {T}. Arguments store {T}.

(** [class bool_option], [int_option], [str_option] *)
Inductive option_ptr :=
| bool_option (short_name : ascii) (name description : bytes) (value : pointer bool)
| int_option (short_name : ascii) (name description : bytes) (value : pointer Z)
| str_option (short_name : ascii) (name description : bytes) (value : pointer bytes).

Definition opt_name (o : option_ptr) : bytes :=
  match o with bool_option _ n _ _ | int_option _ n _ _ | str_option _ n _ _ => n end.
Definition opt_short_name (o : option_ptr) : ascii :=
  match o with bool_option c _ _ _ | int_option c _ _ _ | str_option c _ _ _ => c end.
Definition opt_description (o : option_ptr) : bytes :=
  match o with bool_option _ _ d _ | int_option _ _ d _ | str_option _ _ d _ => d end.
Definition default_value (o : option_ptr) (c : C) : bytes :=
  match o with
  | bool_option _ _ _ _ => []
  | int_option _ _ _ v => dec (load v c)
  | str_option _ _ _ v => load v c
  end.

Definition opt_type (o : option_ptr) : ArgumentType :=
  match o with bool_option _ _ _ _ => NONE | _ => REQUIRED end.
Definition register_option (o : option_ptr) (h : Handler) : exc Handler :=
  add_option ub_front (opt_short_name o) (opt_name o) (opt_type o) false h.

Definition read_option (h : Handler) (c : C) (o : option_ptr) : exc C :=
  match o with
  | bool_option _ n _ v => Ok (if get_option n h then store v true c else c)
  | int_option _ n _ v =>
      if get_option n h then let! z := stoll (get_argument n h) in Ok (store v z c) else Ok c
  | str_option _ n _ v => Ok (if get_option n h then store v (get_argument n h) c else c)
  end.

(** [option_list]: named sections. *)
Definition option_section : Type := bytes * list option_ptr.
Definition all_options (l : list option_section) : list option_ptr := l ≫= snd.

Definition qmark : ascii := "?"%char.
Definition help_option (c : C) (o : option_ptr) : bytes :=
  (if decide (opt_short_name o = qmark) then [] else dash :: opt_short_name o :: !", ")
    ++ !"--" ++ opt_name o ++ !", " ++ opt_description o
    ++ (if 0 <? len (default_value o c) then !" (default: " ++ default_value o c ++ !")" else [])
    ++ [lf].
Definition help_section (c : C) (s : option_section) : bytes :=
  [lf] ++ s.1 ++ !" options:" ++ [lf; lf] ++ mjoin (help_option c <$> s.2).
Definition help_func (prog : bytes) (options : list option_section) (c : C) : bytes :=
  !"Usage: " ++ prog ++ !" [OPTION]..." ++ [lf; lf]
    ++ !"General options: " ++ [lf; lf] ++ !"-h, --help, Show this help page." ++ [lf]
    ++ mjoin (help_section c <$> options).

(** The loop that reads the options: on an exception the variables written
    before it keep their values. *)
Fixpoint read_options (h : Handler) (os : list option_ptr) (c : C) : C * exc unit :=
  match os with
  | [] => (c, Ok tt)
  | o :: os =>
      match read_option h c o with
      | Ok c => read_options h os c
      | Thrown e => (c, Thrown e)
      end
  end.

Definition register_all (argv : list bytes) (options : list option_section) : exc Handler :=
  let! h := exc_fold (fun h o => register_option o h) (new_handler argv) (all_options options) in
  add_option ub_front "h"%char !"help" NONE false h.

Definition parse_error (e : exn) : bytes :=
  !"Parse input flags error: " ++ what e ++ [lf] ++ !"Use -h, --help for a list of options" ++ [lf].

Definition parse_arg_options (prog : bytes) (argv : list bytes) (options : list option_section)
    (c : C) : C * bool * bytes :=
  match register_all argv options with
  | Thrown e => (c, false, parse_error e)
  | Ok h =>
      if get_option !"help" h then (c, false, help_func prog options c)
      else
        match read_options h (all_options options) c with
        | (c, Ok _) => (c, true, [])
        | (c, Thrown e) => (c, false, parse_error e)
        end
  end.
End Options.
Arguments option_ptr C : clear implicits.
Arguments pointer C T : clear implicits.
Arguments option_section C : clear implicits.
