(* ===== verification/OptionsFacts.v ===== *)
(** * Command line options: theorems *)
From S2P Require Import Prelude Cxx StdMap OptionHandler Options.

Open Scope Z_scope.

(** ** Tokens *)
Definition long_token (name : bytes) : bytes := dash :: dash :: name.
(** An argument that the handler does not take for an option. *)
Definition plain_value (v : bytes) : Prop := exists c v', v = c :: v' /\ c <> dash.
(** [-1], [-20]: taken for a short option. *)
Definition dashed (v : bytes) : Prop := exists c v', v = dash :: c :: v' /\ c <> dash.

Lemma is_option_long n : is_option (long_token n) = Ok true.
Proof. done. Qed.
Lemma is_option_plain v : plain_value v -> is_option v = Ok false.
Proof.
  intros (c & v' & -> & Hc). unfold is_option, is_long, is_short. simpl.
  rewrite decide_False by done. simpl. by rewrite decide_False.
Qed.
Lemma is_option_dashed v : dashed v -> is_option v = Ok true.
Proof.
  intros (c & v' & -> & Hc). unfold is_option, is_long, is_short. simpl.
  rewrite bool_decide_false by done. simpl. by rewrite bool_decide_true.
Qed.

Lemma designates_long o n :
  short_name o <> dash -> designates o (long_token n) = Ok (bool_decide (n = long_name o)).
Proof.
  intros Ho. unfold designates. rewrite is_option_long. simpl. rewrite decide_False by congruence.
  done.
Qed.
Lemma designates_plain o v : plain_value v -> designates o v = Ok false.
Proof. intros Hv. unfold designates. by rewrite is_option_plain. Qed.

(** ** Arguments *)
Inductive arg := AFlag (name : bytes) | AValue (name value : bytes).
Definition arg_name (a : arg) : bytes := match a with AFlag n | AValue n _ => n end.
Definition render_arg (a : arg) : list bytes :=
  match a with AFlag n => [long_token n] | AValue n v => [long_token n; v] end.
Definition render_args (l : list arg) : list bytes := mjoin (render_arg <$> l).
Definition arg_values (a : arg) : list bytes := match a with AFlag _ => [] | AValue _ v => [v] end.

(** The last argument given for a name. *)
Fixpoint last_given (n : bytes) (l : list arg) : option (list bytes) :=
  match l with
  | [] => None
  | a :: l =>
      match last_given n l with
      | Some v => Some v
      | None => if decide (arg_name a = n) then Some (arg_values a) else None
      end
  end.

(** An argument fits an option of its name. *)
Definition fits (o : Option) (a : arg) : Prop :=
  match a with
  | AFlag n => n = long_name o -> type o = NONE
  | AValue n v => plain_value v /\ (n = long_name o -> type o = REQUIRED)
  end.

Section Loop.
Variable ub_front : bytes -> exc (list bytes).

Lemma render_args_head l :
  render_args l = [] \/ exists n rest, render_args l = long_token n :: rest.
Proof. destruct l as [|[n|n v] l]; [by left|right; eauto..]. Qed.

Lemma update_none_ok o l p :
  update_none o (render_args l) p =
  Ok match smap_find (long_name o) p with
     | None => smap_set (long_name o) [] p | Some _ => p end.
Proof. unfold update_none. by destruct (render_args_head l) as [->|(n & rest & ->)]. Qed.

Lemma take_arguments_stop o l p : take_arguments ub_front o (render_args l) p = Ok p.
Proof. by destruct (render_args_head l) as [->|(n & rest & ->)]. Qed.

Lemma update_required_ok o s v l p p' :
  plain_value v -> add_argument ub_front o v p = Ok p' ->
  update_required ub_front o s (v :: render_args l) p = Ok p'.
Proof.
  intros Hv Hadd. unfold update_required. rewrite is_option_plain by done. simpl.
  unfold update_optional. simpl. rewrite is_option_plain by done. simpl. rewrite Hadd. simpl.
  apply take_arguments_stop.
Qed.

(** What a map holds for each name. *)
Definition holds (p : list (bytes * list bytes)) (f : bytes -> option (list bytes)) : Prop :=
  forall n, smap_find n p = f n.
Lemma holds_set n v p f :
  holds p f -> holds (smap_set n v p) (fun n' => if decide (n' = n) then Some v else f n').
Proof.
  intros Hp n'. case_decide as Hn; [subst; apply smap_find_set_eq|].
  by rewrite smap_find_set_ne by done.
Qed.
Lemma holds_ext p f g : holds p f -> (forall n, f n = g n) -> holds p g.
Proof. intros Hp Hfg n. by rewrite Hp. Qed.

(** The names an option of the program is declared with: nothing before. *)
Definition consistent (o : Option) (v : option (list bytes)) : Prop :=
  match v, type o with
  | None, _ => True
  | Some w, NONE => w = []
  | Some w, _ => exists x, w = [x]
  end.

Lemma render_args_cons a l : render_args (a :: l) = render_arg a ++ render_args l.
Proof. done. Qed.
#[local] Arguments render_args : simpl never.

(** One argument changes the entry of its own name. *)
Definition step_map (o : Option) (a : arg) (f : bytes -> option (list bytes)) :
    bytes -> option (list bytes) :=
  fun n => if decide (n = long_name o /\ arg_name a = n) then Some (arg_values a) else f n.
Lemma step_map_same o a f n :
  arg_name a = long_name o ->
  (if decide (n = long_name o) then Some (arg_values a) else f n) = step_map o a f n.
Proof. unfold step_map. intros Ha. repeat case_decide; naive_solver. Qed.
Lemma step_map_other o a f n : arg_name a <> long_name o -> f n = step_map o a f n.
Proof. unfold step_map. intros Ha. case_decide; naive_solver. Qed.
Lemma consistent_other o a f :
  arg_name a <> long_name o -> consistent o (f (long_name o)) ->
  consistent o (step_map o a f (long_name o)).
Proof. intros Ha. by rewrite <- step_map_other. Qed.

Definition arg_step (o : Option) (a : arg) (l : list arg) p f : Prop :=
  exists p1, update_loop ub_front o (render_args (a :: l)) p = update_loop ub_front o (render_args l) p1
    /\ holds p1 (step_map o a f) /\ consistent o (step_map o a f (long_name o)).

Lemma flag_step o n l p f :
  short_name o <> dash -> fits o (AFlag n) -> holds p f -> consistent o (f (long_name o)) ->
  arg_step o (AFlag n) l p f.
Proof.
  intros Ho Ha Hp Hc. unfold arg_step. rewrite render_args_cons. cbn [render_arg app update_loop].
  rewrite designates_long by done. cbn [exc_bind]. case_bool_decide as Hn; cbn [exc_bind].
  - rewrite (Ha Hn), update_none_ok. cbn [exc_bind]. eexists; split; [done|].
    rewrite Hp. unfold consistent in Hc. rewrite (Ha Hn) in Hc. split.
    + destruct (f (long_name o)) as [w|] eqn:Hf.
      * eapply holds_ext; [done|]. intros n'. rewrite <- step_map_same by done.
        case_decide; [|done]. subst n'. by rewrite Hf, Hc.
      * eapply holds_ext; [by apply holds_set|]. intros n'. by apply (step_map_same o (AFlag n)).
    + rewrite <- step_map_same, decide_True by done. unfold consistent. by rewrite (Ha Hn).
  - exists p. split; [done|]. split; [|by apply consistent_other].
    eapply holds_ext; [done|]. intros n'. by apply step_map_other.
Qed.

Lemma value_step o n v l p f :
  short_name o <> dash -> multiple o = false -> fits o (AValue n v) -> holds p f ->
  consistent o (f (long_name o)) -> arg_step o (AValue n v) l p f.
Proof.
  intros Ho Hm [Hv Ha] Hp Hc. unfold arg_step. rewrite render_args_cons.
  cbn [render_arg app update_loop].
  rewrite designates_long, designates_plain by done. cbn [exc_bind].
  case_bool_decide as Hn; cbn [exc_bind].
  - assert (Hadd : add_argument ub_front o v p = Ok (smap_set (long_name o) [v] p)).
    { unfold add_argument. rewrite Hp, Hm. destruct (f (long_name o)) as [w|] eqn:Hf; [|done].
      unfold consistent in Hc. rewrite (Ha Hn) in Hc. by destruct Hc as [x ->]. }
    rewrite (Ha Hn), (update_required_ok _ _ _ _ _ _ Hv Hadd). cbn [exc_bind].
    eexists; split; [done|]. split.
    + eapply holds_ext; [by apply holds_set|]. intros n'. by apply (step_map_same o (AValue n v)).
    + rewrite <- step_map_same, decide_True by done. unfold consistent. rewrite (Ha Hn). by eexists.
  - exists p. split; [done|]. split; [|by apply consistent_other].
    eapply holds_ext; [done|]. intros n'. by apply step_map_other.
Qed.

(** One pass over well-formed arguments, for one option: the map gets the
    option's last argument, everything else stays. *)
Definition pass_map (o : Option) (l : list arg) (f : bytes -> option (list bytes)) n :=
  if decide (n = long_name o) then
    match last_given n l with Some v => Some v | None => f n end
  else f n.
Lemma update_loop_args o l p f :
  short_name o <> dash -> multiple o = false -> Forall (fits o) l ->
  holds p f -> consistent o (f (long_name o)) ->
  exists p', update_loop ub_front o (render_args l) p = Ok p' /\ holds p' (pass_map o l f).
Proof.
  intros Ho Hm Hl; revert p f; induction Hl as [|a l Ha Hl IH]; intros p f Hp Hc.
  { exists p. split; [done|]. eapply holds_ext; [done|]. intros n. unfold pass_map.
    by case_decide. }
  assert (Hs : arg_step o a l p f) by (destruct a; [by apply flag_step|by apply value_step]).
  destruct Hs as (p1 & -> & Hp1 & Hc1).
  destruct (IH p1 _ Hp1 Hc1) as (p' & Hu & Hh). exists p'. split; [done|].
  eapply holds_ext; [exact Hh|]. intros n. unfold pass_map, step_map. simpl.
  repeat case_decide; destruct (last_given n l); naive_solver.
Qed.
End Loop.

(** ** The whole table *)
Section Table.
Context {C : Type}.
Variable ub_front : bytes -> exc (list bytes).
Implicit Types o : option_ptr C.

Definition declared o : Option := MkOption (opt_short_name o) (opt_name o) (opt_type o) false.
Definition help_declared : Option := MkOption "h"%char !"help" NONE false.

(** Options with distinct names, none called help, none with a dash for a
    short name. *)
Record table_ok (os : list (option_ptr C)) : Prop := {
  table_short : Forall (fun o => opt_short_name o <> dash) os;
  table_names : NoDup (opt_name <$> os);
  table_help : !"help" ∉ opt_name <$> os
}.

(** The value of an integer option is a number. *)
Definition parses (a : arg) o : Prop :=
  match o, a with
  | int_option _ n _ _, AValue n' v => n = n' -> exists z, stoll v = Ok z
  | _, _ => True
  end.
(** An argument the table allows: a flag for a boolean option, a value that
    does not start with a dash for the others; names no option has are
    ignored. *)
Definition arg_ok (os : list (option_ptr C)) (a : arg) : Prop :=
  arg_name a <> !"help" /\ fits help_declared a /\ Forall (fun o => fits (declared o) a /\ parses a o) os.

(** What an option's variable becomes. *)
Definition assign (args : list arg) (c : C) o : C :=
  match o, last_given (opt_name o) args with
  | bool_option _ _ _ v, Some _ => store _ v true c
  | int_option _ _ _ v, Some (s :: _) => match stoll s with Ok z => store _ v z c | Thrown _ => c end
  | str_option _ _ _ v, Some (s :: _) => store _ v s c
  | _, _ => c
  end.

Lemma register_option_args o h f args :
  opt_short_name o <> dash -> Forall (fits (declared o)) args -> input h = render_args args ->
  holds (parsed_input h) f -> f (opt_name o) = None ->
  exists h', register_option ub_front o h = Ok h' /\ input h' = input h
    /\ holds (parsed_input h') (pass_map (declared o) args f).
Proof.
  intros Ho Ha Hin Hh Hf. unfold register_option, add_option, update. cbn [input parsed_input].
  destruct (update_loop_args ub_front (declared o) args (parsed_input h) f) as (p & Hp & Hh');
    [done..|by cbn; rewrite Hf|].
  rewrite Hin. unfold declared in Hp. rewrite Hp. cbn [exc_bind]. by eexists.
Qed.

Lemma register_options_args os h f args :
  Forall (fun o => opt_short_name o <> dash /\ Forall (fits (declared o)) args) os ->
  NoDup (opt_name <$> os) -> input h = render_args args -> holds (parsed_input h) f ->
  Forall (fun o => f (opt_name o) = None) os ->
  exists h', exc_fold (fun h o => register_option ub_front o h) h os = Ok h' /\ input h' = input h
    /\ holds (parsed_input h')
         (fun n => if decide (n ∈ opt_name <$> os) then last_given n args else f n).
Proof.
  intros Hos; revert h f; induction Hos as [|o os [Ho Ha] Hos IH]; intros h f Hnd Hin Hh Hf.
  { exists h. split; [done|]. split; [done|]. eapply holds_ext; [done|]. intros n.
    by rewrite decide_False by set_solver. }
  apply NoDup_cons in Hnd as [Hni Hnd]. apply Forall_cons in Hf as [Hf0 Hf].
  destruct (register_option_args o h f args Ho Ha Hin Hh Hf0) as (h1 & Hr & Hin1 & Hh1).
  cbn [exc_fold]. rewrite Hr. cbn [exc_bind].
  destruct (IH h1 (pass_map (declared o) args f)) as (h2 & Hr2 & Hin2 & Hh2); [done|congruence|done|..].
  { rewrite Forall_forall in Hf |- *. intros o' Ho'. unfold pass_map.
    rewrite decide_False; [auto|]. intros Heq. apply Hni. cbn in Heq. rewrite <- Heq.
    by apply list_elem_of_fmap_2. }
  exists h2. split; [done|]. split; [congruence|]. eapply holds_ext; [done|]. intros n.
  unfold pass_map. cbn [fmap list_fmap declared long_name].
  destruct (decide (n = opt_name o)) as [->|Hne].
  - rewrite Hf0. by destruct (last_given _ _), (decide _), (decide _); try set_solver.
  - destruct (decide (n ∈ opt_name <$> os)); destruct (decide _); set_solver.
Qed.

Lemma last_given_absent n args : Forall (fun a => arg_name a <> n) args -> last_given n args = None.
Proof. induction 1 as [|a l Ha _ IH]; simpl; [done|]. by rewrite IH, decide_False. Qed.

Lemma last_given_in n args v :
  last_given n args = Some v -> exists a, a ∈ args /\ arg_name a = n /\ v = arg_values a.
Proof.
  induction args as [|a args IH]; simpl; [done|]. destruct (last_given n args) as [w|].
  - intros [= ->]. destruct IH as (b & Hb & ?); [done|]. exists b. split; [set_solver|done].
  - case_decide as Hn; [|done]. intros [= <-]. exists a. split; [set_solver|done].
Qed.

Lemma get_option_holds n h f :
  holds (parsed_input h) f -> get_option n h = bool_decide (is_Some (f n)).
Proof.
  intros Hh. unfold get_option. rewrite (Hh n). destruct (f n) as [v|] eqn:E.
  - rewrite (bool_decide_true (is_Some _)) by eauto. rewrite bool_decide_false; [done|].
    intros Hn. specialize (Hh n). rewrite Hn, E in Hh. done.
  - rewrite bool_decide_false; [done|]. by intros [? ?].
Qed.
Lemma get_argument_holds n h f :
  holds (parsed_input h) f -> get_argument n h = match f n with Some (v :: _) => v | _ => [] end.
Proof. intros Hh. unfold get_argument. by rewrite Hh. Qed.

Lemma read_option_assign o h c f args :
  holds (parsed_input h) f -> f (opt_name o) = last_given (opt_name o) args ->
  Forall (fun a => fits (declared o) a /\ parses a o) args ->
  read_option h c o = Ok (assign args c o).
Proof.
  intros Hh Hf Ha. unfold read_option, assign.
  assert (Hgiven : forall v, last_given (opt_name o) args = Some v ->
    match o with bool_option _ _ _ _ => True | int_option _ _ _ _ => exists s z, v = [s] /\ stoll s = Ok z
            | str_option _ _ _ _ => exists s, v = [s] end).
  { intros v (a & Hin & Hn & ->)%last_given_in. rewrite Forall_forall in Ha.
    destruct (Ha a Hin) as [Hfit Hp].
    destruct o, a as [n'|n' s]; simpl in *; try done; try (specialize (Hfit Hn); done); [|by eexists].
    destruct Hp as [z Hz]; [done|]. by exists s, z. }
  destruct o; rewrite (get_option_holds _ _ _ Hh), ?(get_argument_holds _ _ _ Hh); simpl in *;
    rewrite Hf; destruct (last_given name args) as [v|] eqn:E; cbn; try done;
    specialize (Hgiven v eq_refl).
  - destruct Hgiven as (s & z & -> & Hz). by rewrite Hz.
  - by destruct Hgiven as (s & ->).
Qed.

Lemma read_options_assign os h c f args :
  holds (parsed_input h) f ->
  Forall (fun o => f (opt_name o) = last_given (opt_name o) args
                   /\ Forall (fun a => fits (declared o) a /\ parses a o) args) os ->
  read_options h os c = (fold_left (assign args) os c, Ok tt).
Proof.
  intros Hh Hos; revert c; induction Hos as [|o os [Hf Ha] _ IH]; intros c; simpl; [done|].
  rewrite (read_option_assign o h c f args) by done. apply IH.
Qed.
End Table.
