(* ===== verification/Logging.v ===== *)
(** * Loggers, sinks and the registry of spdlog, as the program uses them:
      [src/src/spdlog/common.h], [details/log_msg.h], [sinks/sink.h],
      [sinks/base_sink.h], [sinks/dist_sink.h], [logger.h],
      [details/logger_impl.h], [details/registry.h], [details/spdlog_impl.h]
      and [src/src/quitsies/log/logger.cpp]

    Sinks and loggers are shared objects: they live in heaps, and a pointer is
    a number.  The formatter is a parameter. *)
From S2P Require Import Prelude Cxx.

Open Scope Z_scope.

(** ** common.h *)
Inductive level_enum := trace | debug | info | warn | err | critical | off.
#[export] Instance level_enum_eq_dec : EqDecision level_enum.
Proof. solve_decision. Defined.

Definition level_int (l : level_enum) : Z :=
  match l with
  | trace => 0 | debug => 1 | info => 2 | warn => 3 | err => 4 | critical => 5 | off => 6
  end.
Definition level_names : list bytes :=
  [ !"trace"; !"debug"; !"info"; !"warning"; !"error"; !"critical"; !"off" ].
Definition short_level_names : list bytes :=
  [ !"T"; !"D"; !"I"; !"W"; !"E"; !"C"; !"O" ].
Definition to_str (l : level_enum) : bytes := nth (Z.to_nat (level_int l)) level_names [].
Definition to_short_str (l : level_enum) : bytes :=
  nth (Z.to_nat (level_int l)) short_level_names [].

Inductive async_overflow_policy := block_retry | discard_log_msg.
#[export] Instance async_overflow_policy_eq_dec : EqDecision async_overflow_policy.
Proof. solve_decision. Defined.

(** ** log_msg.h *)
Record log_msg := LogMsg {
  msg_logger_name : bytes;
  msg_level : level_enum;
  msg_time : Z;
  msg_thread_id : Z;
  raw : bytes;
  formatted : bytes
}.
(** The constructor, at time [now] on thread [tid]. *)
Definition new_log_msg (name : bytes) (lvl : level_enum) (now tid : Z) : log_msg :=
  LogMsg name lvl now tid [] [].
Definition with_raw (s : bytes) (m : log_msg) : log_msg :=
  LogMsg (msg_logger_name m) (msg_level m) (msg_time m) (msg_thread_id m) s (formatted m).

(** [msg_level >= _level.load()] *)
Definition level_geb (a b : level_enum) : bool := level_int b <=? level_int a.

(** ** Sinks *)

(** What a concrete sink overrides: [_sink_it] and [flush]. *)
Class SinkImpl (S : Type) := {
  sink_it : log_msg -> S -> S * exc unit;
  sink_flush : S -> S
}.

(** [class sink]: every sink has a level, [trace] at first. *)
Record sink (S : Type) := Sink { sink_level : level_enum; sink_state : S }.
Arguments Sink {S}. Arguments sink_level {S}. Arguments sink_state {S}.
Definition new_sink {S} (s : S) : sink S := Sink trace s.
Definition sink_set_level {S} (l : level_enum) (s : sink S) : sink S := Sink l (sink_state s).
Definition sink_should_log {S} (l : level_enum) (s : sink S) : bool := level_geb l (sink_level s).

(** The heap of sinks. *)
Abbreviation sinks S := (gmap nat (sink S)) (only parsing).

Section Deliver.
Context {S : Type} `{SinkImpl S}.

(** [base_sink::log]: [_sink_it] under the mutex. *)
Definition sink_log (m : log_msg) (p : nat) (h : sinks S) : sinks S * exc unit :=
  match h !! p with
  | Some s =>
      let '(st, r) := sink_it m (sink_state s) in (<[p := Sink (sink_level s) st]> h, r)
  | None => (h, Ok tt)
  end.

(** [for (auto &s : _sinks) if (s->should_log(msg.level)) s->log(msg);]: the
    loop of [logger::_sink_it], of [dist_sink::_sink_it] and of the worker of
    an asynchronous logger. *)
Fixpoint log_to (m : log_msg) (ps : list nat) (h : sinks S) : sinks S * exc unit :=
  match ps with
  | [] => (h, Ok tt)
  | p :: ps =>
      match h !! p with
      | Some s =>
          if sink_should_log (msg_level m) s then
            match sink_log m p h with
            | (h, Ok _) => log_to m ps h
            | (h, Thrown e) => (h, Thrown e)
            end
          else log_to m ps h
      | None => log_to m ps h
      end
  end.

(** [for (auto &s : _sinks) s->flush();] *)
Definition flush_all (ps : list nat) (h : sinks S) : sinks S :=
  fold_left (fun h p => alter (fun s => Sink (sink_level s) (sink_flush (sink_state s))) p h) ps h.
End Deliver.

(** ** Loggers *)

(** A logger, with the settings of its helper when it is asynchronous
    ([AsyncLog] models the helper).  [F] are the formatters, [H] the error
    handlers. *)
Record async_settings := AsyncSettings {
  queue_size : Z; overflow_policy : async_overflow_policy; flush_interval_ms : Z
}.
Record logger (F H : Type) := Logger {
  _name : bytes;
  _sinks : list nat;
  _formatter : F;
  _level : level_enum;
  _flush_level : level_enum;
  _err_handler : H;
  _async : option async_settings
}.
Arguments Logger {F H}.
Arguments _name {F H}. Arguments _sinks {F H}. Arguments _formatter {F H}. Arguments _level {F H}.
Arguments _flush_level {F H}. Arguments _err_handler {F H}. Arguments _async {F H}.

Section LoggerClass.
Context {F H : Type}.
Implicit Types l : logger F H.

(** The constructor: [default_formatter] is [pattern_formatter("%+")],
    [default_handler] calls [_default_err_handler]. *)
Definition new_logger (default_formatter : F) (default_handler : H) (name : bytes)
    (sinks : list nat) (async : option async_settings) : logger F H :=
  Logger name sinks default_formatter info off default_handler async.

Definition set_formatter (f : F) l : logger F H :=
  Logger (_name l) (_sinks l) f (_level l) (_flush_level l) (_err_handler l) (_async l).
Definition logger_set_level (v : level_enum) l : logger F H :=
  Logger (_name l) (_sinks l) (_formatter l) v (_flush_level l) (_err_handler l) (_async l).
Definition flush_on (v : level_enum) l : logger F H :=
  Logger (_name l) (_sinks l) (_formatter l) (_level l) v (_err_handler l) (_async l).
Definition logger_set_error_handler (h : H) l : logger F H :=
  Logger (_name l) (_sinks l) (_formatter l) (_level l) (_flush_level l) h (_async l).

Definition should_log (v : level_enum) l : bool := level_geb v (_level l).
Definition _should_flush_on (m : log_msg) l : bool :=
  level_geb (msg_level m) (_flush_level l) && negb (bool_decide (msg_level m = off)).

(** *** Synchronous logging *)
Context {S : Type} `{SinkImpl S}.
Variable format : F -> log_msg -> exc log_msg.

Definition _sink_it (m : log_msg) l (h : sinks S) : sinks S * exc unit :=
  match format (_formatter l) m with
  | Thrown e => (h, Thrown e)
  | Ok m =>
      match log_to m (_sinks l) h with
      | (h, Thrown e) => (h, Thrown e)
      | (h, Ok _) => (if _should_flush_on m l then flush_all (_sinks l) h else h, Ok tt)
      end
  end.

(** [log(lvl, ...)] on one thread; [text] is what writing the arguments into
    [raw] gives (a format string and its arguments may throw).  The last
    component is the message handed to the error handler, if any: no
    exception leaves the call. *)
Definition log (lvl : level_enum) (text : exc bytes) (now tid : Z) l (h : sinks S) :
    sinks S * option bytes :=
  if negb (should_log lvl l) then (h, None)
  else
    match text with
    | Thrown e => (h, Some (what e))
    | Ok t =>
        match _sink_it (with_raw t (new_log_msg (_name l) lvl now tid)) l h with
        | (h, Ok _) => (h, None)
        | (h, Thrown e) => (h, Some (what e))
        end
    end.
End LoggerClass.

(** ** The registry *)
Record registry (F H : Type) := Registry {
  _loggers : gmap bytes nat;
  r_formatter : option F;
  r_level : level_enum;
  r_err_handler : option H;
  _async_mode : bool;
  _async_q_size : Z;
  _overflow_policy : async_overflow_policy;
  _flush_interval_ms : Z
}.
Arguments Registry {F H}.
Arguments _loggers {F H}. Arguments r_formatter {F H}. Arguments r_level {F H}.
Arguments r_err_handler {F H}. Arguments _async_mode {F H}. Arguments _async_q_size {F H}.
Arguments _overflow_policy {F H}. Arguments _flush_interval_ms {F H}.

(** The registry and the logger objects; [lh_next] is the next pointer. *)
Record log_heap (F H : Type) := LogHeap {
  lh_registry : registry F H; lh_objects : gmap nat (logger F H); lh_next : nat
}.
Arguments LogHeap {F H}. Arguments lh_registry {F H}. Arguments lh_objects {F H}.
Arguments lh_next {F H}.

Section RegistryClass.
Context {F H : Type}.
Variable default_formatter : F.
Variable default_handler : H.
Implicit Types w : log_heap F H.

Definition new_registry : registry F H := Registry ∅ None info None false 0 block_retry 0.
Definition new_log_heap : log_heap F H := LogHeap new_registry ∅ 0.

Definition exists_message (name : bytes) : exn :=
  spdlog_ex (!"logger with name '" ++ name ++ !"' already exists").
Definition throw_if_exists (name : bytes) (r : registry F H) : exc unit :=
  match _loggers r !! name with Some _ => Thrown (exists_message name) | None => Ok tt end.

Definition with_loggers (m : gmap bytes nat) (r : registry F H) : registry F H :=
  Registry m (r_formatter r) (r_level r) (r_err_handler r) (_async_mode r) (_async_q_size r)
    (_overflow_policy r) (_flush_interval_ms r).
Definition with_registry (r : registry F H) w : log_heap F H :=
  LogHeap r (lh_objects w) (lh_next w).

Definition register_logger (p : nat) w : exc (log_heap F H) :=
  match lh_objects w !! p with
  | None => Ok w
  | Some l =>
      let r := lh_registry w in
      let! _ := throw_if_exists (_name l) r in
      Ok (with_registry (with_loggers (<[_name l := p]> (_loggers r)) r) w)
  end.
Definition registry_get (name : bytes) w : option nat := _loggers (lh_registry w) !! name.

(** The queue of an asynchronous logger refuses a size that is not a power of
    two ([MpmcQueue.queue_size_ok]). *)
Variable queue_size_ok : Z -> bool.
Definition queue_size_message : exn := spdlog_ex !"async logger queue size must be power of two".

Definition create (name : bytes) (sinks : list nat) w : exc (log_heap F H * nat) :=
  let r := lh_registry w in
  let! _ := throw_if_exists name r in
  let! async := (if _async_mode r then
                   if queue_size_ok (_async_q_size r)
                   then Ok (Some (AsyncSettings (_async_q_size r) (_overflow_policy r)
                                    (_flush_interval_ms r)))
                   else Thrown queue_size_message
                 else Ok None) in
  let l := new_logger default_formatter default_handler name sinks async in
  let l := match r_formatter r with Some f => set_formatter f l | None => l end in
  let l := match r_err_handler r with Some h => logger_set_error_handler h l | None => l end in
  let l := logger_set_level (r_level r) l in
  let p := lh_next w in
  Ok (LogHeap (with_loggers (<[name := p]> (_loggers r)) r) (<[p := l]> (lh_objects w)) (S p), p).

Definition drop_logger (name : bytes) w : log_heap F H :=
  with_registry (with_loggers (delete name (_loggers (lh_registry w))) (lh_registry w)) w.
Definition drop_all w : log_heap F H :=
  with_registry (with_loggers ∅ (lh_registry w)) w.

(** [for (auto& l : _loggers) fun(l.second)], for a function that changes one
    object: the order of the map does not matter. *)
Definition is_registered (r : registry F H) (p : nat) : bool :=
  bool_decide (p ∈ (map_to_list (_loggers r)).*2).
Definition apply_all (f : logger F H -> logger F H) w : log_heap F H :=
  LogHeap (lh_registry w)
    (map_imap (fun p l => Some (if is_registered (lh_registry w) p then f l else l)) (lh_objects w))
    (lh_next w).

Definition set_registry_formatter (f : F) w : log_heap F H :=
  let r := lh_registry w in
  with_registry (Registry (_loggers r) (Some f) (r_level r) (r_err_handler r) (_async_mode r)
    (_async_q_size r) (_overflow_policy r) (_flush_interval_ms r)) (apply_all (set_formatter f) w).
Definition set_registry_level (v : level_enum) w : log_heap F H :=
  let r := lh_registry w in
  with_registry (Registry (_loggers r) (r_formatter r) v (r_err_handler r) (_async_mode r)
    (_async_q_size r) (_overflow_policy r) (_flush_interval_ms r)) (apply_all (logger_set_level v) w).
Definition set_registry_error_handler (h : H) w : log_heap F H :=
  let r := lh_registry w in
  with_registry (Registry (_loggers r) (r_formatter r) (r_level r) (Some h) (_async_mode r)
    (_async_q_size r) (_overflow_policy r) (_flush_interval_ms r))
    (apply_all (logger_set_error_handler h) w).
Definition set_async_mode (q_size : Z) (policy : async_overflow_policy) (flush_ms : Z) w :
    log_heap F H :=
  let r := lh_registry w in
  with_registry (Registry (_loggers r) (r_formatter r) (r_level r) (r_err_handler r) true
    q_size policy flush_ms) w.
Definition set_sync_mode w : log_heap F H :=
  let r := lh_registry w in
  with_registry (Registry (_loggers r) (r_formatter r) (r_level r) (r_err_handler r) false
    (_async_q_size r) (_overflow_policy r) (_flush_interval_ms r)) w.

(** ** [log::create], quitsies/log/logger.cpp *)
Definition level_of_name (level : bytes) : option level_enum :=
  if decide (level = !"trace") then Some trace
  else if decide (level = !"debug") then Some debug
  else if decide (level = !"info") then Some info
  else if decide (level = !"warn") then Some warn
  else if decide (level = !"err") then Some err
  else if decide (level = !"critical") then Some critical
  else if decide (level = !"off") then Some off
  else None.

(** The pointer of [stdout_sink_mt::instance()]. *)
Variable stdout_sink : nat.

(** The effects up to an exception stay: the second component is the heap. *)
Definition log_create (name level : bytes) w : log_heap F H * exc nat :=
  let w := set_async_mode 8192 block_retry 0 w in
  match create name [stdout_sink] w with
  | Thrown e => (w, Thrown e)
  | Ok (w, p) =>
      match level_of_name level with
      | Some v =>
          (LogHeap (lh_registry w) (alter (logger_set_level v) p (lh_objects w)) (lh_next w), Ok p)
      | None => (w, Thrown (runtime_error (!"Unrecognised log level: " ++ level)))
      end
  end.
End RegistryClass.
