(* ===== verification/LoggingFacts.v ===== *)
(** * Loggers and the registry: theorems *)
From S2P Require Import Prelude Cxx Logging.

Open Scope Z_scope.

Lemma level_geb_refl l : level_geb l l = true.
Proof. by destruct l. Qed.
Lemma level_geb_trans a b c : level_geb a b = true -> level_geb b c = true -> level_geb a c = true.
Proof. unfold level_geb. intros. bool_to_prop. apply Z.leb_le. lia. Qed.

(** ** Delivery to the sinks *)
Section Delivery.
Context {S : Type} `{SinkImpl S}.

(** What one message does to one sink. *)
Definition receives (m : log_msg) (s : sink S) : sink S :=
  if sink_should_log (msg_level m) s then Sink (sink_level s) (sink_it m (sink_state s)).1 else s.
Definition refuses (m : log_msg) (s : sink S) : option exn :=
  if sink_should_log (msg_level m) s then
    match (sink_it m (sink_state s)).2 with Thrown e => Some e | Ok _ => None end
  else None.

(** The sinks the loop reaches: up to the first that throws. *)
Fixpoint reached (m : log_msg) (ps : list nat) (h : sinks S) : list nat * option exn :=
  match ps with
  | [] => ([], None)
  | p :: ps =>
      match h !! p ≫= refuses m with
      | Some e => ([p], Some e)
      | None => let '(qs, o) := reached m ps h in (p :: qs, o)
      end
  end.

Lemma log_to_cons m p ps (h : sinks S) :
  log_to m (p :: ps) h =
  match h !! p ≫= refuses m with
  | Some e => (alter (receives m) p h, Thrown e)
  | None => log_to m ps (alter (receives m) p h)
  end.
Proof.
  cbn [log_to]. destruct (h !! p) as [s|] eqn:Hp; simpl.
  - unfold refuses, receives, sink_log. rewrite Hp.
    assert (Hal : forall s', alter (receives m) p h = <[p := s']> h <-> receives m s = s').
    { intros s'. split.
      - intros Heq. apply (f_equal (lookup p)) in Heq.
        rewrite lookup_alter_eq, Hp, lookup_insert_eq in Heq. by injection Heq.
      - intros <-. apply map_eq. intros q. destruct (decide (q = p)) as [->|Hq].
        + by rewrite lookup_alter_eq, Hp, lookup_insert_eq.
        + by rewrite lookup_alter_ne, lookup_insert_ne. }
    unfold receives in Hal. destruct (sink_should_log (msg_level m) s) eqn:Hs.
    + destruct (sink_it m (sink_state s)) as [st [u|e]] eqn:Hit; cbn [snd fst] in *;
        by rewrite (proj2 (Hal _) eq_refl).
    + rewrite (proj2 (Hal _) eq_refl). by rewrite insert_id.
  - f_equal. apply map_eq. intros q. destruct (decide (q = p)) as [->|Hq].
    + by rewrite lookup_alter_eq, Hp.
    + by rewrite lookup_alter_ne.
Qed.

Lemma reached_sub m ps (h : sinks S) q : q ∈ (reached m ps h).1 -> q ∈ ps.
Proof.
  induction ps as [|p ps IH]; cbn [reached]; [done|].
  destruct (h !! p ≫= refuses m); [set_solver|].
  destruct (reached m ps h) as [qs o]. set_solver.
Qed.
Lemma reached_alter m f p ps (h : sinks S) :
  p ∉ ps -> reached m ps (alter f p h) = reached m ps h.
Proof.
  induction ps as [|q ps IH]; intros Hp; [done|]. cbn [reached].
  rewrite lookup_alter_ne by set_solver. by rewrite IH by set_solver.
Qed.

(** The loop, for distinct sinks: the sinks reached got the message, the
    others are untouched. *)
Lemma log_to_spec m ps (h : sinks S) :
  NoDup ps ->
  exists h', log_to m ps h = (h', match (reached m ps h).2 with Some e => Thrown e | None => Ok tt end)
    /\ forall q, h' !! q = (if decide (q ∈ (reached m ps h).1) then receives m else id) <$> h !! q.
Proof.
  intros Hnd; revert h; induction Hnd as [|p ps Hp Hnd IH]; intros h.
  { exists h. split; [done|]. intros q. cbn [reached fst].
    destruct (decide _) as [Hin|_]; [by apply not_elem_of_nil in Hin|]. by destruct (h !! q). }
  rewrite log_to_cons. cbn [reached]. set (h1 := alter (receives m) p h).
  destruct (h !! p ≫= refuses m) as [e|] eqn:Hr.
  - exists h1. split; [done|]. intros q. unfold h1. cbn [fst].
    destruct (decide (q ∈ [p])) as [Hin|Hin]; destruct (decide (q = p)) as [->|Hq];
      rewrite ?list_elem_of_singleton in Hin; try done.
    + by rewrite lookup_alter_eq.
    + rewrite lookup_alter_ne by done. by destruct (h !! q).
  - destruct (IH h1) as (h' & -> & Hl). exists h'. pose proof (reached_sub m ps h) as Hsub.
    unfold h1 in Hl. rewrite reached_alter in Hl by done. unfold h1.
    rewrite reached_alter by done.
    destruct (reached m ps h) as [qs o]. cbn [fst snd] in *. split; [done|]. intros q. rewrite Hl.
    destruct (decide (q = p)) as [->|Hq].
    + rewrite lookup_alter_eq. destruct (decide (p ∈ qs)) as [H1|H1], (decide (p ∈ p :: qs)) as [H2|H2];
        rewrite elem_of_cons in H2;
        first [exfalso; tauto|exfalso; by apply Hp, Hsub|by destruct (h !! p)].
    + rewrite lookup_alter_ne by done. destruct (decide (q ∈ qs)), (decide (q ∈ p :: qs)) as [H2|H2];
        rewrite elem_of_cons in H2; done || (exfalso; tauto).
Qed.
End Delivery.

Section Logger.
Context {F H S : Type} `{SinkImpl S}.
Variable format : F -> log_msg -> exc log_msg.

Definition flushed (s : sink S) : sink S := Sink (sink_level s) (sink_flush (sink_state s)).
Lemma flush_all_lookup ps (h : sinks S) q :
  NoDup ps -> flush_all ps h !! q = (if decide (q ∈ ps) then flushed else id) <$> h !! q.
Proof.
  unfold flush_all. intros Hnd; revert h; induction Hnd as [|p ps Hp Hnd IH]; intros h; cbn [fold_left].
  { destruct (decide _) as [Hin|_]; [by apply not_elem_of_nil in Hin|]. by destruct (h !! q). }
  rewrite IH. destruct (decide (q = p)) as [->|Hq].
  - rewrite lookup_alter_eq. destruct (decide (p ∈ ps)) as [|_]; [done|].
    destruct (decide (p ∈ p :: ps)) as [_|Hn]; [|destruct Hn; by left]. by destruct (h !! p).
  - rewrite lookup_alter_ne by done.
    destruct (decide (q ∈ ps)) as [H1|H1], (decide (q ∈ p :: ps)) as [H2|H2]; try done.
    + destruct H2. by right.
    + apply elem_of_cons in H2 as [?|?]; done.
Qed.

(** Delivery of a log message.  Below the level of the logger a call
    changes nothing.  Otherwise the formatted message goes to the sinks of
    the logger in order, each deciding by its own level, up to the first that
    throws; if none does, and the message reaches the flush level, all of
    them are flushed; if one does, the sinks after it get nothing, nothing is
    flushed, and the error handler (not the caller) gets the text of the
    exception.  Sinks of other loggers are never touched. *)
Theorem log_effect lvl t now tid (l : logger F H) m (h : sinks S) :
  NoDup (_sinks l) ->
  format (_formatter l) (with_raw t (new_log_msg (_name l) lvl now tid)) = Ok m ->
  let (h', error) := log format lvl (Ok t) now tid l h in
  let '(qs, thrown) := reached m (_sinks l) h in
  if should_log lvl l then
    error = what <$> thrown
    /\ forall q, h' !! q =
         (fun s => let s := if decide (q ∈ qs) then receives m s else s in
                   if decide (thrown = None /\ _should_flush_on m l = true /\ q ∈ _sinks l)
                   then flushed s else s) <$> h !! q
  else h' = h /\ error = None.
Proof.
  intros Hnd Hfmt. unfold log, _sink_it. destruct (should_log lvl l) eqn:Hs; simpl.
  2: { by destruct (reached m (_sinks l) h). }
  rewrite Hfmt. destruct (log_to_spec m (_sinks l) h Hnd) as (h1 & -> & Hl).
  destruct (reached m (_sinks l) h) as [qs [e|]]; simpl in *.
  - split; [done|]. intros q. rewrite Hl. destruct (h !! q) as [s|]; [|done]. simpl. f_equal.
    by destruct (decide (q ∈ qs)).
  - split; [done|]. intros q.
    assert (Hq : h1 !! q = (fun s => if decide (q ∈ qs) then receives m s else s) <$> h !! q)
      by (rewrite Hl; by destruct (decide (q ∈ qs))).
    destruct (_should_flush_on m l).
    + rewrite flush_all_lookup, Hq by done. destruct (h !! q) as [s|]; [|done]. cbn. f_equal.
      match goal with |- _ = (if decide ?P then _ else _) => destruct (decide P) as [(_ & _ & Hin)|Hn] end;
        destruct (decide (q ∈ _sinks l)); tauto.
    + rewrite Hq. destruct (h !! q) as [s|]; done.
Qed.
End Logger.

(** *** Sinks that remember their messages; one in three refuses them *)
Record mem_sink := MemSink { ms_lines : list bytes; ms_flushes : nat; ms_broken : bool }.
#[export] Instance mem_sink_impl : SinkImpl mem_sink := {
  sink_it m s :=
    if ms_broken s then (s, Thrown (spdlog_ex !"Failed writing to file"))
    else (MemSink (ms_lines s ++ [formatted m]) (ms_flushes s) false, Ok tt);
  sink_flush s := MemSink (ms_lines s) (ms_flushes s + 1) (ms_broken s)
}.
Definition plain_format (_ : unit) (m : log_msg) : exc log_msg :=
  Ok (LogMsg (msg_logger_name m) (msg_level m) (msg_time m) (msg_thread_id m) (raw m)
        (raw m ++ [lf])).
Definition demo_sinks : gmap nat (sink mem_sink) :=
  {[ 1%nat := new_sink (MemSink [] 0 false);
     2%nat := sink_set_level critical (new_sink (MemSink [] 0 false));
     3%nat := new_sink (MemSink [] 0 true);
     4%nat := new_sink (MemSink [] 0 false) ]}.
Definition demo_logger : logger unit unit := new_logger tt tt !"quitsies" [1; 2; 3; 4]%nat None.
Definition demo_line : log_msg := LogMsg !"quitsies" err 0 7 !"disk" (!"disk" ++ [lf]).

Lemma log_effect_witness :
  let (h', error) := log plain_format err (Ok !"disk") 0 7 demo_logger demo_sinks in
  let '(qs, thrown) := reached demo_line [1; 2; 3; 4]%nat demo_sinks in
  error = what <$> thrown
  /\ forall q, h' !! q =
       (fun s => let s := if decide (q ∈ qs) then receives demo_line s else s in
                 if decide (thrown = None /\ _should_flush_on demo_line demo_logger = true
                            /\ q ∈ [1; 2; 3; 4]%nat)
                 then flushed s else s) <$> demo_sinks !! q.
Proof.
  refine (log_effect plain_format err !"disk" 0 7 demo_logger demo_line demo_sinks _ _).
  - apply (bool_decide_unpack _). vm_compute. exact I.
  - reflexivity.
Defined.
(** The broken sink stops the loop before the fourth. *)
Example demo_reached : reached demo_line [1; 2; 3; 4]%nat demo_sinks =
  ([1; 2; 3]%nat, Some (spdlog_ex !"Failed writing to file")).
Proof. vm_compute. reflexivity. Qed.

(** ** [log::create] *)
Section Create.
Context {F H : Type}.
Variables (default_formatter : F) (default_handler : H) (queue_size_ok : Z -> bool) (stdout_sink : nat).
Implicit Types w : log_heap F H.

(** Creating the program's logger.  With the name free, a level name of
    the seven accepted ones gives a registered asynchronous logger (queue of
    8192, blocking) on the standard output that logs exactly the messages at
    or above that level.  Any other level name throws, but only after the
    logger was registered: the name is then taken, and a second attempt, even
    with a good level, throws that it exists. *)
Theorem log_create_spec name level w :
  _loggers (lh_registry w) !! name = None -> queue_size_ok 8192 = true ->
  let create_log := log_create default_formatter default_handler queue_size_ok stdout_sink in
  let (w', r) := create_log name level w in
  registry_get name w' = Some (lh_next w)
  /\ match level_of_name level with
     | Some v =>
         r = Ok (lh_next w)
         /\ exists l, lh_objects w' !! lh_next w = Some l /\ _name l = name
              /\ _sinks l = [stdout_sink] /\ _async l = Some (AsyncSettings 8192 block_retry 0)
              /\ forall lvl, should_log lvl l = level_geb lvl v
     | None =>
         r = Thrown (runtime_error (!"Unrecognised log level: " ++ level))
         /\ forall level', (create_log name level' w').2 = Thrown (exists_message name)
     end.
Proof.
  intros Hfree Hq. cbv zeta. unfold log_create at 1, create, throw_if_exists.
  cbn [set_async_mode with_registry lh_registry _loggers _async_mode _async_q_size exc_bind].
  rewrite Hfree. cbn [exc_bind]. rewrite Hq. cbn [exc_bind].
  set (r := lh_registry w). cbn [r_formatter r_err_handler r_level lh_next lh_objects].
  destruct (level_of_name level) as [v|].
  - split; [apply lookup_insert_eq|]. split; [done|]. cbn [lh_objects].
    rewrite lookup_alter_eq, lookup_insert_eq. eexists; split; [done|].
    by destruct (r_formatter r), (r_err_handler r).
  - split; [apply lookup_insert_eq|]. split; [done|]. intros level'.
    unfold log_create, create, throw_if_exists.
    cbn [set_async_mode with_registry lh_registry with_loggers _loggers].
    by rewrite lookup_insert_eq.
Qed.
End Create.

Lemma log_create_spec_witness :
  let create_log := log_create (F := unit) (H := unit) tt tt (fun n => n =? 8192) 0 in
  (create_log !"quitsies" !"warn" (create_log !"quitsies" !"warning" new_log_heap).1).2
  = Thrown (exists_message !"quitsies").
Proof.
  refine (proj2 (proj2 (log_create_spec (F := unit) (H := unit) tt tt (fun n => n =? 8192) 0
    !"quitsies" !"warning" new_log_heap _ _)) !"warn"); reflexivity.
Defined.
