(* ===== verification/Service.v ===== *)
(** * The program, [src/src/service.cpp]

    [main] parses the options into its variables and the store's, creates the
    logger and the metrics aggregator, opens the store, and serves.  The
    options table is the one of [main] and [rocks::register_options]. *)
From S2P Require Import Prelude Cxx StdMap OptionHandler Options OptionsFacts Logging.
From S2P Require Import Statsd Aggregator Rocks.

Open Scope Z_scope.

(** ** The aggregator behind [stats::aggregator_ptr]: one of the two classes *)
#[export] Instance either_agg {A B E} `{Aggregator A E} `{Aggregator B E} : Aggregator (A + B) E := {
  agg_counter n v a := match a with inl a => inl (agg_counter (E := E) n v a)
                                 | inr b => inr (agg_counter (E := E) n v b) end;
  agg_timer n v a := match a with inl a => inl (agg_timer (E := E) n v a)
                               | inr b => inr (agg_timer (E := E) n v b) end;
  agg_gauge n v a := match a with inl a => inl (agg_gauge (E := E) n v a)
                               | inr b => inr (agg_gauge (E := E) n v b) end;
  agg_set n v a := match a with inl a => inl (agg_set (E := E) n v a)
                             | inr b => inr (agg_set (E := E) n v b) end;
  agg_on_epoch f a := match a with inl a => inl (agg_on_epoch f a)
                                | inr b => inr (agg_on_epoch f b) end
}.
Definition any_aggregator : Type := null_aggregator + statsd_aggregator epoch_fn.

(** ** The variables of [main] *)
Record settings (DB : Type) := Settings {
  http_address : bytes; http_port : bytes; http_prefix : bytes;
  tcp_address : bytes; tcp_port : bytes;
  statsd_address : bytes; statsd_port : bytes; statsd_prefix : bytes;
  log_level : bytes;
  n_http_threads : Z; n_tcp_threads : Z;
  db : rocks DB any_aggregator
}.
Arguments Settings {DB}.
Arguments http_address {DB}. Arguments http_port {DB}. Arguments http_prefix {DB}.
Arguments tcp_address {DB}. Arguments tcp_port {DB}. Arguments statsd_address {DB}.
Arguments statsd_port {DB}. Arguments statsd_prefix {DB}. Arguments log_level {DB}.
Arguments n_http_threads {DB}. Arguments n_tcp_threads {DB}. Arguments db {DB}.

Section Settings.
Context {DB : Type}.
Abbreviation S := (settings DB) (only parsing).

Definition default_settings : settings DB :=
  Settings !"localhost" !"3058" !"/quitsies" !"localhost" !"11211" [] !"8125" !"quitsies" !"info"
    1 10 (new_rocks (inl Null_aggregator)).

(** The eleven variables of the section IO, by position. *)
Definition io_strings (s : S) : list bytes :=
  [http_address s; http_port s; http_prefix s; tcp_address s; tcp_port s; statsd_address s;
   statsd_port s; statsd_prefix s; log_level s].
Definition set_io_string (i : nat) (v : bytes) (s : S) : S :=
  let f j x := if decide (i = j) then v else x in
  Settings (f 0%nat (http_address s)) (f 1%nat (http_port s)) (f 2%nat (http_prefix s))
    (f 3%nat (tcp_address s)) (f 4%nat (tcp_port s)) (f 5%nat (statsd_address s))
    (f 6%nat (statsd_port s)) (f 7%nat (statsd_prefix s)) (f 8%nat (log_level s))
    (n_http_threads s) (n_tcp_threads s) (db s).
Definition io_pointer (i : nat) : pointer S bytes :=
  Pointer _ (fun s => nth i (io_strings s) []) (set_io_string i).
Definition set_threads (h t : Z) (s : S) : S :=
  Settings (http_address s) (http_port s) (http_prefix s) (tcp_address s) (tcp_port s)
    (statsd_address s) (statsd_port s) (statsd_prefix s) (log_level s) h t (db s).
Definition http_threads_pointer : pointer S Z :=
  Pointer _ n_http_threads (fun v s => set_threads v (n_tcp_threads s) s).
Definition tcp_threads_pointer : pointer S Z :=
  Pointer _ n_tcp_threads (fun v s => set_threads (n_http_threads s) v s).

Definition set_db (r : rocks DB any_aggregator) (s : S) : S :=
  Settings (http_address s) (http_port s) (http_prefix s) (tcp_address s) (tcp_port s)
    (statsd_address s) (statsd_port s) (statsd_prefix s) (log_level s)
    (n_http_threads s) (n_tcp_threads s) r.

(** The members [rocks::register_options] points to. *)
Definition set_path (p : bytes) (r : rocks DB any_aggregator) : rocks DB any_aggregator :=
  Rocks p (_ttl r) (_memtable r) (_shard_bits r) (_block_cap r) (_max_files r) (_debug r)
    (_write_mode r) (_restore r) (_db r) (_local_stats r) (_rocks_stats r) (_log r) (_db_mutex r).
Definition rocks_ints (r : rocks DB any_aggregator) : list Z :=
  [_ttl r; _max_files r; _memtable r; _shard_bits r; _block_cap r].
Definition set_rocks_int (i : nat) (v : Z) (r : rocks DB any_aggregator) : rocks DB any_aggregator :=
  let f j x := if decide (i = j) then v else x in
  Rocks (_path r) (f 0%nat (_ttl r)) (f 2%nat (_memtable r)) (f 3%nat (_shard_bits r))
    (f 4%nat (_block_cap r)) (f 1%nat (_max_files r)) (_debug r) (_write_mode r) (_restore r)
    (_db r) (_local_stats r) (_rocks_stats r) (_log r) (_db_mutex r).
Definition rocks_bools (r : rocks DB any_aggregator) : list bool :=
  [_debug r; _write_mode r; _restore r].
Definition set_rocks_bool (i : nat) (v : bool) (r : rocks DB any_aggregator) : rocks DB any_aggregator :=
  let f j x := if decide (i = j) then v else x in
  Rocks (_path r) (_ttl r) (_memtable r) (_shard_bits r) (_block_cap r) (_max_files r)
    (f 0%nat (_debug r)) (f 1%nat (_write_mode r)) (f 2%nat (_restore r)) (_db r)
    (_local_stats r) (_rocks_stats r) (_log r) (_db_mutex r).

Definition path_pointer : pointer S bytes :=
  Pointer _ (fun s => _path (db s)) (fun v s => set_db (set_path v (db s)) s).
Definition rocks_int_pointer (i : nat) : pointer S Z :=
  Pointer _ (fun s => nth i (rocks_ints (db s)) 0) (fun v s => set_db (set_rocks_int i v (db s)) s).
Definition rocks_bool_pointer (i : nat) : pointer S bool :=
  Pointer _ (fun s => nth i (rocks_bools (db s)) false)
    (fun v s => set_db (set_rocks_bool i v (db s)) s).

(** ** The options *)
Definition io_options : option_section S :=
  (!"IO",
   [str_option qmark !"http_address" !"Address to bind to for HTTP." (io_pointer 0);
    str_option qmark !"http_port" !"Port to bind to for HTTP." (io_pointer 1);
    str_option qmark !"http_prefix" !"Path prefix for HTTP paths." (io_pointer 2);
    int_option qmark !"http_threads" !"Number of HTTP threads." http_threads_pointer;
    str_option qmark !"tcp_address" !"Address to bind to for TCP." (io_pointer 3);
    str_option qmark !"tcp_port" !"Port to bind to for TCP." (io_pointer 4);
    int_option qmark !"tcp_threads" !"Number of TCP threads." tcp_threads_pointer;
    str_option qmark !"statsd_address" !"Address of the statsd server for sending metrics."
      (io_pointer 5);
    str_option qmark !"statsd_port" !"Port of the statsd server for sending metrics." (io_pointer 6);
    str_option qmark !"statsd_prefix" !"Prefix of statsd metrics." (io_pointer 7);
    str_option qmark !"log_level"
      !"Level of logging (trace, debug, info, warn, err, critical, off)." (io_pointer 8)]).
Definition rocks_options : option_section S :=
  (!"DB",
   [str_option qmark !"db_path" !"Path to store DB files." path_pointer;
    int_option qmark !"db_ttl" !"A TTL for all DB items. WARN: This applies to old records."
      (rocks_int_pointer 0);
    int_option qmark !"db_max_open_files" !"Max # of open files, -1 is unlimited."
      (rocks_int_pointer 1);
    int_option qmark !"db_memtable" !"Set the memtable size. Higher == faster writes."
      (rocks_int_pointer 2);
    int_option qmark !"db_shard_bits" !"Set the block cache shard bits. 4 == 16 shards."
      (rocks_int_pointer 3);
    int_option qmark !"db_block_cap" !"Set the cap to the block_cache. Higher == faster reads."
      (rocks_int_pointer 4);
    bool_option "d"%char !"db_debug"
      !"Collect more granular RocksDB metrics at a small cost to performance." (rocks_bool_pointer 0);
    bool_option qmark !"db_write_mode" !"Optimize RocksDB compaction for write amp."
      (rocks_bool_pointer 1);
    bool_option qmark !"db_restore_backup" !"Restore DB from a backup." (rocks_bool_pointer 2)]).
Definition program_options : list (option_section S) := [io_options; rocks_options].
End Settings.

(** ** [main], up to the point where it serves *)
Inductive main_outcome (DB W : Type) :=
| Exits (code : Z)
| UndefinedExit
| Terminates (e : exn)
| Serves (s : settings DB) (w : W).
Arguments Exits {DB W}. Arguments UndefinedExit {DB W}. Arguments Terminates {DB W}.
Arguments Serves {DB W}.

Section Main.
Context {W DB F H : Type} `{RocksDB DB} `{RocksEnv W DB}.
Variable ub_front : bytes -> exc (list bytes).
Variables (default_formatter : F) (default_handler : H) (queue_size_ok : Z -> bool) (stdout_sink : nat).
(** The resolver and the socket of boost::asio, for a host and a port. *)
Variable resolve_and_open : bytes -> bytes -> exc unit.

(** [return code]: the store is destroyed on the way out. *)
Definition return_code (code : Z) (r : rocks DB any_aggregator) : main_outcome DB W :=
  match destroy r with Some _ => Exits code | None => UndefinedExit end.

(** [stats(new null_aggregator())], replaced when there is a statsd server.
    The client's constructor resolves the address and opens a socket: an
    exception of that leaves [main], which has no handler here. *)
Definition make_stats (s : settings DB) : exc any_aggregator :=
  if 0 <? len (statsd_address s) then
    exc_map (fun _ => inr (new_statsd_aggregator (statsd_prefix s)))
      (resolve_and_open (statsd_address s) (statsd_port s))
  else Ok (inl Null_aggregator).

(** [argv] without the program's name [prog]; [peek] is what the standard
    input holds. *)
Definition main (prog : bytes) (argv : list bytes) (peek : Z) (w : W) (lh : log_heap F H) :
    main_outcome DB W * bytes :=
  let '(s, parsed, printed) := parse_arg_options ub_front prog argv program_options default_settings in
  (if negb parsed then return_code 1 (db s)
   else
     match (log_create default_formatter default_handler queue_size_ok stdout_sink
              !"quitsies" (log_level s) lh).2 with
     | Thrown e => Terminates e
     | Ok _ =>
         match make_stats s with
         | Thrown e => Terminates e
         | Ok stats =>
             match open (Some stats) peek w (db s) with
             | (_, Thrown _, r) => return_code 1 r
             | (w, Ok _, r) => Serves (set_db r s) w
             end
         end
     end, printed).
End Main.
