(* ===== verification/ServiceFacts.v ===== *)
(** * The program's command line and its exits: theorems *)
From S2P Require Import Prelude Cxx StdMap OptionHandler Options OptionsFacts Logging.
From S2P Require Import Statsd Aggregator Rocks RocksFacts RocksHttp Service.

Open Scope Z_scope.

(** ** The command line *)
Section CommandLine.
Context {C : Type}.
Variable ub_front : bytes -> exc (list bytes).

Lemma arg_ok_forall (os : list (option_ptr C)) args :
  Forall (arg_ok os) args ->
  Forall (fun o => Forall (fun a => fits (declared o) a /\ parses a o) args) os.
Proof.
  rewrite !Forall_forall. intros Ha o Ho. rewrite Forall_forall. intros a Hin.
  destruct (Ha a Hin) as (_ & _ & Hf). rewrite Forall_forall in Hf. auto.
Qed.

(** The handler after all the declarations. *)
Lemma register_all_args options args :
  table_ok (C := C) (all_options options) -> Forall (arg_ok (all_options options)) args ->
  exists h, register_all ub_front (render_args args) options = Ok h
    /\ get_option !"help" h = false
    /\ holds (parsed_input h) (fun n =>
         if decide (n ∈ opt_name <$> all_options options) then last_given n args else None).
Proof.
  intros [Hs Hnd Hh] Ha. set (os := all_options options) in *.
  pose proof (arg_ok_forall os args Ha) as Hfit. unfold register_all. fold os.
  destruct (register_options_args ub_front os (new_handler (render_args args)) (fun _ => None) args)
    as (h & -> & Hin & Hp); [|done..|by rewrite Forall_forall|].
  { rewrite Forall_forall in Hs, Hfit |- *. intros o Ho. split; [auto|].
    eapply Forall_impl; [by apply Hfit|]. by intros a [? _]. }
  cbn [exc_bind]. unfold add_option, update. cbn [input parsed_input]. rewrite Hin.
  assert (Hnohelp : last_given !"help" args = None).
  { apply last_given_absent. eapply Forall_impl; [exact Ha|]. by intros a [? _]. }
  destruct (update_loop_args ub_front help_declared args (parsed_input h)
    (fun n => if decide (n ∈ opt_name <$> os) then last_given n args else None))
    as (p & Hp' & Hh'); [done|done| |exact Hp| |].
  { eapply Forall_impl; [exact Ha|]. by intros a (_ & ? & _). }
  { rewrite decide_False by done. done. }
  change (input (new_handler (render_args args))) with (render_args args).
  unfold help_declared in Hp'. rewrite Hp'. cbn [exc_bind]. eexists; split; [reflexivity|].
  assert (Hfin : holds p (fun n => if decide (n ∈ opt_name <$> os) then last_given n args else None)).
  { eapply holds_ext; [exact Hh'|]. intros n. unfold pass_map. cbn [long_name help_declared].
    destruct (decide (n = lit "help")) as [->|]; [|done]. by rewrite Hnohelp. }
  split; [|exact Hfin]. erewrite get_option_holds by exact Hfin. cbv beta. by rewrite decide_False by done.
Qed.

(** (C18) The command line round trip.  For any table of options with distinct
    names, and any arguments written the documented way (a flag or a name and
    a value, in any order and number; no value starts with a dash; integers
    are numbers), parsing succeeds, prints nothing, and gives every option
    that was named its last value and the others their defaults. *)
Theorem options_roundtrip prog options args (c : C) :
  table_ok (all_options options) -> Forall (arg_ok (all_options options)) args ->
  parse_arg_options ub_front prog (render_args args) options c =
  (fold_left (assign args) (all_options options) c, true, []).
Proof.
  intros Ht Ha. destruct (register_all_args options args Ht Ha) as (h & Hreg & Hhelp & Hh).
  unfold parse_arg_options. rewrite Hreg, Hhelp.
  rewrite (read_options_assign ub_front (all_options options) h c _ args Hh); [done|].
  pose proof (arg_ok_forall _ _ Ha) as Hfit. rewrite Forall_forall in Hfit |- *.
  intros o Ho. split; [|auto]. rewrite decide_True; [done|]. by apply list_elem_of_fmap_2.
Qed.

(** ** Values that start with a dash *)
Definition is_digit (c : ascii) : Prop := is_Some (digit_val c).
(** Nothing in the table looks like a number. *)
Definition no_numbers (o : option_ptr C) : Prop :=
  opt_short_name o <> dash /\ ~ is_digit (opt_short_name o)
  /\ forall c n, opt_name o = c :: n -> ~ is_digit c.

Lemma dec_negative z : z < 0 -> exists c s, dec z = dash :: c :: s /\ is_digit c
  /\ Forall is_digit s.
Proof.
  intros Hz. unfold dec. rewrite (proj2 (Z.ltb_lt _ _) Hz).
  pose proof (dec_nat_digits (- z) ltac:(lia)) as Hd. pose proof (dec_nat_nonempty (- z)) as Hne.
  destruct (dec_nat (- z)) as [|c s]; [done|]. apply Forall_cons in Hd as [Hc Hs]. eauto.
Qed.
Lemma digit_not_dash c : is_digit c -> c <> dash.
Proof. intros [d Hd] ->. done. Qed.

Lemma dec_negative_dashed z : z < 0 -> dashed (dec z).
Proof.
  intros Hz. destruct (dec_negative z Hz) as (c & s & -> & Hc & _).
  exists c, s. split; [done|]. by apply digit_not_dash.
Qed.
Lemma designates_negative (o : option_ptr C) z :
  z < 0 -> no_numbers o -> opt_name o <> [] -> designates (declared o) (dec z) = Ok false.
Proof.
  intros Hz (Hd & Hs & Hn) Hne. unfold designates.
  rewrite is_option_dashed by (by apply dec_negative_dashed).
  destruct (dec_negative z Hz) as (c & s & -> & Hc & Hall). cbn [exc_bind str_at lookup list_lookup].
  rewrite decide_False by (cbn; intros ->; done). cbn.
  rewrite bool_decide_false; [done|]. rewrite drop_0. intros ->. cbn in *.
  destruct (opt_name o) as [|c' n]; [done|]. apply Forall_cons in Hall as [? _]. by eapply Hn.
Qed.

(** Options of other names pass over the number. *)
Lemma register_skips_negative name z (l : list (option_ptr C)) h :
  z < 0 ->
  Forall (fun o => opt_short_name o <> dash /\ opt_name o <> name
                   /\ no_numbers o /\ opt_name o <> []) l ->
  input h = [long_token name; dec z] ->
  exists h', exc_fold (fun h o => register_option ub_front o h) h l = Ok h'
    /\ input h' = [long_token name; dec z].
Proof.
  intros Hz; revert h; induction l as [|o l IH]; intros h Hl Hin; [by exists h|].
  apply Forall_cons in Hl as [(Hd & Hne & Hn & Hnil) Hl]. cbn [exc_fold].
  unfold register_option at 1, add_option, update. cbn [input parsed_input]. rewrite Hin.
  cbn [update_loop]. fold (declared o).
  rewrite designates_long, bool_decide_false, designates_negative by (done || congruence).
  cbn [exc_bind]. by apply IH.
Qed.

(** Negative numbers.  Whatever integer (or string) option is given a
    negative number, as in [--db_max_open_files -1], the number is taken for
    another option: parsing fails, says the option has no argument, and
    leaves every setting as it was. *)
Theorem negative_value_rejected prog options o1 os2 o z (c : C) :
  all_options options = o1 ++ o :: os2 ->
  table_ok (all_options options) -> opt_type o = REQUIRED ->
  Forall (fun o => no_numbers o /\ opt_name o <> []) (all_options options) -> z < 0 ->
  parse_arg_options ub_front prog [long_token (opt_name o); dec z] options c =
  (c, false, parse_error (no_argument_for_required (opt_name o))).
Proof.
  intros Hos [Hs Hnd _] Hty Hnum Hz. unfold parse_arg_options, register_all. rewrite Hos in *.
  set (argv := [long_token (opt_name o); dec z]).
  destruct (register_skips_negative (opt_name o) z o1 (new_handler argv) Hz) as (h & Hfold & Hin);
    [|done|].
  { rewrite fmap_app in Hnd. apply NoDup_app in Hnd as (_ & Hdis & _).
    rewrite Forall_app, Forall_forall in Hs. rewrite Forall_app, Forall_forall in Hnum.
    rewrite Forall_forall. intros o' Ho'. destruct Hs as [Hs _]. destruct Hnum as [Hnum _].
    split; [auto|]. split; [|auto]. intros Heq. eapply Hdis; [by apply list_elem_of_fmap_2|].
    rewrite Heq. by left. }
  rewrite exc_fold_app, Hfold. cbn [exc_bind exc_fold].
  unfold register_option at 1, add_option, update. cbn [input parsed_input]. rewrite Hin.
  unfold argv. cbn [update_loop]. fold (declared o).
  apply Forall_app in Hs as [_ Hs]. apply Forall_cons in Hs as [Hs _].
  rewrite designates_long, bool_decide_true by done. cbn [exc_bind].
  unfold declared. rewrite Hty. cbn [type].
  unfold update_required. rewrite is_option_dashed by (by apply dec_negative_dashed). done.
Qed.
End CommandLine.

(** ** The program's own table *)
Section Program.
Context {DB : Type}.

Lemma program_table_ok : table_ok (all_options (program_options (DB := DB))).
Proof.
  split.
  - vm_compute. repeat constructor; discriminate.
  - apply (bool_decide_unpack _). vm_compute. exact I.
  - apply (bool_decide_unpack _). vm_compute. exact I.
Qed.
Lemma program_no_numbers :
  Forall (fun o => no_numbers o /\ opt_name o <> []) (all_options (program_options (DB := DB))).
Proof.
  repeat (constructor; [split; [split; [discriminate|split; [by intros [? [=]]|]]|discriminate]|]);
    [..|constructor]; intros c n [= <- _] [d Hd]; discriminate.
Qed.

(** No option touches the database pointer. *)
Lemma read_option_db h (s s' : settings DB) o :
  o ∈ all_options program_options -> read_option h s o = Ok s' -> _db (db s') = _db (db s).
Proof.
  intros Ho. unfold read_option.
  repeat (apply elem_of_cons in Ho as [->|Ho]; [cbn; repeat case_match;
    unfold exc_bind; intros; repeat case_match; by simplify_eq|]).
  by apply not_elem_of_nil in Ho.
Qed.
Lemma read_options_db h os (s : settings DB) :
  (forall o, o ∈ os -> o ∈ all_options program_options) ->
  _db (db (read_options h os s).1) = _db (db s).
Proof.
  revert s; induction os as [|o os IH]; intros s Hos; cbn [read_options]; [done|].
  destruct (read_option h s o) as [s'|e] eqn:E; [|done].
  rewrite IH by (intros; apply Hos; by right). eapply read_option_db; [apply Hos; by left|done].
Qed.
Lemma parse_db ub prog argv (s : settings DB) :
  _db (db (parse_arg_options ub prog argv program_options s).1.1) = _db (db s).
Proof.
  unfold parse_arg_options. destruct (register_all _ _ _) as [h|e]; [|done].
  destruct (get_option _ h); [done|].
  pose proof (read_options_db h (all_options program_options) s (fun o Ho => Ho)) as Hr.
  destruct (read_options _ _ s) as [s' [u|e]]; exact Hr.
Qed.
End Program.

Section MainTheorem.
Context {W DB F H : Type} `{RocksDB DB} `{RocksEnv W DB}.
Variable ub_front : bytes -> exc (list bytes).
Variables (default_formatter : F) (default_handler : H) (queue_size_ok : Z -> bool) (stdout_sink : nat).
Variable resolve_and_open : bytes -> bytes -> exc unit.

(** The world in which the database is opened, when no restore is asked for,
    or the one that is asked for is confirmed and succeeds. *)
Definition restores (peek : Z) (w : W) (r : rocks DB any_aggregator) : option W :=
  if negb (_restore r) then Some w
  else if negb (restore_confirmed peek) then None
  else
    let '(w, s, e) := BackupEngineReadOnly_Open (DB := DB) (_path r ++ !"_backup") w in
    if negb (s_ok s) then None
    else let '(w, s) := RestoreDBFromLatestBackup (DB := DB) e (_path r) w in if s_ok s then Some w else None.
(** What RocksDB answers when it is asked to open the database there. *)
Definition opens (w : W) (r : rocks DB any_aggregator) : W * rstatus * DB :=
  DBWithTTL_Open
    (DbOptions (_write_mode r) (_memtable r) (_block_cap r) (_shard_bits r) (_max_files r) (_debug r || _rocks_stats r))
    (_path r) (if _ttl r =? 0 then -1 else _ttl r) w.

(** How [open] ends, for the object [main] gives it, and what its destructor
    then does. *)
Lemma open_exact (stats : any_aggregator) peek (w w' : W) r r' x :
  _db r = Dangling -> open (Some stats) peek w r = (w', x, r') ->
  match restores peek w r with
  | None => exists e, x = Thrown e /\ destroy r' = None
  | Some w1 =>
      if s_ok (opens w1 r).1.2
      then x = Ok tt /\ _db r' = Ptr (opens w1 r).2 /\ _local_stats r' = Some (agg_on_epoch RocksEpoch stats)
      else (exists e, x = Thrown e) /\ is_Some (destroy r')
  end.
Proof.
  intros Hd. unfold open, restores, opens. destruct r as [path ttl mt sb bc mf dbg wm re db0 ls rs lg mx].
  cbn in Hd. subst db0. cbn.
  assert (Hdb : forall w1 lg1 w' x r', open_db w1 (Rocks path ttl mt sb bc mf dbg wm re Dangling (Some stats) rs lg1 mx) = (w', x, r') ->
    let o := DBWithTTL_Open (DbOptions wm mt bc sb mf (dbg || rs)) path (if ttl =? 0 then -1 else ttl) w1 in
    if s_ok o.1.2
    then x = Ok tt /\ _db r' = Ptr o.2 /\ _local_stats r' = Some (agg_on_epoch RocksEpoch stats)
    else (exists e, x = Thrown e) /\ is_Some (destroy r')).
  { intros w1 lg1 w1' x1 r1. unfold open_db, debug_stats, normalise_ttl, open_options. 
    destruct dbg; cbn; destruct (DBWithTTL_Open _ _ _ _) as [[w2 s] d]; cbn;
      destruct (s_ok s); cbn; intros [= <- <- <-]; cbn; eauto. }
  destruct re; cbn [negb]; [|apply Hdb]. unfold restore_backup. cbn.
  destruct (restore_confirmed peek); cbn [negb]; [|intros [= <- <- <-]; eauto].
  destruct (BackupEngineReadOnly_Open _ _) as [[w1 s] e]. destruct (s_ok s) eqn:Hs; cbn [negb].
  - destruct (RestoreDBFromLatestBackup _ _ _) as [w2 s2]. destruct (s_ok s2); cbn [negb]; [apply Hdb|].
    intros [= <- <- <-]. eauto.
  - rewrite Hs. intros [= <- <- <-]. eauto.
Qed.

(** How the program starts or ends early.  [main] serves exactly when the
    command line was good, the logger and the aggregator could be made and
    RocksDB opened the database, after a restore if one was asked for; the
    epoch function is then registered on that aggregator.  It returns its exit
    code (1) exactly when RocksDB refused to open.  On the help page, a bad
    command line, or a restore that is refused or fails, the destructor of the
    store deletes a pointer that was never assigned.  An exception ends the
    process while the logger or the aggregator is created. *)
Lemma main_outcomes prog argv peek (w : W) (lh : log_heap F H) :
  let '(s, parsed, _) := parse_arg_options ub_front prog argv (program_options (DB := DB)) default_settings in
  let created := (log_create default_formatter default_handler queue_size_ok stdout_sink
                    !"quitsies" (log_level s) lh).2 in
  let o := (main ub_front default_formatter default_handler queue_size_ok stdout_sink resolve_and_open
              prog argv peek w lh).1 in
  if negb parsed then o = UndefinedExit
  else match created, make_stats resolve_and_open s, restores peek w (db s) with
       | Thrown e, _, _ | Ok _, Thrown e, _ => o = Terminates e
       | Ok _, Ok _, None => o = UndefinedExit
       | Ok _, Ok a, Some w1 =>
           if s_ok (opens w1 (db s)).1.2
           then exists r w2, o = Serves (set_db r s) w2 /\ _db r = Ptr (opens w1 (db s)).2
                  /\ _local_stats r = Some (agg_on_epoch RocksEpoch a)
           else o = Exits 1
       end.
Proof.
  unfold main. pose proof (parse_db ub_front prog argv default_settings (DB := DB)) as Hdang.
  destruct (parse_arg_options _ _ _ _ _) as [[s ok] printed]. cbn [fst snd] in *. cbv zeta.
  destruct ok; cbn [negb fst]; [|unfold return_code, destroy; by rewrite Hdang].
  destruct (log_create _ _ _ _ _ _ _) as [lh' [p|e]]; cbn [snd]; [|done].
  destruct (make_stats resolve_and_open s) as [a|e]; [|done].
  destruct (open _ peek w (db s)) as [[w' x] r'] eqn:Hopen.
  apply open_exact in Hopen; [|by rewrite Hdang]. destruct (restores peek w (db s)) as [w1|].
  - destruct (s_ok (opens w1 (db s)).1.2).
    + destruct Hopen as (-> & Hd & Hs). eauto 10.
    + destruct Hopen as [[e ->] [r1 Hr]]. unfold return_code. by rewrite Hr.
  - destruct Hopen as (e & -> & Hn). unfold return_code. by rewrite Hn.
Qed.
End MainTheorem.

(** *** Concrete command lines *)
Definition no_ub : bytes -> exc (list bytes) := fun _ => Ok [].
Definition demo_args : list arg :=
  [AValue !"tcp_port" !"11212"; AFlag !"db_debug"; AValue !"db_ttl" !"3600";
   AValue !"tcp_port" !"11213"].

Lemma options_roundtrip_witness :
  parse_arg_options no_ub !"quitsies" (render_args demo_args) program_options
    (default_settings (DB := mem_db))
  = (fold_left (assign demo_args) (all_options program_options) default_settings, true, []).
Proof.
  refine (options_roundtrip no_ub !"quitsies" program_options demo_args default_settings
            program_table_ok _).
  assert (Hplain : plain_value !"11212" /\ plain_value !"3600" /\ plain_value !"11213")
    by (split_and!; eexists _, _; by split).
  destruct Hplain as (H1 & H2 & H3).
  repeat (apply Forall_cons; split); [..|by constructor];
    (split; [discriminate|]; split; [cbn; try split; try done; discriminate|]);
    repeat (apply Forall_cons; split; [split; [cbn; try split; done || discriminate|cbn; try done;
      try discriminate; try (intros _; eexists; reflexivity)]|]); by constructor.
Defined.

Lemma negative_value_rejected_witness :
  parse_arg_options no_ub !"quitsies" [ !"--db_max_open_files"; !"-1" ] program_options
    (default_settings (DB := mem_db))
  = (default_settings, false, parse_error (no_argument_for_required !"db_max_open_files")).
Proof.
  refine (negative_value_rejected no_ub !"quitsies" program_options
    (take 13 (all_options program_options)) (drop 14 (all_options program_options))
    (int_option qmark !"db_max_open_files" !"Max # of open files, -1 is unlimited."
      (rocks_int_pointer 1)) (-1) default_settings eq_refl program_table_ok eq_refl
    program_no_numbers _). reflexivity.
Defined.
