(* ===== verification/MpmcQueue.v ===== *)
(** * The bounded queue of the asynchronous logger,
      [src/src/spdlog/details/mpmc_bounded_q.h]

    The lock-free queue of many producers and consumers, one atomic access of
    shared memory per step: the threads' program counters are the places of
    [enqueue] and [dequeue] between two accesses.  Positions and sequence
    numbers are 64-bit; memory is sequentially consistent here ([WeakQueue] has
    the relaxed, acquire and release orders of the code), and
    [compare_exchange_weak] may fail spuriously. *)
From S2P Require Import Prelude.

Open Scope Z_scope.

(** The test of the constructor. *)
Definition queue_size_ok (buffer_size : Z) : bool :=
  (2 <=? buffer_size) && (Z.land buffer_size (buffer_size - 1) =? 0).

Section Queue.
Context {T : Type}.

(** [cell_t]: [None] is a default or moved-from [data_]. *)
Record cell := Cell { sequence : Z; data : option T }.

(** Where a thread is: [enqueue] before loading the position, before loading
    the sequence of its cell, before the exchange, before writing the data,
    before publishing it; [dequeue] likewise. *)
Inductive qpc :=
| Idle
| ELoadPos (v : T)
| ELoadSeq (v : T) (pos : Z)
| ECas (v : T) (pos : Z)
| EWrite (v : T) (pos : Z)
| EStore (pos : Z)
| DLoadPos
| DLoadSeq (pos : Z)
| DCas (pos : Z)
| DRead (pos : Z)
| DStore (pos : Z) (v : option T).

(** What a call returned: [enqueue]'s boolean, [dequeue]'s position and data,
    or its [false]. *)
Inductive returned := EnqTrue (pos : Z) | EnqFalse | DeqTrue (pos : Z) (v : option T) | DeqFalse.

(** The queue, its threads and, for the statements, the values in the order
    of the positions their [enqueue] won, and what the calls returned. *)
Record queue := Queue {
  buffer_ : list cell;
  buffer_mask_ : Z;
  enqueue_pos_ : Z;
  dequeue_pos_ : Z;
  q_threads : gmap nat qpc;
  q_in : list T;
  q_returns : list returned
}.

Definition new_queue (buffer_size : Z) : exc queue :=
  if queue_size_ok buffer_size then
    Ok (Queue ((fun i => Cell (Z.of_nat i) None) <$> seq 0 (Z.to_nat buffer_size))
          (buffer_size - 1) 0 0 ∅ [] [])
  else Thrown (spdlog_ex !"async logger queue size must be power of two").

(** [&buffer_[pos & buffer_mask_]] *)
Definition cell_index (pos : Z) (q : queue) : nat := Z.to_nat (Z.land pos (buffer_mask_ q)).
Definition cell_at (pos : Z) (q : queue) : cell :=
  default (Cell 0 None) (buffer_ q !! cell_index pos q).

Definition goto (t : nat) (pc : qpc) (q : queue) : queue :=
  Queue (buffer_ q) (buffer_mask_ q) (enqueue_pos_ q) (dequeue_pos_ q) (<[t := pc]> (q_threads q))
    (q_in q) (q_returns q).
Definition ret (t : nat) (r : returned) (q : queue) : queue :=
  Queue (buffer_ q) (buffer_mask_ q) (enqueue_pos_ q) (dequeue_pos_ q) (<[t := Idle]> (q_threads q))
    (q_in q) (q_returns q ++ [r]).
Definition set_cell (pos : Z) (c : cell) (q : queue) : queue :=
  Queue (<[cell_index pos q := c]> (buffer_ q)) (buffer_mask_ q) (enqueue_pos_ q) (dequeue_pos_ q)
    (q_threads q) (q_in q) (q_returns q).
(** The exchanges that succeed. *)
Definition win_enqueue (v : T) (q : queue) : queue :=
  Queue (buffer_ q) (buffer_mask_ q) (u64 (enqueue_pos_ q + 1)) (dequeue_pos_ q) (q_threads q)
    (q_in q ++ [v]) (q_returns q).
Definition win_dequeue (q : queue) : queue :=
  Queue (buffer_ q) (buffer_mask_ q) (enqueue_pos_ q) (u64 (dequeue_pos_ q + 1)) (q_threads q)
    (q_in q) (q_returns q).

(** A choice of the scheduler for one thread: a new call when it is idle, or
    its next access ([spurious] makes a weak exchange fail). *)
Inductive choice := CallEnqueue (v : T) | CallDequeue | Access (spurious : bool).

(** [(intptr_t)a - (intptr_t)b] *)
Definition dif (a b : Z) : Z := i64 (i64 a - i64 b).

Definition access (t : nat) (spurious : bool) (pc : qpc) (q : queue) : queue :=
  match pc with
  | Idle => q
  | ELoadPos v => goto t (ELoadSeq v (enqueue_pos_ q)) q
  | ELoadSeq v pos =>
      let d := dif (sequence (cell_at pos q)) pos in
      if d =? 0 then goto t (ECas v pos) q
      else if d <? 0 then ret t EnqFalse q
      else goto t (ELoadPos v) q
  | ECas v pos =>
      if (enqueue_pos_ q =? pos) && negb spurious
      then goto t (EWrite v pos) (win_enqueue v q)
      else goto t (ELoadSeq v (enqueue_pos_ q)) q
  | EWrite v pos =>
      goto t (EStore pos) (set_cell pos (Cell (sequence (cell_at pos q)) (Some v)) q)
  | EStore pos =>
      ret t (EnqTrue pos) (set_cell pos (Cell (u64 (pos + 1)) (data (cell_at pos q))) q)
  | DLoadPos => goto t (DLoadSeq (dequeue_pos_ q)) q
  | DLoadSeq pos =>
      let d := dif (sequence (cell_at pos q)) (u64 (pos + 1)) in
      if d =? 0 then goto t (DCas pos) q
      else if d <? 0 then ret t DeqFalse q
      else goto t DLoadPos q
  | DCas pos =>
      if (dequeue_pos_ q =? pos) && negb spurious
      then goto t (DRead pos) (win_dequeue q)
      else goto t (DLoadSeq (dequeue_pos_ q)) q
  | DRead pos =>
      goto t (DStore pos (data (cell_at pos q)))
        (set_cell pos (Cell (sequence (cell_at pos q)) None) q)
  | DStore pos v =>
      ret t (DeqTrue pos v)
        (set_cell pos (Cell (u64 (pos + buffer_mask_ q + 1)) (data (cell_at pos q))) q)
  end.

Definition thread (t : nat) (q : queue) : qpc := default Idle (q_threads q !! t).

Definition q_step (t : nat) (c : choice) (q : queue) : option queue :=
  match c, thread t q with
  | CallEnqueue v, Idle => Some (goto t (ELoadPos v) q)
  | CallDequeue, Idle => Some (goto t DLoadPos q)
  | Access spurious, pc => Some (access t spurious pc q)
  | _, _ => None
  end.
Fixpoint q_run (sched : list (nat * choice)) (q : queue) : option queue :=
  match sched with
  | [] => Some q
  | (t, c) :: sched => match q_step t c q with Some q => q_run sched q | None => None end
  end.

(** [approx_size]: two loads, which other threads' steps may separate; here
    for a quiet queue. *)
Definition approx_size (q : queue) : Z :=
  let first_pos := dequeue_pos_ q in
  let last_pos := enqueue_pos_ q in
  if last_pos <=? first_pos then 0
  else let size := u64 (last_pos - first_pos) in
       if size <? buffer_mask_ q + 1 then size else buffer_mask_ q + 1.
End Queue.
Arguments queue T : clear implicits.
Arguments qpc T : clear implicits.
Arguments choice T : clear implicits.
Arguments returned T : clear implicits.
