(* ===== verification/MpmcQueueFacts.v ===== *)
(** * The bounded queue: it is a FIFO of at most [buffer_size] values

    The invariant assigns a phase to every cell; one lemma per kind of step
    preserves it. *)
From S2P Require Import Prelude MpmcQueue.

Open Scope Z_scope.

(** ** Sizes *)
Lemma queue_size_pow2 n : queue_size_ok n = true -> exists k, 1 <= k /\ n = 2 ^ k.
Proof.
  unfold queue_size_ok. intros H. bool_to_prop. exists (Z.log2 n).
  assert (1 <= Z.log2 n) by (change 1 with (Z.log2 2); apply Z.log2_le_mono; lia).
  split; [done|]. pose proof (Z.log2_spec n ltac:(lia)) as [Hlo Hhi].
  destruct (Z.eq_dec n (2 ^ Z.log2 n)) as [|Hne]; [done|exfalso].
  assert (Hl : Z.log2 (n - 1) = Z.log2 n) by (apply Z.log2_unique; lia).
  assert (Hb : Z.testbit (Z.land n (n - 1)) (Z.log2 n) = true).
  { rewrite Z.land_spec, Z.bit_log2 by lia. rewrite <- Hl at 1. by rewrite Z.bit_log2 by lia. }
  rewrite H0, Z.bits_0 in Hb. done.
Qed.

Lemma dif_small a b : 0 <= a <= 2 ^ 62 -> 0 <= b <= 2 ^ 62 -> dif a b = a - b.
Proof. intros. unfold dif. rewrite (i64_id a), (i64_id b), i64_id; unfold llong_min, llong_max; lia. Qed.

Inductive phase := Free (p : Z) | Writing (p : Z) (written : bool) | Full (p : Z)
| Reading (p : Z) (taken : bool).
Definition phase_pos (f : phase) : Z :=
  match f with Free p | Writing p _ | Full p | Reading p _ => p end.

Section Invariant.
Context {T : Type}.
Variables (size k : Z).
Hypothesis size_pow : size = 2 ^ k.
Hypothesis k_pos : 1 <= k.
Implicit Types q : queue T.

Lemma size_ge_2 : 2 <= size.
Proof. subst size. change 2 with (2 ^ 1) at 1. apply Z.pow_le_mono_r; lia. Qed.

Definition idx (p : Z) : nat := Z.to_nat (p mod size).
Lemma idx_lt p : (idx p < Z.to_nat size)%nat.
Proof. pose proof size_ge_2. unfold idx. pose proof (Z.mod_pos_bound p size). lia. Qed.
Lemma idx_inj p p' : idx p = idx p' -> p mod size = p' mod size.
Proof.
  pose proof size_ge_2. unfold idx. intros Heq.
  pose proof (Z.mod_pos_bound p size). pose proof (Z.mod_pos_bound p' size). lia.
Qed.
(** Positions of one cell that are less than a lap apart are equal. *)
Lemma mod_near p p' : p mod size = p' mod size -> - size < p - p' < size -> p = p'.
Proof.
  pose proof size_ge_2. intros Heq Hb.
  assert (Hm : (p - p') mod size = 0) by (rewrite Zminus_mod, Heq, Z.sub_diag; by apply Z.mod_0_l; lia).
  apply Z.div_exact in Hm; [|lia]. assert ((p - p') / size = 0); [|lia].
  assert (-1 < (p - p') / size < 1); [|lia].
  split; [|apply Z.div_lt_upper_bound; lia].
  assert (-1 * size < size * ((p - p') / size)) by lia. nia.
Qed.
Lemma idx_add_size p : idx (p + size) = idx p.
Proof. pose proof size_ge_2. unfold idx. f_equal. rewrite <- (Z.mul_1_l size) at 1. by rewrite Z.mod_add by lia. Qed.
Lemma cell_index_idx q p : buffer_mask_ q = size - 1 -> cell_index p q = idx p.
Proof.
  intros Hm. unfold cell_index, idx. rewrite Hm, size_pow.
  replace (2 ^ k - 1) with (Z.ones k) by (rewrite Z.ones_equiv; lia).
  by rewrite Z.land_ones by lia.
Qed.

(** What a phase says of the positions and of the cell. *)
Definition phase_ok (E D : Z) (f : phase) : Prop :=
  0 <= phase_pos f /\
  match f with
  | Free p => E <= p < E + size /\ p - size < D
  | Writing p _ | Full p => E - size <= p < E /\ D <= p
  | Reading p _ => E - size <= p < E /\ p < D
  end.
Definition phase_cell (log : list T) (f : phase) : cell (T := T) :=
  match f with
  | Free p | Writing p false => Cell p None
  | Writing p true => Cell p (log !! Z.to_nat p)
  | Full p | Reading p false => Cell (p + 1) (log !! Z.to_nat p)
  | Reading p true => Cell (p + 1) None
  end.

(** The cell a thread owns. *)
Definition owner (pc : qpc T) : option phase :=
  match pc with
  | EWrite _ p => Some (Writing p false)
  | EStore p => Some (Writing p true)
  | DRead p => Some (Reading p false)
  | DStore p _ => Some (Reading p true)
  | _ => None
  end.

Definition thread_ok (E D : Z) (log : list T) (ph : nat -> phase) (pc : qpc T) : Prop :=
  match owner pc with
  | Some f => ph (idx (phase_pos f)) = f
  | None => True
  end /\
  match pc with
  | ELoadSeq _ pos => 0 <= pos <= E
  | ECas _ pos => 0 <= pos <= E /\ (pos = E -> ph (idx pos) = Free pos)
  | DLoadSeq pos => 0 <= pos <= D
  | DCas pos => 0 <= pos <= D /\ (pos = D -> ph (idx pos) = Full pos)
  | EWrite v p => log !! Z.to_nat p = Some v
  | DStore p v => v = log !! Z.to_nat p
  | _ => True
  end.

Definition dequeued (r : returned T) : option Z :=
  match r with DeqTrue p _ => Some p | _ => None end.
Definition return_ok (D : Z) (log : list T) (ph : nat -> phase) (r : returned T) : Prop :=
  match r with
  | DeqTrue p v => 0 <= p < D /\ v = log !! Z.to_nat p /\ p < phase_pos (ph (idx p))
  | _ => True
  end.
(** Position [p] was dequeued by a call that has returned, or that is copying
    the data out. *)
Definition taken (q : queue T) (p : Z) : Prop :=
  (exists v, DeqTrue p v ∈ q_returns q)
  \/ (exists t f, owner (thread t q) = Some f /\ phase_pos f = p /\ exists b, f = Reading p b).

Record inv (ph : nat -> phase) (q : queue T) : Prop := {
  i_mask : buffer_mask_ q = size - 1;
  i_length : length (buffer_ q) = Z.to_nat size;
  i_enqueue : enqueue_pos_ q = len (q_in q);
  i_bound : len (q_in q) + size <= 2 ^ 62;
  i_dequeue : 0 <= dequeue_pos_ q <= enqueue_pos_ q;
  i_full : enqueue_pos_ q - dequeue_pos_ q <= size;
  i_cells : forall i, (i < Z.to_nat size)%nat ->
    idx (phase_pos (ph i)) = i /\ phase_ok (enqueue_pos_ q) (dequeue_pos_ q) (ph i)
    /\ buffer_ q !! i = Some (phase_cell (q_in q) (ph i));
  i_threads : forall t, thread_ok (enqueue_pos_ q) (dequeue_pos_ q) (q_in q) ph (thread t q);
  i_owners : forall t1 t2 f1 f2, owner (thread t1 q) = Some f1 -> owner (thread t2 q) = Some f2 ->
    phase_pos f1 = phase_pos f2 -> t1 = t2;
  i_returns : Forall (return_ok (dequeue_pos_ q) (q_in q) ph) (q_returns q);
  i_nodup : NoDup (omap dequeued (q_returns q));
  i_taken : forall p, 0 <= p < dequeue_pos_ q -> taken q p
}.

(** ** Reading a cell *)
Lemma cell_at_phase ph q p :
  inv ph q -> cell_at p q = phase_cell (q_in q) (ph (idx p)).
Proof.
  intros Hi. unfold cell_at. rewrite cell_index_idx by apply (i_mask _ _ Hi).
  destruct (i_cells _ _ Hi (idx p) (idx_lt p)) as (_ & _ & ->). done.
Qed.
Lemma phase_at ph q p :
  inv ph q -> phase_pos (ph (idx p)) mod size = p mod size
    /\ phase_ok (enqueue_pos_ q) (dequeue_pos_ q) (ph (idx p)).
Proof.
  intros Hi. destruct (i_cells _ _ Hi (idx p) (idx_lt p)) as (Hx & Hok & _).
  split; [by apply idx_inj|done].
Qed.
Lemma small_positions ph q :
  inv ph q -> 0 <= enqueue_pos_ q <= 2 ^ 62 - size /\ 0 <= dequeue_pos_ q <= enqueue_pos_ q.
Proof.
  intros Hi. pose proof (i_bound _ _ Hi). pose proof (i_enqueue _ _ Hi). pose proof (i_dequeue _ _ Hi).
  lia.
Qed.
Lemma sequence_small ph q p :
  inv ph q -> 0 <= sequence (cell_at p q) <= 2 ^ 62.
Proof.
  intros Hi. rewrite (cell_at_phase ph) by done. destruct (phase_at ph q p Hi) as [_ [Hp Hok]].
  pose proof (small_positions ph q Hi). pose proof size_ge_2.
  destruct (ph (idx p)) as [p'|p' []|p'|p' []]; simpl in *; lia.
Qed.

(** ** Steps that only move the program counter *)
Lemma thread_goto t t' pc q : thread t' (goto t pc q) = if decide (t' = t) then pc else thread t' q.
Proof.
  unfold thread, goto; simpl. case_decide as Ht; [subst; by rewrite lookup_insert_eq|].
  by rewrite lookup_insert_ne.
Qed.
Lemma inv_goto ph q t pc :
  inv ph q -> owner (thread t q) = None -> owner pc = None ->
  thread_ok (enqueue_pos_ q) (dequeue_pos_ q) (q_in q) ph pc -> inv ph (goto t pc q).
Proof.
  intros [] Hold Hnew Hok. split; try done.
  - intros t'. rewrite thread_goto. by case_decide.
  - intros t1 t2 f1 f2. rewrite !thread_goto. repeat case_decide; try congruence. eauto.
  - intros p Hp. destruct (i_taken0 p Hp) as [|(t' & f & Ho & Hf)]; [by left|right].
    exists t', f. rewrite thread_goto. case_decide; [congruence|done].
Qed.
Lemma inv_ret_false ph q t r :
  inv ph q -> owner (thread t q) = None -> dequeued r = None -> inv ph (ret t r q).
Proof.
  intros Hi Hold Hr. assert (Hg : inv ph (goto t Idle q)) by (by apply inv_goto).
  destruct Hg. split; try done; simpl in *.
  - apply Forall_app; split; [done|]. constructor; [by destruct r|constructor].
  - rewrite omap_app. simpl. rewrite Hr. by rewrite app_nil_r.
  - intros p Hp. destruct (i_taken0 p Hp) as [[v Hv]|?]; [|by right].
    left. exists v. simpl in *. set_solver.
Qed.

(** ** Steps of the owner of a cell *)
Definition upd (ph : nat -> phase) (i : nat) (f : phase) : nat -> phase :=
  fun j => if decide (j = i) then f else ph j.
Lemma upd_eq ph i f : upd ph i f i = f.
Proof. unfold upd. by rewrite decide_True. Qed.
Lemma upd_ne ph i j f : j <> i -> upd ph i f j = ph j.
Proof. intros. unfold upd. by rewrite decide_False. Qed.

Definition own_update (t : nat) (pc : qpc T) (p : Z) (c : cell) (rs : list (returned T)) (q : queue T)
    : queue T :=
  Queue (<[cell_index p q := c]> (buffer_ q)) (buffer_mask_ q) (enqueue_pos_ q) (dequeue_pos_ q)
    (<[t := pc]> (q_threads q)) (q_in q) (q_returns q ++ rs).

Lemma owner_phase ph q t f :
  inv ph q -> owner (thread t q) = Some f -> ph (idx (phase_pos f)) = f.
Proof. intros Hi Ho. destruct (i_threads _ _ Hi t) as [Ht _]. by rewrite Ho in Ht. Qed.
Lemma owner_cases (pc : qpc T) f :
  owner pc = Some f -> (forall p, f <> Free p) /\ (forall p, f <> Full p).
Proof. destruct pc; simpl; intros [= <-]; split; discriminate. Qed.

(** Another thread does not notice. *)
Lemma thread_ok_upd ph q t t' old new :
  inv ph q -> owner (thread t q) = Some old -> t' <> t ->
  thread_ok (enqueue_pos_ q) (dequeue_pos_ q) (q_in q) (upd ph (idx (phase_pos old)) new) (thread t' q).
Proof.
  intros Hi Ho Hne. pose proof (owner_phase _ _ _ _ Hi Ho) as Hold.
  destruct (owner_cases _ _ Ho) as [Hfree Hfull].
  destruct (i_threads _ _ Hi t') as [Hown Hpc]. split.
  - destruct (owner (thread t' q)) as [f|] eqn:Ho'; [|done].
    rewrite upd_ne; [done|]. intros Heq. rewrite Heq, Hold in Hown. subst f.
    apply Hne. by eapply (i_owners _ _ Hi).
  - destruct (thread t' q); try done.
    + destruct Hpc as [Hb Hp]. split; [done|]. intros ->. rewrite upd_ne; [by apply Hp|].
      intros Heq. rewrite <- Heq, Hp in Hold by done. by eapply Hfree.
    + destruct Hpc as [Hb Hp]. split; [done|]. intros ->. rewrite upd_ne; [by apply Hp|].
      intros Heq. rewrite <- Heq, Hp in Hold by done. by eapply Hfull.
Qed.

Lemma thread_own t t' pc p c rs q :
  thread t' (own_update t pc p c rs q) = if decide (t' = t) then pc else thread t' q.
Proof.
  unfold thread, own_update; simpl. case_decide as Ht; [subst; by rewrite lookup_insert_eq|].
  by rewrite lookup_insert_ne.
Qed.

Lemma inv_own ph q t pc old new rs :
  inv ph q -> owner (thread t q) = Some old ->
  idx (phase_pos new) = idx (phase_pos old) -> phase_pos old <= phase_pos new ->
  phase_ok (enqueue_pos_ q) (dequeue_pos_ q) new ->
  (owner pc = Some new \/ owner pc = None) -> (owner pc = Some new -> phase_pos new = phase_pos old) ->
  thread_ok (enqueue_pos_ q) (dequeue_pos_ q) (q_in q) (upd ph (idx (phase_pos old)) new) pc ->
  Forall (return_ok (dequeue_pos_ q) (q_in q) (upd ph (idx (phase_pos old)) new)) rs ->
  NoDup (omap dequeued (q_returns q ++ rs)) ->
  (forall p b, old = Reading p b -> (exists v, DeqTrue p v ∈ rs) \/ exists b', owner pc = Some (Reading p b')) ->
  inv (upd ph (idx (phase_pos old)) new)
    (own_update t pc (phase_pos old) (phase_cell (q_in q) new) rs q).
Proof.
  intros Hi Ho Hidx Hmono Hok Hpc Hpos Hth Hrs Hnd Htk. pose proof (owner_phase _ _ _ _ Hi Ho) as Hold.
  set (i := idx (phase_pos old)) in *.
  assert (Hci : cell_index (phase_pos old) q = i) by (apply cell_index_idx, (i_mask _ _ Hi)).
  split; simpl; try apply Hi.
  - rewrite length_insert. apply Hi.
  - intros j Hj. rewrite Hci. destruct (decide (j = i)) as [Heq|Hne].
    + rewrite Heq, upd_eq, list_lookup_insert_eq; [done|]. rewrite (i_length _ _ Hi). lia.
    + rewrite upd_ne, list_lookup_insert_ne by done. by apply (i_cells _ _ Hi).
  - intros t'. rewrite thread_own. case_decide; [done|]. by apply thread_ok_upd with t.
  - intros t1 t2 f1 f2. rewrite !thread_own.
    assert (Hother : forall t' f, owner (thread t' q) = Some f -> owner pc = Some new ->
      phase_pos new = phase_pos f -> t' = t).
    { intros t' f Hf Hn Hp. eapply (i_owners _ _ Hi); [exact Hf|exact Ho|]. rewrite <- Hp. by apply Hpos. }
    destruct (decide (t1 = t)) as [E1|E1], (decide (t2 = t)) as [E2|E2]; intros H1 H2 Hp;
      rewrite ?E1, ?E2; try done.
    + symmetry. destruct Hpc as [Hn|Hn]; rewrite Hn in H1; [|done]. injection H1 as <-. eauto.
    + destruct Hpc as [Hn|Hn]; rewrite Hn in H2; [|done]. injection H2 as <-. eauto.
    + by eapply (i_owners _ _ Hi).
  - apply Forall_app; split; [|done]. eapply Forall_impl; [apply (i_returns _ _ Hi)|].
    intros [p| |p v|]; try done. intros (Hb & Hv & Hp). split; [done|]. split; [done|].
    unfold upd. case_decide as Hj; [|done]. rewrite Hj, Hold in Hp. lia.
  - exact Hnd.
  - intros p Hp. destruct (i_taken _ _ Hi p Hp) as [[v Hv]|(t' & f & Hf & Hfp & b & Hfb)].
    + left. exists v. simpl. set_solver.
    + destruct (decide (t' = t)) as [->|Hne].
      * rewrite Ho in Hf. injection Hf as Hf. rewrite Hfb in Hf.
        destruct (Htk _ _ Hf) as [[v Hv]|[b' Hb]].
        -- left. exists v. simpl. set_solver.
        -- right. exists t, (Reading p b'). rewrite thread_own, decide_True by done. eauto.
      * right. exists t', f. rewrite thread_own, decide_False by done. eauto.
Qed.

(** ** The exchanges that succeed *)
Lemma phase_ok_enqueue E D f :
  phase_ok E D f -> idx (phase_pos f) <> idx E -> phase_ok (E + 1) D f.
Proof.
  intros [Hp Hf] Hne. split; [done|].
  assert (phase_pos f <> E) by (intros Heq; by rewrite Heq in Hne).
  assert (phase_pos f <> E - size).
  { intros Heq. apply Hne. by rewrite <- (idx_add_size (phase_pos f)), Heq, Z.sub_add. }
  destruct f; simpl in *; lia.
Qed.
Lemma phase_ok_dequeue E D f :
  phase_ok E D f -> idx (phase_pos f) <> idx D -> phase_ok E (D + 1) f.
Proof.
  intros [Hp Hf] Hne. split; [done|].
  assert (phase_pos f <> D) by (intros Heq; by rewrite Heq in Hne).
  destruct f; simpl in *; lia.
Qed.
Lemma log_app (log : list T) v p :
  p < len log -> 0 <= p -> (log ++ [v]) !! Z.to_nat p = log !! Z.to_nat p.
Proof. intros. apply lookup_app_l. unfold len in *. lia. Qed.
Lemma phase_cell_app log v E D f :
  phase_ok E D f -> E = len log -> idx (phase_pos f) <> idx E ->
  phase_cell (log ++ [v]) f = phase_cell log f.
Proof.
  intros [Hp Hf] -> Hne. destruct f as [p|p []|p|p []]; simpl in *; try done;
    rewrite log_app by lia; done.
Qed.

(** A thread that owns no cell with a free or full phase in it. *)
Lemma owner_elsewhere ph q t f i g :
  inv ph q -> owner (thread t q) = Some f -> ph i = g ->
  (exists p, g = Free p \/ g = Full p) -> idx (phase_pos f) <> i.
Proof.
  intros Hi Ho Hg Hp Heq. pose proof (owner_phase _ _ _ _ Hi Ho) as Hf. rewrite Heq, Hg in Hf.
  destruct (owner_cases _ _ Ho) as [H1 H2]. destruct Hp as (p & [->| ->]); [by eapply H1|by eapply H2].
Qed.

Lemma thread_ok_enqueue ph q t v :
  inv ph q -> ph (idx (enqueue_pos_ q)) = Free (enqueue_pos_ q) ->
  thread_ok (enqueue_pos_ q + 1) (dequeue_pos_ q) (q_in q ++ [v])
    (upd ph (idx (enqueue_pos_ q)) (Writing (enqueue_pos_ q) false)) (thread t q).
Proof.
  intros Hi Hfree. set (E := enqueue_pos_ q) in *.
  pose proof (i_enqueue _ _ Hi) as Hlog. fold E in Hlog.
  pose proof (small_positions ph q Hi) as [HE HD]. fold E in HE, HD.
  destruct (i_threads _ _ Hi t) as [Hown Hpc]. split.
  - destruct (owner (thread t q)) as [f|] eqn:Ho; [|done]. rewrite upd_ne; [done|].
    eapply owner_elsewhere; eauto.
  - destruct (thread t q) eqn:Et; try done; fold E in Hpc.
    + lia.
    + destruct Hpc. split; [lia|]. intros ->. lia.
    + simpl in *. by apply lookup_app_l_Some.
    + destruct Hpc as [Hpb Hp]. split; [done|]. intros Hpd. rewrite upd_ne; [by apply Hp|].
      intros Heq. specialize (Hp Hpd). by rewrite Heq, Hfree in Hp.
    + simpl in *. destruct (phase_at ph q pos Hi) as [_ [Hp0 Hok]]. rewrite Hown in *. simpl in *.
      rewrite log_app by lia. done.
Qed.

(** The owners when thread [t], which owned nothing, gets a cell. *)
Lemma owners_gain ph q q' t pc f0 :
  inv ph q -> owner pc = Some f0 ->
  (exists p, ph (idx (phase_pos f0)) = Free p \/ ph (idx (phase_pos f0)) = Full p) ->
  (forall t', thread t' q' = if decide (t' = t) then pc else thread t' q) ->
  forall t1 t2 f1 f2, owner (thread t1 q') = Some f1 -> owner (thread t2 q') = Some f2 ->
    phase_pos f1 = phase_pos f2 -> t1 = t2.
Proof.
  intros Hi Hpc Hp Hq t1 t2 f1 f2. rewrite !Hq.
  assert (Hno : forall t' f, owner (thread t' q) = Some f -> phase_pos f <> phase_pos f0).
  { intros t' f Ho Heq. eapply owner_elsewhere; [done|exact Ho|reflexivity| |by rewrite Heq].
    exact Hp. }
  destruct (decide (t1 = t)) as [->|E1], (decide (t2 = t)) as [->|E2]; intros H1 H2 Heq; try done.
  - rewrite Hpc in H1. injection H1 as <-. by destruct (Hno _ _ H2).
  - rewrite Hpc in H2. injection H2 as <-. by destruct (Hno _ _ H1).
  - by eapply (i_owners _ _ Hi).
Qed.

Lemma taken_gain ph q q' t p :
  inv ph q -> owner (thread t q) = None -> q_returns q' = q_returns q ->
  (forall t', t' <> t -> thread t' q' = thread t' q) ->
  taken q p -> taken q' p.
Proof.
  intros Hi Ho Hr Ht [[v Hv]|(t' & f & Hf & Hfp)]; [left; exists v; by rewrite Hr|right].
  exists t', f. rewrite Ht; [done|]. intros ->. congruence.
Qed.

Lemma inv_win_enqueue ph q t v :
  inv ph q -> thread t q = ECas v (enqueue_pos_ q) -> len (q_in q) + 1 + size <= 2 ^ 62 ->
  inv (upd ph (idx (enqueue_pos_ q)) (Writing (enqueue_pos_ q) false))
    (goto t (EWrite v (enqueue_pos_ q)) (win_enqueue v q)).
Proof.
  intros Hi Ht Hb. set (E := enqueue_pos_ q). pose proof (small_positions ph q Hi) as [HE HD].
  pose proof size_ge_2. destruct (i_threads _ _ Hi t) as [_ Hfree]. rewrite Ht in Hfree.
  destruct Hfree as [_ Hfree]. specialize (Hfree eq_refl). fold E in Hfree, HE, HD.
  pose proof (i_enqueue _ _ Hi) as Hlog. fold E in Hlog.
  assert (Hu : u64 (E + 1) = E + 1) by (apply u64_id; unfold size_max; lia).
  assert (Hthr : forall t', thread t' (goto t (EWrite v E) (win_enqueue v q))
    = if decide (t' = t) then EWrite v E else thread t' q)
    by (intros t'; exact (thread_goto t t' (EWrite v E) (win_enqueue v q))).
  split; simpl; fold E; rewrite ?Hu; try apply Hi.
  - by rewrite len_app, <- Hlog, len_cons, len_nil.
  - rewrite len_app, len_cons, len_nil. lia.
  - lia.
  - destruct (phase_at ph q E Hi) as [_ [_ HokE]]. rewrite Hfree in HokE. simpl in HokE. lia.
  - intros j Hj. destruct (i_cells _ _ Hi j Hj) as (Hx & Hok & Hc). fold E in Hok.
    destruct (decide (j = idx E)) as [->|Hne].
    + rewrite upd_eq. split; [done|]. rewrite Hfree in Hc. split; [|exact Hc]. split; simpl; lia.
    + rewrite upd_ne by done. split; [done|].
      assert (idx (phase_pos (ph j)) <> idx E) by congruence.
      split; [by apply phase_ok_enqueue|]. by rewrite (phase_cell_app _ _ E (dequeue_pos_ q)).
  - intros t'. rewrite Hthr. case_decide; [|by apply thread_ok_enqueue].
    split; simpl; [by rewrite upd_eq|]. rewrite Hlog. unfold len. rewrite Nat2Z.id.
    by rewrite lookup_app_r, Nat.sub_diag by lia.
  - apply (owners_gain ph q _ t (EWrite v E) (Writing E false) Hi); [done|by exists E; left|exact Hthr].
  - eapply Forall_impl; [apply (i_returns _ _ Hi)|]. intros [p| |p w|]; try done.
    intros (Hpb & Hv & Hp). split; [done|]. split; [by rewrite log_app by lia|].
    unfold upd. case_decide as Hj; [|done]. rewrite Hj, Hfree in Hp. done.
  - intros p Hp. eapply taken_gain; [exact Hi|by rewrite Ht|done| |by apply (i_taken _ _ Hi)].
    intros t' Hne. rewrite Hthr. by rewrite decide_False.
Qed.

Lemma thread_ok_dequeue ph q t :
  inv ph q -> ph (idx (dequeue_pos_ q)) = Full (dequeue_pos_ q) ->
  thread_ok (enqueue_pos_ q) (dequeue_pos_ q + 1) (q_in q)
    (upd ph (idx (dequeue_pos_ q)) (Reading (dequeue_pos_ q) false)) (thread t q).
Proof.
  intros Hi Hfull. destruct (i_threads _ _ Hi t) as [Hown Hpc]. split.
  - destruct (owner (thread t q)) as [f|] eqn:Ho; [|done]. rewrite upd_ne; [done|].
    eapply owner_elsewhere; eauto.
  - destruct (thread t q) eqn:Et; try done.
    + destruct Hpc as [Hpb Hp]. split; [done|]. intros Hpd. rewrite upd_ne; [by apply Hp|].
      intros Heq. specialize (Hp Hpd). by rewrite Heq, Hfull in Hp.
    + lia.
    + destruct Hpc. split; [lia|]. intros ->. lia.
Qed.

Lemma inv_win_dequeue ph q t :
  inv ph q -> thread t q = DCas (dequeue_pos_ q) ->
  inv (upd ph (idx (dequeue_pos_ q)) (Reading (dequeue_pos_ q) false))
    (goto t (DRead (dequeue_pos_ q)) (win_dequeue q)).
Proof.
  intros Hi Ht. set (D := dequeue_pos_ q). pose proof (small_positions ph q Hi) as [HE HD].
  pose proof size_ge_2. destruct (i_threads _ _ Hi t) as [_ Hfull]. rewrite Ht in Hfull.
  destruct Hfull as [_ Hfull]. specialize (Hfull eq_refl). fold D in Hfull, HD.
  destruct (phase_at ph q D Hi) as [_ HokD]. rewrite Hfull in HokD. destruct HokD as [_ HokD].
  assert (Hu : u64 (D + 1) = D + 1) by (apply u64_id; unfold size_max; lia).
  assert (Hthr : forall t', thread t' (goto t (DRead D) (win_dequeue q))
    = if decide (t' = t) then DRead D else thread t' q)
    by (intros t'; exact (thread_goto t t' (DRead D) (win_dequeue q))).
  split; simpl; fold D; rewrite ?Hu; try apply Hi.
  - fold D in HokD. simpl in HokD. lia.
  - pose proof (i_full _ _ Hi) as Hf. fold D in Hf. lia.
  - intros j Hj. destruct (i_cells _ _ Hi j Hj) as (Hx & Hok & Hc). fold D in Hok.
    destruct (decide (j = idx D)) as [->|Hne].
    + rewrite upd_eq. split; [done|]. rewrite Hfull in Hc. split; [|exact Hc].
      fold D in HokD. split; simpl in *; lia.
    + rewrite upd_ne by done. split; [done|]. split; [|done].
      apply phase_ok_dequeue; [done|congruence].
  - intros t'. rewrite Hthr. case_decide; [|by apply thread_ok_dequeue].
    split; simpl; [by rewrite upd_eq|done].
  - apply (owners_gain ph q _ t (DRead D) (Reading D false) Hi); [done|by exists D; right|exact Hthr].
  - eapply Forall_impl; [apply (i_returns _ _ Hi)|]. intros [p| |p w|]; try done.
    intros (Hpb & Hv & Hp). split; [unfold D; lia|]. split; [done|].
    unfold upd. case_decide as Hj; [|done]. rewrite Hj, Hfull in Hp. done.
  - intros p Hp. destruct (decide (p = D)) as [->|Hne].
    + right. exists t, (Reading D false). rewrite Hthr, decide_True by done. eauto.
    + eapply taken_gain; [exact Hi|by rewrite Ht|done| |apply (i_taken _ _ Hi); unfold D in *; lia].
      intros t' Hne'. rewrite Hthr. by rewrite decide_False.
Qed.

(** ** What a loaded sequence number says *)
Lemma sequence_phase ph q p :
  inv ph q ->
  sequence (cell_at p q) = phase_pos (ph (idx p)) +
    match ph (idx p) with Free _ | Writing _ _ => 0 | Full _ | Reading _ _ => 1 end.
Proof. intros Hi. rewrite (cell_at_phase ph) by done. destruct (ph _) as [|? []| |? []]; simpl; lia. Qed.

(** [p] and [p + 1] are never in the same cell. *)
Lemma mod_succ p p' : p' mod size = p mod size -> p' <> p + 1.
Proof.
  pose proof size_ge_2. intros Heq ->. assert (p + 1 = p); [|lia].
  by apply mod_near; [done|lia].
Qed.
Lemma sequence_free ph q pos :
  inv ph q -> 0 <= pos -> sequence (cell_at pos q) = pos -> pos = enqueue_pos_ q ->
  ph (idx pos) = Free pos.
Proof.
  intros Hi H0 Hs Hpos. rewrite (sequence_phase ph) in Hs by done.
  destruct (phase_at ph q pos Hi) as [Hm [_ Hok]].
  destruct (ph (idx pos)) as [p|p b|p|p b]; simpl in *; try (f_equal; lia); try lia;
    symmetry in Hm; apply mod_succ in Hm; lia.
Qed.
Lemma sequence_full ph q pos :
  inv ph q -> 0 <= pos -> sequence (cell_at pos q) = pos + 1 -> pos = dequeue_pos_ q ->
  ph (idx pos) = Full pos.
Proof.
  intros Hi H0 Hs Hpos. rewrite (sequence_phase ph) in Hs by done.
  destruct (phase_at ph q pos Hi) as [Hm [_ Hok]].
  destruct (ph (idx pos)) as [p|p b|p|p b]; simpl in *; try (f_equal; lia); try lia;
    apply mod_succ in Hm; lia.
Qed.

Lemma goto_own t pc p c q : goto t pc (set_cell p c q) = own_update t pc p c [] q.
Proof. unfold own_update, goto, set_cell; simpl. by rewrite app_nil_r. Qed.

(** ** One access *)
Lemma inv_write ph q t v pos :
  inv ph q -> thread t q = EWrite v pos ->
  inv (upd ph (idx pos) (Writing pos true)) (access t false (EWrite v pos) q).
Proof.
  intros Hi Ht. assert (Ho : owner (thread t q) = Some (Writing pos false)) by (by rewrite Ht).
  pose proof (owner_phase _ _ _ _ Hi Ho) as Hp. cbn [phase_pos] in Hp.
  destruct (i_threads _ _ Hi t) as [_ Hv]. rewrite Ht in Hv.
  destruct (phase_at ph q pos Hi) as [_ Hok]. rewrite Hp in Hok.
  cbn [access]. rewrite goto_own.
  rewrite (cell_at_phase ph), Hp by done. cbn [phase_cell sequence]. rewrite <- Hv.
  apply (inv_own ph q t (EStore pos) (Writing pos false) (Writing pos true) []); try done;
    cbn [phase_pos]; [by left| |rewrite app_nil_r; apply (i_nodup _ _ Hi)].
  split; [by cbn; rewrite upd_eq|done].
Qed.
Lemma inv_publish ph q t pos :
  inv ph q -> thread t q = EStore pos -> inv (upd ph (idx pos) (Full pos)) (access t false (EStore pos) q).
Proof.
  intros Hi Ht. assert (Ho : owner (thread t q) = Some (Writing pos true)) by (by rewrite Ht).
  pose proof (owner_phase _ _ _ _ Hi Ho) as Hp. cbn [phase_pos] in Hp.
  destruct (phase_at ph q pos Hi) as [_ Hok]. rewrite Hp in Hok.
  pose proof (small_positions ph q Hi) as Hsm. destruct Hok as [Hnn Hok]. simpl in Hnn, Hok.
  cbn [access].
  rewrite (cell_at_phase ph), Hp, u64_id by (done || unfold size_max; lia). cbn [phase_cell data].
  apply (inv_own ph q t Idle (Writing pos true) (Full pos) [EnqTrue pos]); try done;
    cbn [phase_pos]; [by right|repeat constructor|].
  rewrite omap_app. simpl. rewrite app_nil_r. apply (i_nodup _ _ Hi).
Qed.
Lemma inv_take ph q t pos :
  inv ph q -> thread t q = DRead pos ->
  inv (upd ph (idx pos) (Reading pos true)) (access t false (DRead pos) q).
Proof.
  intros Hi Ht. assert (Ho : owner (thread t q) = Some (Reading pos false)) by (by rewrite Ht).
  pose proof (owner_phase _ _ _ _ Hi Ho) as Hp. cbn [phase_pos] in Hp.
  destruct (phase_at ph q pos Hi) as [_ Hok]. rewrite Hp in Hok.
  cbn [access]. rewrite goto_own.
  rewrite (cell_at_phase ph), Hp by done. cbn [phase_cell sequence data].
  apply (inv_own ph q t (DStore pos _) (Reading pos false) (Reading pos true) []); try done;
    cbn [phase_pos]; [by left| |rewrite app_nil_r; apply (i_nodup _ _ Hi)|].
  - split; [by cbn; rewrite upd_eq|done].
  - intros p b [= <- <-]. right. by exists true.
Qed.
Lemma inv_release ph q t pos v :
  inv ph q -> thread t q = DStore pos v ->
  inv (upd ph (idx pos) (Free (pos + size))) (access t false (DStore pos v) q).
Proof.
  intros Hi Ht. assert (Ho : owner (thread t q) = Some (Reading pos true)) by (by rewrite Ht).
  pose proof (owner_phase _ _ _ _ Hi Ho) as Hp. cbn [phase_pos] in Hp.
  destruct (i_threads _ _ Hi t) as [_ Hv]. rewrite Ht in Hv.
  destruct (phase_at ph q pos Hi) as [_ Hok]. rewrite Hp in Hok.
  pose proof (small_positions ph q Hi) as Hsm. pose proof size_ge_2 as Hs2. destruct Hok as [Hnn Hok].
  simpl in Hnn, Hok. cbn [access].
  rewrite (i_mask _ _ Hi), (cell_at_phase ph), Hp by done. cbn [phase_cell data].
  replace (u64 (pos + (size - 1) + 1)) with (pos + size)
    by (rewrite u64_id; unfold size_max; lia).
  apply (inv_own ph q t Idle (Reading pos true) (Free (pos + size)) [DeqTrue pos v]); try done;
    cbn [phase_pos]; [by rewrite idx_add_size|lia|split; simpl; lia|by right| | |].
  - constructor; [|constructor]. split; [lia|]. split; [done|]. rewrite upd_eq. simpl. lia.
  - rewrite omap_app. simpl. apply NoDup_app. split; [apply (i_nodup _ _ Hi)|].
    split; [|by apply NoDup_singleton]. intros p Hin Heq%list_elem_of_singleton. subst p.
    apply list_elem_of_omap in Hin as (r & Hr & Hd). destruct r as [|  |p w|]; try done.
    injection Hd as ->. pose proof (i_returns _ _ Hi) as Hret. rewrite Forall_forall in Hret.
    destruct (Hret _ Hr) as (_ & _ & Hlt). rewrite Hp in Hlt. simpl in Hlt. lia.
  - intros p b [= <- <-]. left. exists v. by left.
Qed.

(** The accesses of threads that own no cell. *)
Lemma inv_load_enqueue ph q t b v pos :
  inv ph q -> thread t q = ELoadSeq v pos -> inv ph (access t b (ELoadSeq v pos) q).
Proof.
  intros Hi Ht. assert (Hno : owner (thread t q) = None) by (by rewrite Ht).
  destruct (i_threads _ _ Hi t) as [_ Hb]. rewrite Ht in Hb. cbn [access].
  pose proof (small_positions ph q Hi). pose proof (sequence_small ph q pos Hi). pose proof size_ge_2.
  rewrite dif_small by lia. case_match eqn:Hd; bool_to_prop.
  - apply inv_goto; try done. split; [done|]. split; [done|]. intros Hpos.
    apply (sequence_free ph q); (done || lia).
  - case_match; [by apply inv_ret_false|by apply inv_goto].
Qed.
Lemma inv_load_dequeue ph q t b pos :
  inv ph q -> thread t q = DLoadSeq pos -> inv ph (access t b (DLoadSeq pos) q).
Proof.
  intros Hi Ht. assert (Hno : owner (thread t q) = None) by (by rewrite Ht).
  destruct (i_threads _ _ Hi t) as [_ Hb]. rewrite Ht in Hb. cbn [access].
  pose proof (small_positions ph q Hi). pose proof (sequence_small ph q pos Hi). pose proof size_ge_2.
  rewrite u64_id, dif_small by (unfold size_max; lia). case_match eqn:Hd; bool_to_prop.
  - apply inv_goto; try done. split; [done|]. split; [done|]. intros Hpos.
    apply (sequence_full ph q); (done || lia).
  - case_match; [by apply inv_ret_false|by apply inv_goto].
Qed.

Lemma access_spurious t b pc q :
  owner pc <> None -> access t b pc q = access t false pc q.
Proof. by destruct pc. Qed.

Lemma inv_access ph q t b :
  inv ph q -> len (q_in (access t b (thread t q) q)) + size <= 2 ^ 62 ->
  exists ph', inv ph' (access t b (thread t q) q).
Proof.
  intros Hi Hb. pose proof (small_positions ph q Hi) as Hsm.
  destruct (i_threads _ _ Hi t) as [_ Hok].
  destruct (thread t q) as [|v|v pos|v pos|v pos|pos| |pos|pos|pos|pos v] eqn:Ht.
  - by exists ph.
  - exists ph. apply inv_goto; try done; [by rewrite Ht|]. split; [done|]. simpl. lia.
  - exists ph. by apply inv_load_enqueue.
  - cbn [access] in *. case_match eqn:Hc.
    + bool_to_prop. subst pos. eexists. apply inv_win_enqueue; [done|done|].
      simpl in Hb. rewrite len_app, len_cons, len_nil in Hb. lia.
    + exists ph. apply inv_goto; try done; [by rewrite Ht|]. split; [done|]. simpl. lia.
  - rewrite access_spurious by done. eexists. by eapply inv_write.
  - rewrite access_spurious by done. eexists. by eapply inv_publish.
  - exists ph. apply inv_goto; try done; [by rewrite Ht|]. split; [done|]. simpl. lia.
  - exists ph. by apply inv_load_dequeue.
  - cbn [access] in *. case_match eqn:Hc.
    + bool_to_prop. subst pos. eexists. by apply inv_win_dequeue.
    + exists ph. apply inv_goto; try done; [by rewrite Ht|]. split; [done|]. simpl. lia.
  - rewrite access_spurious by done. eexists. by eapply inv_take.
  - rewrite access_spurious by done. eexists. by eapply inv_release.
Qed.

Lemma queue_inv_step ph q q' t c :
  inv ph q -> q_step t c q = Some q' -> len (q_in q') + size <= 2 ^ 62 -> exists ph', inv ph' q'.
Proof.
  unfold q_step. intros Hi Hs Hb. destruct c as [v| |b].
  - destruct (thread t q) eqn:Ht; try done. injection Hs as <-. exists ph.
    apply inv_goto; try done. by rewrite Ht.
  - destruct (thread t q) eqn:Ht; try done. injection Hs as <-. exists ph.
    apply inv_goto; try done. by rewrite Ht.
  - injection Hs as <-. by eapply inv_access.
Qed.

(** The order of the winners only grows. *)
Lemma q_step_in t c q q' : q_step t c q = Some q' -> len (q_in q) <= len (q_in q').
Proof.
  unfold q_step. intros Hs. repeat case_match; simplify_eq/=; try lia;
    unfold access; repeat case_match; simpl; autorewrite with cxx; lia.
Qed.
Lemma q_run_in sched q q' : q_run sched q = Some q' -> len (q_in q) <= len (q_in q').
Proof.
  revert q; induction sched as [|[t c] sched IH]; intros q; simpl; [by intros [= <-]|].
  destruct (q_step t c q) as [q1|] eqn:E; [|done]. intros Hr%IH. apply q_step_in in E. lia.
Qed.
Lemma queue_inv_run ph sched q q' :
  inv ph q -> q_run sched q = Some q' -> len (q_in q') + size <= 2 ^ 62 -> exists ph', inv ph' q'.
Proof.
  revert ph q; induction sched as [|[t c] sched IH]; intros ph q Hi; simpl.
  { intros [= <-] _. by exists ph. }
  destruct (q_step t c q) as [q1|] eqn:E; [|done]. intros Hr Hb. pose proof (q_run_in _ _ _ Hr).
  destruct (queue_inv_step _ _ _ _ _ Hi E) as [ph1 Hi1]; [lia|]. by eapply IH.
Qed.

Lemma queue_inv_new q :
  new_queue size = Ok q -> size <= 2 ^ 62 -> inv (fun i => Free (Z.of_nat i)) q.
Proof.
  pose proof size_ge_2 as Hs2. unfold new_queue. case_match; [|done]. intros [= <-] Hb.
  split; simpl; try done; try (unfold len; simpl; lia).
  - by rewrite length_fmap, length_seq.
  - intros i Hi. assert (Hx : idx (Z.of_nat i) = i) by (unfold idx; rewrite Z.mod_small; lia).
    split; [done|]. split; [split; simpl; lia|].
    rewrite list_lookup_fmap, lookup_seq_lt by lia. done.
  - constructor.
Qed.
End Invariant.

(** *** The queue as a whole *)
Lemma queue_reachable {T} size sched (q0 q : queue T) :
  new_queue size = Ok q0 -> q_run sched q0 = Some q -> len (q_in q) + size <= 2 ^ 62 ->
  exists k ph, size = 2 ^ k /\ 1 <= k /\ inv size ph q.
Proof.
  intros Hnew Hrun Hb. assert (Hok : queue_size_ok size = true)
    by (unfold new_queue in Hnew; by case_match).
  destruct (queue_size_pow2 _ Hok) as (k & Hk & Hp). pose proof (len_nonneg (q_in q)).
  pose proof (queue_inv_new size k Hp Hk q0 Hnew ltac:(lia)) as Hi.
  destruct (queue_inv_run size k Hp Hk _ _ _ _ Hi Hrun Hb) as [ph Hi']. by exists k, ph.
Qed.

(** The queue is a bounded FIFO.  For any number of threads and any
    interleaving of their atomic accesses, starting from a new queue and up
    to 2^62 values: at most [buffer_size] values are held; the dequeue that
    wins the n-th position returns the value of the enqueue that won the n-th
    position; no position is returned twice; and each position dequeued was
    returned or is being copied out by a thread (nothing is lost or
    duplicated). *)
Theorem mpmc_fifo {T} size sched (q0 q : queue T) :
  new_queue size = Ok q0 -> q_run sched q0 = Some q -> len (q_in q) + size <= 2 ^ 62 ->
  0 <= enqueue_pos_ q - dequeue_pos_ q <= size /\ enqueue_pos_ q = len (q_in q)
  /\ (forall p v, DeqTrue p v ∈ q_returns q ->
        0 <= p < dequeue_pos_ q /\ v = q_in q !! Z.to_nat p /\ is_Some v)
  /\ NoDup (omap dequeued (q_returns q))
  /\ (forall p, 0 <= p < dequeue_pos_ q -> taken q p).
Proof.
  intros Hnew Hrun Hb. destruct (queue_reachable _ _ _ _ Hnew Hrun Hb) as (k & ph & Hp & Hk & Hi).
  destruct Hi as [? ? HE ? HD HF ? ? ? Hr Hnd Htk]. split; [lia|]. split; [done|]. split; [|done].
  intros p v Hin. rewrite Forall_forall in Hr. destruct (Hr _ Hin) as (Hlt & Hv & _).
  split; [done|]. split; [done|]. rewrite Hv. apply lookup_lt_is_Some. unfold len in HE. lia.
Qed.

(** A cell that is being read has its reader. *)
Lemma reader_exists {T} size k (q : queue T) ph p b :
  size = 2 ^ k -> 1 <= k -> inv size ph q -> ph (idx size p) = Reading p b ->
  exists t f b', owner (thread t q) = Some f /\ f = Reading p b'.
Proof.
  intros Hp Hk Hi Hph. destruct (phase_at size k Hp Hk ph q p Hi) as [_ Hok].
  rewrite Hph in Hok. destruct Hok as [H0 Hok]. simpl in H0, Hok.
  destruct (i_taken _ _ _ Hi p) as [[v Hv]|(t & f & Hf & Hfp & b' & Hb)]; [lia| |].
  - pose proof (i_returns _ _ _ Hi) as Hr. rewrite Forall_forall in Hr.
    destruct (Hr _ Hv) as (_ & _ & Hlt). rewrite Hph in Hlt. simpl in Hlt. lia.
  - exists t, f, b'. split; [done|]. subst f. simpl in Hfp. by subst.
Qed.

(** The cell of an old position: its phase is one lap behind. *)
Lemma lap_behind size k E p pos :
  size = 2 ^ k -> 1 <= k -> p mod size = pos mod size -> p < pos -> pos <= E -> E - size <= p ->
  pos = E /\ p = pos - size.
Proof.
  intros Hp Hk Hm Hlt HE Hlo. pose proof (size_ge_2 size k Hp Hk).
  destruct (decide (pos - p < size)); [|lia].
  assert (p = pos); [|lia]. apply (mod_near size k Hp Hk); [done|lia].
Qed.
Lemma refused_enqueue {T} size k (q : queue T) ph pos :
  size = 2 ^ k -> 1 <= k -> inv size ph q -> 0 <= pos <= enqueue_pos_ q ->
  sequence (cell_at pos q) < pos ->
  pos = enqueue_pos_ q /\
  (enqueue_pos_ q - dequeue_pos_ q = size
   \/ exists t' f b, owner (thread t' q) = Some f /\ f = Reading (pos - size) b).
Proof.
  intros Hp Hk Hi Hpos Hlt. rewrite (cell_at_phase size k Hp Hk ph) in Hlt by done.
  destruct (phase_at size k Hp Hk ph q pos Hi) as [Hm [_ Hok]]. pose proof (i_full _ _ _ Hi).
  destruct (ph (idx size pos)) as [p|p b|p|p b] eqn:Eph; simpl in *; [lia| | |].
  - assert (p < pos) by (destruct b; simpl in *; lia).
    destruct (lap_behind size k (enqueue_pos_ q) p pos) as [-> ->]; (done || lia).
  - destruct (lap_behind size k (enqueue_pos_ q) p pos) as [-> ->]; (done || lia).
  - assert (p < pos) by (destruct b; simpl in *; lia).
    destruct (lap_behind size k (enqueue_pos_ q) p pos) as [Hpe Hpp]; [done|done|done|lia|lia|lia|].
    split; [done|right]. rewrite <- Hpp. apply (reader_exists size k q ph p b Hp Hk Hi).
    unfold idx in *. by rewrite Hm.
Qed.
Lemma refused_dequeue {T} size k (q : queue T) ph pos :
  size = 2 ^ k -> 1 <= k -> inv size ph q -> 0 <= pos <= dequeue_pos_ q ->
  sequence (cell_at pos q) < pos + 1 ->
  pos = dequeue_pos_ q /\
  (dequeue_pos_ q = enqueue_pos_ q
   \/ dequeue_pos_ q < enqueue_pos_ q /\ sequence (cell_at pos q) = pos).
Proof.
  intros Hp Hk Hi Hpos. rewrite (cell_at_phase size k Hp Hk ph) by done. intros Hlt.
  destruct (phase_at size k Hp Hk ph q pos Hi) as [Hm [_ Hok]]. pose proof (i_dequeue _ _ _ Hi).
  destruct (ph (idx size pos)) as [p|p b|p|p b] eqn:Eph; simpl in *; [lia| |lia|].
  - assert (p = pos) as -> by (destruct b; simpl in *; lia).
    split; [lia|]. right. split; [lia|]. by destruct b.
  - assert (p < pos) by (destruct b; simpl in *; lia).
    destruct (lap_behind size k (enqueue_pos_ q) p pos); (done || lia).
Qed.

(** A refusal is honest.  When [enqueue] gives up, its position is the
    next one and the queue holds [buffer_size] values, or the value
    [buffer_size] positions before is just being copied out by a thread.
    When [dequeue] gives up, its position is the next one and the queue is
    empty, or the enqueue that won that position has not published its value
    yet. *)
Theorem mpmc_false_honest {T} size sched (q0 q : queue T) t :
  new_queue size = Ok q0 -> q_run sched q0 = Some q -> len (q_in q) + size <= 2 ^ 62 ->
  match thread t q with
  | ELoadSeq v pos =>
      q_returns (access t false (thread t q) q) = q_returns q ++ [EnqFalse] ->
      pos = enqueue_pos_ q /\
      (enqueue_pos_ q - dequeue_pos_ q = size
       \/ exists t' f b, owner (thread t' q) = Some f /\ f = Reading (pos - size) b)
  | DLoadSeq pos =>
      q_returns (access t false (thread t q) q) = q_returns q ++ [DeqFalse] ->
      pos = dequeue_pos_ q /\
      (dequeue_pos_ q = enqueue_pos_ q
       \/ dequeue_pos_ q < enqueue_pos_ q /\ sequence (cell_at pos q) = pos)
  | _ => True
  end.
Proof.
  intros Hnew Hrun Hb. destruct (queue_reachable _ _ _ _ Hnew Hrun Hb) as (k & ph & Hp & Hk & Hi).
  pose proof (small_positions size k Hk ph q Hi) as Hsm. pose proof (size_ge_2 size k Hp Hk) as Hs2.
  destruct (i_threads _ _ _ Hi t) as [_ Hok].
  assert (Hself : forall r, q_returns q <> q_returns q ++ [r]).
  { intros r Heq. apply (f_equal length) in Heq. rewrite length_app in Heq. simpl in Heq. lia. }
  destruct (thread t q) as [|v|v pos|v pos|v pos|pos| |pos|pos|pos|pos v] eqn:Ht; try done;
    cbn [access]; pose proof (sequence_small size k Hp Hk ph q pos Hi) as Hsq; intros Hret.
  - rewrite dif_small in Hret by lia. case_match; [by apply Hself in Hret|].
    case_match; [|by apply Hself in Hret]. bool_to_prop. apply (refused_enqueue size k q ph pos Hp Hk Hi); (done || lia).
  - rewrite u64_id, dif_small in Hret by (unfold size_max; lia).
    case_match; [by apply Hself in Hret|]. case_match; [|by apply Hself in Hret].
    bool_to_prop. apply (refused_dequeue size k q ph pos Hp Hk Hi); (done || lia).
Qed.

(** *** The queue as a list

    What [AsyncLog] uses: an atomic access leaves the values held as they are,
    appends one, or takes the first one. *)
Definition held {T} (q : queue T) : list T := drop (Z.to_nat (dequeue_pos_ q)) (q_in q).
Lemma held_same {T} (q q' : queue T) :
  q_in q' = q_in q -> dequeue_pos_ q' = dequeue_pos_ q -> held q' = held q.
Proof. unfold held. by intros -> ->. Qed.
Lemma held_step {T} size k ph (q q' : queue T) t c :
  size = 2 ^ k -> 1 <= k -> inv size ph q -> q_step t c q = Some q' ->
  held q' = held q
  \/ (exists v, held q' = held q ++ [v])
  \/ (exists v, held q = v :: held q').
Proof.
  intros Hp Hk Hi Hs. destruct (small_positions size k Hk ph q Hi) as [HE HD].
  pose proof (i_enqueue _ _ _ Hi) as Hlen. unfold len in Hlen.
  destruct (i_threads _ _ _ Hi t) as [_ Hok]. pose proof (size_ge_2 size k Hp Hk).
  unfold q_step in Hs. destruct c as [v| |b]; [destruct (thread t q); [|done..]..|]; injection Hs as <-;
    [by left; apply held_same|by left; apply held_same|].
  destruct (thread t q) as [|v|v pos|v pos|v pos|pos| |pos|pos|pos|pos v]; cbn [access];
    repeat case_match; try (left; by apply held_same); bool_to_prop.
  - right; left. exists v. unfold held; simpl. apply drop_app_le. lia.
  - right; right. destruct Hok as [_ Hfull]. specialize (Hfull (eq_sym H0)).
    destruct (phase_at size k Hp Hk ph q pos Hi) as [_ [_ Hph]]. rewrite Hfull in Hph. simpl in Hph.
    destruct (lookup_lt_is_Some_2 (q_in q) (Z.to_nat (dequeue_pos_ q))) as [v Hv]; [lia|].
    exists v. unfold held; simpl. rewrite u64_id by (unfold size_max; lia).
    replace (Z.to_nat (dequeue_pos_ q + 1)) with (S (Z.to_nat (dequeue_pos_ q))) by lia.
    by apply drop_S.
Qed.

(** ** Two producers and two consumers of a queue of two cells

    The producers race for position 0; the first consumer takes it while a
    third value is refused. *)
Definition A : choice nat := Access false.
Definition two_cells : queue nat :=
  match new_queue 2 with Ok q => q | _ => Queue [] 0 0 0 ∅ [] [] end.
Definition ran (sched : list (nat * choice nat)) : queue nat := default two_cells (q_run sched two_cells).
Definition race : list (nat * choice nat) :=
  [(1, CallEnqueue 7); (2, CallEnqueue 8); (1, A); (2, A); (1, A); (2, A); (2, A); (1, A);
   (2, A); (2, A); (1, A); (1, Access true); (1, A); (1, A); (1, A); (1, A);
   (3, CallEnqueue 9); (3, A)]%nat.
Definition consumed : list (nat * choice nat) :=
  race ++ [(3, A); (4, CallDequeue); (5, CallDequeue); (4, A); (4, A); (4, A); (4, A);
           (5, A); (5, A); (5, A); (5, A); (5, A); (4, A)]%nat.

Lemma mpmc_fifo_witness :
  q_returns (ran consumed) = [EnqTrue 0; EnqTrue 1; EnqFalse; DeqTrue 1 (Some 7%nat); DeqTrue 0 (Some 8%nat)]
  /\ (forall p v, DeqTrue p v ∈ q_returns (ran consumed) ->
        0 <= p < 2 /\ v = [8%nat; 7%nat] !! Z.to_nat p /\ is_Some v).
Proof.
  assert (Hr : q_run consumed two_cells = Some (ran consumed)) by (vm_compute; reflexivity).
  assert (Hd : dequeue_pos_ (ran consumed) = 2) by (vm_compute; reflexivity).
  assert (Hin : q_in (ran consumed) = [8%nat; 7%nat]) by (vm_compute; reflexivity).
  assert (Hb : len (q_in (ran consumed)) + 2 <= 2 ^ 62) by (rewrite Hin; vm_compute; discriminate).
  split; [vm_compute; reflexivity|]. rewrite <- Hd, <- Hin.
  apply (mpmc_fifo 2 consumed two_cells (ran consumed) eq_refl Hr Hb).
Defined.

Lemma mpmc_false_honest_witness :
  thread 3 (ran race) = ELoadSeq 9%nat 2
  /\ q_returns (access 3 false (thread 3 (ran race)) (ran race)) = [EnqTrue 0; EnqTrue 1; EnqFalse]
  /\ 2 = enqueue_pos_ (ran race).
Proof.
  assert (Hr : q_run race two_cells = Some (ran race)) by (vm_compute; reflexivity).
  assert (Hb : len (q_in (ran race)) + 2 <= 2 ^ 62) by (vm_compute; discriminate).
  assert (Ht : thread 3 (ran race) = ELoadSeq 9%nat 2) by (vm_compute; reflexivity).
  assert (Hf : q_returns (access 3 false (thread 3 (ran race)) (ran race))
               = q_returns (ran race) ++ [EnqFalse]) by (vm_compute; reflexivity).
  split; [done|]. split; [vm_compute; reflexivity|].
  pose proof (mpmc_false_honest 2 race two_cells (ran race) 3 eq_refl Hr Hb) as H.
  rewrite Ht in H, Hf. exact (proj1 (H Hf)).
Defined.
