(* ===== verification/Atomics.v ===== *)
(** * Atomic objects and data races of C++

    A view-based operational model of the part of the memory model the program
    uses: atomic objects accessed with [memory_order_relaxed], [acquire] and
    [release], and plain objects whose accesses must be ordered.  An atomic
    object keeps all the values ever stored in it, by time stamp; a thread has
    a view, the least time stamp of each object it may still read.  A release
    store publishes the storing thread's view with the value, an acquire load
    adds it to the reader's; a relaxed access does neither.  A store may take
    any free time stamp behind the thread's view, an exchange takes the one
    right behind the value it replaces.  Executions in which a load reads a
    value stored later in the order of execution are left out, as in the
    revised model of Lahav and others (no load buffering); there are no fences
    and no [seq_cst] accesses in the program. *)
From S2P Require Import Prelude.

Inductive memory_order := relaxed | acquire | release.
#[export] Instance memory_order_eq_dec : EqDecision memory_order.
Proof. solve_decision. Defined.

Section Memory.
Context {L : Type} `{EqDecision L}.

(** ** Views *)
Definition view := L -> nat.
Definition bottom : view := fun _ => O.
Definition join (v w : view) : view := fun l => Nat.max (v l) (w l).
Definition see (l : L) (ts : nat) (v : view) : view := fun l' => if decide (l' = l) then Nat.max ts (v l') else v l'.
Definition view_le (v w : view) : Prop := forall l, (v l <= w l)%nat.

#[export] Instance view_le_preorder : PreOrder view_le.
Proof. split; [intros v l; lia|intros u v w H1 H2 l; specialize (H1 l); specialize (H2 l); lia]. Qed.
Lemma view_le_bottom v : view_le bottom v.
Proof. intros l. unfold bottom. lia. Qed.
Lemma view_le_join_l v w : view_le v (join v w).
Proof. intros l. unfold join. lia. Qed.
Lemma view_le_join_r v w : view_le w (join v w).
Proof. intros l. unfold join. lia. Qed.
Lemma view_le_see l ts v : view_le v (see l ts v).
Proof. intros l'. unfold see. case_decide; lia. Qed.
Lemma see_at l ts v : (ts <= see l ts v l)%nat.
Proof. unfold see. rewrite decide_True by done. lia. Qed.

(** ** Memory *)

(** A value in the history of an atomic object, and the view it carries. *)
Record message := Message { m_value : Z; m_view : view }.
(** The histories of the atomic objects, and for the plain ones the number of
    accesses so far; a view holds how many of these a thread knows of. *)
Record memory := Memory { history : L -> gmap nat message; accesses : L -> nat }.

Definition add_message (l : L) (ts : nat) (m : message) (mm : memory) : memory :=
  Memory (fun l' => if decide (l' = l) then <[ts := m]> (history mm l') else history mm l') (accesses mm).

(** [l.load(order)], reading the value with time stamp [ts]. *)
Definition load (order : memory_order) (l : L) (ts : nat) (v : view) (mm : memory) : option (Z * view) :=
  if (v l <=? ts)%nat then
    m ← history mm l !! ts;
    let v := see l ts v in
    Some (m_value m, if decide (order = acquire) then join v (m_view m) else v)
  else None.
(** [l.store(z, order)], at the time stamp [ts]. *)
Definition store (order : memory_order) (l : L) (z : Z) (ts : nat) (v : view) (mm : memory) :
    option (view * memory) :=
  if (v l <? ts)%nat then
    match history mm l !! ts with
    | Some _ => None
    | None =>
        let v := see l ts v in
        Some (v, add_message l ts (Message z (if decide (order = release) then v else see l ts bottom)) mm)
    end
  else None.
(** [l.compare_exchange_weak(expected, desired, relaxed)], reading the value
    at [ts]: [inl] of the new memory, or [inr] of the value read.  It fails
    when the value is another one or already replaced, and may fail anyway. *)
Definition exchange_weak (l : L) (expected desired : Z) (ts : nat) (spurious : bool) (v : view) (mm : memory) :
    option (view * (memory + Z)) :=
  if (v l <=? ts)%nat then
    m ← history mm l !! ts;
    if (m_value m =? expected)%Z && negb spurious && bool_decide (history mm l !! S ts = None)
    then Some (see l (S ts) v, inl (add_message l (S ts) (Message desired (m_view m)) mm))
    else Some (see l ts v, inr (m_value m))
  else None.
(** An access that modifies a plain object; [None] is a data race: some
    earlier access does not happen before this one. *)
Definition modify (l : L) (v : view) (mm : memory) : option (view * memory) :=
  let n := accesses mm l in
  if (n <=? v l)%nat then
    Some (see l (S n) v,
          Memory (history mm) (fun l' => if decide (l' = l) then S n else accesses mm l'))
  else None.
End Memory.
Arguments view : clear implicits.
Arguments message : clear implicits.
Arguments memory : clear implicits.

(** ** Litmus tests

    A flag published with [release] and read with [acquire] orders the plain
    object behind it; with a relaxed store or load the same program has a data
    race.  Two threads that store and then read each other's variable may both
    read the old value. *)
Module Litmus.
Inductive var := X | Y | Payload.
#[export] Instance var_eq_dec : EqDecision var.
Proof. solve_decision. Defined.
Definition init : memory var := Memory (fun _ => {[O := Message 0 bottom]}) (fun _ => O).

Definition message_passing (st ld : memory_order) : option bool :=
  '(v1, m) ← modify Payload bottom init;
  '(v1, m) ← store st X 1 1 v1 m;
  '(z, v2) ← load ld X 1 bottom m;
  Some (match modify Payload v2 m with Some _ => true | None => false end).
Example release_acquire_ordered : message_passing release acquire = Some true.
Proof. reflexivity. Qed.
Example relaxed_store_races : message_passing relaxed acquire = Some false.
Proof. reflexivity. Qed.
Example relaxed_load_races : message_passing release relaxed = Some false.
Proof. reflexivity. Qed.

Definition store_buffering : option (Z * Z) :=
  '(v1, m) ← store release X 1 1 bottom init;
  '(v2, m) ← store release Y 1 1 bottom m;
  '(a, _) ← load acquire Y 0 v1 m;
  '(b, _) ← load acquire X 0 v2 m;
  Some (a, b).
Example both_read_old : store_buffering = Some (0, 0)%Z.
Proof. reflexivity. Qed.
(** A thread does not read behind what it has read. *)
Example reads_are_coherent :
  ('(_, m) ← store relaxed X 1 1 bottom init; '(_, v) ← load relaxed X 1 bottom m; load relaxed X 0 v m) = None.
Proof. reflexivity. Qed.
End Litmus.
