(* ===== verification/WeakQueue.v ===== *)
(** * The bounded queue under the memory model of C++,
      [src/src/spdlog/details/mpmc_bounded_q.h]

    [MpmcQueue] takes the queue's atomic accesses as sequentially consistent.
    Here every access has the order the code gives it: positions are loaded
    and exchanged [relaxed], sequence numbers loaded with [acquire] and stored
    with [release], and the data of a cell is a plain object, so two accesses
    of it that are not ordered are a data race.  A thread is where it was in
    [MpmcQueue], with its view; a step names the time stamp it reads or
    writes. *)
From S2P Require Import Prelude MpmcQueue Atomics.

Open Scope Z_scope.

(** The atomic members, and the data of a cell. *)
Inductive member := enqueue_pos | dequeue_pos | sequence_ (i : nat) | data_ (i : nat).
#[export] Instance member_eq_dec : EqDecision member.
Proof. solve_decision. Defined.

Section WeakQueue.
Context {T : Type}.
Notation view := (view member).

(** The memory, the contents of the cells' data, the threads and, for the
    statements: the values in the order of the positions their [enqueue] won,
    with the views of the callers then; what the calls returned; and the
    views of the threads to which [dequeue] returned a position. *)
Record wqueue := WQueue {
  w_memory : memory member;
  w_data : list (option T);
  w_mask : Z;
  w_threads : gmap nat (qpc T * view);
  w_in : list T;
  w_sent : list view;
  w_returns : list (returned T);
  w_got : list (Z * view)
}.

Definition new_memory : memory member :=
  Memory (fun l => {[O := Message match l with sequence_ i => Z.of_nat i | _ => 0 end bottom]}) (fun _ => O).
Definition new_wqueue (buffer_size : Z) : exc wqueue :=
  if queue_size_ok buffer_size then
    Ok (WQueue new_memory (replicate (Z.to_nat buffer_size) None) (buffer_size - 1) ∅ [] [] [] [])
  else Thrown (spdlog_ex !"async logger queue size must be power of two").

Definition wthread (t : nat) (w : wqueue) : qpc T * view := default (Idle, bottom) (w_threads w !! t).
Definition wcell (pos : Z) (w : wqueue) : nat := Z.to_nat (Z.land pos (w_mask w)).

Definition wgoto (t : nat) (pc : qpc T) (v : view) (w : wqueue) : wqueue :=
  WQueue (w_memory w) (w_data w) (w_mask w) (<[t := (pc, v)]> (w_threads w)) (w_in w) (w_sent w)
    (w_returns w) (w_got w).
Definition wret (t : nat) (r : returned T) (v : view) (w : wqueue) : wqueue :=
  WQueue (w_memory w) (w_data w) (w_mask w) (<[t := (Idle, v)]> (w_threads w)) (w_in w) (w_sent w)
    (w_returns w ++ [r]) (match r with DeqTrue pos _ => w_got w ++ [(pos, v)] | _ => w_got w end).
Definition with_memory (m : memory member) (w : wqueue) : wqueue :=
  WQueue m (w_data w) (w_mask w) (w_threads w) (w_in w) (w_sent w) (w_returns w) (w_got w).
Definition with_data (i : nat) (d : option T) (w : wqueue) : wqueue :=
  WQueue (w_memory w) (<[i := d]> (w_data w)) (w_mask w) (w_threads w) (w_in w) (w_sent w)
    (w_returns w) (w_got w).
Definition wwin_enqueue (x : T) (v : view) (w : wqueue) : wqueue :=
  WQueue (w_memory w) (w_data w) (w_mask w) (w_threads w) (w_in w ++ [x]) (w_sent w ++ [v])
    (w_returns w) (w_got w).

(** A step: impossible in this state, a data race, or the next state. *)
Inductive wresult := Impossible | Race | Next (w : wqueue).
Definition possible {A} (o : option A) (k : A -> wresult) : wresult :=
  match o with Some a => k a | None => Impossible end.
Definition ordered {A} (o : option A) (k : A -> wresult) : wresult :=
  match o with Some a => k a | None => Race end.

(** One access of thread [t]; [ts] is the time stamp it reads or writes. *)
Definition waccess (t ts : nat) (spurious : bool) (pc : qpc T) (v : view) (w : wqueue) : wresult :=
  let m := w_memory w in
  match pc with
  | Idle => Next w
  | ELoadPos x =>
      possible (load relaxed enqueue_pos ts v m) (fun '(pos, v) => Next (wgoto t (ELoadSeq x pos) v w))
  | ELoadSeq x pos =>
      possible (load acquire (sequence_ (wcell pos w)) ts v m) (fun '(seq, v) =>
        let d := dif seq pos in
        if d =? 0 then Next (wgoto t (ECas x pos) v w)
        else if d <? 0 then Next (wret t EnqFalse v w)
        else Next (wgoto t (ELoadPos x) v w))
  | ECas x pos =>
      possible (exchange_weak enqueue_pos pos (u64 (pos + 1)) ts spurious v m) (fun '(v, r) =>
        match r with
        | inl m => Next (wgoto t (EWrite x pos) v (wwin_enqueue x v (with_memory m w)))
        | inr pos => Next (wgoto t (ELoadSeq x pos) v w)
        end)
  | EWrite x pos =>
      ordered (modify (data_ (wcell pos w)) v m) (fun '(v, m) =>
        Next (wgoto t (EStore pos) v (with_data (wcell pos w) (Some x) (with_memory m w))))
  | EStore pos =>
      possible (store release (sequence_ (wcell pos w)) (u64 (pos + 1)) ts v m) (fun '(v, m) =>
        Next (wret t (EnqTrue pos) v (with_memory m w)))
  | DLoadPos =>
      possible (load relaxed dequeue_pos ts v m) (fun '(pos, v) => Next (wgoto t (DLoadSeq pos) v w))
  | DLoadSeq pos =>
      possible (load acquire (sequence_ (wcell pos w)) ts v m) (fun '(seq, v) =>
        let d := dif seq (u64 (pos + 1)) in
        if d =? 0 then Next (wgoto t (DCas pos) v w)
        else if d <? 0 then Next (wret t DeqFalse v w)
        else Next (wgoto t DLoadPos v w))
  | DCas pos =>
      possible (exchange_weak dequeue_pos pos (u64 (pos + 1)) ts spurious v m) (fun '(v, r) =>
        match r with
        | inl m => Next (wgoto t (DRead pos) v (with_memory m w))
        | inr pos => Next (wgoto t (DLoadSeq pos) v w)
        end)
  | DRead pos =>
      ordered (modify (data_ (wcell pos w)) v m) (fun '(v, m) =>
        Next (wgoto t (DStore pos (mjoin (w_data w !! wcell pos w))) v
                (with_data (wcell pos w) None (with_memory m w))))
  | DStore pos x =>
      possible (store release (sequence_ (wcell pos w)) (u64 (pos + w_mask w + 1)) ts v m) (fun '(v, m) =>
        Next (wret t (DeqTrue pos x) v (with_memory m w)))
  end.

(** A choice of the scheduler for one thread: a call, its next access, or that
    it learns, by some synchronisation outside the queue, what another thread
    knows. *)
Inductive wchoice := WCallEnqueue (x : T) | WCallDequeue | WAccess (ts : nat) (spurious : bool) | WLearn (t' : nat).

Definition wq_step (t : nat) (c : wchoice) (w : wqueue) : wresult :=
  let '(pc, v) := wthread t w in
  match c, pc with
  | WCallEnqueue x, Idle => Next (wgoto t (ELoadPos x) v w)
  | WCallDequeue, Idle => Next (wgoto t DLoadPos v w)
  | WAccess ts spurious, pc => waccess t ts spurious pc v w
  | WLearn t', pc => Next (wgoto t pc (join v (wthread t' w).2) w)
  | _, _ => Impossible
  end.
(** The last state, and whether a data race ended the run there. *)
Fixpoint wq_run (sched : list (nat * wchoice)) (w : wqueue) : option (wqueue * bool) :=
  match sched with
  | [] => Some (w, false)
  | (t, c) :: sched =>
      match wq_step t c w with
      | Next w => wq_run sched w
      | Race => Some (w, true)
      | Impossible => None
      end
  end.

(** The number of exchanges that succeeded on a position. *)
Definition wposition (l : member) (w : wqueue) : Z := Z.of_nat (size (history (w_memory w) l)) - 1.

(** [approx_size]: two relaxed loads, at [ts1] and [ts2]; other threads may
    step between them, from [w1] to [w2]. *)
Definition wapprox_size (ts1 ts2 : nat) (v : view) (w1 w2 : wqueue) : option (Z * view) :=
  '(first_pos, v) ← load relaxed dequeue_pos ts1 v (w_memory w1);
  '(last_pos, v) ← load relaxed enqueue_pos ts2 v (w_memory w2);
  Some (if last_pos <=? first_pos then 0
        else let size := u64 (last_pos - first_pos) in
             if size <? w_mask w1 + 1 then size else w_mask w1 + 1, v).
End WeakQueue.
Arguments wqueue T : clear implicits.
Arguments wchoice T : clear implicits.
Arguments wresult T : clear implicits.
