(* ===== verification/WeakQueueFacts.v ===== *)
(** * The bounded queue under the memory model of C++: no race, still a FIFO

    Every state reached under [acquire], [release] and [relaxed] matches a
    state of the sequentially consistent queue that satisfies the invariant of
    [MpmcQueueFacts].  The matching says what views know: the owner of a cell
    has seen every sequence number of it and every access of its data, and the
    latest number of a cell nobody owns carries that knowledge. *)
From S2P Require Import Prelude MpmcQueue MpmcQueueFacts Atomics WeakQueue.

Open Scope Z_scope.

(** ** The accesses *)
Section Accesses.
Implicit Types (v : view member) (m : memory member).

Lemma load_spec order l ts v m z v' :
  load order l ts v m = Some (z, v') ->
  view_le v v' /\ (ts <= v' l)%nat
  /\ exists msg, history m l !! ts = Some msg /\ z = m_value msg
       /\ (order = acquire -> view_le (m_view msg) v').
Proof.
  unfold load. case_match; [|done]. destruct (history m l !! ts) as [msg|]; [|done]. simpl.
  intros [= <- <-]. pose proof (see_at l ts v). case_decide.
  - split; [etransitivity; [apply view_le_see|apply view_le_join_l]|].
    split; [unfold join; lia|]. exists msg. split_and!; try done. intros _. apply view_le_join_r.
  - split; [apply view_le_see|]. split; [done|]. by exists msg.
Qed.

(** The history of a position: one message per value, from 0 on. *)
Definition pos_ok m l (n : Z) : Prop :=
  (forall ts msg, history m l !! ts = Some msg -> m_value msg = Z.of_nat ts /\ Z.of_nat ts <= n)
  /\ (forall ts, Z.of_nat ts <= n -> is_Some (history m l !! ts)).

Lemma load_position order l ts v m n z v' :
  load order l ts v m = Some (z, v') -> pos_ok m l n -> 0 <= z <= n /\ view_le v v'.
Proof. intros (Hv & _ & msg & Hm & -> & _)%load_spec [Hp _]. split; [|done]. destruct (Hp _ _ Hm). lia. Qed.

Lemma history_add l ts msg m l' :
  history (add_message l ts msg m) l' = if decide (l' = l) then <[ts := msg]> (history m l') else history m l'.
Proof. done. Qed.

(** An exchange succeeds at the last value only. *)
Lemma exchange_spec l pos ts spurious v m n v' r :
  exchange_weak l pos (u64 (pos + 1)) ts spurious v m = Some (v', r) -> pos_ok m l n -> n < 2 ^ 62 ->
  view_le v v' /\
  match r with
  | inl m' => pos = n /\ pos_ok m' l (n + 1) /\ (forall l', l' <> l -> history m' l' = history m l')
              /\ accesses m' = accesses m
  | inr z => 0 <= z <= n
  end.
Proof.
  unfold exchange_weak. case_match; [|done]. destruct (history m l !! ts) as [msg|] eqn:Hm; [|done]. simpl.
  intros He [Hp Hall] Hn. destruct (Hp _ _ Hm) as [Hv Hts]. case_match eqn:Hc; simplify_eq;
    (split; [apply view_le_see|]); [|lia].
  bool_to_prop. match goal with H : history _ _ !! S _ = None |- _ => rename H into Hnone end.
  assert (Z.of_nat ts = n). { destruct (decide (Z.of_nat (S ts) <= n)); [|lia]. by destruct (Hall (S ts) ltac:(done)); simplify_eq. }
  split; [lia|]. split; [|split; [|done]].
  - split; intros ts'; rewrite history_add, decide_True by done.
    + intros msg' [[<- <-]|[_ H']]%lookup_insert_Some; simpl; [|destruct (Hp _ _ H'); lia].
      rewrite u64_id by (unfold size_max; lia). lia.
    + intros Hle. destruct (decide (ts' = S ts)) as [->|]; [by rewrite lookup_insert_eq|].
      rewrite lookup_insert_ne by done. apply Hall. lia.
  - intros l' Hl. by rewrite history_add, decide_False.
Qed.

Lemma store_spec l z ts v m v' m' :
  store release l z ts v m = Some (v', m') -> (forall ts' msg, history m l !! ts' = Some msg -> (ts' <= v l)%nat) ->
  view_le v v' /\ (ts <= v' l)%nat /\ (forall ts' msg, history m l !! ts' = Some msg -> (ts' < ts)%nat)
  /\ m' = add_message l ts (Message z v') m.
Proof.
  unfold store. destruct (Nat.ltb_spec (v l) ts) as [Hlt|]; [|done]. case_match; [done|].
  rewrite decide_True by done. intros [= <- <-] Hseen.
  split; [apply view_le_see|]. split; [apply see_at|]. split; [|done].
  intros ts' msg Hm. specialize (Hseen _ _ Hm). lia.
Qed.

(** A thread that knows all accesses of a plain object does not race. *)
Lemma modify_spec l v m :
  (accesses m l <= v l)%nat ->
  exists v' m', modify l v m = Some (v', m') /\ view_le v v' /\ history m' = history m
    /\ (accesses m' l <= v' l)%nat /\ (forall l', l' <> l -> accesses m' l' = accesses m l').
Proof.
  intros Hk. unfold modify. destruct (Nat.leb_spec (accesses m l) (v l)); [|lia].
  do 2 eexists. split; [done|]. split; [apply view_le_see|]. split; [done|]. simpl. split.
  - rewrite decide_True by done. apply see_at.
  - intros l' Hl. by rewrite decide_False.
Qed.

Lemma exchange_grows l pos z ts b v m v' r : exchange_weak l pos z ts b v m = Some (v', r) -> view_le v v'.
Proof.
  unfold exchange_weak. case_match; [|done]. destruct (history m l !! ts); [|done]. simpl.
  case_match; intros; simplify_eq; apply view_le_see.
Qed.
Lemma store_grows order l z ts v m v' m' : store order l z ts v m = Some (v', m') -> view_le v v'.
Proof. unfold store. repeat case_match; intros; simplify_eq; apply view_le_see. Qed.
Lemma modify_grows l v m v' m' : modify l v m = Some (v', m') -> view_le v v'.
Proof. unfold modify. case_match; intros; simplify_eq; apply view_le_see. Qed.

Lemma pos_ok_same m m' l n : history m' l = history m l -> pos_ok m l n -> pos_ok m' l n.
Proof. intros Hh. unfold pos_ok. by rewrite Hh. Qed.
Lemma position_size m l n : 0 <= n -> pos_ok m l n -> Z.of_nat (size (history m l)) = n + 1.
Proof.
  intros Hn [H1 H2]. assert (Hd : dom (history m l) = set_seq (C := gset nat) 0 (S (Z.to_nat n))).
  { apply set_eq. intros ts. rewrite elem_of_dom, elem_of_set_seq. split.
    - intros [msg Hm]. destruct (H1 _ _ Hm). lia.
    - intros [_ Hts]. apply H2. lia. }
  rewrite <- size_dom, Hd, size_set_seq. lia.
Qed.
End Accesses.

(** The order of the winners only grows. *)
Lemma wstep_in {T} t c (w w' : wqueue T) : wq_step t c w = Next w' -> len (w_in w) <= len (w_in w').
Proof.
  unfold wq_step. destruct (wthread t w) as [pc v].
  destruct c as [x| |ts b|t']; [destruct pc; intros [= <-]; simpl; lia..| |intros [= <-]; simpl; lia].
  destruct pc; cbn [waccess]; unfold possible, ordered; intros Hw; repeat case_match; simplify_eq; simpl;
    autorewrite with cxx; lia.
Qed.
Lemma wrun_in {T} sched (w w' : wqueue T) b : wq_run sched w = Some (w', b) -> len (w_in w) <= len (w_in w').
Proof.
  revert w; induction sched as [|[t c] sched IH]; intros w; simpl; [by intros [= <- _]|].
  destruct (wq_step t c w) as [| |w1] eqn:E; [done|by intros [= <- _]|]. intros Hr%IH. apply wstep_in in E. lia.
Qed.

Section Simulation.
Context {T : Type}.
Variables (size k : Z).
Hypothesis size_pow : size = 2 ^ k.
Hypothesis k_pos : 1 <= k.
Implicit Types (w : wqueue T) (q : queue T) (v : view member) (ph : nat -> phase).
Notation idx := (idx size).
Notation inv := (inv size).

(** ** What a view knows *)

(** The view of the producer of the value in the cell. *)
Definition sent_before (sent : list (view member)) (f : phase) v : Prop :=
  match f with
  | Free _ => True
  | Writing p _ | Full p | Reading p _ => forall u, sent !! Z.to_nat p = Some u -> view_le u v
  end.
Record cell_known (m : memory member) (sent : list (view member)) (f : phase) (i : nat) v : Prop := {
  kn_seq : forall ts msg, history m (sequence_ i) !! ts = Some msg -> (ts <= v (sequence_ i))%nat;
  kn_data : (accesses m (data_ i) <= v (data_ i))%nat;
  kn_sent : sent_before sent f v
}.
(** The cells a thread must know: the one it owns, or is about to win. *)
Definition cares (E D : Z) (pc : qpc T) (i : nat) : Prop :=
  (exists f, owner pc = Some f /\ i = idx (phase_pos f))
  \/ (exists x, pc = ECas x E /\ i = idx E)
  \/ (pc = DCas D /\ i = idx D).
Definition unowned (f : phase) : Prop := exists p, f = Free p \/ f = Full p.
(** The latest sequence number of a cell is the current one. *)
Definition cell_ok (m : memory member) (sent : list (view member)) (d : option (option T)) (f : phase)
    (c : cell (T := T)) (i : nat) : Prop :=
  data c = mjoin d /\
  exists ts msg, history m (sequence_ i) !! ts = Some msg /\ m_value msg = sequence c
    /\ (forall ts' msg', history m (sequence_ i) !! ts' = Some msg' ->
          (ts' <= ts)%nat /\ 0 <= m_value msg' <= sequence c /\ (m_value msg' = sequence c -> ts' = ts))
    /\ (unowned f -> (accesses m (data_ i) <= m_view msg (data_ i))%nat /\ sent_before sent f (m_view msg)).

Record sim ph w q : Prop := {
  s_mask : w_mask w = buffer_mask_ q;
  s_threads : forall t, (wthread t w).1 = thread t q;
  s_in : w_in w = q_in q;
  s_returns : w_returns w = q_returns q;
  s_sent : length (w_sent w) = length (w_in w);
  s_enqueue : pos_ok (w_memory w) enqueue_pos (enqueue_pos_ q);
  s_dequeue : pos_ok (w_memory w) dequeue_pos (dequeue_pos_ q);
  s_data : length (w_data w) = Z.to_nat size;
  s_cells : forall i, (i < Z.to_nat size)%nat -> cell_ok (w_memory w) (w_sent w) (w_data w !! i) (ph i) (default (Cell 0 None) (buffer_ q !! i)) i;
  s_known : forall t i, cares (enqueue_pos_ q) (dequeue_pos_ q) (thread t q) i ->
    cell_known (w_memory w) (w_sent w) (ph i) i (wthread t w).2;
  s_got : forall p v, (p, v) ∈ w_got w -> exists u, w_sent w !! Z.to_nat p = Some u /\ view_le u v;
  s_got_positions : (w_got w).*1 = omap dequeued (w_returns w)
}.

Lemma sent_before_mono sent f v v' : sent_before sent f v -> view_le v v' -> sent_before sent f v'.
Proof. intros Hs Hv. destruct f; simpl in *; [done|intros u Hu; etransitivity; [by apply Hs|done]..]. Qed.
Lemma known_mono m sent f i v v' : cell_known m sent f i v -> view_le v v' -> cell_known m sent f i v'.
Proof.
  intros [H1 H2 H3] Hv. split.
  - intros ts msg Hm. specialize (H1 _ _ Hm). specialize (Hv (sequence_ i)). lia.
  - specialize (Hv (data_ i)). lia.
  - by eapply sent_before_mono.
Qed.
(** A cell that a step leaves alone. *)
Lemma known_same m m' sent sent' f i v :
  history m' (sequence_ i) = history m (sequence_ i) -> accesses m' (data_ i) = accesses m (data_ i) ->
  (sent_before sent f v -> sent_before sent' f v) ->
  cell_known m sent f i v -> cell_known m' sent' f i v.
Proof. intros Hh Ha Hs [H1 H2 H3]. split; rewrite ?Hh, ?Ha; auto. Qed.
Lemma cell_ok_same m m' sent sent' d f c i :
  history m' (sequence_ i) = history m (sequence_ i) -> accesses m' (data_ i) = accesses m (data_ i) ->
  (forall v, sent_before sent f v -> sent_before sent' f v) ->
  cell_ok m sent d f c i -> cell_ok m' sent' d f c i.
Proof.
  intros Hh Ha Hs (Hc & ts & msg & Hm & Hv & Hl & Hu). unfold cell_ok. rewrite Hh, Ha.
  split; [done|]. exists ts, msg. split_and!; try done. intros Hf. destruct (Hu Hf). auto.
Qed.
Lemma wcell_idx ph w q p : inv ph q -> sim ph w q -> wcell p w = idx p.
Proof.
  intros Hi Hs. rewrite <- (cell_index_idx size k size_pow k_pos q p (i_mask _ _ _ Hi)).
  unfold wcell, cell_index. by rewrite (s_mask _ _ _ Hs).
Qed.
Lemma cell_at_ok ph w q p :
  inv ph q -> sim ph w q -> cell_ok (w_memory w) (w_sent w) (w_data w !! idx p) (ph (idx p)) (cell_at p q) (idx p).
Proof.
  intros Hi Hs. unfold cell_at. rewrite (cell_index_idx size k size_pow k_pos q p (i_mask _ _ _ Hi)).
  apply (s_cells _ _ _ Hs), (idx_lt size k size_pow k_pos).
Qed.

(** What an acquire load of a sequence number tells. *)
Lemma load_sequence ph w q p ts v z v' :
  inv ph q -> sim ph w q -> load acquire (sequence_ (idx p)) ts v (w_memory w) = Some (z, v') ->
  view_le v v' /\ 0 <= z <= sequence (cell_at p q)
  /\ (z = sequence (cell_at p q) -> unowned (ph (idx p)) -> cell_known (w_memory w) (w_sent w) (ph (idx p)) (idx p) v').
Proof.
  intros Hi Hs (Hv & Hts & msg & Hm & -> & Hacq)%load_spec.
  destruct (cell_at_ok ph w q p Hi Hs) as (_ & tl & last & Hlast & Hval & Hl & Hu).
  destruct (Hl _ _ Hm) as (_ & Hr & Heq). split; [done|]. split; [done|].
  intros Hz Hf. specialize (Heq Hz). subst tl. simplify_eq. destruct (Hu Hf) as [Ha Hb].
  specialize (Hacq eq_refl). split.
  - intros ts' msg' Hm'. destruct (Hl _ _ Hm') as [? _]. lia.
  - specialize (Hacq (data_ (idx p))). lia.
  - by eapply sent_before_mono.
Qed.

(** The cell of the next position to enqueue, or to dequeue, is never ahead of it. *)
Lemma sequence_at_enqueue ph q : inv ph q -> sequence (cell_at (enqueue_pos_ q) q) <= enqueue_pos_ q.
Proof.
  intros Hi. rewrite (sequence_phase size k size_pow k_pos ph) by done.
  destruct (phase_at size k size_pow k_pos ph q (enqueue_pos_ q) Hi) as [Hm [_ Hok]].
  destruct (ph _) as [p|p b|p|p b]; simpl in *; try lia.
  assert (p = enqueue_pos_ q); [|lia]. apply (mod_near size k size_pow k_pos); [done|lia].
Qed.
Lemma sequence_at_dequeue ph q : inv ph q -> sequence (cell_at (dequeue_pos_ q) q) <= dequeue_pos_ q + 1.
Proof.
  intros Hi. rewrite (sequence_phase size k size_pow k_pos ph) by done.
  destruct (phase_at size k size_pow k_pos ph q (dequeue_pos_ q) Hi) as [Hm [_ Hok]].
  pose proof (i_dequeue _ _ _ Hi). pose proof (i_full _ _ _ Hi).
  destruct (ph _) as [p|p b|p|p b]; simpl in *; try lia;
    (assert (p = dequeue_pos_ q); [|lia]); apply (mod_near size k size_pow k_pos); (done || lia).
Qed.

(** ** Steps that only move the program counter *)
Lemma wthread_goto t t' pc v w :
  wthread t' (wgoto t pc v w) = if decide (t' = t) then (pc, v) else wthread t' w.
Proof.
  unfold wthread, wgoto; simpl. case_decide as Ht; [subst; by rewrite lookup_insert_eq|].
  by rewrite lookup_insert_ne.
Qed.
Lemma sim_goto ph w q t pc v :
  sim ph w q -> (forall i, cares (enqueue_pos_ q) (dequeue_pos_ q) pc i -> cell_known (w_memory w) (w_sent w) (ph i) i v) ->
  sim ph (wgoto t pc v w) (goto t pc q).
Proof.
  intros [] Hk. split; try done.
  - intros t'. rewrite wthread_goto, thread_goto. by case_decide.
  - intros t' i. rewrite wthread_goto, thread_goto. case_decide; [by apply Hk|apply s_known0].
Qed.
Lemma sim_learn ph w q t v :
  sim ph w q -> sim ph (wgoto t (wthread t w).1 (join (wthread t w).2 v) w) q.
Proof.
  intros []. split; try done.
  - intros t'. rewrite wthread_goto. case_decide; [subst|]; apply s_threads0.
  - intros t' i Hc. rewrite wthread_goto. case_decide; [subst|by apply s_known0].
    eapply known_mono; [by apply s_known0|apply view_le_join_l].
Qed.
Lemma cares_idle E D i : ~ cares E D Idle i.
Proof. intros [(? & ? & _)|[(? & ? & _)|[? _]]]; discriminate. Qed.
Lemma sim_ret_false ph w q t r v :
  sim ph w q -> dequeued r = None -> sim ph (wret t r v w) (ret t r q).
Proof.
  intros Hs Hr. pose proof (sim_goto ph w q t Idle v Hs) as Hg.
  destruct Hg as []; [by intros i ?%cares_idle|]. split; try done.
  - simpl. by rewrite (s_returns _ _ _ Hs).
  - intros p u Hin. apply s_got0. by destruct r.
  - simpl. rewrite omap_app. simpl. rewrite Hr, app_nil_r. by destruct r.
Qed.

(** ** The exchanges that succeed *)
Lemma sent_app sent u E D f v :
  phase_ok size E D f -> E = Z.of_nat (length sent) -> sent_before sent f v -> sent_before (sent ++ [u]) f v.
Proof.
  intros [H0 Hf] HE Hs. destruct f as [p|p b|p|p b]; simpl in *; [done|..];
    intros u' Hu; apply Hs; by rewrite lookup_app_l in Hu by lia.
Qed.
Lemma cell_phase_ok ph q i : inv ph q -> (i < Z.to_nat size)%nat -> phase_ok size (enqueue_pos_ q) (dequeue_pos_ q) (ph i).
Proof. intros Hi Hlt. apply (i_cells _ _ _ Hi i Hlt). Qed.
Lemma cares_lt E D pc i : cares E D pc i -> (i < Z.to_nat size)%nat.
Proof. intros [(? & _ & ->)|[(? & _ & ->)|[_ ->]]]; apply (idx_lt size k size_pow k_pos). Qed.

Lemma cares_elsewhere_free ph q t i :
  inv ph q -> ph (idx (enqueue_pos_ q)) = Free (enqueue_pos_ q) ->
  cares (enqueue_pos_ q + 1) (dequeue_pos_ q) (thread t q) i ->
  cares (enqueue_pos_ q) (dequeue_pos_ q) (thread t q) i /\ i <> idx (enqueue_pos_ q).
Proof.
  intros Hi Hfree Hc. destruct (i_threads _ _ _ Hi t) as [_ Hok].
  destruct Hc as [(f & Ho & ->)|[(x & Ht & ->)|[Ht ->]]].
  - split; [left; eauto|]. eapply owner_elsewhere; eauto.
  - rewrite Ht in Hok. lia.
  - split; [right; right; done|]. rewrite Ht in Hok. destruct Hok as [_ Hd]. intros Heq.
    specialize (Hd eq_refl). rewrite Heq in Hd. congruence.
Qed.
Lemma sim_win_enqueue ph w q t x v m :
  inv ph q -> sim ph w q -> thread t q = ECas x (enqueue_pos_ q) -> enqueue_pos_ q < 2 ^ 62 ->
  view_le (wthread t w).2 v -> pos_ok m enqueue_pos (enqueue_pos_ q + 1) ->
  (forall l, l <> enqueue_pos -> history m l = history (w_memory w) l) ->
  accesses m = accesses (w_memory w) ->
  sim (upd ph (idx (enqueue_pos_ q)) (Writing (enqueue_pos_ q) false))
    (wgoto t (EWrite x (enqueue_pos_ q)) v (wwin_enqueue x v (with_memory m w)))
    (goto t (EWrite x (enqueue_pos_ q)) (win_enqueue x q)).
Proof.
  intros Hi Hs Ht HE Hv Hp Hh Ha. set (E := enqueue_pos_ q) in *.
  destruct (i_threads _ _ _ Hi t) as [_ Hfree]. rewrite Ht in Hfree. destruct Hfree as [HEr Hfree].
  specialize (Hfree eq_refl). fold E in HEr, Hfree.
  assert (Hlen : E = Z.of_nat (length (w_sent w))).
  { unfold E. rewrite (i_enqueue _ _ _ Hi), <- (s_in _ _ _ Hs), (s_sent _ _ _ Hs). done. }
  assert (Hu : u64 (E + 1) = E + 1) by (apply u64_id; unfold size_max; lia).
  pose proof (sent_app (w_sent w) v E (dequeue_pos_ q)) as Happ.
  destruct Hs as []. split; simpl; try done; fold E; rewrite ?Hu.
  - intros t'. rewrite (wthread_goto t t'), (thread_goto t t'). case_decide; [done|apply s_threads0].
  - by rewrite s_in0.
  - rewrite !length_app, s_sent0. done.
  - done.
  - apply (pos_ok_same (w_memory w)); [by apply Hh|done].
  - intros i Hlt. pose proof (cell_phase_ok ph q i Hi Hlt) as Hok. fold E in Hok.
    destruct (decide (i = idx E)) as [->|Hne].
    + rewrite upd_eq. destruct (s_cells0 _ Hlt) as (Hd & ts & msg & Hm & Hval & Hl & _).
      split; [done|]. exists ts, msg. simpl. rewrite Hh by done. split_and!; try done. by intros (p & [|]).
    + rewrite upd_ne by done. eapply cell_ok_same; [by rewrite Hh|by rewrite Ha| |by apply s_cells0].
      intros v'. by apply Happ.
  - intros t' i. rewrite (wthread_goto t t'), (thread_goto t t'). case_decide as Hd.
    + intros [(f & [= <-] & ->)|[(? & ? & _)|[? _]]]; [|discriminate..]. cbn [phase_pos]. rewrite upd_eq.
      destruct (s_known0 t (idx E)) as [H1 H2 _]; [right; left; rewrite Ht; by eexists|].
      split; rewrite ?Hh, ?Ha by done.
      * intros ts msg Hm. specialize (H1 _ _ Hm). specialize (Hv (sequence_ (idx E))). simpl. lia.
      * specialize (Hv (data_ (idx E))). simpl. lia.
      * simpl. rewrite Hlen, Nat2Z.id, lookup_app_r, Nat.sub_diag by lia. by intros u [= <-].
    + intros Hc. apply (cares_elsewhere_free ph q t' i Hi Hfree) in Hc as [Hc Hne]. rewrite upd_ne by done.
      eapply known_same; [by rewrite Hh|by rewrite Ha| |by apply s_known0].
      apply Happ; [|done]. apply (cell_phase_ok ph q i Hi). by eapply cares_lt.
  - intros p u Hin. destruct (s_got0 p u Hin) as (u' & Hu' & Hle). exists u'. split; [|done].
    by apply lookup_app_l_Some.
Qed.

Lemma cares_elsewhere_full ph q t i :
  inv ph q -> ph (idx (dequeue_pos_ q)) = Full (dequeue_pos_ q) ->
  cares (enqueue_pos_ q) (dequeue_pos_ q + 1) (thread t q) i ->
  cares (enqueue_pos_ q) (dequeue_pos_ q) (thread t q) i /\ i <> idx (dequeue_pos_ q).
Proof.
  intros Hi Hfull Hc. destruct (i_threads _ _ _ Hi t) as [_ Hok].
  destruct Hc as [(f & Ho & ->)|[(x & Ht & ->)|[Ht ->]]].
  - split; [left; eauto|]. eapply owner_elsewhere; eauto.
  - split; [right; left; eauto|]. rewrite Ht in Hok. destruct Hok as [_ Hd]. intros Heq.
    specialize (Hd eq_refl). rewrite Heq in Hd. congruence.
  - rewrite Ht in Hok. lia.
Qed.
Lemma sim_win_dequeue ph w q t v m :
  inv ph q -> sim ph w q -> thread t q = DCas (dequeue_pos_ q) -> dequeue_pos_ q < 2 ^ 62 ->
  view_le (wthread t w).2 v -> pos_ok m dequeue_pos (dequeue_pos_ q + 1) ->
  (forall l, l <> dequeue_pos -> history m l = history (w_memory w) l) ->
  accesses m = accesses (w_memory w) ->
  sim (upd ph (idx (dequeue_pos_ q)) (Reading (dequeue_pos_ q) false))
    (wgoto t (DRead (dequeue_pos_ q)) v (with_memory m w))
    (goto t (DRead (dequeue_pos_ q)) (win_dequeue q)).
Proof.
  intros Hi Hs Ht HD Hv Hp Hh Ha. set (D := dequeue_pos_ q) in *.
  destruct (i_threads _ _ _ Hi t) as [_ Hfull]. rewrite Ht in Hfull. destruct Hfull as [HDr Hfull].
  specialize (Hfull eq_refl). fold D in HDr, Hfull.
  assert (Hu : u64 (D + 1) = D + 1) by (apply u64_id; unfold size_max; lia).
  destruct Hs as []. split; simpl; try done; fold D; rewrite ?Hu.
  - intros t'. rewrite (wthread_goto t t'), (thread_goto t t'). case_decide; [done|apply s_threads0].
  - apply (pos_ok_same (w_memory w)); [by apply Hh|done].
  - done.
  - intros i Hlt. destruct (decide (i = idx D)) as [->|Hne].
    + rewrite upd_eq. destruct (s_cells0 _ Hlt) as (Hd & ts & msg & Hm & Hval & Hl & _).
      split; [done|]. exists ts, msg. simpl. rewrite Hh by done. split_and!; try done. by intros (p & [|]).
    + rewrite upd_ne by done. eapply cell_ok_same; [by rewrite Hh|by rewrite Ha|done|by apply s_cells0].
  - intros t' i. rewrite (wthread_goto t t'), (thread_goto t t'). case_decide as Hd.
    + intros [(f & [= <-] & ->)|[(? & ? & _)|[? _]]]; [|discriminate..]. cbn [phase_pos]. rewrite upd_eq.
      apply (known_same (w_memory w) m (w_sent w)); [by rewrite Hh|by rewrite Ha|done|].
      apply known_mono with (2 := Hv). rewrite <- (s_threads0 t) in Ht.
      destruct (s_known0 t (idx D)) as [H1 H2 H3]; [right; right; by rewrite <- s_threads0|].
      rewrite Hfull in H3. by split.
    + intros Hc. apply (cares_elsewhere_full ph q t' i Hi Hfull) in Hc as [Hc Hne]. rewrite upd_ne by done.
      eapply known_same; [by rewrite Hh|by rewrite Ha|done|by apply s_known0].
Qed.

(** ** Steps of the owner of a cell *)
Lemma cares_other ph q t t' old i :
  inv ph q -> owner (thread t q) = Some old -> t' <> t ->
  cares (enqueue_pos_ q) (dequeue_pos_ q) (thread t' q) i -> i <> idx (phase_pos old).
Proof.
  intros Hi Ho Hne Hc ->. pose proof (owner_phase _ _ _ _ _ Hi Ho) as Hold.
  destruct (owner_cases _ _ Ho) as [Hnofree Hnofull]. destruct (i_threads _ _ _ Hi t') as [_ Hok].
  destruct Hc as [(f & Hf & Heq)|[(x & Ht & Heq)|[Ht Heq]]].
  - pose proof (owner_phase _ _ _ _ _ Hi Hf) as Hp. rewrite <- Heq, Hold in Hp. subst f.
    apply Hne. by eapply (i_owners _ _ _ Hi).
  - rewrite Ht in Hok. destruct Hok as [_ Hp]. specialize (Hp eq_refl). rewrite <- Heq, Hold in Hp. by eapply Hnofree.
  - rewrite Ht in Hok. destruct Hok as [_ Hp]. specialize (Hp eq_refl). rewrite <- Heq, Hold in Hp. by eapply Hnofull.
Qed.

Lemma sim_own ph w q t pc v old new c rs m d rets got :
  let i := idx (phase_pos old) in
  let w' := WQueue m d (w_mask w) (<[t := (pc, v)]> (w_threads w)) (w_in w) (w_sent w) rets got in
  inv ph q -> sim ph w q -> rets = w_returns w ++ rs -> owner (thread t q) = Some old ->
  (forall l, l <> sequence_ i -> history m l = history (w_memory w) l) ->
  (forall l, l <> data_ i -> accesses m l = accesses (w_memory w) l) ->
  length d = length (w_data w) -> (forall j, j <> i -> d !! j = w_data w !! j) ->
  cell_ok m (w_sent w) (d !! i) new c i ->
  (forall j, cares (enqueue_pos_ q) (dequeue_pos_ q) pc j -> j = i /\ cell_known m (w_sent w) new i v) ->
  (forall p u, (p, u) ∈ got -> exists u', w_sent w !! Z.to_nat p = Some u' /\ view_le u' u) ->
  got.*1 = omap dequeued rets ->
  sim (upd ph i new) w' (own_update t pc (phase_pos old) c rs q).
Proof.
  intros i w' Hi Hs Hrets Ho Hh Ha Hlen Hd Hcell Hknown Hgot Hpos.
  pose proof (cell_index_idx size k size_pow k_pos q (phase_pos old) (i_mask _ _ _ Hi)) as Hci. fold i in Hci.
  pose proof (fun t' j => cares_other ph q t t' old j Hi Ho) as Hother. fold i in Hother.
  assert (Hw : forall t', wthread t' w' = if decide (t' = t) then (pc, v) else wthread t' w)
    by (intros t'; exact (wthread_goto t t' pc v w)).
  destruct Hs as []. split; simpl; try done.
  - intros t'. rewrite Hw, thread_own. case_decide; [done|apply s_threads0].
  - by rewrite Hrets, s_returns0.
  - apply (pos_ok_same (w_memory w)); [by apply Hh|done].
  - apply (pos_ok_same (w_memory w)); [by apply Hh|done].
  - by rewrite Hlen.
  - intros j Hlt. rewrite Hci. destruct (decide (j = i)) as [->|Hne].
    + rewrite upd_eq, list_lookup_insert_eq; [done|]. by rewrite (i_length _ _ _ Hi).
    + rewrite upd_ne, list_lookup_insert_ne, Hd by done.
      eapply cell_ok_same; [apply Hh; congruence|apply Ha; congruence|done|by apply s_cells0].
  - intros t' j. rewrite Hw, thread_own. case_decide as Ht; intros Hc.
    + destruct (Hknown j Hc) as [-> Hk]. by rewrite upd_eq.
    + specialize (Hother t' j Ht Hc). rewrite upd_ne by done.
      eapply known_same; [apply Hh; congruence|apply Ha; congruence|done|by apply s_known0].
Qed.

(** ** One access *)

(** A step from a matched state: no race, and the next state is matched. *)
Definition step_ok (r : wresult T) : Prop :=
  match r with
  | Impossible => True
  | Race => False
  | Next w' => len (w_in w') + size <= 2 ^ 62 -> exists ph' q', inv ph' q' /\ sim ph' w' q'
  end.
Lemma wthread_split ph w q t pc v :
  sim ph w q -> wthread t w = (pc, v) -> thread t q = pc /\ (wthread t w).2 = v.
Proof. intros Hs Ht. rewrite <- (s_threads _ _ _ Hs), Ht. done. Qed.
Lemma goto_ok ph w q t pc v :
  inv ph q -> sim ph w q -> owner (thread t q) = None -> owner pc = None ->
  thread_ok size (enqueue_pos_ q) (dequeue_pos_ q) (q_in q) ph pc ->
  (forall i, cares (enqueue_pos_ q) (dequeue_pos_ q) pc i -> cell_known (w_memory w) (w_sent w) (ph i) i v) ->
  step_ok (Next (wgoto t pc v w)).
Proof.
  intros Hi Hs Ho Hpc Hok Hk _. exists ph, (goto t pc q). split; [by apply inv_goto|by apply sim_goto].
Qed.
Lemma ret_false_ok ph w q t r v :
  inv ph q -> sim ph w q -> owner (thread t q) = None -> dequeued r = None -> step_ok (Next (wret t r v w)).
Proof.
  intros Hi Hs Ho Hr _. exists ph, (ret t r q).
  split; [by apply (inv_ret_false size k size_pow k_pos)|by apply sim_ret_false].
Qed.

(** A loaded sequence number that lets a thread try the next position. *)
Lemma enqueue_ready ph w q ts v v' :
  inv ph q -> sim ph w q ->
  load acquire (sequence_ (idx (enqueue_pos_ q))) ts v (w_memory w) = Some (enqueue_pos_ q, v') ->
  ph (idx (enqueue_pos_ q)) = Free (enqueue_pos_ q)
  /\ cell_known (w_memory w) (w_sent w) (ph (idx (enqueue_pos_ q))) (idx (enqueue_pos_ q)) v'.
Proof.
  intros Hi Hs (_ & Hz & Hk)%(load_sequence ph w q); [|done..]. pose proof (sequence_at_enqueue ph q Hi).
  assert (Hf : ph (idx (enqueue_pos_ q)) = Free (enqueue_pos_ q))
    by (apply (sequence_free size k size_pow k_pos ph q); (done || lia)).
  split; [done|]. apply Hk; [lia|]. rewrite Hf. by eexists; left.
Qed.
Lemma dequeue_ready ph w q ts v v' :
  inv ph q -> sim ph w q ->
  load acquire (sequence_ (idx (dequeue_pos_ q))) ts v (w_memory w) = Some (dequeue_pos_ q + 1, v') ->
  ph (idx (dequeue_pos_ q)) = Full (dequeue_pos_ q)
  /\ cell_known (w_memory w) (w_sent w) (ph (idx (dequeue_pos_ q))) (idx (dequeue_pos_ q)) v'.
Proof.
  intros Hi Hs (_ & Hz & Hk)%(load_sequence ph w q); [|done..]. pose proof (sequence_at_dequeue ph q Hi).
  pose proof (small_positions size k k_pos ph q Hi) as [_ HD].
  assert (Hf : ph (idx (dequeue_pos_ q)) = Full (dequeue_pos_ q))
    by (apply (sequence_full size k size_pow k_pos ph q); (done || lia)).
  split; [done|]. apply Hk; [lia|]. rewrite Hf. by eexists; right.
Qed.

Ltac cares_none := intros ? [(? & ? & _)|[(? & ? & _)|[? _]]]; discriminate.

Lemma step_load_enqueue ph w q t ts b x pos v :
  inv ph q -> sim ph w q -> wthread t w = (ELoadSeq x pos, v) -> step_ok (waccess t ts b (ELoadSeq x pos) v w).
Proof.
  intros Hi Hs Hw. destruct (wthread_split _ _ _ _ _ _ Hs Hw) as [Ht _].
  assert (Ho : owner (thread t q) = None) by (by rewrite Ht).
  destruct (i_threads _ _ _ Hi t) as [_ Hb]. rewrite Ht in Hb. cbn [waccess].
  rewrite (wcell_idx ph w q) by done.
  destruct (load _ _ _ _ _) as [[z v']|] eqn:Hl; [|done]. cbn [possible].
  pose proof (load_sequence ph w q pos ts v z v' Hi Hs Hl) as (_ & Hz & _).
  pose proof (sequence_small size k size_pow k_pos ph q pos Hi).
  pose proof (small_positions size k k_pos ph q Hi). pose proof (size_ge_2 size k size_pow k_pos).
  rewrite dif_small by lia. destruct (Z.eqb_spec (z - pos) 0) as [Hd|_].
  - assert (z = pos) as -> by lia. apply (goto_ok ph w q); try done.
    + split; [done|]. split; [done|]. intros ->. eapply enqueue_ready; eauto.
    + intros i [(? & ? & _)|[(? & [= <- ->] & ->)|[? _]]]; [discriminate| |discriminate]. eapply enqueue_ready; eauto.
  - case_match; [by apply (ret_false_ok ph w q)|]. apply (goto_ok ph w q); try done. cares_none.
Qed.
Lemma step_load_dequeue ph w q t ts b pos v :
  inv ph q -> sim ph w q -> wthread t w = (DLoadSeq pos, v) -> step_ok (waccess t ts b (DLoadSeq pos) v w).
Proof.
  intros Hi Hs Hw. destruct (wthread_split _ _ _ _ _ _ Hs Hw) as [Ht _].
  assert (Ho : owner (thread t q) = None) by (by rewrite Ht).
  destruct (i_threads _ _ _ Hi t) as [_ Hb]. rewrite Ht in Hb. cbn [waccess].
  rewrite (wcell_idx ph w q) by done.
  destruct (load _ _ _ _ _) as [[z v']|] eqn:Hl; [|done]. cbn [possible].
  pose proof (load_sequence ph w q pos ts v z v' Hi Hs Hl) as (_ & Hz & _).
  pose proof (sequence_small size k size_pow k_pos ph q pos Hi).
  pose proof (small_positions size k k_pos ph q Hi). pose proof (size_ge_2 size k size_pow k_pos).
  rewrite u64_id, dif_small by (unfold size_max; lia). destruct (Z.eqb_spec (z - (pos + 1)) 0) as [Hd|_].
  - assert (z = pos + 1) as -> by lia. apply (goto_ok ph w q); try done.
    + split; [done|]. split; [done|]. intros ->. eapply dequeue_ready; eauto.
    + intros i [(? & ? & _)|[(? & ? & _)|[[= ->] ->]]]; [discriminate..|]. eapply dequeue_ready; eauto.
  - case_match; [by apply (ret_false_ok ph w q)|]. apply (goto_ok ph w q); try done. cares_none.
Qed.

Lemma step_exchange_enqueue ph w q t ts b x pos v :
  inv ph q -> sim ph w q -> wthread t w = (ECas x pos, v) -> step_ok (waccess t ts b (ECas x pos) v w).
Proof.
  intros Hi Hs Hw. destruct (wthread_split _ _ _ _ _ _ Hs Hw) as [Ht Hv].
  pose proof (small_positions size k k_pos ph q Hi) as [HE _]. pose proof (size_ge_2 size k size_pow k_pos).
  cbn [waccess]. destruct (exchange_weak _ _ _ _ _ _ _) as [[v' r]|] eqn:He; [|done]. cbn [possible].
  apply exchange_spec with (n := enqueue_pos_ q) in He as [Hle Hr]; [|apply Hs|lia].
  destruct r as [m|z].
  - destruct Hr as (-> & Hp & Hh & Ha). intros Hb. simpl in Hb. rewrite (s_in _ _ _ Hs) in Hb.
    rewrite len_app, len_cons, len_nil in Hb.
    do 2 eexists. split; [apply (inv_win_enqueue size k size_pow k_pos ph q t x); (done || lia)|].
    apply sim_win_enqueue; try done; [lia|by rewrite Hv].
  - cbn beta iota in Hr. apply (goto_ok ph w q); try done; [by rewrite Ht|cares_none].
Qed.
Lemma step_exchange_dequeue ph w q t ts b pos v :
  inv ph q -> sim ph w q -> wthread t w = (DCas pos, v) -> step_ok (waccess t ts b (DCas pos) v w).
Proof.
  intros Hi Hs Hw. destruct (wthread_split _ _ _ _ _ _ Hs Hw) as [Ht Hv].
  pose proof (small_positions size k k_pos ph q Hi) as [HE HD]. pose proof (size_ge_2 size k size_pow k_pos).
  cbn [waccess]. destruct (exchange_weak _ _ _ _ _ _ _) as [[v' r]|] eqn:He; [|done]. cbn [possible].
  apply exchange_spec with (n := dequeue_pos_ q) in He as [Hle Hr]; [|apply Hs|lia].
  destruct r as [m|z].
  - destruct Hr as (-> & Hp & Hh & Ha). intros Hb.
    do 2 eexists. split; [by apply (inv_win_dequeue size k size_pow k_pos ph q t)|].
    apply sim_win_dequeue; try done; [lia|by rewrite Hv].
  - cbn beta iota in Hr. apply (goto_ok ph w q); try done; [by rewrite Ht|cares_none].
Qed.

(** The owner of a cell knows it, and may touch its data. *)
Lemma owner_known ph w q t pc v f :
  inv ph q -> sim ph w q -> wthread t w = (pc, v) -> owner pc = Some f ->
  owner (thread t q) = Some f /\ ph (idx (phase_pos f)) = f
  /\ cell_known (w_memory w) (w_sent w) f (idx (phase_pos f)) v
  /\ cell_ok (w_memory w) (w_sent w) (w_data w !! idx (phase_pos f)) f (cell_at (phase_pos f) q) (idx (phase_pos f)).
Proof.
  intros Hi Hs Hw Hf. destruct (wthread_split _ _ _ _ _ _ Hs Hw) as [Ht Hv].
  assert (Ho : owner (thread t q) = Some f) by (by rewrite Ht).
  pose proof (owner_phase _ _ _ _ _ Hi Ho) as Hp. split; [done|]. split; [done|].
  pose proof (cell_at_ok ph w q (phase_pos f) Hi Hs) as Hc.
  pose proof (s_known _ _ _ Hs t (idx (phase_pos f))) as Hk. rewrite Hv, Hp in Hk. rewrite Hp in Hc.
  split; [|done]. apply Hk. left. by exists f.
Qed.
(** Touching the data of an owned cell. *)
Lemma touch_ok m m' sent d d' f f' c i v v' x :
  cell_known m sent f i v -> cell_ok m sent d f c i -> view_le v v' ->
  history m' = history m -> (accesses m' (data_ i) <= v' (data_ i))%nat ->
  ~ unowned f' -> (sent_before sent f v' -> sent_before sent f' v') -> mjoin d' = x ->
  cell_known m' sent f' i v' /\ cell_ok m' sent d' f' (Cell (sequence c) x) i.
Proof.
  intros [H1 H2 H3] (_ & ts & msg & Hm & Hval & Hl & _) Hv Hh Ha Hf' Hsent <-. split.
  - split; [|done|by apply Hsent, (sent_before_mono _ _ v)]. rewrite Hh. intros ts' msg' Hm'.
    specialize (H1 _ _ Hm'). specialize (Hv (sequence_ i)). lia.
  - split; [done|]. exists ts, msg. rewrite Hh. by split_and!.
Qed.
Lemma owned_index ph q p : inv ph q -> (idx p < Z.to_nat size)%nat.
Proof. intros _. apply (idx_lt size k size_pow k_pos). Qed.

Lemma step_write ph w q t ts b x pos v :
  inv ph q -> sim ph w q -> wthread t w = (EWrite x pos, v) -> step_ok (waccess t ts b (EWrite x pos) v w).
Proof.
  intros Hi Hs Hw. destruct (owner_known _ _ _ _ _ _ (Writing pos false) Hi Hs Hw eq_refl) as (Ho & Hp & Hk & Hc).
  destruct (wthread_split _ _ _ _ _ _ Hs Hw) as [Ht _]. cbn [phase_pos] in *.
  cbn [waccess]. rewrite (wcell_idx ph w q) by done.
  destruct (modify_spec (data_ (idx pos)) v (w_memory w) (kn_data _ _ _ _ _ Hk)) as (v' & m' & -> & Hv & Hh & Ha & Hsame).
  cbn [ordered]. intros _. do 2 eexists. split; [by apply (inv_write size k size_pow k_pos ph q t x)|].
  cbn [access]. rewrite goto_own.
  destruct (touch_ok _ m' _ _ (Some (Some x)) _ (Writing pos true) _ _ _ v' (Some x) Hk Hc Hv Hh Ha) as [Hk' Hc'];
    [by intros (p & [|])|done|done|].
  apply (sim_own ph w q t (EStore pos) v' (Writing pos false)); cbn [phase_pos];
    try done; [by rewrite app_nil_r|by simpl; rewrite Hh| | | | |apply Hs|apply Hs].
  - apply length_insert.
  - intros j Hj. by apply list_lookup_insert_ne.
  - simpl. rewrite list_lookup_insert_eq; [done|]. rewrite (s_data _ _ _ Hs). by apply (owned_index ph q).
  - intros j [(f & [= <-] & ->)|[(? & ? & _)|[? _]]]; [done|discriminate..].
Qed.
Lemma step_take ph w q t ts b pos v :
  inv ph q -> sim ph w q -> wthread t w = (DRead pos, v) -> step_ok (waccess t ts b (DRead pos) v w).
Proof.
  intros Hi Hs Hw. destruct (owner_known _ _ _ _ _ _ (Reading pos false) Hi Hs Hw eq_refl) as (Ho & Hp & Hk & Hc).
  destruct (wthread_split _ _ _ _ _ _ Hs Hw) as [Ht _]. cbn [phase_pos] in *.
  cbn [waccess]. rewrite (wcell_idx ph w q) by done.
  destruct (modify_spec (data_ (idx pos)) v (w_memory w) (kn_data _ _ _ _ _ Hk)) as (v' & m' & -> & Hv & Hh & Ha & Hsame).
  cbn [ordered]. intros _. do 2 eexists. split; [by apply (inv_take size k size_pow k_pos ph q t)|].
  cbn [access]. rewrite goto_own. rewrite <- (proj1 Hc).
  destruct (touch_ok _ m' _ _ (Some None) _ (Reading pos true) _ _ _ v' None Hk Hc Hv Hh Ha) as [Hk' Hc'];
    [by intros (p & [|])|done|done|].
  apply (sim_own ph w q t (DStore pos (data (cell_at pos q))) v' (Reading pos false)); cbn [phase_pos];
    try done; [by rewrite app_nil_r|by simpl; rewrite Hh| | | | |apply Hs|apply Hs].
  - apply length_insert.
  - intros j Hj. by apply list_lookup_insert_ne.
  - simpl. rewrite list_lookup_insert_eq; [done|]. rewrite (s_data _ _ _ Hs). by apply (owned_index ph q).
  - intros j [(f & [= <-] & ->)|[(? & ? & _)|[? _]]]; [done|discriminate..].
Qed.

(** Publishing an owned cell. *)
Lemma publish_ok m m' sent d f f' c i ts z v v' :
  cell_known m sent f i v -> cell_ok m sent d f c i ->
  store release (sequence_ i) z ts v m = Some (v', m') -> 0 <= sequence c < z ->
  (sent_before sent f v' -> sent_before sent f' v') ->
  view_le v v' /\ m' = add_message (sequence_ i) ts (Message z v') m
  /\ cell_ok m' sent d f' (Cell z (data c)) i /\ sent_before sent f v'.
Proof.
  intros [H1 H2 H3] (Hd & tl & last & _ & _ & Hl & _) Hst Hz Hsent.
  destruct (store_spec _ _ _ _ _ _ _ Hst H1) as (Hv & Hts & Hnew & ->).
  pose proof (sent_before_mono _ _ _ _ H3 Hv) as H3'. split_and!; try done.
  split; [done|]. exists ts, (Message z v'). rewrite history_add, decide_True, lookup_insert_eq by done.
  split_and!; try done.
  - intros ts' msg' [[<- <-]|[_ Hm]]%lookup_insert_Some; simpl; [split_and!; (done || lia)|].
    specialize (Hnew _ _ Hm). destruct (Hl _ _ Hm) as (_ & ? & _). split_and!; (lia || intros ?; lia).
  - intros _. simpl. specialize (Hv (data_ i)). split; [lia|]. by apply Hsent.
Qed.

Lemma step_publish ph w q t ts b pos v :
  inv ph q -> sim ph w q -> wthread t w = (EStore pos, v) -> step_ok (waccess t ts b (EStore pos) v w).
Proof.
  intros Hi Hs Hw. destruct (owner_known _ _ _ _ _ _ (Writing pos true) Hi Hs Hw eq_refl) as (Ho & Hp & Hk & Hc).
  destruct (wthread_split _ _ _ _ _ _ Hs Hw) as [Ht _]. cbn [phase_pos] in *.
  pose proof (small_positions size k k_pos ph q Hi) as Hsm. pose proof (size_ge_2 size k size_pow k_pos).
  destruct (phase_at size k size_pow k_pos ph q pos Hi) as [_ Hok]. rewrite Hp in Hok. destruct Hok as [Hnn Hok].
  simpl in Hnn, Hok. pose proof (sequence_phase size k size_pow k_pos ph q pos Hi) as Hseq. rewrite Hp in Hseq. simpl in Hseq.
  cbn [waccess]. rewrite (wcell_idx ph w q) by done. rewrite u64_id by (unfold size_max; lia).
  destruct (store _ _ _ _ _ _) as [[v' m']|] eqn:Hst; [|done]. cbn [possible]. intros _.
  destruct (publish_ok _ _ _ _ _ (Full pos) _ _ _ _ _ _ Hk Hc Hst) as (Hv & -> & Hc' & _); [lia|done|].
  do 2 eexists. split; [by apply (inv_publish size k size_pow k_pos ph q t)|].
  cbn [access]. rewrite u64_id by (unfold size_max; lia).
  apply (sim_own ph w q t Idle v' (Writing pos true) _ _ [EnqTrue pos]); cbn [phase_pos]; try done; [| |apply Hs|].
  - intros l Hl. simpl. by rewrite decide_False.
  - intros j []%cares_idle.
  - simpl. rewrite omap_app, app_nil_r. apply Hs.
Qed.
Lemma step_release ph w q t ts b pos x v :
  inv ph q -> sim ph w q -> wthread t w = (DStore pos x, v) -> step_ok (waccess t ts b (DStore pos x) v w).
Proof.
  intros Hi Hs Hw. destruct (owner_known _ _ _ _ _ _ (Reading pos true) Hi Hs Hw eq_refl) as (Ho & Hp & Hk & Hc).
  destruct (wthread_split _ _ _ _ _ _ Hs Hw) as [Ht _]. cbn [phase_pos] in *.
  pose proof (small_positions size k k_pos ph q Hi) as Hsm. pose proof (size_ge_2 size k size_pow k_pos).
  destruct (phase_at size k size_pow k_pos ph q pos Hi) as [_ Hok]. rewrite Hp in Hok. destruct Hok as [Hnn Hok].
  simpl in Hnn, Hok. pose proof (sequence_phase size k size_pow k_pos ph q pos Hi) as Hseq. rewrite Hp in Hseq. simpl in Hseq.
  assert (Hu : u64 (pos + buffer_mask_ q + 1) = pos + size)
    by (rewrite (i_mask _ _ _ Hi), u64_id; unfold size_max; lia).
  cbn [waccess]. rewrite (wcell_idx ph w q), (s_mask _ _ _ Hs), Hu by done.
  destruct (store _ _ _ _ _ _) as [[v' m']|] eqn:Hst; [|done]. cbn [possible]. intros _.
  destruct (publish_ok _ _ _ _ _ (Free (pos + size)) _ _ _ _ _ _ Hk Hc Hst) as (Hv & -> & Hc' & Hsent); [lia|done|].
  do 2 eexists. split; [by apply (inv_release size k size_pow k_pos ph q t)|].
  cbn [access]. rewrite Hu.
  apply (sim_own ph w q t Idle v' (Reading pos true) _ _ [DeqTrue pos x]); cbn [phase_pos]; try done.
  - intros l Hl. simpl. by rewrite decide_False.
  - intros j []%cares_idle.
  - intros p u [Hin|Hin%list_elem_of_singleton]%elem_of_app; [by apply (s_got _ _ _ Hs)|]. injection Hin as -> ->.
    destruct (lookup_lt_is_Some_2 (w_sent w) (Z.to_nat pos)) as [u' Hu'].
    { rewrite (s_sent _ _ _ Hs), (s_in _ _ _ Hs). pose proof (i_enqueue _ _ _ Hi). unfold len in *. lia. }
    exists u'. split; [done|]. by apply Hsent.
  - simpl. rewrite fmap_app, omap_app. f_equal. apply Hs.
Qed.

(** ** Runs *)
Lemma access_ok ph w q t ts b pc v :
  inv ph q -> sim ph w q -> wthread t w = (pc, v) -> step_ok (waccess t ts b pc v w).
Proof.
  intros Hi Hs Hw. destruct (wthread_split _ _ _ _ _ _ Hs Hw) as [Ht _].
  destruct pc as [|x|x pos|x pos|x pos|pos| |pos|pos|pos|pos x].
  - intros _. by exists ph, q.
  - cbn [waccess]. destruct (load _ _ _ _ _) as [[z v']|] eqn:Hl; [|done].
    apply load_position with (n := enqueue_pos_ q) in Hl as [Hz _]; [|apply Hs].
    apply (goto_ok ph w q); try done; [by rewrite Ht|cares_none].
  - by apply (step_load_enqueue ph w q).
  - by apply (step_exchange_enqueue ph w q).
  - by apply (step_write ph w q).
  - by apply (step_publish ph w q).
  - cbn [waccess]. destruct (load _ _ _ _ _) as [[z v']|] eqn:Hl; [|done].
    apply load_position with (n := dequeue_pos_ q) in Hl as [Hz _]; [|apply Hs].
    apply (goto_ok ph w q); try done; [by rewrite Ht|cares_none].
  - by apply (step_load_dequeue ph w q).
  - by apply (step_exchange_dequeue ph w q).
  - by apply (step_take ph w q).
  - by apply (step_release ph w q).
Qed.
Lemma wstep_ok ph w q t c : inv ph q -> sim ph w q -> step_ok (wq_step t c w).
Proof.
  intros Hi Hs. unfold wq_step. destruct (wthread t w) as [pc v] eqn:Hw.
  destruct (wthread_split _ _ _ _ _ _ Hs Hw) as [Ht Hv].
  destruct c as [x| |ts b|t'].
  - destruct pc; try done. apply (goto_ok ph w q); try done; [by rewrite Ht|cares_none].
  - destruct pc; try done. apply (goto_ok ph w q); try done; [by rewrite Ht|cares_none].
  - by apply (access_ok ph w q).
  - intros _. exists ph, q. split; [done|]. pose proof (sim_learn ph w q t (wthread t' w).2 Hs) as Hl.
    by rewrite Hw in Hl.
Qed.

Lemma wrun_ok ph w q sched w' raced :
  inv ph q -> sim ph w q -> wq_run sched w = Some (w', raced) -> len (w_in w') + size <= 2 ^ 62 ->
  raced = false /\ exists ph' q', inv ph' q' /\ sim ph' w' q'.
Proof.
  revert ph w q; induction sched as [|[t c] sched IH]; intros ph w q Hi Hs; simpl.
  { intros [= <- <-] _. eauto. }
  pose proof (wstep_ok ph w q t c Hi Hs) as Hok.
  destruct (wq_step t c w) as [| |w1] eqn:E; [done|destruct Hok|]. intros Hr Hb. pose proof (wrun_in _ _ _ _ Hr).
  destruct Hok as (ph1 & q1 & Hi1 & Hs1); [lia|]. by apply (IH ph1 w1 q1).
Qed.
Lemma sim_new w q :
  new_wqueue size = Ok w -> new_queue size = Ok q -> sim (fun i => Free (Z.of_nat i)) w q.
Proof.
  unfold new_wqueue, new_queue. case_match; [|done]. intros [= <-] [= <-].
  assert (Hpos : forall l, (forall i, l <> sequence_ i) -> pos_ok new_memory l 0).
  { intros l Hl. split.
    - intros ts msg Hm. simpl in Hm. apply lookup_singleton_Some in Hm as [<- <-]. destruct l; simpl; (lia || by edestruct Hl).
    - intros ts Hts. replace ts with O by lia. by eexists. }
  split; simpl; try done; [by apply Hpos|by apply Hpos|apply length_replicate| | |].
  - intros i Hi. rewrite list_lookup_fmap, lookup_seq_lt by done. simpl. split.
    + by rewrite lookup_replicate_2.
    + exists O, (Message (Z.of_nat i) bottom). split; [done|]. split; [done|]. split.
      * intros ts' msg' Hm. simpl in Hm. apply lookup_singleton_Some in Hm as [<- <-]. simpl. split_and!; (done || lia).
      * intros _. split; [done|]. simpl. done.
  - intros t i []%cares_idle.
  - by intros p v ?%elem_of_nil.
Qed.
End Simulation.

(** *** The queue as a whole *)
Lemma weak_reachable {T} size sched (w0 w : wqueue T) raced :
  new_wqueue size = Ok w0 -> wq_run sched w0 = Some (w, raced) -> len (w_in w) + size <= 2 ^ 62 ->
  raced = false /\ exists k ph q, size = 2 ^ k /\ 1 <= k /\ inv size ph q /\ sim size ph w q.
Proof.
  intros Hnew Hrun Hb. assert (Hok : queue_size_ok size = true) by (unfold new_wqueue in Hnew; by case_match).
  destruct (queue_size_pow2 _ Hok) as (k & Hk & Hp). pose proof (len_nonneg (w_in w)).
  assert (Hq : exists q0 : queue T, new_queue size = Ok q0) by (unfold new_queue; rewrite Hok; eauto).
  destruct Hq as [q0 Hq]. pose proof (queue_inv_new size k Hp Hk q0 Hq ltac:(lia)) as Hi.
  destruct (wrun_ok size k Hp Hk _ _ _ _ _ _ Hi (ltac:(by eapply sim_new)) Hrun Hb) as (-> & ph & q & Hi' & Hs').
  split; [done|]. by exists k, ph, q.
Qed.
Lemma position_value {T} size k ph (w : wqueue T) q :
  1 <= k -> inv size ph q -> sim size ph w q ->
  wposition enqueue_pos w = enqueue_pos_ q /\ wposition dequeue_pos w = dequeue_pos_ q.
Proof.
  intros Hk Hi Hs. pose proof (small_positions size k Hk ph q Hi) as [HE HD]. unfold wposition.
  rewrite (position_size _ _ (enqueue_pos_ q)), (position_size _ _ (dequeue_pos_ q)) by (apply Hs || lia). lia.
Qed.

(** A thread is copying the value of position [p] out of its cell. *)
Definition copying {T} (w : wqueue T) (p : Z) : Prop :=
  exists t, (wthread t w).1 = DRead p \/ exists x, (wthread t w).1 = DStore p x.

(** (C24) The queue is a race-free bounded FIFO under the memory orders of the
    code.  For any number of threads, any interleaving, any choice of what
    each relaxed or acquire load may still read and where each store goes in
    the modification order, starting from a new queue and up to 2^62 values:
    no two accesses of a cell's data race; at most [buffer_size] values are
    held; the dequeue that wins the n-th position returns the value of the
    enqueue that won it; no position is returned twice, and each one dequeued
    was returned or is being copied out; and a thread that got a value has
    seen everything its producer had seen when it won the position. *)
Theorem mpmc_weak_fifo {T} size sched (w0 w : wqueue T) raced :
  new_wqueue size = Ok w0 -> wq_run sched w0 = Some (w, raced) -> len (w_in w) + size <= 2 ^ 62 ->
  raced = false
  /\ 0 <= wposition enqueue_pos w - wposition dequeue_pos w <= size
  /\ wposition enqueue_pos w = len (w_in w)
  /\ (forall p x, DeqTrue p x ∈ w_returns w ->
        0 <= p < wposition dequeue_pos w /\ x = w_in w !! Z.to_nat p /\ is_Some x)
  /\ NoDup (omap dequeued (w_returns w))
  /\ (forall p, 0 <= p < wposition dequeue_pos w -> (exists x, DeqTrue p x ∈ w_returns w) \/ copying w p)
  /\ (w_got w).*1 = omap dequeued (w_returns w)
  /\ (forall p v, (p, v) ∈ w_got w -> exists u, w_sent w !! Z.to_nat p = Some u /\ view_le u v).
Proof.
  intros Hnew Hrun Hb. destruct (weak_reachable _ _ _ _ _ Hnew Hrun Hb) as (-> & k & ph & q & Hp & Hk & Hi & Hs).
  destruct (position_value size k ph w q Hk Hi Hs) as [-> ->]. split; [done|].
  rewrite (s_in _ _ _ _ Hs), (s_returns _ _ _ _ Hs). pose proof Hi as [? ? HE ? HD HF ? ? ? Hr Hnd Htk].
  split; [lia|]. split; [done|]. split; [|split; [done|split; [|split]]].
  - intros p x Hin. rewrite Forall_forall in Hr. destruct (Hr _ Hin) as (Hlt & Hv & _).
    split; [done|]. split; [done|]. rewrite Hv. apply lookup_lt_is_Some. unfold len in HE. lia.
  - intros p Hlt. destruct (Htk p Hlt) as [?|(t & f & Ho & Hfp & b & ->)]; [by left|right]. exists t.
    rewrite (s_threads _ _ _ _ Hs). simpl in Hfp. subst. destruct (thread t q); simplify_eq/=; eauto.
  - rewrite <- (s_returns _ _ _ _ Hs). apply (s_got_positions _ _ _ _ Hs).
  - apply (s_got _ _ _ _ Hs).
Qed.

(** *** The queue as a list

    Under these memory orders too an access leaves the values held as they
    are, appends the value of the thread that wins a position, or takes the
    first one: what [AsyncLog] uses. *)
Definition wheld {T} (w : wqueue T) : list T := drop (Z.to_nat (wposition dequeue_pos w)) (w_in w).

(** The steps other than an exchange that succeeds. *)
Definition positions_kept {T} (w w' : wqueue T) : Prop :=
  w_in w' = w_in w /\ history (w_memory w') enqueue_pos = history (w_memory w) enqueue_pos
  /\ history (w_memory w') dequeue_pos = history (w_memory w) dequeue_pos.
Lemma kept_held {T} (w w' : wqueue T) : positions_kept w w' -> wheld w' = wheld w.
Proof. intros (Hin & _ & Hd). unfold wheld, wposition. by rewrite Hin, Hd. Qed.
Lemma store_kept {T} order i z ts v (w : wqueue T) v' m :
  store order (sequence_ i) z ts v (w_memory w) = Some (v', m) -> positions_kept w (with_memory m w).
Proof. unfold store. repeat case_match; intros; simplify_eq; by split_and!. Qed.
Lemma modify_kept {T} l v (w : wqueue T) v' m :
  modify l v (w_memory w) = Some (v', m) -> positions_kept w (with_memory m w).
Proof. unfold modify. repeat case_match; intros; simplify_eq; by split_and!. Qed.
Lemma exchange_new_value l pos z ts b v (m m' : memory member) v' :
  exchange_weak l pos z ts b v m = Some (v', inl m') ->
  exists msg, history m l !! S ts = None /\ history m' = history (add_message l (S ts) msg m).
Proof.
  unfold exchange_weak. case_match; [|done]. destruct (history m l !! ts); [|done]. simpl.
  case_match eqn:E; intros; simplify_eq. bool_to_prop. by eexists.
Qed.
Lemma wstep_kept {T} t c (w w' : wqueue T) :
  wq_step t c w = Next w' ->
  positions_kept w w'
  \/ (exists x pos ts b v v' m, (wthread t w).1 = ECas x pos
        /\ exchange_weak enqueue_pos pos (u64 (pos + 1)) ts b v (w_memory w) = Some (v', inl m)
        /\ w_in w' = w_in w ++ [x] /\ w_memory w' = m)
  \/ (exists pos ts b v v' m, (wthread t w).1 = DCas pos
        /\ exchange_weak dequeue_pos pos (u64 (pos + 1)) ts b v (w_memory w) = Some (v', inl m)
        /\ w_in w' = w_in w /\ w_memory w' = m).
Proof.
  unfold wq_step. destruct (wthread t w) as [pc v] eqn:Hw.
  destruct c as [x| |ts b|t']; [destruct pc; intros [= <-]; by left..| |intros [= <-]; by left].
  destruct pc; cbn [waccess]; unfold possible, ordered; intros Hs; repeat case_match; simplify_eq; try by left.
  - right; left. do 7 eexists. by split_and!.
  - left. match goal with H : modify _ _ _ = _ |- _ => by apply modify_kept in H end.
  - left. match goal with H : store _ _ _ _ _ _ = _ |- _ => by apply store_kept in H end.
  - right; right. do 6 eexists. by split_and!.
  - left. match goal with H : modify _ _ _ = _ |- _ => by apply modify_kept in H end.
  - left. match goal with H : store _ _ _ _ _ _ = _ |- _ => by apply store_kept in H end.
Qed.
Lemma exchanged_positions l l' pos z ts b v (m m' : memory member) v' :
  exchange_weak l pos z ts b v m = Some (v', inl m') ->
  Z.of_nat (size (history m' l')) = Z.of_nat (size (history m l')) + (if decide (l' = l) then 1 else 0).
Proof.
  intros (msg & Hnone & Hh)%exchange_new_value. rewrite Hh, history_add. case_decide; [subst|lia].
  rewrite map_size_insert_None by done. lia.
Qed.
Lemma reachable_bounds {T} size sched (w0 w : wqueue T) raced :
  new_wqueue size = Ok w0 -> wq_run sched w0 = Some (w, raced) -> len (w_in w) + size <= 2 ^ 62 ->
  wposition enqueue_pos w = len (w_in w) /\ 0 <= wposition dequeue_pos w <= len (w_in w)
  /\ len (w_in w) - wposition dequeue_pos w <= size.
Proof.
  intros Hnew Hrun Hb. destruct (weak_reachable _ _ _ _ _ Hnew Hrun Hb) as (_ & k & ph & q & Hp & Hk & Hi & Hs).
  destruct (position_value size k ph w q Hk Hi Hs) as [-> ->]. rewrite (s_in _ _ _ _ Hs).
  pose proof Hi as [? ? HE ? HD HF ? ? ? ? ? ?]. lia.
Qed.
Lemma wrun_snoc {T} sched t c (w0 w w' : wqueue T) :
  wq_run sched w0 = Some (w, false) -> wq_step t c w = Next w' -> wq_run (sched ++ [(t, c)]) w0 = Some (w', false).
Proof.
  revert w0; induction sched as [|[t1 c1] sched IH]; intros w0; simpl; [by intros [= ->] ->|].
  destruct (wq_step t1 c1 w0); [done|done|apply IH].
Qed.
Lemma wheld_length {T} (w : wqueue T) :
  0 <= wposition dequeue_pos w <= len (w_in w) -> len (wheld w) = len (w_in w) - wposition dequeue_pos w.
Proof. intros H. unfold wheld, len in *. rewrite length_drop. lia. Qed.

(** One access is one step of a bounded list: nothing changes; or the thread
    that wins the next position to enqueue appends its value, and the list has
    at most [buffer_size] values; or the thread that wins the next position to
    dequeue takes the first value. *)
Lemma weak_step_list {T} size sched (w0 w w' : wqueue T) t c :
  new_wqueue size = Ok w0 -> wq_run sched w0 = Some (w, false) -> wq_step t c w = Next w' ->
  len (w_in w') + size <= 2 ^ 62 ->
  wheld w' = wheld w
  \/ (exists x pos, (wthread t w).1 = ECas x pos /\ wheld w' = wheld w ++ [x] /\ len (wheld w') <= size)
  \/ (exists x pos, (wthread t w).1 = DCas pos /\ wheld w = x :: wheld w').
Proof.
  intros Hnew Hrun Hstep Hb. pose proof (wstep_in _ _ _ _ Hstep) as Hin.
  destruct (reachable_bounds size sched w0 w false Hnew Hrun ltac:(lia)) as (_ & HD & _).
  destruct (reachable_bounds size _ w0 w' false Hnew (wrun_snoc _ _ _ _ _ _ Hrun Hstep) Hb) as (_ & HD' & HF').
  destruct (wstep_kept _ _ _ _ Hstep) as [Hk|[(x & pos & ts & b & v & v' & m & Hpc & He & Hx & <-)
    |(pos & ts & b & v & v' & m & Hpc & He & Hx & <-)]]; [left; by apply kept_held|right; left|right; right].
  - pose proof (exchanged_positions _ dequeue_pos _ _ _ _ _ _ _ _ He) as Hd. rewrite decide_False in Hd by done.
    exists x, pos. split; [done|]. split; [|rewrite wheld_length by done; lia].
    unfold wheld, wposition in *. rewrite Hx, Hd, Z.add_0_r. apply drop_app_le. unfold len in HD. lia.
  - pose proof (exchanged_positions _ dequeue_pos _ _ _ _ _ _ _ _ He) as Hd. rewrite decide_True in Hd by done.
    unfold wheld, wposition, len in *. rewrite Hx, Hd in *.
    destruct (lookup_lt_is_Some_2 (w_in w) (Z.to_nat (Z.of_nat (base.size (history (w_memory w) dequeue_pos)) - 1))) as [x Hl]; [lia|].
    exists x, pos. split; [done|]. rewrite (drop_S _ _ _ Hl). do 2 f_equal. lia.
Qed.

(** *** The size that [flush] waits for *)

(** A thread that won a position has it in its view of [enqueue_pos_], and
    views only grow. *)
Lemma won_position_seen pos z ts b v (m m' : memory member) v' n :
  exchange_weak enqueue_pos pos z ts b v m = Some (v', inl m') -> pos_ok m enqueue_pos n ->
  pos < Z.of_nat (v' enqueue_pos).
Proof.
  unfold exchange_weak. case_match; [|done]. destruct (history m enqueue_pos !! ts) as [msg|] eqn:Hm; [|done]. simpl.
  intros He [Hp _]. destruct (Hp _ _ Hm) as [Hv _]. case_match eqn:E; simplify_eq. bool_to_prop.
  pose proof (see_at enqueue_pos (S ts) v). lia.
Qed.
Lemma wthread_self {T} t pc v (w : wqueue T) : (wthread t (wgoto t pc v w)).2 = v.
Proof. by rewrite wthread_goto, decide_True. Qed.
Lemma wthread_ret {T} t r v (w : wqueue T) : (wthread t (wret t r v w)).2 = v.
Proof. exact (wthread_self t Idle v w). Qed.
Lemma view_grows {T} t c (w w' : wqueue T) :
  wq_step t c w = Next w' -> view_le (wthread t w).2 (wthread t w').2.
Proof.
  unfold wq_step. destruct (wthread t w) as [pc v] eqn:Hw.
  destruct c as [x| |ts b|t1];
    [destruct pc; intros Hs; simplify_eq; by rewrite wthread_self..|
    |intros Hs; simplify_eq; rewrite wthread_self; apply view_le_join_l].
  destruct pc; cbn [waccess]; unfold possible, ordered; intros Hs; repeat case_match; simplify_eq;
    rewrite ?wthread_self, ?wthread_ret, ?Hw; try done;
    solve [by eapply load_spec | by eapply exchange_grows | by eapply modify_grows | by eapply store_grows].
Qed.
Lemma positions_reached {T} size sched (w0 w : wqueue T) raced :
  new_wqueue size = Ok w0 -> wq_run sched w0 = Some (w, raced) -> len (w_in w) + size <= 2 ^ 62 ->
  pos_ok (w_memory w) enqueue_pos (wposition enqueue_pos w) /\ pos_ok (w_memory w) dequeue_pos (wposition dequeue_pos w).
Proof.
  intros Hnew Hrun Hb. destruct (weak_reachable _ _ _ _ _ Hnew Hrun Hb) as (_ & k & ph & q & Hp & Hk & Hi & Hs).
  destruct (position_value size k ph w q Hk Hi Hs) as [-> ->]. split; apply Hs.
Qed.

(** [wait_empty_q] is sound for the caller: when [approx_size] answers 0,
    every position the calling thread had won, or knew of, before the call has
    been dequeued, however old the positions are that its two loads read and
    whatever other threads do in between. *)
Theorem approx_size_drained {T} size sched sched' (w0 w1 w2 : wqueue T) raced v ts1 ts2 v' pos :
  new_wqueue size = Ok w0 ->
  wq_run sched w0 = Some (w1, false) -> wq_run sched' w1 = Some (w2, raced) -> len (w_in w2) + size <= 2 ^ 62 ->
  wapprox_size ts1 ts2 v w1 w2 = Some (0, v') -> pos < Z.of_nat (v enqueue_pos) ->
  pos < wposition dequeue_pos w1.
Proof.
  intros Hnew Hr1 Hr2 Hb Hs Hpos. pose proof (wrun_in _ _ _ _ Hr2) as Hin.
  destruct (positions_reached size sched w0 w1 false Hnew Hr1 ltac:(lia)) as [_ Hd].
  assert (Hr : wq_run (sched ++ sched') w0 = Some (w2, raced)).
  { clear -Hr1 Hr2. revert w0 Hr1. induction sched as [|[t c] sched IH]; intros w0; simpl; [by intros [= ->]|].
    destruct (wq_step t c w0); [done|done|apply IH]. }
  destruct (positions_reached size _ w0 w2 raced Hnew Hr Hb) as [He _].
  pose proof (reachable_bounds size _ w0 w2 raced Hnew Hr Hb) as (HE & _).
  assert (Hmask : w_mask w1 = size - 1 /\ 2 <= size).
  { destruct (weak_reachable _ _ _ _ _ Hnew Hr1 ltac:(lia)) as (_ & k & ph & q & Hp & Hk & Hi & Hsim).
    rewrite (s_mask _ _ _ _ Hsim). split; [apply Hi|by apply (size_ge_2 size k)]. }
  unfold wapprox_size in Hs. destruct (load _ _ ts1 _ _) as [[first v1]|] eqn:Hl1; [|done]. simpl in Hs.
  destruct (load _ _ ts2 _ _) as [[last v2]|] eqn:Hl2; [|done]. simpl in Hs.
  destruct (load_position _ _ _ _ _ _ _ _ Hl1 Hd) as [Hfirst _].
  destruct (load_position _ _ _ _ _ _ _ _ Hl2 He) as [Hlast _].
  assert (Hle : last <= first).
  { destruct (Z.leb_spec last first); [done|]. injection Hs as Hs _.
    rewrite u64_id in Hs by (unfold size_max; lia). case_match; lia. }
  apply load_spec in Hl1 as (Hv & _). unfold load in Hl2. destruct (Nat.leb_spec (v1 enqueue_pos) ts2) as [Hts|]; [|done].
  destruct (history (w_memory w2) enqueue_pos !! ts2) as [msg|] eqn:Hm; [|done]. injection Hl2 as <- _.
  destruct (proj1 He _ _ Hm) as [Hval _]. specialize (Hv enqueue_pos). lia.
Qed.

(** ** Stale reads

    Two cells; two values are queued and the first is taken.  Thread 3 reads
    the oldest position and sequence number, which lets it try an exchange;
    that fails and tells it the position.  Then it reads a sequence number the
    consumer has replaced, and is refused although a cell is free: with the
    policy that discards messages, one is lost without need. *)
Definition AT (ts : nat) : wchoice nat := WAccess ts false.
Definition two_weak_cells : wqueue nat :=
  match new_wqueue 2 with Ok w => w | _ => WQueue new_memory [] 0 ∅ [] [] [] [] end.
Definition stale : list (nat * wchoice nat) :=
  [(1, WCallEnqueue 7); (1, AT 0); (1, AT 0); (1, AT 0); (1, AT 0); (1, AT 5);
   (2, WCallEnqueue 8); (2, AT 0); (2, AT 5); (2, AT 1); (2, AT 0); (2, AT 1); (2, AT 0); (2, AT 3);
   (4, WCallDequeue); (4, AT 0); (4, AT 5); (4, AT 0); (4, AT 0); (4, AT 9);
   (3, WCallEnqueue 9); (3, AT 0); (3, AT 0); (3, AT 2); (3, AT 5)]%nat.

(** The state a run without a race ends in, and the state after a step. *)
Definition final {T} (sched : list (nat * wchoice T)) (w0 : wqueue T) : wqueue T :=
  match wq_run sched w0 with Some (w, _) => w | None => w0 end.
Definition after {T} (t : nat) (c : wchoice T) (w : wqueue T) : wqueue T :=
  match wq_step t c w with Next w' => w' | _ => w end.
Lemma run_final {T} sched (w0 : wqueue T) :
  match wq_run sched w0 with Some (_, b) => negb b | None => false end = true ->
  wq_run sched w0 = Some (final sched w0, false).
Proof. unfold final. by destruct (wq_run sched w0) as [[w []]|]. Defined.
Lemma step_after {T} t c (w : wqueue T) :
  match wq_step t c w with Next _ => true | _ => false end = true -> wq_step t c w = Next (after t c w).
Proof. unfold after. by destruct (wq_step t c w). Defined.

Definition stale_queue : wqueue nat := final stale two_weak_cells.
Example refused_with_room :
  w_returns stale_queue = [EnqTrue 0; EnqTrue 1; DeqTrue 0 (Some 7); EnqFalse]%nat /\ wheld stale_queue = [8%nat].
Proof. by vm_compute. Qed.

Lemma mpmc_weak_fifo_witness :
  wq_run stale two_weak_cells = Some (stale_queue, false)
  /\ (forall p x, DeqTrue p x ∈ w_returns stale_queue ->
        0 <= p < 1 /\ x = [7%nat; 8%nat] !! Z.to_nat p /\ is_Some x)
  /\ (forall p v, (p, v) ∈ w_got stale_queue -> exists u, w_sent stale_queue !! Z.to_nat p = Some u /\ view_le u v).
Proof.
  assert (Hr : wq_run stale two_weak_cells = Some (stale_queue, false)) by (apply run_final; vm_compute; reflexivity).
  assert (Hd : wposition dequeue_pos stale_queue = 1) by (vm_compute; reflexivity).
  assert (Hin : w_in stale_queue = [7%nat; 8%nat]) by (vm_compute; reflexivity).
  assert (Hb : len (w_in stale_queue) + 2 <= 2 ^ 62) by (rewrite Hin; vm_compute; discriminate).
  destruct (mpmc_weak_fifo 2 stale two_weak_cells stale_queue false eq_refl Hr Hb) as (_ & _ & _ & H1 & _ & _ & _ & H2).
  rewrite Hd, Hin in H1. split; [exact Hr|]. split; [exact H1|exact H2].
Defined.
Lemma approx_size_drained_witness :
  let w := final (stale ++ [(4, WCallDequeue); (4, AT 1); (4, AT 3); (4, AT 1); (4, AT 0); (4, AT 9)]%nat) two_weak_cells in
  1 < Z.of_nat ((wthread 2 w).2 enqueue_pos) /\ 1 < wposition dequeue_pos w.
Proof.
  intros w. assert (Hv : 1 < Z.of_nat ((wthread 2 w).2 enqueue_pos)) by (vm_compute; reflexivity).
  split; [exact Hv|].
  eapply (approx_size_drained 2 _ [] two_weak_cells w w false _ 2 2 _ 1 eq_refl); [..|exact Hv].
  - apply run_final. vm_compute. reflexivity.
  - reflexivity.
  - vm_compute. discriminate.
  - unfold wapprox_size. reflexivity.
Defined.
