(* ===== verification/Fmt.v ===== *)
(** * Writing integers and strings with the bundled fmt library,
      [src/src/spdlog/fmt/bundled/format.h] and [format.cc]

    The writer appends to a [Buffer]: it first grows the buffer by the number
    of characters it has computed, then writes them through pointers, from the
    last digit to the first.  A buffer is its content, a pointer an index;
    the characters of an area that has just been grown are unspecified, here
    [junk].  One pointer of [prepare_int_buffer] is kept while the buffer
    grows again; whether that growth moves the elements is a parameter, and a
    pointer to where they were is [None]: what is written through it does not
    reach the buffer.  The multi-character numeral of the locale's thousands separator
    is a parameter (the C library's [localeconv]). *)
From S2P Require Import Prelude Cxx.

Open Scope Z_scope.

Definition u32 (z : Z) : Z := wrap_u 32 z.
Definition nul : ascii := "000"%char.

(** ** Tables *)
Definition DIGITS : bytes :=
  !"0001020304050607080910111213141516171819" ++ !"2021222324252627282930313233343536373839"
  ++ !"4041424344454647484950515253545556575859" ++ !"6061626364656667686970717273747576777879"
  ++ !"8081828384858687888990919293949596979899".
Definition FMT_POWERS_OF_10 (factor : Z) : list Z :=
  [factor * 10; factor * 100; factor * 1000; factor * 10000; factor * 100000; factor * 1000000;
   factor * 10000000; factor * 100000000; factor * 1000000000].
Definition POWERS_OF_10_32 : list Z := 0 :: FMT_POWERS_OF_10 1.
Definition POWERS_OF_10_64 : list Z :=
  0 :: FMT_POWERS_OF_10 1 ++ FMT_POWERS_OF_10 1000000000 ++ [1000000000 * 1000000000 * 10].

(** ** count_digits *)

(** [__builtin_clz] and [__builtin_clzll] of a nonzero number of [w] bits. *)
Definition clz (w n : Z) : Z := w - 1 - Z.log2 n.
Definition count_digits_table (w : Z) (powers : list Z) (n : Z) : Z :=
  let t := Z.shiftr ((w - clz w (Z.lor n 1)) * 1233) 12 in
  u32 (t - (if n <? nth (Z.to_nat t) powers 0 then 1 else 0) + 1).
Definition count_digits64 (n : Z) : Z := count_digits_table 64 POWERS_OF_10_64 n.
Definition count_digits32 (n : Z) : Z := count_digits_table 32 POWERS_OF_10_32 n.
(** The loop used without [__builtin_clz]. *)
Fixpoint count_digits_loop (fuel : nat) (n count : Z) : Z :=
  match fuel with
  | O => count
  | S fuel =>
      if n <? 10 then count
      else if n <? 100 then count + 1
      else if n <? 1000 then count + 2
      else if n <? 10000 then count + 3
      else count_digits_loop fuel (n / 10000) (count + 4)
  end.
Definition count_digits_fallback (n : Z) : Z := count_digits_loop 6 n 1.

(** The overload for [UnsignedType], of [w] = 32 or 64 bits. *)
Definition count_digits (w n : Z) : nat :=
  Z.to_nat (if w =? 32 then count_digits32 n else count_digits64 n).

(** ** Writing through pointers *)

(** [*--buffer = c] *)
Definition put_back (c : ascii) (st : bytes * nat) : bytes * nat :=
  (<[pred st.2 := c]> st.1, pred st.2).
(** [std::uninitialized_copy(s, s + size, p)], [std::uninitialized_fill] *)
Definition copy (s : bytes) (p : nat) (b : bytes) : bytes := list_inserts p s b.
Definition fill_n (p n : nat) (c : ascii) (b : bytes) : bytes := copy (repeat c n) p b.

(** [thousands_sep(buffer)]: [NoThousandsSep] is [None]; [ThousandsSep] counts
    the digits. *)
Definition thousands (sep : option bytes) (st : bytes * nat * Z) : bytes * nat * Z :=
  let '(b, p, digit_index) := st in
  match sep with
  | None => st
  | Some s =>
      let digit_index := u32 (digit_index + 1) in
      if digit_index mod 3 =? 0
      then let p := (p - length s)%nat in (copy s p b, p, digit_index)
      else (b, p, digit_index)
  end.
Definition put_digit (i : Z) (st : bytes * nat * Z) : bytes * nat * Z :=
  (put_back (nth (Z.to_nat i) DIGITS nul) st.1, st.2).

(** The loop of [format_decimal]: two digits at a time, to the left of the
    pointer. *)
Fixpoint format_decimal_loop (fuel : nat) (sep : option bytes) (value : Z)
    (st : bytes * nat * Z) : bytes :=
  match fuel with
  | O => st.1.1
  | S fuel =>
      if 100 <=? value then
        let index := (value mod 100) * 2 in
        let st := thousands sep (put_digit (index + 1) st) in
        let st := thousands sep (put_digit index st) in
        format_decimal_loop fuel sep (value / 100) st
      else if value <? 10 then (put_back (digit_char value) st.1).1
      else
        let index := value * 2 in
        (put_digit index (thousands sep (put_digit (index + 1) st))).1.1
  end.
Definition format_decimal (sep : option bytes) (buffer : nat) (value : Z) (num_digits : nat)
    (b : bytes) : bytes :=
  format_decimal_loop (dec_fuel value) sep value (b, (buffer + num_digits)%nat, 0).

(** ** Specifiers *)
Inductive Alignment := ALIGN_DEFAULT | ALIGN_LEFT | ALIGN_RIGHT | ALIGN_CENTER | ALIGN_NUMERIC.
#[export] Instance alignment_eq_dec : EqDecision Alignment.
Proof. solve_decision. Defined.

Definition SIGN_FLAG : Z := 1.
Definition PLUS_FLAG : Z := 2.
Definition MINUS_FLAG : Z := 4.
Definition HASH_FLAG : Z := 8.
Definition CHAR_FLAG : Z := 16.

Inductive int_spec :=
| TypeSpec (t : ascii)
| AlignTypeSpec (t : ascii) (width : nat) (fill : ascii)
| FormatSpec (width : nat) (fill : ascii) (align : Alignment) (flags precision : Z) (t : ascii).

Definition width (s : int_spec) : nat :=
  match s with TypeSpec _ => 0 | AlignTypeSpec _ w _ | FormatSpec w _ _ _ _ _ => w end.
Definition fill (s : int_spec) : ascii :=
  match s with TypeSpec _ => space | AlignTypeSpec _ _ c | FormatSpec _ c _ _ _ _ => c end.
Definition align (s : int_spec) : Alignment :=
  match s with FormatSpec _ _ a _ _ _ => a | _ => ALIGN_DEFAULT end.
Definition precision (s : int_spec) : Z := match s with FormatSpec _ _ _ _ p _ => p | _ => -1 end.
Definition flag (s : int_spec) (f : Z) : bool :=
  match s with FormatSpec _ _ _ fl _ _ => negb (Z.land fl f =? 0) | _ => false end.
Definition type (s : int_spec) : ascii :=
  match s with TypeSpec t | AlignTypeSpec t _ _ | FormatSpec _ _ _ _ _ t => t end.

Section Writer.
Variable junk : ascii.

(** [grow_buffer(n)]: the pointer is to the new area. *)
Definition grow_buffer (n : nat) (b : bytes) : bytes * nat := (b ++ repeat junk n, length b).

Definition fill_padding (buffer total_size content_size : nat) (c : ascii) (b : bytes) :
    bytes * nat :=
  let padding := (total_size - content_size)%nat in
  let left_padding := (padding / 2)%nat in
  let b := fill_n buffer left_padding c b in
  let content := (buffer + left_padding)%nat in
  (fill_n (content + content_size) (padding - left_padding) c b, content).

(** [prepare_int_buffer] of an [AlignSpec], which has no precision. *)
Definition prepare_aligned (num_digits w : nat) (c : ascii) (a : Alignment) (prefix : bytes)
    (b : bytes) : bytes * nat :=
  let size := (length prefix + num_digits)%nat in
  if (w <=? size)%nat then
    let '(b, p) := grow_buffer size b in (copy prefix p b, (p + size - 1)%nat)
  else
    let '(b, p) := grow_buffer w b in
    let fin := (p + w)%nat in
    match a with
    | ALIGN_LEFT =>
        let b := copy prefix p b in
        let p := (p + size)%nat in
        (fill_n p (fin - p) c b, (p - 1)%nat)
    | ALIGN_CENTER =>
        let '(b, p) := fill_padding p w size c b in
        (copy prefix p b, (p + size - 1)%nat)
    | ALIGN_NUMERIC =>
        if (length prefix =? 0)%nat then (fill_n p (fin - size - p) c b, (fin - 1)%nat)
        else
          let b := copy prefix p b in
          let p := (p + length prefix)%nat in
          let size := (size - length prefix)%nat in
          (fill_n p (fin - size - p) c b, (fin - 1)%nat)
    | _ =>
        let b := copy prefix (fin - size) b in
        (fill_n p (fin - size - p) c b, (fin - 1)%nat)
    end.

(** [prefix_size > 0 && prefix[prefix_size - 1] == '0'] *)
Definition drop_octal (prefix : bytes) : bytes :=
  match last prefix with
  | Some c => if decide (c = "0"%char) then removelast prefix else prefix
  | None => prefix
  end.

(** What the growth does that follows a pointer: [moves r n m] tells whether,
    behind [reserve(r)] and [grow_buffer(n)], [grow_buffer(m)] moves the
    elements of the buffer at hand. *)
Definition growth := nat -> nat -> nat -> bool.

(** [prepare_int_buffer]: the prefix and the padding are written; the pointer
    is to the place of the last digit, [None] when that is in memory the
    buffer has left.  The overload for [EmptySpec] comes first. *)
Definition prepare_int_buffer (moves : growth) (num_digits : nat) (s : int_spec) (prefix : bytes) (b : bytes) :
    bytes * option nat :=
  let here (r : bytes * nat) := (r.1, Some r.2) in
  match s with
  | TypeSpec _ =>
      let size := (length prefix + num_digits)%nat in
      let '(b, p) := grow_buffer size b in (copy prefix p b, Some (p + size - 1)%nat)
  | _ =>
      if Z.of_nat num_digits <? precision s then
        let prefix := drop_octal prefix in
        let number_size := (length prefix + Z.to_nat (precision s))%nat in
        if (width s <=? number_size)%nat
        then here (prepare_aligned num_digits number_size "0"%char ALIGN_NUMERIC prefix b)
        else
          let fill_size := (width s - number_size)%nat in
          let b := if decide (align s = ALIGN_LEFT) then b
                   else let '(b, p) := grow_buffer fill_size b in fill_n p fill_size (fill s) b in
          let '(b, result) := prepare_aligned num_digits number_size "0"%char ALIGN_NUMERIC prefix b in
          if decide (align s = ALIGN_LEFT) then
            let '(b, p) := grow_buffer fill_size b in
            (fill_n p fill_size (fill s) b,
             if moves (width s) number_size fill_size then None else Some result)
          else (b, Some result)
      else here (prepare_aligned num_digits (width s) (fill s) (align s) prefix b)
  end.
(** The digits are written through the pointer. *)
Definition write_digits (write : nat -> bytes -> bytes) (r : bytes * option nat) : bytes :=
  match r with (b, Some p) => write p b | (b, None) => b end.

(** The loops of the radixes 16, 2 and 8: [shift] is 4, 1 and 3. *)
Fixpoint count_radix (fuel : nat) (shift n : Z) : nat :=
  match fuel with
  | O => O
  | S fuel =>
      let n := Z.shiftr n shift in
      if n =? 0 then 1%nat else S (count_radix fuel shift n)
  end.
Fixpoint put_radix (fuel : nat) (shift : Z) (digits : bytes) (n : Z) (p : nat) (b : bytes) : bytes :=
  match fuel with
  | O => b
  | S fuel =>
      let b := <[p := nth (Z.to_nat (Z.land n (Z.ones shift))) digits nul]> b in
      let n := Z.shiftr n shift in
      if n =? 0 then b else put_radix fuel shift digits n (pred p) b
  end.
Definition lower_digits : bytes := !"0123456789abcdef".
Definition upper_digits : bytes := !"0123456789ABCDEF".

(** [report_unknown_type]: a [FormatError]. *)
Definition isprint (c : ascii) : bool := (32 <=? char_code c) && (char_code c <=? 126).
Definition signed_char (c : ascii) : Z := if char_code c <? 128 then char_code c else char_code c - 256.
Definition write_radix (moves : growth) (shift : Z) (digits : bytes) (n : Z) (s : int_spec) (prefix b : bytes) : bytes :=
  let num_digits := count_radix (dec_fuel n) shift n in
  write_digits (put_radix (dec_fuel n) shift digits n) (prepare_int_buffer moves num_digits s prefix b).
(** A specifier without a precision does not ask. *)
Definition not_asked : growth := fun _ _ _ => false.
Definition report_unknown_type (code : ascii) (what : bytes) : exn :=
  runtime_error
    (if isprint code then !"unknown format code '" ++ [code] ++ !"' for " ++ what
     else !"unknown format code '\x" ++
          write_radix not_asked 4 lower_digits (u32 (signed_char code))
            (FormatSpec 2 "0"%char ALIGN_NUMERIC 0 (-1) "x"%char) [] [] ++ !"' for " ++ what).

(** [write_int(value, spec)]; the unsigned type has [w] bits, and [locale_sep]
    is the thousands separator of the locale. *)
Definition sign_prefix (value : Z) (s : int_spec) : bytes :=
  if value <? 0 then ["-"%char]
  else if flag s SIGN_FLAG then [if flag s PLUS_FLAG then "+"%char else space]
  else [].
Definition abs_value (w value : Z) : Z :=
  let a := wrap_u w value in if value <? 0 then wrap_u w (0 - a) else a.
Definition write_int (moves : growth) (w : Z) (locale_sep : bytes) (value : Z) (s : int_spec) (b : bytes) : exc bytes :=
  let n := abs_value w value in
  let prefix := sign_prefix value s in
  let hashed := if flag s HASH_FLAG then prefix ++ ["0"%char; type s] else prefix in
  let ty (c : ascii) := bool_decide (type s = c) in
  if ty nul || ty "d"%char then
    Ok (write_digits (fun p => format_decimal None (p + 1) n 0)
          (prepare_int_buffer moves (count_digits w n) s prefix b))
  else if ty "x"%char || ty "X"%char then
    Ok (write_radix moves 4 (if ty "x"%char then lower_digits else upper_digits) n s hashed b)
  else if ty "b"%char || ty "B"%char then Ok (write_radix moves 1 lower_digits n s hashed b)
  else if ty "o"%char then
    Ok (write_radix moves 3 lower_digits n s (if flag s HASH_FLAG then prefix ++ ["0"%char] else prefix) b)
  else if ty "n"%char then
    let num_digits := count_digits w n in
    let size := (num_digits + length locale_sep * ((num_digits - 1) / 3))%nat in
    Ok (write_digits (fun p => format_decimal (Some locale_sep) (p + 1) n 0)
          (prepare_int_buffer moves size s prefix b))
  else Thrown (report_unknown_type (type s) (if flag s CHAR_FLAG then !"char" else !"integer")).

(** [operator<<] of a signed integer. *)
Definition write_unsigned_decimal (w value : Z) (prefix_size : nat) (b : bytes) : bytes * nat :=
  let num_digits := count_digits w value in
  let '(b, ptr) := grow_buffer (prefix_size + num_digits) b in
  (format_decimal None (ptr + prefix_size) value num_digits b, ptr).
Definition write_decimal (w value : Z) (b : bytes) : bytes :=
  let n := wrap_u w value in
  if value <? 0 then
    let '(b, ptr) := write_unsigned_decimal w (wrap_u w (0 - n)) 1 b in <[ptr := "-"%char]> b
  else (write_unsigned_decimal w n 0 b).1.

(** [write_str(s, size, spec)] *)
Definition write_str (s : bytes) (w : nat) (c : ascii) (a : Alignment) (b : bytes) : bytes :=
  let size := length s in
  if (size <? w)%nat then
    let '(b, out) := grow_buffer w b in
    match a with
    | ALIGN_RIGHT =>
        let b := fill_n out (w - size) c b in copy s (out + (w - size)) b
    | ALIGN_CENTER => let '(b, out) := fill_padding out w size c b in copy s out b
    | _ => let b := fill_n (out + size) (w - size) c b in copy s out b
    end
  else let '(b, out) := grow_buffer size b in copy s out b.
End Writer.
