(* ===== verification/FmtFacts.v ===== *)
(** * Writing integers: the text is the padded numeral

    [count_digits] is the length of the decimal numeral; the backward writes
    fill exactly the area that was reserved; [write_int] appends the padded
    numeral, whatever the grown area held, unless the pointer to the digits
    was left behind by a second growth. *)
From S2P Require Import Prelude Cxx Fmt.

Open Scope Z_scope.

(** ** Decimal numerals *)
Lemma log2_div10 n : 10 <= n -> Z.log2 (n / 10) < Z.log2 n.
Proof.
  intros Hn. apply Z.log2_lt_pow2; [apply Z.div_str_pos; lia|].
  apply Z.div_lt_upper_bound; [lia|].
  pose proof (Z.log2_spec n ltac:(lia)) as [_ H]. rewrite Z.pow_succ_r in H by apply Z.log2_nonneg. lia.
Qed.
Lemma dec_digits_fuel f1 f2 n :
  0 <= n -> (Z.to_nat (Z.log2 n) < f1)%nat -> (Z.to_nat (Z.log2 n) < f2)%nat ->
  dec_digits f1 n = dec_digits f2 n.
Proof.
  revert f2 n; induction f1 as [|f1 IH]; intros f2 n Hn H1 H2; [lia|].
  destruct f2 as [|f2]; [lia|]. simpl. destruct (n <? 10) eqn:?; bool_to_prop; [done|].
  f_equal. pose proof (log2_div10 n). pose proof (Z.log2_nonneg (n / 10)).
  apply IH; [apply Z.div_pos; lia|lia|lia].
Qed.
Lemma dec_nat_small n : n < 10 -> dec_nat n = [digit_char n].
Proof. intros Hn. unfold dec_nat; simpl. by destruct (n <? 10) eqn:?; bool_to_prop; [|lia]. Qed.
Lemma dec_nat_step n : 10 <= n -> dec_nat n = dec_nat (n / 10) ++ [digit_char (n mod 10)].
Proof.
  intros Hn. unfold dec_nat at 1; simpl. destruct (n <? 10) eqn:?; bool_to_prop; [lia|].
  f_equal. pose proof (log2_div10 n Hn). apply dec_digits_fuel; [apply Z.div_pos; lia| |unfold dec_fuel; lia].
  pose proof (Z.log2_nonneg (n / 10)). lia.
Qed.

Lemma dec_nat_length n k :
  0 <= n < 10 ^ Z.of_nat (S k) -> (k = O \/ 10 ^ Z.of_nat k <= n) -> length (dec_nat n) = S k.
Proof.
  revert n; induction k as [|k IH]; intros n Hn Hk.
  - by rewrite dec_nat_small by (simpl in Hn; lia).
  - destruct Hk as [?|Hk]; [done|].
    rewrite (Nat2Z.inj_succ (S k)), Z.pow_succ_r in Hn by lia.
    rewrite Nat2Z.inj_succ, Z.pow_succ_r in Hk by lia.
    assert (1 <= 10 ^ Z.of_nat k) by (pose proof (Z.pow_pos_nonneg 10 (Z.of_nat k)); lia).
    rewrite dec_nat_step, length_app by lia. rewrite IH; [simpl; lia| |].
    + split; [apply Z.div_pos; lia|]. apply Z.div_lt_upper_bound; lia.
    + right. apply Z.div_le_lower_bound; lia.
Qed.

(** *** count_digits *)

(** What the table must satisfy at one bit length. *)
Definition table_ok (w : Z) (powers : list Z) (l : Z) : bool :=
  let t := Z.shiftr ((l + 1) * 1233) 12 in
  (nth (Z.to_nat t) powers 0 =? (if t =? 0 then 0 else 10 ^ t))
  && ((t <=? 1) || (10 ^ (t - 1) <=? 2 ^ l)) && (2 ^ (l + 1) <=? 10 ^ (t + 1)) && (0 <=? t)
  && (t <=? 20).
Lemma count_digits_table_ok w powers n :
  0 <= n < 2 ^ w -> 0 < w ->
  forallb (table_ok w powers) (Z.of_nat <$> seq 0 (Z.to_nat w)) = true ->
  Z.to_nat (count_digits_table w powers n) = length (dec_nat n).
Proof.
  intros Hn Hw Hall. set (m := Z.lor n 1).
  assert (Hlog : Z.log2 m = Z.log2 n) by (unfold m; rewrite Z.log2_lor by lia; change (Z.log2 1) with 0; pose proof (Z.log2_nonneg n); lia).
  assert (Hl : 0 <= Z.log2 n < w).
  { split; [apply Z.log2_nonneg|]. destruct (decide (n = 0)) as [->|]; [done|]. apply Z.log2_lt_pow2; lia. }
  rewrite forallb_forall in Hall. specialize (Hall (Z.log2 n)).
  assert (Hok : table_ok w powers (Z.log2 n) = true).
  { apply Hall, list_elem_of_In, list_elem_of_fmap. exists (Z.to_nat (Z.log2 n)). split; [lia|].
    apply elem_of_seq. lia. }
  unfold table_ok in Hok. unfold count_digits_table, clz. fold m. rewrite Hlog.
  replace (w - (w - 1 - Z.log2 n)) with (Z.log2 n + 1) by lia.
  set (t := Z.shiftr ((Z.log2 n + 1) * 1233) 12) in *. bool_to_prop.
  apply orb_prop in H3. rewrite H.
  assert (Hup : n < 10 ^ (t + 1)).
  { destruct (decide (n = 0)) as [->|]; [apply Z.pow_pos_nonneg; lia|].
    pose proof (Z.log2_spec n ltac:(lia)). replace (Z.succ (Z.log2 n)) with (Z.log2 n + 1) in * by lia. lia. }
  assert (Hlo : t <= 1 \/ 10 ^ (t - 1) <= n).
  { destruct (Z.le_gt_cases t 1); [by left|right]. destruct H3; bool_to_prop; [lia|].
    assert (n <> 0).
    { intros Hz. rewrite Hz in H3. change (2 ^ Z.log2 0) with 1 in H3.
      assert (10 ^ 1 <= 10 ^ (t - 1)) by (apply Z.pow_le_mono_r; lia). lia. }
    pose proof (Z.log2_spec n ltac:(lia)). lia. }
  assert (Hdig : forall k, 0 <= k <= 20 -> n < 10 ^ (k + 1) -> k = 0 \/ 10 ^ k <= n ->
    Z.to_nat (u32 (k + 1)) = length (dec_nat n)).
  { intros k Hk H10 Hk'. rewrite (dec_nat_length n (Z.to_nat k)).
    - unfold u32. rewrite wrap_u_id by lia. lia.
    - rewrite Nat2Z.inj_succ, Z2Nat.id by lia. unfold Z.succ. lia.
    - rewrite Z2Nat.id by lia. destruct Hk'; [left|right]; lia. }
  destruct (n <? _) eqn:Hlt; bool_to_prop.
  - destruct (decide (t = 0)) as [Ht|]; [rewrite Ht in *; simpl in *; lia|].
    rewrite (proj2 (Z.eqb_neq t 0)) in Hlt by done.
    apply Hdig; [lia| |].
    + by replace (t - 1 + 1) with t by lia.
    + destruct Hlo; [left|right]; lia.
  - replace (t - 0 + 1) with (t + 1) by lia. apply Hdig; [lia|done|].
    destruct (t =? 0) eqn:?; bool_to_prop; [by left|by right].
Qed.
Lemma count_digits_length w n :
  w = 32 \/ w = 64 -> 0 <= n < 2 ^ w -> count_digits w n = length (dec_nat n).
Proof.
  unfold count_digits. intros [-> | ->] Hn; simpl;
    apply count_digits_table_ok; try done; vm_compute; reflexivity.
Qed.

Lemma dec_nat_div n k :
  10 ^ Z.of_nat k <= n -> length (dec_nat n) = (length (dec_nat (n / 10 ^ Z.of_nat k)) + k)%nat.
Proof.
  revert n; induction k as [|k IH]; intros n Hn; [rewrite Z.div_1_r; lia|].
  rewrite Nat2Z.inj_succ, Z.pow_succ_r in * by lia.
  assert (1 <= 10 ^ Z.of_nat k) by (pose proof (Z.pow_pos_nonneg 10 (Z.of_nat k)); lia).
  rewrite dec_nat_step, length_app, (IH (n / 10)) by (try apply Z.div_le_lower_bound; lia).
  rewrite Z.div_div by lia. simpl. lia.
Qed.
Lemma count_digits_loop_length fuel n count :
  0 <= n < 10000 ^ Z.of_nat fuel -> (0 < fuel)%nat ->
  count_digits_loop fuel n count = count - 1 + len (dec_nat n).
Proof.
  revert n count; induction fuel as [|fuel IH]; intros n count Hn Hf; [lia|].
  cbn [count_digits_loop]. unfold len.
  repeat case_match; bool_to_prop;
    [rewrite (dec_nat_length n 0)|rewrite (dec_nat_length n 1)|rewrite (dec_nat_length n 2)|
     rewrite (dec_nat_length n 3)|]; try (simpl; lia).
  rewrite Nat2Z.inj_succ, Z.pow_succ_r in Hn by lia.
  destruct fuel as [|fuel]; [simpl in Hn; lia|].
  rewrite IH; [|split; [apply Z.div_pos; lia|apply Z.div_lt_upper_bound; lia]|lia].
  rewrite (dec_nat_div n 4) by (simpl; lia). unfold len. change (10 ^ Z.of_nat 4) with 10000. lia.
Qed.
(** The two versions of [count_digits] agree. *)
Lemma count_digits_fallback_ok n :
  0 <= n < 2 ^ 64 -> count_digits_fallback n = len (dec_nat n).
Proof.
  intros Hn. unfold count_digits_fallback. rewrite count_digits_loop_length; [lia| |lia].
  change (10000 ^ Z.of_nat 6) with 1000000000000000000000000. lia.
Qed.

(** ** Writing into the middle of a buffer *)
Lemma copy_mid l1 l2 l3 s :
  length s = length l2 -> copy s (length l1) (l1 ++ l2 ++ l3) = l1 ++ s ++ l3.
Proof.
  intros Hs. unfold copy. rewrite <- (Nat.add_0_r (length l1)), list_inserts_app_r.
  f_equal. by apply list_inserts_0_r.
Qed.
Lemma copy_at l1 l2 l3 s p b :
  b = l1 ++ l2 ++ l3 -> p = length l1 -> length s = length l2 -> copy s p b = l1 ++ s ++ l3.
Proof. intros -> -> Hs. by apply copy_mid. Qed.
Lemma fill_at l1 l2 l3 c p k b :
  b = l1 ++ l2 ++ l3 -> p = length l1 -> k = length l2 -> fill_n p k c b = l1 ++ repeat c k ++ l3.
Proof. intros -> -> ->. apply copy_mid. apply repeat_length. Qed.
Lemma insert_mid (l1 l3 : bytes) (x c : ascii) :
  <[length l1 := c]> (l1 ++ x :: l3) = l1 ++ c :: l3.
Proof. by rewrite insert_app_r_alt, Nat.sub_diag by lia. Qed.

(** *** Padding: the text that is wanted *)
Definition pad_text (w : nat) (c : ascii) (a : Alignment) (prefix digits : bytes) : bytes :=
  let n := (w - (length prefix + length digits))%nat in
  match a with
  | ALIGN_LEFT => prefix ++ digits ++ repeat c n
  | ALIGN_CENTER => repeat c (n / 2) ++ prefix ++ digits ++ repeat c (n - n / 2)
  | ALIGN_NUMERIC => prefix ++ repeat c n ++ digits
  | _ => repeat c n ++ prefix ++ digits
  end.
Definition render (s : int_spec) (prefix digits : bytes) : bytes :=
  match s with
  | TypeSpec _ => prefix ++ digits
  | _ =>
      if len digits <? precision s then
        let prefix := drop_octal prefix in
        let number := prefix ++ repeat "0"%char (Z.to_nat (precision s) - length digits) ++ digits in
        let n := (width s - length number)%nat in
        if decide (align s = ALIGN_LEFT) then number ++ repeat (fill s) n
        else repeat (fill s) n ++ number
      else pad_text (width s) (fill s) (align s) prefix digits
  end.

(** The number is padded behind its digits, in an area of its own. *)
Definition padded_behind (s : int_spec) (prefix digits : bytes) : bool :=
  bool_decide (align s = ALIGN_LEFT) && (len digits <? precision s)
  && (length (drop_octal prefix) + Z.to_nat (precision s) <? width s)%nat.
(** The growth for that area moves the digits' place. *)
Definition digits_lost (moves : growth) (s : int_spec) (prefix digits : bytes) : bool :=
  let number_size := (length (drop_octal prefix) + Z.to_nat (precision s))%nat in
  padded_behind s prefix digits && moves (width s) number_size (width s - number_size)%nat.

Section Writer.
Variable junk : ascii.
Notation junks := (repeat junk).

(** A buffer with a hole of [n] unspecified characters that ends at [p]: any
    [n] characters put there give the text [t] of them, after [b]. *)
Definition has_hole (n : nat) (t : bytes -> bytes) (b : bytes) (r : bytes * nat) : Prop :=
  exists l hole l', r.1 = b ++ l ++ hole ++ l' /\ hole = junks n
    /\ S r.2 = (length b + length l + n)%nat
    /\ (forall ds, length ds = n -> l ++ ds ++ l' = t ds).

Lemma junks_split n m k : (n = m + k)%nat -> junks n = junks m ++ junks k.
Proof. intros ->. apply repeat_app. Qed.

(** The pieces of [prepare_aligned] when there is something to pad. *)
Ltac sizes := rewrite ?length_app, ?repeat_length; cbn [length fst snd]; lia.
Ltac split_area := rewrite <- ?app_assoc, <- ?repeat_app; do 2 f_equal; lia.
Lemma hole_right n w c prefix b m :
  (0 < n)%nat -> (w = length prefix + (n + m))%nat -> m = (w - (length prefix + n))%nat ->
  has_hole n (pad_text w c ALIGN_RIGHT prefix) b
    (fill_n (length b) (length b + w - (length prefix + n) - length b) c
       (copy prefix (length b + w - (length prefix + n)) (b ++ junks w)), (length b + w - 1)%nat).
Proof.
  intros Hn Hw Hm. exists (repeat c m ++ prefix), (junks n), []. simpl.
  rewrite (copy_at (b ++ junks m) (junks (length prefix)) (junks n)); [|split_area|sizes|sizes].
  rewrite (fill_at b (junks m) (prefix ++ junks n)); [|split_area|sizes|sizes].
  replace (length b + w - _ - length b)%nat with m by lia. rewrite app_nil_r, <- !app_assoc.
  split; [done|]. split; [done|]. split; [sizes|]. intros ds Hds. unfold pad_text.
  rewrite Hds, <- Hm, app_nil_r. by rewrite <- app_assoc.
Qed.
Lemma hole_left n w c prefix b m :
  (0 < n)%nat -> (w = length prefix + (n + m))%nat -> m = (w - (length prefix + n))%nat ->
  has_hole n (pad_text w c ALIGN_LEFT prefix) b
    (fill_n (length b + (length prefix + n)) (length b + w - (length b + (length prefix + n))) c
       (copy prefix (length b) (b ++ junks w)), (length b + (length prefix + n) - 1)%nat).
Proof.
  intros Hn Hw Hm. exists prefix, (junks n), (repeat c m). simpl.
  rewrite (copy_at b (junks (length prefix)) (junks n ++ junks m)); [|split_area|sizes|sizes].
  rewrite (fill_at (b ++ prefix ++ junks n) (junks m) []);
    [|by rewrite <- !app_assoc, app_nil_r|sizes|sizes].
  replace (length b + w - _)%nat with m by lia. rewrite app_nil_r, <- !app_assoc.
  split; [done|]. split; [done|]. split; [sizes|]. intros ds Hds. unfold pad_text.
  by rewrite Hds, <- Hm.
Qed.
Lemma hole_numeric n w c prefix b m :
  (0 < n)%nat -> (w = length prefix + (n + m))%nat -> m = (w - (length prefix + n))%nat ->
  has_hole n (pad_text w c ALIGN_NUMERIC prefix) b
    (fill_n (length b + length prefix) (length b + w - n - (length b + length prefix)) c
       (copy prefix (length b) (b ++ junks w)), (length b + w - 1)%nat).
Proof.
  intros Hn Hw Hm. exists (prefix ++ repeat c m), (junks n), []. simpl.
  rewrite (copy_at b (junks (length prefix)) (junks m ++ junks n)); [|split_area|sizes|sizes].
  rewrite (fill_at (b ++ prefix) (junks m) (junks n)); [|by rewrite <- !app_assoc|sizes|sizes].
  replace (length b + w - n - _)%nat with m by lia. rewrite app_nil_r, <- !app_assoc.
  split; [done|]. split; [done|]. split; [sizes|]. intros ds Hds. unfold pad_text.
  by rewrite Hds, <- Hm, app_nil_r, <- app_assoc.
Qed.
(** [fill_padding] around [s] places. *)
Lemma fill_padding_area w s c b m :
  (w = s + m)%nat ->
  fill_padding (length b) w s c (b ++ junks w)
  = (b ++ repeat c (m / 2) ++ junks s ++ repeat c (m - m / 2), (length b + m / 2)%nat).
Proof.
  intros Hw. unfold fill_padding. replace (w - s)%nat with m by lia.
  pose proof (Nat.Div0.div_le_upper_bound m 2 m ltac:(lia)) as Hh.
  rewrite (fill_at b (junks (m / 2)) (junks s ++ junks (m - m / 2)) c (length b) (m / 2) (b ++ junks w));
    [|split_area|sizes|by rewrite repeat_length].
  f_equal. rewrite (fill_at (b ++ repeat c (m / 2) ++ junks s) (junks (m - m / 2)) []);
    [|by rewrite <- !app_assoc, app_nil_r|sizes|by rewrite repeat_length].
  by rewrite app_nil_r, <- !app_assoc.
Qed.
Lemma hole_center n w c prefix b m :
  (0 < n)%nat -> (w = length prefix + (n + m))%nat -> m = (w - (length prefix + n))%nat ->
  has_hole n (pad_text w c ALIGN_CENTER prefix) b
    (let '(b', p) := fill_padding (length b) w (length prefix + n) c (b ++ junks w) in
     (copy prefix p b', (p + (length prefix + n) - 1)%nat)).
Proof.
  intros Hn Hw Hm. rewrite (fill_padding_area w (length prefix + n) c b m) by lia.
  exists (repeat c (m / 2) ++ prefix), (junks n), (repeat c (m - m / 2)). cbn [fst snd].
  rewrite (copy_at (b ++ repeat c (m / 2)) (junks (length prefix)) (junks n ++ repeat c (m - m / 2)));
    [|rewrite repeat_app; by rewrite <- !app_assoc|sizes|sizes].
  rewrite <- !app_assoc.
  split; [done|]. split; [done|]. split; [sizes|]. intros ds Hds. unfold pad_text.
  by rewrite Hds, <- Hm, <- app_assoc.
Qed.

Lemma prepare_aligned_spec n w c a prefix b :
  (0 < n)%nat ->
  has_hole n (pad_text w c a prefix) b (prepare_aligned junk n w c a prefix b).
Proof.
  intros Hn. unfold prepare_aligned, grow_buffer.
  destruct (w <=? length prefix + n)%nat eqn:Hw; [apply Nat.leb_le in Hw|apply Nat.leb_gt in Hw].
  - exists prefix, (junks n), []. simpl. rewrite repeat_app, app_nil_r.
    rewrite copy_mid by (by rewrite repeat_length).
    split; [done|]. split; [done|]. split; [lia|]. intros ds Hds. rewrite app_nil_r.
    unfold pad_text. replace (w - _)%nat with O by lia.
    destruct a; simpl; by rewrite ?app_nil_r.
  - set (m := (w - (length prefix + n))%nat).
    assert (Hm : (w = length prefix + (n + m))%nat) by lia.
    destruct a; [by apply (hole_right _ _ _ _ _ m)|by apply (hole_left _ _ _ _ _ m)|
                 by apply (hole_right _ _ _ _ _ m)|by apply (hole_center _ _ _ _ _ m)|].
    destruct (length prefix =? 0)%nat eqn:Hp.
    + apply Nat.eqb_eq in Hp. destruct prefix; [|done]. by apply (hole_right _ _ _ [] _ m).
    + replace (length prefix + n - length prefix)%nat with n by lia. by apply (hole_numeric _ _ _ _ _ m).
Qed.

(** *** prepare_int_buffer *)
Lemma has_hole_ext n t t' b r :
  (forall ds, length ds = n -> t ds = t' ds) -> has_hole n t b r -> has_hole n t' b r.
Proof.
  intros Ht (l & hole & l' & H1 & H2 & H3 & H4). exists l, hole, l'. repeat split; try done.
  intros ds Hds. by rewrite H4, Ht.
Qed.
Lemma has_hole_prefix n t b x r :
  has_hole n t (b ++ x) r -> has_hole n (fun ds => x ++ t ds) b r.
Proof.
  intros (l & hole & l' & H1 & H2 & H3 & H4). exists (x ++ l), hole, l'.
  rewrite H1, <- !app_assoc. repeat split; try done.
  - rewrite H3, !length_app. lia.
  - intros ds Hds. by rewrite <- H4, <- app_assoc.
Qed.
Lemma has_hole_suffix n t b x r :
  has_hole n t b r -> has_hole n (fun ds => t ds ++ x) b (r.1 ++ x, r.2).
Proof.
  intros (l & hole & l' & H1 & H2 & H3 & H4). exists l, hole, (l' ++ x). cbn [fst snd].
  rewrite H1, <- !app_assoc. repeat split; try done.
  intros ds Hds. by rewrite <- H4, <- !app_assoc.
Qed.
Lemma has_hole_content n t b r :
  has_hole n t b r -> r.1 = b ++ t (junks n).
Proof.
  intros (l & hole & l' & -> & -> & _ & Ht). by rewrite <- Ht by apply repeat_length.
Qed.
Lemma grow_fill k c b : fill_n (length b) k c (b ++ junks k) = b ++ repeat c k.
Proof.
  rewrite (fill_at b (junks k) []); [by rewrite app_nil_r|by rewrite app_nil_r|done|].
  by rewrite repeat_length.
Qed.

(** The pointer is to a hole, or the digits are lost: then the area keeps what
    it held. *)
Definition prepared (moves : growth) (n : nat) (s : int_spec) (prefix b : bytes) (r : bytes * option nat) : Prop :=
  match r.2 with
  | Some p => digits_lost moves s prefix (junks n) = false /\ has_hole n (render s prefix) b (r.1, p)
  | None => digits_lost moves s prefix (junks n) = true /\ r.1 = b ++ render s prefix (junks n)
  end.
Lemma junks_len n : len (junks n) = Z.of_nat n.
Proof. unfold len. by rewrite repeat_length. Qed.
Lemma prepare_precision moves n w c a f p t prefix b :
  (0 < n)%nat -> Z.of_nat n < p ->
  let s := FormatSpec w c a f p t in
  prepared moves n s prefix b (prepare_int_buffer junk moves n s prefix b).
Proof.
  intros Hn Hp s. unfold prepared, digits_lost, padded_behind. subst s.
  cbn [prepare_int_buffer precision width fill align]. rewrite junks_len.
  rewrite (proj2 (Z.ltb_lt _ _)) by done. set (P := drop_octal prefix).
  set (m := (length P + Z.to_nat p)%nat).
  assert (Hin : forall ds, length ds = n ->
    pad_text m "0"%char ALIGN_NUMERIC P ds = P ++ repeat "0"%char (Z.to_nat p - n) ++ ds).
  { intros ds Hds. unfold pad_text. rewrite Hds. do 3 f_equal. lia. }
  assert (Hren : forall ds, length ds = n -> render (FormatSpec w c a f p t) prefix ds =
    if decide (a = ALIGN_LEFT) then pad_text m "0"%char ALIGN_NUMERIC P ds ++ repeat c (w - m)
    else repeat c (w - m) ++ pad_text m "0"%char ALIGN_NUMERIC P ds).
  { intros ds Hds. cbn [render precision width fill align]. unfold len. rewrite Hds.
    rewrite (proj2 (Z.ltb_lt _ _)) by done. fold P. rewrite Hin by done.
    replace (length (P ++ _)) with m by (rewrite !length_app, repeat_length; lia). done. }
  rewrite andb_true_r.
  destruct (w <=? m)%nat eqn:Hw.
  - rewrite (proj2 (Nat.ltb_ge _ _)), andb_false_r by (by apply Nat.leb_le). split; [done|].
    apply (has_hole_ext _ _ _ _ _ (fun ds Hds => eq_sym (Hren ds Hds))).
    pose proof (prepare_aligned_spec n m "0"%char ALIGN_NUMERIC P b Hn) as Hal.
    destruct (prepare_aligned _ _ _ _ _ _ _) as [b' q]. eapply has_hole_ext; [|exact Hal]. intros ds Hds.
    apply Nat.leb_le in Hw. replace (w - m)%nat with O by lia. simpl. by rewrite app_nil_r; case_decide.
  - apply Nat.leb_gt in Hw. rewrite (proj2 (Nat.ltb_lt _ _)), andb_true_r by done. unfold grow_buffer. case_decide as Ha.
    + rewrite bool_decide_eq_true_2 by done. cbn [andb].
      pose proof (prepare_aligned_spec n m "0"%char ALIGN_NUMERIC P b Hn) as Hal.
      destruct (prepare_aligned _ _ _ _ _ _ _) as [b' q]. rewrite grow_fill.
      apply (has_hole_suffix _ _ _ (repeat c (w - m))) in Hal. cbn [fst snd] in Hal |- *.
      apply (has_hole_ext _ _ _ _ _ (fun ds Hds => eq_sym (Hren ds Hds))) in Hal.
      destruct (moves _ _ _); (split; [done|]); [by apply has_hole_content in Hal|done].
    + rewrite bool_decide_eq_false_2 by done. cbn [andb]. rewrite grow_fill.
      pose proof (prepare_aligned_spec n m "0"%char ALIGN_NUMERIC P (b ++ repeat c (w - m)) Hn) as Hal.
      destruct (prepare_aligned _ _ _ _ _ _ _) as [b' q]. split; [done|].
      apply (has_hole_ext _ _ _ _ _ (fun ds Hds => eq_sym (Hren ds Hds))). by apply has_hole_prefix.
Qed.
(** Without a longer precision there is one area. *)
Lemma prepare_plain moves n s prefix b :
  (0 < n)%nat -> precision s <= Z.of_nat n ->
  prepared moves n s prefix b (prepare_int_buffer junk moves n s prefix b).
Proof.
  intros Hn Hp. unfold prepared, digits_lost, padded_behind. rewrite junks_len.
  rewrite (proj2 (Z.ltb_ge _ _)), andb_false_r by done. destruct s as [t|t w c|w c a f p t].
  - pose proof (prepare_aligned_spec n 0 space ALIGN_DEFAULT prefix b Hn) as H.
    unfold prepare_aligned in H. simpl in H. split; [done|]. by eapply has_hole_ext; [|exact H].
  - cbn [prepare_int_buffer width fill align] in *. rewrite (proj2 (Z.ltb_ge _ _)) by done.
    split; [done|]. pose proof (prepare_aligned_spec n w c ALIGN_DEFAULT prefix b Hn) as Hal.
    destruct (prepare_aligned _ _ _ _ _ _ _) as [b' q]. eapply has_hole_ext; [|exact Hal].
    intros ds Hds. cbn [render precision width fill align]. by rewrite (proj2 (Z.ltb_ge _ _)) by (unfold len; lia).
  - cbn [prepare_int_buffer width fill align] in *. rewrite (proj2 (Z.ltb_ge _ _)) by done.
    split; [done|]. pose proof (prepare_aligned_spec n w c a prefix b Hn) as Hal.
    destruct (prepare_aligned _ _ _ _ _ _ _) as [b' q]. eapply has_hole_ext; [|exact Hal].
    intros ds Hds. cbn [render width fill align]. rewrite (proj2 (Z.ltb_ge _ _)); [done|]. unfold len. rewrite Hds. done.
Qed.
Lemma prepare_int_buffer_spec moves n s prefix b :
  (0 < n)%nat -> prepared moves n s prefix b (prepare_int_buffer junk moves n s prefix b).
Proof.
  intros Hn. destruct (Z.le_gt_cases (precision s) (Z.of_nat n)) as [Hp|Hp]; [by apply prepare_plain|].
  destruct s as [t|t w c|w c a f p t]; simpl in Hp; try lia. by apply prepare_precision.
Qed.
(** What [digits] become: what the area held when they are lost. *)
Definition kept_digits (moves : growth) (s : int_spec) (prefix digits : bytes) : bytes :=
  if digits_lost moves s prefix digits then junks (length digits) else digits.
Lemma kept_digits_all moves s prefix digits :
  padded_behind s prefix digits = false -> kept_digits moves s prefix digits = digits.
Proof. intros Hp. unfold kept_digits, digits_lost. by rewrite Hp. Qed.
Lemma not_padded_behind s prefix digits : precision s <= len digits -> padded_behind s prefix digits = false.
Proof. intros Hp. unfold padded_behind. by rewrite (proj2 (Z.ltb_ge _ _)), andb_false_r. Qed.
(** Digits that are put into the hole. *)
Lemma write_digits_spec moves write s prefix digits b :
  (0 < length digits)%nat ->
  (forall l hole l' p, length hole = length digits -> S p = (length l + length digits)%nat ->
     write p (l ++ hole ++ l') = l ++ digits ++ l') ->
  write_digits write (prepare_int_buffer junk moves (length digits) s prefix b)
  = b ++ render s prefix (kept_digits moves s prefix digits).
Proof.
  intros Hn Hw. pose proof (prepare_int_buffer_spec moves _ s prefix b Hn) as Hp.
  assert (Hl : digits_lost moves s prefix (junks (length digits)) = digits_lost moves s prefix digits)
    by (unfold digits_lost, padded_behind; rewrite junks_len; done).
  unfold kept_digits. rewrite <- Hl. clear Hl. unfold prepared in Hp.
  destruct (prepare_int_buffer _ _ _ _ _ _) as [b' [p|]]; cbn [fst snd write_digits] in *.
  - destruct Hp as [-> (l & hole & l' & Hb & -> & Hp & Ht)]. cbn [fst snd] in Hb, Hp. rewrite Hb, app_assoc, Hw.
    + by rewrite <- app_assoc, Ht.
    + apply repeat_length.
    + rewrite length_app. lia.
  - by destruct Hp as [-> ->].
Qed.
End Writer.

(** ** The backward writers *)
Lemma split_length {A} (l : list A) n m :
  length l = (n + m)%nat -> exists l1 l2, l = l1 ++ l2 /\ length l1 = n /\ length l2 = m.
Proof.
  intros Hl. exists (take n l), (drop n l). rewrite take_drop, length_take, length_drop. repeat split; lia.
Qed.

(** *** Radixes 16, 8 and 2 *)

(** The digits, most significant first. *)
Fixpoint radix_nums (fuel : nat) (shift n : Z) : list Z :=
  match fuel with
  | O => []
  | S fuel =>
      let d := n mod 2 ^ shift in
      if n / 2 ^ shift =? 0 then [d] else radix_nums fuel shift (n / 2 ^ shift) ++ [d]
  end.
Definition radix_text (shift : Z) (digits : bytes) (n : Z) : bytes :=
  (fun d => nth (Z.to_nat d) digits nul) <$> radix_nums (dec_fuel n) shift n.

Lemma count_radix_length fuel shift n :
  0 <= shift -> count_radix fuel shift n = length (radix_nums fuel shift n).
Proof.
  intros Hs. revert n; induction fuel as [|fuel IH]; intros n; simpl; [done|].
  rewrite Z.shiftr_div_pow2 by done. case_match; [done|]. rewrite IH, length_app. simpl. lia.
Qed.
Lemma radix_nums_length fuel shift n : (0 < fuel)%nat -> (0 < length (radix_nums fuel shift n))%nat.
Proof.
  destruct fuel; [lia|]. intros _. simpl. case_match; simpl; [lia|]. rewrite length_app. simpl. lia.
Qed.
Lemma shrink fuel shift n :
  0 < shift -> 0 <= n < 2 ^ Z.of_nat (S fuel) ->
  0 <= n / 2 ^ shift < 2 ^ Z.of_nat fuel /\ (n / 2 ^ shift <> 0 -> (0 < fuel)%nat).
Proof.
  intros Hs Hn. rewrite Nat2Z.inj_succ, Z.pow_succ_r in Hn by lia.
  assert (2 <= 2 ^ shift) by (change 2 with (2 ^ 1) at 1; apply Z.pow_le_mono_r; lia).
  assert (0 < 2 ^ Z.of_nat fuel) by (apply Z.pow_pos_nonneg; lia).
  assert (n / 2 ^ shift < 2 ^ Z.of_nat fuel) by (apply Z.div_lt_upper_bound; nia).
  pose proof (Z.div_pos n (2 ^ shift)). split; [lia|]. intros Hne.
  destruct fuel; [simpl in *; lia|lia].
Qed.
Lemma put_radix_spec fuel shift digits n l1 hole l3 p :
  0 < shift -> 0 <= n < 2 ^ Z.of_nat fuel -> length hole = length (radix_nums fuel shift n) ->
  S p = (length l1 + length hole)%nat ->
  put_radix fuel shift digits n p (l1 ++ hole ++ l3)
  = l1 ++ ((fun d => nth (Z.to_nat d) digits nul) <$> radix_nums fuel shift n) ++ l3.
Proof.
  intros Hs. revert n hole l3 p; induction fuel as [|fuel IH]; intros n hole l3 p Hn Hh Hp;
    [by destruct hole|].
  destruct (shrink fuel shift n Hs Hn) as [Hn' Hf]. cbn [put_radix radix_nums] in *.
  rewrite Z.shiftr_div_pow2, Z.land_ones by lia. set (d := n mod 2 ^ shift) in *.
  destruct (n / 2 ^ shift =? 0) eqn:E; bool_to_prop.
  - destruct hole as [|x [|]]; try done. simpl in Hp. replace p with (length l1) by lia. simpl.
    by rewrite insert_mid.
  - rewrite length_app in Hh. pose proof (radix_nums_length fuel shift (n / 2 ^ shift) (Hf E)).
    destruct (split_length hole _ _ Hh) as (h1 & [|x [|]] & -> & Hh1 & ?); try done.
    rewrite length_app in Hp. simpl in Hp.
    replace (l1 ++ (h1 ++ [x]) ++ l3) with ((l1 ++ h1) ++ x :: l3) by (by rewrite <- !app_assoc).
    replace p with (length (l1 ++ h1)) by (rewrite length_app; lia). rewrite insert_mid.
    rewrite <- app_assoc, fmap_app, <- app_assoc. apply IH; [done|done|].
    rewrite length_app. lia.
Qed.
(** What the digits denote. *)
Definition radix_value (shift : Z) (ds : list Z) : Z := foldl (fun a d => a * 2 ^ shift + d) 0 ds.
Lemma radix_nums_value fuel shift n :
  0 < shift -> 0 <= n < 2 ^ Z.of_nat fuel ->
  radix_value shift (radix_nums fuel shift n) = n
  /\ Forall (fun d => 0 <= d < 2 ^ shift) (radix_nums fuel shift n).
Proof.
  intros Hs. assert (Hp : 0 < 2 ^ shift) by (apply Z.pow_pos_nonneg; lia).
  revert n; induction fuel as [|fuel IH]; intros n Hn; [split; [change (2 ^ Z.of_nat 0) with 1 in Hn; unfold radix_value; simpl; lia|constructor]|].
  destruct (shrink fuel shift n Hs Hn) as [Hn' _]. cbn [radix_nums].
  pose proof (Z.mod_pos_bound n (2 ^ shift) Hp). pose proof (Z.div_mod n (2 ^ shift)).
  destruct (n / 2 ^ shift =? 0) eqn:E; bool_to_prop.
  - rewrite E in *. split; [unfold radix_value; simpl; lia|]. by constructor.
  - destruct (IH _ Hn') as [Hv Hf]. split.
    + unfold radix_value in *. rewrite foldl_app, Hv. simpl. lia.
    + apply Forall_app; split; [done|by constructor].
Qed.
Lemma dec_fuel_bound n : 0 <= n -> 0 <= n < 2 ^ Z.of_nat (dec_fuel n).
Proof.
  intros Hn. split; [done|]. unfold dec_fuel. rewrite Nat2Z.inj_succ, Z2Nat.id by apply Z.log2_nonneg.
  destruct (decide (n = 0)) as [->|]; [done|]. apply Z.log2_spec. lia.
Qed.
Lemma write_radix_spec junk moves shift digits n s prefix b :
  0 < shift -> 0 <= n ->
  write_radix junk moves shift digits n s prefix b
  = b ++ render s prefix (kept_digits junk moves s prefix (radix_text shift digits n)).
Proof.
  intros Hs Hn. unfold write_radix. rewrite count_radix_length by lia.
  assert (Hlen : length (radix_nums (dec_fuel n) shift n) = length (radix_text shift digits n))
    by (unfold radix_text; by rewrite length_fmap).
  rewrite Hlen. apply write_digits_spec.
  - rewrite <- Hlen. apply radix_nums_length. unfold dec_fuel. lia.
  - intros l hole l' p Hh Hp. apply put_radix_spec; [done|by apply dec_fuel_bound|congruence|lia].
Qed.

(** *** Decimal digits, with a thousands separator or none *)
Definition next (sep : option bytes) (i : Z) : Z := match sep with None => i | Some _ => i + 1 end.
Definition sep_text (sep : option bytes) (i : Z) : bytes :=
  match sep with Some s => if i mod 3 =? 0 then s else [] | None => [] end.
(** The digits least significant first, the [i]-th one after a separator when
    [i] is a multiple of three. *)
Fixpoint grouped (sep : option bytes) (i : Z) (ds : bytes) : bytes :=
  match ds with
  | [] => []
  | [d] => [d]
  | d :: ds => grouped sep (next sep i) ds ++ sep_text sep (next sep i) ++ [d]
  end.
Lemma grouped_none i ds : grouped None i ds = rev ds.
Proof.
  induction ds as [|d ds IH]; [done|]. simpl. destruct ds as [|d' ds]; [done|]. by rewrite IH.
Qed.
Lemma grouped_cons sep i d ds :
  ds <> [] -> grouped sep i (d :: ds) = grouped sep (next sep i) ds ++ sep_text sep (next sep i) ++ [d].
Proof. by destruct ds. Qed.

Lemma DIGITS_pair v :
  0 <= v < 100 ->
  nth (Z.to_nat (v * 2)) DIGITS nul = digit_char (v / 10)
  /\ nth (Z.to_nat (v * 2 + 1)) DIGITS nul = digit_char (v mod 10).
Proof.
  intros Hv.
  assert (Hall : forallb (fun v => bool_decide (nth (Z.to_nat (v * 2)) DIGITS nul = digit_char (v / 10))
    && bool_decide (nth (Z.to_nat (v * 2 + 1)) DIGITS nul = digit_char (v mod 10)))
    (Z.of_nat <$> seq 0 100) = true) by (vm_compute; reflexivity).
  rewrite forallb_forall in Hall. specialize (Hall v). apply andb_prop in Hall as [H1 H2].
  - by bool_to_prop.
  - apply list_elem_of_In, list_elem_of_fmap. exists (Z.to_nat v). split; [lia|]. apply elem_of_seq. lia.
Qed.

(** One character, then the separator if one is due. *)
Lemma put_back_hole c l1 h x l3 :
  put_back c (l1 ++ (h ++ [x]) ++ l3, (length l1 + length h + 1)%nat)
  = (l1 ++ h ++ c :: l3, (length l1 + length h)%nat).
Proof.
  unfold put_back. cbn [fst snd]. replace (pred _) with (length (l1 ++ h)) by (rewrite length_app; lia).
  replace (l1 ++ (h ++ [x]) ++ l3) with ((l1 ++ h) ++ x :: l3) by (by rewrite <- !app_assoc).
  by rewrite insert_mid, <- app_assoc, length_app.
Qed.
Lemma thousands_hole sep l1 h g l3 i :
  0 <= i < 2 ^ 32 - 1 -> length g = length (sep_text sep (next sep i)) ->
  thousands sep (l1 ++ (h ++ g) ++ l3, (length l1 + length h + length g)%nat, i)
  = (l1 ++ h ++ sep_text sep (next sep i) ++ l3, (length l1 + length h)%nat, next sep i).
Proof.
  intros Hi Hg. unfold thousands. destruct sep as [s|]; simpl in *.
  - unfold u32. rewrite wrap_u_id by lia. case_match.
    + replace (_ - length s)%nat with (length (l1 ++ h)) by (rewrite length_app; lia).
      replace (l1 ++ (h ++ g) ++ l3) with ((l1 ++ h) ++ g ++ l3) by (by rewrite <- !app_assoc).
      by rewrite copy_mid, <- app_assoc, length_app.
    + destruct g; [|done]. by rewrite app_nil_r, Nat.add_0_r.
  - destruct g; [|done]. by rewrite app_nil_r, Nat.add_0_r.
Qed.
Lemma put_sep sep d c l1 hole l3 i k :
  nth (Z.to_nat d) DIGITS nul = c -> 0 <= i < 2 ^ 32 - 1 ->
  length hole = (k + (length (sep_text sep (next sep i)) + 1))%nat ->
  exists h, length h = k /\
  thousands sep (put_digit d (l1 ++ hole ++ l3, (length l1 + length hole)%nat, i))
  = (l1 ++ h ++ (sep_text sep (next sep i) ++ [c]) ++ l3, (length l1 + length h)%nat, next sep i).
Proof.
  intros Hc Hi Hh. destruct (split_length hole _ _ Hh) as (h & h2 & -> & Hk & H2).
  destruct (split_length h2 _ _ H2) as (g & [|x [|]] & -> & Hg & Hx); try done.
  exists h. split; [done|]. unfold put_digit. cbn [fst snd]. rewrite Hc, (app_assoc h g [x]).
  replace (length l1 + length _)%nat with (length l1 + length (h ++ g) + 1)%nat
    by (rewrite !length_app; simpl; lia).
  rewrite put_back_hole, length_app, Nat.add_assoc.
  rewrite thousands_hole by done. by rewrite <- !app_assoc.
Qed.
Lemma next_range sep i : i <= next sep i <= i + 1.
Proof. destruct sep; simpl; lia. Qed.

Lemma dec_nat_rev2 v :
  100 <= v -> rev (dec_nat v) = digit_char (v mod 10) :: digit_char (v / 10 mod 10) :: rev (dec_nat (v / 100)).
Proof.
  intros Hv. rewrite dec_nat_step, rev_app_distr by lia.
  rewrite (dec_nat_step (v / 10)), rev_app_distr by (apply Z.div_le_lower_bound; lia).
  rewrite Z.div_div by lia. done.
Qed.
Lemma rev_dec_nonempty v : rev (dec_nat v) <> [].
Proof. pose proof (dec_nat_nonempty v). intros H0. apply (f_equal (@rev ascii)) in H0. by rewrite rev_involutive in H0. Qed.
Lemma log2_div100 v : 100 <= v -> Z.log2 (v / 100) < Z.log2 v.
Proof.
  intros Hv. pose proof (log2_div10 v ltac:(lia)).
  assert (Z.log2 (v / 100) <= Z.log2 (v / 10)); [|lia].
  apply Z.log2_le_mono. replace 100 with (10 * 10) by lia. rewrite <- Z.div_div by lia.
  pose proof (Z.div_le_upper_bound (v / 10) 10 (v / 10)). pose proof (Z.div_pos v 10). lia.
Qed.

Lemma pair_digits v :
  nth (Z.to_nat (v mod 100 * 2)) DIGITS nul = digit_char (v / 10 mod 10)
  /\ nth (Z.to_nat (v mod 100 * 2 + 1)) DIGITS nul = digit_char (v mod 10).
Proof.
  destruct (DIGITS_pair (v mod 100) ltac:(apply Z.mod_pos_bound; lia)) as [-> ->].
  split; f_equal; Z.to_euclidean_division_equations; lia.
Qed.

Lemma format_decimal_loop_spec fuel sep v l1 hole l3 i :
  0 <= v -> (Z.to_nat (Z.log2 v) < fuel)%nat -> 0 <= i -> i + len (dec_nat v) < 2 ^ 32 ->
  length hole = length (grouped sep i (rev (dec_nat v))) ->
  format_decimal_loop fuel sep v (l1 ++ hole ++ l3, (length l1 + length hole)%nat, i)
  = l1 ++ grouped sep i (rev (dec_nat v)) ++ l3.
Proof.
  revert v hole l3 i; induction fuel as [|fuel IH]; intros v hole l3 i Hv Hf Hi Hb Hh; [lia|].
  cbn [format_decimal_loop]. pose proof (next_range sep i).
  destruct (100 <=? v) eqn:H100; bool_to_prop; [|destruct (v <? 10) eqn:H10; bool_to_prop].
  - pose proof (next_range sep (next sep i)). pose proof (log2_div100 v H100).
    assert (Hlen : len (dec_nat v) = len (dec_nat (v / 100)) + 2)
      by (unfold len; rewrite (dec_nat_div v 2) by (simpl; lia); change (10 ^ Z.of_nat 2) with 100; lia).
    pose proof (len_nonneg (dec_nat (v / 100))). destruct (pair_digits v) as [Hd1 Hd0].
    rewrite dec_nat_rev2 in * by done.
    rewrite grouped_cons, (grouped_cons _ _ _ (rev _)) in * by (done || apply rev_dec_nonempty).
    rewrite !length_app in Hh. simpl in Hh.
    set (rest := grouped sep (next sep (next sep i)) (rev (dec_nat (v / 100)))) in *.
    edestruct (put_sep sep _ _ l1 hole l3 i (length rest + (length (sep_text sep (next sep (next sep i))) + 1)) Hd0)
      as (h & Hh1 & ->); [lia|lia|].
    edestruct (put_sep sep _ _ l1 h ((sep_text sep (next sep i) ++ [digit_char (v mod 10)]) ++ l3)
      (next sep i) (length rest) Hd1) as (h' & Hh2 & ->); [lia|exact Hh1|].
    rewrite IH; [by rewrite <- !app_assoc|apply Z.div_pos; lia|pose proof (Z.log2_nonneg (v / 100)); lia|lia|lia|done].
  - rewrite dec_nat_small in * by done. cbn [rev app grouped] in *. destruct hole as [|x [|]]; try done.
    pose proof (put_back_hole (digit_char v) l1 [] x l3) as Hp. cbn [app length] in Hp.
    rewrite Nat.add_0_r in Hp. cbn [fst length app]. by rewrite Hp.
  - assert (Hr : rev (dec_nat v) = [digit_char (v mod 10); digit_char (v / 10)]).
    { rewrite dec_nat_step, dec_nat_small by (lia || (apply Z.div_lt_upper_bound; lia)). done. }
    rewrite Hr in *. rewrite grouped_cons in * by done. simpl grouped in *.
    rewrite !length_app in Hh. simpl in Hh.
    destruct (DIGITS_pair v ltac:(lia)) as [Hd1 Hd0].
    assert (1 <= len (dec_nat v)) by (pose proof (dec_nat_nonempty v); destruct (dec_nat v); [done|rewrite len_cons; pose proof (len_nonneg l); lia]).
    edestruct (put_sep sep _ _ l1 hole l3 i 1 Hd0) as (h & Hh1 & ->); [lia|lia|].
    destruct h as [|x [|]]; try done. unfold put_digit. cbn [fst snd]. rewrite Hd1.
    pose proof (put_back_hole (digit_char (v / 10)) l1 [] x ((sep_text sep (next sep i) ++ [digit_char (v mod 10)]) ++ l3)) as Hp.
    cbn [app length] in *. rewrite Nat.add_0_r in Hp. rewrite Hp. cbn [fst]. by rewrite <- !app_assoc.
Qed.
Lemma format_decimal_spec sep v l1 hole l3 p n :
  0 <= v -> len (dec_nat v) < 2 ^ 32 ->
  length hole = length (grouped sep 0 (rev (dec_nat v))) -> (p + n = length l1 + length hole)%nat ->
  format_decimal sep p v n (l1 ++ hole ++ l3) = l1 ++ grouped sep 0 (rev (dec_nat v)) ++ l3.
Proof.
  intros Hv Hb Hh Hp. unfold format_decimal. rewrite Hp.
  apply format_decimal_loop_spec; try done; try lia. unfold dec_fuel. lia.
Qed.
Lemma length_grouped sep ds i k :
  length ds = S k -> 0 <= i ->
  len (grouped (Some sep) i ds) = Z.of_nat (S k) + len sep * ((i + Z.of_nat k) / 3 - i / 3).
Proof.
  revert i k; induction ds as [|d ds IH]; intros i k Hk Hi; [done|].
  destruct ds as [|d' ds].
  - simpl in *. replace k with O by lia. rewrite Z.add_0_r, Z.sub_diag, Z.mul_0_r. done.
  - rewrite grouped_cons by done. simpl in Hk. destruct k as [|k]; [done|].
    autorewrite with cxx. rewrite (IH (next (Some sep) i) k) by (simpl; lia). cbn [next].
    assert (Hs : len (sep_text (Some sep) (i + 1)) = len sep * ((i + 1) / 3 - i / 3)).
    { simpl. destruct ((i + 1) mod 3 =? 0) eqn:E; bool_to_prop.
      - replace ((i + 1) / 3 - i / 3) with 1 by (Z.to_euclidean_division_equations; lia). lia.
      - replace ((i + 1) / 3 - i / 3) with 0 by (Z.to_euclidean_division_equations; lia).
        rewrite len_nil. lia. }
    rewrite Hs. replace (i + Z.of_nat (S k)) with (i + 1 + Z.of_nat k) by lia. lia.
Qed.
Lemma length_grouped_nat sep v n :
  length (dec_nat v) = n ->
  length (grouped (Some sep) 0 (rev (dec_nat v))) = (n + length sep * ((n - 1) / 3))%nat.
Proof.
  intros Hn. pose proof (dec_nat_nonempty v). destruct n as [|k]; [by destruct (dec_nat v)|].
  pose proof (length_grouped sep (rev (dec_nat v)) 0 k ltac:(by rewrite length_rev) ltac:(lia)) as Hl.
  unfold len in Hl. rewrite Z.div_0_l, Z.sub_0_r, Z.add_0_l in Hl by lia.
  replace (S k - 1)%nat with k by lia.
  assert (Z.of_nat k / 3 = Z.of_nat (k / 3)) by (by rewrite Nat2Z.inj_div). nia.
Qed.

(** ** The text of an integer *)

(** [-2^(w-1) <= value < 2^w]: signed and unsigned integers of [w] bits. *)
Lemma abs_value_ok w value :
  0 < w -> - 2 ^ (w - 1) <= value < 2 ^ w ->
  abs_value w value = Z.abs value /\ 0 <= Z.abs value < 2 ^ w.
Proof.
  intros Hw Hv. assert (H2 : 2 ^ w = 2 * 2 ^ (w - 1)) by (rewrite <- Z.pow_succ_r by lia; f_equal; lia).
  assert (0 < 2 ^ (w - 1)) by (apply Z.pow_pos_nonneg; lia).
  unfold abs_value, wrap_u. destruct (value <? 0) eqn:E; bool_to_prop.
  - split; [|lia]. rewrite <- (Z.mod_add value 1) by lia. rewrite Z.mul_1_l.
    rewrite (Z.mod_small (value + _)) by lia.
    replace (0 - (value + 2 ^ w)) with (- value + -1 * 2 ^ w) by lia.
    rewrite Z.mod_add, Z.mod_small by lia. lia.
  - rewrite Z.mod_small by lia. lia.
Qed.

(** The numeral of [n] for a type character, and the text before it. *)
Definition numeral (locale_sep : bytes) (t : ascii) (n : Z) : option bytes :=
  let ty (c : ascii) := bool_decide (t = c) in
  if ty nul || ty "d"%char then Some (dec_nat n)
  else if ty "x"%char then Some (radix_text 4 lower_digits n)
  else if ty "X"%char then Some (radix_text 4 upper_digits n)
  else if ty "b"%char || ty "B"%char then Some (radix_text 1 lower_digits n)
  else if ty "o"%char then Some (radix_text 3 lower_digits n)
  else if ty "n"%char then Some (grouped (Some locale_sep) 0 (rev (dec_nat n)))
  else None.
Definition radix_prefix (t : ascii) : bytes :=
  let ty (c : ascii) := bool_decide (t = c) in
  if ty "x"%char || ty "X"%char || ty "b"%char || ty "B"%char then ["0"%char; t]
  else if ty "o"%char then ["0"%char] else [].
Definition int_prefix (value : Z) (s : int_spec) : bytes :=
  sign_prefix value s ++ (if flag s HASH_FLAG then radix_prefix (type s) else []).

Lemma dec_digits_length fuel n : (length (dec_digits fuel n) <= fuel)%nat.
Proof.
  revert n; induction fuel as [|fuel IH]; intros n; simpl; [lia|].
  case_match; simpl; [lia|]. rewrite length_app. specialize (IH (n / 10)). simpl. lia.
Qed.
Lemma dec_nat_len_bound w n : w = 32 \/ w = 64 -> 0 <= n < 2 ^ w -> len (dec_nat n) < 2 ^ 32.
Proof.
  intros Hw Hn. pose proof (dec_digits_length (dec_fuel n) n).
  assert (Z.log2 n <= Z.log2 (2 ^ w)) by (apply Z.log2_le_mono; lia).
  rewrite Z.log2_pow2 in * by lia. pose proof (Z.log2_nonneg n).
  unfold len, dec_nat, dec_fuel in *. change (2 ^ 32) with 4294967296. lia.
Qed.

(** The numerals of the decimal branches, written into the hole. *)
Lemma write_decimal_digits junk moves locale_sep n s prefix b :
  0 <= n -> len (dec_nat n) < 2 ^ 32 ->
  let ds := grouped locale_sep 0 (rev (dec_nat n)) in
  write_digits (fun p => format_decimal locale_sep (p + 1) n 0) (prepare_int_buffer junk moves (length ds) s prefix b)
  = b ++ render s prefix (kept_digits junk moves s prefix ds).
Proof.
  intros Hn Hb ds.
  assert (Hpos : (0 < length ds)%nat).
  { unfold ds. pose proof (rev_dec_nonempty n). destruct (rev (dec_nat n)) as [|d [|d' l]]; [done|simpl; lia|].
    rewrite grouped_cons, !length_app by done. simpl. lia. }
  apply write_digits_spec; [done|]. intros l hole l' p Hh Hp. apply format_decimal_spec; (done || lia).
Qed.

(** The common case: plain decimal. *)
Lemma write_int_decimal junk moves w locale_sep value s b :
  w = 32 \/ w = 64 -> - 2 ^ (w - 1) <= value < 2 ^ w -> type s = nul -> precision s < 0 ->
  write_int junk moves w locale_sep value s b
  = Ok (b ++ render s (sign_prefix value s) (dec_nat (Z.abs value))).
Proof.
  intros Hw Hv Ht Hp. destruct (abs_value_ok w value ltac:(lia) Hv) as [Ha Hr].
  unfold write_int. rewrite Ha, Ht.
  pose proof (write_decimal_digits junk moves None (Z.abs value) s (sign_prefix value s) b ltac:(lia)
    (dec_nat_len_bound w _ Hw Hr)) as Hd.
  rewrite grouped_none, rev_involutive in Hd. cbn zeta in Hd.
  rewrite bool_decide_eq_true_2, count_digits_length by done. cbn [orb].
  rewrite Hd, kept_digits_all; [done|]. apply not_padded_behind. unfold len. lia.
Qed.

(** Comparisons of two given characters. *)
Ltac eval_tests :=
  repeat match goal with
  | |- context [bool_decide (?a = ?b :> ascii)] =>
      let v := eval vm_compute in (bool_decide (a = b)) in change (bool_decide (a = b)) with v
  end.
Lemma write_int_spec junk moves w locale_sep value s b :
  w = 32 \/ w = 64 -> - 2 ^ (w - 1) <= value < 2 ^ w ->
  write_int junk moves w locale_sep value s b =
  match numeral locale_sep (type s) (Z.abs value) with
  | Some digits => Ok (b ++ render s (int_prefix value s) (kept_digits junk moves s (int_prefix value s) digits))
  | None => Thrown (report_unknown_type junk (type s) (if flag s CHAR_FLAG then !"char" else !"integer"))
  end.
Proof.
  intros Hw Hv. destruct (abs_value_ok w value ltac:(lia) Hv) as [Ha Hr].
  pose proof (dec_nat_len_bound w _ Hw Hr) as Hb. unfold write_int, numeral, int_prefix. rewrite Ha.
  pose proof (write_decimal_digits junk moves None (Z.abs value) s (sign_prefix value s) b ltac:(lia) Hb) as Hd.
  pose proof (write_decimal_digits junk moves (Some locale_sep) (Z.abs value) s (sign_prefix value s) b ltac:(lia) Hb) as Hg.
  rewrite grouped_none, rev_involutive in Hd. cbn zeta in Hd, Hg.
  rewrite (length_grouped_nat _ _ _ eq_refl) in Hg.
  rewrite count_digits_length, !write_radix_spec by lia || done. unfold radix_prefix.
  assert (Hnil : (if flag s HASH_FLAG then [] else []) = @nil ascii) by (by destruct (flag s HASH_FLAG)).
  generalize dependent (type s). intros t.
  destruct (decide (t ∈ [nul; "d"; "x"; "X"; "b"; "B"; "o"; "n"]%char)) as [Ht|Ht].
  - repeat (apply elem_of_cons in Ht as [-> | Ht]); [..|by apply elem_of_nil in Ht]; eval_tests; cbn [orb];
      rewrite ?Hnil, ?app_nil_r; try (destruct (flag s HASH_FLAG); by rewrite ?app_nil_r).
    + by rewrite Hd.
    + by rewrite Hd.
    + by rewrite Hg.
  - repeat (apply not_elem_of_cons in Ht as [? Ht]).
    by rewrite !bool_decide_eq_false_2.
Qed.
(** (C27) Writing an integer.  For every integer of 32 or 64 bits, signed or
    unsigned, and every format (radix, fill, width, alignment, sign, prefix,
    precision, thousands separator), [write_int] appends the padded numeral
    of the absolute value (the smallest integers included), and nothing of the
    unspecified content of the area it grew; with one exception, stated too: a
    left-aligned number that is filled up to its precision and padded to a
    larger width, when the growth for the padding moves the buffer.  Its digits
    are written to where the buffer was (to freed memory, when that was a
    block of the heap), and the places of the digits keep
    what the area held.  A type character it does not know is reported and
    nothing is written. *)
Theorem write_int_renders junk moves w locale_sep value s b :
  w = 32 \/ w = 64 -> - 2 ^ (w - 1) <= value < 2 ^ w ->
  write_int junk moves w locale_sep value s b =
  match numeral locale_sep (type s) (Z.abs value) with
  | Some digits =>
      Ok (b ++ render s (int_prefix value s)
                 (if digits_lost moves s (int_prefix value s) digits then repeat junk (length digits) else digits))
  | None => Thrown (report_unknown_type junk (type s) (if flag s CHAR_FLAG then !"char" else !"integer"))
  end.
Proof. apply write_int_spec. Qed.
Lemma write_int_renders_witness :
  write_int nul not_asked 32 !"," (-2147483648) (FormatSpec 16 "*"%char ALIGN_CENTER 0 (-1) "n"%char) !"n="
  = Ok !"n=*-2,147,483,648*"
  /\ render (FormatSpec 16 "*"%char ALIGN_CENTER 0 (-1) "n"%char) ["-"%char] !"2,147,483,648"
     = !"*-2,147,483,648*".
Proof.
  rewrite (write_int_renders nul not_asked 32 !"," (-2147483648)
    (FormatSpec 16 "*"%char ALIGN_CENTER 0 (-1) "n"%char) !"n=" (or_introl eq_refl)
    ltac:(split; [vm_compute; discriminate|vm_compute; reflexivity])).
  split; vm_compute; reflexivity.
Defined.

(** The exception: in the second buffer the digits are gone. *)
Example digits_left_behind :
  let s := FormatSpec 10 space ALIGN_LEFT 0 5 "d"%char in
  write_int "?"%char (fun _ _ _ => false) 32 [] 42 s !"n=" = Ok !"n=00042     "
  /\ write_int "?"%char (fun _ _ _ => true) 32 [] 42 s !"n=" = Ok !"n=000??     ".
Proof. split; vm_compute; reflexivity. Qed.

(** ** [operator<<] *)
Lemma write_unsigned_decimal_spec junk w n k b :
  w = 32 \/ w = 64 -> 0 <= n < 2 ^ w ->
  write_unsigned_decimal junk w n k b = (b ++ repeat junk k ++ dec_nat n, length b).
Proof.
  intros Hw Hn. pose proof (dec_nat_len_bound w n Hw Hn). unfold write_unsigned_decimal, grow_buffer.
  rewrite count_digits_length by done. f_equal. rewrite repeat_app, app_assoc.
  pose proof (format_decimal_spec None n (b ++ repeat junk k) (repeat junk (length (dec_nat n))) []
    (length b + k) (length (dec_nat n))) as Hf.
  rewrite grouped_none, rev_involutive, !app_nil_r in Hf.
  rewrite Hf; [by rewrite <- app_assoc|lia|done|apply repeat_length|].
  by rewrite length_app, !repeat_length.
Qed.
Lemma write_decimal_spec junk w value b :
  w = 32 \/ w = 64 -> - 2 ^ (w - 1) <= value < 2 ^ w ->
  write_decimal junk w value b = b ++ dec value.
Proof.
  intros Hw Hv. destruct (abs_value_ok w value ltac:(lia) Hv) as [Ha Hr].
  unfold abs_value in Ha. unfold write_decimal, dec.
  destruct (value <? 0) eqn:E; bool_to_prop; rewrite Ha, write_unsigned_decimal_spec by done.
  - simpl. rewrite insert_mid. do 2 f_equal. f_equal. lia.
  - simpl. do 2 f_equal. lia.
Qed.
Lemma write_str_spec junk s w c a b :
  write_str junk s w c a b =
  b ++ match a with
       | ALIGN_RIGHT => pad_text w c ALIGN_RIGHT [] s
       | ALIGN_CENTER => pad_text w c ALIGN_CENTER [] s
       | _ => pad_text w c ALIGN_LEFT [] s
       end.
Proof.
  unfold write_str, grow_buffer, pad_text. cbn [app length]. rewrite Nat.add_0_l.
  destruct (length s <? w)%nat eqn:Hw; [apply Nat.ltb_lt in Hw|apply Nat.ltb_ge in Hw].
  - set (m := (w - length s)%nat). assert (Hm : w = (length s + m)%nat) by lia.
    assert (Hleft : copy s (length b) (fill_n (length b + length s) m c (b ++ repeat junk w)) = b ++ s ++ repeat c m).
    { rewrite (fill_at (b ++ repeat junk (length s)) (repeat junk m) []);
        [|rewrite app_nil_r, Hm, repeat_app; by rewrite <- app_assoc|by rewrite length_app, repeat_length|by rewrite repeat_length].
      rewrite app_nil_r, <- app_assoc. by rewrite copy_mid by (by rewrite repeat_length). }
    destruct a; try done.
    + rewrite (fill_at b (repeat junk m) (repeat junk (length s)));
        [|rewrite Hm, Nat.add_comm, repeat_app; done|done|by rewrite repeat_length].
      rewrite (copy_at (b ++ repeat c m) (repeat junk (length s)) []);
        [by rewrite app_nil_r, <- app_assoc|by rewrite app_nil_r, <- app_assoc|by rewrite length_app, repeat_length|by rewrite repeat_length].
    + rewrite (fill_padding_area junk w (length s) c b m Hm).
      rewrite (copy_at (b ++ repeat c (m / 2)) (repeat junk (length s)) (repeat c (m - m / 2)));
        [by rewrite <- app_assoc|by rewrite <- app_assoc|by rewrite length_app, repeat_length|by rewrite repeat_length].
  - replace (w - length s)%nat with O by lia.
    rewrite (copy_at b (repeat junk (length s)) []); [|by rewrite app_nil_r|done|by rewrite repeat_length].
    by destruct a; simpl; rewrite ?app_nil_r.
Qed.
