(* ===== verification/FmtBuffer.v ===== *)
(** * The buffers of the bundled fmt library,
      [src/src/spdlog/fmt/bundled/format.h] and [format.cc]

    [Buffer<T>] is an array of [capacity_] elements of which the first
    [size_] are in use; what lies behind them is memory that may be written
    through pointers but that no growth preserves.  The growth itself is
    virtual: [MemoryBuffer] reallocates, [FixedBuffer] throws.  The classes
    are an interface, [Grow], with the law every client relies on; the
    operations of [Buffer] are written against it, and refine a list that
    only grows at its end. *)
From S2P Require Import Prelude Cxx Fmt FmtFacts.

(** [ptr_] with all of its [capacity_] elements; [size_] of them are used. *)
Record buffer := Buffer { ptr_ : bytes; size_ : nat }.
Definition capacity_ (b : buffer) : nat := length (ptr_ b).
(** The elements in use. *)
Definition content (b : buffer) : bytes := take (size_ b) (ptr_ b).
Definition buffer_wf (b : buffer) : Prop := (size_ b <= capacity_ b)%nat.

(** A virtual [grow]: when it returns, the elements in use are where they
    were, and there is room for the number asked for. *)
Class Grow := {
  grow : nat -> buffer -> exc buffer;
  grow_law n b b' : buffer_wf b -> grow n b = Ok b' ->
    content b' = content b /\ size_ b' = size_ b
    /\ (n <= capacity_ b')%nat /\ (capacity_ b <= capacity_ b')%nat
}.

(** ** Buffer *)
Section Buffer.
Context `{Grow}.

Definition set_size (n : nat) (b : buffer) : buffer := Buffer (ptr_ b) n.
(** A write through a pointer into [ptr_]. *)
Definition poke (p : nat) (s : bytes) (b : buffer) : buffer := Buffer (copy s p (ptr_ b)) (size_ b).
Definition peek_at (p : nat) (b : buffer) : ascii := nth p (ptr_ b) nul.

(** [if (cond) grow(n);] *)
Definition ensure (cond : bool) (n : nat) (b : buffer) : exc buffer :=
  if cond then grow n b else Ok b.
Definition resize (new_size : nat) (b : buffer) : exc buffer :=
  let! b := ensure (capacity_ b <? new_size)%nat new_size b in
  Ok (set_size new_size b).
Definition reserve (capacity : nat) (b : buffer) : exc buffer :=
  ensure (capacity_ b <? capacity)%nat capacity b.
Definition clear (b : buffer) : buffer := set_size 0 b.
Definition push_back (c : ascii) (b : buffer) : exc buffer :=
  let! b := ensure (size_ b =? capacity_ b)%nat (size_ b + 1) b in
  Ok (Buffer (<[size_ b := c]> (ptr_ b)) (size_ b + 1)).
Definition append (s : bytes) (b : buffer) : exc buffer :=
  let new_size := (size_ b + length s)%nat in
  let! b := ensure (capacity_ b <? new_size)%nat new_size b in
  Ok (Buffer (copy s (size_ b) (ptr_ b)) new_size).
(** [BasicWriter::grow_buffer(n)]: the pointer is to the new area. *)
Definition grow_area (n : nat) (b : buffer) : exc (buffer * nat) :=
  let size := size_ b in
  let! b := resize (size + n) b in Ok (b, size).
(** Whether the last of three requests moves the elements, the [growth] of
    [Fmt]: it does when there is no room for it, because [grow] allocates. *)
Definition area_moves (b : buffer) : growth := fun r n m =>
  match (let! b := reserve r b in grow_area n b) with
  | Ok (b, _) => (capacity_ b <? size_ b + m)%nat
  | Thrown _ => false
  end.
End Buffer.

(** ** MemoryBuffer *)
Definition INLINE_BUFFER_SIZE : nat := 500.
Definition memory_grow (junk : ascii) (size : nat) (b : buffer) : buffer :=
  let new_capacity := (capacity_ b + capacity_ b / 2)%nat in
  let new_capacity := if (new_capacity <? size)%nat then size else new_capacity in
  Buffer (take (size_ b) (ptr_ b) ++ repeat junk (new_capacity - size_ b)) (size_ b).
Definition new_memory_buffer (junk : ascii) (SIZE : nat) : buffer := Buffer (repeat junk SIZE) 0.

(** ** FixedBuffer *)
Definition fixed_grow (size : nat) (b : buffer) : exc buffer :=
  Thrown (runtime_error !"buffer overflow").
Definition new_fixed_buffer (array : bytes) : buffer := Buffer array 0.

(** ** Lemmas *)
Lemma content_length b : buffer_wf b -> length (content b) = size_ b.
Proof. unfold buffer_wf, content, capacity_. rewrite length_take. lia. Qed.

#[export] Program Instance MemoryBuffer (junk : ascii) : Grow := {
  grow n b := Ok (memory_grow junk n b)
}.
Next Obligation.
  intros junk n b b' Hwf [= <-]. unfold buffer_wf, capacity_, memory_grow, content in *. cbn [ptr_ size_].
  assert (Hl : length (take (size_ b) (ptr_ b)) = size_ b) by (rewrite length_take; lia).
  rewrite take_app_length'; [|done]. rewrite length_app, repeat_length, Hl. unfold capacity_.
  generalize (length (ptr_ b) / 2)%nat. intros half.
  destruct (Nat.ltb_spec (length (ptr_ b) + half) n); split_and!; done || lia.
Qed.
(** The same where the allocator has a limit ([std::bad_alloc]). *)
#[export] Program Instance LimitedBuffer (limit : nat) (junk : ascii) : Grow := {
  grow n b := if (limit <? n)%nat then Thrown (runtime_error !"std::bad_alloc") else Ok (memory_grow junk n b)
}.
Next Obligation.
  intros limit junk n b b' Hwf Hg. cbn beta in Hg. case_match; [done|]. by apply (@grow_law (MemoryBuffer junk)).
Qed.
#[export] Program Instance FixedBuffer : Grow := { grow := fixed_grow }.
Next Obligation. done. Qed.

(** A request for room: both ways of [resize], [reserve] and [append]. *)
Section Facts.
Context `{Grow}.

Lemma room_spec (c : bool) n b b' :
  buffer_wf b -> (c = false -> (n <= capacity_ b)%nat) ->
  ensure c n b = Ok b' ->
  content b' = content b /\ size_ b' = size_ b
  /\ (n <= capacity_ b')%nat /\ (capacity_ b <= capacity_ b')%nat.
Proof.
  intros Hwf Hc. unfold ensure. destruct c; [by apply grow_law|]. intros [= <-]. specialize (Hc eq_refl). auto.
Qed.
Lemma ltb_room n b : (capacity_ b <? n)%nat = false -> (n <= capacity_ b)%nat.
Proof. apply Nat.ltb_ge. Qed.

Lemma resize_spec n b b' :
  buffer_wf b -> (size_ b <= n)%nat -> resize n b = Ok b' ->
  buffer_wf b' /\ size_ b' = n /\ exists hole, content b' = content b ++ hole /\ length hole = (n - size_ b)%nat.
Proof.
  unfold resize. intros Hwf Hn Hr. destruct (ensure _ _ _) as [b1|] eqn:Hg; [|done].
  apply room_spec in Hg as (Hc & Hs & Hr1 & Hr2); [|done|apply ltb_room]. injection Hr as <-.
  unfold buffer_wf, set_size, capacity_, content in *. cbn [ptr_ size_]. split_and!; [done|done|].
  exists (take (n - size_ b) (drop (size_ b) (ptr_ b1))). split.
  - rewrite <- Hc, Hs. rewrite take_take_drop. f_equal. lia.
  - rewrite length_take, length_drop. lia.
Qed.
Lemma reserve_spec n b b' :
  buffer_wf b -> reserve n b = Ok b' ->
  buffer_wf b' /\ content b' = content b /\ size_ b' = size_ b /\ (n <= capacity_ b')%nat.
Proof.
  unfold reserve. intros Hwf Hg. apply room_spec in Hg as (Hc & Hs & Hr1 & Hr2); [|done|apply ltb_room].
  unfold buffer_wf in *. split_and!; [lia|done..].
Qed.
Lemma append_spec s b b' :
  buffer_wf b -> append s b = Ok b' -> buffer_wf b' /\ content b' = content b ++ s.
Proof.
  unfold append. intros Hwf Hr. destruct (ensure _ _ _) as [b1|] eqn:Hg; [|done].
  apply room_spec in Hg as (Hc & Hs & Hr1 & Hr2); [|done|apply ltb_room]. injection Hr as <-.
  unfold buffer_wf, capacity_, content in *. cbn [ptr_ size_].
  unfold copy at 1. rewrite length_inserts. split; [done|]. rewrite <- Hc, Hs.
  assert (Hl : length (take (size_ b) (ptr_ b1)) = size_ b) by (rewrite length_take; lia).
  rewrite (copy_at (take (size_ b) (ptr_ b1)) (take (length s) (drop (size_ b) (ptr_ b1)))
    (drop (length s) (drop (size_ b) (ptr_ b1))));
    [|by rewrite !take_drop|done|rewrite length_take, length_drop; lia].
  rewrite app_assoc, take_app_length'; [done|]. rewrite length_app. lia.
Qed.
Lemma push_back_append c b : buffer_wf b -> push_back c b = append [c] b.
Proof.
  unfold buffer_wf. intros Hwf. unfold push_back, append. cbn [length].
  replace (size_ b =? capacity_ b)%nat with (capacity_ b <? size_ b + 1)%nat.
  2: destruct (Nat.eqb_spec (size_ b) (capacity_ b)), (Nat.ltb_spec (capacity_ b) (size_ b + 1)); done || lia.
  destruct (ensure _ _ _) as [b1|] eqn:Hg; [|done].
  apply room_spec in Hg as (_ & Hs & _ & _); [|done|apply ltb_room]. cbn [exc_bind]. by rewrite Hs.
Qed.
End Facts.
