(* ===== verification/FmtMemory.v ===== *)
(** * The memory of MemoryBuffer, [src/src/spdlog/fmt/bundled/format.h]

    [FmtBuffer] takes a [MemoryBuffer] for an array that grows.  Here is the
    class as it is written: the first [SIZE] elements lie in the object
    itself, [ptr_] points to them or to a block of the allocator, a growth
    copies and frees, and moving an object takes its block over or copies its
    array.  Freeing a block that is not there or with another size, and
    reading or writing outside of an array, is undefined behaviour ([None]).
    The allocator may refuse a request ([std::bad_alloc]). *)
From S2P Require Import Prelude Cxx Fmt FmtFacts FmtBuffer.

(** [ptr_ == data_], or a block. *)
Inductive place := Inline | Block (b : nat).
Record mem := Mem { data_ : bytes; mb_ptr : place; mb_size : nat; mb_capacity : nat }.
Notation blocks := (gmap nat bytes).
Record heap := Heap { live : blocks; objects : gmap nat mem }.

Section Memory.
Variable SIZE : nat.
Variable junk : ascii.
Variable can_allocate : nat -> bool.

(** ** Pointers *)
Definition storage (bl : blocks) (m : mem) : option bytes :=
  match mb_ptr m with Inline => Some (data_ m) | Block b => bl !! b end.
Definition set_storage (bl : blocks) (m : mem) (s : bytes) : blocks * mem :=
  match mb_ptr m with
  | Inline => (bl, Mem s Inline (mb_size m) (mb_capacity m))
  | Block b => (<[b := s]> bl, m)
  end.
Definition with_size (n : nat) (m : mem) : mem := Mem (data_ m) (mb_ptr m) n (mb_capacity m).
(** Copying the first [n] elements, and writing from [p] on. *)
Definition read_front (bl : blocks) (m : mem) (n : nat) : option bytes :=
  s ← storage bl m; if (n <=? length s)%nat then Some (take n s) else None.
Definition write_at (bl : blocks) (m : mem) (p : nat) (t : bytes) : option (blocks * mem) :=
  s ← storage bl m;
  if (p + length t <=? length s)%nat then Some (set_storage bl m (copy t p s)) else None.

(** ** The class *)

(** [if (ptr_ != data_) Allocator::deallocate(ptr_, capacity_)] *)
Definition deallocate (bl : blocks) (m : mem) : option blocks :=
  match mb_ptr m with
  | Inline => Some bl
  | Block b => s ← bl !! b; if (length s =? mb_capacity m)%nat then Some (delete b bl) else None
  end.
(** The memory, the object, and whether the allocator agreed. *)
Definition grow_mem (size : nat) (bl : blocks) (m : mem) : option (blocks * mem * bool) :=
  let new_capacity := (mb_capacity m + mb_capacity m / 2)%nat in
  let new_capacity := if (new_capacity <? size)%nat then size else new_capacity in
  if can_allocate new_capacity then
    let new_ptr := fresh (dom bl) in
    front ← read_front bl m (mb_size m);
    if (length front <=? new_capacity)%nat then
      let bl' := <[new_ptr := front ++ repeat junk (new_capacity - length front)]> bl in
      bl' ← deallocate bl' m;
      Some (bl', Mem (data_ m) (Block new_ptr) (mb_size m) new_capacity, true)
    else None
  else Some (bl, m, false).
Definition ensure_mem (n : nat) (bl : blocks) (m : mem) : option (blocks * mem * bool) :=
  if (mb_capacity m <? n)%nat then grow_mem n bl m else Some (bl, m, true).
(** [Buffer::append], [resize] and [clear] on this class. *)
Definition append_mem (t : bytes) (bl : blocks) (m : mem) : option (blocks * mem * bool) :=
  let new_size := (mb_size m + length t)%nat in
  '(bl, m, ok) ← ensure_mem new_size bl m;
  if (ok : bool) then
    '(bl, m) ← write_at bl m (mb_size m) t; Some (bl, with_size new_size m, true)
  else Some (bl, m, false).
Definition resize_mem (n : nat) (bl : blocks) (m : mem) : option (blocks * mem * bool) :=
  '(bl, m, ok) ← ensure_mem n bl m; Some (bl, if (ok : bool) then with_size n m else m, ok).
Definition clear_mem (bl : blocks) (m : mem) : option (blocks * mem * bool) := Some (bl, with_size 0 m, true).
(** The constructor; the array holds what the memory held. *)
Definition new_mem : mem := Mem (repeat junk SIZE) Inline 0 SIZE.
(** [move(other)]: this object and the other one behind it. *)
Definition move (m other : mem) : option (mem * mem) :=
  match mb_ptr other with
  | Inline =>
      if (mb_size other <=? length (data_ other))%nat && (mb_size other <=? length (data_ m))%nat
      then Some (Mem (copy (take (mb_size other) (data_ other)) 0 (data_ m)) Inline
                     (mb_size other) (mb_capacity other), other)
      else None
  | Block b =>
      Some (Mem (data_ m) (Block b) (mb_size other) (mb_capacity other),
            Mem (data_ other) Inline (mb_size other) (mb_capacity other))
  end.

(** ** A program that uses the class *)
Inductive op :=
| New (o : nat) | Delete (o : nat)
| MoveNew (o other : nat) | MoveAssign (o other : nat)
| Append (o : nat) (t : bytes) | Resize (o n : nat) | Clear (o : nat).

(** An operation on one object. *)
Definition on (o : nat) (f : blocks -> mem -> option (blocks * mem * bool)) (h : heap) : option (heap * bool) :=
  m ← objects h !! o;
  '(bl, m, ok) ← f (live h) m; Some (Heap bl (<[o := m]> (objects h)), ok).
Definition move_into (o : nat) (m : mem) (other : nat) (h : heap) : option (heap * bool) :=
  m2 ← objects h !! other;
  '(m, m2) ← move m m2;
  Some (Heap (live h) (<[o := m]> (<[other := m2]> (objects h))), true).
(** The heap behind the operation, [false] when it threw [bad_alloc]. *)
Definition exec (x : op) (h : heap) : option (heap * bool) :=
  match x with
  | New o =>
      match objects h !! o with None => Some (Heap (live h) (<[o := new_mem]> (objects h)), true) | Some _ => None end
  | Delete o =>
      m ← objects h !! o; bl ← deallocate (live h) m; Some (Heap bl (delete o (objects h)), true)
  | MoveNew o other =>
      match objects h !! o with None => move_into o new_mem other h | Some _ => None end
  | MoveAssign o other =>
      if decide (o = other) then None   (* [assert(this != &other)] *)
      else
        m ← objects h !! o; bl ← deallocate (live h) m; move_into o m other (Heap bl (objects h))
  | Append o t => on o (append_mem t) h
  | Resize o n => on o (resize_mem n) h
  | Clear o => on o clear_mem h
  end.
End Memory.

Arguments move : simpl never.

(** ** One object refines the buffer of [FmtBuffer] *)
Section Refinement.
Variable SIZE : nat.
Variable junk : ascii.
Variable can_allocate : nat -> bool.
Notation grow_mem := (grow_mem junk can_allocate).
Notation ensure_mem := (ensure_mem junk can_allocate).
Notation append_mem := (append_mem junk can_allocate).
Notation resize_mem := (resize_mem junk can_allocate).

Record rep (bl : blocks) (m : mem) (b : buffer) : Prop := {
  rep_storage : storage bl m = Some (ptr_ b);
  rep_capacity : mb_capacity m = capacity_ b;
  rep_size : mb_size m = size_ b;
  rep_wf : buffer_wf b;
  rep_data : length (data_ m) = SIZE
}.
(** The blocks that are not this object's. *)
Definition others (bl : blocks) (m : mem) : blocks :=
  match mb_ptr m with Inline => bl | Block b => delete b bl end.

Lemma deallocate_rep bl m b : rep bl m b -> deallocate bl m = Some (others bl m).
Proof.
  intros [Hs Hc _ _ _]. unfold deallocate, others, storage in *. destruct (mb_ptr m) as [|k]; [done|].
  rewrite Hs. simpl. by rewrite Hc, Nat.eqb_refl.
Qed.
Lemma set_storage_rep bl m b s n :
  rep bl m b -> length s = capacity_ b -> (n <= length s)%nat ->
  let '(bl', m') := set_storage bl m s in
  others bl' m' = others bl m /\ rep bl' (with_size n m') (Buffer s n).
Proof.
  intros [Hs Hc Hn Hw Hd] Hl Hle. unfold set_storage, others, storage in *. destruct (mb_ptr m) as [|k] eqn:Hp.
  - split; [done|]. simplify_eq. split; unfold storage, with_size; simpl; [done|by rewrite Hc| |done|].
    + done.
    + rewrite Hl. unfold capacity_. congruence.
  - rewrite Hp. split; [by rewrite delete_insert_eq|].
    split; unfold storage, with_size; simpl; [rewrite Hp; by rewrite lookup_insert_eq|by rewrite Hc|done|done|done].
Qed.
Lemma grow_refines n bl m b :
  rep bl m b ->
  exists bl' m' ok, grow_mem n bl m = Some (bl', m', ok) /\ others bl' m' = others bl m
    /\ rep bl' m' (if (ok : bool) then memory_grow junk n b else b).
Proof.
  intros Hr. pose proof (deallocate_rep bl m b Hr) as Hdel. destruct Hr as [Hs Hc Hn Hw Hd].
  unfold FmtMemory.grow_mem. rewrite Hc. set (cap := if (_ <? n)%nat then _ else _).
  destruct (can_allocate cap); [|by eexists bl, m, false].
  assert (Hle : (size_ b <= cap)%nat).
  { unfold buffer_wf in Hw. unfold cap. destruct (Nat.ltb_spec (capacity_ b + capacity_ b / 2) n); lia. }
  unfold read_front. rewrite Hs. simpl. rewrite Hn. pose proof Hw as Hw'. unfold buffer_wf, capacity_ in Hw'.
  rewrite (proj2 (Nat.leb_le _ _)) by lia. simpl.
  assert (Hl : length (take (size_ b) (ptr_ b)) = size_ b) by (rewrite length_take; lia).
  rewrite Hl, (proj2 (Nat.leb_le _ _)) by lia. set (k := fresh (dom bl)). set (s := take _ _ ++ _).
  assert (Hk : bl !! k = None) by (apply not_elem_of_dom, is_fresh).
  assert (Hdel' : deallocate (<[k := s]> bl) m = Some (<[k := s]> (others bl m)) /\ others bl m !! k = None).
  { unfold deallocate, others, storage in *. destruct (mb_ptr m) as [|j]; [done|].
    assert (k <> j) by (intros ->; congruence). rewrite lookup_insert_ne, Hs by done. simpl.
    rewrite Hc. unfold capacity_. rewrite Nat.eqb_refl.
    by rewrite delete_insert_ne, lookup_delete_ne by done. }
  destruct Hdel' as [-> Hnone]. simpl. eexists _, _, true. split; [reflexivity|]. unfold others at 1. simpl.
  rewrite delete_insert_id by done. split; [done|].
  split; unfold storage; cbn [mb_ptr mb_capacity mb_size data_]; [| |done| |done].
  - rewrite lookup_insert_eq. by unfold s, memory_grow, cap.
  - unfold memory_grow. fold cap. unfold capacity_. cbn [ptr_]. rewrite length_app, Hl, repeat_length. lia.
  - destruct (@grow_law (MemoryBuffer junk) n b (memory_grow junk n b) Hw eq_refl) as (_ & Hs' & _ & Hc').
    unfold buffer_wf. rewrite Hs'. unfold buffer_wf, capacity_ in *. lia.
Qed.
Lemma ensure_refines n bl m b :
  rep bl m b ->
  exists bl' m' ok, ensure_mem n bl m = Some (bl', m', ok) /\ others bl' m' = others bl m
    /\ if (ok : bool)
       then exists b', ensure (H := MemoryBuffer junk) (capacity_ b <? n)%nat n b = Ok b' /\ rep bl' m' b'
       else rep bl' m' b.
Proof.
  intros Hr. unfold FmtMemory.ensure_mem, ensure. rewrite (rep_capacity _ _ _ Hr).
  destruct (capacity_ b <? n)%nat.
  - destruct (grow_refines n bl m b Hr) as (bl' & m' & ok & -> & Ho & Hr'). eexists _, _, _. split_and!; [done..|].
    destruct ok; [|done]. by eexists.
  - eexists bl, m, true. split_and!; [done..|]. by exists b.
Qed.

(** The object holds the text [c]. *)
Definition text (bl : blocks) (m : mem) (c : bytes) : Prop := exists b, rep bl m b /\ content b = c.
(** An operation on one object ends: with the text changed, or, when the
    allocator refused, unchanged; no other block is touched. *)
Definition acts (P : bytes -> Prop) (c : bytes) (bl : blocks) (m : mem) (r : option (blocks * mem * bool)) : Prop :=
  exists bl' m' ok, r = Some (bl', m', ok) /\ others bl' m' = others bl m
    /\ if (ok : bool) then exists c', P c' /\ text bl' m' c' else text bl' m' c.

Lemma append_acts t bl m c : text bl m c -> acts (fun c' => c' = c ++ t) c bl m (append_mem t bl m).
Proof.
  intros (b & Hr & <-). unfold FmtMemory.append_mem. rewrite (rep_size _ _ _ Hr).
  destruct (ensure_refines (size_ b + length t) bl m b Hr) as (bl1 & m1 & ok & E & Ho & Hr1). rewrite E. cbn [mbind option_bind].
  destruct ok; [|by eexists bl1, m1, false; split_and!; [..|exists b]].
  destruct Hr1 as (b1 & He & Hr1). pose proof (rep_wf _ _ _ Hr) as Hwf.
  pose proof He as Hroom. apply room_spec in Hroom as (Hc1 & Hs1 & Hr2 & _); [|done|apply ltb_room].
  assert (Ha : append (H := MemoryBuffer junk) t b = Ok (Buffer (copy t (size_ b) (ptr_ b1)) (size_ b + length t))).
  { unfold append. cbv zeta. rewrite He. cbn [exc_bind]. by rewrite Hs1. }
  destruct (append_spec t b _ Hwf Ha) as [_ Hc].
  unfold write_at. rewrite (rep_storage _ _ _ Hr1), (rep_size _ _ _ Hr1), Hs1. simpl.
  rewrite (proj2 (Nat.leb_le _ _)) by done.
  pose proof (set_storage_rep bl1 m1 b1 (copy t (size_ b) (ptr_ b1)) (size_ b + length t) Hr1) as Hset.
  assert (Hl : length (copy t (size_ b) (ptr_ b1)) = capacity_ b1) by apply length_inserts.
  specialize (Hset Hl ltac:(by rewrite Hl)). destruct (set_storage _ _ _) as [bl2 m2]. destruct Hset as [Ho2 Hr3].
  eexists _, _, true. split; [reflexivity|]. split; [by rewrite <- Ho, <- Ho2|].
  eexists. split; [reflexivity|]. eexists. split; [exact Hr3|]. exact Hc.
Qed.
Lemma with_size_rep n bl m b :
  rep bl m b -> (n <= capacity_ b)%nat -> others bl (with_size n m) = others bl m /\ rep bl (with_size n m) (set_size n b).
Proof. intros [Hs Hc Hn Hw Hd] Hle. by split; [|split]. Qed.
Lemma resize_acts n bl m c :
  text bl m c ->
  acts (fun c' => exists hole, c' = take n c ++ hole /\ length hole = (n - length c)%nat) c bl m (resize_mem n bl m).
Proof.
  intros (b & Hr & <-). pose proof (rep_wf _ _ _ Hr) as Hwf. rewrite (content_length b Hwf). unfold FmtMemory.resize_mem.
  destruct (ensure_refines n bl m b Hr) as (bl1 & m1 & ok & E & Ho & Hr1). rewrite E. cbn [mbind option_bind].
  destruct ok; [|by eexists bl1, m1, false; split_and!; [..|exists b]].
  destruct Hr1 as (b1 & He & Hr1).
  apply room_spec in He as (Hc1 & Hs1 & Hr2 & _); [|done|apply ltb_room].
  destruct (with_size_rep n bl1 m1 b1 Hr1 Hr2) as [Ho2 Hr3].
  eexists _, _, true. split; [reflexivity|]. split; [by rewrite Ho2|].
  exists (take n (ptr_ b1)). split; [|by exists (set_size n b1)]. rewrite <- Hc1. unfold content, capacity_ in *. rewrite Hs1.
  exists (drop (size_ b) (take n (ptr_ b1))). split; [|rewrite length_drop, length_take; lia].
  rewrite take_take. destruct (Nat.le_ge_cases n (size_ b)).
  - rewrite Nat.min_l by done. by rewrite drop_ge, app_nil_r by (rewrite length_take; lia).
  - rewrite Nat.min_r by done. rewrite <- (take_drop (size_ b) (take n (ptr_ b1))) at 1. by rewrite take_take, Nat.min_l.
Qed.
Lemma clear_acts bl m c : text bl m c -> acts (fun c' => c' = []) c bl m (clear_mem bl m).
Proof.
  intros (b & Hr & <-). destruct (with_size_rep 0 bl m b Hr ltac:(lia)) as [Ho Hr'].
  eexists _, _, true. split; [reflexivity|]. split; [done|]. exists []. split; [done|]. by exists (set_size 0 b).
Qed.
(** Moving from an object with a text; the block goes over. *)
Lemma move_text bl m m2 c :
  length (data_ m) = SIZE -> text bl m2 c ->
  exists m' m2', move m m2 = Some (m', m2') /\ text bl m' c /\ mb_ptr m' = mb_ptr m2
    /\ mb_ptr m2' = Inline /\ length (data_ m2') = SIZE.
Proof.
  intros Hl (b & [Hs Hc Hn Hw Hd] & <-). unfold move, storage, buffer_wf in *. destruct (mb_ptr m2) as [|k] eqn:Hp2.
  - simplify_eq/=. rewrite Hn, Hd, Hl.
    assert (Hcap : capacity_ b = SIZE) by (unfold capacity_; congruence). rewrite Hcap in Hw.
    rewrite (proj2 (Nat.leb_le _ _)) by done. simpl. eexists _, m2. split; [reflexivity|]. split_and!; try done.
    set (l := take (size_ b) (data_ m2)). assert (Hll : length l = size_ b) by (unfold l; rewrite length_take; lia).
    destruct (split_length (data_ m) (size_ b) (SIZE - size_ b)) as (l1 & l2 & Hm & Hl1 & Hl2); [lia|].
    assert (Hcopy : copy l 0 (data_ m) = l ++ l2).
    { rewrite Hm. apply (copy_mid [] l1 l2 l). by rewrite Hll. }
    exists (Buffer (copy l 0 (data_ m)) (size_ b)). rewrite Hcopy. split.
    + split; unfold storage, buffer_wf, capacity_; simpl; rewrite ?length_app; try done; lia.
    + unfold content. simpl. rewrite take_app_length' by done. unfold l. congruence.
  - eexists _, _. split; [reflexivity|]. split_and!; try done. exists b. split; [|done]. by split.
Qed.
End Refinement.

(** ** The contract: objects with texts *)

(** What a client may count on: an object holds a text, or nothing is known of
    it since it was moved from. *)
Notation texts := (gmap nat (option bytes)).
Definition holds_text (A : texts) (o : nat) (c : bytes) : Prop := A !! o = Some (Some c).
(** The operations that are allowed: one that was moved from may be assigned
    to or destroyed. *)
Definition legal (A : texts) (x : op) : Prop :=
  match x with
  | New o => A !! o = None
  | Delete o => is_Some (A !! o)
  | MoveNew o other => A !! o = None /\ exists c, holds_text A other c
  | MoveAssign o other => o <> other /\ is_Some (A !! o) /\ exists c, holds_text A other c
  | Append o _ | Resize o _ | Clear o => exists c, holds_text A o c
  end.
(** What a successful operation does. *)
Inductive post (A : texts) : op -> texts -> Prop :=
| post_new o : post A (New o) (<[o := Some []]> A)
| post_delete o : post A (Delete o) (delete o A)
| post_move_new o other c : holds_text A other c ->
    post A (MoveNew o other) (<[o := Some c]> (<[other := None]> A))
| post_move_assign o other c : holds_text A other c ->
    post A (MoveAssign o other) (<[o := Some c]> (<[other := None]> A))
| post_append o c t : holds_text A o c -> post A (Append o t) (<[o := Some (c ++ t)]> A)
| post_resize o c n hole : holds_text A o c -> length hole = (n - length c)%nat ->
    post A (Resize o n) (<[o := Some (take n c ++ hole)]> A)
| post_clear o c : holds_text A o c -> post A (Clear o) (<[o := Some []]> A).

Section Safety.
Variable SIZE : nat.
Variable junk : ascii.
Variable can_allocate : nat -> bool.
Notation exec := (exec SIZE junk can_allocate).
Notation text := (text SIZE).

Definition object_ok (bl : blocks) (m : mem) (c : option bytes) : Prop :=
  match c with
  | Some c => text bl m c
  | None => mb_ptr m = Inline /\ length (data_ m) = SIZE
  end.
(** Every block has exactly one owner. *)
Record owned (A : texts) (bl : blocks) (ms : gmap nat mem) : Prop := {
  objects_ok o m : ms !! o = Some m -> exists c, A !! o = Some c /\ object_ok bl m c;
  objects_there o c : A !! o = Some c -> is_Some (ms !! o);
  one_owner o1 o2 m1 m2 k : ms !! o1 = Some m1 -> ms !! o2 = Some m2 ->
    mb_ptr m1 = Block k -> mb_ptr m2 = Block k -> o1 = o2;
  no_leak k : is_Some (bl !! k) -> exists o m, ms !! o = Some m /\ mb_ptr m = Block k
}.

Lemma others_lookup bl m k : mb_ptr m <> Block k -> others bl m !! k = bl !! k.
Proof.
  unfold others. destruct (mb_ptr m) as [|j]; [done|]. intros Hk. apply lookup_delete_ne. congruence.
Qed.
Lemma others_own bl m k : mb_ptr m = Block k -> others bl m !! k = None.
Proof. unfold others. intros ->. apply lookup_delete_eq. Qed.
(** An object that is not touched keeps its text. *)
Lemma text_frame bl bl' m c :
  (forall k, mb_ptr m = Block k -> bl' !! k = bl !! k) -> object_ok bl m c -> object_ok bl' m c.
Proof.
  intros Hk. destruct c as [c|]; [|done]. intros (b & [Hs Hc Hn Hw Hd] & He). exists b. split; [|done].
  split; try done. unfold storage in *. destruct (mb_ptr m) as [|k]; [done|]. by rewrite Hk.
Qed.
Lemma block_there bl m c k : object_ok bl m c -> mb_ptr m = Block k -> is_Some (bl !! k).
Proof.
  destruct c as [c|]; simpl; [|intros [-> _]; done]. intros (b & [Hs _ _ _ _] & _) Hp.
  unfold storage in Hs. rewrite Hp in Hs. by exists (ptr_ b).
Qed.

(** One object changes, with its block. *)
Lemma owned_update A bl ms o m bl' m' c :
  owned A bl ms -> ms !! o = Some m -> others bl' m' = others bl m -> object_ok bl' m' c ->
  owned (<[o := c]> A) bl' (<[o := m']> ms).
Proof.
  intros [Hok Hth Hone Hleak] Ho Hoth Hc.
  assert (Hsame : forall o2 m2 k, o2 <> o -> ms !! o2 = Some m2 -> mb_ptr m2 = Block k ->
    bl' !! k = bl !! k /\ mb_ptr m' <> Block k).
  { intros o2 m2 k Hne H2 Hp. assert (Hm : mb_ptr m <> Block k) by (intros Hp'; by apply Hne, (Hone o2 o m2 m k)).
    destruct (Hok o2 m2 H2) as (c2 & _ & Hc2). pose proof (block_there _ _ _ _ Hc2 Hp) as [s Hs].
    pose proof (others_lookup bl m k Hm) as Hl. rewrite <- Hoth in Hl.
    assert (Hm' : mb_ptr m' <> Block k) by (intros Hp'; rewrite (others_own _ _ _ Hp') in Hl; congruence).
    by rewrite others_lookup in Hl. }
  split.
  - intros o2 m2. rewrite !lookup_insert. case_decide as Hd; [intros [= <-]; by exists c|]. intros H2.
    destruct (Hok o2 m2 H2) as (c2 & HA & Hc2). exists c2. split; [done|]. eapply text_frame; [|done].
    intros k Hk. by apply (Hsame o2 m2).
  - intros o2 c2. rewrite !lookup_insert. case_decide; [by eexists|apply Hth].
  - intros o1 o2 m1 m2 k. rewrite !lookup_insert. repeat case_decide; try congruence; intros H1 H2 Hp1 Hp2; simplify_eq.
    + by destruct (Hsame o2 m2 k).
    + by destruct (Hsame o1 m1 k).
    + by apply (Hone o1 o2 m1 m2 k).
  - intros k Hk. destruct (mb_ptr m') as [|j] eqn:Hp'.
    2: destruct (decide (j = k)) as [->|Hj]; [exists o, m'; by rewrite lookup_insert_eq|].
    all: assert (Hm' : mb_ptr m' <> Block k) by (rewrite Hp'; congruence);
      rewrite <- (others_lookup bl' m' k Hm'), Hoth in Hk;
      assert (Hm : mb_ptr m <> Block k) by (intros Hp; rewrite (others_own _ _ _ Hp) in Hk; by destruct Hk);
      rewrite (others_lookup bl m k Hm) in Hk; destruct (Hleak k Hk) as (o2 & m2 & H2 & Hp2);
      exists o2, m2; rewrite lookup_insert_ne by (intros ->; congruence); done.
Qed.
(** A new object without a block. *)
Lemma owned_add A bl ms o m c :
  owned A bl ms -> ms !! o = None -> mb_ptr m = Inline -> object_ok bl m c ->
  owned (<[o := c]> A) bl (<[o := m]> ms).
Proof.
  intros [Hok Hth Hone Hleak] Ho Hp Hc. split.
  - intros o2 m2. rewrite !lookup_insert. case_decide; [intros [= <-]; by exists c|apply Hok].
  - intros o2 c2. rewrite !lookup_insert. case_decide; [by eexists|apply Hth].
  - intros o1 o2 m1 m2 k. rewrite !lookup_insert. repeat case_decide; try congruence. apply Hone.
  - intros k Hk. destruct (Hleak k Hk) as (o2 & m2 & H2 & Hp2). exists o2, m2.
    by rewrite lookup_insert_ne by (intros ->; congruence).
Qed.
(** An object without a block ends. *)
Lemma owned_remove A bl ms o m :
  owned A bl ms -> ms !! o = Some m -> mb_ptr m = Inline -> owned (delete o A) bl (delete o ms).
Proof.
  intros [Hok Hth Hone Hleak] Ho Hp. split.
  - intros o2 m2. rewrite !lookup_delete. case_decide; [done|apply Hok].
  - intros o2 c2. rewrite !lookup_delete. case_decide; [done|apply Hth].
  - intros o1 o2 m1 m2 k. rewrite !lookup_delete. repeat case_decide; try congruence. apply Hone.
  - intros k Hk. destruct (Hleak k Hk) as (o2 & m2 & H2 & Hp2). exists o2, m2.
    by rewrite lookup_delete_ne by (intros ->; congruence).
Qed.
(** The block of one object goes over to another that has none. *)
Lemma owned_move A bl ms o other m0 m2 m' m2' c :
  owned A bl ms -> o <> other -> ms !! o = Some m0 -> mb_ptr m0 = Inline -> ms !! other = Some m2 ->
  text bl m' c -> mb_ptr m' = mb_ptr m2 -> mb_ptr m2' = Inline -> length (data_ m2') = SIZE ->
  owned (<[o := Some c]> (<[other := None]> A)) bl (<[o := m']> (<[other := m2']> ms)).
Proof.
  intros [Hok Hth Hone Hleak] Hne Ho Hp0 H2 Hc Hp' Hp2' Hl2'. split.
  - intros o1 m1. rewrite !lookup_insert. repeat case_decide; [intros [= <-]; by exists (Some c)| |apply Hok].
    intros [= <-]. by exists None.
  - intros o1 c1. rewrite !lookup_insert. repeat case_decide; [by eexists..|apply Hth].
  - intros o1 o2 m1 m3 k. rewrite !lookup_insert. repeat case_decide; try congruence; intros Ha Hb Hp1 Hp3; simplify_eq;
      try congruence; rewrite ?Hp' in *.
    + exfalso. destruct (Hone other o2 m2 m3 k); congruence.
    + exfalso. destruct (Hone other o1 m2 m1 k); congruence.
    + by apply (Hone o1 o2 m1 m3 k).
  - intros k Hk. destruct (Hleak k Hk) as (o1 & m1 & H1 & Hp1). destruct (decide (o1 = other)) as [->|Ho1].
    + exists o, m'. rewrite lookup_insert_eq. split; [done|]. congruence.
    + exists o1, m1. rewrite !lookup_insert_ne by (congruence || (intros ->; congruence)). done.
Qed.

Definition released (m : mem) : mem := Mem (data_ m) Inline (mb_size m) (mb_capacity m).
Lemma release bl m c : object_ok bl m c -> deallocate bl m = Some (others bl m) /\ length (data_ m) = SIZE.
Proof.
  destruct c as [c|]; simpl.
  - intros (b & Hr & _). split; [by eapply deallocate_rep|]. by apply (rep_data _ _ _ _ Hr).
  - intros [Hp Hl]. unfold deallocate, others. by rewrite Hp.
Qed.
Lemma owned_release A bl ms o m c :
  owned A bl ms -> ms !! o = Some m -> A !! o = Some c -> object_ok bl m c ->
  owned (<[o := None]> A) (others bl m) (<[o := released m]> ms).
Proof.
  intros Hinv Ho HA Hc. destruct (release bl m c Hc) as [_ Hl].
  by apply (owned_update A bl ms o m (others bl m) (released m) None Hinv Ho).
Qed.

Definition good (A : texts) (h : heap) : Prop := owned A (live h) (objects h).
Definition step_ok (A : texts) (x : op) (h : heap) : Prop :=
  exists h' ok, exec x h = Some (h', ok)
    /\ if (ok : bool) then exists A', post A x A' /\ good A' h' else good A h'.

Lemma live_object A h o c : good A h -> A !! o = Some c -> exists m, objects h !! o = Some m /\ object_ok (live h) m c.
Proof.
  intros Hg HA. destruct (objects_there _ _ _ Hg o c HA) as [m Hm]. exists m. split; [done|].
  destruct (objects_ok _ _ _ Hg o m Hm) as (c' & HA' & Hc). by simplify_eq.
Qed.
Lemma no_object A h o : good A h -> A !! o = None -> objects h !! o = None.
Proof.
  intros Hg HA. destruct (objects h !! o) as [m|] eqn:Hm; [|done].
  destruct (objects_ok _ _ _ Hg o m Hm) as (c & HA' & _). congruence.
Qed.
Lemma on_ok A h o c x f (P : bytes -> Prop) :
  good A h -> holds_text A o c -> exec x h = on o f h ->
  (forall m, text (live h) m c -> acts SIZE P c (live h) m (f (live h) m)) ->
  (forall c', P c' -> post A x (<[o := Some c']> A)) -> step_ok A x h.
Proof.
  intros Hg HA Hx Hf Hpost. destruct (live_object A h o (Some c) Hg HA) as (m & Hm & Hc).
  destruct (Hf m Hc) as (bl' & m' & ok & E & Ho & Hr). unfold step_ok. rewrite Hx. unfold on. rewrite Hm. cbn [mbind option_bind].
  rewrite E. cbn [mbind option_bind]. eexists _, ok. split; [reflexivity|]. destruct ok.
  - destruct Hr as (c' & HP & Ht). exists (<[o := Some c']> A). split; [by apply Hpost|].
    by apply (owned_update A (live h) (objects h) o m bl' m' (Some c')).
  - rewrite <- (insert_id A o (Some c)) by done.
    by apply (owned_update A (live h) (objects h) o m bl' m' (Some c)).
Qed.
Lemma move_new_ok A h o other : good A h -> legal A (MoveNew o other) -> step_ok A (MoveNew o other) h.
Proof.
  intros Hg [HA (c & Hother)]. destruct (live_object A h other (Some c) Hg Hother) as (m2 & Hm2 & Hc2).
  destruct (move_text SIZE (live h) (new_mem SIZE junk) m2 c) as (m' & m2' & Hmv & Ht & Hp & Hp2 & Hl2); [apply repeat_length|done|].
  unfold step_ok. simpl. rewrite (no_object A h o Hg HA). unfold move_into. rewrite Hm2. cbn [mbind option_bind]. rewrite Hmv.
  cbn [mbind option_bind]. eexists _, true. split; [reflexivity|]. eexists. split; [by constructor|].
  assert (o <> other) by (intros ->; unfold holds_text in Hother; congruence).
  pose proof (owned_add A _ _ o (new_mem SIZE junk) None Hg (no_object A h o Hg HA) eq_refl
    (conj eq_refl (repeat_length _ _))) as Hadd.
  pose proof (owned_move _ _ _ o other (new_mem SIZE junk) m2 m' m2' c Hadd ltac:(done) (lookup_insert_eq _ _ _) eq_refl
    ltac:(by rewrite lookup_insert_ne) Ht Hp Hp2 Hl2) as Hmove.
  rewrite !(insert_insert_ne _ other o) in Hmove by done. by rewrite !insert_insert_eq in Hmove.
Qed.
Lemma move_assign_ok A h o other : good A h -> legal A (MoveAssign o other) -> step_ok A (MoveAssign o other) h.
Proof.
  intros Hg (Hne & [c0 HA] & (c & Hother)). destruct (live_object A h o c0 Hg HA) as (m & Hm & Hc).
  destruct (live_object A h other (Some c) Hg Hother) as (m2 & Hm2 & Hc2).
  destruct (release _ _ _ Hc) as [Hd Hl]. pose proof (owned_release A _ _ o m c0 Hg Hm HA Hc) as Hr.
  assert (Hc2' : object_ok (others (live h) m) m2 (Some c)).
  { destruct (objects_ok _ _ _ Hr other m2 ltac:(by rewrite lookup_insert_ne)) as (c' & HA' & Hc').
    rewrite lookup_insert_ne in HA' by done. unfold holds_text in Hother. by simplify_eq. }
  destruct (move_text SIZE (others (live h) m) m m2 c) as (m' & m2' & Hmv & Ht & Hp & Hp2 & Hl2); [done|done|].
  unfold step_ok. simpl. rewrite decide_False by done. rewrite Hm. cbn [mbind option_bind]. rewrite Hd. cbn [mbind option_bind].
  unfold move_into. cbn [objects live]. rewrite Hm2. cbn [mbind option_bind]. rewrite Hmv. cbn [mbind option_bind].
  eexists _, true. split; [reflexivity|]. eexists. split; [by constructor|].
  pose proof (owned_move _ _ _ o other (released m) m2 m' m2' c Hr Hne (lookup_insert_eq _ _ _) eq_refl
    ltac:(by rewrite lookup_insert_ne) Ht Hp Hp2 Hl2) as Hmove.
  rewrite !(insert_insert_ne _ other o) in Hmove by done. by rewrite !insert_insert_eq in Hmove.
Qed.
Lemma exec_ok A x h : good A h -> legal A x -> step_ok A x h.
Proof.
  intros Hg. destruct x as [o|o|o other|o other|o t|o n|o]; cbn [legal].
  - intros HA. unfold step_ok. simpl. rewrite (no_object A h o Hg HA). eexists _, true. split; [reflexivity|].
    eexists. split; [constructor|]. apply owned_add; [done|by eapply no_object|done|].
    exists (Buffer (repeat junk SIZE) 0). split; [|done]. split; unfold storage, capacity_, buffer_wf; simpl; rewrite ?repeat_length; done || lia.
  - intros [c HA]. destruct (live_object A h o c Hg HA) as (m & Hm & Hc). destruct (release _ _ _ Hc) as [Hd _].
    unfold step_ok. simpl. rewrite Hm. simpl. rewrite Hd. simpl. eexists _, true. split; [reflexivity|].
    eexists. split; [constructor|]. pose proof (owned_release A _ _ o m c Hg Hm HA Hc) as Hr.
    apply (owned_remove _ _ _ o (released m)) in Hr; [|apply lookup_insert_eq|done].
    by rewrite !delete_insert_eq in Hr.
  - by apply move_new_ok.
  - by apply move_assign_ok.
  - intros (c & Hc). eapply (on_ok A h o c); [done|done|reflexivity|intros m; apply append_acts|].
    intros c' ->. by constructor.
  - intros (c & Hc). eapply (on_ok A h o c); [done|done|reflexivity|intros m; apply resize_acts|].
    intros c' (hole & -> & Hh). by constructor.
  - intros (c & Hc). eapply (on_ok A h o c); [done|done|reflexivity|intros m; apply clear_acts|].
    intros c' ->. by apply (post_clear A o c).
Qed.

(** ** Programs *)

(** The text an object shows. *)
Definition contents (h : heap) (o : nat) : option bytes :=
  m ← objects h !! o; read_front (live h) m (mb_size m).
Definition shown (A : texts) (h : heap) : Prop := forall o c, holds_text A o c -> contents h o = Some c.
(** A program from the start on, with what it knows of its objects. *)
Inductive reach : texts -> heap -> Prop :=
| reach_start : reach ∅ (Heap ∅ ∅)
| reach_step A h x A' h' : reach A h -> legal A x -> exec x h = Some (h', true) ->
    post A x A' -> shown A' h' -> reach A' h'
| reach_throw A h x h' : reach A h -> legal A x -> exec x h = Some (h', false) -> reach A h'.

Lemma good_start : good ∅ (Heap ∅ ∅).
Proof. split; simpl; intros *; rewrite ?lookup_empty; done. Qed.
Lemma good_shown A h : good A h -> shown A h.
Proof.
  intros Hg o c HA. destruct (live_object A h o (Some c) Hg HA) as (m & Hm & (b & [Hs Hc Hn Hw _] & <-)).
  unfold contents, read_front. rewrite Hm. cbn [mbind option_bind]. rewrite Hs. cbn [mbind option_bind]. rewrite Hn.
  unfold buffer_wf, capacity_ in Hw. by rewrite (proj2 (Nat.leb_le _ _)).
Qed.
(** What the objects show settles what an operation did. *)
Lemma post_shown A x A1 A2 h : post A x A1 -> post A x A2 -> shown A1 h -> shown A2 h -> A1 = A2.
Proof.
  intros H1 H2 S1 S2. destruct H1; inversion H2; subst; unfold holds_text in *; simplify_eq; try done.
  specialize (S1 o _ (lookup_insert_eq _ _ _)). specialize (S2 o _ (lookup_insert_eq _ _ _)).
  rewrite S1 in S2. by simplify_eq.
Qed.
Lemma reach_good A h : reach A h -> good A h.
Proof.
  induction 1 as [|A h x A' h' _ IH Hl He Hp Hs|A h x h' _ IH Hl He]; [apply good_start|..];
    destruct (exec_ok A x h IH Hl) as (h1 & ok & He1 & Hr); rewrite He in He1; simplify_eq; [|done].
  destruct Hr as (A1 & Hp1 & Hg1). by rewrite (post_shown A x A' A1 h1 Hp Hp1 Hs (good_shown A1 h1 Hg1)).
Qed.

(** A step whose effect on the texts is determined. *)
Lemma reach_next A h x A' h' :
  reach A h -> legal A x -> exec x h = Some (h', true) ->
  post A x A' -> (forall A1, post A x A1 -> A1 = A') -> reach A' h'.
Proof.
  intros Hr Hl He Hp Hdet. destruct (exec_ok A x h (reach_good A h Hr) Hl) as (h1 & ok & He1 & Hok).
  rewrite He in He1. simplify_eq. destruct Hok as (A1 & Hp1 & Hg1). rewrite <- (Hdet A1 Hp1).
  by apply (reach_step A h x A1 h1 Hr Hl He Hp1), good_shown.
Qed.

(** (C34) The memory of [MemoryBuffer].  However a program makes, moves,
    assigns, grows and destroys buffers, and whenever the allocator refuses
    memory, as long as it uses an object that was moved from only to assign to
    it or destroy it: no operation is undefined behaviour (no block is freed
    twice or with a wrong size, nothing is read or written outside of an
    array), every object shows the text that was put into it, a refused
    growth changes nothing, a successful operation does what it should, and
    when the last object is gone no block is left. *)
Theorem memory_buffers_safe A h :
  reach A h ->
  shown A h /\ (A = ∅ -> live h = ∅ /\ objects h = ∅)
  /\ (forall x, legal A x ->
       (exists h' A', exec x h = Some (h', true) /\ post A x A' /\ shown A' h' /\ reach A' h')
       \/ (exists h', exec x h = Some (h', false) /\ shown A h' /\ reach A h')).
Proof.
  intros Hreach. pose proof (reach_good A h Hreach) as Hg. split; [by apply good_shown|]. split.
  - intros ->. split; apply map_empty; intros k.
    + destruct (live h !! k) as [s|] eqn:Hk; [|done].
      destruct (no_leak _ _ _ Hg k (ex_intro _ s Hk)) as (o & m & Hm & _).
      destruct (objects_ok _ _ _ Hg o m Hm) as (c & HA & _). by rewrite lookup_empty in HA.
    + apply (no_object ∅ h k Hg), lookup_empty.
  - intros x Hl. destruct (exec_ok A x h Hg Hl) as (h' & [] & He & Hr); [left|right].
    + destruct Hr as (A' & Hp & Hg'). pose proof (good_shown A' h' Hg'). exists h', A'. split_and!; try done.
      by apply (reach_step A h x A' h').
    + exists h'. split_and!; [done|by apply good_shown|]. by apply (reach_throw A h x h').
Qed.
End Safety.

(** A buffer grows onto a block, the block goes over to a second object, and
    the first one is destroyed. *)
Definition sample_exec := exec 4 nul (fun n => n <=? 100)%nat.
Definition sample_heap (l : list op) : option heap :=
  foldl (fun h x => h ← h; r ← sample_exec x h; Some r.1) (Some (Heap ∅ ∅)) l.
Definition sample_after (l : list op) : heap := default (Heap ∅ ∅) (sample_heap l).
Ltac determined := let H := fresh in intros ? H; inversion H; subst;
  try match goal with E : holds_text _ _ _ |- _ => vm_compute in E; injection E as <- end; reflexivity.
Definition sample_texts1 : texts := <[0%nat := Some []]> ∅.
Definition sample_texts2 : texts := <[0%nat := Some !"a text"]> sample_texts1.
Definition sample_texts3 : texts := <[1%nat := Some !"a text"]> (<[0%nat := None]> sample_texts2).
Lemma sample_reached :
  reach 4 nul (fun n => n <=? 100)%nat (delete 0%nat sample_texts3)
    (sample_after [New 0; Append 0 !"a text"; MoveNew 1 0; Delete 0]).
Proof.
  apply (reach_next 4 nul _ sample_texts3 (sample_after [New 0; Append 0 !"a text"; MoveNew 1 0]) (Delete 0));
    [|vm_compute; eexists; reflexivity|vm_compute; reflexivity|constructor|determined].
  apply (reach_next 4 nul _ sample_texts2 (sample_after [New 0; Append 0 !"a text"]) (MoveNew 1 0));
    [|vm_compute; split; [reflexivity|eexists; reflexivity]|vm_compute; reflexivity|by apply (post_move_new _ 1 0 !"a text")|determined].
  apply (reach_next 4 nul _ sample_texts1 (sample_after [New 0]) (Append 0 !"a text"));
    [|vm_compute; eexists; reflexivity|vm_compute; reflexivity|by apply (post_append _ 0 [])|determined].
  apply (reach_next 4 nul _ ∅ (Heap ∅ ∅) (New 0)); [constructor|done|vm_compute; reflexivity|constructor|determined].
Qed.
Lemma memory_buffers_safe_witness :
  contents (sample_after [New 0; Append 0 !"a text"; MoveNew 1 0; Delete 0]) 1 = Some !"a text"
  /\ exists h r, sample_exec (Append 1 !" and more") (sample_after [New 0; Append 0 !"a text"; MoveNew 1 0; Delete 0])
                 = Some (h, r).
Proof.
  destruct (memory_buffers_safe 4 nul (fun n => n <=? 100)%nat _ _ sample_reached) as (Hshown & _ & Hstep).
  split; [apply Hshown; reflexivity|].
  destruct (Hstep (Append 1 !" and more") (ex_intro _ !"a text" eq_refl)) as [(h' & A' & He & _)|(h' & He & _)];
    exists h'; eexists; exact He.
Defined.

(** The rule about moved-from objects is needed: such an object keeps the
    capacity of the block it gave away, so a second use writes behind its
    array. *)
Example moved_from_overflows :
  is_Some (sample_heap [New 0; Append 0 !"a text"; MoveNew 1 0; Clear 0])
  /\ sample_heap [New 0; Append 0 !"a text"; MoveNew 1 0; Clear 0; Append 0 !"a text"] = None.
Proof. split; [by eexists|reflexivity]. Qed.
