(* ===== verification/FmtDouble.v ===== *)
(** * Writing floating-point numbers with the bundled fmt library,
      [BasicWriter::write_double] of
      [src/src/spdlog/fmt/bundled/format.h]

    The digits are the C library's: [write_double] builds a format for
    [snprintf], lets it write behind the elements of the buffer in use, and
    puts sign, fill and centring around what it wrote.  The tests of the
    number and [snprintf] are parameters, an interface.  Because the text is
    written behind the used part, the memory of the buffer is modelled.  The
    loop around [snprintf] has no bound of its own: while [snprintf] reports
    an error the buffer is made larger and the call is repeated. *)
From S2P Require Import Prelude Cxx Fmt FmtFacts FmtBuffer.

(** A full format specifier, [FormatSpec]. *)
Record spec := Spec {
  width_ : nat; fill_ : ascii; align_ : Alignment; flags_ : Z; precision_ : Z; type_ : ascii
}.
Definition new_spec : spec := Spec 0 space ALIGN_DEFAULT 0 (-1) nul.
Definition int_spec_of (s : spec) : int_spec :=
  FormatSpec (width_ s) (fill_ s) (align_ s) (flags_ s) (precision_ s) (type_ s).
Definition spec_flag (s : spec) (f : Z) : bool := negb (Z.land (flags_ s) f =? 0)%Z.

(** What the C library does with a number. *)
Class FloatLib (D : Type) := {
  isnegative : D -> bool;
  isnotanumber : D -> bool;
  isinfinity : D -> bool;
  negate : D -> D;
  (** the text [snprintf] produces for a format, the arguments of its stars
      (a width of 0 and a negative precision are not passed) and a number,
      when the area is large enough *)
  snprintf : bytes -> nat -> Z -> D -> bytes;
  (** whether [snprintf] reports an error for an area of that size *)
  refuses : nat -> bytes -> nat -> Z -> D -> bool;
  (** how many turns of the loop around [snprintf] are followed, the fuel of
      [sprintf_loop] *)
  turns : nat
}.
(** An [int] cannot hold a length above [INT_MAX]: that is an error as well. *)
Definition reports_error {D} `{FloatLib D} (size : nat) (format : bytes) (w : nat) (prec : Z) (value : D) : bool :=
  refuses size format w prec value || (int_max <? len (snprintf format w prec value))%Z.

(** [snprintf(start, buffer_size, ...)]: at most [buffer_size] characters are
    written, the last of them NUL; the answer is the full length, negative for
    an error (what is then behind the used part is not looked at). *)
Definition format_float {D} `{FloatLib D} (start buffer_size : nat) (format : bytes) (w : nat)
    (prec : Z) (value : D) (b : buffer) : buffer * Z :=
  let text := snprintf format w prec value in
  if reports_error buffer_size format w prec value then (b, -1)%Z
  else (match buffer_size with
        | O => b
        | S k => poke start (take k text ++ [nul]) b
        end, len text).

(** The conversion and whether it prints capital letters: [None] is a type
    that is not one of a floating-point number. *)
Definition double_type (t : ascii) : option (ascii * bool) :=
  let ty (c : ascii) := bool_decide (t = c) in
  if ty nul then Some ("g"%char, false)
  else if ty "e"%char || ty "f"%char || ty "g"%char || ty "a"%char then Some (t, false)
  else if ty "F"%char || ty "E"%char || ty "G"%char || ty "A"%char then Some (t, true)
  else None.

(** The format string for [snprintf]. *)
Definition float_format (s : spec) (w : nat) (long_double : bool) (t : ascii) : bytes * nat :=
  let hash := if spec_flag s HASH_FLAG then !"#" else [] in
  let '(layout, width_for_sprintf) :=
    if decide (align_ s = ALIGN_CENTER) then ([], O)
    else ((if decide (align_ s = ALIGN_LEFT) then !"-" else [])
          ++ (if (w =? 0)%nat then [] else !"*"), w) in
  let prec := if (0 <=? precision_ s)%Z then !".*" else [] in
  (!"%" ++ hash ++ layout ++ prec ++ (if long_double then !"L" else []) ++ [t], width_for_sprintf).

Section WriteDouble.
Context `{Grow} {D : Type} `{FloatLib D}.
Variable junk : ascii.

(** The branches for NaN and infinity: [name] is written behind a place for
    the sign. *)
Definition write_special (name : bytes) (sign : option ascii) (s : spec) (b : buffer) : exc buffer :=
  let name := match sign with Some _ => space :: name | None => name end in
  let old := size_ b in
  let! b := append (write_str junk name (width_ s) (fill_ s) (align_ s) []) b in
  Ok match sign with
     | Some c =>
         (* [write_str] returns a pointer to the text behind the padding *)
         let pad := (width_ s - length name)%nat in
         let out := match align_ s with
                    | ALIGN_RIGHT => pad
                    | ALIGN_CENTER => (pad / 2)%nat
                    | _ => O
                    end in
         poke (old + out) [c] b
     | None => b
     end.

(** [for (;;)]: the number is formatted again when the buffer was too small or
    [snprintf] reported an error; [None] is a loop that has not ended. *)
Fixpoint sprintf_loop (fuel : nat) (offset : nat) (format : bytes) (w : nat) (prec : Z) (value : D)
    (b : buffer) : option (exc (buffer * nat)) :=
  match fuel with
  | O => None
  | S fuel =>
      let buffer_size := (capacity_ b - offset)%nat in
      let '(b, result) := format_float offset buffer_size format w prec value b in
      let n := Z.to_nat result in
      if (0 <=? result)%Z && (offset + n <? capacity_ b)%nat then Some (Ok (b, n))
      else match reserve (if (0 <=? result)%Z then offset + n + 1 else capacity_ b + 1)%nat b with
           | Ok b => sprintf_loop fuel offset format w prec value b
           | Thrown e => Some (Thrown e)
           end
  end.

(** [while ( *start == ' ') *start++ = fill;] *)
Fixpoint fill_spaces (fuel : nat) (c : ascii) (start : nat) (b : buffer) : buffer * nat :=
  match fuel with
  | O => (b, start)
  | S fuel =>
      if decide (peek_at start b = space) then fill_spaces fuel c (S start) (poke start [c] b)
      else (b, start)
  end.

(** [if (sign) { ... ++n; }]: the sign goes to the place in front of the
    number, unless there are spaces between them that have to be filled. *)
Definition place_sign (s : spec) (sign : option ascii) (offset n : nat) (b : buffer) :
    buffer * option ascii * nat :=
  match sign with
  | Some c =>
      if (negb (bool_decide (align_ s = ALIGN_RIGHT)) && negb (bool_decide (align_ s = ALIGN_DEFAULT)))
         || negb (bool_decide (peek_at offset b = space))
      then (poke (offset - 1) [c] b, None, S n)
      else (poke (offset - 1) [fill_ s] b, Some c, S n)
  | None => (b, None, n)
  end.
(** The rest: centring, or filling up to the sign that is left. *)
Definition place_fill (s : spec) (sign : option ascii) (offset n : nat) (b : buffer) : exc buffer :=
  if bool_decide (align_ s = ALIGN_CENTER) && (n <? width_ s)%nat then
    let! (b, p) := grow_area (width_ s) b in
    let b := poke (p + (width_ s - n) / 2) (take n (drop p (ptr_ b))) b in
    Ok (Buffer (fill_padding p (width_ s) n (fill_ s) (ptr_ b)).1 (size_ b))
  else
    let '(b, start) :=
      if negb (bool_decide (fill_ s = space)) || match sign with Some _ => true | None => false end
      then fill_spaces (length (ptr_ b)) (fill_ s) offset b else (b, offset) in
    let b := match sign with Some c => poke (start - 1) [c] b | None => b end in
    let! (b, _) := grow_area n b in Ok b.
(** From the end of the loop: [n] characters are at [offset]. *)
Definition place_number (s : spec) (sign : option ascii) (offset n : nat) (b : buffer) : exc buffer :=
  let '(b, sign, n) := place_sign s sign offset n b in place_fill s sign offset n b.

Definition float_sign (value : D) (s : spec) : option ascii :=
  if isnegative value then Some "-"%char
  else if spec_flag s SIGN_FLAG then Some (if spec_flag s PLUS_FLAG then "+"%char else space)
  else None.

Definition write_double (long_double : bool) (value : D) (s : spec) (b : buffer) :
    option (exc buffer) :=
  match double_type (type_ s) with
  | None => Some (Thrown (report_unknown_type junk (type_ s) !"double"))
  | Some (t, upper) =>
      let sign := float_sign value s in
      let value := if isnegative value then negate value else value in
      if isnotanumber value then Some (write_special (if upper then !"NAN" else !"nan") sign s b)
      else if isinfinity value then Some (write_special (if upper then !"INF" else !"inf") sign s b)
      else
        let offset := size_ b in
        match (match sign with
               | Some _ => let! b := reserve (size_ b + Nat.max (width_ s) 1) b in
                           Ok (b, (width_ s - 1)%nat, S offset)
               | None => Ok (b, width_ s, offset)
               end) with
        | Thrown e => Some (Thrown e)
        | Ok (b, w, offset) =>
            let '(format, width_for_sprintf) := float_format s w long_double t in
            match sprintf_loop turns offset format width_for_sprintf (precision_ s) value b with
            | None => None
            | Some (Thrown e) => Some (Thrown e)
            | Some (Ok (b, n)) => Some (place_number s sign offset n b)
            end
        end
  end.
End WriteDouble.
