(* ===== verification/FmtDoubleFacts.v ===== *)
(** * What [write_double] prints

    [FloatLibOk] states what the C standard says of [snprintf] for the formats
    [write_double] builds, when an [int] can report the length: the digits of
    the number, padded with spaces to the width that is passed, and no error.
    Over it the text of a number is its sign, fill and
    digits in the order of the alignment; with the exceptions the code has:
    left alignment pads with spaces whatever the fill is, and centring loses
    the number when the buffer has to grow. *)
From S2P Require Import Prelude Cxx Fmt FmtFacts FmtBuffer FmtDouble.

Open Scope Z_scope.

(** The format strings of [write_double]. *)
Definition float_format_string (hash left star prec long : bool) (t : ascii) : bytes :=
  !"%" ++ (if hash then !"#" else []) ++ ((if left then !"-" else []) ++ (if star then !"*" else []))
  ++ (if prec then !".*" else []) ++ (if long then !"L" else []) ++ [t].
Definition pad_spaces (left : bool) (w : nat) (t : bytes) : bytes :=
  if left then t ++ repeat space (w - length t) else repeat space (w - length t) ++ t.

Class FloatLibOk (D : Type) `{FloatLib D} := {
  (** the digits, for the flag [#], the precision, the length [L] and the
      conversion *)
  number_text : bool -> option Z -> bool -> ascii -> D -> bytes;
  negate_law v : isnegative v = true -> isnegative (negate v) = false;
  number_text_visible hash prec long t v :
    isnegative v = false -> isnotanumber v = false -> isinfinity v = false ->
    exists c l, number_text hash prec long t v = c :: l /\ c <> space;
  snprintf_law hash left star prec long t w p v :
    t ∈ !"aAeEfFgG" -> isnegative v = false -> isnotanumber v = false -> isinfinity v = false ->
    let format := float_format_string hash left star prec long t in
    let w := if star then w else O in
    let text := pad_spaces left w (number_text hash (if prec then Some p else None) long t v) in
    len text <= int_max ->
    snprintf format w p v = text /\ forall size, refuses size format w p v = false;
  turns_law : (2 <= turns)%nat
}.

(** The text of a number. *)
Definition sign_text (sign : option ascii) : bytes := match sign with Some c => [c] | None => [] end.
Section Text.
Context {D : Type} `{FloatLibOk D}.

Definition special_text (name : bytes) (sign : option ascii) (s : spec) : bytes :=
  pad_text (width_ s) (fill_ s)
    (match align_ s with ALIGN_RIGHT => ALIGN_RIGHT | ALIGN_CENTER => ALIGN_CENTER | _ => ALIGN_LEFT end)
    [] (sign_text sign ++ name).
Definition finite_text (long : bool) (t : ascii) (v : D) (sign : option ascii) (s : spec) : bytes :=
  let digits := number_text (spec_flag s HASH_FLAG)
                  (if 0 <=? precision_ s then Some (precision_ s) else None) long t v in
  pad_text (width_ s) (match align_ s with ALIGN_LEFT => space | _ => fill_ s end) (align_ s)
    (sign_text sign) digits.
Definition double_text (long : bool) (v : D) (s : spec) : option bytes :=
  match double_type (type_ s) with
  | None => None
  | Some (t, upper) =>
      let sign := float_sign v s in
      let v := if isnegative v then negate v else v in
      Some (if isnotanumber v then special_text (if upper then !"NAN" else !"nan") sign s
            else if isinfinity v then special_text (if upper then !"INF" else !"inf") sign s
            else finite_text long t v sign s)
  end.
End Text.

Lemma double_type_conversion x t upper : double_type x = Some (t, upper) -> t ∈ !"aAeEfFgG".
Proof.
  unfold double_type. intros Ht.
  repeat (case_bool_decide; cbn [orb] in Ht; [simplify_eq; by vm_compute; repeat constructor|]).
  done.
Qed.

(** ** Memory *)
Ltac norm_app := repeat (progress (rewrite <- ?app_assoc; cbn [app])).
Lemma take_copy k p (s l : bytes) : (k <= p)%nat -> take k (copy s p l) = take k l.
Proof.
  revert p; induction s as [|c s IH]; intros p Hp; [done|].
  unfold copy. cbn [list_inserts]. rewrite take_insert_ge by lia. apply IH. lia.
Qed.
Lemma poke_content p t b : (size_ b <= p)%nat -> content (poke p t b) = content b.
Proof. apply take_copy. Qed.
Lemma poke_capacity p t b : capacity_ (poke p t b) = capacity_ b.
Proof. unfold capacity_, poke, copy. cbn [ptr_]. by rewrite length_inserts. Qed.
Lemma copy_split (l s : bytes) p :
  (p + length s <= length l)%nat -> exists rest, copy s p l = take p l ++ s ++ rest
  /\ length rest = (length l - p - length s)%nat.
Proof.
  intros Hl. exists (drop (length s) (drop p l)). split.
  - apply (copy_at (take p l) (take (length s) (drop p l))).
    + by rewrite !take_drop.
    + rewrite length_take. lia.
    + rewrite length_take, length_drop. lia.
  - rewrite !length_drop. lia.
Qed.
(** [text] lies at [offset], with a NUL behind it; [before] is in front. *)
Definition shows (before text : bytes) (b : buffer) : Prop :=
  exists rest, ptr_ b = before ++ text ++ nul :: rest.

Section Numbers.
Context `{Grow} {D : Type} `{FloatLibOk D}.
Variable junk : ascii.
Hypothesis grow_total : forall n b, exists b', grow n b = Ok b'.

Lemma ensure_total c n b : exists b', ensure c n b = Ok b'.
Proof. unfold ensure. destruct c; eauto. Qed.
Lemma append_total t b :
  buffer_wf b -> exists b', append t b = Ok b' /\ buffer_wf b' /\ content b' = content b ++ t.
Proof.
  intros Hb. destruct (append t b) as [b'|e] eqn:Ha.
  - exists b'. split; [done|]. by apply append_spec.
  - unfold append in Ha.
    destruct (ensure_total (capacity_ b <? size_ b + length t)%nat (size_ b + length t) b) as [b' Hg].
    by rewrite Hg in Ha.
Qed.
Lemma reserve_total n b :
  buffer_wf b -> exists b', reserve n b = Ok b' /\ buffer_wf b' /\ content b' = content b
  /\ size_ b' = size_ b /\ (n <= capacity_ b')%nat.
Proof.
  intros Hb. destruct (ensure_total (capacity_ b <? n)%nat n b) as [b' Hr]. exists b'. split; [done|].
  by apply reserve_spec.
Qed.
(** An area that is there already. *)
Lemma grow_area_inside n b l t r :
  ptr_ b = l ++ t ++ r -> length l = size_ b -> length t = n ->
  exists b', grow_area n b = Ok (b', size_ b) /\ ptr_ b' = ptr_ b /\ size_ b' = (size_ b + n)%nat
  /\ buffer_wf b' /\ content b' = l ++ t.
Proof.
  intros Hp Hl Hn. unfold grow_area, resize.
  assert (Hcap : (size_ b + n <= capacity_ b)%nat) by (unfold capacity_; rewrite Hp, !length_app; lia).
  destruct (Nat.ltb_spec (capacity_ b) (size_ b + n)); [lia|]. cbn [ensure exc_bind]. eexists; split; [done|].
  split_and!; [done|done|done|]. unfold content, set_size. cbn [ptr_ size_]. rewrite Hp, app_assoc.
  apply take_app_length'. rewrite length_app. lia.
Qed.

(** ** The loop around [snprintf] *)
Lemma format_float_fits offset fmt w prec v b :
  let text := snprintf fmt w prec v in
  (forall size, reports_error size fmt w prec v = false) ->
  (offset + length text < capacity_ b)%nat ->
  format_float offset (capacity_ b - offset) fmt w prec v b
  = (poke offset (text ++ [nul]) b, len text).
Proof.
  intros text Hn Ht. unfold format_float. rewrite Hn. fold text. destruct (capacity_ b - offset)%nat as [|k] eqn:Hk; [lia|].
  by rewrite take_ge by lia.
Qed.
Lemma format_float_after offset fmt w prec v b :
  (forall size, reports_error size fmt w prec v = false) -> (size_ b <= offset)%nat ->
  exists b', format_float offset (capacity_ b - offset) fmt w prec v b = (b', len (snprintf fmt w prec v))
  /\ content b' = content b /\ size_ b' = size_ b /\ capacity_ b' = capacity_ b.
Proof.
  intros Hn Ho. unfold format_float. rewrite Hn. destruct (capacity_ b - offset)%nat; eexists; (split; [done|]); [done|].
  split; [by apply poke_content|]. split; [done|apply poke_capacity].
Qed.
Lemma len_answer (text : bytes) : (0 <=? len text) = true /\ Z.to_nat (len text) = length text.
Proof. unfold len. split; [apply Z.leb_le|]; lia. Qed.
Lemma sprintf_loop_shows fuel offset fmt w prec (v : D) b :
  (2 <= fuel)%nat -> (forall size, reports_error size fmt w prec v = false) ->
  buffer_wf b -> (size_ b <= offset <= capacity_ b)%nat ->
  let text := snprintf fmt w prec v in
  exists b', sprintf_loop fuel offset fmt w prec v b = Some (Ok (b', length text))
  /\ size_ b' = size_ b /\ exists before, length before = offset /\ take (size_ b) before = content b
  /\ shows before text b' /\ (capacity_ b <= capacity_ b')%nat.
Proof.
  intros Hfu Hn Hb Ho text. destruct fuel as [|[|fuel]]; [lia..|]. destruct (len_answer text) as [Hpos Hlen].
  assert (Hfit : forall b, buffer_wf b -> (size_ b <= offset)%nat -> (offset + length text < capacity_ b)%nat ->
    let b' := poke offset (text ++ [nul]) b in size_ b' = size_ b /\ exists before, length before = offset
    /\ take (size_ b) before = content b /\ shows before text b' /\ (capacity_ b <= capacity_ b')%nat).
  { intros b0 Hb0 Ho0 Hc. split; [done|]. unfold capacity_ in *. exists (take offset (ptr_ b0)).
    destruct (copy_split (ptr_ b0) (text ++ [nul]) offset) as (rest & Hr & Hrl); [rewrite length_app; simpl; lia|].
    split_and!.
    - rewrite length_take. lia.
    - rewrite take_take. unfold content. f_equal. lia.
    - exists rest. cbn [poke ptr_]. by rewrite Hr, <- app_assoc.
    - cbn [poke ptr_]. unfold copy. by rewrite length_inserts. }
  cbn [sprintf_loop]. destruct (decide (offset + length text < capacity_ b)%nat) as [Hc|Hc].
  - rewrite format_float_fits by done. fold text. rewrite Hpos, Hlen, poke_capacity.
    destruct (Nat.ltb_spec (offset + length text) (capacity_ b)); [cbn [andb]|lia].
    eexists; split; [done|]. apply Hfit; done || lia.
  - destruct (format_float_after offset fmt w prec v b) as (b1 & Hf & Hc1 & Hs1 & Hcap1); [done|lia|]. rewrite Hf.
    fold text. rewrite Hpos, Hlen. destruct (Nat.ltb_spec (offset + length text) (capacity_ b1)); [lia|]. cbn [andb].
    assert (Hb1 : buffer_wf b1) by (unfold buffer_wf; rewrite Hs1, Hcap1; done).
    destruct (reserve_total (offset + length text + 1) b1 Hb1) as (b2 & -> & Hb2 & Hc2 & Hs2 & Hcap2).
    rewrite format_float_fits by (done || (fold text; lia)). fold text. rewrite Hpos, Hlen, poke_capacity.
    destruct (Nat.ltb_spec (offset + length text) (capacity_ b2)); [cbn [andb]|lia].
    destruct (Hfit b2 Hb2 ltac:(lia) ltac:(lia)) as (Hs3 & before & Hbl & Hbt & Hsh & Hcap3).
    eexists; split; [done|]. split; [lia|]. exists before. split_and!; [done| |done|lia].
    by rewrite <- Hc1, <- Hc2, <- Hbt, Hs2, Hs1.
Qed.

(** ** Sign, fill and alignment *)
Lemma fill_spaces_spec fuel ch k before c rest b :
  ptr_ b = before ++ repeat space k ++ c :: rest -> c <> space -> (k < fuel)%nat ->
  fill_spaces fuel ch (length before) b
  = (Buffer (before ++ repeat ch k ++ c :: rest) (size_ b), (length before + k)%nat).
Proof.
  revert before k b; induction fuel as [|fuel IH]; intros before k b Hp Hc Hk; [lia|]. cbn [fill_spaces].
  assert (Hpeek : forall x l, ptr_ b = before ++ x :: l -> peek_at (length before) b = x)
    by (intros x l Hx; unfold peek_at; rewrite Hx; apply nth_middle).
  destruct k as [|k]; cbn [repeat app] in *.
  - rewrite (Hpeek c rest Hp). destruct (decide (c = space)); [done|]. rewrite Nat.add_0_r. f_equal.
    rewrite <- Hp. by destruct b.
  - rewrite (Hpeek space _ Hp). destruct (decide (space = space)); [|done].
    replace (S (length before)) with (length (before ++ [ch])) by (rewrite length_app; simpl; lia).
    rewrite (IH (before ++ [ch]) k); [|cbn [poke ptr_]|done|lia].
    + cbn [poke size_]. rewrite length_app, <- app_assoc. simpl. f_equal. lia.
    + rewrite Hp. rewrite (copy_at before [space] (repeat space k ++ c :: rest)); [|done..].
      by rewrite <- app_assoc.
Qed.

(** The number, behind [front], in memory; [t] is what follows it. *)
Lemma place_fill_plain s front l0 k c digits t r n b :
  ptr_ b = l0 ++ front ++ repeat space k ++ c :: digits ++ t ++ r -> c <> space ->
  length l0 = size_ b -> n = (length front + k + S (length digits) + length t)%nat ->
  bool_decide (align_ s = ALIGN_CENTER) && (n <? width_ s)%nat = false ->
  exists b', place_fill s None (length l0 + length front) n b = Ok b' /\ buffer_wf b'
  /\ content b' = l0 ++ front ++ repeat (fill_ s) k ++ c :: digits ++ t.
Proof.
  intros Hp Hc Hl Hn Hcen. unfold place_fill. rewrite Hcen.
  rewrite orb_false_r. clear Hcen.
  assert (Hgo : forall b, ptr_ b = l0 ++ (front ++ repeat (fill_ s) k ++ c :: digits ++ t) ++ r -> length l0 = size_ b ->
    exists b', (let! (b, _) := grow_area n b in Ok b) = Ok b' /\ buffer_wf b'
    /\ content b' = l0 ++ front ++ repeat (fill_ s) k ++ c :: digits ++ t).
  { intros b1 Hp1 Hl1. destruct (grow_area_inside n b1 _ _ _ Hp1 Hl1) as (b2 & -> & _ & _ & Hw & Hcont).
    - rewrite Hn, !length_app, repeat_length. simpl. rewrite length_app. lia.
    - cbn [exc_bind]. eauto. }
  case_bool_decide as Hf; cbn [negb].
  - apply Hgo; [|done]. rewrite Hp, Hf, <- !app_assoc. simpl. by rewrite <- !app_assoc.
  - rewrite <- length_app. rewrite (fill_spaces_spec _ (fill_ s) k (l0 ++ front) c (digits ++ t ++ r));
      [|by rewrite Hp, <- app_assoc|done|rewrite Hp, !length_app, repeat_length; simpl; lia].
    apply Hgo; [|done]. cbn [ptr_]. rewrite <- !app_assoc. simpl. by rewrite <- !app_assoc.
Qed.
Lemma place_fill_signed s sign l0 k c digits r n b :
  ptr_ b = l0 ++ fill_ s :: repeat space (S k) ++ c :: digits ++ r -> c <> space ->
  length l0 = size_ b -> n = (S (S k) + S (length digits))%nat -> align_ s <> ALIGN_CENTER ->
  exists b', place_fill s (Some sign) (S (length l0)) n b = Ok b' /\ buffer_wf b'
  /\ content b' = l0 ++ repeat (fill_ s) (S k) ++ sign :: c :: digits.
Proof.
  intros Hp Hc Hl Hn Ha. unfold place_fill. rewrite (bool_decide_eq_false_2 (align_ s = _)) by done. cbn [andb].
  rewrite orb_true_r.
  replace (S (length l0)) with (length (l0 ++ [fill_ s])) by (rewrite length_app; simpl; lia).
  rewrite (fill_spaces_spec _ (fill_ s) (S k) (l0 ++ [fill_ s]) c (digits ++ r));
    [|by rewrite Hp, <- app_assoc|done|rewrite Hp, !length_app; simpl; rewrite length_app, repeat_length; lia].
  set (b1 := poke _ _ _).
  assert (Hp1 : ptr_ b1 = l0 ++ (repeat (fill_ s) (S k) ++ sign :: c :: digits) ++ r).
  { unfold b1. cbn [poke ptr_].
    assert (Hr : forall l, [fill_ s] ++ repeat (fill_ s) (S k) ++ l = repeat (fill_ s) (S k) ++ [fill_ s] ++ l).
    { intros l. rewrite !app_assoc. f_equal. rewrite <- (repeat_cons (S k)). done. }
    rewrite <- app_assoc, Hr, !app_assoc.
    rewrite (copy_at (l0 ++ repeat (fill_ s) (S k)) [fill_ s] (c :: digits ++ r)); [|by rewrite <- !app_assoc| |done].
    - by rewrite <- !app_assoc.
    - rewrite !length_app, repeat_length. simpl. lia. }
  destruct (grow_area_inside n b1 _ _ _ Hp1 Hl) as (b2 & -> & _ & _ & Hw & Hcont); cbn [exc_bind]; [|eauto].
  rewrite Hn, length_app, repeat_length. simpl. lia.
Qed.

(** *** Centring, when the buffer has room *)
Lemma place_fill_centred s front l0 c digits r n b :
  ptr_ b = l0 ++ front ++ c :: digits ++ r -> length l0 = size_ b ->
  n = (length front + S (length digits))%nat -> (n < width_ s)%nat ->
  (size_ b + width_ s <= capacity_ b)%nat -> align_ s = ALIGN_CENTER ->
  exists b', place_fill s None (length l0 + length front) n b = Ok b' /\ buffer_wf b'
  /\ content b' = l0 ++ pad_text (width_ s) (fill_ s) ALIGN_CENTER front (c :: digits).
Proof.
  intros Hp Hl Hn Hw Hroom Ha. unfold place_fill. rewrite bool_decide_eq_true_2 by done.
  destruct (Nat.ltb_spec n (width_ s)) as [_|]; [cbn [andb]|lia].
  set (num := front ++ c :: digits). assert (Hnum : length num = n) by (unfold num; rewrite length_app; simpl; lia).
  set (pad := (width_ s - n)%nat). set (left := (pad / 2)%nat).
  assert (Hleft : (left <= pad)%nat) by (apply Nat.Div0.div_le_upper_bound; lia).
  assert (Hp2 : ptr_ b = l0 ++ num ++ r) by (unfold num; rewrite Hp, <- !app_assoc; done).
  (* the area of [width] characters *)
  unfold capacity_ in Hroom. rewrite Hp2, !length_app in Hroom.
  destruct (grow_area_inside (width_ s) b l0 (num ++ take pad r) (drop pad r)) as (b1 & -> & Hp1 & Hs1 & _ & _);
    [by rewrite <- app_assoc, take_drop|done|rewrite length_app, length_take; lia|]. cbn [exc_bind].
  assert (Harea : exists A B R, (num ++ r) = A ++ B ++ R /\ length A = left /\ length B = n
     /\ (pad - left <= length R)%nat).
  { exists (take left (num ++ r)), (take n (drop left (num ++ r))), (drop n (drop left (num ++ r))).
    rewrite !take_drop, !length_drop, !length_take, length_drop, length_app. split_and!; [done|lia..]. }
  destruct Harea as (A & B & R & HABR & HA & HB & HR).
  assert (Hmove : ptr_ (poke (size_ b + left) (take n (drop (size_ b) (ptr_ b1))) b1)
                  = l0 ++ A ++ num ++ R).
  { cbn [poke ptr_]. rewrite Hp1, Hp2.
    rewrite <- Hl, drop_app_length, take_app_length' by done.
    rewrite (copy_at (l0 ++ A) B R); [by rewrite <- app_assoc|by rewrite HABR, <- app_assoc|
      by rewrite length_app, HA|by rewrite Hnum]. }
  eexists; split; [done|]. unfold fill_padding. cbn [fst].
  change ((width_ s - n) / 2)%nat with left. change (width_ s - n)%nat with pad. rewrite Hmove.
  rewrite (fill_at l0 A (num ++ R) (fill_ s) (size_ b) left) by done.
  rewrite (fill_at (l0 ++ repeat (fill_ s) left ++ num) (take (pad - left) R) (drop (pad - left) R));
    [|by rewrite <- !app_assoc, take_drop|rewrite !length_app, repeat_length; lia|rewrite length_take; lia].
  unfold buffer_wf, content, capacity_. cbn [ptr_ size_ poke]. rewrite Hs1. split.
  - rewrite !length_app, !repeat_length. lia.
  - rewrite app_assoc. rewrite take_app_length';
      [|rewrite !length_app, !repeat_length; lia].
    unfold pad_text. replace (width_ s - (length front + length (c :: digits)))%nat with pad by (simpl; lia).
    fold left. unfold num. by rewrite <- !app_assoc.
Qed.

(** The width [snprintf] gets: none when the number is centred. *)
Definition passed_width (s : spec) (w : nat) : nat :=
  match align_ s with ALIGN_CENTER => O | _ => w end.
Definition is_left (s : spec) : bool := match align_ s with ALIGN_LEFT => true | _ => false end.
Definition printed (s : spec) (w : nat) (digits : bytes) : bytes :=
  pad_spaces (is_left s) (passed_width s w) digits.

(** With the sign in place or no sign at all. *)
Lemma place_fill_done s l0 front w c digits r b :
  ptr_ b = l0 ++ front ++ printed s w (c :: digits) ++ r -> c <> space ->
  length l0 = size_ b -> w = (width_ s - length front)%nat ->
  (front = [] \/ align_ s = ALIGN_LEFT \/ align_ s = ALIGN_CENTER \/ align_ s = ALIGN_NUMERIC
   \/ (w <= length (c :: digits))%nat) ->
  (align_ s = ALIGN_CENTER -> size_ b + width_ s <= capacity_ b)%nat ->
  exists b', place_fill s None (length l0 + length front) (length front + length (printed s w (c :: digits))) b = Ok b'
  /\ buffer_wf b'
  /\ content b' = l0 ++ pad_text (width_ s) (match align_ s with ALIGN_LEFT => space | _ => fill_ s end)
                           (align_ s) front (c :: digits).
Proof.
  intros Hp Hc Hl -> Hcase Hroom. unfold printed, pad_spaces, is_left, passed_width, pad_text in *.
  set (n := (width_ s - (length front + length (c :: digits)))%nat) in *.
  assert (Hsub : (width_ s - length front - length (c :: digits))%nat = n) by (unfold n; lia).
  assert (Hright : align_ s <> ALIGN_LEFT -> align_ s <> ALIGN_CENTER ->
    ptr_ b = l0 ++ front ++ (repeat space n ++ c :: digits) ++ r ->
    exists b', place_fill s None (length l0 + length front) (length front + length (repeat space n ++ c :: digits)) b = Ok b'
    /\ buffer_wf b' /\ content b' = l0 ++ front ++ repeat (fill_ s) n ++ c :: digits).
  { intros HL HC Hp'. destruct (place_fill_plain s front l0 n c digits [] r
      (length front + length (repeat space n ++ c :: digits)) b) as (b' & -> & Hw & Hb');
      [by rewrite Hp', <- !app_assoc|done|done|rewrite length_app, repeat_length; simpl; lia|
       by rewrite bool_decide_eq_false_2|]. rewrite app_nil_r in Hb'. eauto. }
  assert (Hfr : align_ s = ALIGN_RIGHT \/ align_ s = ALIGN_DEFAULT -> front ++ repeat (fill_ s) n = repeat (fill_ s) n ++ front).
  { intros Ha. destruct Hcase as [->|Hcase]; [by rewrite app_nil_r|].
    assert (n = O) as -> by (destruct Hcase as [?|[?|[?|?]]]; [destruct Ha; congruence..|lia]).
    by rewrite app_nil_r. }
  destruct (align_ s) eqn:Ha; rewrite ?Hsub in *; clear Hsub.
  - destruct Hright as (b' & ? & ? & Hb'); [done|done|done|]. exists b'. split_and!; [done|done|].
    by rewrite Hb', (app_assoc front), Hfr, <- app_assoc by auto.
  - destruct (place_fill_plain s front l0 0 c digits (repeat space n) r
      (length front + length ((c :: digits) ++ repeat space n)) b) as (b' & -> & Hw & Hb');
      [by rewrite Hp, <- !app_assoc|done|done|rewrite length_app, repeat_length; simpl; lia|
       by rewrite bool_decide_eq_false_2 by congruence|]. eauto.
  - destruct Hright as (b' & ? & ? & Hb'); [done|done|done|]. exists b'. split_and!; [done|done|].
    by rewrite Hb', (app_assoc front), Hfr, <- app_assoc by auto.
  - rewrite Nat.sub_0_l in *. cbn [repeat app] in *. destruct (decide (n = O)) as [Hn|Hn].
    + rewrite Hn. destruct (place_fill_plain s front l0 0 c digits [] r
        (length front + length (c :: digits)) b) as (b' & -> & Hw & Hb');
        [by rewrite Hp|done|done|simpl; lia|
         apply andb_false_intro2, Nat.ltb_ge; simpl in *; lia|]. rewrite app_nil_r in *. eauto.
    + destruct (place_fill_centred s front l0 c digits r (length front + length (c :: digits)) b)
        as (b' & -> & Hw & Hb'); [by rewrite Hp|done|simpl; lia|simpl in *; lia|auto|done|]. eauto.
  - destruct Hright as (b' & ? & ? & Hb'); [done|done|done|]. eauto.
Qed.

Definition room (sign : option ascii) : nat := match sign with Some _ => 1 | None => 0 end.
(** The character behind the place of the sign. *)
Lemma peek_printed s w l0 x c digits r b :
  ptr_ b = l0 ++ [x] ++ printed s w (c :: digits) ++ r -> align_ s = ALIGN_RIGHT \/ align_ s = ALIGN_DEFAULT ->
  peek_at (length l0 + 1) b = if (w <=? length (c :: digits))%nat then c else space.
Proof.
  intros Hp Ha. unfold peek_at. rewrite Hp, app_assoc.
  replace (length l0 + 1)%nat with (length (l0 ++ [x])) by (by rewrite length_app).
  rewrite app_nth2, Nat.sub_diag by lia. unfold printed, pad_spaces, is_left, passed_width.
  destruct (align_ s); try (by destruct Ha); (destruct (Nat.leb_spec w (length (c :: digits))) as [Hle|Hgt];
    [by replace (w - length (c :: digits))%nat with O by lia|
     by destruct (w - length (c :: digits))%nat eqn:?; [lia|]]).
Qed.
Lemma place_number_spec s sign l0 slot c digits r b :
  let w := (width_ s - room sign)%nat in
  ptr_ b = l0 ++ slot ++ printed s w (c :: digits) ++ r -> c <> space ->
  length l0 = size_ b -> length slot = room sign ->
  (align_ s = ALIGN_CENTER -> size_ b + width_ s <= capacity_ b)%nat ->
  exists b', place_number s sign (length l0 + length slot) (length (printed s w (c :: digits))) b = Ok b'
  /\ buffer_wf b'
  /\ content b' = l0 ++ pad_text (width_ s) (match align_ s with ALIGN_LEFT => space | _ => fill_ s end)
                           (align_ s) (sign_text sign) (c :: digits).
Proof.
  intros w Hp Hc Hl Hslot Hroom. assert (Hw : w = (width_ s - room sign)%nat) by done. clearbody w.
  unfold place_number, place_sign. destruct sign as [sg|]; cbn [room sign_text] in *.
  2: { destruct slot; [|done]. rewrite Nat.sub_0_r in Hw. subst w.
       apply (place_fill_done s l0 [] (width_ s) c digits r); auto; simpl; lia. }
  destruct slot as [|x [|]]; try done. cbn [length] in *. rewrite Nat.add_sub.
  assert (Hput : forall y, ptr_ (poke (length l0) [y] b) = l0 ++ [y] ++ printed s w (c :: digits) ++ r)
    by (intros y; cbn [poke ptr_]; by rewrite (copy_at l0 [x] (printed s w (c :: digits) ++ r))).
  assert (Hplace : align_ s = ALIGN_LEFT \/ align_ s = ALIGN_CENTER \/ align_ s = ALIGN_NUMERIC
                     \/ (w <= length (c :: digits))%nat ->
    exists b', place_fill s None (length l0 + 1) (S (length (printed s w (c :: digits)))) (poke (length l0) [sg] b) = Ok b'
    /\ buffer_wf b' /\ content b' = l0 ++ pad_text (width_ s) (match align_ s with ALIGN_LEFT => space | _ => fill_ s end)
                           (align_ s) [sg] (c :: digits)).
  { intros Hcase. apply (place_fill_done s l0 [sg] w c digits r); [apply Hput|done|done|done|auto|].
    rewrite poke_capacity. apply Hroom. }
  destruct (decide (align_ s = ALIGN_RIGHT \/ align_ s = ALIGN_DEFAULT)) as [Ha|Ha].
  - rewrite (peek_printed s w l0 x c digits r b Hp Ha). replace (negb _ && negb _) with false
      by (destruct Ha as [-> | ->]; [done|by rewrite andb_false_r]). cbn [orb].
    destruct (Nat.leb_spec w (length (c :: digits))) as [Hle|Hgt].
    { rewrite bool_decide_eq_false_2 by done. cbn [negb]. auto. }
    rewrite bool_decide_eq_true_2 by done. cbn [negb].
    assert (Hpr : printed s w (c :: digits) = repeat space (w - length (c :: digits)) ++ c :: digits)
      by (unfold printed, pad_spaces, is_left, passed_width; destruct Ha as [-> | ->]; done).
    rewrite Hpr in *. destruct (w - length (c :: digits))%nat as [|k] eqn:Hk; [lia|].
    destruct (place_fill_signed s sg l0 k c digits r (S (length (repeat space (S k) ++ c :: digits)))
      (poke (length l0) [fill_ s] b)) as (b' & Hf & Hwf & Hb').
    + rewrite Hput. by rewrite <- !app_assoc.
    + done.
    + done.
    + rewrite length_app, repeat_length. simpl. lia.
    + destruct Ha; congruence.
    + rewrite Nat.add_1_r. exists b'. split_and!; [done|done|]. rewrite Hb'. f_equal. unfold pad_text.
      replace (width_ s - (length [sg] + length (c :: digits)))%nat with (S k) by (simpl in *; lia).
      by destruct Ha as [-> | ->].
  - destruct (align_ s) eqn:Eal; try (by destruct Ha; auto); cbn [orb andb negb];
      repeat (rewrite bool_decide_eq_false_2 by done); cbn [orb andb negb]; apply Hplace; auto.
Qed.

Lemma float_format_spec s w long t :
  exists star : bool, float_format s w long t
  = (float_format_string (spec_flag s HASH_FLAG) (is_left s) star (0 <=? precision_ s) long t,
     if star then w else O) /\ (if star then w else O) = passed_width s w.
Proof.
  unfold float_format, float_format_string, is_left, passed_width.
  destruct (decide (align_ s = ALIGN_CENTER)) as [->|Hc]; [by exists false|].
  exists (negb (w =? 0)%nat). destruct (decide (align_ s = ALIGN_LEFT)) as [->|Hl].
  - destruct (Nat.eqb_spec w 0) as [->|]; done.
  - destruct (Nat.eqb_spec w 0) as [->|]; destruct (align_ s); done.
Qed.

(** What [snprintf] prints is no longer than the text of the number. *)
Lemma printed_length s sign digits fill' :
  len (printed s (width_ s - room sign) digits)
  <= len (pad_text (width_ s) fill' (align_ s) (sign_text sign) digits).
Proof.
  unfold printed, pad_spaces, passed_width, pad_text, len.
  assert (Hs : length (sign_text sign) = room sign) by (by destruct sign).
  repeat case_match; rewrite ?length_app, ?repeat_length; lia.
Qed.
(** The loop, started with the buffer [write_double] gives it. *)
Lemma write_finite long t v sign s l0 w b :
  t ∈ !"aAeEfFgG" -> isnegative v = false -> isnotanumber v = false -> isinfinity v = false ->
  buffer_wf b -> content b = l0 -> w = (width_ s - room sign)%nat ->
  (size_ b + room sign <= capacity_ b)%nat ->
  (align_ s = ALIGN_CENTER -> size_ b + width_ s <= capacity_ b)%nat ->
  len (finite_text long t v sign s) <= int_max ->
  exists b' n b'', sprintf_loop turns (size_ b + room sign) (float_format s w long t).1
      (float_format s w long t).2 (precision_ s) v b = Some (Ok (b', n))
  /\ place_number s sign (size_ b + room sign) n b' = Ok b'' /\ buffer_wf b''
  /\ content b'' = l0 ++ finite_text long t v sign s.
Proof.
  intros Ht Hneg Hnan Hinf Hb <- Hw Hcap Hroom Hint.
  destruct (float_format_spec s w long t) as (star & -> & Hpw). cbn [fst snd].
  pose proof (snprintf_law (spec_flag s HASH_FLAG) (is_left s) star (0 <=? precision_ s) long t w (precision_ s) v Ht Hneg Hnan Hinf) as Hsn.
  cbv zeta in Hsn.
  destruct (number_text_visible (spec_flag s HASH_FLAG) (if 0 <=? precision_ s then Some (precision_ s) else None) long t v Hneg Hnan Hinf)
    as (c & digits & Hd & Hc). rewrite Hd, Hpw in Hsn.
  change (pad_spaces _ _ _) with (printed s w (c :: digits)) in Hsn. rewrite Hpw.
  unfold finite_text in Hint. rewrite Hd in Hint.
  destruct Hsn as [Hsn Hrf]; [subst w; by eapply Z.le_trans; [apply printed_length|]|].
  assert (Hn : forall size, reports_error size (float_format_string (spec_flag s HASH_FLAG) (is_left s) star (0 <=? precision_ s) long t)
    (passed_width s w) (precision_ s) v = false).
  { intros size. unfold reports_error. rewrite Hrf, Hsn. cbn [orb]. apply Z.ltb_ge. subst w.
    by eapply Z.le_trans; [apply printed_length|]. }
  destruct (sprintf_loop_shows turns (size_ b + room sign) (float_format_string (spec_flag s HASH_FLAG) (is_left s) star
    (0 <=? precision_ s) long t) (passed_width s w) (precision_ s) v b turns_law Hn Hb ltac:(lia))
    as (b1 & -> & Hs1 & before & Hbl & Hbt & (rest & Hsh) & Hcap1). rewrite Hsn in *.
  assert (Hl0 : length (content b) = size_ b) by (by apply content_length).
  destruct (place_number_spec s sign (content b) (drop (size_ b) before) c digits (nul :: rest) b1) as (b2 & Hp & Hwf & Hb2).
  - by rewrite <- Hw, Hsh, (app_assoc (content b)), <- Hbt, take_drop.
  - done.
  - lia.
  - rewrite length_drop. lia.
  - intros Ha. specialize (Hroom Ha). lia.
  - rewrite <- Hw in *. eexists _, _, b2. split; [done|]. rewrite Hl0, length_drop in Hp.
    replace (size_ b + (length before - size_ b))%nat with (size_ b + room sign)%nat in Hp by lia.
    split_and!; [done|done|]. rewrite Hb2. unfold finite_text. by rewrite Hd.
Qed.

Lemma write_special_spec name sign s b :
  buffer_wf b -> exists b', write_special junk name sign s b = Ok b' /\ buffer_wf b'
  /\ content b' = content b ++ special_text name sign s.
Proof.
  intros Hb. unfold write_special. set (nm := match sign with Some _ => space :: name | None => name end).
  assert (Hlen : length nm = length (sign_text sign ++ name)) by (unfold nm, sign_text; by destruct sign).
  destruct (append_total (write_str junk nm (width_ s) (fill_ s) (align_ s) []) b Hb) as (b1 & -> & Hb1 & Hc1).
  cbn [exc_bind]. eexists; split; [done|]. unfold special_text. rewrite <- (content_length b Hb).
  rewrite write_str_spec, app_nil_l in Hc1.
  destruct sign as [sg|]; [|split; [done|]; rewrite Hc1; f_equal; by destruct (align_ s)].
  assert (Hgo : forall l r, content b1 = content b ++ l ++ (space :: name) ++ r ->
    buffer_wf (poke (length (content b) + length l) [sg] b1)
    /\ content (poke (length (content b) + length l) [sg] b1) = content b ++ l ++ (sg :: name) ++ r).
  { intros l r Hl. pose proof (content_length b1 Hb1) as Hlb. split.
    - unfold buffer_wf. rewrite poke_capacity. done.
    - assert (Hp : ptr_ b1 = (content b ++ l) ++ [space] ++ (name ++ r ++ drop (size_ b1) (ptr_ b1))).
      { rewrite <- (take_drop (size_ b1) (ptr_ b1)) at 1. change (take (size_ b1) (ptr_ b1)) with (content b1).
        rewrite Hl. by norm_app. }
      unfold content at 1. cbn [poke ptr_ size_]. rewrite Hp, <- length_app.
      rewrite (copy_at (content b ++ l) [space] (name ++ r ++ drop (size_ b1) (ptr_ b1))) by done.
      replace ((content b ++ l) ++ [sg] ++ name ++ r ++ drop (size_ b1) (ptr_ b1))
        with ((content b ++ l ++ (sg :: name) ++ r) ++ drop (size_ b1) (ptr_ b1)) by (by norm_app).
      apply take_app_length'. rewrite <- Hlb, Hl, !length_app. simpl. lia. }
  unfold pad_text in *. cbn [app length sign_text nm] in *. rewrite Nat.add_0_l in *.
  set (k := (width_ s - S (length name))%nat) in *.
  destruct (align_ s); try (by apply (Hgo [] (repeat (fill_ s) k))).
  - specialize (Hgo (repeat (fill_ s) k) []). rewrite repeat_length, !app_nil_r in Hgo. by apply Hgo.
  - specialize (Hgo (repeat (fill_ s) (k / 2)) (repeat (fill_ s) (k - k / 2))).
    rewrite repeat_length in Hgo. by apply Hgo.
Qed.

Lemma write_double_spec long v s b :
  buffer_wf b ->
  (align_ s = ALIGN_CENTER -> size_ b + width_ s + 1 <= capacity_ b)%nat ->
  match double_text long v s with
  | Some t => len t <= int_max ->
              exists b', write_double junk long v s b = Some (Ok b') /\ buffer_wf b' /\ content b' = content b ++ t
  | None => write_double junk long v s b = Some (Thrown (report_unknown_type junk (type_ s) !"double"))
  end.
Proof.
  intros Hb Hroom. unfold double_text, write_double. destruct (double_type (type_ s)) as [[t upper]|] eqn:Ht; [|done].
  apply double_type_conversion in Ht. set (v' := if isnegative v then _ else _).
  assert (Hneg : isnegative v' = false) by (unfold v'; destruct (isnegative v) eqn:E; [by apply negate_law|done]).
  destruct (isnotanumber v') eqn:Hnan;
    [destruct (write_special_spec (if upper then !"NAN" else !"nan") (float_sign v s) s b Hb) as (b' & -> & ?); eauto|].
  destruct (isinfinity v') eqn:Hinf;
    [destruct (write_special_spec (if upper then !"INF" else !"inf") (float_sign v s) s b Hb) as (b' & -> & ?); eauto|].
  assert (Hgo : forall b1 sign, buffer_wf b1 -> content b1 = content b -> size_ b1 = size_ b ->
    (size_ b1 + room sign <= capacity_ b1)%nat -> (align_ s = ALIGN_CENTER -> size_ b1 + width_ s <= capacity_ b1)%nat ->
    len (finite_text long t v' sign s) <= int_max ->
    exists b',
    (let '(format, width_for_sprintf) := float_format s (width_ s - room sign) long t in
     match sprintf_loop turns (size_ b + room sign) format width_for_sprintf (precision_ s) v' b1 with
     | None => None
     | Some (Thrown e) => Some (Thrown e)
     | Some (Ok (b, n)) => Some (place_number s sign (size_ b1 + room sign) n b)
     end) = Some (Ok b') /\ buffer_wf b' /\ content b' = content b ++ finite_text long t v' sign s).
  { intros b1 sign Hb1 Hc1 Hs1 Hcap1 Hr1 Hint1.
    destruct (write_finite long t v' sign s (content b) _ b1 Ht Hneg Hnan Hinf Hb1 Hc1 eq_refl Hcap1 Hr1 Hint1)
      as (b2 & n & b3 & Hloop & Hpl & Hw & Hc). rewrite <- Hs1.
    destruct (float_format s _ long t) as [fmt wf]. cbn [fst snd] in Hloop. rewrite Hloop, Hpl. eauto. }
  intros Hint. destruct (float_sign v s) as [sg|]; cbn [exc_bind].
  - destruct (reserve_total (size_ b + Nat.max (width_ s) 1) b Hb) as (b1 & Hr & Hb1 & Hc1 & Hs1 & Hcap1).
    rewrite Hr. cbn [exc_bind].
    destruct (Hgo b1 (Some sg) Hb1 Hc1 Hs1) as (b2 & Hb2 & Hw & Hc); [simpl; lia|lia|done|].
    exists b2. split; [|done]. rewrite Hs1 in Hb2. cbn [room] in Hb2. rewrite Nat.add_1_r in Hb2. exact Hb2.
  - destruct (Hgo b None Hb eq_refl eq_refl) as (b2 & Hb2 & Hw & Hc); [|intros; specialize (Hroom ltac:(done)); lia|done|].
    + cbn [room]. unfold buffer_wf in Hb. lia.
    + exists b2. split; [|done]. cbn [room] in Hb2. rewrite Nat.add_0_r, Nat.sub_0_r in Hb2. exact Hb2.
Qed.
End Numbers.

(** ** A library: numbers in tenths *)
#[export] Instance tenths : FloatLib Z := {
  isnegative v := v <? 0; isnotanumber _ := false; isinfinity v := 1000000 <? v; negate := Z.opp;
  snprintf fmt w _ v := pad_spaces (bool_decide ("-"%char ∈ fmt)) w (dec_nat (v / 10) ++ !"." ++ dec_nat (v mod 10));
  refuses _ _ _ _ _ := false; turns := 2
}.
#[export] Program Instance tenths_ok : FloatLibOk Z := {
  number_text _ _ _ _ v := dec_nat (v / 10) ++ !"." ++ dec_nat (v mod 10)
}.
Next Obligation. intros v. simpl. lia. Qed.
Next Obligation.
  intros hash prec long t v Hv _ _. simpl in *. assert (0 <= v / 10) as Hd by (apply Z.div_pos; lia).
  pose proof (dec_nat_nonempty (v / 10)). pose proof (dec_nat_digits _ Hd) as Hf.
  destruct (dec_nat (v / 10)) as [|c l]; [done|]. eexists _, _. split; [done|].
  apply Forall_cons in Hf as [Hc _]. intros Heq. rewrite Heq in Hc. by destruct Hc.
Qed.
Next Obligation.
  intros hash left star prec long t w p v Ht _ _ _. cbn [snprintf refuses tenths]. intros _. split; [|done]. f_equal.
  repeat (apply elem_of_cons in Ht as [-> | Ht]); [..|by apply elem_of_nil in Ht];
    destruct hash, left, star, prec, long; vm_compute; reflexivity.
Qed.
Next Obligation. simpl. lia. Qed.

Lemma memory_grow_total junk n b : exists b', @grow (MemoryBuffer junk) n b = Ok b'.
Proof. by eexists. Qed.

(** (C32) Writing a number with a fraction.  Over any C library whose
    [snprintf] keeps the standard's promise for the texts an [int] can report,
    [write_double] appends to a memory buffer the sign, the padding and the
    digits in the order of the alignment, NaN and infinities as names, for
    every specifier whose text is not longer than [INT_MAX]; a type character
    it does not know is reported.  Two provisos are the code's: left alignment
    pads a finite number with spaces, whatever the fill is ([finite_text] says
    so), and a centred number needs a buffer that has room for it already
    (otherwise its digits are lost, [centred_number_lost]). *)
Theorem write_double_renders junk {D} `{FloatLibOk D} long (v : D) s b :
  buffer_wf b ->
  (align_ s = ALIGN_CENTER -> size_ b + width_ s + 1 <= capacity_ b)%nat ->
  match double_text long v s with
  | Some t => len t <= int_max ->
              exists b', write_double (H := MemoryBuffer junk) junk long v s b = Some (Ok b')
              /\ buffer_wf b' /\ content b' = content b ++ t
  | None => write_double (H := MemoryBuffer junk) junk long v s b
            = Some (Thrown (report_unknown_type junk (type_ s) !"double"))
  end.
Proof. intros. by apply write_double_spec; [apply memory_grow_total|..]. Qed.
Lemma write_double_renders_witness :
  double_text false (-25) (Spec 10 "*" ALIGN_NUMERIC SIGN_FLAG (-1) nul) = Some !"-******2.5"
  /\ exists b', write_double (H := MemoryBuffer nul) nul false (-25) (Spec 10 "*" ALIGN_NUMERIC SIGN_FLAG (-1) nul)
                  (new_memory_buffer nul 4) = Some (Ok b')
     /\ buffer_wf b' /\ content b' = !"-******2.5".
Proof.
  split; [reflexivity|].
  exact (write_double_renders nul false (-25) (Spec 10 "*" ALIGN_NUMERIC SIGN_FLAG (-1) nul)
    (new_memory_buffer nul 4) ltac:(vm_compute; lia) ltac:(discriminate) ltac:(vm_compute; discriminate)).
Defined.

(** The proviso is needed: a buffer of twenty characters, a centred number of
    width 29, and the digits are gone. *)
Example centred_number_lost :
  option_map (exc_map content)
    (write_double (H := MemoryBuffer "?") "?" false 44 (Spec 29 "*" ALIGN_CENTER 0 (-1) nul)
       (new_memory_buffer "?" 20))
  = Some (Ok !"*************???*************").
Proof. vm_compute. reflexivity. Qed.
