(* ===== verification/FmtFormat.v ===== *)
(** * Format strings: arguments, the specifier parser and the formatter,
      [src/src/spdlog/fmt/bundled/format.h], [format.cc] and [ostream.h]

    A C string is the list of its characters: the end of the list is the
    terminating NUL (a NUL inside the list ends it as well), and a pointer
    into it is the rest of the list.  [BasicFormatter] keeps the index of the
    next argument, a map of the named arguments that is filled at the first
    use, and the buffer of its writer.  Only narrow characters are modelled;
    an argument of class type holds the text its [operator<<] prints. *)
From S2P Require Import Prelude Cxx Fmt FmtFacts FmtBuffer FmtDouble.

Open Scope Z_scope.

Definition uint_max : Z := 4294967295.
Definition FormatError (msg : bytes) : exn := runtime_error msg.

(** [*s] and [s + 1] *)
Definition peek (s : bytes) : ascii := match s with c :: _ => c | [] => nul end.
Definition next (s : bytes) : bytes := tail s.
Definition at_char (c : ascii) (s : bytes) : bool := bool_decide (peek s = c).
(** ['0' <= c && c <= '9'] *)
Definition is_digit (c : ascii) : bool := (48 <=? char_code c) && (char_code c <=? 57).

(** ** Arguments *)
Inductive Arg (D : Type) :=
| NONE
| NAMED_ARG (name : bytes) (a : Arg D)
| INT (z : Z)
| UINT (z : Z)
| LONG_LONG (z : Z)
| ULONG_LONG (z : Z)
| BOOL (b : bool)
| CHAR (z : Z)
| DOUBLE (d : D)
| LONG_DOUBLE (d : D)
| CSTRING (p : Z) (s : bytes)   (* the address, 0 for a null pointer, and the characters *)
| STRING (p : Z) (s : bytes)
| POINTER (p : Z)
| CUSTOM (text : bytes).
Arguments NONE {D}. Arguments NAMED_ARG {D}. Arguments INT {D}. Arguments UINT {D}.
Arguments LONG_LONG {D}. Arguments ULONG_LONG {D}. Arguments BOOL {D}. Arguments CHAR {D}.
Arguments DOUBLE {D}. Arguments LONG_DOUBLE {D}. Arguments CSTRING {D}. Arguments STRING {D}.
Arguments POINTER {D}. Arguments CUSTOM {D}.

Section Format.
Context {D : Type} `{FloatLib D} `{Grow}.
Variable junk : ascii.
Variable locale_sep : bytes.

(** [Value::Type], in the order of the enumeration. *)
Definition type_code (a : Arg D) : Z :=
  match a with
  | NONE => 0 | NAMED_ARG _ _ => 1 | INT _ => 2 | UINT _ => 3 | LONG_LONG _ => 4
  | ULONG_LONG _ => 5 | BOOL _ => 6 | CHAR _ => 7 | DOUBLE _ => 8 | LONG_DOUBLE _ => 9
  | CSTRING _ _ => 10 | STRING _ _ => 11 | POINTER _ => 13 | CUSTOM _ => 14
  end.
Definition LAST_INTEGER_TYPE : Z := 7.
Definition LAST_NUMERIC_TYPE : Z := 9.

(** [make_type(args...)]: four bits for each argument. *)
Fixpoint make_type (args : list (Arg D)) : Z :=
  match args with
  | [] => 0
  | first :: tail => Z.lor (type_code first) (u64 (Z.shiftl (make_type tail) 4))
  end.

(** [ArgList]: the packed types, and the values or, from 16 arguments on, the
    arguments with a [NONE] behind the last. *)
Record ArgList := MkArgList { types_ : Z; args_ : list (Arg D) }.
Definition MAX_PACKED_ARGS : Z := 16.
(** What the variadic functions build. *)
Definition arg_list (args : list (Arg D)) : ArgList :=
  MkArgList (make_type args)
    (if len args <? MAX_PACKED_ARGS then args else args ++ [NONE]).

Definition arg_type (l : ArgList) (index : Z) : Z :=
  let shift := index * 4 in
  Z.shiftr (Z.land (types_ l) (u64 (Z.shiftl 15 shift))) shift.
(** The value read as a member of type [t]; [types_] and the values are built
    from the same arguments, so they agree. *)
Definition read_as (t : Z) (v : Arg D) : Arg D := if type_code v =? t then v else NONE.
(** [for (i = MAX_PACKED_ARGS; i <= index; ++i) ...], from the argument [i] on. *)
Fixpoint walk (rest : list (Arg D)) (steps : Z) : Arg D :=
  match rest with
  | [] => NONE
  | a :: rest => if type_code a =? 0 then a else if steps =? 0 then a else walk rest (steps - 1)
  end.
(** [operator[]] *)
Definition arg_at (l : ArgList) (index : Z) : Arg D :=
  let use_values := arg_type l (MAX_PACKED_ARGS - 1) =? 0 in
  if index <? MAX_PACKED_ARGS then
    let t := arg_type l index in
    if t =? 0 then NONE else read_as t (nth (Z.to_nat index) (args_ l) NONE)
  else if use_values then NONE
  else walk (drop (Z.to_nat MAX_PACKED_ARGS) (args_ l)) (index - MAX_PACKED_ARGS).

(** ** Named arguments, [ArgMap] *)
Definition ArgMap := list (bytes * Arg D).
Definition push_named (a : Arg D) (m : ArgMap) : ArgMap :=
  match a with NAMED_ARG name v => m ++ [(name, v)] | _ => m end.
(** The loop over the packed types, from [i] on; [stop] is the return at a
    [NONE] when the values are packed. *)
Fixpoint init_packed (fuel : nat) (stop : bool) (l : ArgList) (i : Z) (m : ArgMap) : ArgMap :=
  match fuel with
  | O => m
  | S fuel =>
      let t := arg_type l i in
      if stop && (t =? 0) then m
      else init_packed fuel stop l (i + 1)
             (push_named (read_as t (nth (Z.to_nat i) (args_ l) NONE)) m)
  end.
(** The loop over the arguments from the seventeenth on. *)
Fixpoint init_rest (rest : list (Arg D)) (m : ArgMap) : ArgMap :=
  match rest with
  | [] => m
  | a :: rest => if type_code a =? 0 then m else init_rest rest (push_named a m)
  end.
Definition map_init (l : ArgList) (m : ArgMap) : ArgMap :=
  if bool_decide (m <> []) then m
  else
    let use_values := arg_type l (MAX_PACKED_ARGS - 1) =? 0 in
    let m := init_packed (Z.to_nat MAX_PACKED_ARGS) use_values l 0 m in
    if use_values then m else init_rest (drop (Z.to_nat MAX_PACKED_ARGS) (args_ l)) m.
Fixpoint map_find (name : bytes) (m : ArgMap) : option (Arg D) :=
  match m with
  | [] => None
  | (n, a) :: m => if decide (n = name) then Some a else map_find name m
  end.

(** ** The formatter *)
Record formatter := Formatter { next_arg_index_ : Z; map_ : ArgMap; buffer_ : buffer }.
Definition new_formatter (b : buffer) : formatter := Formatter 0 [] b.
Definition set_next (n : Z) (f : formatter) : formatter := Formatter n (map_ f) (buffer_ f).
Definition set_map (m : ArgMap) (f : formatter) : formatter := Formatter (next_arg_index_ f) m (buffer_ f).
Definition set_buffer (b : buffer) (f : formatter) : formatter := Formatter (next_arg_index_ f) (map_ f) b.

Variable args : ArgList.

(** An argument, the error that was set, and the formatter. *)
Definition do_get_arg (arg_index : Z) (f : formatter) : Arg D * option bytes * formatter :=
  match arg_at args arg_index with
  | NONE => (NONE, Some !"argument index out of range", f)
  | NAMED_ARG _ a => (a, None, f)
  | a => (a, None, f)
  end.
Definition next_arg (f : formatter) : Arg D * option bytes * formatter :=
  if 0 <=? next_arg_index_ f
  then do_get_arg (next_arg_index_ f) (set_next (next_arg_index_ f + 1) f)
  else (NONE, Some !"cannot switch from manual to automatic argument indexing", f).
Definition check_no_auto_index (f : formatter) : bool * option bytes * formatter :=
  if 0 <? next_arg_index_ f
  then (false, Some !"cannot switch from automatic to manual argument indexing", f)
  else (true, None, set_next (-1) f).
Definition get_arg (arg_index : Z) (f : formatter) : Arg D * option bytes * formatter :=
  match check_no_auto_index f with
  | (true, _, f) => do_get_arg arg_index f
  | (false, error, f) => (NONE, error, f)
  end.
Definition get_arg_by_name (arg_name : bytes) (f : formatter) : Arg D * option bytes * formatter :=
  match check_no_auto_index f with
  | (true, _, f) =>
      let f := set_map (map_init args (map_ f)) f in
      match map_find arg_name (map_ f) with
      | Some a => (a, None, f)
      | None => (NONE, Some !"argument not found", f)
      end
  | (false, error, f) => (NONE, error, f)
  end.

(** ** Parsing *)
Definition is_name_start (c : ascii) : bool :=
  ((97 <=? char_code c) && (char_code c <=? 122))
  || ((65 <=? char_code c) && (char_code c <=? 90)) || bool_decide (c = "_"%char).

(** The loop of [parse_nonnegative_int]. *)
Fixpoint parse_digit_loop (value : Z) (s : bytes) : Z * bytes :=
  match s with
  | c :: s' =>
      if is_digit c then
        let new_value := u32 (value * 10 + (char_code c - 48)) in
        if new_value <? value then (uint_max, s') else parse_digit_loop new_value s'
      else (value, s)
  | [] => (value, [])
  end.
Definition parse_nonnegative_int (s : bytes) : exc (Z * bytes) :=
  let '(value, s) := parse_digit_loop 0 s in
  if int_max <? value then Thrown (FormatError !"number is too big") else Ok (value, s).

Definition require_numeric_argument (arg : Arg D) (c : ascii) : exc unit :=
  if LAST_NUMERIC_TYPE <? type_code arg
  then Thrown (FormatError (!"format specifier '" ++ [c] ++ !"' requires numeric argument"))
  else Ok tt.
Definition check_sign (s : bytes) (arg : Arg D) : exc bytes :=
  let sign := peek s in
  let! _ := require_numeric_argument arg sign in
  match arg with
  | UINT _ | ULONG_LONG _ =>
      Thrown (FormatError (!"format specifier '" ++ [sign] ++ !"' requires signed argument"))
  | _ => Ok (next s)
  end.

Definition parse_arg_index (s : bytes) (f : formatter) : exc (Arg D * bytes * formatter) :=
  let! (r, s) := (if negb (is_digit (peek s)) then Ok (next_arg f, s)
                   else let! (n, s) := parse_nonnegative_int s in Ok (get_arg n f, s)) in
  match r with
  | (_, Some error, _) =>
      Thrown (FormatError (if negb (at_char "}" s) && negb (at_char ":" s) then !"invalid format string" else error))
  | (arg, None, f) => Ok (arg, s, f)
  end.

(** The characters of a name, and the rest. *)
Fixpoint scan_name (s : bytes) : bytes * bytes :=
  match s with
  | c :: s' =>
      if is_name_start c || is_digit c then let '(n, r) := scan_name s' in (c :: n, r) else ([], s)
  | [] => ([], [])
  end.
Definition parse_arg_name (s : bytes) (f : formatter) : exc (Arg D * bytes * formatter) :=
  let '(name, rest) := scan_name (next s) in
  match get_arg_by_name (peek s :: name) f with
  | (_, Some error, _) => Thrown (FormatError error)
  | (arg, None, f) => Ok (arg, rest, f)
  end.
(** [is_name_start( *s ) ? parse_arg_name(s) : parse_arg_index(s)] *)
Definition parse_arg (s : bytes) (f : formatter) : exc (Arg D * bytes * formatter) :=
  if is_name_start (peek s) then parse_arg_name s f else parse_arg_index s f.

(** *** The specifier *)
Definition set_align (a : Alignment) (sp : spec) : spec :=
  Spec (width_ sp) (fill_ sp) a (flags_ sp) (precision_ sp) (type_ sp).
Definition set_fill (c : ascii) (sp : spec) : spec :=
  Spec (width_ sp) c (align_ sp) (flags_ sp) (precision_ sp) (type_ sp).
Definition add_flags (fl : Z) (sp : spec) : spec :=
  Spec (width_ sp) (fill_ sp) (align_ sp) (Z.lor (flags_ sp) fl) (precision_ sp) (type_ sp).
Definition set_flags (fl : Z) (sp : spec) : spec :=
  Spec (width_ sp) (fill_ sp) (align_ sp) fl (precision_ sp) (type_ sp).
Definition set_width (w : Z) (sp : spec) : spec :=
  Spec (Z.to_nat w) (fill_ sp) (align_ sp) (flags_ sp) (precision_ sp) (type_ sp).
Definition set_precision (p : Z) (sp : spec) : spec :=
  Spec (width_ sp) (fill_ sp) (align_ sp) (flags_ sp) p (type_ sp).
Definition set_type (t : ascii) (sp : spec) : spec :=
  Spec (width_ sp) (fill_ sp) (align_ sp) (flags_ sp) (precision_ sp) t.

Definition align_of (c : ascii) : Alignment :=
  if decide (c = "<"%char) then ALIGN_LEFT
  else if decide (c = ">"%char) then ALIGN_RIGHT
  else if decide (c = "="%char) then ALIGN_NUMERIC
  else if decide (c = "^"%char) then ALIGN_CENTER
  else ALIGN_DEFAULT.
Definition numeric_align_ok (arg : Arg D) (a : Alignment) : exc unit :=
  if decide (a = ALIGN_NUMERIC) then require_numeric_argument arg "=" else Ok tt.
(** The fill and the alignment: an alignment character at [s + 1], or at [s]. *)
Definition parse_align (arg : Arg D) (s : bytes) (sp : spec) : exc (spec * bytes) :=
  let c := peek s in
  if decide (c = nul) then Ok (sp, s)
  else
    let a := align_of (peek (next s)) in
    if decide (a = ALIGN_DEFAULT) then
      let a := align_of c in
      if decide (a = ALIGN_DEFAULT) then Ok (set_align a sp, s)
      else let! _ := numeric_align_ok arg a in Ok (set_align a sp, next s)
    else if decide (c = "}"%char) then Ok (set_align a sp, s)
    else if decide (c = "{"%char) then Thrown (FormatError !"invalid fill character '{'")
    else let! _ := numeric_align_ok arg a in Ok (set_fill c (set_align a sp), next (next s)).

Definition parse_sign (arg : Arg D) (s : bytes) (sp : spec) : exc (spec * bytes) :=
  if at_char "+" s then let! s := check_sign s arg in Ok (add_flags (Z.lor SIGN_FLAG PLUS_FLAG) sp, s)
  else if at_char "-" s then let! s := check_sign s arg in Ok (add_flags MINUS_FLAG sp, s)
  else if at_char " " s then let! s := check_sign s arg in Ok (add_flags SIGN_FLAG sp, s)
  else Ok (sp, s).
Definition parse_hash (arg : Arg D) (s : bytes) (sp : spec) : exc (spec * bytes) :=
  if at_char "#" s then
    let! _ := require_numeric_argument arg "#" in Ok (add_flags HASH_FLAG sp, next s)
  else Ok (sp, s).
Definition parse_zero (arg : Arg D) (s : bytes) (sp : spec) : exc (spec * bytes) :=
  if at_char "0" s then
    let! _ := require_numeric_argument arg "0" in
    Ok (set_fill "0" (set_align ALIGN_NUMERIC sp), next s)
  else Ok (sp, s).

(** A width or precision given by an argument; [s] is behind the brace. *)
Definition dynamic_value (what : bytes) (arg : Arg D) : exc Z :=
  let! value :=
    match arg with
    | INT z | LONG_LONG z =>
        if z <? 0 then Thrown (FormatError (!"negative " ++ what)) else Ok z
    | UINT z | ULONG_LONG z => Ok z
    | _ => Thrown (FormatError (what ++ !" is not integer"))
    end in
  if int_max <? value then Thrown (FormatError !"number is too big") else Ok value.
Definition parse_dynamic (what : bytes) (s : bytes) (f : formatter) : exc (Z * bytes * formatter) :=
  let! (arg, s, f) := parse_arg s f in
  if negb (at_char "}" s) then Thrown (FormatError !"invalid format string")
  else let! value := dynamic_value what arg in Ok (value, next s, f).

Definition parse_width (s : bytes) (sp : spec) (f : formatter) : exc (spec * bytes * formatter) :=
  if is_digit (peek s) then
    let! (n, s) := parse_nonnegative_int s in Ok (set_width n sp, s, f)
  else if at_char "{" s then
    let! (n, s, f) := parse_dynamic !"width" (next s) f in Ok (set_width n sp, s, f)
  else Ok (sp, s, f).
Definition parse_precision (arg : Arg D) (s : bytes) (sp : spec) (f : formatter) :
    exc (spec * bytes * formatter) :=
  if at_char "." s then
    let s := next s in
    let! (n, s, f) :=
      (if is_digit (peek s) then let! (n, s) := parse_nonnegative_int s in Ok (n, s, f)
       else if at_char "{" s then parse_dynamic !"precision" (next s) f
       else Thrown (FormatError !"missing precision specifier")) in
    match arg with
    | POINTER _ =>
        Thrown (FormatError !"precision not allowed in pointer format specifier")
    | _ =>
        if type_code arg <=? LAST_INTEGER_TYPE
        then Thrown (FormatError !"precision not allowed in integer format specifier")
        else Ok (set_precision n sp, s, f)
    end
  else Ok (sp, s, f).
Definition parse_type (s : bytes) (sp : spec) : spec * bytes :=
  if negb (at_char "}" s) && negb (bool_decide (peek s = nul)) then (set_type (peek s) sp, next s)
  else (sp, s).

(** From the colon on. *)
Definition parse_spec (arg : Arg D) (s : bytes) (f : formatter) : exc (spec * bytes * formatter) :=
  let! (sp, s) := parse_align arg s new_spec in
  let! (sp, s) := parse_sign arg s sp in
  let! (sp, s) := parse_hash arg s sp in
  let! (sp, s) := parse_zero arg s sp in
  let! (sp, s, f) := parse_width s sp f in
  let! (sp, s, f) := parse_precision arg s sp f in
  let '(sp, s) := parse_type s sp in
  Ok (sp, s, f).

(** ** Writing an argument, [ArgFormatterBase] *)

(** A function of [Fmt] grows the buffer by an area and fills it: its text is
    what it makes of an empty buffer, with the growth of the buffer at hand. *)
Definition emit (t : exc bytes) (b : buffer) : exc buffer := let! t := t in append t b.

(** [write_str(StringValue, FormatSpec)]; [p] is the address. *)
Definition write_string (p : Z) (s : bytes) (sp : spec) (b : buffer) : exc buffer :=
  if negb (bool_decide (type_ sp = nul)) && negb (bool_decide (type_ sp = "s"%char))
  then Thrown (report_unknown_type junk (type_ sp) !"string")
  else if (length s =? 0)%nat && (p =? 0) then Thrown (FormatError !"string pointer is null")
  else
    let s := if (0 <=? precision_ sp) && (precision_ sp <? len s)
             then take (Z.to_nat (precision_ sp)) s else s in
    append (write_str junk s (width_ sp) (fill_ sp) (align_ sp) []) b.
Definition write_pointer (p : Z) (sp : spec) (b : buffer) : exc buffer :=
  emit (write_int junk (area_moves b) 64 locale_sep p (int_spec_of (set_type "x" (set_flags HASH_FLAG sp))) []) b.

Definition visit_any_int (w value : Z) (sp : spec) (b : buffer) : exc buffer :=
  emit (write_int junk (area_moves b) w locale_sep value (int_spec_of sp) []) b.
Definition visit_bool (value : bool) (sp : spec) (b : buffer) : exc buffer :=
  if negb (bool_decide (type_ sp = nul)) then visit_any_int 32 (Z.b2z value) sp b
  else write_string 1 (if value then !"true" else !"false") sp b.
Definition char_of (value : Z) : ascii := ascii_of_N (Z.to_N (wrap_u 8 value)).
(** The area of a character: the padding, then the character at [out]. *)
Definition char_area (value : Z) (sp : spec) : bytes :=
  let w := width_ sp in
  if (1 <? w)%nat then
    let area := repeat junk w in
    let '(area, out) :=
      match align_ sp with
      | ALIGN_RIGHT => (fill_n 0 (w - 1) (fill_ sp) area, (w - 1)%nat)
      | ALIGN_CENTER => fill_padding 0 w 1 (fill_ sp) area
      | _ => (fill_n 1 (w - 1) (fill_ sp) area, O)
      end in
    <[out := char_of value]> area
  else <[O := char_of value]> (repeat junk 1).
Definition visit_char (value : Z) (sp : spec) (b : buffer) : exc buffer :=
  if negb (bool_decide (type_ sp = nul)) && negb (bool_decide (type_ sp = "c"%char))
  then visit_any_int 32 value (add_flags CHAR_FLAG sp) b
  else if bool_decide (align_ sp = ALIGN_NUMERIC) || negb (flags_ sp =? 0)
  then Thrown (FormatError !"invalid format specifier for char")
  else append (char_area value sp) b.
Definition visit_cstring (p : Z) (s : bytes) (sp : spec) (b : buffer) : exc buffer :=
  if bool_decide (type_ sp = "p"%char) then write_pointer p sp b else write_string p s sp b.
Definition visit_pointer (p : Z) (sp : spec) (b : buffer) : exc buffer :=
  if negb (bool_decide (type_ sp = nul)) && negb (bool_decide (type_ sp = "p"%char))
  then Thrown (report_unknown_type junk (type_ sp) !"pointer")
  else write_pointer p sp b.
(** [ArgVisitor::visit]; only [write_double] has a loop, and [None] is one
    that has not ended.  [NONE] and [NAMED_ARG] are excluded by an assertion. *)
Definition visit (arg : Arg D) (sp : spec) (b : buffer) : option (exc buffer) :=
  match arg with
  | NONE | NAMED_ARG _ _ => Some (Ok b)
  | INT z => Some (visit_any_int 32 z sp b)
  | UINT z => Some (visit_any_int 32 z sp b)
  | LONG_LONG z => Some (visit_any_int 64 z sp b)
  | ULONG_LONG z => Some (visit_any_int 64 z sp b)
  | BOOL v => Some (visit_bool v sp b)
  | CHAR z => Some (visit_char z sp b)
  | DOUBLE d => write_double junk false d sp b
  | LONG_DOUBLE d => write_double junk true d sp b
  | CSTRING p s => Some (visit_cstring p s sp b)
  | STRING p s => Some (write_string p s sp b)
  | POINTER p => Some (visit_pointer p sp b)
  | CUSTOM text => Some (write_string 1 text new_spec b)
  end.

(** ** [format] *)

(** One argument; [s] is behind the argument's name or index.  The result is
    the rest of the format string. *)
Definition format_field (arg : Arg D) (s : bytes) (f : formatter) : option (exc (bytes * formatter)) :=
  match (if at_char ":" s then parse_spec arg (next s) f else Ok (new_spec, s, f)) with
  | Thrown e => Some (Thrown e)
  | Ok (sp, s, f) =>
      if negb (at_char "}" s) then Some (Thrown (FormatError !"missing '}' in format string"))
      else exc_map (fun b => (next s, set_buffer b f)) <$> visit arg sp (buffer_ f)
  end.
(** An argument of class type formats its text as a string, [ostream.h]: with
    a specifier at once, without one when it is visited. *)
Definition format_arg (arg : Arg D) (s : bytes) (f : formatter) : option (exc (bytes * formatter)) :=
  match arg with
  | CUSTOM text => format_field (if at_char ":" s then STRING 1 text else arg) s f
  | _ => format_field arg s f
  end.

(** [if (start != end) w << StringRef(start, end - start)] *)
Definition write_text (t : bytes) (f : formatter) : exc formatter :=
  if (length t =? 0)%nat then Ok f else let! b := append t (buffer_ f) in Ok (set_buffer b f).

(** The loop of [format]: [text] is what lies between [start] and [s]; [None]
    is a loop that has not ended. *)
Fixpoint format_loop (fuel : nat) (text s : bytes) (f : formatter) : option (exc formatter) :=
  match fuel with
  | O => None
  | S fuel =>
      let c := peek s in
      if decide (c = nul) then Some (write_text text f)
      else
        let s := next s in
        if negb (bool_decide (c = "{"%char)) && negb (bool_decide (c = "}"%char))
        then format_loop fuel (text ++ [c]) s f
        else if at_char c s then
          match write_text (text ++ [c]) f with
          | Thrown e => Some (Thrown e)
          | Ok f => format_loop fuel [] (next s) f
          end
        else if decide (c = "}"%char)
        then Some (Thrown (FormatError !"unmatched '}' in format string"))
        else
          match (let! f := write_text text f in parse_arg s f) with
          | Thrown e => Some (Thrown e)
          | Ok (arg, s, f) =>
              match format_arg arg s f with
              | None => None
              | Some (Thrown e) => Some (Thrown e)
              | Some (Ok (s, f)) => format_loop fuel [] s f
              end
          end
  end.
Definition format (format_str : bytes) (b : buffer) : option (exc buffer) :=
  option_map (exc_map buffer_) (format_loop (S (length format_str)) [] format_str (new_formatter b)).
End Format.

(** [BasicWriter::write(format, args)] *)
Definition writer_write {D} `{FloatLib D} `{Grow} (junk : ascii) (locale_sep : bytes)
    (format_str : bytes) (args : list (Arg D)) (b : buffer) : option (exc buffer) :=
  format junk locale_sep (arg_list args) format_str b.
