(* ===== verification/FmtArgsFacts.v ===== *)
(** * The arguments of a format string: what [ArgList] and [ArgMap] find

    The types of the first sixteen arguments travel in one 64-bit word.  The
    lemmas show that reading a type back gives the type of the argument, so a
    value is never read as a member of another type, and that [operator[]]
    and the map of names find the arguments the caller passed. *)
From S2P Require Import Prelude Cxx Fmt FmtFacts FmtBuffer FmtDouble FmtFormat.

Open Scope Z_scope.

Section Args.
Context {D : Type}.
Implicit Types args : list (Arg D).

(** An argument as the variadic functions build it. *)
Definition real (a : Arg D) : Prop := a <> NONE.

Lemma type_code_range (a : Arg D) : 0 <= type_code a < 16.
Proof. destruct a; simpl; lia. Qed.
Lemma type_code_none (a : Arg D) : type_code a = 0 <-> a = NONE.
Proof. by destruct a. Qed.
Lemma testbit_small z k : 0 <= z < 16 -> 4 <= k -> Z.testbit z k = false.
Proof.
  intros Hz Hk. destruct (decide (z = 0)) as [->|]; [apply Z.bits_0|].
  apply Z.bits_above_log2; [lia|]. eapply Z.lt_le_trans; [|exact Hk]. apply Z.log2_lt_pow2; simpl; lia.
Qed.

(** The [i]-th nibble of the word is the type of the [i]-th argument. *)
Lemma make_type_bit args k :
  0 <= k < 64 ->
  Z.testbit (make_type args) k = Z.testbit (type_code (nth (Z.to_nat (k / 4)) args NONE)) (k mod 4).
Proof.
  revert k; induction args as [|a args IH]; intros k Hk; cbn [make_type].
  { destruct (Z.to_nat _); by rewrite !Z.bits_0. }
  rewrite Z.lor_spec. unfold u64, wrap_u. rewrite Z.mod_pow2_bits_low by lia.
  destruct (decide (k < 4)).
  - rewrite (Z.shiftl_spec_low _ 4 k), orb_false_r, Z.div_small, Z.mod_small by lia. done.
  - rewrite testbit_small by (apply type_code_range || lia). rewrite Z.shiftl_spec, IH by lia. cbn [orb].
    replace (k - 4) with (k + (-1) * 4) by lia. rewrite Z.div_add, Z_mod_plus_full by lia.
    assert (1 <= k / 4) by (apply Z.div_le_lower_bound; lia).
    by replace (Z.to_nat (k / 4)) with (S (Z.to_nat (k / 4 + -1))) by lia.
Qed.
Lemma arg_type_spec args i :
  0 <= i < 16 -> arg_type (arg_list args) i = type_code (nth (Z.to_nat i) args NONE).
Proof.
  intros Hi. unfold arg_type. cbn [types_ arg_list]. apply Z.bits_inj'. intros j Hj.
  rewrite Z.shiftr_spec, Z.land_spec by done.
  assert (Hm : 0 <= Z.shiftl 15 (i * 4) <= size_max).
  { rewrite Z.shiftl_mul_pow2 by lia.
    assert (0 < 2 ^ (i * 4) <= 2 ^ 60) by (split; [apply Z.pow_pos_nonneg; lia|apply Z.pow_le_mono_r; lia]).
    change (2 ^ 60) with 1152921504606846976 in *. unfold size_max. lia. }
  rewrite u64_id, Z.shiftl_spec, Z.add_simpl_r by lia.
  destruct (decide (j < 4)).
  - replace (Z.testbit 15 j) with true by (assert (j = 0 \/ j = 1 \/ j = 2 \/ j = 3) as [-> | [-> | [-> | ->]]] by lia; done).
    rewrite andb_true_r, make_type_bit by lia.
    rewrite Z.div_add, Z.div_small, Z_mod_plus_full, Z.mod_small by lia. done.
  - rewrite (testbit_small 15), (testbit_small (type_code _)) by (apply type_code_range || lia). apply andb_false_r.
Qed.
Lemma read_as_self (a : Arg D) : read_as (type_code a) a = a.
Proof. unfold read_as. by rewrite Z.eqb_refl. Qed.

Lemma nth_real args i : Forall real args -> (i < length args)%nat -> type_code (nth i args NONE) <> 0.
Proof.
  intros Hr Hi Hn. apply type_code_none in Hn. revert Hn. apply (proj1 (Forall_nth real NONE args)); done.
Qed.
(** The values are packed when there are fewer than sixteen. *)
Lemma use_values_spec args :
  Forall real args -> (arg_type (arg_list args) (MAX_PACKED_ARGS - 1) =? 0) = (len args <? MAX_PACKED_ARGS).
Proof.
  intros Hr. unfold MAX_PACKED_ARGS. rewrite arg_type_spec by lia. unfold len.
  destruct (Z.ltb_spec (Z.of_nat (length args)) 16).
  - rewrite nth_overflow by lia. done.
  - apply Z.eqb_neq, nth_real; [done|]. lia.
Qed.
Lemma walk_spec args steps :
  Forall real args -> 0 <= steps -> walk (args ++ [NONE]) steps = nth (Z.to_nat steps) args NONE.
Proof.
  intros Hr; revert steps; induction Hr as [|a args Ha _ IH]; intros steps Hs; cbn [app walk].
  { destruct (Z.to_nat steps); done. }
  replace (type_code a =? 0) with false by (symmetry; apply Z.eqb_neq; rewrite type_code_none; done).
  destruct (Z.eqb_spec steps 0) as [->|]; [done|]. rewrite IH by lia.
  by replace (Z.to_nat steps) with (S (Z.to_nat (steps - 1))) by lia.
Qed.
Lemma args_prefix args i :
  (i < length args)%nat -> nth i (args_ (arg_list args)) NONE = nth i args NONE.
Proof. intros. cbn [args_ arg_list]. case_match; [done|]. by rewrite app_nth1. Qed.

Lemma arg_at_spec args i :
  Forall real args -> 0 <= i -> arg_at (arg_list args) i = nth (Z.to_nat i) args NONE.
Proof.
  intros Hr Hi. unfold arg_at. rewrite use_values_spec by done. unfold MAX_PACKED_ARGS.
  destruct (Z.ltb_spec i 16).
  - rewrite arg_type_spec by lia. destruct (decide (Z.to_nat i < length args)%nat) as [Hlt|Hge].
    + rewrite args_prefix, read_as_self by done. destruct (Z.eqb_spec (type_code (nth (Z.to_nat i) args NONE)) 0); [|done].
      by destruct (nth_real args (Z.to_nat i) Hr Hlt).
    + by rewrite (nth_overflow args) by lia.
  - destruct (Z.ltb_spec (len args) 16) as [Hl|Hl]; unfold len in Hl.
    + by rewrite nth_overflow by lia.
    + cbn [args_ arg_list]. unfold len, MAX_PACKED_ARGS. destruct (Z.ltb_spec (Z.of_nat (length args)) 16); [lia|].
      change (Z.to_nat 16) with 16%nat. rewrite drop_app_le by lia.
      rewrite walk_spec by (try apply Forall_drop; done || lia).
      rewrite !nth_lookup, lookup_drop. do 2 f_equal. lia.
Qed.

(** *** Names *)

(** The named arguments, in order. *)
Definition named args : ArgMap := foldr (fun a m => match a with NAMED_ARG n v => (n, v) :: m | _ => m end) [] args.

Lemma named_app l1 l2 : named (l1 ++ l2) = named l1 ++ named l2.
Proof. unfold named. induction l1 as [|[] l1 IH]; simpl; rewrite ?IH; done. Qed.
Lemma push_named_spec (a : Arg D) m : push_named a m = m ++ named [a].
Proof. destruct a; simpl; by rewrite ?app_nil_r. Qed.
Lemma init_packed_spec args stop fuel i m :
  Forall real args -> (i + fuel <= 16)%nat -> (fuel <= length args - i \/ stop = true /\ length args - i < fuel)%nat ->
  init_packed fuel stop (arg_list args) (Z.of_nat i) m = m ++ named (take fuel (drop i args)).
Proof.
  intros Hr. revert i m; induction fuel as [|fuel IH]; intros i m Hi Hf; cbn [init_packed].
  { by rewrite take_0, app_nil_r. }
  rewrite arg_type_spec, Nat2Z.id by lia.
  destruct (decide (i < length args)%nat) as [Hl|Hl].
  - rewrite args_prefix, read_as_self by done.
    destruct (Z.eqb_spec (type_code (nth i args NONE)) 0) as [E|_]; [by destruct (nth_real args i Hr Hl)|].
    rewrite andb_false_r. replace (Z.of_nat i + 1) with (Z.of_nat (S i)) by lia.
    rewrite IH; [|lia|destruct Hf as [|[-> ?]]; [left; lia|right; split; [done|lia]]].
    rewrite push_named_spec, <- app_assoc, <- named_app. do 2 f_equal.
    rewrite nth_lookup. destruct (lookup_lt_is_Some_2 args i Hl) as [a Ha]. rewrite Ha.
    by rewrite (drop_S args a i Ha).
  - destruct Hf as [|[-> _]]; [lia|]. rewrite nth_overflow, drop_ge by lia. simpl. by rewrite app_nil_r.
Qed.
Lemma init_rest_spec args m :
  Forall real args -> init_rest (args ++ [NONE]) m = m ++ named args.
Proof.
  intros Hr; revert m; induction Hr as [|a args Ha _ IH]; intros m; cbn [app init_rest]; [by rewrite app_nil_r|].
  replace (type_code a =? 0) with false by (symmetry; apply Z.eqb_neq; rewrite type_code_none; done).
  by rewrite IH, push_named_spec, <- app_assoc, <- named_app.
Qed.
(** The map holds the named arguments from its first use on. *)
Lemma map_init_spec args m :
  Forall real args -> m = [] \/ m = named args -> map_init (arg_list args) m = named args.
Proof.
  intros Hr Hm. unfold map_init. case_bool_decide as E; [by destruct Hm|].
  assert (m = []) as -> by (destruct m; [done|by destruct E]). clear Hm E.
  rewrite use_values_spec by done. unfold MAX_PACKED_ARGS, len. change (Z.to_nat 16) with 16%nat.
  destruct (Z.ltb_spec (Z.of_nat (length args)) 16).
  - rewrite (init_packed_spec args true 16 0); [|done|lia|right; split; [done|lia]]. rewrite drop_0, take_ge by lia. done.
  - rewrite (init_packed_spec args false 16 0) by (done || lia). cbn [args_ arg_list]. unfold len, MAX_PACKED_ARGS.
    destruct (Z.ltb_spec (Z.of_nat (length args)) 16); [lia|]. rewrite drop_app_le by lia.
    rewrite init_rest_spec by (by apply Forall_drop). rewrite drop_0, app_nil_l, <- named_app, take_drop. done.
Qed.
End Args.

(** Whatever arguments a formatting call is given (any number),
    the packed word gives every one of the first sixteen its own type,
    [operator[]] answers the argument at the index, or [NONE] behind the last,
    and a name finds the first argument with that name. *)
Theorem arg_list_typed {D} (args : list (Arg D)) i name :
  Forall real args -> 0 <= i ->
  (i < 16 -> arg_type (arg_list args) i = type_code (nth (Z.to_nat i) args NONE))
  /\ arg_at (arg_list args) i = nth (Z.to_nat i) args NONE
  /\ map_find name (map_init (arg_list args) []) = map_find name (named args).
Proof.
  intros Hr Hi. split_and!.
  - intros. by apply arg_type_spec.
  - by apply arg_at_spec.
  - by rewrite map_init_spec by auto.
Qed.
Lemma arg_list_typed_witness :
  let args : list (Arg unit) := repeat (INT 7) 15 ++ [STRING 1 !"x"; NAMED_ARG !"n" (BOOL true); CHAR 65] in
  types_ (arg_list args) = 0xB222222222222222
  /\ arg_at (arg_list args) 17 = CHAR 65
  /\ map_find !"n" (map_init (arg_list args) []) = Some (BOOL true).
Proof.
  intros args. assert (Hr : Forall real args) by (repeat constructor; discriminate).
  destruct (arg_list_typed args 17 !"n" Hr ltac:(vm_compute; discriminate)) as (_ & H1 & H2).
  split; [reflexivity|]. split; [rewrite H1; reflexivity|rewrite H2; reflexivity].
Defined.
