(* ===== verification/FmtFormatFacts.v ===== *)
(** * What the formatter makes of a format string

    Termination: every way through the parser consumes the format string and
    the loop of [format] ends.  The later files ([FmtTemplate]) state what it
    prints. *)
From S2P Require Import Prelude Cxx Fmt FmtFacts FmtBuffer FmtDouble FmtDoubleFacts FmtFormat FmtArgsFacts.

Open Scope Z_scope.

Section Termination.
Context {D : Type} `{FloatLib D} `{Grow}.
Variable junk : ascii.
Variable locale_sep : bytes.
Variable args : @ArgList D.
Implicit Types f : @formatter D.

(** ** The numbers whose loop ends

    The loop around [snprintf] ends when [snprintf] does not fail, or when the
    memory of the buffer has a limit, at the latest when that is reached; the
    fuel must be enough for it. *)
Fixpoint number_of (a : Arg D) : option D :=
  match a with DOUBLE v | LONG_DOUBLE v => Some v | NAMED_ARG _ a => number_of a | _ => None end.
Definition patient (v : D) : Prop :=
  (2 <= turns /\ forall size fmt w p, reports_error size fmt w p v = false)%nat
  \/ exists limit, (forall n b, limit < n -> exists e, grow n b = Thrown e)%nat /\ (limit + 2 <= turns)%nat.
Definition patient_arg (a : Arg D) : Prop :=
  forall v, number_of a = Some v -> patient (if isnegative v then negate v else v).
Hypothesis args_patient : Forall patient_arg (args_ args).

(** Every argument that is found is one of them. *)
Definition map_ok f : Prop := Forall (fun na => patient_arg na.2) (map_ f).
Lemma patient_none : patient_arg NONE. Proof. done. Qed.
Lemma patient_named n a : patient_arg (NAMED_ARG n a) -> patient_arg a. Proof. done. Qed.
Lemma patient_nth n l : Forall patient_arg l -> patient_arg (nth n l NONE).
Proof.
  intros Hl. destruct (decide (n < length l)%nat); [|by rewrite nth_overflow by lia].
  by apply (proj1 (Forall_nth patient_arg NONE l)).
Qed.
Lemma patient_read_as t a : patient_arg a -> patient_arg (read_as t a).
Proof. unfold read_as. by case_match. Qed.
Lemma patient_walk l n : Forall patient_arg l -> patient_arg (walk l n).
Proof.
  intros Hl. revert n; induction Hl as [|a l Ha _ IH]; intros n; cbn [walk]; [done|].
  destruct (_ =? _); [done|]. by destruct (n =? 0).
Qed.
Lemma patient_arg_at n : patient_arg (arg_at args n).
Proof.
  unfold arg_at. repeat case_match; try done; auto using patient_read_as, patient_nth, patient_walk, Forall_drop.
Qed.
Lemma push_named_ok a m :
  patient_arg a -> Forall (fun na => patient_arg na.2) m -> Forall (fun na => patient_arg na.2) (push_named a m).
Proof. intros Ha Hm. destruct a; try done. apply Forall_app. split; [done|]. by apply Forall_singleton. Qed.
Lemma map_init_ok m :
  Forall (fun na => patient_arg na.2) m -> Forall (fun na => patient_arg na.2) (map_init args m).
Proof.
  assert (Hrest : forall l m, Forall patient_arg l -> Forall (fun na => patient_arg na.2) m ->
    Forall (fun na => patient_arg na.2) (init_rest l m)).
  { intros l m0 Hl; revert m0; induction Hl as [|a l Ha _ IH]; intros m0 Hm; cbn [init_rest]; [done|].
    destruct (_ =? _); [done|]. apply IH. by apply push_named_ok. }
  assert (Hpack : forall fuel stop i m, Forall (fun na => patient_arg na.2) m ->
    Forall (fun na => patient_arg na.2) (init_packed fuel stop args i m)).
  { induction fuel as [|fuel IH]; intros stop i m0 Hm; cbn [init_packed]; [done|]. destruct (_ && _); [done|].
    apply IH, push_named_ok; [|done]. by apply patient_read_as, patient_nth. }
  intros Hm. unfold map_init. case_bool_decide; [done|]. destruct (_ =? _); auto using Forall_drop.
Qed.
Lemma map_find_ok n m a : Forall (fun na => patient_arg na.2) m -> map_find n m = Some a -> patient_arg a.
Proof.
  intros Hm. induction Hm as [|[n' a'] m Ha _ IH]; cbn [map_find]; [done|].
  destruct (decide _); [by intros [= <-]|done].
Qed.

(** ** The parser only moves forward, and does not write *)
Lemma parse_digit_loop_len v s : (length (parse_digit_loop v s).2 <= length s)%nat.
Proof.
  revert v; induction s as [|c s IH]; intros v; simpl; [done|].
  destruct (is_digit c); simpl; [|done]. destruct (_ <? v); simpl; [lia|].
  specialize (IH (u32 (v * 10 + (char_code c - 48)))). lia.
Qed.
Lemma parse_int_len s n s' : parse_nonnegative_int s = Ok (n, s') -> (length s' <= length s)%nat.
Proof.
  unfold parse_nonnegative_int. pose proof (parse_digit_loop_len 0 s). intros Hp. exc_inv. by simplify_eq/=.
Qed.
Lemma scan_name_len s : (length (scan_name s).2 <= length s)%nat.
Proof.
  induction s as [|c s IH]; simpl; [done|]. destruct (_ || _); [|done].
  destruct (scan_name s); simpl in *. lia.
Qed.
Lemma next_len s : length (next s) = pred (length s).
Proof. by destruct s. Qed.

(** Looking up an argument leaves the buffer alone. *)
Definition same f f' : Prop := buffer_ f' = buffer_ f /\ (map_ok f -> map_ok f').
Lemma same_refl f : same f f. Proof. done. Qed.
Lemma same_trans f1 f2 f3 : same f1 f2 -> same f2 f3 -> same f1 f3.
Proof. intros [H1 H2] [H3 H4]. split; [congruence|auto]. Qed.
Definition fetched f (r : Arg D * option bytes * formatter) : Prop :=
  same f r.2 /\ (map_ok f -> patient_arg r.1.1).
Lemma do_get_arg_fetched n f : fetched f (do_get_arg args n f).
Proof.
  unfold do_get_arg. pose proof (patient_arg_at n) as Ha. by destruct (arg_at args n).
Qed.
Lemma get_arg_fetched n f : fetched f (get_arg args n f).
Proof.
  unfold get_arg, check_no_auto_index. destruct (0 <? next_arg_index_ f); [done|].
  apply (do_get_arg_fetched n (set_next (-1) f)).
Qed.
Lemma next_arg_fetched f : fetched f (next_arg args f).
Proof.
  unfold next_arg. destruct (0 <=? next_arg_index_ f); [|done].
  apply (do_get_arg_fetched _ (set_next (next_arg_index_ f + 1) f)).
Qed.
Lemma get_name_fetched n f : fetched f (get_arg_by_name args n f).
Proof.
  unfold get_arg_by_name, check_no_auto_index. destruct (0 <? next_arg_index_ f); [done|].
  cbn [map_ set_next set_map]. pose proof (map_init_ok (map_ f)) as Hi.
  destruct (map_find _ _) as [a|] eqn:Hf; split; try done.
  intros Hm. eapply map_find_ok; [|exact Hf]. by apply Hi.
Qed.

(** A parsing step: what is left is no longer than before, and the buffer is
    the same. *)
Definition forward {A} (s : bytes) f (m : exc (A * bytes * @formatter D)) : Prop :=
  forall a s' f', m = Ok (a, s', f') -> (length s' <= length s)%nat /\ same f f'.
Definition forward_pure {A} (s : bytes) (m : exc (A * bytes)) : Prop :=
  forall a s', m = Ok (a, s') -> (length s' <= length s)%nat.

Lemma forward_bind {A B} s f (m : exc (A * bytes * formatter)) (k : A -> bytes -> formatter -> exc (B * bytes * formatter)) :
  forward s f m -> (forall a s' f', forward s' f' (k a s' f')) ->
  forward s f (let! (a, s', f') := m in k a s' f').
Proof.
  intros Hm Hk b s2 f2 H2. apply exc_bind_ok in H2 as ([[a s1] f1] & H1 & H2).
  apply Hm in H1 as [? ?]. apply Hk in H2 as [? ?]. split; [lia|by eapply same_trans].
Qed.
Lemma forward_bind_pure {A B} s f (m : exc (A * bytes)) (k : A -> bytes -> exc (B * bytes * formatter)) :
  forward_pure s m -> (forall a s', forward s' f (k a s')) ->
  forward s f (let! (a, s') := m in k a s').
Proof.
  intros Hm Hk b s2 f2 H2. apply exc_bind_ok in H2 as ([a s1] & H1 & H2).
  apply Hm in H1. apply Hk in H2 as [? ?]. split; [lia|done].
Qed.
Lemma forward_guard {A B} s f (m : exc A) (k : A -> exc (B * bytes * formatter)) :
  (forall a, forward s f (k a)) -> forward s f (exc_bind m k).
Proof. intros Hk. destruct m; [apply Hk|done]. Qed.
Lemma forward_pure_guard {A B} s (m : exc A) (k : A -> exc (B * bytes)) :
  (forall a, forward_pure s (k a)) -> forward_pure s (exc_bind m k).
Proof. intros Hk. destruct m; [apply Hk|done]. Qed.
Lemma forward_next {A} s f (a : A) : forward s f (Ok (a, next s, f)).
Proof. intros ? ? ? [= <- <- <-]. rewrite next_len. split; [lia|done]. Qed.
Lemma forward_here {A} s f (a : A) : forward s f (Ok (a, s, f)).
Proof. by intros ? ? ? [= <- <- <-]. Qed.
Lemma forward_thrown {A} s f e : forward s f (@Thrown (A * bytes * formatter) e).
Proof. done. Qed.
Lemma forward_drop {A} s f (m : exc (A * bytes * formatter)) : forward (next s) f m -> forward s f m.
Proof. intros Hm ? ? ? [? ?]%Hm. rewrite next_len in *. split; [lia|done]. Qed.
Lemma forward_int s : forward_pure s (parse_nonnegative_int s).
Proof. intros ? ?. apply parse_int_len. Qed.

Lemma parse_arg_found s f a s' f' :
  parse_arg args s f = Ok (a, s', f') ->
  (length s' <= length s)%nat /\ same f f' /\ (map_ok f -> patient_arg a).
Proof.
  unfold parse_arg, parse_arg_name, parse_arg_index. intros Hp. destruct (is_name_start _).
  - pose proof (scan_name_len (next s)) as Hl. rewrite next_len in Hl. destruct (scan_name (next s)) as [n r].
    pose proof (get_name_fetched (peek s :: n) f) as [??]. destruct (get_arg_by_name _ _ _) as [[? []] ?]; simplify_eq/=.
    split; [lia|done].
  - destruct (is_digit (peek s)); cbn [negb] in Hp.
    + destruct (parse_nonnegative_int s) as [[n r]|] eqn:Hn; [|done]. apply parse_int_len in Hn. cbn [exc_bind] in Hp.
      pose proof (get_arg_fetched n f) as [??]. by destruct (get_arg args n f) as [[? []] ?]; simplify_eq/=.
    + pose proof (next_arg_fetched f) as [??]. cbn [exc_bind] in Hp.
      by destruct (next_arg args f) as [[? []] ?]; simplify_eq/=.
Qed.
Lemma forward_arg s f : forward s f (parse_arg args s f).
Proof. intros a s' f' (? & ? & _)%parse_arg_found. done. Qed.
Lemma forward_dynamic w s f : forward s f (parse_dynamic args w s f).
Proof.
  apply forward_bind; [apply forward_arg|]. intros a s' f'. destruct (negb _); [done|].
  apply forward_guard. intros. apply forward_next.
Qed.
Lemma forward_width s sp f : forward s f (parse_width args s sp f).
Proof.
  unfold parse_width. destruct (is_digit _); [|destruct (at_char _ _)].
  - apply forward_bind_pure; [apply forward_int|]. intros. apply forward_here.
  - apply forward_drop, forward_bind; [apply forward_dynamic|]. intros. apply forward_here.
  - apply forward_here.
Qed.
Lemma forward_precision a s sp f : forward s f (parse_precision args a s sp f).
Proof.
  unfold parse_precision. destruct (at_char _ _); [|apply forward_here]. apply forward_drop, forward_bind.
  - destruct (is_digit _); [|destruct (at_char _ _)].
    + apply forward_bind_pure; [apply forward_int|]. intros. apply forward_here.
    + apply forward_drop, forward_dynamic.
    + done.
  - intros n s' f'. destruct a; try done; destruct (_ <=? _); done || apply forward_here.
Qed.
Lemma forward_align (a : Arg D) s sp : forward_pure s (parse_align a s sp).
Proof.
  unfold parse_align. intros sp' s' Hp. pose proof (next_len s). pose proof (next_len (next s)).
  repeat case_match; exc_inv; simplify_eq; lia.
Qed.
Lemma check_sign_len s (a : Arg D) s' : check_sign s a = Ok s' -> (length s' <= length s)%nat.
Proof. unfold check_sign. intros. pose proof (next_len s). exc_inv; repeat case_match; simplify_eq; lia. Qed.
Lemma forward_sign (a : Arg D) s sp : forward_pure s (parse_sign a s sp).
Proof. unfold parse_sign. intros sp' s' Hp. exc_inv; simplify_eq; eauto using check_sign_len. Qed.
Lemma forward_hash (a : Arg D) s sp : forward_pure s (parse_hash a s sp).
Proof. unfold parse_hash. intros sp' s' Hp. pose proof (next_len s). exc_inv; simplify_eq; lia. Qed.
Lemma forward_zero (a : Arg D) s sp : forward_pure s (parse_zero a s sp).
Proof. unfold parse_zero. intros sp' s' Hp. pose proof (next_len s). exc_inv; simplify_eq; lia. Qed.
Lemma forward_spec a s f : forward s f (parse_spec args a s f).
Proof.
  unfold parse_spec.
  apply forward_bind_pure; [apply forward_align|]. intros. apply forward_bind_pure; [apply forward_sign|].
  intros. apply forward_bind_pure; [apply forward_hash|]. intros. apply forward_bind_pure; [apply forward_zero|].
  intros. apply forward_bind; [apply forward_width|]. intros. apply forward_bind; [apply forward_precision|].
  intros ? s1 f1. unfold parse_type. destruct (_ && _); [apply forward_next|apply forward_here].
Qed.

(** ** Writing keeps the buffer well formed *)
Definition keeps_wf (m : exc buffer) : Prop := forall b', m = Ok b' -> buffer_wf b'.
Lemma keeps_append t b : buffer_wf b -> keeps_wf (append t b).
Proof. intros Hb b' Ha. by apply append_spec in Ha as [? _]. Qed.
Lemma keeps_emit t b : buffer_wf b -> keeps_wf (emit t b).
Proof. intros Hb. destruct t; [by apply keeps_append|done]. Qed.
Lemma poke_wf p t b : buffer_wf b -> buffer_wf (poke p t b).
Proof. unfold buffer_wf, capacity_, poke, copy. cbn [ptr_ size_]. by rewrite length_inserts. Qed.
Lemma keeps_string p t sp b : buffer_wf b -> keeps_wf (write_string junk p t sp b).
Proof. intros Hb. unfold write_string. repeat case_match; done || by apply keeps_append. Qed.
Lemma keeps_any_int w z sp b : buffer_wf b -> keeps_wf (visit_any_int junk locale_sep w z sp b).
Proof. apply keeps_emit. Qed.
Lemma keeps_pointer p sp b : buffer_wf b -> keeps_wf (write_pointer junk locale_sep p sp b).
Proof. apply keeps_emit. Qed.

Lemma format_float_wf start size fmt w prec (v : D) b :
  let r := format_float start size fmt w prec v b in
  (buffer_wf b -> buffer_wf r.1) /\ capacity_ r.1 = capacity_ b
  /\ r.2 = (if reports_error size fmt w prec v then -1 else len (snprintf fmt w prec v)).
Proof.
  unfold format_float. destruct (reports_error _ _ _ _ _); [done|]. destruct size; [done|]. cbn [fst snd]. split_and!; [apply poke_wf| |done].
  unfold capacity_, poke, copy. cbn [ptr_]. by rewrite length_inserts.
Qed.
Definition keeps_wf2 (m : exc (buffer * nat)) : Prop := forall b' n, m = Ok (b', n) -> buffer_wf b'.
Lemma keeps_wf2_ok b n : buffer_wf b -> keeps_wf2 (Ok (b, n)).
Proof. by intros ? ? ? [= <-]. Qed.
(** One turn ends the loop, or asks for more room than there is. *)
Lemma sprintf_turn fuel offset fmt w prec (v : D) b :
  buffer_wf b ->
  (exists r, sprintf_loop (S fuel) offset fmt w prec v b = Some r /\ keeps_wf2 r)
  \/ exists b', buffer_wf b' /\ (capacity_ b < capacity_ b')%nat
     /\ (exists n b0, grow n b0 = Ok b' /\ capacity_ b < n)%nat
     /\ (reports_error (capacity_ b - offset) fmt w prec v = false -> offset + length (snprintf fmt w prec v) < capacity_ b')%nat
     /\ sprintf_loop (S fuel) offset fmt w prec v b = sprintf_loop fuel offset fmt w prec v b'.
Proof.
  intros Hb. cbn [sprintf_loop].
  destruct (format_float_wf offset (capacity_ b - offset) fmt w prec v b) as (Hb1 & Hc1 & Hn1).
  destruct (format_float _ _ _ _ _ _ b) as [b1 n1]. cbn [fst snd] in *. specialize (Hb1 Hb).
  destruct (_ && _) eqn:Hfit; [left; eauto using keeps_wf2_ok|].
  set (asked := if 0 <=? n1 then _ else _).
  assert (Hask : (capacity_ b1 < asked)%nat).
  { unfold asked. destruct (0 <=? n1); [|lia]. apply Nat.ltb_ge in Hfit. lia. }
  assert (Henough : reports_error (capacity_ b - offset) fmt w prec v = false -> (offset + length (snprintf fmt w prec v) < asked)%nat).
  { intros Hno. rewrite Hno in Hn1. unfold asked. rewrite Hn1, (proj1 (len_answer _)), (proj2 (len_answer _)). lia. }
  clearbody asked. destruct (reserve asked b1) as [b2|e] eqn:Hr; [|left; eexists; by split].
  right. exists b2. unfold reserve, ensure in Hr. destruct (Nat.ltb_spec (capacity_ b1) asked); [|lia].
  pose proof (grow_law asked b1 b2 Hb1 Hr) as (Hcon & Hsz & Hn & Hle). unfold buffer_wf in *.
  split_and!; [lia|lia|exists asked, b1; split; [done|lia]|intros; specialize (Henough ltac:(done)); lia|done].
Qed.
Lemma sprintf_loop_limited limit fuel offset fmt w prec (v : D) b :
  (forall n b, limit < n -> exists e, grow n b = Thrown e)%nat -> (limit - capacity_ b + 1 < fuel)%nat ->
  buffer_wf b -> exists r, sprintf_loop fuel offset fmt w prec v b = Some r /\ keeps_wf2 r.
Proof.
  intros Hlim. revert b; induction fuel as [|fuel IH]; intros b Hfu Hb; [lia|].
  destruct (sprintf_turn fuel offset fmt w prec v b Hb) as [Hend|(b' & Hb' & Hcap & (n & b0 & Hg & Hn) & _ & ->)]; [done|].
  destruct (decide (limit < n)%nat) as [Hl|Hl]; [by destruct (Hlim n b0 Hl) as [e He]; rewrite He in Hg|].
  apply IH; [lia|done].
Qed.
Lemma sprintf_loop_ends offset fmt w prec (v : D) b :
  patient v -> buffer_wf b -> exists r, sprintf_loop turns offset fmt w prec v b = Some r /\ keeps_wf2 r.
Proof.
  intros [[Ht Hno]|(limit & Hlim & Ht)] Hb; [|by apply (sprintf_loop_limited limit); [done|lia|]].
  destruct turns as [|[|fuel]]; [lia..|].
  destruct (sprintf_turn (S fuel) offset fmt w prec v b Hb) as [Hend|(b1 & Hb1 & _ & _ & Hroom & ->)]; [done|].
  specialize (Hroom (Hno _ _ _ _)). cbn [sprintf_loop].
  destruct (format_float_wf offset (capacity_ b1 - offset) fmt w prec v b1) as (Hb2 & Hc2 & Hn2).
  destruct (format_float _ _ _ _ _ _ b1) as [b2 n2]. cbn [fst snd] in *. rewrite Hno in Hn2. subst n2.
  rewrite (proj1 (len_answer _)), (proj2 (len_answer _)), (proj2 (Nat.ltb_lt _ _)) by lia. cbn [andb].
  eexists; split; [done|]. apply keeps_wf2_ok. by apply Hb2.
Qed.
Lemma fill_spaces_wf fuel c p b : buffer_wf b -> buffer_wf (fill_spaces fuel c p b).1.
Proof.
  revert p b; induction fuel as [|fuel IH]; intros p b Hb; simpl; [done|].
  destruct (decide _); [|done]. by apply IH, poke_wf.
Qed.
Lemma grow_area_wf n b b' p : buffer_wf b -> grow_area n b = Ok (b', p) -> buffer_wf b'.
Proof.
  unfold grow_area. intros Hb Hg. exc_inv. simplify_eq. apply resize_spec in H1 as [? _]; [done|done|lia].
Qed.
Lemma keeps_fill s sign offset n b : buffer_wf b -> keeps_wf (place_fill s sign offset n b).
Proof.
  intros Hb b'. unfold place_fill. destruct (_ && _).
  - intros Hp. apply exc_bind_ok in Hp as ([b2 p] & Hg & [= <-]). apply grow_area_wf in Hg; [|done].
    revert Hg. unfold buffer_wf, capacity_, fill_padding, fill_n, poke, copy. cbn [ptr_ size_ fst].
    by rewrite !length_inserts.
  - pose proof (fill_spaces_wf (length (ptr_ b)) (fill_ s) offset b Hb) as Hfs.
    destruct (if _ || _ then _ else _) as [b2 start] eqn:Hd.
    assert (Hb2 : buffer_wf b2) by (destruct (_ || _); [by rewrite Hd in Hfs|by simplify_eq]).
    intros Hp. apply exc_bind_ok in Hp as ([b3 p] & Hg & [= <-]). eapply grow_area_wf; [|exact Hg].
    destruct sign; [by apply poke_wf|done].
Qed.
Lemma keeps_place s sign offset n b : buffer_wf b -> keeps_wf (place_number s sign offset n b).
Proof.
  intros Hb. unfold place_number, place_sign.
  destruct sign; [destruct (_ || _)|]; apply keeps_fill; by try apply poke_wf.
Qed.
Lemma write_double_ends long (v : D) s b :
  patient (if isnegative v then negate v else v) -> buffer_wf b -> exists r, write_double junk long v s b = Some r /\ keeps_wf r.
Proof.
  intros Hpat Hb. unfold write_double. destruct (double_type (type_ s)) as [[t upper]|]; [|eexists; by split].
  set (v' := if isnegative v then _ else _).
  assert (Hsp : forall name, keeps_wf (write_special junk name (float_sign v s) s b)).
  { intros name b' Hw. unfold write_special in Hw. apply exc_bind_ok in Hw as (b1 & Ha & [= <-]).
    apply append_spec in Ha as [? _]; [|done]. destruct (float_sign v s); [by apply poke_wf|done]. }
  destruct (isnotanumber v'); [eauto|]. destruct (isinfinity v'); [eauto|].
  destruct (float_sign v s) as [c|]; cbn [exc_bind].
  - destruct (reserve _ b) as [b1|] eqn:Hr; [|eexists; by split]. apply reserve_spec in Hr as (Hb1 & _ & _ & _); [|done].
    cbn [exc_bind]. destruct (float_format _ _ _ _) as [fmt wf].
    destruct (sprintf_loop_ends (S (size_ b)) fmt wf (precision_ s) v' b1 Hpat Hb1) as ([[b2 n]|] & -> & Hk);
      [|eexists; by split]. eexists; split; [done|]. apply keeps_place. by eapply Hk.
  - destruct (float_format _ _ _ _) as [fmt wf].
    destruct (sprintf_loop_ends (size_ b) fmt wf (precision_ s) v' b Hpat Hb) as ([[b2 n]|] & -> & Hk);
      [|eexists; by split]. eexists; split; [done|]. apply keeps_place. by eapply Hk.
Qed.
Lemma visit_ends (a : Arg D) sp b :
  patient_arg a -> buffer_wf b -> exists r, visit junk locale_sep a sp b = Some r /\ keeps_wf r.
Proof.
  intros Ha Hb. destruct a; cbn [visit]; try (by apply write_double_ends; [apply Ha|]);
    eexists; (split; [done|]); try (by apply keeps_any_int); try (by apply keeps_string).
  - by intros ? [= <-].
  - by intros ? [= <-].
  - unfold visit_bool. case_match; [by apply keeps_any_int|by apply keeps_string].
  - unfold visit_char. repeat case_match; try done; [by apply keeps_any_int|by apply keeps_append].
  - unfold visit_cstring. case_match; [by apply keeps_pointer|by apply keeps_string].
  - unfold visit_pointer. case_match; [done|by apply keeps_pointer].
Qed.

(** ** The loop of [format] ends *)
Definition ready_ f : Prop := buffer_wf (buffer_ f) /\ map_ok f.
Lemma same_ready f f' : same f f' -> ready_ f -> ready_ f'.
Proof. intros [Hb Hm] [H1 H2]. split; [by rewrite Hb|auto]. Qed.
Lemma format_field_ends a s f :
  patient_arg a -> ready_ f -> exists r, format_field junk locale_sep args a s f = Some r
  /\ forall s' f', r = Ok (s', f') -> (s' = [] \/ length s' < length s)%nat /\ ready_ f'.
Proof.
  intros Ha Hb. unfold format_field.
  assert (Hsp : forward s f (if at_char ":" s then parse_spec args a (next s) f else Ok (new_spec, s, f)))
    by (destruct (at_char ":" s); [apply forward_drop, forward_spec|apply forward_here]).
  destruct (if at_char ":" s then _ else _) as [[[sp s1] f1]|e]; [|eexists; by split].
  destruct (Hsp _ _ _ eq_refl) as [Hl Hf]. apply (same_ready _ _ Hf) in Hb as [Hb Hm].
  destruct (negb _); [eexists; by split|]. destruct (visit_ends a sp _ Ha Hb) as ([b|e] & -> & Hk); [|eexists; by split].
  eexists; split; [done|]. intros s' f' [= <- <-]. split; [|split; [by apply Hk|done]].
  pose proof (next_len s1). destruct s1; [by left|right; simpl in *; lia].
Qed.
Lemma format_arg_ends a s f :
  patient_arg a -> ready_ f -> exists r, format_arg junk locale_sep args a s f = Some r
  /\ forall s' f', r = Ok (s', f') -> (s' = [] \/ length s' < length s)%nat /\ ready_ f'.
Proof. intros. destruct a; try by apply format_field_ends. cbn [format_arg]. by destruct (at_char _ _); apply format_field_ends. Qed.
Lemma write_text_ready_ t f f' : ready_ f -> write_text t f = Ok f' -> ready_ f'.
Proof.
  unfold write_text. intros [Hb Hm] Hw. exc_inv; simplify_eq; [done|]. by apply append_spec in H1 as [? _].
Qed.
Lemma format_loop_ends fuel text s f :
  ready_ f -> (length s < fuel)%nat ->
  exists r, format_loop junk locale_sep args fuel text s f = Some r
  /\ forall f', r = Ok f' -> ready_ f'.
Proof.
  revert text s f; induction fuel as [|fuel IH]; intros text s f Hb Hl; [lia|]. cbn [format_loop].
  destruct (decide (peek s = nul)) as [|Hc]; [eexists; split; [done|]; eauto using write_text_ready_|].
  destruct s as [|c s]; [done|]. cbn [peek next tail length] in *.
  destruct (negb _ && _); [apply IH; [done|lia]|].
  destruct (at_char c s).
  - destruct (write_text _ f) as [f1|] eqn:Hw; [|eexists; by split]. apply write_text_ready_ in Hw; [|done].
    apply IH; [done|]. fold (next s). rewrite next_len. lia.
  - destruct (decide (c = "}"%char)); [eexists; by split|].
    destruct (write_text text f) as [f1|] eqn:Hw; cbn [exc_bind]; [|eexists; by split].
    apply write_text_ready_ in Hw; [|done].
    destruct (parse_arg args s f1) as [[[a s1] f2]|] eqn:Hp; [|eexists; by split].
    apply parse_arg_found in Hp as (Hl1 & Hf & Ha). specialize (Ha (proj2 Hw)). apply (same_ready _ _ Hf) in Hw.
    destruct (format_arg_ends a s1 f2 Ha Hw) as ([[s2 f3]|] & -> & Hk); [|eexists; by split].
    destruct (Hk _ _ eq_refl) as [Hs2 Hb3]. apply IH; [done|]. destruct Hs2 as [->|]; simpl; lia.
Qed.
End Termination.

Lemma patient_list {D} `{FloatLib D} `{Grow} (args : list (Arg D)) :
  Forall patient_arg args -> Forall patient_arg (args_ (arg_list args)).
Proof.
  intros Ha. cbn [args_ arg_list]. destruct (_ <? _); [done|]. apply Forall_app. split; [done|]. by apply Forall_singleton.
Qed.
Lemma not_a_number {D} `{FloatLib D} `{Grow} (args : list (Arg D)) :
  Forall (fun a => number_of a = None) args -> Forall patient_arg args.
Proof. intros Ha. eapply Forall_impl; [exact Ha|]. intros a Hn v Hv. congruence. Qed.

(** Arguments that hold no number with a fraction. *)
Class Plain {D} (args : list (Arg D)) : Prop := plain_args : Forall (fun a => number_of a = None) args.
#[export] Instance plain_nil {D} : Plain (D := D) [].
Proof. constructor. Qed.
#[export] Instance plain_int {D} z (args : list (Arg D)) : Plain args -> Plain (INT z :: args).
Proof. intros Ha. constructor; [done|exact Ha]. Qed.
#[export] Instance plain_cstring {D} p s (args : list (Arg D)) : Plain args -> Plain (CSTRING p s :: args).
Proof. intros Ha. constructor; [done|exact Ha]. Qed.

(** (C30) Termination.  Whatever the format string (balanced or not, any
    characters), the arguments, the state of the buffer and its class (one
    that reallocates or one that throws when full), [format] comes to an end:
    it returns a well-formed buffer or throws.  The one loop without a bound of
    its own is that around [snprintf]: for the numbers with a fraction among
    the arguments, either [snprintf] never reports an error (then two turns
    are enough) or the buffer's memory has a limit, and the fuel is two more
    than that; without either the loop does not end, see [refused_for_ever]. *)
Theorem format_terminates {D} `{FloatLib D} `{Grow} junk locale_sep (args : list (Arg D)) format_str b :
  Forall patient_arg args -> buffer_wf b ->
  exists r, writer_write junk locale_sep format_str args b = Some r
  /\ forall b', r = Ok b' -> buffer_wf b'.
Proof.
  intros Ha Hb. unfold writer_write, format.
  destruct (format_loop_ends junk locale_sep (arg_list args) (patient_list args Ha) (S (length format_str)) [] format_str
    (new_formatter b) (conj Hb (Forall_nil_2 _)) ltac:(lia)) as ([f|e] & -> & Hk).
  - eexists; split; [done|]. intros b' [= <-]. by apply Hk.
  - eexists; by split.
Qed.
(** A library that reports an error whatever it is asked. *)
Definition refusing (fuel : nat) : FloatLib Z := {|
  isnegative v := v <? 0; isnotanumber _ := false; isinfinity _ := false; negate := Z.opp;
  snprintf _ _ _ _ := []; refuses _ _ _ _ _ := true; turns := fuel
|}.
(** A buffer whose memory ends at 40 characters; the library refuses the
    number, and the loop asks for more until there is no more. *)
Lemma format_terminates_witness :
  (exists r, writer_write (H := refusing 42) (H0 := LimitedBuffer 40 nul) nul !"," !"{{{}{:>{}" [INT 4; DOUBLE 15]
               (new_memory_buffer nul 4) = Some r
   /\ forall b', r = Ok b' -> buffer_wf b')
  /\ writer_write (H := refusing 42) (H0 := LimitedBuffer 40 nul) nul !"," !"{}{}" [INT 4; DOUBLE 15] (new_memory_buffer nul 4)
     = Some (Thrown (runtime_error !"std::bad_alloc"))
  /\ option_map (exc_map content)
       (writer_write (H0 := FixedBuffer) nul !"," !"{}{}" [INT 4; UINT 15] (new_fixed_buffer (repeat nul 2)))
     = Some (Thrown (runtime_error !"buffer overflow")).
Proof.
  split; [|split; vm_compute; reflexivity].
  apply (format_terminates (H := refusing 42) (H0 := LimitedBuffer 40 nul) nul !"," [INT 4; DOUBLE 15] !"{{{}{:>{}"
    (new_memory_buffer nul 4)); [|vm_compute; lia].
  repeat apply Forall_cons_2; [discriminate| |apply Forall_nil_2].
  intros v _. right. exists 40%nat. split; [|simpl; lia]. intros n b Hn. exists (runtime_error !"std::bad_alloc").
  simpl. by rewrite (proj2 (Nat.ltb_lt 40 n) Hn).
Defined.

(** A number whose text is longer than an [int] can report, in memory without
    a limit: the loop goes on for ever, whatever the fuel. *)
Lemma refused_for_ever {D} `{FloatLib D} junk fuel offset fmt w prec (v : D) b :
  buffer_wf b -> (forall size, reports_error size fmt w prec v = true) ->
  sprintf_loop (H := MemoryBuffer junk) fuel offset fmt w prec v b = None.
Proof.
  intros Hb Hf. revert b Hb; induction fuel as [|fuel IH]; intros b Hb; [done|].
  cbn [sprintf_loop]. unfold format_float. rewrite Hf. cbn [andb Z.leb Z.compare].
  destruct (reserve_total (H := MemoryBuffer junk) (memory_grow_total junk) (capacity_ b + 1) b Hb) as (b' & Hr & Hb' & _).
  change (0 <=? -1) with false. cbn iota. rewrite Hr. by apply IH.
Qed.
Lemma too_long_fails {D} `{FloatLib D} size fmt w prec (v : D) :
  int_max < len (snprintf fmt w prec v) -> reports_error size fmt w prec v = true.
Proof. intros Hl. unfold reports_error. by rewrite (proj2 (Z.ltb_lt _ _) Hl), orb_true_r. Qed.
