(* ===== verification/FmtTemplate.v ===== *)
(** * Templates: the reference of the format language

    A template is a format string as the caller thinks of it: texts and
    replacement fields.  [print] writes it in the syntax of the library;
    [expand] says what it stands for, without a parser, a cursor or a buffer:
    arguments are looked up, checked against the specifier, and printed by
    the reference functions of [FmtFacts] and [FmtDoubleFacts].  The theorem
    is that [format] on the printed template gives the expansion. *)
From S2P Require Import Prelude Cxx Fmt FmtFacts FmtBuffer FmtDouble FmtDoubleFacts FmtFormat FmtArgsFacts FmtFormatFacts.

Open Scope Z_scope.

(** ** Syntax *)
Inductive arg_ref := Auto | Index (n : Z) | Name (name : bytes).
Inductive amount := Lit (n : Z) | Dyn (r : arg_ref).
Record field_spec := FieldSpec {
  f_fill : option ascii; f_align : option Alignment; f_sign : option ascii; f_hash : bool;
  f_zero : bool; f_width : option amount; f_precision : option amount; f_type : option ascii
}.
Inductive piece := Text (t : bytes) | Field (r : arg_ref) (s : option field_spec).

Definition option_text {A} (f : A -> bytes) (o : option A) : bytes :=
  match o with Some a => f a | None => [] end.
Definition print_ref (r : arg_ref) : bytes :=
  match r with Auto => [] | Index n => dec_nat n | Name n => n end.
Definition print_amount (a : amount) : bytes :=
  match a with Lit n => dec_nat n | Dyn r => !"{" ++ print_ref r ++ !"}" end.
Definition align_char (a : Alignment) : ascii :=
  match a with
  | ALIGN_LEFT => "<" | ALIGN_RIGHT => ">" | ALIGN_NUMERIC => "=" | ALIGN_CENTER => "^"
  | ALIGN_DEFAULT => "}"
  end.
Definition print_align (s : field_spec) : bytes :=
  option_text (fun c => [c]) (f_fill s) ++ option_text (fun a => [align_char a]) (f_align s).
Definition print_sign (s : field_spec) : bytes := option_text (fun c => [c]) (f_sign s).
Definition print_hash (s : field_spec) : bytes := if f_hash s then !"#" else [].
Definition print_zero (s : field_spec) : bytes := if f_zero s then !"0" else [].
Definition print_width (s : field_spec) : bytes := option_text print_amount (f_width s).
Definition print_precision (s : field_spec) : bytes :=
  option_text (fun a => "."%char :: print_amount a) (f_precision s).
Definition print_type (s : field_spec) : bytes := option_text (fun c => [c]) (f_type s).
Definition print_spec (s : field_spec) : bytes :=
  print_align s ++ print_sign s ++ print_hash s ++ print_zero s ++ print_width s
  ++ print_precision s ++ print_type s.
(** Braces are doubled. *)
Definition escape (t : bytes) : bytes :=
  concat (map (fun c => if bool_decide (c = "{"%char \/ c = "}"%char) then [c; c] else [c]) t).
Definition print_piece (p : piece) : bytes :=
  match p with
  | Text t => escape t
  | Field r s => !"{" ++ print_ref r ++ option_text (fun s => ":"%char :: print_spec s) s ++ !"}"
  end.
Definition print (l : list piece) : bytes := concat (map print_piece l).

(** *** What can be written *)
Definition ref_ok (r : arg_ref) : Prop :=
  match r with
  | Auto => True
  | Index n => 0 <= n <= int_max
  | Name n => exists c l, n = c :: l /\ is_name_start c = true
              /\ Forall (fun c => is_name_start c || is_digit c = true) l
  end.
Definition amount_ok (low : Z) (a : amount) : Prop :=
  match a with Lit n => low <= n <= int_max | Dyn r => ref_ok r end.
Definition opt_ok {A} (P : A -> Prop) (o : option A) : Prop := match o with Some a => P a | None => True end.
Record field_spec_ok (s : field_spec) : Prop := {
  fill_ok : opt_ok (fun c => c <> nul /\ c <> "{"%char /\ c <> "}"%char /\ f_align s <> None) (f_fill s);
  align_ok : f_align s <> Some ALIGN_DEFAULT;
  sign_ok : opt_ok (fun c => c ∈ !"+- ") (f_sign s);
  width_ok : opt_ok (amount_ok 1) (f_width s);
  precision_ok : opt_ok (amount_ok 0) (f_precision s);
  type_ok : opt_ok (fun c => is_name_start c = true) (f_type s);
  spec_nonempty : print_spec s <> []
}.
Definition piece_ok (p : piece) : Prop :=
  match p with
  | Text t => Forall (fun c => c <> nul) t
  | Field r s => ref_ok r /\ opt_ok field_spec_ok s
  end.

(** ** Meaning *)
Section Meaning.
Context {D : Type} `{FloatLibOk D}.
Variable locale_sep : bytes.
Variable args : list (Arg D).

Definition resolved (a : Arg D) : option (Arg D) :=
  match a with NONE => None | NAMED_ARG _ v => Some v | a => Some a end.
(** The state is the index of the next argument, negative once an argument has
    been chosen by index or name. *)
Definition fetch (r : arg_ref) (st : Z) : option (Arg D * Z) :=
  match r with
  | Auto => if 0 <=? st then a ← resolved (nth (Z.to_nat st) args NONE); Some (a, st + 1) else None
  | Index n => if 0 <? st then None else a ← resolved (nth (Z.to_nat n) args NONE); Some (a, -1)
  | Name n => if 0 <? st then None else a ← map_find n (named args); Some (a, -1)
  end.
Definition int_of (a : Arg D) : option Z :=
  match a with
  | INT z | LONG_LONG z => if z <? 0 then None else Some z
  | UINT z | ULONG_LONG z => Some z
  | _ => None
  end.
Definition amount_value (a : amount) (st : Z) : option (Z * Z) :=
  match a with
  | Lit n => Some (n, st)
  | Dyn r => p ← fetch r st; n ← int_of p.1; if int_max <? n then None else Some (n, p.2)
  end.
Definition opt_amount (default : Z) (a : option amount) (st : Z) : option (Z * Z) :=
  match a with Some a => amount_value a st | None => Some (default, st) end.

(** A specifier is allowed for the type of its argument. *)
Definition numeric (a : Arg D) : bool := type_code a <=? LAST_NUMERIC_TYPE.
Definition is_unsigned (a : Arg D) : bool := match a with UINT _ | ULONG_LONG _ => true | _ => false end.
Definition imp (a b : bool) : bool := negb a || b.
Definition well_typed (a : Arg D) (s : field_spec) : bool :=
  imp (bool_decide (f_align s = Some ALIGN_NUMERIC)) (numeric a)
  && imp (bool_decide (is_Some (f_sign s))) (numeric a && negb (is_unsigned a))
  && imp (f_hash s) (numeric a) && imp (f_zero s) (numeric a)
  && imp (bool_decide (is_Some (f_precision s)))
       (negb (type_code a <=? LAST_INTEGER_TYPE) && match a with POINTER _ => false | _ => true end).
Definition sign_flags (s : field_spec) : Z :=
  match f_sign s with
  | Some c => if decide (c = "+"%char) then 3 else if decide (c = "-"%char) then 4 else 1
  | None => 0
  end.
Definition spec_value (s : field_spec) (w p : Z) : spec :=
  Spec (Z.to_nat w)
    (if f_zero s then "0"%char else match f_fill s with Some c => c | None => space end)
    (if f_zero s then ALIGN_NUMERIC else match f_align s with Some a => a | None => ALIGN_DEFAULT end)
    (Z.lor (sign_flags s) (if f_hash s then HASH_FLAG else 0)) p
    (match f_type s with Some c => c | None => nul end).
Definition field_value (a : Arg D) (s : option field_spec) (st : Z) : option (spec * Z) :=
  match s with
  | None => Some (new_spec, st)
  | Some s =>
      if well_typed a s then
        w ← opt_amount 0 (f_width s) st;
        p ← opt_amount (-1) (f_precision s) w.2;
        Some (spec_value s w.1 p.1, p.2)
      else None
  end.

(** The text of an argument. *)
Definition type_in (l : bytes) (s : spec) : bool := bool_decide (type_ s ∈ l).
(** A number that is padded behind its precision is left out: its digits may
    be lost ([FmtFacts]). *)
Definition int_text (z : Z) (s : spec) : option bytes :=
  let prefix := int_prefix z (int_spec_of s) in
  digits ← numeral locale_sep (type_ s) (Z.abs z);
  if padded_behind (int_spec_of s) prefix digits then None else Some (render (int_spec_of s) prefix digits).
Definition string_text (p : Z) (t : bytes) (s : spec) : option bytes :=
  if negb (type_in [nul; "s"%char] s) || ((length t =? 0)%nat && (p =? 0)) then None
  else
    let t := if (0 <=? precision_ s) && (precision_ s <? len t) then take (Z.to_nat (precision_ s)) t else t in
    Some (pad_text (width_ s) (fill_ s)
            (match align_ s with ALIGN_RIGHT => ALIGN_RIGHT | ALIGN_CENTER => ALIGN_CENTER | _ => ALIGN_LEFT end)
            [] t).
Definition pointer_text (p : Z) (s : spec) : option bytes :=
  int_text p (set_type "x" (set_flags HASH_FLAG s)).
Definition char_text (z : Z) (s : spec) : option bytes :=
  if negb (type_in [nul; "c"%char] s) then int_text z (add_flags CHAR_FLAG s)
  else if bool_decide (align_ s = ALIGN_NUMERIC) || negb (flags_ s =? 0) then None
  else Some (pad_text (width_ s) (fill_ s)
               (match align_ s with ALIGN_RIGHT => ALIGN_RIGHT | ALIGN_CENTER => ALIGN_CENTER | _ => ALIGN_LEFT end)
               [] [char_of z]).
(** A centred number is left out: its text may be lost ([FmtDoubleFacts]); and
    so is a text whose length [snprintf] cannot report. *)
Definition float_text (long : bool) (v : D) (s : spec) : option bytes :=
  if decide (align_ s = ALIGN_CENTER) then None
  else t ← double_text long v s; if int_max <? len t then None else Some t.
Definition arg_text (a : Arg D) (s : spec) : option bytes :=
  match a with
  | NONE | NAMED_ARG _ _ => None
  | INT z | UINT z | LONG_LONG z | ULONG_LONG z => int_text z s
  | BOOL v => if type_in [nul] s then string_text 1 (if v then !"true" else !"false") s
              else int_text (Z.b2z v) s
  | CHAR z => char_text z s
  | DOUBLE v => float_text false v s
  | LONG_DOUBLE v => float_text true v s
  | CSTRING p t => if type_in ["p"%char] s then pointer_text p s else string_text p t s
  | STRING p t => string_text p t s
  | POINTER p => if type_in [nul; "p"%char] s then pointer_text p s else None
  | CUSTOM t => string_text 1 t s
  end.

(** The type a specifier is checked against: an argument of class type is
    formatted as a string. *)
Definition as_text (a : Arg D) : Arg D := match a with CUSTOM t => STRING 1 t | a => a end.
Definition piece_text (p : piece) (st : Z) : option (bytes * Z) :=
  match p with
  | Text t => Some (t, st)
  | Field r s =>
      f ← fetch r st;
      v ← field_value (as_text f.1) s f.2;
      t ← arg_text f.1 v.1; Some (t, v.2)
  end.
(** The text of a template and the state behind it. *)
Fixpoint expand (l : list piece) (st : Z) : option (bytes * Z) :=
  match l with
  | [] => Some ([], st)
  | p :: l => t ← piece_text p st; ts ← expand l t.2; Some (t.1 ++ ts.1, ts.2)
  end.

(** What makes a format string fail behind a template that left the state
    [st]. *)
Inductive fails (st : Z) : bytes -> bytes -> Prop :=
| stray_brace r : peek r <> "}"%char -> fails st ("}"%char :: r) !"unmatched '}' in format string"
| unfinished a st' : fetch Auto st = Some (a, st') -> fails st !"{" !"missing '}' in format string"
| no_argument r : 0 <= st -> nth (Z.to_nat st) args NONE = NONE ->
    fails st (!"{}" ++ r) !"argument index out of range"
| manual_to_automatic r : st < 0 ->
    fails st (!"{}" ++ r) !"cannot switch from manual to automatic argument indexing"
| automatic_to_manual n r : 0 < st -> 0 <= n <= int_max ->
    fails st (!"{" ++ dec_nat n ++ !"}" ++ r) !"cannot switch from automatic to manual argument indexing"
| no_index n r : st <= 0 -> 0 <= n <= int_max -> nth (Z.to_nat n) args NONE = NONE ->
    fails st (!"{" ++ dec_nat n ++ !"}" ++ r) !"argument index out of range"
| no_name n r : st <= 0 -> ref_ok (Name n) -> map_find n (named args) = None ->
    fails st (!"{" ++ n ++ !"}" ++ r) !"argument not found"
| big_index n r : int_max < n <= uint_max ->
    fails st (!"{" ++ dec_nat n ++ !"}" ++ r) !"number is too big".
End Meaning.

(** The values an argument can have in C++. *)
Fixpoint arg_ok {D} (a : Arg D) : Prop :=
  match a with
  | NONE => False
  | NAMED_ARG _ v => arg_ok v
  | INT z | CHAR z => int_min <= z <= int_max
  | UINT z => 0 <= z <= uint_max
  | LONG_LONG z => llong_min <= z <= llong_max
  | ULONG_LONG z | POINTER z => 0 <= z <= size_max
  | CSTRING p _ | STRING p _ => 0 <= p <= size_max
  | _ => True
  end.
