(* ===== verification/FmtTemplateFacts.v ===== *)
(** * [format] gives the expansion of a template

    The parser is followed over the printed specifier, part after part: each
    part begins with a character of its own rank, so the parser of a part
    stops where the next one begins.  Then the loop of [format] is followed
    over the pieces. *)
From S2P Require Import Prelude Cxx Fmt FmtFacts FmtBuffer FmtDouble FmtDoubleFacts FmtFormat FmtArgsFacts FmtFormatFacts FmtTemplate.

Open Scope Z_scope.

(** ** Numbers *)
Lemma is_digit_val c : is_digit c = true <-> exists d, digit_val c = Some d.
Proof.
  unfold is_digit, digit_val. split.
  - intros. bool_to_prop. eexists. by rewrite (proj2 (andb_true_iff _ _) (conj (proj2 (Z.leb_le 0 (char_code c - 48)) ltac:(lia)) (proj2 (Z.leb_le (char_code c - 48) 9) ltac:(lia)))).
  - intros [d Hd]. destruct (_ && _) eqn:E; [|done]. bool_to_prop. apply andb_true_intro. split; apply Z.leb_le; lia.
Qed.
Lemma digit_val_eq c d : digit_val c = Some d -> d = char_code c - 48 /\ 0 <= d <= 9.
Proof. unfold digit_val. intros Hd. destruct (_ && _) eqn:E; [|done]. bool_to_prop. simplify_eq. lia. Qed.
Lemma scan_digits_mono v ds :
  0 <= v -> Forall (fun c => is_Some (digit_val c)) ds -> v <= scan_digits v ds.
Proof.
  intros Hv Hd; revert v Hv; induction Hd as [|c ds [d Hc] _ IH]; intros v Hv; simpl; [lia|].
  rewrite Hc. apply digit_val_eq in Hc as [_ ?]. specialize (IH (v * 10 + d)). lia.
Qed.
Lemma parse_digit_loop_spec v ds rest :
  0 <= v -> Forall (fun c => is_Some (digit_val c)) ds -> scan_digits v ds <= uint_max ->
  is_digit (peek rest) = false -> parse_digit_loop v (ds ++ rest) = (scan_digits v ds, rest).
Proof.
  intros Hv Hd; revert v Hv; induction Hd as [|c ds [d Hc] Hds IH]; intros v Hv Hm Hr; simpl.
  - destruct rest as [|c rest]; [done|]. simpl in *. by rewrite Hr.
  - rewrite (proj2 (is_digit_val c)) by eauto. simpl in Hm. rewrite Hc in Hm |- *.
    apply digit_val_eq in Hc as [<- Hd]. pose proof (scan_digits_mono (v * 10 + d) ds ltac:(lia) Hds).
    unfold uint_max in *. unfold u32. rewrite wrap_u_id by lia.
    destruct (Z.ltb_spec (v * 10 + d) v); [lia|]. apply IH; done || lia.
Qed.
Lemma parse_int_spec n rest :
  0 <= n <= int_max -> is_digit (peek rest) = false -> parse_nonnegative_int (dec_nat n ++ rest) = Ok (n, rest).
Proof.
  intros Hn Hr. unfold parse_nonnegative_int.
  rewrite parse_digit_loop_spec; [|lia|apply dec_nat_digits; lia|
    rewrite dec_nat_scan; unfold int_max, uint_max in *; lia|done].
  rewrite dec_nat_scan by lia. destruct (Z.ltb_spec int_max n); [lia|done].
Qed.
Lemma parse_int_big n rest :
  int_max < n <= uint_max -> is_digit (peek rest) = false ->
  parse_nonnegative_int (dec_nat n ++ rest) = Thrown (FormatError !"number is too big").
Proof.
  intros Hn Hr. unfold parse_nonnegative_int. assert (0 <= n) by (unfold int_max in Hn; lia).
  rewrite parse_digit_loop_spec; [|lia|by apply dec_nat_digits|rewrite dec_nat_scan; lia|done].
  rewrite dec_nat_scan by done. destruct (Z.ltb_spec int_max n); [done|lia].
Qed.
Lemma dec_nat_head n : 0 <= n -> exists c l, dec_nat n = c :: l /\ is_digit c = true.
Proof.
  intros Hn. pose proof (dec_nat_nonempty n). pose proof (dec_nat_digits n Hn) as Hd.
  destruct (dec_nat n) as [|c l]; [done|]. apply Forall_cons in Hd as [Hc _]. exists c, l.
  split; [done|]. by apply is_digit_val.
Qed.
Lemma dec_nat_head_pos n : 1 <= n -> peek (dec_nat n) <> "0"%char.
Proof.
  intros Hn. assert (Hlog : exists k, Z.to_nat (Z.log2 n) = k) by eauto. destruct Hlog as [k Hk].
  revert n Hn Hk; induction (Nat.lt_wf_0 k) as [k _ IH]; intros n Hn Hk.
  destruct (decide (n < 10)) as [Hs|Hs].
  - rewrite dec_nat_small by done. simpl. intros Heq. apply (f_equal digit_val) in Heq.
    rewrite digit_val_char in Heq by lia. vm_compute in Heq. simplify_eq. lia.
  - rewrite dec_nat_step by lia. assert (Hd : 1 <= n / 10) by (apply Z.div_le_lower_bound; lia).
    pose proof (log2_div10 n ltac:(lia)). pose proof (Z.log2_nonneg (n / 10)).
    specialize (IH (Z.to_nat (Z.log2 (n / 10))) ltac:(lia) (n / 10) Hd eq_refl).
    pose proof (dec_nat_nonempty (n / 10)). by destruct (dec_nat (n / 10)).
Qed.

(** ** Ranks *)
Definition rank (c : ascii) : Z :=
  if bool_decide (c ∈ !"+- ") then 1
  else if bool_decide (c = "#"%char) then 2
  else if bool_decide (c = "0"%char) then 3
  else if is_digit c || bool_decide (c = "{"%char) then 4
  else if bool_decide (c = "."%char) then 5
  else if is_name_start c then 6
  else if bool_decide (c = "}"%char) then 7
  else 0.
(** A part is empty or begins with its rank. *)
Definition heads (P : Z -> Prop) (part : bytes) : Prop := part = [] \/ P (rank (peek part)).
Lemma heads_app (P : Z -> Prop) part r : heads P part -> P (rank (peek r)) -> P (rank (peek (part ++ r))).
Proof. intros [->|Hp] Hr; [done|]. by destruct part. Qed.
(** A character of some rank is not one of another. *)
Lemma rank_not c c' : rank c <> rank c' -> c <> c'.
Proof. congruence. Qed.
Lemma at_char_rank c s : rank (peek s) <> rank c -> at_char c s = false.
Proof. intros. apply bool_decide_eq_false_2. by apply rank_not. Qed.

(** ** The parts of a specifier *)
Lemma rank_digit c : is_digit c = true -> rank c = 3 \/ rank c = 4.
Proof. destruct c as [[] [] [] [] [] [] [] []]; vm_compute; auto; discriminate. Qed.
Lemma rank_digit_pos c : is_digit c = true -> c <> "0"%char -> rank c = 4.
Proof. destruct c as [[] [] [] [] [] [] [] []]; vm_compute; auto; congruence. Qed.
Lemma rank_name c : is_name_start c = true -> rank c = 6.
Proof. destruct c as [[] [] [] [] [] [] [] []]; vm_compute; auto; discriminate. Qed.
Lemma rank_sign c : c ∈ !"+- " -> rank c = 1.
Proof. intros Hc. unfold rank. by rewrite bool_decide_eq_true_2. Qed.
Lemma not_digit c : rank c <> 3 -> rank c <> 4 -> is_digit c = false.
Proof. intros H3 H4. destruct (is_digit c) eqn:E; [|done]. destruct (rank_digit c E); done. Qed.
(** Only characters without a rank align. *)
Lemma rank_align c : 1 <= rank c -> align_of c = ALIGN_DEFAULT.
Proof. destruct c as [[] [] [] [] [] [] [] []]; vm_compute; done. Qed.
Lemma rank_nul c : 1 <= rank c -> c <> nul.
Proof. by intros Hr ->. Qed.

Section Parts.
Context {D : Type}.
Implicit Types (a : Arg D) (s : field_spec) (sp : spec).

Lemma numeric_ok a c : numeric a = true -> require_numeric_argument a c = Ok tt.
Proof.
  unfold numeric, require_numeric_argument. intros Hn. bool_to_prop.
  destruct (Z.ltb_spec LAST_NUMERIC_TYPE (type_code a)); [lia|done].
Qed.
Lemma imp_true (x y : bool) : imp x y = true -> x = true -> y = true.
Proof. by destruct x. Qed.

Definition after_sign s sp : spec := add_flags (sign_flags s) sp.
Definition after_hash s sp : spec := add_flags (if f_hash s then HASH_FLAG else 0) sp.
Definition after_zero s sp : spec :=
  set_fill (if f_zero s then "0"%char else fill_ sp) (set_align (if f_zero s then ALIGN_NUMERIC else align_ sp) sp).
Definition after_align s sp : spec :=
  set_fill (match f_fill s with Some c => c | None => fill_ sp end)
    (set_align (match f_align s with Some x => x | None => align_ sp end) sp).
Definition after_type s sp : spec := set_type (match f_type s with Some c => c | None => type_ sp end) sp.

Lemma add_no_flags sp : add_flags 0 sp = sp.
Proof. destruct sp. unfold add_flags. simpl. by rewrite Z.lor_0_r. Qed.

Lemma parse_sign_print a s r sp :
  opt_ok (fun c => c ∈ !"+- ") (f_sign s) ->
  imp (bool_decide (is_Some (f_sign s))) (numeric a && negb (is_unsigned a)) = true -> 1 < rank (peek r) ->
  parse_sign a (print_sign s ++ r) sp = Ok (after_sign s sp, r).
Proof.
  unfold print_sign, after_sign, sign_flags, parse_sign. intros Hs Ht Hr.
  destruct (f_sign s) as [c|]; cbn [option_text app].
  - assert (Hx := imp_true _ _ Ht ltac:(by apply bool_decide_eq_true_2)). apply andb_prop in Hx as [Hn Hu].
    assert (Hck : check_sign (c :: r) a = Ok r).
    { unfold check_sign. cbn [peek next tail]. rewrite numeric_ok by done. cbn [exc_bind]. by destruct a. }
    rewrite Hck. repeat (apply elem_of_cons in Hs as [-> | Hs]); done || by apply elem_of_nil in Hs.
  - rewrite !at_char_rank, add_no_flags; [done|intros E; rewrite E in Hr; done..].
Qed.
Lemma parse_hash_print a s r sp :
  imp (f_hash s) (numeric a) = true -> 2 < rank (peek r) ->
  parse_hash a (print_hash s ++ r) sp = Ok (after_hash s sp, r).
Proof.
  unfold print_hash, after_hash, parse_hash. intros Ht Hr. destruct (f_hash s); cbn [app].
  - cbn. rewrite numeric_ok by done. done.
  - rewrite at_char_rank, add_no_flags; [done|]. intros E; rewrite E in Hr; done.
Qed.
Lemma parse_zero_print a s r sp :
  imp (f_zero s) (numeric a) = true -> 3 < rank (peek r) ->
  parse_zero a (print_zero s ++ r) sp = Ok (after_zero s sp, r).
Proof.
  unfold print_zero, after_zero, parse_zero. intros Ht Hr. destruct (f_zero s); cbn [app].
  - cbn. rewrite numeric_ok by done. done.
  - rewrite at_char_rank; [by destruct sp|]. intros E; rewrite E in Hr; done.
Qed.
Lemma parse_type_print s r sp :
  opt_ok (fun c => is_name_start c = true) (f_type s) -> peek r = "}"%char ->
  parse_type (print_type s ++ r) sp = (after_type s sp, r).
Proof.
  unfold print_type, after_type, parse_type. intros Ht Hr. destruct (f_type s) as [c|]; cbn [option_text app].
  - cbn [peek next tail]. apply rank_name in Ht. rewrite at_char_rank by (cbn [peek]; rewrite Ht; done).
    rewrite bool_decide_eq_false_2; [done|]. apply rank_nul. rewrite Ht. done.
  - unfold at_char. rewrite Hr. by destruct sp.
Qed.
Lemma align_of_char x : x <> ALIGN_DEFAULT -> align_of (align_char x) = x.
Proof. by destruct x. Qed.
Lemma parse_align_print a s r sp :
  field_spec_ok s -> imp (bool_decide (f_align s = Some ALIGN_NUMERIC)) (numeric a) = true ->
  align_ sp = ALIGN_DEFAULT ->
  1 <= rank (peek r) -> (f_align s = None -> 1 <= rank (peek (next r)) /\ peek r <> nul) ->
  parse_align a (print_align s ++ r) sp = Ok (after_align s sp, r).
Proof.
  intros Hok Ht Hd Hr Hr2. unfold print_align, after_align, parse_align.
  pose proof (fill_ok s Hok) as Hf. pose proof (align_ok s Hok) as Ha.
  assert (Hnum : forall x, f_align s = Some x -> numeric_align_ok a x = Ok tt).
  { intros x Hx. unfold numeric_align_ok. destruct (decide (x = ALIGN_NUMERIC)) as [->|]; [|done].
    apply numeric_ok, (imp_true _ _ Ht). by apply bool_decide_eq_true_2. }
  destruct (f_align s) as [x|]; [assert (Hx : x <> ALIGN_DEFAULT) by congruence|].
  - destruct (f_fill s) as [c|]; cbn [option_text app peek next tail].
    + destruct Hf as (Hc1 & Hc2 & Hc3 & _). destruct (decide (c = nul)); [done|].
      rewrite align_of_char by done. destruct (decide (x = ALIGN_DEFAULT)); [done|].
      destruct (decide (c = "}"%char)); [done|]. destruct (decide (c = "{"%char)); [done|]. by rewrite Hnum.
    + destruct (decide (align_char x = nul)) as [E|]; [by destruct x|].
      rewrite (rank_align (peek r)) by done. destruct (decide (ALIGN_DEFAULT = ALIGN_DEFAULT)); [|done].
      rewrite align_of_char by done. destruct (decide (x = ALIGN_DEFAULT)); [done|]. by rewrite Hnum.
  - destruct (f_fill s) as [c|]; [by destruct Hf as (_ & _ & _ & [])|]. cbn [option_text app].
    destruct (Hr2 eq_refl) as [Hn Hnn]. destruct (decide (peek r = nul)); [done|].
    rewrite (rank_align (peek (next r))), (rank_align (peek r)) by done.
    destruct (decide (ALIGN_DEFAULT = ALIGN_DEFAULT)); [|done]. do 2 f_equal. destruct sp; simpl in *. by subst.
Qed.
End Parts.

(** ** Arguments and amounts *)
Section Fields.
Context {D : Type} `{FloatLibOk D}.
Variable args : list (Arg D).
Hypothesis args_real : Forall real args.
Implicit Types f : @formatter D.

(** The formatter is in the state of the reference. *)
Definition in_state (st : Z) f : Prop :=
  next_arg_index_ f = st /\ (map_ f = [] \/ map_ f = named args).

Lemma do_get_arg_spec n f a :
  0 <= n -> resolved (nth (Z.to_nat n) args NONE) = Some a -> do_get_arg (arg_list args) n f = (a, None, f).
Proof.
  intros Hn Ha. unfold do_get_arg. rewrite arg_at_spec by done.
  destruct (nth (Z.to_nat n) args NONE); by simplify_eq/=.
Qed.
Lemma scan_name_spec l r :
  Forall (fun c => is_name_start c || is_digit c = true) l -> 7 <= rank (peek r) \/ peek r = ":"%char ->
  scan_name (l ++ r) = (l, r).
Proof.
  intros Hl Hr. induction Hl as [|c l Hc _ IH]; cbn [app scan_name].
  - destruct r as [|c r]; [done|]. cbn [peek scan_name] in *.
    replace (is_name_start c || is_digit c) with false; [done|]. symmetry.
    destruct Hr as [Hr| ->]; [|done]. apply orb_false_intro.
    + destruct (is_name_start c) eqn:E; [|done]. apply rank_name in E. lia.
    + apply not_digit; lia.
  - by rewrite Hc, IH.
Qed.
Lemma parse_arg_print r rest f st a st' :
  ref_ok r -> 7 <= rank (peek rest) \/ peek rest = ":"%char -> in_state st f ->
  fetch args r st = Some (a, st') ->
  exists f', parse_arg (arg_list args) (print_ref r ++ rest) f = Ok (a, rest, f')
  /\ in_state st' f' /\ buffer_ f' = buffer_ f.
Proof.
  intros Hok Hrest [<- Hm] Hf.
  assert (Hnd : is_digit (peek rest) = false)
    by (destruct Hrest as [?| ->]; [apply not_digit; lia|done]).
  assert (Hnn : is_name_start (peek rest) = false).
  { destruct Hrest as [Hr| ->]; [|done]. destruct (is_name_start (peek rest)) eqn:E; [|done].
    apply rank_name in E. lia. }
  unfold parse_arg. destruct r as [|n|n]; cbn [print_ref app fetch ref_ok] in *.
  - rewrite Hnn. unfold parse_arg_index. rewrite Hnd. cbn [negb exc_bind]. unfold next_arg.
    destruct (0 <=? next_arg_index_ f) eqn:Hst; [|done]. bool_to_prop.
    destruct (resolved _) as [a'|] eqn:Ha; simplify_eq/=. rewrite (do_get_arg_spec _ _ a) by done.
    eexists; split; [done|]. done.
  - destruct (dec_nat_head n ltac:(lia)) as (c & l & Hc & Hcd).
    replace (is_name_start _) with false.
    2: { rewrite Hc. cbn [app peek]. symmetry. destruct (is_name_start c) eqn:E; [|done].
         apply rank_name in E. apply rank_digit in Hcd. lia. }
    unfold parse_arg_index. replace (is_digit (peek (dec_nat n ++ rest))) with true by (by rewrite Hc).
    cbn [negb]. rewrite parse_int_spec by done. cbn [exc_bind]. unfold get_arg, check_no_auto_index.
    destruct (0 <? next_arg_index_ f); [done|]. destruct (resolved _) as [a'|] eqn:Ha; simplify_eq/=.
    rewrite (do_get_arg_spec _ _ a) by (done || lia). eexists; split; [done|]. done.
  - destruct Hok as (c & l & -> & Hc & Hl). cbn [app peek]. rewrite Hc. unfold parse_arg_name. cbn [next tail peek].
    rewrite scan_name_spec by done. unfold get_arg_by_name, check_no_auto_index.
    destruct (0 <? next_arg_index_ f); [done|]. cbn [map_ set_next set_map]. rewrite map_init_spec by done.
    destruct (map_find (c :: l) (named args)) as [a'|]; simplify_eq/=. eexists; split; [done|]. split; [|done].
    split; [done|]. by right.
Qed.

Lemma parse_dynamic_print what r rest f st n st' :
  ref_ok r -> in_state st f -> amount_value args (Dyn r) st = Some (n, st') ->
  exists f', parse_dynamic (arg_list args) what (print_ref r ++ !"}" ++ rest) f = Ok (n, rest, f')
  /\ in_state st' f' /\ buffer_ f' = buffer_ f.
Proof.
  intros Hok Hst Hv. cbn [amount_value] in Hv. destruct (fetch args r st) as [[a st1]|] eqn:Hf; [|done].
  simpl in Hv. destruct (int_of a) as [z|] eqn:Hz; [|done]. simpl in Hv.
  destruct (int_max <? z) eqn:Hm; simplify_eq.
  destruct (parse_arg_print r (!"}" ++ rest) f st a st' Hok ltac:(left; done) Hst Hf) as (f' & Hp & Hs & Hb).
  exists f'. split; [|done]. unfold parse_dynamic. rewrite Hp. cbn [exc_bind]. cbn [at_char peek lit].
  replace (at_char "}" (!"}" ++ rest)) with true by done. cbn [negb].
  replace (dynamic_value what a) with (Ok n : exc Z); [done|].
  unfold dynamic_value. destruct a; simpl in Hz; repeat case_match; simplify_eq/=; by rewrite Hm.
Qed.
Lemma rank_above_digits c : 4 < rank c -> is_digit c = false /\ c <> "{"%char.
Proof. intros Hr. split; [apply not_digit; lia|]. intros ->. by vm_compute in Hr. Qed.
Definition with_width s (w : Z) sp : spec :=
  Spec (match f_width s with Some _ => Z.to_nat w | None => width_ sp end) (fill_ sp) (align_ sp)
    (flags_ sp) (precision_ sp) (type_ sp).
Definition with_precision s (p : Z) sp : spec :=
  set_precision (match f_precision s with Some _ => p | None => precision_ sp end) sp.

Lemma parse_width_print s rest sp f st n st' :
  opt_ok (amount_ok 1) (f_width s) -> 4 < rank (peek rest) -> in_state st f ->
  opt_amount args 0 (f_width s) st = Some (n, st') ->
  exists f', parse_width (arg_list args) (print_width s ++ rest) sp f = Ok (with_width s n sp, rest, f')
  /\ in_state st' f' /\ buffer_ f' = buffer_ f.
Proof.
  unfold print_width, with_width, parse_width. intros Hok Hr Hst Hv. destruct (rank_above_digits _ Hr) as [Hd Hb].
  destruct (f_width s) as [[m|r]|]; cbn [option_text opt_amount print_amount opt_ok amount_ok] in *.
  - simplify_eq/=. destruct (dec_nat_head n ltac:(lia)) as (c & l & Hc & Hcd).
    replace (is_digit (peek (dec_nat n ++ rest))) with true by (by rewrite Hc).
    rewrite parse_int_spec by (done || lia). eexists; split; [done|]. done.
  - rewrite <- !app_assoc. destruct (parse_dynamic_print !"width" r rest f st n st' Hok Hst Hv) as (f' & Hp & Hs).
    exists f'. split; [|done]. cbn [app peek lit]. change (is_digit (peek (!"{" ++ _))) with false.
    change (at_char "{" (!"{" ++ _)) with true. cbn iota. change (next (!"{" ++ ?x)) with x. rewrite Hp. done.
  - simplify_eq/=. cbn [app]. rewrite Hd. unfold at_char. rewrite bool_decide_eq_false_2 by done. exists f. by destruct sp.
Qed.
Lemma parse_precision_print a s rest sp f st n st' :
  opt_ok (amount_ok 0) (f_precision s) -> 5 < rank (peek rest) -> in_state st f ->
  imp (bool_decide (is_Some (f_precision s)))
    (negb (type_code a <=? LAST_INTEGER_TYPE) && match a with POINTER _ => false | _ => true end) = true ->
  opt_amount args (-1) (f_precision s) st = Some (n, st') ->
  exists f', parse_precision (arg_list args) a (print_precision s ++ rest) sp f
             = Ok (with_precision s n sp, rest, f')
  /\ in_state st' f' /\ buffer_ f' = buffer_ f.
Proof.
  unfold print_precision, with_precision, parse_precision. intros Hok Hr Hst Ht Hv.
  destruct (rank_above_digits (peek rest) ltac:(lia)) as [Hd Hb].
  destruct (f_precision s) as [m|]; cbn [option_text opt_amount opt_ok app] in *.
  2: { simplify_eq/=. rewrite at_char_rank; [exists f; by destruct sp|]. intros E; rewrite E in Hr; done. }
  assert (Hx := imp_true _ _ Ht ltac:(by apply bool_decide_eq_true_2)). apply andb_prop in Hx as [Hi Hp].
  replace (at_char "." _) with true by done. cbn [next tail].
  assert (Hamount : exists f', (if is_digit (peek (print_amount m ++ rest)) then
       let! (n, s) := parse_nonnegative_int (print_amount m ++ rest) in Ok (n, s, f)
     else if at_char "{" (print_amount m ++ rest)
          then parse_dynamic (arg_list args) !"precision" (next (print_amount m ++ rest)) f
          else Thrown (FormatError !"missing precision specifier")) = Ok (n, rest, f')
     /\ in_state st' f' /\ buffer_ f' = buffer_ f).
  { destruct m as [m|r]; cbn [print_amount amount_ok] in *.
    - simplify_eq/=. destruct (dec_nat_head n ltac:(lia)) as (c & l & Hc & Hcd).
      replace (is_digit (peek (dec_nat n ++ rest))) with true by (by rewrite Hc).
      rewrite parse_int_spec by (done || lia). eauto.
    - rewrite <- !app_assoc. apply (parse_dynamic_print !"precision" r rest f st n st' Hok Hst Hv). }
  destruct Hamount as (f' & -> & Hs & Hbuf). exists f'. split; [|done]. cbn [exc_bind].
  apply negb_true_iff in Hi. rewrite Hi. by destruct a.
Qed.

(** *** Every character behind the alignment has a rank *)
Definition ranked (l : bytes) : Prop := Forall (fun c => 1 <= rank c) l.
Lemma ranked_digits n : 0 <= n -> ranked (dec_nat n).
Proof.
  intros Hn. eapply Forall_impl; [by apply dec_nat_digits|]. intros c [d Hd].
  destruct (rank_digit c); [apply is_digit_val; eauto|lia..].
Qed.
Lemma ranked_ref r : ref_ok r -> ranked (print_ref r).
Proof.
  destruct r as [|n|n]; simpl; [constructor|intros; apply ranked_digits; lia|].
  intros (c & l & -> & Hc & Hl). constructor; [rewrite rank_name by done; lia|].
  eapply Forall_impl; [done|]. intros x Hx. apply orb_prop in Hx as [Hx%rank_name|Hx%rank_digit]; lia.
Qed.
Lemma ranked_amount low a : 0 <= low -> amount_ok low a -> ranked (print_amount a).
Proof.
  intros Hl. destruct a; simpl; [intros; apply ranked_digits; lia|]. intros Hr%ranked_ref.
  constructor; [done|]. apply Forall_app. split; [done|]. by repeat constructor.
Qed.
Lemma ranked_body s :
  field_spec_ok s ->
  ranked (print_sign s ++ print_hash s ++ print_zero s ++ print_width s ++ print_precision s ++ print_type s).
Proof.
  intros [_ _ Hs Hw Hp Ht _]. unfold ranked. rewrite !Forall_app. split_and!.
  - unfold print_sign. destruct (f_sign s); [|constructor]. constructor; [rewrite rank_sign by done; lia|constructor].
  - unfold print_hash. destruct (f_hash s); by repeat constructor.
  - unfold print_zero. destruct (f_zero s); by repeat constructor.
  - unfold print_width. destruct (f_width s) as [a|]; [|constructor]. by apply (ranked_amount 1).
  - unfold print_precision. destruct (f_precision s) as [a|]; [|constructor]. constructor; [done|]. by apply (ranked_amount 0).
  - unfold print_type. destruct (f_type s); [|constructor]. constructor; [rewrite rank_name by done; lia|constructor].
Qed.
Lemma heads_width s : opt_ok (amount_ok 1) (f_width s) -> heads (fun k => k = 4) (print_width s).
Proof.
  unfold print_width. destruct (f_width s) as [[n|r]|]; simpl; [|by right|by left]. intros Hn. right.
  pose proof (dec_nat_head_pos n ltac:(lia)) as H0'. destruct (dec_nat_head n ltac:(lia)) as (c & l & Hc & Hd).
  rewrite Hc in *. by apply rank_digit_pos.
Qed.
Lemma heads_weaken (P Q : Z -> Prop) l : heads P l -> (forall k, P k -> Q k) -> heads Q l.
Proof. intros [->|HP] HQ; [by left|right; auto]. Qed.

Lemma parse_spec_print a s rest f st w p st1 st2 :
  field_spec_ok s -> well_typed a s = true -> peek rest = "}"%char -> in_state st f ->
  opt_amount args 0 (f_width s) st = Some (w, st1) -> opt_amount args (-1) (f_precision s) st1 = Some (p, st2) ->
  exists f', parse_spec (arg_list args) a (print_spec s ++ rest) f = Ok (spec_value s w p, rest, f')
  /\ in_state st2 f' /\ buffer_ f' = buffer_ f.
Proof.
  intros Hok Hty Hrest Hst Hw Hp. pose proof (ranked_body s Hok) as Hbody.
  pose proof (spec_nonempty s Hok) as Hne. pose proof Hok as [_ _ Hsg Hwd Hpr Htp _].
  unfold well_typed in Hty. bool_to_prop.
  assert (R7 : rank (peek rest) = 7) by (by rewrite Hrest).
  assert (R6 : 5 < rank (peek (print_type s ++ rest))).
  { apply (heads_app (fun k => 5 < k)); [|lia]. unfold print_type. destruct (f_type s); [right|by left].
    cbn. rewrite rank_name by done. lia. }
  assert (R5 : 4 < rank (peek (print_precision s ++ print_type s ++ rest))).
  { apply (heads_app (fun k => 4 < k)); [|lia]. unfold print_precision. destruct (f_precision s); [by right|by left]. }
  assert (R4 : 3 < rank (peek (print_width s ++ print_precision s ++ print_type s ++ rest))).
  { apply (heads_app (fun k => 3 < k)); [|lia]. eapply heads_weaken; [by apply heads_width|]. cbv beta. lia. }
  assert (R3 : 2 < rank (peek (print_zero s ++ print_width s ++ print_precision s ++ print_type s ++ rest))).
  { apply (heads_app (fun k => 2 < k)); [|lia]. unfold print_zero. destruct (f_zero s); [by right|by left]. }
  assert (R2 : 1 < rank (peek (print_hash s ++ print_zero s ++ print_width s ++ print_precision s ++ print_type s ++ rest))).
  { apply (heads_app (fun k => 1 < k)); [|lia]. unfold print_hash. destruct (f_hash s); [by right|by left]. }
  assert (R1 : 1 <= rank (peek (print_sign s ++ print_hash s ++ print_zero s ++ print_width s ++ print_precision s ++ print_type s ++ rest))).
  { apply (heads_app (fun k => 1 <= k)); [|lia]. unfold print_sign. destruct (f_sign s); [right|by left].
    cbn. rewrite rank_sign by done. lia. }
  assert (Rn : f_align s = None -> 1 <= rank (peek (next (print_sign s ++ print_hash s ++ print_zero s ++ print_width s ++ print_precision s ++ print_type s ++ rest)))).
  { intros Ha. assert (Hfill : f_fill s = None).
    { pose proof (fill_ok s Hok) as Hf. destruct (f_fill s); [|done]. by destruct Hf as (_ & _ & _ & []). }
    unfold print_spec, print_align in Hne. rewrite Ha, Hfill in Hne. cbn [option_text app] in Hne.
    repeat rewrite app_assoc in *. destruct (((((_ ++ _) ++ _) ++ _) ++ _) ++ _) as [|c l]; [done|].
    apply Forall_cons in Hbody as [_ Hl]. cbn [app next tail]. destruct Hl; [simpl; lia|done]. }
  unfold parse_spec, print_spec. rewrite <- !app_assoc.
  rewrite parse_align_print; [cbn [exc_bind]|done..|]. 2: { intros Ha. split; [auto|by apply rank_nul]. }
  rewrite parse_sign_print by done. cbn [exc_bind]. rewrite parse_hash_print by done. cbn [exc_bind].
  rewrite parse_zero_print by done. cbn [exc_bind].
  destruct (parse_width_print s (print_precision s ++ print_type s ++ rest)
    (after_zero s (after_hash s (after_sign s (after_align s new_spec)))) f st w st1 Hwd R5 Hst Hw) as (f1 & -> & Hst1 & Hb1).
  cbn [exc_bind].
  destruct (parse_precision_print a s (print_type s ++ rest)
    (with_width s w (after_zero s (after_hash s (after_sign s (after_align s new_spec))))) f1 st1 p st2 Hpr R6 Hst1)
    as (f2 & -> & Hst2 & Hb2); [done..|]. cbn [exc_bind]. rewrite parse_type_print by done.
  exists f2. split; [|by rewrite Hb2]. do 3 f_equal.
  unfold spec_value, after_type, with_precision, with_width, after_zero, after_hash, after_sign, after_align.
  unfold set_type, set_precision. cbn. f_equal.
  - by destruct (f_width s); simplify_eq/=.
  - by destruct (f_precision s); simplify_eq/=.
Qed.
End Fields.

(** ** The text of an argument *)
Section Output.
Context {D : Type} `{FloatLibOk D} `{Grow}.
Variable junk : ascii.
Variable locale_sep : bytes.
Hypothesis grow_total : forall n b, exists b', grow n b = Ok b'.

(** [m] appends [t]. *)
Definition appends (t : bytes) (b : buffer) (m : exc buffer) : Prop :=
  exists b', m = Ok b' /\ buffer_wf b' /\ content b' = content b ++ t.
Lemma appends_append t b : buffer_wf b -> appends t b (append t b).
Proof. intros. by apply append_total. Qed.

Definition alone (a : Alignment) : Alignment :=
  match a with ALIGN_RIGHT => ALIGN_RIGHT | ALIGN_CENTER => ALIGN_CENTER | _ => ALIGN_LEFT end.
Lemma write_str_text t sp :
  write_str junk t (width_ sp) (fill_ sp) (align_ sp) [] = pad_text (width_ sp) (fill_ sp) (alone (align_ sp)) [] t.
Proof. rewrite write_str_spec, app_nil_l. by destruct (align_ sp). Qed.
Lemma type_in_two x y sp :
  negb (type_in [x; y] sp) = negb (bool_decide (type_ sp = x)) && negb (bool_decide (type_ sp = y)).
Proof.
  unfold type_in. destruct (decide (type_ sp = x)) as [E|N1]; [rewrite (bool_decide_eq_true_2 (type_ sp = x)) by done|].
  { by rewrite bool_decide_eq_true_2 by (rewrite E; left). }
  rewrite (bool_decide_eq_false_2 (type_ sp = x)) by done.
  destruct (decide (type_ sp = y)) as [E|N2]; [rewrite (bool_decide_eq_true_2 (type_ sp = y)) by done|].
  { by rewrite bool_decide_eq_true_2 by (rewrite E; right; left). }
  rewrite !bool_decide_eq_false_2; [done|done|]. intros Hin.
  repeat (apply elem_of_cons in Hin as [?|Hin]; [done|]). by apply elem_of_nil in Hin.
Qed.
Lemma type_in_one x sp : type_in [x] sp = bool_decide (type_ sp = x).
Proof. unfold type_in. apply bool_decide_ext. by rewrite list_elem_of_singleton. Qed.

Lemma int_appends moves w z sp b t :
  w = 32 \/ w = 64 -> - 2 ^ (w - 1) <= z < 2 ^ w -> int_text locale_sep z sp = Some t -> buffer_wf b ->
  appends t b (emit (write_int junk moves w locale_sep z (int_spec_of sp) []) b).
Proof.
  intros Hw Hz Ht Hb. unfold int_text in Ht. rewrite write_int_spec by done.
  change (type (int_spec_of sp)) with (type_ sp).
  destruct (numeral locale_sep (type_ sp) (Z.abs z)) as [digits|]; [|done]. cbn [mbind option_bind] in Ht.
  destruct (padded_behind _ _ _) eqn:Hp; [done|]. simplify_eq. rewrite kept_digits_all by done. by apply appends_append.
Qed.
Lemma string_appends p s sp b t :
  string_text p s sp = Some t -> buffer_wf b -> appends t b (write_string junk p s sp b).
Proof.
  unfold string_text, write_string. rewrite type_in_two. intros Ht Hb.
  destruct (_ && negb (bool_decide (type_ sp = "s"%char))); [done|]. cbn [orb] in Ht.
  destruct (_ && (p =? 0)); [done|]. simplify_eq. rewrite write_str_text. by apply appends_append.
Qed.
Lemma pointer_appends p sp b t :
  0 <= p <= size_max -> pointer_text locale_sep p sp = Some t -> buffer_wf b ->
  appends t b (write_pointer junk locale_sep p sp b).
Proof. intros Hp Ht Hb. apply int_appends; [by right| |done|done]. unfold size_max in Hp. lia. Qed.

Lemma char_area_spec z sp :
  char_area junk z sp = pad_text (width_ sp) (fill_ sp) (alone (align_ sp)) [] [char_of z].
Proof.
  unfold char_area. destruct (Nat.ltb_spec 1 (width_ sp)) as [Hw|Hw].
  2: { unfold pad_text. cbn [length Nat.add]. replace (width_ sp - 1)%nat with O by lia. by destruct (align_ sp). }
  destruct (width_ sp) as [|w]; [lia|]. cbn [Nat.sub]. rewrite Nat.sub_0_r.
  assert (Hleft : <[O:=char_of z]> (fill_n 1 w (fill_ sp) (repeat junk (S w))) = char_of z :: repeat (fill_ sp) w).
  { rewrite (fill_at [junk] (repeat junk w) []); [by rewrite app_nil_r|by rewrite app_nil_r|done|by rewrite repeat_length]. }
  unfold pad_text. cbn [app length Nat.add Nat.sub]. rewrite Nat.sub_0_r.
  destruct (align_ sp); cbn [alone]; try exact Hleft.
  - rewrite (fill_at [] (repeat junk w) [junk]);
      [|cbn [repeat app]; by rewrite repeat_cons|done|by rewrite repeat_length]. cbn [app].
    replace w with (length (repeat (fill_ sp) w)) at 1 by apply repeat_length. by rewrite insert_mid.
  - pose proof (fill_padding_area junk (S w) 1 (fill_ sp) [] w eq_refl) as Hf. cbn [app length Nat.add] in Hf.
    rewrite Hf. replace (w / 2)%nat with (length (repeat (fill_ sp) (w / 2))) at 1 by apply repeat_length.
    cbn [repeat app]. by rewrite insert_mid.
Qed.
Lemma char_appends z sp b t :
  int_min <= z <= int_max -> char_text locale_sep z sp = Some t -> buffer_wf b ->
  appends t b (visit_char junk locale_sep z sp b).
Proof.
  unfold char_text, visit_char. rewrite type_in_two. intros Hz Ht Hb. destruct (_ && negb (bool_decide (type_ sp = "c"%char))).
  - apply int_appends; [by left| |done|done]. unfold int_min, int_max in Hz. lia.
  - destruct (_ || _); [done|]. simplify_eq. rewrite char_area_spec. by apply appends_append.
Qed.
Lemma double_appends long (v : D) sp b t :
  float_text long v sp = Some t -> buffer_wf b ->
  exists m, write_double junk long v sp b = Some m /\ appends t b m.
Proof.
  unfold float_text. intros Ht Hb. destruct (decide _) as [|Ha]; [done|].
  pose proof (write_double_spec junk grow_total long v sp b Hb ltac:(done)) as Hw.
  destruct (double_text long v sp) as [t'|]; [|done]. cbn [mbind option_bind] in Ht.
  destruct (Z.ltb_spec int_max (len t')) as [|Hl]; simplify_eq. specialize (Hw Hl).
  destruct Hw as (b' & -> & Hr). eexists; split; [done|]. by exists b'.
Qed.
Lemma visit_text (a : Arg D) sp b t :
  arg_ok a -> arg_text locale_sep a sp = Some t -> buffer_wf b -> (forall s, a = CUSTOM s -> sp = new_spec) ->
  exists m, visit junk locale_sep a sp b = Some m /\ appends t b m.
Proof.
  intros Ha Ht Hb Hc. destruct a; cbn [arg_text arg_ok visit] in *; try done;
    unfold int_min, int_max, uint_max, llong_min, llong_max in *;
    try (by apply double_appends); eexists; (split; [done|]).
  - apply int_appends; [by left|lia|done|done].
  - apply int_appends; [by left|lia|done|done].
  - apply int_appends; [by right|lia|done|done].
  - apply int_appends; [by right|unfold size_max in *; lia|done|done].
  - unfold visit_bool. rewrite type_in_one in Ht. destruct (bool_decide (type_ sp = nul)); cbn [negb].
    + by apply string_appends.
    + apply int_appends; [by left|destruct b0; simpl; lia|done|done].
  - by apply char_appends.
  - unfold visit_cstring. rewrite type_in_one in Ht. destruct (bool_decide _); [by apply pointer_appends|by apply string_appends].
  - by apply string_appends.
  - unfold visit_pointer. pose proof (type_in_two nul "p" sp) as Htp. destruct (type_in _ sp); [|done].
    cbn [negb] in Htp. rewrite <- Htp. by apply pointer_appends.
  - rewrite (Hc text eq_refl) in *. by apply string_appends.
Qed.
End Output.

(** ** The loop *)
Section Loop.
Context {D : Type} `{FloatLibOk D} `{Grow}.
Variable junk : ascii.
Variable locale_sep : bytes.
Hypothesis grow_total : forall n b, exists b', grow n b = Ok b'.
Variable args : list (Arg D).
Hypothesis args_ok : Forall arg_ok args.
Implicit Types f : @formatter D.

Lemma args_real : Forall real args.
Proof. eapply Forall_impl; [exact args_ok|]. by intros [] ?. Qed.
Lemma nth_ok n a : resolved (nth n args NONE) = Some a -> arg_ok a.
Proof.
  intros Ha. destruct (decide (n < length args)%nat) as [Hn|Hn]; [|by rewrite nth_overflow in Ha by lia].
  pose proof (proj1 (Forall_nth arg_ok NONE args) args_ok n Hn) as Hok.
  destruct (nth n args NONE); simplify_eq/=; done.
Qed.
Lemma named_ok n a : map_find n (named args) = Some a -> arg_ok a.
Proof.
  clear grow_total. induction args_ok as [|x l Hx Hl IH]; [done|]. destruct x as [|n' v| | | | | | | | | | | |]; try exact (IH Hl).
  cbn [named foldr map_find]. destruct (decide (n' = n)); [by intros [= <-]|exact (IH Hl)].
Qed.
Lemma fetch_ok r st a st' : fetch args r st = Some (a, st') -> arg_ok a.
Proof.
  destruct r; cbn [fetch]; intros Hf; destruct (_ <=? _) in Hf || destruct (_ <? _) in Hf; try done.
  - destruct (resolved _) eqn:E; simplify_eq/=. by eapply nth_ok.
  - destruct (resolved _) eqn:E; simplify_eq/=. by eapply nth_ok.
  - destruct (map_find _ _) eqn:E; simplify_eq/=. by eapply named_ok.
Qed.

(** A state of the loop: the reference state and a usable buffer. *)
Definition ready (st : Z) f : Prop := in_state args st f /\ buffer_wf (buffer_ f).

Lemma format_field_print a s sp st st' rest f t :
  opt_ok field_spec_ok s -> arg_ok a -> ready st f ->
  field_value args a s st = Some (sp, st') -> arg_text locale_sep a sp = Some t ->
  (forall x, a = CUSTOM x -> s = None) ->
  exists f', format_field junk locale_sep (arg_list args) a
      (option_text (fun s => ":"%char :: print_spec s) s ++ !"}" ++ rest) f = Some (Ok (rest, f'))
  /\ ready st' f' /\ content (buffer_ f') = content (buffer_ f) ++ t.
Proof.
  intros Hs Ha [Hst Hb] Hv Ht Hc. unfold format_field.
  assert (Hparse : exists f1, (if at_char ":" (option_text (fun s => ":"%char :: print_spec s) s ++ !"}" ++ rest)
      then parse_spec (arg_list args) a (next (option_text (fun s => ":"%char :: print_spec s) s ++ !"}" ++ rest)) f
      else Ok (new_spec, option_text (fun s => ":"%char :: print_spec s) s ++ !"}" ++ rest, f))
    = Ok (sp, !"}" ++ rest, f1) /\ in_state args st' f1 /\ buffer_ f1 = buffer_ f).
  { destruct s as [s|]; cbn [option_text app field_value opt_ok] in *; [|by simplify_eq; exists f].
    destruct (well_typed a s) eqn:Hty; [|done].
    destruct (opt_amount args 0 (f_width s) st) as [[w st1]|] eqn:Hw; [|done]. simpl in Hv.
    destruct (opt_amount args (-1) (f_precision s) st1) as [[p st2]|] eqn:Hp; simplify_eq/=.
    apply (parse_spec_print args args_real a s (!"}" ++ rest) f st w p st1 st'); done. }
  destruct Hparse as (f1 & -> & Hst1 & Hb1). replace (at_char "}" (!"}" ++ rest)) with true by done. cbn [negb].
  assert (Hcust : forall x, a = CUSTOM x -> sp = new_spec)
    by (intros x Hx; specialize (Hc x Hx); subst s; by simplify_eq/=).
  rewrite <- Hb1 in Hb.
  destruct (visit_text junk locale_sep grow_total a sp (buffer_ f1) t Ha Ht Hb Hcust) as (m & -> & b' & -> & Hw & Hcont).
  eexists; split; [done|]. split; [split; [|done]|by rewrite <- Hb1]. destruct Hst1. by split.
Qed.
Lemma format_arg_print a s sp st st' rest f t :
  opt_ok field_spec_ok s -> arg_ok a -> ready st f ->
  field_value args (as_text a) s st = Some (sp, st') -> arg_text locale_sep a sp = Some t ->
  exists f', format_arg junk locale_sep (arg_list args) a
      (option_text (fun s => ":"%char :: print_spec s) s ++ !"}" ++ rest) f = Some (Ok (rest, f'))
  /\ ready st' f' /\ content (buffer_ f') = content (buffer_ f) ++ t.
Proof.
  intros Hs Ha Hf Hv Ht. destruct a; try (by eapply format_field_print). cbn [as_text format_arg] in *.
  destruct s as [s|]; cbn [option_text app].
  - by apply (format_field_print (STRING 1 text) (Some s) sp st st').
  - apply (format_field_print (CUSTOM text) None sp st st'); done.
Qed.

(** [text] has been read and not written, [s] is left: enough fuel, and the
    result is [r]. *)
Definition runs (text s : bytes) f (r : exc formatter) : Prop :=
  forall fuel, (length s < fuel)%nat ->
  format_loop junk locale_sep (arg_list args) fuel text s f = Some r.

Lemma runs_end text f : runs text [] f (write_text text f).
Proof. intros [|fuel] Hf; [simpl in Hf; lia|done]. Qed.
Lemma runs_plain text c s f r :
  c <> nul -> c <> "{"%char -> c <> "}"%char -> runs (text ++ [c]) s f r -> runs text (c :: s) f r.
Proof.
  intros H1' H2' H3' Hr [|fuel] Hf; simpl in Hf; [lia|]. cbn [format_loop peek next tail].
  destruct (decide (c = nul)); [done|]. rewrite !bool_decide_eq_false_2 by done. apply Hr. lia.
Qed.
Lemma runs_brace text c s f f1 r :
  c = "{"%char \/ c = "}"%char -> write_text (text ++ [c]) f = Ok f1 -> runs [] s f1 r ->
  runs text (c :: c :: s) f r.
Proof.
  intros Hc Hw Hr [|fuel] Hf; simpl in Hf; [lia|]. cbn [format_loop peek next tail].
  destruct (decide (c = nul)) as [->|]; [by destruct Hc|].
  replace (negb (bool_decide (c = "{"%char)) && negb (bool_decide (c = "}"%char))) with false
    by (by destruct Hc as [->| ->]).
  unfold at_char. cbn [peek]. rewrite bool_decide_eq_true_2, Hw by done. cbn [next tail]. apply Hr. lia.
Qed.
Lemma runs_field text s f f1 a s1 f2 s2 f3 r :
  peek s <> "{"%char -> write_text text f = Ok f1 -> parse_arg (arg_list args) s f1 = Ok (a, s1, f2) ->
  format_arg junk locale_sep (arg_list args) a s1 f2 = Some (Ok (s2, f3)) -> (length s2 <= length s)%nat ->
  runs [] s2 f3 r -> runs text ("{"%char :: s) f r.
Proof.
  intros Hp Hw Ha Hf Hl Hr [|fuel] Hfu; simpl in Hfu; [lia|]. cbn [format_loop peek next tail].
  destruct (decide ("{"%char = nul)); [done|]. rewrite bool_decide_eq_true_2 by done. cbn [negb andb].
  unfold at_char. rewrite bool_decide_eq_false_2 by done. destruct (decide ("{"%char = "}"%char)); [done|].
  rewrite Hw. cbn [exc_bind]. rewrite Ha, Hf. apply Hr. lia.
Qed.

Lemma write_text_ready t st f :
  ready st f -> exists f', write_text t f = Ok f' /\ ready st f'
  /\ content (buffer_ f') = content (buffer_ f) ++ t.
Proof.
  intros [Hst Hb]. unfold write_text. destruct (Nat.eqb_spec (length t) 0) as [E|_].
  - destruct t; [|done]. exists f. by rewrite app_nil_r.
  - destruct (append_total grow_total t _ Hb) as (b' & -> & Hw & Hc). eexists; split; [done|]. split; [|done]. by split.
Qed.

Lemma field_start r s rest :
  ref_ok r -> let t := option_text (fun s => ":"%char :: print_spec s) s ++ !"}" ++ rest in
  (7 <= rank (peek t) \/ peek t = ":"%char) /\ peek (print_ref r ++ t) <> "{"%char.
Proof.
  intros Hr t. assert (Ht : 7 <= rank (peek t) \/ peek t = ":"%char) by (unfold t; destruct s; [by right|by left]).
  split; [done|]. destruct r as [|n|n]; cbn [print_ref app].
  - unfold t. by destruct s.
  - destruct (dec_nat_head n ltac:(simpl in Hr; lia)) as (c & l & -> & Hc). cbn [app peek]. intros ->. by vm_compute in Hc.
  - destruct Hr as (c & l & -> & Hc & _). cbn [app peek]. intros ->. by vm_compute in Hc.
Qed.
(** The loop gets from [text], [s] and [f] to [text'], [s'] and [f'] (what it
    makes of these it makes of those), having printed [ts]. *)
Definition reaches (ts text s : bytes) f (text' s' : bytes) f' : Prop :=
  (forall r, runs text' s' f' r -> runs text s f r)
  /\ content (buffer_ f') ++ text' = content (buffer_ f) ++ text ++ ts.

Lemma reaches_text st t rest text f :
  Forall (fun c => c <> nul) t -> ready st f ->
  exists text' f', ready st f' /\ reaches t text (escape t ++ rest) f text' rest f'.
Proof.
  intros Ht. revert text f; induction Ht as [|c t Hc _ IH]; intros text f Hf.
  { exists text, f. split; [done|]. split; [done|]. by rewrite app_nil_r. }
  cbn [escape map concat]. fold (escape t). rewrite <- app_assoc.
  case_bool_decide as Hbr; cbn [app].
  - destruct (write_text_ready (text ++ [c]) st f Hf) as (f1 & Hw & Hf1 & Hc1).
    destruct (IH [] f1 Hf1) as (text' & f2 & Hf2 & Hr & Hc2). exists text', f2. split; [done|].
    split; [intros; eapply runs_brace; eauto|]. rewrite Hc2, Hc1. cbn [app]. by rewrite <- !app_assoc.
  - destruct (IH (text ++ [c]) f Hf) as (text' & f2 & Hf2 & Hr & Hc2). exists text', f2. split; [done|].
    split; [|by rewrite Hc2, <- !app_assoc].
    intros. apply runs_plain; auto; intros ->; apply Hbr; auto.
Qed.
Lemma reaches_template l st st' rest text f ts :
  Forall piece_ok l -> ready st f -> expand locale_sep args l st = Some (ts, st') ->
  exists text' f', ready st' f' /\ reaches ts text (print l ++ rest) f text' rest f'.
Proof.
  intros Hl; revert st text f ts; induction Hl as [|p l Hp _ IH]; intros st text f ts Hf He; cbn [expand] in He.
  { simplify_eq. exists text, f. split; [done|]. split; [done|]. by rewrite app_nil_r. }
  destruct (piece_text locale_sep args p st) as [[t st1]|] eqn:Ht; [|done]. simpl in He.
  destruct (expand locale_sep args l st1) as [[ts' st2]|] eqn:He'; simplify_eq/=.
  change (print (p :: l)) with (print_piece p ++ print l). rewrite <- app_assoc.
  destruct p as [t'|r s]; cbn [piece_text print_piece piece_ok] in *.
  { simplify_eq. destruct (reaches_text st1 t (print l ++ rest) text f Hp Hf) as (text1 & f1 & Hf1 & Hr1 & Hc1).
    destruct (IH st1 text1 f1 ts' Hf1 He') as (text2 & f2 & Hf2 & Hr2 & Hc2). exists text2, f2.
    split; [done|]. split; [auto|]. by rewrite Hc2, app_assoc, Hc1, <- !app_assoc. }
  destruct Hp as [Hr Hs]. destruct (fetch args r st) as [[a st2]|] eqn:Hfe; [|done]. simpl in Ht.
  destruct (field_value args (as_text a) s st2) as [[sp st3]|] eqn:Hv; [|done]. simpl in Ht.
  destruct (arg_text locale_sep a sp) as [t'|] eqn:Hat; simplify_eq/=.
  destruct (write_text_ready text st f Hf) as (f1 & Hw & Hf1 & Hc1).
  destruct (field_start r s (print l ++ rest) Hr) as [Hstop Hstart].
  rewrite <- !app_assoc. cbn [app lit].
  destruct (parse_arg_print args args_real r (option_text (fun s => ":"%char :: print_spec s) s ++ !"}" ++ print l ++ rest)
    f1 st a st2 Hr Hstop (proj1 Hf1) Hfe) as (f2 & Hpa & Hst2 & Hb2).
  assert (Hf2 : ready st2 f2) by (split; [done|rewrite Hb2; apply Hf1]).
  destruct (format_arg_print a s sp st2 st1 (print l ++ rest) f2 t Hs (fetch_ok _ _ _ _ Hfe) Hf2 Hv Hat)
    as (f3 & Hfa & Hf3 & Hc3).
  destruct (IH st1 [] f3 ts' Hf3 He') as (text4 & f4 & Hf4 & Hr4 & Hc4). exists text4, f4. split; [done|]. split.
  - intros R HR. eapply runs_field; [exact Hstart|exact Hw|exact Hpa|exact Hfa| |by apply Hr4].
    rewrite !length_app. simpl. rewrite !length_app. lia.
  - rewrite Hc4, Hc3, Hb2, Hc1, app_nil_l, <- !app_assoc. done.
Qed.

(** *** Failures *)
Lemma runs_parse_error text s st f e :
  ready st f -> peek s <> "{"%char -> (forall f', ready st f' -> parse_arg (arg_list args) s f' = Thrown e) ->
  runs text ("{"%char :: s) f (Thrown e).
Proof.
  intros Hf Hs He [|fuel] Hfu; simpl in Hfu; [lia|]. cbn [format_loop peek next tail].
  destruct (decide ("{"%char = nul)); [done|]. rewrite bool_decide_eq_true_2 by done. cbn [negb andb].
  unfold at_char. rewrite bool_decide_eq_false_2 by done. destruct (decide ("{"%char = "}"%char)); [done|].
  destruct (write_text_ready text st f Hf) as (f1 & -> & Hf1 & _). cbn [exc_bind]. by rewrite He.
Qed.
Lemma index_start n r :
  0 <= n -> is_name_start (peek (dec_nat n ++ r)) = false /\ is_digit (peek (dec_nat n ++ r)) = true
  /\ peek (dec_nat n ++ r) <> "{"%char.
Proof.
  intros Hn. destruct (dec_nat_head n Hn) as (c & l & -> & Hc). cbn [app peek]. split_and!; [|done|].
  - destruct (is_name_start c) eqn:E; [|done]. apply rank_name in E. apply rank_digit in Hc. lia.
  - intros ->. by vm_compute in Hc.
Qed.
Lemma runs_fails text s st f msg :
  ready st f -> fails args st s msg -> runs text s f (Thrown (FormatError msg)).
Proof.
  intros Hf [r Hr|a st' Hfe|r Hst Hn|r Hst|n r Hst Hn|n r Hst Hn Hna|n r Hst Hok Hna|n r Hn]; cbn [app lit].
  - intros [|fuel] Hfu; simpl in Hfu; [lia|]. cbn [format_loop peek next tail].
    destruct (decide ("}"%char = nul)); [done|]. cbn [negb andb bool_decide]. unfold at_char.
    rewrite (bool_decide_eq_false_2 (peek r = _)) by done. done.
  - intros [|fuel] Hfu; simpl in Hfu; [lia|]. cbn [format_loop peek next tail].
    change (peek !"{") with "{"%char. change (next !"{") with (@nil ascii).
    destruct (decide ("{"%char = nul)); [done|]. cbn [negb andb]. rewrite bool_decide_eq_true_2 by done. cbn [negb andb].
    change (at_char "{" []) with false. destruct (decide ("{"%char = "}"%char)); [done|].
    destruct (write_text_ready text st f Hf) as (f1 & Hw & Hf1 & _).
    assert (Hpa : exists f2, parse_arg (arg_list args) [] f1 = Ok (a, [], f2)).
    { unfold parse_arg, parse_arg_index, next_arg. destruct Hf1 as [[<- _] _]. cbn [fetch] in Hfe.
      cbn [peek]. destruct (0 <=? next_arg_index_ f1) eqn:Hn; [|done]. bool_to_prop.
      destruct (resolved _) as [a'|] eqn:Hres; simplify_eq/=.
      rewrite (do_get_arg_spec args args_real _ _ a) by done. eauto. }
    destruct Hpa as [f2 Hpa]. rewrite Hw. cbn [exc_bind]. rewrite Hpa.
    by destruct a.
  - apply (runs_parse_error _ _ st); [done..|]. intros f' [[<- _] _]. unfold parse_arg, parse_arg_index, next_arg.
    destruct (Z.leb_spec 0 (next_arg_index_ f')); [|lia]. cbn. unfold do_get_arg.
    by rewrite arg_at_spec, Hn by (done || apply args_real).
  - apply (runs_parse_error _ _ st); [done..|]. intros f' [[<- _] _]. unfold parse_arg, parse_arg_index, next_arg.
    destruct (Z.leb_spec 0 (next_arg_index_ f')); [lia|]. done.
  - destruct (index_start n (!"}" ++ r) ltac:(lia)) as (H1' & H2' & H3').
    apply (runs_parse_error _ _ st); [done..|]. intros f' [[<- _] _]. unfold parse_arg. rewrite H1'.
    unfold parse_arg_index. rewrite H2'. cbn [negb]. rewrite parse_int_spec by done. cbn [exc_bind].
    unfold get_arg, check_no_auto_index. destruct (Z.ltb_spec 0 (next_arg_index_ f')); [done|lia].
  - destruct (index_start n (!"}" ++ r) ltac:(lia)) as (H1' & H2' & H3').
    apply (runs_parse_error _ _ st); [done..|]. intros f' [[<- _] _]. unfold parse_arg. rewrite H1'.
    unfold parse_arg_index. rewrite H2'. cbn [negb]. rewrite parse_int_spec by done. cbn [exc_bind].
    unfold get_arg, check_no_auto_index. destruct (Z.ltb_spec 0 (next_arg_index_ f')); [lia|].
    unfold do_get_arg. by rewrite arg_at_spec, Hna by (lia || apply args_real).
  - destruct Hok as (c & l & -> & Hc & Hl). cbn [app].
    apply (runs_parse_error _ _ st); [done|by intros [= ->]|]. intros f' [[<- Hm] _].
    unfold parse_arg. cbn [peek]. rewrite Hc. unfold parse_arg_name. cbn [next tail peek].
    rewrite scan_name_spec by (done || by left). unfold get_arg_by_name, check_no_auto_index.
    destruct (Z.ltb_spec 0 (next_arg_index_ f')); [lia|]. cbn [map_ set_next set_map].
    by rewrite map_init_spec, Hna by (done || apply args_real).
  - destruct (index_start n (!"}" ++ r) ltac:(unfold int_max in *; lia)) as (H1' & H2' & H3').
    apply (runs_parse_error _ _ st); [done..|]. intros f' _. unfold parse_arg. rewrite H1'.
    unfold parse_arg_index. rewrite H2'. cbn [negb]. by rewrite parse_int_big.
Qed.
End Loop.

(** The loop run to its end on a printed template. *)
Lemma template_written junk locale_sep {D} `{FloatLibOk D} (args : list (Arg D)) l ts st b :
  Forall arg_ok args -> Forall piece_ok l -> buffer_wf b -> expand locale_sep args l 0 = Some (ts, st) ->
  exists b', writer_write (H0 := MemoryBuffer junk) junk locale_sep (print l) args b = Some (Ok b')
  /\ buffer_wf b' /\ content b' = content b ++ ts.
Proof.
  intros Ha Hl Hb He. pose proof (memory_grow_total junk) as Hg.
  destruct (reaches_template (H1 := MemoryBuffer junk) junk locale_sep Hg args Ha l 0 st [] []
    (new_formatter b) ts Hl) as (text & f & Hf & Hr & Hc); [split; [split; [done|by left]|done]|done|].
  rewrite app_nil_r in Hr.
  destruct (write_text_ready (H1 := MemoryBuffer junk) Hg args text st f Hf) as (f1 & Hw & [_ Hwf] & Hc1).
  exists (buffer_ f1). unfold writer_write, format.
  rewrite (Hr _ (runs_end _ _ _ text f) (S (length (print l)))) by lia. rewrite Hw. split; [done|]. split; [done|].
  by rewrite Hc1, Hc.
Qed.

(** (C28) Format strings, the round trip.  Every template, printed in the
    syntax of the library (texts with their braces doubled, fields chosen
    automatically, by index or by name, every part of the specifier, widths
    and precisions taken from arguments), is formatted to its expansion:
    whenever the reference accepts the template for the arguments, [format]
    returns and appends exactly the expansion to the buffer.  It does not
    accept a centred number with a fraction, nor a pointer that is aligned
    left, filled up to a precision and padded behind it: the buffer may lose
    their digits; nor a number with a fraction whose text is longer than
    [INT_MAX]. *)
Theorem format_template junk locale_sep {D} `{FloatLibOk D} (args : list (Arg D)) l ts st b :
  Forall arg_ok args -> Forall piece_ok l -> buffer_wf b -> expand locale_sep args l 0 = Some (ts, st) ->
  exists b', writer_write (H0 := MemoryBuffer junk) junk locale_sep (print l) args b = Some (Ok b')
  /\ buffer_wf b' /\ content b' = content b ++ ts.
Proof. apply template_written. Qed.
Definition sample_args : list (Arg Z) :=
  [STRING 1 !"abc"; INT 9; UINT 255; DOUBLE (-25); CUSTOM !"xyz"].
Definition sample : list piece :=
  [Text !"{ "; Field Auto (Some (FieldSpec (Some "*"%char) (Some ALIGN_CENTER) None false false (Some (Dyn Auto)) None None));
   Text !"} "; Field Auto (Some (FieldSpec None None None true false (Some (Lit 8)) None (Some "x"%char)));
   Text !" "; Field Auto (Some (FieldSpec None None (Some "+"%char) false true (Some (Lit 9)) (Some (Lit 1)) None));
   Field Auto None].
Lemma format_template_witness :
  print sample = !"{{ {:*^{}}}} {:#8x} {:+09.1}{}"
  /\ exists b', writer_write (H0 := MemoryBuffer nul) nul !"," (print sample) sample_args (new_memory_buffer nul 16)
                = Some (Ok b')
     /\ buffer_wf b' /\ content b' = !"{ ***abc***}     0xff -000002.5xyz".
Proof.
  split; [vm_compute; reflexivity|].
  refine (format_template nul !"," sample_args sample _ 5 (new_memory_buffer nul 16) _ _ _ _).
  - repeat constructor; vm_compute; discriminate.
  - repeat (constructor; try (split; [exact I|]));
      try (vm_compute; repeat (split || discriminate || intros; discriminate); fail);
      try (simpl; repeat split; (discriminate || vm_compute; repeat constructor)).
  - vm_compute. lia.
  - vm_compute. reflexivity.
Defined.

(** (C29) Format strings, the failures.  Behind any template the reference
    accepts, each of the continuations of [fails] makes [format] throw the
    [FormatError] that says so: a closing brace that is not doubled, an opening
    brace at the very end, an automatic field, an index or a name for which
    there is no argument, an index after automatic fields, an automatic field
    after an index or a name, and an index above [INT_MAX] and not above
    [UINT_MAX]; what follows the field does not matter.  (Larger indices may
    wrap around and are then not noticed, see [number_wraps]; the errors of a
    specifier are not stated here.) *)
Theorem format_rejects junk locale_sep {D} `{FloatLibOk D} (args : list (Arg D)) l ts st bad msg b :
  Forall arg_ok args -> Forall piece_ok l -> buffer_wf b -> expand locale_sep args l 0 = Some (ts, st) ->
  fails args st bad msg ->
  writer_write (H0 := MemoryBuffer junk) junk locale_sep (print l ++ bad) args b
  = Some (Thrown (FormatError msg)).
Proof.
  intros Ha Hl Hb He Hbad. pose proof (memory_grow_total junk) as Hg.
  destruct (reaches_template (H1 := MemoryBuffer junk) junk locale_sep Hg args Ha l 0 st bad []
    (new_formatter b) ts Hl) as (text & f & Hf & Hr & _); [split; [split; [done|by left]|done]|done|].
  unfold writer_write, format.
  rewrite (Hr (Thrown (FormatError msg)) (runs_fails _ _ Hg args Ha _ _ _ _ _ Hf Hbad)) by lia. done.
Qed.
Lemma format_rejects_witness :
  writer_write (H0 := MemoryBuffer nul) nul !"," (!"x={} " ++ !"{" ++ dec_nat 0 ++ !"}" ++ !"...")
    [INT 4 : Arg Z] (new_memory_buffer nul 8)
  = Some (Thrown (FormatError !"cannot switch from automatic to manual argument indexing")).
Proof.
  refine (format_rejects nul !"," [INT 4 : Arg Z] [Text !"x="; Field Auto None; Text !" "] !"x=4 " 1 _ _
    (new_memory_buffer nul 8) _ _ _ _ _).
  - repeat constructor; vm_compute; discriminate.
  - repeat constructor; discriminate.
  - vm_compute. lia.
  - vm_compute. reflexivity.
  - apply automatic_to_manual; [lia|]. unfold int_max. lia.
Defined.

(** ** Automatic fields without a specifier *)
Section PlainFields.
Context {D : Type} `{FloatLibOk D}.
Variable locale_sep : bytes.

Lemma text_no_spec t : string_text 1 t new_spec = Some t.
Proof.
  unfold string_text. cbn -[Nat.eqb]. rewrite andb_false_r. unfold pad_text. cbn. by rewrite app_nil_r.
Qed.
Lemma expand_text (args : list (Arg D)) t l st :
  expand locale_sep args (Text t :: l) st = ts ← expand locale_sep args l st; Some (t ++ ts.1, ts.2).
Proof. reflexivity. Qed.
(** An argument whose text does not depend on a specifier. *)
Definition plain_text (a : Arg D) : option bytes :=
  match a with
  | STRING p t | CSTRING p t => if decide (p = 1) then Some t else None
  | LONG_LONG z => Some (dec z)
  | _ => None
  end.
Lemma plain_text_arg a t : plain_text a = Some t -> arg_text locale_sep a new_spec = Some t.
Proof.
  destruct a as [| | | |z| | | | | |p t'|p t'| |]; cbn [plain_text arg_text]; try done.
  - intros [= <-]. unfold int_text, int_prefix, sign_prefix, dec.
    change (numeral locale_sep (type_ new_spec) (Z.abs z)) with (Some (dec_nat (Z.abs z))).
    unfold render. cbn -[dec_nat Z.ltb len Z.abs]. rewrite (proj2 (Z.ltb_ge (len _) _)) by (unfold len; lia).
    destruct (Z.ltb_spec z 0); [rewrite Z.abs_neq by lia|rewrite Z.abs_eq by lia]; reflexivity.
  - case_decide; [|done]. intros [= ->]. subst. change (type_in ["p"%char] new_spec) with false. apply text_no_spec.
  - case_decide; [|done]. intros [= ->]. subst. apply text_no_spec.
Qed.
Lemma expand_plain_field (args : list (Arg D)) a t l st :
  0 <= st -> nth (Z.to_nat st) args NONE = a -> plain_text a = Some t ->
  expand locale_sep args (Field Auto None :: l) st
  = ts ← expand locale_sep args l (st + 1); Some (t ++ ts.1, ts.2).
Proof.
  intros Hst <- Ht. cbn [expand piece_text fetch]. rewrite (proj2 (Z.leb_le 0 st)) by done.
  apply plain_text_arg in Ht as Ha.
  destruct (nth (Z.to_nat st) args NONE); try done;
    cbn [resolved mbind option_bind as_text field_value fst snd]; by rewrite Ha.
Qed.
End PlainFields.

(** ** Two corners of the parser

    The overflow test of [parse_nonnegative_int] compares with the previous
    value only: a number can wrap and stay above it. *)
Example number_wraps : parse_nonnegative_int !"5000000000" = Ok (705032704, []).
Proof. reflexivity. Qed.
(** The alignment is looked for one character ahead, behind the closing brace
    of an empty specifier too: the equals sign of the text is taken for a
    numeric alignment, which a character does not allow. *)
Example alignment_behind_the_field :
  writer_write (H0 := MemoryBuffer nul) nul !"," !"{:}=" [CHAR 65 : Arg Z] (new_memory_buffer nul 8)
  = Some (Thrown (FormatError !"invalid format specifier for char")).
Proof. vm_compute. reflexivity. Qed.
