(* ===== verification/FmtPrintf.v ===== *)
(** * printf format strings, [src/src/spdlog/fmt/bundled/format.cc]

    [PrintfFormatter] parses the format strings of the C library and writes
    the arguments with the writer of [FmtFormat].  Its visitors read a number
    out of an argument, convert an argument to the type a length modifier
    names, and override the parts of [ArgFormatterBase] that printf does in
    another way.  The integer types are those of the LP64 platforms. *)
From S2P Require Import Prelude Cxx Fmt FmtFacts FmtBuffer FmtDouble FmtFormat.

Open Scope Z_scope.

(** ** Integer types *)
Record int_type := IntType { bits : Z; is_signed : bool }.
Definition c_bool : int_type := IntType 8 false.
Definition c_schar : int_type := IntType 8 true.
Definition c_short : int_type := IntType 16 true.
Definition c_int : int_type := IntType 32 true.
Definition c_uint : int_type := IntType 32 false.
Definition c_long : int_type := IntType 64 true.
Definition c_llong : int_type := IntType 64 true.
Definition c_ullong : int_type := IntType 64 false.
Definition c_intmax : int_type := IntType 64 true.
Definition c_size : int_type := IntType 64 false.
Definition c_ptrdiff : int_type := IntType 64 true.
(** [static_cast<T>(z)] *)
Definition cast (t : int_type) (z : Z) : Z := if is_signed t then wrap_s (bits t) z else wrap_u (bits t) z.
(** [MakeUnsigned<T>::Type] *)
Definition make_unsigned (t : int_type) : int_type := IntType (bits t) false.
(** The width of [IntTraits<T>::MainType]. *)
Definition main_width (t : int_type) : Z := if bits t <=? 32 then 32 else 64.

Section Printf.
Context {D : Type} `{FloatLib D} `{Grow}.
Variable junk : ascii.
Variable locale_sep : bytes.

(** [ArgVisitor::visit] for a visitor that has only [visit_any_int]: the
    argument with its C++ type; [unhandled] is [visit_unhandled_arg]. *)
Definition visit_int {R} (any_int : int_type -> Z -> R) (unhandled : R) (arg : Arg D) : R :=
  match arg with
  | INT z => any_int c_int z
  | UINT z => any_int c_uint z
  | LONG_LONG z => any_int c_llong z
  | ULONG_LONG z => any_int c_ullong z
  | BOOL v => any_int c_bool (Z.b2z v)
  | CHAR z => any_int c_int z
  | _ => unhandled
  end.

(** [IsZeroInt] *)
Definition is_zero_int : Arg D -> bool := visit_int (fun _ value => value =? 0) false.

(** [WidthHandler]: the width, and the specifier with its alignment. *)
Definition width_any_int (sp : spec) (t : int_type) (value : Z) : exc (Z * spec) :=
  let w := main_width t in
  let width := wrap_u w value in
  let '(width, sp) := if value <? 0 then (wrap_u w (0 - width), set_align ALIGN_LEFT sp) else (width, sp) in
  if int_max <? width then Thrown (FormatError !"number is too big") else Ok (u32 width, sp).
Definition width_handler (sp : spec) : Arg D -> exc (Z * spec) :=
  visit_int (width_any_int sp) (Thrown (FormatError !"width is not integer")).

(** [IntChecker<T>::fits_in_int]: the comparison with [INT_MAX] only for the
    unsigned types. *)
Definition fits_in_int (t : int_type) (value : Z) : bool :=
  if is_signed t then (int_min <=? value) && (value <=? int_max) else value <=? int_max.
(** [PrecisionHandler] *)
Definition precision_handler : Arg D -> exc Z :=
  visit_int
    (fun t value => if negb (fits_in_int t value) then Thrown (FormatError !"number is too big")
                    else Ok (i32 value))
    (Thrown (FormatError !"precision is not integer")).

(** [ArgConverter<T>]; no target is [void]. *)
Definition is_di (type_ : ascii) : bool := bool_decide (type_ = "d"%char) || bool_decide (type_ = "i"%char).
Definition convert_any_int (T : option int_type) (type_ : ascii) (U : int_type) (value : Z) : Arg D :=
  let target := match T with Some t => t | None => U end in
  if bits target <=? bits c_int then
    if is_di type_ then INT (cast c_int (cast target value))
    else UINT (cast c_uint (cast (make_unsigned target) value))
  else if is_di type_ then LONG_LONG (cast c_llong value)
  else ULONG_LONG (cast c_ullong (cast (make_unsigned U) value)).
Definition arg_converter (T : option int_type) (type_ : ascii) (arg : Arg D) : Arg D :=
  match arg with
  | BOOL _ => if bool_decide (type_ = "s"%char) then arg
              else visit_int (convert_any_int T type_) arg arg
  | _ => visit_int (convert_any_int T type_) arg arg
  end.
(** [CharConverter] *)
Definition char_converter (arg : Arg D) : Arg D :=
  visit_int (fun _ value => CHAR (wrap_s 8 value)) arg arg.

(** ** Writing an argument, [PrintfArgFormatter] *)
Definition write_null_pointer (sp : spec) (b : buffer) : exc buffer :=
  write_string junk 1 !"(nil)" (set_type nul sp) b.
Definition printf_visit_bool (value : bool) (sp : spec) (b : buffer) : exc buffer :=
  if negb (bool_decide (type_ sp = "s"%char)) then visit_any_int junk locale_sep 32 (Z.b2z value) sp b
  else write_string junk 1 (if value then !"true" else !"false") (set_type nul sp) b.
(** The area of the character: padded with spaces, left or right. *)
Definition printf_char_area (value : Z) (sp : spec) : bytes :=
  let w := width_ sp in
  if (1 <? w)%nat then
    let area := repeat junk w in
    let '(area, out) :=
      if negb (bool_decide (align_ sp = ALIGN_LEFT)) then (fill_n 0 (w - 1) space area, (w - 1)%nat)
      else (fill_n 1 (w - 1) space area, O) in
    <[out := char_of value]> area
  else <[O := char_of value]> (repeat junk 1).
(** There is no [return] behind [w.write_int]. *)
Definition printf_visit_char (value : Z) (sp : spec) (b : buffer) : exc buffer :=
  let! b := (if negb (bool_decide (type_ sp = nul)) && negb (bool_decide (type_ sp = "c"%char))
             then visit_any_int junk locale_sep 32 value sp b else Ok b) in
  append (printf_char_area value sp) b.
Definition printf_visit_cstring (p : Z) (s : bytes) (sp : spec) (b : buffer) : exc buffer :=
  if negb (p =? 0) then visit_cstring junk locale_sep p s sp b
  else if bool_decide (type_ sp = "p"%char) then write_null_pointer sp b
  else write_string junk 1 !"(null)" sp b.
Definition printf_visit_pointer (p : Z) (sp : spec) (b : buffer) : exc buffer :=
  if negb (p =? 0) then visit_pointer junk locale_sep p sp b
  else write_null_pointer (set_type nul sp) b.
(** [PrintfArgFormatter::visit]: what the class does not override is
    [FmtFormat.visit]; an argument of class type is formatted by a
    [BasicFormatter] on the format ["}"], that is without a specifier. *)
Definition printf_visit (arg : Arg D) (sp : spec) (b : buffer) : option (exc buffer) :=
  match arg with
  | BOOL v => Some (printf_visit_bool v sp b)
  | CHAR z => Some (printf_visit_char z sp b)
  | CSTRING p s => Some (printf_visit_cstring p s sp b)
  | POINTER p => Some (printf_visit_pointer p sp b)
  | _ => visit junk locale_sep arg sp b
  end.

(** ** Parsing *)
Variable args : @ArgList D.

Fixpoint parse_flags (sp : spec) (s : bytes) : spec * bytes :=
  match s with
  | [] => (sp, [])
  | c :: s' =>
      if decide (c = "-"%char) then parse_flags (set_align ALIGN_LEFT sp) s'
      else if decide (c = "+"%char) then parse_flags (add_flags (Z.lor SIGN_FLAG PLUS_FLAG) sp) s'
      else if decide (c = "0"%char) then parse_flags (set_fill "0" sp) s'
      else if decide (c = " "%char) then parse_flags (add_flags SIGN_FLAG sp) s'
      else if decide (c = "#"%char) then parse_flags (add_flags HASH_FLAG sp) s'
      else (sp, s)
  end.

(** [get_arg(s, arg_index)] *)
Definition printf_get_arg (s : bytes) (arg_index : Z) (f : @formatter D) : exc (Arg D * @formatter D) :=
  match (if arg_index =? uint_max then next_arg args f else get_arg args (u32 (arg_index - 1)) f) with
  | (_, Some error, _) =>
      Thrown (FormatError (if bool_decide (peek s = nul) then !"invalid format string" else error))
  | (arg, None, f) => Ok (arg, f)
  end.

(** The end of [parse_header]: flags and width. *)
Definition parse_flags_width (arg_index : Z) (sp : spec) (s : bytes) (f : @formatter D) :
    exc (Z * spec * bytes * @formatter D) :=
  let '(sp, s) := parse_flags sp s in
  if is_digit (peek s) then
    let! (width, s) := parse_nonnegative_int s in Ok (arg_index, set_width width sp, s, f)
  else if at_char "*" s then
    let s := next s in
    let! (arg, f) := printf_get_arg s uint_max f in
    let! (width, sp) := width_handler sp arg in
    Ok (arg_index, set_width width sp, s, f)
  else Ok (arg_index, sp, s, f).
Definition parse_header (s : bytes) (sp : spec) (f : @formatter D) :
    exc (Z * spec * bytes * @formatter D) :=
  let c := peek s in
  if is_digit c then
    let! (value, s) := parse_nonnegative_int s in
    if at_char "$" s then parse_flags_width value sp (next s) f
    else
      let sp := if bool_decide (c = "0"%char) then set_fill "0" sp else sp in
      if negb (value =? 0) then Ok (uint_max, set_width value sp, s, f)
      else parse_flags_width uint_max sp s f
  else parse_flags_width uint_max sp s f.

Definition printf_precision (sp : spec) (s : bytes) (f : @formatter D) : exc (spec * bytes * @formatter D) :=
  if at_char "." s then
    let s := next s in
    if is_digit (peek s) then
      let! (n, s) := parse_nonnegative_int s in Ok (set_precision (i32 n) sp, s, f)
    else if at_char "*" s then
      let s := next s in
      let! (arg, f) := printf_get_arg s uint_max f in
      let! n := precision_handler arg in
      Ok (set_precision n sp, s, f)
    else Ok (sp, s, f)
  else Ok (sp, s, f).

(** The adjustment of the flags to the argument. *)
Definition adjust_flags (arg : Arg D) (sp : spec) : spec :=
  let sp := if spec_flag sp HASH_FLAG && is_zero_int arg
            then set_flags (Z.ldiff (flags_ sp) HASH_FLAG) sp else sp in
  if bool_decide (fill_ sp = "0"%char) then
    if type_code arg <=? LAST_NUMERIC_TYPE then set_align ALIGN_NUMERIC sp else set_fill space sp
  else sp.

(** The length modifier: the argument converted for the type character at
    the new [s]. *)
Definition parse_length (arg : Arg D) (s : bytes) : Arg D * bytes :=
  let convert T s := (arg_converter T (peek s) arg, s) in
  if at_char "h" s then
    let s := next s in
    if at_char "h" s then convert (Some c_schar) (next s) else convert (Some c_short) s
  else if at_char "l" s then
    let s := next s in
    if at_char "l" s then convert (Some c_llong) (next s) else convert (Some c_long) s
  else if at_char "j" s then convert (Some c_intmax) (next s)
  else if at_char "z" s then convert (Some c_size) (next s)
  else if at_char "t" s then convert (Some c_ptrdiff) (next s)
  else if at_char "L" s then (arg, next s)
  else convert None s.

(** The type character: integers have it normalised. *)
Definition normalize_type (arg : Arg D) (t : ascii) : Arg D * ascii :=
  if type_code arg <=? LAST_INTEGER_TYPE then
    if bool_decide (t = "i"%char) || bool_decide (t = "u"%char) then (arg, "d"%char)
    else if bool_decide (t = "c"%char) then (char_converter arg, t)
    else (arg, t)
  else (arg, t).

(** ** [format] *)

(** From behind the percent sign: up to the argument and its specifier. *)
Definition printf_parse (s : bytes) (f : @formatter D) : exc (Arg D * spec * bytes * @formatter D) :=
  let! (arg_index, sp, s, f) := parse_header s (set_align ALIGN_RIGHT new_spec) f in
  let! (sp, s, f) := printf_precision sp s f in
  let! (arg, f) := printf_get_arg s arg_index f in
  let sp := adjust_flags arg sp in
  let '(arg, s) := parse_length arg s in
  if bool_decide (peek s = nul) then Thrown (FormatError !"invalid format string")
  else
    let '(arg, t) := normalize_type arg (peek s) in
    Ok (arg, set_type t sp, next s, f).

(** The loop: [text] lies between [start] and [s]; [None] is a loop that has
    not ended. *)
Fixpoint printf_loop (fuel : nat) (text s : bytes) (f : @formatter D) : option (exc (@formatter D)) :=
  match fuel with
  | O => None
  | S fuel =>
      let c := peek s in
      if decide (c = nul) then Some (write_text text f)
      else
        let s := next s in
        if negb (bool_decide (c = "%"%char)) then printf_loop fuel (text ++ [c]) s f
        else if at_char c s then
          match write_text (text ++ [c]) f with
          | Thrown e => Some (Thrown e)
          | Ok f => printf_loop fuel [] (next s) f
          end
        else
          match (let! f := write_text text f in printf_parse s f) with
          | Thrown e => Some (Thrown e)
          | Ok (arg, sp, s, f) =>
              match printf_visit arg sp (buffer_ f) with
              | None => None
              | Some (Thrown e) => Some (Thrown e)
              | Some (Ok b) => printf_loop fuel [] s (set_buffer b f)
              end
          end
  end.
Definition printf_format (format_str : bytes) (b : buffer) : option (exc buffer) :=
  option_map (exc_map buffer_) (printf_loop (S (length format_str)) [] format_str (new_formatter b)).
End Printf.

(** [printf(BasicWriter &, format, args)] *)
Definition printf {D} `{FloatLib D} `{Grow} (junk : ascii) (locale_sep : bytes)
    (format_str : bytes) (args : list (Arg D)) (b : buffer) : option (exc buffer) :=
  printf_format junk locale_sep (arg_list args) format_str b.

(** ** The functions on strings and files *)
Section Files.
Context {D : Type} `{FloatLib D}.
Variable junk : ascii.
Variable locale_sep : bytes.
Notation new_writer := (new_memory_buffer junk INLINE_BUFFER_SIZE).

(** [sprintf] and [format]: the string of a [MemoryWriter]. *)
Definition sprintf (format_str : bytes) (args : list (Arg D)) : option (exc bytes) :=
  option_map (exc_map content)
    (printf (H0 := MemoryBuffer junk) junk locale_sep format_str args new_writer).
Definition format_to_string (format_str : bytes) (args : list (Arg D)) : option (exc bytes) :=
  option_map (exc_map content)
    (writer_write (H0 := MemoryBuffer junk) junk locale_sep format_str args new_writer).

(** A [FILE*]: what was written to it, and how much more it takes. *)
Record file := File { written : bytes; room : nat }.
(** [fwrite(data, 1, size, f)] *)
Definition fwrite (data : bytes) (f : file) : file * Z :=
  let n := Nat.min (length data) (room f) in
  (File (written f ++ take n data) (room f - n), Z.of_nat n).

(** [fprintf]: minus one after a short write. *)
Definition fprintf (f : file) (format_str : bytes) (args : list (Arg D)) : option (exc (file * Z)) :=
  option_map (exc_map (fun text =>
    let size := len text in
    let '(f, n) := fwrite text f in
    (f, if n <? size then -1 else i32 size)))
    (sprintf format_str args).
(** [print(FILE *, ...)] *)
Definition print_file (f : file) (format_str : bytes) (args : list (Arg D)) : option (exc file) :=
  option_map (exc_map (fun text => (fwrite text f).1)) (format_to_string format_str args).

(** [enum Color] and [print_colored]; [out] is [stdout]. *)
Inductive Color := BLACK | RED | GREEN | YELLOW | BLUE | MAGENTA | CYAN | WHITE.
Definition color_code (c : Color) : Z :=
  match c with
  | BLACK => 0 | RED => 1 | GREEN => 2 | YELLOW => 3 | BLUE => 4 | MAGENTA => 5 | CYAN => 6 | WHITE => 7
  end.
Definition ESC : ascii := ascii_of_N 27.
Definition RESET_COLOR : bytes := ESC :: !"[0m".
Definition color_escape (c : Color) : bytes :=
  <[3%nat := ascii_of_N (Z.to_N (48 + color_code c))]> (ESC :: !"[30m").
(** The escape is on the stream when formatting throws. *)
Definition print_colored (c : Color) (out : file) (format_str : bytes) (args : list (Arg D)) :
    option (file * exc unit) :=
  let out := (fwrite (color_escape c) out).1 in
  match print_file out format_str args with
  | None => None
  | Some (Thrown e) => Some (out, Thrown e)
  | Some (Ok out) => Some ((fwrite RESET_COLOR out).1, Ok tt)
  end.
End Files.
