(* ===== verification/FmtPrintfFacts.v ===== *)
(** * printf format strings: what the parser does with any string

    Every way through [printf_parse] moves forward and consumes at least the
    type character, so the loop of [PrintfFormatter::format] ends. *)
From S2P Require Import Prelude Cxx Fmt FmtFacts FmtBuffer FmtDouble FmtDoubleFacts FmtFormat FmtArgsFacts FmtFormatFacts FmtPrintf.

Open Scope Z_scope.

Section Termination.
Context {D : Type} `{FloatLib D} `{Grow}.
Variable junk : ascii.
Variable locale_sep : bytes.
Variable args : @ArgList D.
Hypothesis args_patient : Forall patient_arg (args_ args).
Implicit Types f : @formatter D.

Lemma parse_flags_len sp s : (length (parse_flags sp s).2 <= length s)%nat.
Proof.
  revert sp; induction s as [|c s IH]; intros sp; simpl; [done|].
  repeat case_decide; simpl; try done; etransitivity; [apply IH|lia|apply IH|lia|apply IH|lia|apply IH|lia|apply IH|lia].
Qed.
Lemma printf_get_arg_found s i f a f' :
  printf_get_arg args s i f = Ok (a, f') -> same f f' /\ (map_ok f -> patient_arg a).
Proof.
  unfold printf_get_arg. intros Hg. pose proof (next_arg_fetched args args_patient f) as [??].
  pose proof (get_arg_fetched args args_patient (u32 (i - 1)) f) as [??].
  destruct (i =? uint_max);
    [destruct (next_arg args f) as [[? []] ?]|destruct (get_arg args (u32 (i - 1)) f) as [[? []] ?]]; by simplify_eq/=.
Qed.
(** The conversions keep a number with a fraction as it is. *)
Lemma visit_int_number (k : int_type -> Z -> Arg D) (a : Arg D) :
  (forall w z, number_of (k w z) = None) -> number_of (visit_int k a a) = number_of a.
Proof. intros Hk. destruct a; cbn [visit_int]; try done; by rewrite Hk. Qed.

(** The header: [forward] for its four results. *)
Definition onward (s : bytes) f (m : exc (Z * spec * bytes * @formatter D)) : Prop :=
  forall i sp s' f', m = Ok (i, sp, s', f') -> (length s' <= length s)%nat /\ same f f'.
Lemma flags_width_onward i sp s f : onward s f (parse_flags_width args i sp s f).
Proof.
  unfold parse_flags_width. pose proof (parse_flags_len sp s) as Hl. destruct (parse_flags sp s) as [sp1 s1]. simpl in Hl.
  intros i' sp' s' f' Hp. destruct (is_digit (peek s1)); [|destruct (at_char "*" s1)].
  - apply exc_bind_ok in Hp as ([w s2] & Hn & [= <- <- <- <-]). apply parse_int_len in Hn. split; [lia|done].
  - pose proof (next_len s1). apply exc_bind_ok in Hp as ([a f1] & Hg & Hp). apply printf_get_arg_found in Hg as [Hg _].
    apply exc_bind_ok in Hp as ([w sp2] & _ & [= <- <- <- <-]). split; [lia|done].
  - simplify_eq. split; [lia|done].
Qed.
Lemma header_onward sp s f : onward s f (parse_header args s sp f).
Proof.
  unfold parse_header. destruct (is_digit (peek s)); [|apply flags_width_onward].
  intros i' sp' s' f' Hp. apply exc_bind_ok in Hp as ([n s1] & Hn & Hp). apply parse_int_len in Hn.
  pose proof (next_len s1). destruct (at_char "$" s1); [|destruct (negb _)];
    try (apply flags_width_onward in Hp as [??]; split; [lia|done]).
  simplify_eq. split; [lia|done].
Qed.
Lemma printf_precision_forward sp s f : forward s f (printf_precision args sp s f).
Proof.
  unfold printf_precision. destruct (at_char "." s); [|apply forward_here]. apply forward_drop.
  destruct (is_digit _); [|destruct (at_char _ _); [|apply forward_here]].
  - apply forward_bind_pure; [apply forward_int|]. intros. apply forward_here.
  - apply forward_drop. intros sp' s' f' Hp. apply exc_bind_ok in Hp as ([a f1] & Hg & Hp).
    apply printf_get_arg_found in Hg as [Hg _]. apply exc_bind_ok in Hp as (n & _ & [= <- <- <-]). done.
Qed.
Lemma parse_length_len (a : Arg D) s : (length (parse_length a s).2 <= length s)%nat.
Proof.
  unfold parse_length. pose proof (next_len s). pose proof (next_len (next s)). repeat case_match; simpl; lia.
Qed.
Lemma arg_converter_number T t (a : Arg D) : number_of (arg_converter T t a) = number_of a.
Proof.
  assert (Hv : number_of (visit_int (convert_any_int T t) a a) = number_of a).
  { apply visit_int_number. intros w z. unfold convert_any_int. by repeat case_match. }
  unfold arg_converter. destruct a; try exact Hv. by case_bool_decide.
Qed.
Lemma parse_length_number (a : Arg D) s : number_of (parse_length a s).1 = number_of a.
Proof. unfold parse_length. repeat case_match; try done; apply arg_converter_number. Qed.
Lemma normalize_number (a : Arg D) t : number_of (normalize_type a t).1 = number_of a.
Proof. unfold normalize_type. repeat case_match; try done. by apply visit_int_number. Qed.
(** The type character is consumed. *)
Lemma printf_parse_len s f a sp s' f' :
  printf_parse args s f = Ok (a, sp, s', f') ->
  (length s' < length s)%nat /\ same f f' /\ (map_ok f -> patient_arg a).
Proof.
  unfold printf_parse. intros Hp. apply exc_bind_ok in Hp as ([[[i sp1] s1] f1] & H1 & Hp).
  apply header_onward in H1 as [Hl1 Hs1]. apply exc_bind_ok in Hp as ([[sp2 s2] f2] & H2 & Hp).
  apply printf_precision_forward in H2 as [Hl2 Hs2]. apply exc_bind_ok in Hp as ([a1 f3] & H3 & Hp).
  apply printf_get_arg_found in H3 as [Hs3 Ha1]. pose proof (parse_length_len a1 s2) as Hl.
  pose proof (parse_length_number a1 s2) as Hn2.
  destruct (parse_length a1 s2) as [a2 s3]. simpl in Hl, Hn2. destruct (bool_decide _) eqn:Hn; [done|].
  pose proof (normalize_number a2 (peek s3)) as Hn3.
  destruct (normalize_type a2 (peek s3)) as [a3 t]. simplify_eq. pose proof (next_len s3).
  assert (Hs : same f f2) by (by eapply same_trans).
  split; [|split; [by eapply same_trans|]].
  - destruct s3; [done|]. simpl in *. lia.
  - intros Hm v Hv. apply (Ha1 (proj2 Hs Hm)). cbn [fst] in Hn3. congruence.
Qed.

Lemma keeps_visit_string t sp b : buffer_wf b -> keeps_wf (write_string junk 1 t sp b).
Proof. apply keeps_string. Qed.
Lemma printf_visit_ends (a : Arg D) sp b :
  patient_arg a -> buffer_wf b -> exists r, printf_visit junk locale_sep a sp b = Some r /\ keeps_wf r.
Proof.
  intros Ha Hb. destruct a; cbn [printf_visit]; try (by apply visit_ends); eexists; (split; [done|]).
  - unfold printf_visit_bool. case_match; [by apply keeps_any_int|by apply keeps_string].
  - unfold printf_visit_char. intros b' Hv. apply exc_bind_ok in Hv as (b1 & Hv & Hap).
    assert (buffer_wf b1) by (case_match; [by eapply keeps_any_int|by simplify_eq]).
    by eapply keeps_append.
  - unfold printf_visit_cstring, visit_cstring, write_null_pointer.
    repeat case_match; by apply keeps_pointer || apply keeps_string.
  - unfold printf_visit_pointer, visit_pointer, write_null_pointer.
    repeat case_match; done || (by apply keeps_pointer) || by apply keeps_string.
Qed.

Lemma printf_loop_ends fuel text s f :
  ready_ f -> (length s < fuel)%nat ->
  exists r, printf_loop junk locale_sep args fuel text s f = Some r
  /\ forall f', r = Ok f' -> ready_ f'.
Proof.
  revert text s f; induction fuel as [|fuel IH]; intros text s f Hb Hl; [lia|]. cbn [printf_loop].
  destruct (decide (peek s = nul)) as [|Hc]; [eexists; split; [done|]; eauto using write_text_ready_|].
  destruct s as [|c s]; [done|]. cbn [peek next tail length] in *.
  destruct (negb _); [apply IH; [done|lia]|]. destruct (at_char c s).
  - destruct (write_text _ f) as [f1|] eqn:Hw; [|eexists; by split]. apply write_text_ready_ in Hw; [|done].
    apply IH; [done|]. fold (next s). rewrite next_len. lia.
  - destruct (write_text text f) as [f1|] eqn:Hw; cbn [exc_bind]; [|eexists; by split].
    apply write_text_ready_ in Hw; [|done].
    destruct (printf_parse args s f1) as [[[[a sp] s1] f2]|] eqn:Hp; [|eexists; by split].
    apply printf_parse_len in Hp as (Hl1 & Hf & Ha). specialize (Ha (proj2 Hw)).
    apply (same_ready _ _ Hf) in Hw as [Hb2 Hm2].
    destruct (printf_visit_ends a sp _ Ha Hb2) as ([b|] & -> & Hk); [|eexists; by split].
    apply IH; [split; [by apply Hk|done]|lia].
Qed.
End Termination.

(** printf, termination.  Whatever the format string, the arguments and
    the buffer, [printf] comes to an end: it returns a well-formed buffer or
    throws; for numbers with a fraction on the conditions of
    [format_terminates]. *)
Theorem printf_terminates {D} `{FloatLib D} `{Grow} junk locale_sep (args : list (Arg D)) format_str b :
  Forall patient_arg args -> buffer_wf b ->
  exists r, printf junk locale_sep format_str args b = Some r
  /\ forall b', r = Ok b' -> buffer_wf b'.
Proof.
  intros Ha Hb. unfold printf, printf_format.
  destruct (printf_loop_ends junk locale_sep (arg_list args) (patient_list args Ha) (S (length format_str)) [] format_str
    (new_formatter b) (conj Hb (Forall_nil_2 _)) ltac:(lia)) as ([f|e] & -> & Hk).
  - eexists; split; [done|]. intros b' [= <-]. by apply Hk.
  - eexists; by split.
Qed.
Lemma printf_terminates_witness :
  (exists r, printf (H0 := FixedBuffer) nul !"," !"%*.%0-$hh" [INT 4; DOUBLE 15] (new_fixed_buffer (repeat nul 4)) = Some r
   /\ forall b', r = Ok b' -> buffer_wf b')
  /\ option_map (exc_map content)
       (printf (H0 := FixedBuffer) nul !"," !"%hhd%d" [INT 260; INT 15] (new_fixed_buffer (repeat nul 2)))
     = Some (Thrown (runtime_error !"buffer overflow")).
Proof.
  split; [|vm_compute; reflexivity].
  apply (printf_terminates (H0 := FixedBuffer) nul !"," [INT 4; DOUBLE 15] !"%*.%0-$hh" (new_fixed_buffer (repeat nul 4)));
    [|vm_compute; lia].
  repeat apply Forall_cons_2; [discriminate| |apply Forall_nil_2].
  intros v _. right. exists O. split; [|simpl; lia]. intros n b _. by exists (runtime_error !"buffer overflow").
Defined.
