(* ===== verification/FmtPrintfTemplate.v ===== *)
(** * The reference of the printf language

    As [FmtTemplate] does for the other syntax: a template is a list of texts
    and conversions, [print_conv] writes a conversion behind a percent sign,
    and [printf_expand] says what the template stands for.  An integer is
    printed as the number its length modifier and type character make of it
    ([printed_int]), not as a chain of casts. *)
From S2P Require Import Prelude Cxx Fmt FmtFacts FmtBuffer FmtDouble FmtDoubleFacts FmtFormat FmtArgsFacts FmtTemplate FmtPrintf.

Open Scope Z_scope.

(** ** Syntax *)
Inductive amount_p := Digits (n : Z) | Star.
Inductive precision_p := NoPrecision | Dot | DotAmount (a : amount_p).
Inductive length_p := NoLength | Len_hh | Len_h | Len_l | Len_ll | Len_j | Len_z | Len_t | Len_L.
#[export] Instance length_p_dec : EqDecision length_p.
Proof. solve_decision. Defined.
Record conversion := Conversion {
  c_arg : option Z; c_flags : bytes; c_width : option amount_p; c_precision : precision_p;
  c_length : length_p; c_type : ascii
}.
Inductive piece_p := Literal (t : bytes) | Conv (c : conversion).

Definition print_amount_p (a : amount_p) : bytes := match a with Digits n => dec_nat n | Star => !"*" end.
Definition print_width_p (w : option amount_p) : bytes := option_text print_amount_p w.
Definition print_precision_p (p : precision_p) : bytes :=
  match p with NoPrecision => [] | Dot => !"." | DotAmount a => "."%char :: print_amount_p a end.
Definition print_length (l : length_p) : bytes :=
  match l with
  | NoLength => [] | Len_hh => !"hh" | Len_h => !"h" | Len_l => !"l" | Len_ll => !"ll"
  | Len_j => !"j" | Len_z => !"z" | Len_t => !"t" | Len_L => !"L"
  end.
Definition print_conv (c : conversion) : bytes :=
  option_text (fun n => dec_nat n ++ !"$") (c_arg c) ++ c_flags c ++ print_width_p (c_width c)
  ++ print_precision_p (c_precision c) ++ print_length (c_length c) ++ [c_type c].
(** Percent signs are doubled. *)
Definition escape_p (t : bytes) : bytes :=
  concat (map (fun c => if bool_decide (c = "%"%char) then [c; c] else [c]) t).
Definition print_piece_p (p : piece_p) : bytes :=
  match p with Literal t => escape_p t | Conv c => "%"%char :: print_conv c end.
Definition print_p (l : list piece_p) : bytes := concat (map print_piece_p l).

(** *** What can be written *)
Definition amount_p_ok (low : Z) (a : amount_p) : Prop :=
  match a with Digits n => low <= n <= int_max | Star => True end.
Record conv_ok (c : conversion) : Prop := {
  conv_arg : opt_ok (fun n => 1 <= n <= int_max) (c_arg c);
  conv_flags : Forall (fun x => x ∈ !"-+0 #") (c_flags c);
  conv_width : opt_ok (amount_p_ok 1) (c_width c);
  conv_precision : match c_precision c with DotAmount a => amount_p_ok 0 a | _ => True end;
  conv_type : is_name_start (c_type c) = true /\ c_type c ∉ !"hljztL"
}.
Definition piece_p_ok (p : piece_p) : Prop :=
  match p with Literal t => Forall (fun c => c <> nul) t | Conv c => conv_ok c end.

(** ** Meaning *)
Section Meaning.
Context {D : Type} `{FloatLibOk D}.
Variable locale_sep : bytes.
Variable args : list (Arg D).

(** The value of an integer argument, and the width of its C++ type. *)
Definition int_value (a : Arg D) : option Z :=
  match a with
  | INT z | UINT z | LONG_LONG z | ULONG_LONG z | CHAR z => Some z
  | BOOL v => Some (Z.b2z v)
  | _ => None
  end.
Definition int_bits (a : Arg D) : Z :=
  match a with LONG_LONG _ | ULONG_LONG _ => 64 | BOOL _ => 8 | _ => 32 end.

(** A width, and whether it is negative; a precision. *)
Definition width_value (w : option amount_p) (st : Z) : option (Z * bool * Z) :=
  match w with
  | None => Some (0, false, st)
  | Some (Digits n) => Some (n, false, st)
  | Some Star =>
      p ← fetch args Auto st; z ← int_value p.1;
      if int_max <? Z.abs z then None else Some (Z.abs z, z <? 0, p.2)
  end.
Definition precision_value (p : precision_p) (st : Z) : option (Z * Z) :=
  match p with
  | NoPrecision | Dot => Some (-1, st)
  | DotAmount (Digits n) => Some (n, st)
  | DotAmount Star =>
      p ← fetch args Auto st; z ← int_value p.1;
      if (int_min <=? z) && (z <=? int_max) then Some (z, p.2) else None
  end.
Definition has_flag (fl : bytes) (c : ascii) : bool := bool_decide (c ∈ fl).
Definition flag_bit (c : ascii) : Z :=
  if decide (c = "+"%char) then 3 else if decide (c = space) then 1
  else if decide (c = "#"%char) then 8 else 0.
Definition flag_bits (fl : bytes) : Z := foldr (fun c z => Z.lor (flag_bit c) z) 0 fl.

(** The specifier for an argument: a zero has no base prefix, the flag [0]
    is for numbers and wins over [-]. *)
Definition is_zero (a : Arg D) : bool := match int_value a with Some z => z =? 0 | None => false end.
Definition conv_spec (c : conversion) (a : Arg D) (w : Z) (left : bool) (p : Z) (t : ascii) : spec :=
  let zero := has_flag (c_flags c) "0" && numeric a in
  Spec (Z.to_nat w) (if zero then "0"%char else space)
    (if zero then ALIGN_NUMERIC
     else if has_flag (c_flags c) "-" || left then ALIGN_LEFT else ALIGN_RIGHT)
    (let b := flag_bits (c_flags c) in if is_zero a then Z.ldiff b HASH_FLAG else b) p t.

(** The number that is printed: reduced to the width of the length modifier
    or of the argument.  The unsigned conversions to 64 bits do not extend
    the sign of a smaller argument. *)
Definition length_bits (l : length_p) : option Z :=
  match l with
  | NoLength | Len_L => None
  | Len_hh => Some 8 | Len_h => Some 16
  | _ => Some 64
  end.
Definition printed_int (c : conversion) (a : Arg D) (z : Z) : Z :=
  match c_length c with
  | Len_L => z
  | l =>
      let w := match length_bits l with Some w => w | None => int_bits a end in
      if is_di (c_type c) then wrap_s w z else wrap_u (if w <=? 32 then w else int_bits a) z
  end.
Definition normal_type (t : ascii) : ascii :=
  if bool_decide (t = "i"%char) || bool_decide (t = "u"%char) then "d"%char else t.
(** A character, in a field filled with spaces. *)
Definition printf_char_text (z : Z) (s : spec) : bytes :=
  pad_text (width_ s) space (match align_ s with ALIGN_LEFT => ALIGN_LEFT | _ => ALIGN_RIGHT end) [] [char_of z].
(** An integer: a number or a character.  Behind [L] an argument of type
    [char] that is printed as a number is printed as a character too. *)
Definition printf_int_text (c : conversion) (a : Arg D) (z : Z) (mk : ascii -> spec) : option bytes :=
  if bool_decide (c_type c = "c"%char) then Some (printf_char_text z (mk "c"%char))
  else
    let sp := mk (normal_type (c_type c)) in
    t ← int_text locale_sep (printed_int c a z) sp;
    Some (t ++ match a, c_length c with CHAR _, Len_L => printf_char_text z sp | _, _ => [] end).
Definition nil_text (sp : spec) : option bytes := string_text 1 !"(nil)" (set_type nul sp).
Definition printf_arg_text (c : conversion) (a : Arg D) (mk : ascii -> spec) : option bytes :=
  let sp := mk (c_type c) in
  match a with
  | BOOL v => if bool_decide (c_type c = "s"%char)
              then string_text 1 (if v then !"true" else !"false") (set_type nul sp)
              else printf_int_text c a (Z.b2z v) mk
  | INT z | UINT z | LONG_LONG z | ULONG_LONG z | CHAR z => printf_int_text c a z mk
  | CSTRING p t => if p =? 0
                   then if bool_decide (c_type c = "p"%char) then nil_text sp else string_text 1 !"(null)" sp
                   else arg_text locale_sep a sp
  | POINTER p => if p =? 0 then nil_text sp else arg_text locale_sep a sp
  | CUSTOM t => Some t
  | _ => arg_text locale_sep a sp
  end.

Definition conv_text (c : conversion) (st : Z) : option (bytes * Z) :=
  w ← width_value (c_width c) st;
  p ← precision_value (c_precision c) w.2;
  a ← fetch args (match c_arg c with None => Auto | Some n => Index (n - 1) end) p.2;
  t ← printf_arg_text c a.1 (conv_spec c a.1 w.1.1 w.1.2 p.1);
  Some (t, a.2).
Definition piece_p_text (p : piece_p) (st : Z) : option (bytes * Z) :=
  match p with Literal t => Some (t, st) | Conv c => conv_text c st end.
Fixpoint printf_expand (l : list piece_p) (st : Z) : option (bytes * Z) :=
  match l with
  | [] => Some ([], st)
  | p :: l => t ← piece_p_text p st; ts ← printf_expand l t.2; Some (t.1 ++ ts.1, ts.2)
  end.

(** What makes a format string fail behind a template that left the state
    [st]. *)
Inductive printf_fails (st : Z) : bytes -> bytes -> Prop :=
| incomplete fl : Forall (fun c => c ∈ !"-+0 #") fl -> printf_fails st ("%"%char :: fl) !"invalid format string"
| no_argument_p r : 0 <= st -> nth (Z.to_nat st) args NONE = NONE ->
    printf_fails st (!"%d" ++ r) !"argument index out of range"
| zero_index r : st <= 0 -> len args <= uint_max -> printf_fails st (!"%0$d" ++ r) !"argument index out of range"
| star_not_integer p t st' r : fetch args Auto st = Some (STRING p t, st') ->
    printf_fails st (!"%*d" ++ r) !"width is not integer".
End Meaning.
