(* ===== verification/FmtPrintfTemplateFacts.v ===== *)
(** * [printf] gives the expansion of a template

    The parser is followed over a printed conversion, then the converted
    argument is shown to print the number of the reference, and the loop is
    followed over the pieces. *)
From S2P Require Import Prelude Cxx Fmt FmtFacts FmtBuffer FmtDouble FmtDoubleFacts FmtFormat FmtArgsFacts FmtFormatFacts FmtTemplate FmtTemplateFacts FmtPrintf FmtPrintfFacts FmtPrintfTemplate.

Open Scope Z_scope.

(** ** Characters *)
Notation flag_chars := (!"-+0 #").
(** Nothing that a header could go on with. *)
Definition stop (c : ascii) : bool :=
  negb (is_digit c) && negb (bool_decide (c ∈ flag_chars)) && negb (bool_decide (c ∈ !"*$")).
Lemma stop_letter c : is_name_start c = true -> stop c = true.
Proof. destruct c as [[] [] [] [] [] [] [] []]; vm_compute; done. Qed.
Lemma stop_spec c :
  stop c = true -> is_digit c = false /\ (c ∉ flag_chars) /\ c <> "*"%char /\ c <> "$"%char.
Proof.
  unfold stop. intros Hs. apply andb_prop in Hs as [Hs H3]. apply andb_prop in Hs as [H1 H2].
  apply negb_true_iff in H1, H2, H3. apply bool_decide_eq_false_1 in H2, H3. split_and!; [done|done| |].
  - intros ->. apply H3. by left.
  - intros ->. apply H3. right. by left.
Qed.
Lemma not_flag_digit c : is_digit c = true -> c <> "0"%char -> c ∉ flag_chars.
Proof.
  intros Hd Hc Hin. repeat (apply elem_of_cons in Hin as [->|Hin]; [by vm_compute in Hd || by apply Hc|]).
  by apply elem_of_nil in Hin.
Qed.
Lemma star_not_flag : "*"%char ∉ flag_chars.
Proof. apply (bool_decide_unpack _). exact I. Qed.

(** ** Flags *)
Definition with_flags (fl : bytes) (sp : spec) : spec :=
  Spec (width_ sp) (if has_flag fl "0" then "0"%char else fill_ sp)
    (if has_flag fl "-" then ALIGN_LEFT else align_ sp)
    (Z.lor (flags_ sp) (flag_bits fl)) (precision_ sp) (type_ sp).
Lemma has_flag_cons c fl x : has_flag (c :: fl) x = bool_decide (c = x) || has_flag fl x.
Proof.
  unfold has_flag. destruct (decide (c = x)) as [->|Hn].
  - rewrite (bool_decide_eq_true_2 (x = x)) by done. apply bool_decide_eq_true_2. by left.
  - rewrite (bool_decide_eq_false_2 (c = x)) by done. apply bool_decide_ext. rewrite elem_of_cons. naive_solver.
Qed.
Lemma with_no_flags sp : with_flags [] sp = sp.
Proof. destruct sp. unfold with_flags. cbn. by rewrite Z.lor_0_r. Qed.
(** One flag, then the others. *)
Lemma with_flags_cons c fl sp sp' :
  width_ sp' = width_ sp -> precision_ sp' = precision_ sp -> type_ sp' = type_ sp ->
  fill_ sp' = (if decide (c = "0"%char) then "0"%char else fill_ sp) ->
  align_ sp' = (if decide (c = "-"%char) then ALIGN_LEFT else align_ sp) ->
  flags_ sp' = Z.lor (flags_ sp) (flag_bit c) ->
  with_flags fl sp' = with_flags (c :: fl) sp.
Proof.
  unfold with_flags. intros -> -> -> -> -> ->. rewrite !has_flag_cons. cbn [flag_bits foldr].
  fold (flag_bits fl). rewrite Z.lor_assoc. f_equal; repeat case_decide; repeat case_bool_decide; subst;
    try done; by repeat case_match.
Qed.
Lemma parse_flags_print fl rest sp :
  Forall (fun c => c ∈ flag_chars) fl -> peek rest ∉ flag_chars ->
  parse_flags sp (fl ++ rest) = (with_flags fl sp, rest).
Proof.
  intros Hf Hr. revert sp; induction Hf as [|c fl Hc Hf IH]; intros sp; cbn [app].
  - rewrite with_no_flags. destruct rest as [|c rest]; [done|]. cbn [peek parse_flags] in *.
    repeat (case_decide; [subst; exfalso; apply Hr, (bool_decide_unpack _); exact I|]).
    done.
  - cbn [parse_flags].
    repeat (apply elem_of_cons in Hc as [->|Hc];
      [repeat (case_decide; [|congruence] || (case_decide; [congruence|])); rewrite IH; f_equal; apply with_flags_cons; try done; cbn; by rewrite ?Z.lor_0_r|]).
    by apply elem_of_nil in Hc.
Qed.

(** ** Numbers taken from arguments *)
Section Values.
Context {D : Type}.
Implicit Types a : Arg D.

Definition int_range (t : int_type) (z : Z) : Prop :=
  if bits t =? 8 then 0 <= z <= 1 else if is_signed t then - 2 ^ (bits t - 1) <= z < 2 ^ (bits t - 1) else 0 <= z < 2 ^ bits t.
(** [visit_int] on an argument with a value passes it on with a type it fits. *)
Lemma visit_int_spec {R} (k : int_type -> Z -> R) u a z :
  arg_ok a -> int_value a = Some z ->
  exists t, visit_int k u a = k t z /\ int_range t z /\ bits t = int_bits a
  /\ t ∈ [c_int; c_uint; c_llong; c_ullong; c_bool].
Proof.
  intros Ha Hz. unfold int_range.
  destruct a as [| |z'|z'|z'|z'|v|z'| | | | | |]; simplify_eq/=;
    unfold int_min, int_max, uint_max, llong_min, llong_max, size_max in *;
    [exists c_int|exists c_uint|exists c_llong|exists c_ullong|exists c_bool|exists c_int]; cbn;
    (split_and!; [done| |..|done|set_solver]); try lia; try (destruct v; simpl; lia).
Qed.
Lemma visit_int_other {R} (k : int_type -> Z -> R) u a : int_value a = None -> visit_int k u a = u.
Proof. by destruct a. Qed.
Lemma is_zero_int_spec a : is_zero_int a = is_zero a.
Proof. by destruct a. Qed.

Lemma width_handler_spec a z sp :
  arg_ok a -> int_value a = Some z -> Z.abs z <= int_max ->
  width_handler sp a = Ok (Z.abs z, if z <? 0 then set_align ALIGN_LEFT sp else sp).
Proof.
  intros Ha Hz Hm. unfold width_handler.
  destruct (visit_int_spec (width_any_int sp) (Thrown (FormatError !"width is not integer")) a z Ha Hz)
    as (t & -> & Hr & _ & Ht). unfold width_any_int.
  assert (Hw : main_width t = 32 \/ main_width t = 64) by (unfold main_width; destruct (_ <=? _); auto).
  set (w := main_width t) in *. clearbody w.
  assert (Hwz : (if z <? 0 then wrap_u w (0 - wrap_u w z) else wrap_u w z) = Z.abs z).
  { unfold wrap_u, int_max in *. destruct (Z.ltb_spec z 0).
    - rewrite Zminus_mod_idemp_r. rewrite Z.mod_small; [lia|]. destruct Hw as [->| ->]; lia.
    - rewrite Z.mod_small; [lia|]. destruct Hw as [->| ->]; lia. }
  destruct (z <? 0); rewrite Hwz; (destruct (Z.ltb_spec int_max (Z.abs z)); [lia|]);
    unfold u32; rewrite wrap_u_id by (unfold int_max in *; lia); done.
Qed.
Lemma precision_handler_spec a z :
  arg_ok a -> int_value a = Some z -> int_min <= z <= int_max -> precision_handler a = Ok z.
Proof.
  intros Ha Hz Hm. unfold precision_handler.
  destruct (visit_int_spec (fun t value => if negb (fits_in_int t value) then Thrown (FormatError !"number is too big")
                    else Ok (i32 value)) (Thrown (FormatError !"precision is not integer")) a z Ha Hz)
    as (t & -> & _). unfold fits_in_int.
  replace (int_min <=? z) with true by (symmetry; apply Z.leb_le; lia).
  replace (z <=? int_max) with true by (symmetry; apply Z.leb_le; lia).
  destruct (is_signed t); cbn [andb negb]; by rewrite i32_id.
Qed.
End Values.

(** ** The parser on a printed conversion *)
Section Parser.
Context {D : Type} `{FloatLibOk D}.
Variable args : list (Arg D).
Hypothesis args_ok : Forall arg_ok args.
Implicit Types f : @formatter D.

(** The formatter reached the state [st] and wrote nothing. *)
Definition moved (st : Z) f f' : Prop := in_state args st f' /\ buffer_ f' = buffer_ f.

(** An index, or [UINT_MAX] for the next argument. *)
Definition ref_of (n : option Z) : arg_ref := match n with None => Auto | Some n => Index (n - 1) end.
Definition index_of (n : option Z) : Z := match n with None => uint_max | Some n => n end.
Lemma printf_get_arg_print s n f st a st' :
  opt_ok (fun n => 1 <= n <= int_max) n -> fetch args (ref_of n) st = Some (a, st') -> in_state args st f ->
  exists f', printf_get_arg (arg_list args) s (index_of n) f = Ok (a, f') /\ moved st' f f'.
Proof.
  intros Hn Hf [<- Hm]. pose proof (args_real args args_ok) as Hreal. unfold printf_get_arg.
  destruct n as [n|]; cbn [ref_of index_of opt_ok fetch] in *.
  - unfold int_max, uint_max in *. destruct (Z.eqb_spec n 4294967295); [lia|].
    unfold get_arg, check_no_auto_index. destruct (0 <? next_arg_index_ f); [done|].
    unfold u32. rewrite wrap_u_id by lia. destruct (resolved _) as [a'|] eqn:Ha; simplify_eq/=.
    rewrite (do_get_arg_spec args Hreal _ _ a) by (done || lia). eexists; split; [done|]. by split.
  - cbn [Z.eqb]. change (uint_max =? uint_max) with true. cbn iota. unfold next_arg.
    destruct (0 <=? next_arg_index_ f) eqn:Hst; [|done]. bool_to_prop.
    destruct (resolved _) as [a'|] eqn:Ha; simplify_eq/=. rewrite (do_get_arg_spec args Hreal _ _ a) by done.
    eexists; split; [done|]. by split.
Qed.

(** The width behind the flags. *)
Definition sized (w : option amount_p) (n : Z) (left : bool) (sp : spec) : spec :=
  let sp := if left then set_align ALIGN_LEFT sp else sp in
  match w with None => sp | Some _ => set_width n sp end.
Lemma flags_width_print i sp fl w rest f st n left st' :
  Forall (fun c => c ∈ flag_chars) fl -> opt_ok (amount_p_ok 1) w -> stop (peek rest) = true ->
  width_value args w st = Some (n, left, st') -> in_state args st f ->
  exists f', parse_flags_width (arg_list args) i sp (fl ++ print_width_p w ++ rest) f
             = Ok (i, sized w n left (with_flags fl sp), rest, f') /\ moved st' f f'.
Proof.
  intros Hfl Hw Hs Hv Hst. apply stop_spec in Hs as (Hd & Hnf & Hstar & _). unfold parse_flags_width.
  destruct w as [[m|]|]; cbn [print_width_p option_text print_amount_p app width_value opt_ok amount_p_ok] in *.
  - simplify_eq. destruct (dec_nat_head n ltac:(lia)) as (c & l & Hc & Hcd).
    pose proof (dec_nat_head_pos n ltac:(lia)) as Hc0. rewrite Hc in Hc0. cbn [peek] in Hc0.
    rewrite parse_flags_print; [|done|rewrite Hc; by apply not_flag_digit].
    rewrite Hc. cbn [app peek]. rewrite Hcd. rewrite app_comm_cons, <- Hc, parse_int_spec by (done || lia).
    exists f. by split.
  - rewrite parse_flags_print; [|done|exact star_not_flag].
    change (is_digit (peek (!"*" ++ rest))) with false. change (at_char "*" (!"*" ++ rest)) with true.
    cbn iota. change (next (!"*" ++ rest)) with rest.
    destruct (fetch args Auto st) as [[a st1]|] eqn:Hf; [|done]. simpl in Hv.
    destruct (int_value a) as [z|] eqn:Hz; [|done]. simpl in Hv. destruct (Z.ltb_spec int_max (Z.abs z)); simplify_eq.
    destruct (printf_get_arg_print rest None f st a st' I Hf Hst) as (f1 & Hg & Hm). cbn [index_of] in Hg.
    rewrite Hg. cbn [exc_bind]. rewrite (width_handler_spec a z) by (done || by eapply fetch_ok).
    exists f1. split; [done|done].
  - simplify_eq. rewrite parse_flags_print by done. rewrite Hd. unfold at_char. rewrite bool_decide_eq_false_2 by done.
    exists f. by split.
Qed.

(** *** The header: zeros in front of the width are read as a number first *)
Definition zeros (k : nat) : bytes := repeat "0"%char k.
Lemma split_zeros (fl : bytes) : exists k fl', fl = zeros k ++ fl' /\ peek fl' <> "0"%char.
Proof.
  induction fl as [|c fl (k & fl' & -> & Hp)]; [by exists O, []|].
  destruct (decide (c = "0"%char)) as [->|Hc]; [by exists (S k), fl'|by exists O, (c :: zeros k ++ fl')].
Qed.
Lemma zeros_scan k ds : scan_digits 0 (zeros k ++ ds) = scan_digits 0 ds.
Proof. by induction k. Qed.
Lemma zeros_digits k : Forall (fun c => is_Some (digit_val c)) (zeros k).
Proof. induction k; constructor; [by exists 0|done]. Qed.
Lemma parse_zero_run k ds n rest :
  0 <= n <= int_max -> Forall (fun c => is_Some (digit_val c)) ds -> scan_digits 0 ds = n ->
  is_digit (peek rest) = false -> parse_nonnegative_int (zeros k ++ ds ++ rest) = Ok (n, rest).
Proof.
  intros Hn Hds Hsc Hr. unfold parse_nonnegative_int. rewrite app_assoc, parse_digit_loop_spec;
    rewrite ?zeros_scan, ?Hsc; unfold int_max, uint_max in *; try done || lia.
  - by destruct (Z.ltb_spec 2147483647 n); [lia|].
  - apply Forall_app. split; [apply zeros_digits|done].
Qed.
Lemma with_zeros k fl sp : with_flags (zeros (S k) ++ fl) sp = with_flags fl (set_fill "0" sp).
Proof.
  revert sp; induction k as [|k IH]; intros sp; symmetry.
  - apply with_flags_cons; try done; cbn; by rewrite Z.lor_0_r.
  - change (zeros (S (S k)) ++ fl) with ("0"%char :: zeros (S k) ++ fl).
    rewrite <- (with_flags_cons _ _ sp (set_fill "0" sp)), IH; try done; cbn; by rewrite Z.lor_0_r.
Qed.
Lemma nondigit_start fl w rest :
  Forall (fun c => c ∈ flag_chars) fl -> peek fl <> "0"%char -> stop (peek rest) = true ->
  (fl = [] -> forall n, w <> Some (Digits n)) ->
  let X := fl ++ print_width_p w ++ rest in is_digit (peek X) = false /\ peek X <> "$"%char.
Proof.
  intros Hfl Hp Hs Hw X. subst X. apply stop_spec in Hs as (Hd & _ & _ & Hdol). destruct Hfl as [|c fl Hc _].
  - destruct w as [[n|]|]; [by destruct (Hw eq_refl n)|done|done].
  - cbn [app peek] in *. repeat (apply elem_of_cons in Hc as [->|Hc]; [done|]). by apply elem_of_nil in Hc.
Qed.
Lemma header_print idx sp fl w rest f st n left st' :
  opt_ok (fun n => 1 <= n <= int_max) idx ->
  Forall (fun c => c ∈ flag_chars) fl -> opt_ok (amount_p_ok 1) w -> stop (peek rest) = true ->
  width_value args w st = Some (n, left, st') -> in_state args st f ->
  exists f', parse_header (arg_list args)
      (option_text (fun n => dec_nat n ++ !"$") idx ++ fl ++ print_width_p w ++ rest) sp f
    = Ok (index_of idx, sized w n left (with_flags fl sp), rest, f') /\ moved st' f f'.
Proof.
  intros Hi Hfl Hw Hs Hv Hst. unfold parse_header. destruct idx as [i|]; cbn [option_text app index_of opt_ok] in *.
  { destruct (dec_nat_head i ltac:(lia)) as (c & l & Hc & Hcd). rewrite <- app_assoc.
    replace (is_digit (peek (dec_nat i ++ _))) with true by (by rewrite Hc).
    rewrite parse_int_spec by (done || lia). cbn [exc_bind app]. by apply (flags_width_print _ _ _ _ _ _ st). }
  destruct (split_zeros fl) as (k & fl' & -> & Hp). apply Forall_app in Hfl as [_ Hfl'].
  assert ((fl' = [] /\ exists m, w = Some (Digits m)) \/ (fl' = [] -> forall m, w <> Some (Digits m)))
    as [[-> [m ->]]|Hno] by (destruct fl'; [destruct w as [[]|]; eauto; by right|by right]).
  - cbn [width_value opt_ok amount_p_ok print_width_p option_text print_amount_p] in *. simplify_eq.
    apply stop_spec in Hs as (Hd & _ & _ & Hdol). rewrite app_nil_r.
    destruct (dec_nat_head n ltac:(lia)) as (c & l & Hc & Hcd).
    pose proof (dec_nat_head_pos n ltac:(lia)) as Hc0.
    replace (is_digit _) with true by (destruct k; [by rewrite Hc|done]).
    rewrite (parse_zero_run k (dec_nat n) n) by (lia || done || (apply dec_nat_digits; lia) || (apply dec_nat_scan; lia)).
    cbn [exc_bind]. unfold at_char. rewrite bool_decide_eq_false_2 by done.
    rewrite (proj2 (Z.eqb_neq n 0)) by lia. cbn [negb]. exists f. split; [|by split].
    destruct k as [|k].
    + cbn [zeros repeat app]. rewrite Hc in Hc0 |- *. cbn [app peek] in *. rewrite bool_decide_eq_false_2 by done.
      by rewrite with_no_flags.
    + rewrite <- (app_nil_r (zeros (S k))), with_zeros, with_no_flags. done.
  - destruct (nondigit_start fl' w rest Hfl' Hp Hs Hno) as [Hd Hdol].
    destruct k as [|k].
    { cbn [zeros repeat app]. rewrite Hd. by apply (flags_width_print _ _ _ _ _ _ st). }
    rewrite with_zeros, <- app_assoc. change (is_digit (peek (zeros (S k) ++ _))) with true. cbn iota.
    pose proof (parse_zero_run (S k) [] 0 _ ltac:(done) ltac:(constructor) eq_refl Hd) as Hz. cbn [app] in Hz.
    rewrite Hz. cbn [exc_bind].
    unfold at_char. rewrite bool_decide_eq_false_2 by done. cbn [Z.eqb negb].
    change (bool_decide (peek (zeros (S k) ++ _) = "0"%char)) with true. cbn iota.
    by apply (flags_width_print _ _ _ _ _ _ st).
Qed.

(** *** Precision, length and type *)
Lemma printf_precision_print sp p rest f st n st' :
  (match p with DotAmount a => amount_p_ok 0 a | _ => True end) -> is_name_start (peek rest) = true ->
  precision_value args p st = Some (n, st') -> precision_ sp = -1 -> in_state args st f ->
  exists f', printf_precision (arg_list args) sp (print_precision_p p ++ rest) f
             = Ok (set_precision n sp, rest, f') /\ moved st' f f'.
Proof.
  intros Hp Hs Hv Hsp Hst. assert (Hset : set_precision (-1) sp = sp) by (destruct sp; by simplify_eq/=).
  pose proof (stop_spec _ (stop_letter _ Hs)) as (Hd & _ & Hstar & _).
  assert (Hdot : at_char "." rest = false).
  { apply bool_decide_eq_false_2. intros E. rewrite E in Hs. by vm_compute in Hs. }
  unfold printf_precision. destruct p as [| |[m|]]; cbn [print_precision_p precision_value print_amount_p app] in *.
  - simplify_eq. rewrite Hdot, Hset. exists f. by split.
  - simplify_eq. change (at_char "." (!"." ++ rest)) with true. cbn iota. change (next (!"." ++ rest)) with rest.
    rewrite Hd. unfold at_char. rewrite bool_decide_eq_false_2, Hset by done. exists f. by split.
  - simplify_eq. change (at_char "." ("."%char :: _)) with true. cbn iota. cbn [next tail amount_p_ok] in *.
    destruct (dec_nat_head n ltac:(lia)) as (c & l & Hc & Hcd).
    replace (is_digit (peek (dec_nat n ++ rest))) with true by (by rewrite Hc).
    rewrite parse_int_spec by (done || lia). cbn [exc_bind].
    rewrite i32_id by (unfold int_min, int_max in *; lia). exists f. by split.
  - change (at_char "." ("."%char :: _)) with true. cbn iota. cbn [next tail].
    change (is_digit (peek (!"*" ++ rest))) with false. change (at_char "*" (!"*" ++ rest)) with true.
    cbn iota. change (next (!"*" ++ rest)) with rest. change (tail (!"*" ++ rest)) with rest.
    destruct (fetch args Auto st) as [[a st1]|] eqn:Hf; [|done]. simpl in Hv.
    destruct (int_value a) as [z|] eqn:Hz; [|done]. simpl in Hv. destruct (_ && _) eqn:Hm; simplify_eq. bool_to_prop.
    destruct (printf_get_arg_print rest None f st a st' I Hf Hst) as (f1 & Hg & Hmv). cbn [index_of] in Hg.
    rewrite Hg. cbn [exc_bind]. rewrite (precision_handler_spec a n) by (done || lia || by eapply fetch_ok).
    exists f1. by split.
Qed.
Lemma ldiff_none b k : Z.land b k = 0 -> Z.ldiff b k = b.
Proof.
  intros Hl. apply Z.bits_inj'. intros i Hi. rewrite Z.ldiff_spec.
  assert (Hb := f_equal (fun z => Z.testbit z i) Hl). cbn beta in Hb. rewrite Z.land_spec, Z.bits_0 in Hb.
  destruct (Z.testbit b i), (Z.testbit k i); done.
Qed.
Lemma adjust_spec c (a : Arg D) n left p t st st' :
  width_value args (c_width c) st = Some (n, left, st') ->
  set_type t (adjust_flags a (set_precision p
    (sized (c_width c) n left (with_flags (c_flags c) (set_align ALIGN_RIGHT new_spec)))))
  = conv_spec c a n left p t.
Proof.
  intros Hw. assert (Hn : c_width c = None -> n = 0 /\ left = false) by (intros E; rewrite E in Hw; by simplify_eq/=).
  unfold adjust_flags, conv_spec. rewrite is_zero_int_spec. fold (numeric a). set (fl := c_flags c).
  set (sp := set_precision p _).
  assert (Hsp : sp = Spec (Z.to_nat n) (if has_flag fl "0" then "0"%char else space)
      (if has_flag fl "-" || left then ALIGN_LEFT else ALIGN_RIGHT) (flag_bits fl) p nul).
  { subst sp. unfold sized. destruct (c_width c); [destruct left|destruct (Hn eq_refl) as [-> ->]];
      unfold set_precision, set_width, set_align, with_flags; cbn; by destruct (has_flag fl "-"). }
  rewrite Hsp. clearbody sp. clear Hsp Hn. unfold spec_flag. cbn [flags_].
  assert (Hfl : (if negb (Z.land (flag_bits fl) HASH_FLAG =? 0) && is_zero a
     then Z.ldiff (flag_bits fl) HASH_FLAG else flag_bits fl)
    = (if is_zero a then Z.ldiff (flag_bits fl) HASH_FLAG else flag_bits fl)).
  { destruct (is_zero a); [|by rewrite andb_false_r]. destruct (Z.eqb_spec (Z.land (flag_bits fl) HASH_FLAG) 0); [|done].
    symmetry. by apply ldiff_none. }
  rewrite <- Hfl. change (type_code a <=? LAST_NUMERIC_TYPE) with (numeric a).
  destruct (_ && is_zero a); destruct (has_flag fl "0"), (numeric a); try done.
Qed.

Definition len_type (l : length_p) : option int_type :=
  match l with
  | NoLength | Len_L => None
  | Len_hh => Some c_schar | Len_h => Some c_short | Len_l => Some c_long | Len_ll => Some c_llong
  | Len_j => Some c_intmax | Len_z => Some c_size | Len_t => Some c_ptrdiff
  end.
Definition converted (l : length_p) (t : ascii) (a : Arg D) : Arg D :=
  match l with Len_L => a | _ => arg_converter (len_type l) t a end.
Lemma not_length_char t x : t ∉ !"hljztL" -> x ∈ !"hljztL" -> bool_decide (t = x) = false.
Proof. intros Ht Hx. apply bool_decide_eq_false_2. by intros ->. Qed.
Lemma parse_length_print l t (a : Arg D) rest :
  t ∉ !"hljztL" -> parse_length a (print_length l ++ t :: rest) = (converted l t a, t :: rest).
Proof.
  intros Ht. assert (Hx : forall x, x ∈ !"hljztL" -> bool_decide (t = x) = false) by eauto using not_length_char.
  assert (Hh := Hx "h"%char ltac:(by apply (bool_decide_unpack _))).
  assert (Hl := Hx "l"%char ltac:(by apply (bool_decide_unpack _))).
  unfold parse_length, at_char. destruct l; cbn [print_length app peek next tail lit String.list_ascii_of_string];
    try (rewrite ?Hh, ?Hl; done).
  by rewrite Hh, Hl, !Hx by (by apply (bool_decide_unpack _)).
Qed.

(** *** A whole conversion *)
Definition parsed (c : conversion) (a : Arg D) (mk : ascii -> spec) : Arg D * spec :=
  let '(a, t) := normalize_type (converted (c_length c) (c_type c) a) (c_type c) in (a, mk t).
Lemma printf_parse_print c rest f st n left st1 p st2 a st3 :
  conv_ok c -> width_value args (c_width c) st = Some (n, left, st1) ->
  precision_value args (c_precision c) st1 = Some (p, st2) ->
  fetch args (ref_of (c_arg c)) st2 = Some (a, st3) -> in_state args st f ->
  exists f', printf_parse (arg_list args) (print_conv c ++ rest) f
    = Ok ((parsed c a (conv_spec c a n left p)).1, (parsed c a (conv_spec c a n left p)).2, rest, f')
  /\ moved st3 f f'.
Proof.
  intros [Harg Hfl Hwok Hpok [Hty Hlen]] Hw Hp Hf Hst. unfold print_conv. rewrite <- !app_assoc.
  set (tail1 := print_length (c_length c) ++ [c_type c] ++ rest).
  assert (Ht1 : is_name_start (peek tail1) = true) by (subst tail1; destruct (c_length c); done).
  assert (Ht2 : stop (peek (print_precision_p (c_precision c) ++ tail1)) = true)
    by (destruct (c_precision c) as [| |[]]; cbn [print_precision_p app]; [by apply stop_letter|done..]).
  unfold printf_parse.
  destruct (header_print (c_arg c) (set_align ALIGN_RIGHT new_spec) (c_flags c) (c_width c) _ f st n left st1
    Harg Hfl Hwok Ht2 Hw Hst) as (f1 & -> & [Hst1 Hb1]). cbn [exc_bind].
  destruct (printf_precision_print (sized (c_width c) n left (with_flags (c_flags c) (set_align ALIGN_RIGHT new_spec)))
    (c_precision c) tail1 f1 st1 p st2 Hpok Ht1 Hp) as (f2 & -> & [Hst2 Hb2]); [|done|].
  { unfold sized. by destruct (c_width c), left. }
  cbn [exc_bind].
  destruct (printf_get_arg_print tail1 (c_arg c) f2 st2 a st3 Harg Hf Hst2) as (f3 & -> & [Hst3 Hb3]). cbn [exc_bind].
  subst tail1. cbn [app]. rewrite parse_length_print by done. cbn [peek next tail].
  rewrite bool_decide_eq_false_2 by (intros E; rewrite E in Hty; by vm_compute in Hty).
  exists f3. unfold parsed. destruct (normalize_type _ _) as [a' t]. cbn [fst snd].
  rewrite (adjust_spec c a n left p t st st1 Hw). split; [done|]. split; [done|congruence].
Qed.
End Parser.

(** ** The number that is printed *)
Lemma wrap_s_range w z : 0 < w -> - 2 ^ (w - 1) <= wrap_s w z < 2 ^ (w - 1).
Proof.
  intros Hw. unfold wrap_s. pose proof (Z.mod_pos_bound (z + 2 ^ (w - 1)) (2 ^ w) ltac:(apply Z.pow_pos_nonneg; lia)).
  replace (2 ^ w) with (2 * 2 ^ (w - 1)) in *; [lia|]. rewrite <- Z.pow_succ_r by lia. f_equal. lia.
Qed.
Lemma wrap_s_wrap_u w z : 0 < w -> wrap_s w (wrap_u w z) = wrap_s w z.
Proof. intros. unfold wrap_s, wrap_u. by rewrite Zplus_mod_idemp_l. Qed.
Lemma wrap_u_wrap_u v w z : 0 <= v <= w -> wrap_u v (wrap_u w z) = wrap_u v z.
Proof.
  intros. unfold wrap_u. apply Z.mod_mod_divide.
  exists (2 ^ (w - v)). rewrite <- Z.pow_add_r by lia. f_equal. lia.
Qed.
Lemma wrap_u_wrap_s w z : 0 < w -> wrap_u w (wrap_s w z) = wrap_u w z.
Proof.
  intros. unfold wrap_s, wrap_u. rewrite Zminus_mod_idemp_l. f_equal. lia.
Qed.
Lemma wrap_u_small v w z : 0 <= v <= w -> wrap_u w (wrap_u v z) = wrap_u v z.
Proof.
  intros. apply wrap_u_id. pose proof (wrap_u_range v z ltac:(lia)).
  assert (2 ^ v <= 2 ^ w) by (apply Z.pow_le_mono_r; lia). lia.
Qed.
Lemma wrap_s_small v w z : 0 < v <= w -> wrap_s w (wrap_s v z) = wrap_s v z.
Proof.
  intros. apply wrap_s_id; [lia|]. pose proof (wrap_s_range v z ltac:(lia)).
  assert (2 ^ (v - 1) <= 2 ^ (w - 1)) by (apply Z.pow_le_mono_r; lia). lia.
Qed.

Section Convert.
Context {D : Type} `{FloatLibOk D}.

(** [ArgConverter]: the number, reduced to the width of the target, and the
    member that holds it. *)
Definition held (t : ascii) (w uw z : Z) : Arg D :=
  if w <=? 32 then if is_di t then INT (wrap_s w z) else UINT (wrap_u w z)
  else if is_di t then LONG_LONG (wrap_s 64 z) else ULONG_LONG (wrap_u uw z).
Lemma convert_any_int_spec T t U z :
  U ∈ [c_int; c_uint; c_llong; c_ullong; c_bool] -> int_range U z ->
  T ∈ [None; Some c_schar; Some c_short; Some c_long; Some c_size] ->
  convert_any_int T t U z = held t (match T with Some T => bits T | None => bits U end) (bits U) z.
Proof.
  intros HU Hz HT. unfold convert_any_int, held. change (bits c_int) with 32.
  assert (Hu : 8 <= bits U <= 64) by (clear - HU; set_unfold in HU; destruct_or!; subst; cbn; lia).
  assert (Hb : forall w, 0 < w <= 32 -> wrap_s 32 (wrap_u w z) = wrap_s w z \/ w < 32) by
    (intros w ?; destruct (decide (w = 32)) as [->|]; [left; by apply wrap_s_wrap_u|right; lia]).
  set_unfold in HT. destruct_or!; subst T; cbn [bits c_schar c_short c_long c_size Z.leb];
    change (8 <=? 32) with true; change (16 <=? 32) with true; change (64 <=? 32) with false; cbn iota;
    unfold cast; cbn [is_signed bits make_unsigned c_int c_uint c_llong c_ullong c_schar c_short];
    rewrite ?wrap_s_small, ?wrap_u_small by lia; try done.
  clear Hb. set_unfold in HU. destruct_or!; subst U; cbn in Hz |- *;
    rewrite ?wrap_s_wrap_u, ?wrap_s_small, ?wrap_u_small by lia; try done.
  destruct (is_di t); [|done]. f_equal. by rewrite wrap_u_id, !wrap_s_id by lia.
Qed.
Lemma convert_int c (a : Arg D) z :
  arg_ok a -> int_value a = Some z -> c_length c <> Len_L ->
  visit_int (convert_any_int (len_type (c_length c)) (c_type c)) a a
  = held (c_type c) (match length_bits (c_length c) with Some w => w | None => int_bits a end) (int_bits a) z.
Proof.
  intros Ha Hz Hl. destruct (visit_int_spec (convert_any_int (len_type (c_length c)) (c_type c)) a a z Ha Hz)
    as (U & -> & Hr & <- & HU).
  rewrite convert_any_int_spec by (done || destruct (c_length c); set_solver). by destruct (c_length c).
Qed.
End Convert.

(** ** The text of an argument *)
Section Output.
Context {D : Type} `{FloatLibOk D} `{Grow}.
Variable junk : ascii.
Variable locale_sep : bytes.
Hypothesis grow_total : forall n b, exists b', grow n b = Ok b'.

(** What [held] holds is what the reference prints. *)
Definition held_value (t : ascii) (w uw z : Z) : Z :=
  if is_di t then wrap_s w z else wrap_u (if w <=? 32 then w else uw) z.
Definition widths_ok (w uw : Z) : Prop := (8 <= w <= 32 \/ w = 64) /\ 8 <= uw <= 64.
Lemma held_cases t w uw z :
  widths_ok w uw ->
  let z' := held_value t w uw z in
  exists k w', (held t w uw z : Arg D) = k z' /\ (w' = 32 \/ w' = 64) /\ - 2 ^ (w' - 1) <= z' < 2 ^ w'
  /\ (k = INT \/ k = UINT \/ k = LONG_LONG \/ k = ULONG_LONG)
  /\ forall sp b, printf_visit junk locale_sep (k z') sp b = Some (visit_any_int junk locale_sep w' z' sp b).
Proof.
  intros [Hw Hu]. unfold held, held_value.
  assert (Hpow : forall v, 8 <= v <= 64 -> wrap_u v z < 2 ^ 64).
  { intros v Hv. pose proof (wrap_u_range v z ltac:(lia)). assert (2 ^ v <= 2 ^ 64) by (apply Z.pow_le_mono_r; lia). lia. }
  destruct Hw as [Hw| ->].
  - rewrite (proj2 (Z.leb_le w 32)) by lia.
    pose proof (wrap_s_range w z ltac:(lia)). pose proof (wrap_u_range w z ltac:(lia)).
    assert (2 ^ w <= 2 ^ 32) by (apply Z.pow_le_mono_r; lia).
    assert (2 ^ (w - 1) <= 2 ^ 31) by (apply Z.pow_le_mono_r; lia).
    destruct (is_di t); [exists INT|exists UINT]; exists 32; (split_and!; [done|by left|lia|lia|tauto|done]).
  - cbn [Z.leb]. change (64 <=? 32) with false. cbn iota. pose proof (wrap_s_range 64 z ltac:(lia)).
    specialize (Hpow uw Hu). pose proof (wrap_u_range uw z ltac:(lia)).
    destruct (is_di t); [exists LONG_LONG|exists ULONG_LONG]; exists 64; (split_and!; [done|by right|lia|lia|tauto|done]).
Qed.
Lemma widths_conv c (a : Arg D) :
  widths_ok (match length_bits (c_length c) with Some w => w | None => int_bits a end) (int_bits a).
Proof.
  assert (8 <= int_bits a <= 32 \/ int_bits a = 64) by (destruct a; cbn; lia).
  split; [|lia]. destruct (c_length c); cbn; lia.
Qed.
Lemma printed_held c (a : Arg D) z :
  c_length c <> Len_L ->
  printed_int c a z
  = held_value (c_type c) (match length_bits (c_length c) with Some w => w | None => int_bits a end) (int_bits a) z.
Proof. unfold printed_int, held_value. by destruct (c_length c). Qed.
(** Reducing a number does not change its last byte. *)
Lemma char_of_wrap z z' : wrap_u 8 z = wrap_u 8 z' -> char_of z = char_of z'.
Proof. unfold char_of. by intros ->. Qed.
Lemma held_char t w uw z : widths_ok w uw -> char_of (wrap_s 8 (held_value t w uw z)) = char_of z.
Proof.
  intros [Hw Hu]. apply char_of_wrap. rewrite wrap_u_wrap_s by lia. unfold held_value.
  assert (Hs : wrap_u 8 (wrap_s w z) = wrap_u 8 z).
  { rewrite <- (wrap_u_wrap_u 8 w) by lia. rewrite wrap_u_wrap_s, wrap_u_wrap_u by lia. done. }
  destruct (is_di t); [done|]. destruct (Z.leb_spec w 32); apply wrap_u_wrap_u; lia.
Qed.

Lemma printf_char_area_spec z sp : printf_char_area junk z sp = printf_char_text z sp.
Proof.
  pose proof (char_area_spec junk z
    (set_fill space (set_align (match align_ sp with ALIGN_LEFT => ALIGN_LEFT | _ => ALIGN_RIGHT end) sp))) as Hc.
  unfold printf_char_text, printf_char_area, char_area in *. cbn [width_ fill_ align_ set_fill set_align] in Hc.
  by destruct (align_ sp).
Qed.
Lemma char_appends_p z sp b :
  type_ sp = nul \/ type_ sp = "c"%char -> buffer_wf b ->
  appends (printf_char_text z sp) b (printf_visit_char junk locale_sep z sp b).
Proof.
  intros Ht Hb. unfold printf_visit_char. replace (negb _ && negb _) with false
    by (symmetry; destruct Ht as [-> | ->]; done).
  cbn [exc_bind]. rewrite printf_char_area_spec. by apply appends_append.
Qed.

(** A family of specifiers that differ in the type. *)
Definition family (mk : ascii -> spec) : Prop := forall t t', type_ (mk t) = t /\ set_type t (mk t') = mk t.
Lemma family_conv c (a : Arg D) n left p : family (conv_spec c a n left p).
Proof. done. Qed.

Lemma parsed_int c (a a' : Arg D) mk :
  converted (c_length c) (c_type c) a = a' -> type_code a' <= LAST_INTEGER_TYPE ->
  parsed c a mk = if bool_decide (c_type c = "c"%char) then (char_converter a', mk "c"%char)
                  else (a', mk (normal_type (c_type c))).
Proof.
  intros E Ha. unfold parsed, normalize_type, normal_type. rewrite E, (proj2 (Z.leb_le _ _)) by done.
  destruct (decide (c_type c = "c"%char)) as [->|Hn]; [done|]. rewrite (bool_decide_eq_false_2 (c_type c = "c"%char)) by done.
  by destruct (_ || _).
Qed.
Lemma char_converter_int (a : Arg D) z : int_value a = Some z -> char_converter a = CHAR (wrap_s 8 z).
Proof. destruct a; intros; by simplify_eq/=. Qed.

(** An integer that the converter has seen. *)
Lemma converted_text c (a : Arg D) z mk t b :
  arg_ok a -> int_value a = Some z -> family mk -> c_length c <> Len_L ->
  (forall v, a = BOOL v -> c_type c <> "s"%char) ->
  printf_int_text locale_sep c a z mk = Some t -> buffer_wf b ->
  exists m, printf_visit junk locale_sep (parsed c a mk).1 (parsed c a mk).2 b = Some m /\ appends t b m.
Proof.
  intros Ha Hz Hmk Hl Hbool Ht Hb.
  assert (Hconv : converted (c_length c) (c_type c) a
    = held (c_type c) (match length_bits (c_length c) with Some w => w | None => int_bits a end) (int_bits a) z).
  { rewrite <- (convert_int c a z Ha Hz Hl). transitivity (arg_converter (len_type (c_length c)) (c_type c) a);
      [by destruct (c_length c)|]. unfold arg_converter. destruct a as [| | | | | |v| | | | | | |]; try done.
    by rewrite (bool_decide_eq_false_2 (c_type c = "s"%char)) by (by apply (Hbool v)). }
  unfold printf_int_text in Ht. rewrite (printed_held c a z Hl) in Ht. pose proof (widths_conv c a) as Hok.
  set (w := match length_bits (c_length c) with Some w => w | None => int_bits a end) in *.
  destruct (held_cases (c_type c) w (int_bits a) z Hok) as (k & w' & Hk & Hw' & Hr & Hkk & Hvis).
  rewrite Hk in Hconv. pose proof (held_char (c_type c) w (int_bits a) z Hok) as Hchar.
  set (z' := held_value _ _ _ _) in *.
  rewrite (parsed_int c a (k z') mk Hconv) by (destruct_or! Hkk; subst k; cbn; unfold LAST_INTEGER_TYPE; lia).
  destruct (bool_decide (c_type c = "c"%char)); cbn [fst snd].
  - simplify_eq. rewrite (char_converter_int _ z') by (destruct_or! Hkk; by subst k). cbn [printf_visit].
    eexists; split; [done|]. unfold printf_char_text. rewrite <- Hchar. apply char_appends_p; [|done].
    right. apply (Hmk "c"%char "c"%char).
  - destruct (int_text locale_sep z' _) as [t'|] eqn:Hit; simplify_eq/=. rewrite Hvis. eexists; split; [done|].
    replace (match a with CHAR _ => _ | _ => _ end) with (@nil ascii)
      by (destruct a; try done; by destruct (c_length c)).
    rewrite app_nil_r. by apply int_appends.
Qed.
(** An integer behind [L], which converts nothing. *)
Lemma normal_not_nul t : is_name_start t = true -> normal_type t <> nul.
Proof. intros Ht. unfold normal_type. destruct (_ || _); [done|]. intros ->. by vm_compute in Ht. Qed.
Lemma normal_not_s t : t <> "s"%char -> normal_type t <> "s"%char.
Proof. unfold normal_type. by destruct (_ || _). Qed.
Lemma normal_not_c t : t <> "c"%char -> normal_type t <> "c"%char.
Proof. unfold normal_type. by destruct (_ || _). Qed.
Lemma int_range_visit (a : Arg D) z sp b t :
  arg_ok a -> int_value a = Some z -> (forall v, a <> CHAR v) ->
  (forall v, a = BOOL v -> type_ sp <> "s"%char) ->
  int_text locale_sep z sp = Some t -> buffer_wf b ->
  exists m, printf_visit junk locale_sep a sp b = Some m /\ appends t b m.
Proof.
  intros Ha Hz Hc Hs Ht Hb.
  destruct a; simplify_eq/=; unfold int_min, int_max, uint_max, llong_min, llong_max, size_max in *;
    try (by destruct (Hc z)); eexists; (split; [done|]);
    try (apply (int_appends _ _ grow_total); [(by left) || (by right)|lia|done|done]).
  unfold printf_visit_bool. rewrite bool_decide_eq_false_2 by (by eapply Hs).
  apply (int_appends _ _ grow_total); [by left|destruct b0; simpl; lia|done|done].
Qed.
Lemma unconverted_text c (a : Arg D) z mk t b :
  arg_ok a -> int_value a = Some z -> family mk -> c_length c = Len_L -> is_name_start (c_type c) = true ->
  (forall v, a = BOOL v -> c_type c <> "s"%char) ->
  printf_int_text locale_sep c a z mk = Some t -> buffer_wf b ->
  exists m, printf_visit junk locale_sep (parsed c a mk).1 (parsed c a mk).2 b = Some m /\ appends t b m.
Proof.
  intros Ha Hz Hmk Hl Hname Hbool Ht Hb.
  rewrite (parsed_int c a a mk); [|by rewrite Hl|destruct a; simplify_eq/=; unfold LAST_INTEGER_TYPE; lia].
  unfold printf_int_text, printed_int in Ht. rewrite Hl in Ht.
  case_bool_decide as Hc; cbn [fst snd].
  { simplify_eq. rewrite (char_converter_int a z) by done. cbn [printf_visit]. eexists; split; [done|].
    unfold printf_char_text. rewrite <- (char_of_wrap (wrap_s 8 z) z) by (by apply wrap_u_wrap_s).
    apply char_appends_p; [|done]. right. apply (Hmk "c"%char "c"%char). }
  assert (Hs : forall v, a = BOOL v -> type_ (mk (normal_type (c_type c))) <> "s"%char).
  { intros v ->. rewrite (proj1 (Hmk _ nul)). apply normal_not_s. by eapply Hbool. }
  destruct (int_text locale_sep z (mk _)) as [t'|] eqn:Hit; simplify_eq/=.
  assert (Hno : (forall v, a <> CHAR v) -> exists m,
     printf_visit junk locale_sep a (mk (normal_type (c_type c))) b = Some m /\ appends t' b m)
    by (intros; by apply (int_range_visit _ z)).
  destruct a as [| | | | | | |v| | | | | |]; simplify_eq/=; try (rewrite app_nil_r; by apply Hno).
  eexists; split; [done|]. unfold printf_visit_char.
  rewrite (proj1 (Hmk _ nul)), !bool_decide_eq_false_2 by (by apply normal_not_c || apply normal_not_nul).
  cbn [negb andb].
  destruct (int_appends junk locale_sep grow_total (area_moves b) 32 z (mk (normal_type (c_type c))) b t') as (b1 & E & Hb1 & Hc1);
    [by left|unfold int_min, int_max in Ha; lia|done..|].
  unfold visit_any_int. rewrite E. cbn [exc_bind]. rewrite printf_char_area_spec.
  destruct (appends_append grow_total (printf_char_text z (mk (normal_type (c_type c)))) b1 Hb1) as (b2 & -> & Hb2 & Hc2).
  exists b2. split_and!; [done..|]. by rewrite Hc2, Hc1, app_assoc.
Qed.

(** Every argument. *)
Lemma parsed_other c (a : Arg D) mk :
  int_value a = None -> arg_ok a -> (forall n v, a <> NAMED_ARG n v) -> parsed c a mk = (a, mk (c_type c)).
Proof.
  intros Hz Ha Hn. assert (Hc : converted (c_length c) (c_type c) a = a)
    by (unfold converted, arg_converter; destruct (c_length c), a; done).
  unfold parsed, normalize_type. rewrite Hc. destruct a; try done. by destruct (Hn name a).
Qed.
Lemma parsed_bool c v (mk : ascii -> spec) :
  c_type c = "s"%char -> parsed c (BOOL v : Arg D) mk = (BOOL v, mk "s"%char).
Proof. intros Ht. unfold parsed, converted, arg_converter. rewrite Ht. by destruct (c_length c). Qed.
Lemma nil_appends sp b t : nil_text sp = Some t -> buffer_wf b -> appends t b (write_null_pointer junk sp b).
Proof. by apply string_appends. Qed.
Lemma printf_arg_appends c (a : Arg D) mk t b :
  arg_ok a -> family mk -> is_name_start (c_type c) = true -> printf_arg_text locale_sep c a mk = Some t -> buffer_wf b ->
  exists m, printf_visit junk locale_sep (parsed c a mk).1 (parsed c a mk).2 b = Some m /\ appends t b m.
Proof.
  intros Ha Hmk Hname Ht Hb.
  assert (Hint : forall z, int_value a = Some z -> (forall v, a = BOOL v -> c_type c <> "s"%char) ->
    printf_int_text locale_sep c a z mk = Some t ->
    exists m, printf_visit junk locale_sep (parsed c a mk).1 (parsed c a mk).2 b = Some m /\ appends t b m).
  { intros z Hz Hbool Hti. destruct (decide (c_length c = Len_L));
      [by apply (unconverted_text c a z)|by apply (converted_text c a z)]. }
  assert (Hvisit : arg_text locale_sep a (mk (c_type c)) = Some t -> (forall s, a <> CUSTOM s) ->
    exists m, visit junk locale_sep a (mk (c_type c)) b = Some m /\ appends t b m)
    by (intros; apply visit_text; [done..|]; intros x Hx; by destruct (H3 x)).
  destruct a as [|nm a'|z|z|z|z|v|z|d|d|p s|p s|p|s]; cbn [printf_arg_text] in Ht; try (by apply (Hint z)); try done;
    try (rewrite parsed_other by done; cbn [fst snd printf_visit]; try (by apply Hvisit)).
  - destruct (decide (c_type c = "s"%char)) as [E|E].
    + rewrite bool_decide_eq_true_2 in Ht by done. rewrite parsed_bool by done. cbn [fst snd printf_visit].
      eexists; split; [done|]. unfold printf_visit_bool. rewrite (proj1 (Hmk "s"%char nul)).
      change (negb (bool_decide ("s"%char = "s"%char))) with false. cbn iota.
      rewrite E in Ht. by apply string_appends.
    + rewrite bool_decide_eq_false_2 in Ht by done. apply (Hint (Z.b2z v)); [done| |done]. by intros ? _.
  - unfold printf_visit_cstring. rewrite (proj1 (Hmk _ nul)). destruct (Z.eqb_spec p 0); cbn [negb].
    + case_bool_decide; eexists; (split; [done|]); [by apply nil_appends|by apply string_appends].
    + by apply Hvisit.
  - unfold printf_visit_pointer. destruct (Z.eqb_spec p 0); cbn [negb]; [|by apply Hvisit].
    eexists; split; [done|]. by apply nil_appends.
  - simplify_eq. eexists; split; [done|]. apply string_appends; [done|apply text_no_spec|done].
Qed.
End Output.

(** ** The loop *)
Section Loop.
Context {D : Type} `{FloatLibOk D} `{Grow}.
Variable junk : ascii.
Variable locale_sep : bytes.
Hypothesis grow_total : forall n b, exists b', grow n b = Ok b'.
Variable args : list (Arg D).
Hypothesis args_ok : Forall arg_ok args.
Implicit Types f : @formatter D.

(** [text] has been read and not written, [s] is left: enough fuel, and the
    result is [r]. *)
Definition runs_p (text s : bytes) f (r : exc formatter) : Prop :=
  forall fuel, (length s < fuel)%nat -> printf_loop junk locale_sep (arg_list args) fuel text s f = Some r.

Lemma runs_end_p text f : runs_p text [] f (write_text text f).
Proof. intros [|fuel] Hf; [simpl in Hf; lia|done]. Qed.
Lemma runs_plain_p text c s f r :
  c <> nul -> c <> "%"%char -> runs_p (text ++ [c]) s f r -> runs_p text (c :: s) f r.
Proof.
  intros Hn Hp Hr [|fuel] Hf; simpl in Hf; [lia|]. cbn [printf_loop peek next tail].
  destruct (decide (c = nul)); [done|]. rewrite bool_decide_eq_false_2 by done. apply Hr. lia.
Qed.
Lemma runs_percent text s f f1 r :
  write_text (text ++ ["%"%char]) f = Ok f1 -> runs_p [] s f1 r -> runs_p text ("%"%char :: "%"%char :: s) f r.
Proof.
  intros Hw Hr [|fuel] Hf; simpl in Hf; [lia|]. cbn [printf_loop peek next tail].
  destruct (decide _); [done|]. change (bool_decide ("%"%char = "%"%char)) with true. cbn [negb].
  change (at_char "%" ("%"%char :: s)) with true. cbn iota. rewrite Hw. apply Hr. lia.
Qed.
Lemma runs_conv text s f f1 a sp s1 f2 b r :
  peek s <> "%"%char -> write_text text f = Ok f1 -> printf_parse (arg_list args) s f1 = Ok (a, sp, s1, f2) ->
  printf_visit junk locale_sep a sp (buffer_ f2) = Some (Ok b) -> (length s1 <= length s)%nat ->
  runs_p [] s1 (set_buffer b f2) r -> runs_p text ("%"%char :: s) f r.
Proof.
  intros Hp Hw Ha Hv Hl Hr [|fuel] Hf; simpl in Hf; [lia|]. cbn [printf_loop peek next tail].
  destruct (decide _); [done|]. change (bool_decide ("%"%char = "%"%char)) with true. cbn [negb].
  unfold at_char. rewrite bool_decide_eq_false_2, Hw by done. cbn [exc_bind]. rewrite Ha, Hv. apply Hr. lia.
Qed.
Lemma runs_error text s f f1 e :
  peek s <> "%"%char -> write_text text f = Ok f1 -> printf_parse (arg_list args) s f1 = Thrown e ->
  runs_p text ("%"%char :: s) f (Thrown e).
Proof.
  intros Hp Hw Ha [|fuel] Hf; simpl in Hf; [lia|]. cbn [printf_loop peek next tail].
  destruct (decide _); [done|]. change (bool_decide ("%"%char = "%"%char)) with true. cbn [negb].
  unfold at_char. rewrite bool_decide_eq_false_2, Hw by done. cbn [exc_bind]. by rewrite Ha.
Qed.

(** The loop gets from [text], [s], [f] to [text'], [s'], [f'], having
    printed [ts]. *)
Definition reaches_p (ts text s : bytes) f (text' s' : bytes) f' : Prop :=
  (forall r, runs_p text' s' f' r -> runs_p text s f r)
  /\ content (buffer_ f') ++ text' = content (buffer_ f) ++ text ++ ts.
Lemma reaches_literal st t rest text f :
  Forall (fun c => c <> nul) t -> ready args st f ->
  exists text' f', ready args st f' /\ reaches_p t text (escape_p t ++ rest) f text' rest f'.
Proof.
  intros Ht. revert text f; induction Ht as [|c t Hc _ IH]; intros text f Hf.
  { exists text, f. split; [done|]. split; [done|]. by rewrite app_nil_r. }
  cbn [escape_p map concat]. fold (escape_p t). rewrite <- app_assoc. case_bool_decide as Hbr; cbn [app].
  - subst c. destruct (write_text_ready grow_total args (text ++ ["%"%char]) st f Hf) as (f1 & Hw & Hf1 & Hc1).
    destruct (IH [] f1 Hf1) as (text' & f2 & Hf2 & Hr & Hc2). exists text', f2. split; [done|].
    split; [intros; eapply runs_percent; eauto|]. rewrite Hc2, Hc1. cbn [app]. by rewrite <- !app_assoc.
  - destruct (IH (text ++ [c]) f Hf) as (text' & f2 & Hf2 & Hr & Hc2). exists text', f2. split; [done|].
    split; [|by rewrite Hc2, <- !app_assoc]. intros. apply runs_plain_p; auto.
Qed.
Lemma conv_start c rest : conv_ok c -> peek (print_conv c ++ rest) <> "%"%char.
Proof.
  intros [Harg Hfl Hw Hp [Hty _]]. unfold print_conv. rewrite <- !app_assoc.
  destruct (c_arg c) as [n|]; cbn [option_text app opt_ok] in *.
  { destruct (dec_nat_head n ltac:(lia)) as (x & l & -> & Hx). cbn [app peek]. intros ->. by vm_compute in Hx. }
  destruct Hfl as [|x fl Hx _]; cbn [app peek].
  2: { intros ->. repeat (apply elem_of_cons in Hx as [Hx|Hx]; [done|]). by apply elem_of_nil in Hx. }
  destruct (c_width c) as [[n|]|]; cbn [print_width_p option_text print_amount_p app opt_ok amount_p_ok] in *; [|done|].
  { destruct (dec_nat_head n ltac:(lia)) as (x & l & -> & Hx). cbn [app peek]. intros ->. by vm_compute in Hx. }
  destruct (c_precision c); cbn [print_precision_p app]; [|done..].
  destruct (c_length c); cbn [print_length app peek]; try done. intros E. rewrite E in Hty. by vm_compute in Hty.
Qed.
Lemma reaches_conv c st t st' rest text f :
  conv_ok c -> ready args st f -> conv_text locale_sep args c st = Some (t, st') ->
  exists f', ready args st' f' /\ reaches_p t text ("%"%char :: print_conv c ++ rest) f [] rest f'.
Proof.
  intros Hc Hf He. unfold conv_text in He.
  destruct (width_value args (c_width c) st) as [[[n left] st1]|] eqn:Hw; [|done]. simpl in He.
  destruct (precision_value args (c_precision c) st1) as [[p st2]|] eqn:Hp; [|done]. simpl in He.
  change (match c_arg c with None => Auto | Some n => Index (n - 1) end) with (ref_of (c_arg c)) in He.
  destruct (fetch args (ref_of (c_arg c)) st2) as [[a st3]|] eqn:Hfe; [|done]. simpl in He.
  destruct (printf_arg_text locale_sep c a _) as [t'|] eqn:Ht; simplify_eq/=.
  destruct (write_text_ready grow_total args text st f Hf) as (f1 & Hwt & [Hst1 Hwf1] & Hc1).
  destruct (printf_parse_print args args_ok c rest f1 st n left st1 p st2 a st' Hc Hw Hp Hfe Hst1)
    as (f2 & Hparse & [Hst2 Hb2]).
  rewrite <- Hb2 in Hwf1.
  destruct (printf_arg_appends junk locale_sep grow_total c a (conv_spec c a n left p) t (buffer_ f2)
    (fetch_ok args args_ok _ _ _ _ Hfe) (family_conv _ _ _ _ _) (proj1 (conv_type c Hc)) Ht Hwf1)
    as (m & Hv & b & -> & Hwb & Hcb).
  exists (set_buffer b f2). split; [split; [by destruct Hst2|done]|]. split.
  - intros r Hr. eapply runs_conv; [by apply conv_start|exact Hwt|exact Hparse|exact Hv| |exact Hr].
    rewrite length_app. lia.
  - cbn [buffer_ set_buffer]. by rewrite Hcb, Hb2, Hc1, app_nil_r, app_assoc.
Qed.
Lemma reaches_template_p l st st' rest text f ts :
  Forall piece_p_ok l -> ready args st f -> printf_expand locale_sep args l st = Some (ts, st') ->
  exists text' f', ready args st' f' /\ reaches_p ts text (print_p l ++ rest) f text' rest f'.
Proof.
  intros Hl; revert st text f ts; induction Hl as [|p l Hp _ IH]; intros st text f ts Hf He; cbn [printf_expand] in He.
  { simplify_eq. exists text, f. split; [done|]. split; [done|]. by rewrite app_nil_r. }
  destruct (piece_p_text locale_sep args p st) as [[t st1]|] eqn:Ht; [|done]. simpl in He.
  destruct (printf_expand locale_sep args l st1) as [[ts' st2]|] eqn:He'; simplify_eq/=.
  change (print_p (p :: l)) with (print_piece_p p ++ print_p l). rewrite <- app_assoc.
  assert (Hfirst : exists text1 f1, ready args st1 f1
    /\ reaches_p t text (print_piece_p p ++ print_p l ++ rest) f text1 (print_p l ++ rest) f1).
  { destruct p as [t'|c]; cbn [piece_p_text print_piece_p piece_p_ok app] in *.
    - simplify_eq. by apply reaches_literal.
    - destruct (reaches_conv c st t st1 (print_p l ++ rest) text f Hp Hf Ht) as (f1 & Hf1 & Hr). by exists [], f1. }
  destruct Hfirst as (text1 & f1 & Hf1 & Hr1 & Hc1).
  destruct (IH st1 text1 f1 ts' Hf1 He') as (text2 & f2 & Hf2 & Hr2 & Hc2). exists text2, f2.
  split; [done|]. split; [auto|]. by rewrite Hc2, app_assoc, Hc1, <- !app_assoc.
Qed.

(** *** Failures *)
Lemma header_end fl sp st f :
  Forall (fun c => c ∈ flag_chars) fl -> in_state args st f ->
  exists sp' f', parse_header (arg_list args) fl sp f = Ok (uint_max, sp', [], f').
Proof.
  intros Hfl Hst. destruct (header_print args args_ok None sp fl None [] f st 0 false st I Hfl I eq_refl eq_refl Hst)
    as (f' & Hp & _). cbn [option_text print_width_p app] in Hp. rewrite app_nil_r in Hp. eauto.
Qed.
Lemma parse_incomplete fl st f :
  Forall (fun c => c ∈ flag_chars) fl -> in_state args st f ->
  printf_parse (arg_list args) fl f = Thrown (FormatError !"invalid format string").
Proof.
  intros Hfl Hst. unfold printf_parse.
  destruct (header_end fl (set_align ALIGN_RIGHT new_spec) st f Hfl Hst) as (sp & f1 & ->). cbn [exc_bind].
  unfold printf_precision. change (at_char "." []) with false. cbn [exc_bind]. unfold printf_get_arg.
  change (uint_max =? uint_max) with true. cbn iota.
  by destruct (next_arg (arg_list args) f1) as [[? []] ?].
Qed.
Lemma parse_no_arg (st : Z) f r :
  0 <= st -> nth (Z.to_nat st) args NONE = NONE -> in_state args st f ->
  printf_parse (arg_list args) (!"d" ++ r) f = Thrown (FormatError !"argument index out of range").
Proof.
  intros Hn Ha [<- _]. unfold printf_parse. cbn [app]. cbn [lit String.list_ascii_of_string app].
  change (parse_header (arg_list args) ("d"%char :: r) (set_align ALIGN_RIGHT new_spec) f)
    with (Ok (uint_max, set_align ALIGN_RIGHT new_spec, "d"%char :: r, f)). cbn [exc_bind].
  change (printf_precision (arg_list args) (set_align ALIGN_RIGHT new_spec) ("d"%char :: r) f)
    with (Ok (set_align ALIGN_RIGHT new_spec, "d"%char :: r, f)). cbn [exc_bind].
  unfold printf_get_arg, next_arg. change (uint_max =? uint_max) with true. cbn iota.
  rewrite (proj2 (Z.leb_le 0 _)) by done. unfold do_get_arg.
  by rewrite arg_at_spec, Ha by (done || by apply args_real).
Qed.
Lemma parse_zero_index (st : Z) f r :
  st <= 0 -> len args <= uint_max -> in_state args st f ->
  printf_parse (arg_list args) (!"0$d" ++ r) f = Thrown (FormatError !"argument index out of range").
Proof.
  intros Hn Ha [<- _]. unfold printf_parse. cbn [lit String.list_ascii_of_string app].
  change (parse_header (arg_list args) ("0"%char :: "$"%char :: "d"%char :: r) (set_align ALIGN_RIGHT new_spec) f)
    with (Ok (0, set_align ALIGN_RIGHT new_spec, "d"%char :: r, f)). cbn [exc_bind].
  change (printf_precision (arg_list args) (set_align ALIGN_RIGHT new_spec) ("d"%char :: r) f)
    with (Ok (set_align ALIGN_RIGHT new_spec, "d"%char :: r, f)). cbn [exc_bind].
  unfold printf_get_arg, get_arg, check_no_auto_index. change (0 =? uint_max) with false. cbn iota.
  destruct (Z.ltb_spec 0 (next_arg_index_ f)); [lia|]. change (u32 (0 - 1)) with uint_max.
  unfold do_get_arg. rewrite arg_at_spec by (done || by apply args_real). rewrite nth_overflow; [done|].
  unfold len, uint_max in *. lia.
Qed.
Lemma parse_star_string (st : Z) f p t st' r :
  fetch args Auto st = Some (STRING p t, st') -> in_state args st f ->
  printf_parse (arg_list args) (!"*d" ++ r) f = Thrown (FormatError !"width is not integer").
Proof.
  intros Hf Hst. unfold printf_parse, parse_header. cbn [lit String.list_ascii_of_string app].
  change (is_digit (peek ("*"%char :: _))) with false. cbn iota. unfold parse_flags_width. cbn [parse_flags].
  cbn [decide decide_rel]. destruct (printf_get_arg_print args args_ok ("d"%char :: r) None f st _ st' I Hf Hst) as (f1 & Hg & _).
  cbn [index_of] in Hg. simpl. rewrite Hg. done.
Qed.
Lemma printf_runs_fails text s st f msg :
  ready args st f -> printf_fails args st s msg -> runs_p text s f (Thrown (FormatError msg)).
Proof.
  intros Hf Hfail. destruct (write_text_ready grow_total args text st f Hf) as (f1 & Hw & [Hst1 _] & _).
  destruct Hfail as [fl Hfl|r H3 H4|r H3 H4|p t st' r H3]; cbn [lit String.list_ascii_of_string app];
    (eapply runs_error; [try done|exact Hw|]).
  - destruct Hfl as [|x fl Hx _]; [done|]. cbn [peek]. intros ->.
    repeat (apply elem_of_cons in Hx as [Hx|Hx]; [done|]). by apply elem_of_nil in Hx.
  - by eapply parse_incomplete.
  - by apply (parse_no_arg st).
  - by apply (parse_zero_index st).
  - by apply (parse_star_string st f1 p t st').
Qed.
End Loop.

(** The initial state of a template. *)
Lemma printf_reaches junk locale_sep {D} `{FloatLibOk D} (args : list (Arg D)) l ts st bad b :
  Forall arg_ok args -> Forall piece_p_ok l -> buffer_wf b -> printf_expand locale_sep args l 0 = Some (ts, st) ->
  exists text f, ready args st f /\ content (buffer_ f) ++ text = content b ++ ts
  /\ forall r, runs_p (H1 := MemoryBuffer junk) junk locale_sep args text bad f r ->
     printf (H0 := MemoryBuffer junk) junk locale_sep (print_p l ++ bad) args b = Some (exc_map buffer_ r).
Proof.
  intros Ha Hl Hb He. pose proof (memory_grow_total junk) as Hg.
  destruct (reaches_template_p (H1 := MemoryBuffer junk) junk locale_sep Hg args Ha l 0 st bad []
    (new_formatter b) ts Hl) as (text & f & Hf & Hr & Hc); [split; [split; [done|by left]|done]|done|].
  exists text, f. split; [done|]. split; [done|]. intros r Hruns. unfold printf, printf_format.
  by rewrite (Hr r Hruns (S (length (print_p l ++ bad)))) by lia.
Qed.

(** (C36) printf format strings, the round trip.  Every template, printed in
    the printf syntax (texts with their percent signs doubled, conversions
    with an argument index or the next argument, all flags, a width and a
    precision written out or taken from an argument, all length modifiers),
    is formatted to its expansion: an integer prints as the number its length
    modifier and type make of it, whatever type the argument has; negative
    widths align left, null pointers print as the reference says, and the
    flag [0] wins over [-].  The reference leaves out ([printf_expand] is
    [None]) a number with a fraction whose text is longer than [INT_MAX], and
    an integer that is aligned left, filled up to a precision and padded
    behind it: the buffer may lose its digits, see
    [digits_left_behind_printf]. *)
Theorem printf_template junk locale_sep {D} `{FloatLibOk D} (args : list (Arg D)) l ts st b :
  Forall arg_ok args -> Forall piece_p_ok l -> buffer_wf b -> printf_expand locale_sep args l 0 = Some (ts, st) ->
  exists b', printf (H0 := MemoryBuffer junk) junk locale_sep (print_p l) args b = Some (Ok b')
  /\ buffer_wf b' /\ content b' = content b ++ ts.
Proof.
  intros Ha Hl Hb He. destruct (printf_reaches junk locale_sep args l ts st [] b Ha Hl Hb He) as (text & f & Hf & Hc & Hr).
  rewrite app_nil_r in Hr.
  destruct (write_text_ready (H1 := MemoryBuffer junk) (memory_grow_total junk) args text st f Hf)
    as (f1 & Hw & [_ Hwf] & Hc1).
  exists (buffer_ f1). rewrite (Hr _ (runs_end_p _ _ _ text f)), Hw. split; [done|]. split; [done|]. by rewrite Hc1.
Qed.
(** [%-10.5d] with ten characters in a buffer of sixteen: the growth for the
    padding moves the buffer after the place of the digits was taken. *)
Example digits_left_behind_printf :
  option_map (exc_map content)
    (printf (H0 := MemoryBuffer "?"%char) "?"%char !"," !"0123456789%-10.5d" [INT 42 : Arg Z]
       (new_memory_buffer "?"%char 16))
  = Some (Ok !"0123456789000??     ").
Proof. vm_compute. reflexivity. Qed.
Definition sample_args_p : list (Arg Z) := [INT (-5); STRING 1 !"abc"; INT 300; CSTRING 0 []; UINT 65; DOUBLE (-25); INT 255].
Definition sample_p : list piece_p :=
  [Literal !"100% "; Conv (Conversion None !"#" (Some Star) NoPrecision NoLength "s");
   Literal !"|"; Conv (Conversion None !"+" (Some (Digits 6)) NoPrecision Len_hh "i");
   Conv (Conversion None [] None (DotAmount (Digits 3)) NoLength "s");
   Conv (Conversion None !"-" (Some (Digits 3)) NoPrecision Len_L "c");
   Conv (Conversion None !"0-" (Some (Digits 8)) Dot NoLength "g");
   Conv (Conversion None !"0#" (Some (Digits 10)) NoPrecision Len_ll "x")].
Lemma printf_template_witness :
  print_p sample_p = !"100%% %#*s|%+6hhi%.3s%-3Lc%0-8.g%0#10llx"
  /\ exists b', printf (H0 := MemoryBuffer nul) nul !"," (print_p sample_p) sample_args_p (new_memory_buffer nul 16)
                = Some (Ok b')
     /\ buffer_wf b' /\ content b' = !"100% abc  |   +44(nuA  -00002.50x000000ff".
Proof.
  split; [vm_compute; reflexivity|].
  refine (printf_template nul !"," sample_args_p sample_p _ 7 (new_memory_buffer nul 16) _ _ _ _).
  - repeat constructor; vm_compute; discriminate.
  - repeat constructor; try discriminate; try (vm_compute; discriminate); apply (bool_decide_unpack _); vm_compute; exact I.
  - vm_compute. lia.
  - vm_compute. reflexivity.
Defined.

(** printf format strings, the failures.  Behind any template the
    reference accepts, a conversion that ends behind its flags, a conversion
    without an argument, the argument index 0 and a width taken from a string
    make [printf] throw the [FormatError] that says so, whatever follows. *)
Theorem printf_rejects junk locale_sep {D} `{FloatLibOk D} (args : list (Arg D)) l ts st bad msg b :
  Forall arg_ok args -> Forall piece_p_ok l -> buffer_wf b -> printf_expand locale_sep args l 0 = Some (ts, st) ->
  printf_fails args st bad msg ->
  printf (H0 := MemoryBuffer junk) junk locale_sep (print_p l ++ bad) args b = Some (Thrown (FormatError msg)).
Proof.
  intros Ha Hl Hb He Hbad.
  destruct (printf_reaches junk locale_sep args l ts st bad b Ha Hl Hb He) as (text & f & Hf & _ & Hr).
  by apply (Hr (Thrown _)), (printf_runs_fails (H1 := MemoryBuffer junk) _ _ (memory_grow_total junk) _ Ha _ _ st).
Qed.
Lemma printf_rejects_witness :
  printf (H0 := MemoryBuffer nul) nul !"," (!"x=%d " ++ !"%d" ++ !"...") [INT 4 : Arg Z] (new_memory_buffer nul 8)
  = Some (Thrown (FormatError !"argument index out of range")).
Proof.
  refine (printf_rejects nul !"," [INT 4 : Arg Z]
    [Literal !"x="; Conv (Conversion None [] None NoPrecision NoLength "d"); Literal !" "] !"x=4 " 1 _ _
    (new_memory_buffer nul 8) _ _ _ _ _).
  - repeat constructor; vm_compute; discriminate.
  - repeat constructor; try discriminate; apply (bool_decide_unpack _); vm_compute; exact I.
  - vm_compute. lia.
  - vm_compute. reflexivity.
  - apply no_argument_p; [lia|]. reflexivity.
Defined.

(** ** Where it differs from the C library *)

(** [visit_char] goes on behind [write_int]: a character printed as a number
    with [L] is printed twice. *)
Example char_printed_twice : sprintf nul !"," !"%Lx" [CHAR 65 : Arg Z] = Some (Ok !"41A").
Proof. vm_compute. reflexivity. Qed.
(** The flag [0] wins over [-], which the C standard says makes it ignored;
    it fills a boolean on the right. *)
Example zero_wins_over_minus :
  sprintf nul !"," !"%-05d|%05s" [INT 42 : Arg Z; BOOL true] = Some (Ok !"00042|true0").
Proof. vm_compute. reflexivity. Qed.
(** A precision that is only a period is no precision, where C takes it for
    zero. *)
Example lone_period : sprintf nul !"," !"%.s" [STRING 1 !"abc" : Arg Z] = Some (Ok !"abc").
Proof. vm_compute. reflexivity. Qed.
