(* ===== verification/FmtError.v ===== *)
(** * Error messages of the bundled fmt library,
      [src/src/spdlog/fmt/bundled/format.cc]

    [SystemError] carries the text of [format_system_error]: the message and
    what the C library says about the error code, or, when that cannot be had,
    the short form of [format_error_code], which fits the inline buffer of a
    [MemoryWriter] and so needs no memory.  [strerror_r] exists in two
    versions; it and the allocator are parameters. *)
From S2P Require Import Prelude Cxx Fmt FmtFacts FmtBuffer FmtDouble FmtDoubleFacts FmtFormat FmtFormatFacts FmtTemplate FmtTemplateFacts FmtPrintf.

Open Scope Z_scope.

Section Errors.
Context `{Grow}.
Variable junk : ascii.

Notation SEP := (!": ").
Notation ERROR_STR := (!"error ").

(** [out << text] *)
Definition put (t : bytes) (m : exc buffer) : exc buffer := let! b := m in append t b.

Definition format_error_code (error_code : Z) (message : bytes) (out : buffer) : exc buffer :=
  let out := clear out in
  let error_code_size := (length SEP + length ERROR_STR)%nat in
  let abs_value := u32 error_code in
  let '(abs_value, error_code_size) :=
    if error_code <? 0 then (u32 (0 - abs_value), S error_code_size) else (abs_value, error_code_size) in
  let error_code_size := (error_code_size + count_digits 32 abs_value)%nat in
  let! out := (if (length message <=? INLINE_BUFFER_SIZE - error_code_size)%nat
               then put SEP (append message out) else Ok out) in
  put (write_decimal junk 32 error_code []) (append ERROR_STR out).

(** ** [safe_strerror] *)

(** What [strerror_r(error_code, buffer, buffer_size)] does: the GNU version
    returns a message, in the buffer or static; the other one a number, and
    the message is in the buffer. *)
Inductive strerror_result :=
| GnuResult (in_buffer : bool) (message : bytes)
| XsiResult (result : Z) (in_buffer : bytes).
Variable strerror_r : Z -> nat -> strerror_result.
(** [errno] behind it. *)
Variable errno_after : Z.
Definition ERANGE : Z := 34.

(** [StrError::handle]: the result, and the text [buffer_] points to. *)
Definition handle (r : strerror_result) (buffer_size : nat) : Z * bytes :=
  match r with
  | GnuResult in_buffer message =>
      if in_buffer && (length message =? buffer_size - 1)%nat then (ERANGE, message) else (0, message)
  | XsiResult result text => (if result =? -1 then errno_after else result, text)
  end.
Definition safe_strerror (error_code : Z) (buffer_size : nat) : Z * bytes :=
  handle (strerror_r error_code buffer_size) buffer_size.

(** ** [format_system_error] *)

(** Whether [buffer.resize(n)] gets its memory. *)
Variable can_allocate : nat -> bool.

(** [for (;;)]: the system's message, [Some None] is a [break] or an
    exception; [None] is a loop that has not ended. *)
Fixpoint strerror_loop (fuel : nat) (error_code : Z) (size : nat) : option (option bytes) :=
  match fuel with
  | O => None
  | S fuel =>
      let '(result, system_message) := safe_strerror error_code size in
      if result =? 0 then Some (Some system_message)
      else if negb (result =? ERANGE) then Some None
      else if can_allocate (size * 2) then strerror_loop fuel error_code (size * 2)
      else Some None
  end.
(** The size doubles until it does not fit a [size_t]. *)
Definition strerror_fuel : nat := 57.
Definition format_system_error (error_code : Z) (message : bytes) (out : buffer) : option (exc buffer) :=
  match strerror_loop strerror_fuel error_code INLINE_BUFFER_SIZE with
  | None => None
  | Some (Some system_message) =>
      Some match put system_message (put SEP (append message out)) with
           | Ok out => Ok out
           | Thrown _ => format_error_code error_code message out   (* it clears [out] *)
           end
  | Some None => Some (format_error_code error_code message out)
  end.

(** [report_error]: what is written to [stderr]. *)
Definition report_error (func : Z -> bytes -> buffer -> option (exc buffer)) (error_code : Z) (message : bytes)
    (new_writer : buffer) (stderr : file) : option (exc file) :=
  option_map (exc_map (fun full_message =>
    (fwrite !(String "010" EmptyString) (fwrite (content full_message) stderr).1).1))
    (func error_code message new_writer).
End Errors.


(** ** The class of errors *)
Section SystemErrors.
Context {D : Type} `{FloatLib D}.
Variable junk : ascii.
Variable locale_sep : bytes.
Variable strerror_r : Z -> nat -> strerror_result.
Variable errno_after : Z.
Variable can_allocate : nat -> bool.
Notation new_writer := (new_memory_buffer junk INLINE_BUFFER_SIZE).
Notation format_system_error :=
  (format_system_error (H := MemoryBuffer junk) junk strerror_r errno_after can_allocate).

(** [SystemError::init]: the exception that [throw SystemError(code, ...)]
    throws, which is that of the formatting when the format string is bad. *)
Definition SystemError (err_code : Z) (format_str : bytes) (args : list (Arg D)) : option exn :=
  match format_to_string junk locale_sep format_str args with
  | None => None
  | Some (Thrown e) => Some e
  | Some (Ok message) =>
      match format_system_error err_code message new_writer with
      | None => None
      | Some (Thrown e) => Some e
      | Some (Ok w) => Some (runtime_error (content w))
      end
  end.
Definition report_system_error (error_code : Z) (message : bytes) (stderr : file) : option (exc file) :=
  report_error format_system_error error_code message new_writer stderr.
End SystemErrors.

(** ** Lemmas *)

(** [m] is a buffer with the text [t], of the capacity [cap]; more text that
    has room keeps it so: nothing is allocated. *)
Definition holds (cap : nat) (t : bytes) (m : exc buffer) : Prop :=
  exists b, m = Ok b /\ buffer_wf b /\ content b = t /\ capacity_ b = cap.
Lemma put_holds `{Grow} cap t t' m :
  holds cap t m -> (length t + length t' <= cap)%nat -> holds cap (t ++ t') (put t' m).
Proof.
  intros (b & -> & Hwf & <- & <-) Hroom. rewrite (content_length b Hwf) in Hroom. unfold put. cbn [exc_bind].
  destruct (append t' b) as [b'|e] eqn:Ha.
  - exists b'. split; [done|]. pose proof (append_spec t' b b' Hwf Ha) as [? ?]. split_and!; [done..|].
    unfold append, ensure in Ha. rewrite (proj2 (Nat.ltb_ge _ _)) in Ha by done. simplify_eq/=.
    unfold capacity_, copy. cbn [ptr_]. by rewrite length_inserts.
  - unfold append, ensure in Ha. by rewrite (proj2 (Nat.ltb_ge _ _)) in Ha by done.
Qed.
Lemma clear_holds b : holds (capacity_ b) [] (Ok (clear b)).
Proof. exists (clear b). split_and!; [done| |done|done]. unfold buffer_wf. simpl. lia. Qed.

(** What [format_error_code] writes. *)
Definition error_code_text (error_code : Z) (message : bytes) : bytes :=
  let code := !"error " ++ dec error_code in
  if (length message + 2 + length code <=? INLINE_BUFFER_SIZE)%nat then message ++ !": " ++ code else code.
Lemma dec_int_length z : int_min <= z <= int_max -> (length (dec z) <= 34)%nat.
Proof.
  intros Hz. assert (Hn : forall n, 0 <= n <= 2147483648 -> (length (dec_nat n) <= 33)%nat).
  { intros n Hn. pose proof (dec_digits_length (dec_fuel n) n). unfold dec_nat, dec_fuel in *.
    pose proof (Z.log2_le_mono n 2147483648 ltac:(lia)) as Hl. change (Z.log2 2147483648) with 31 in Hl. lia. }
  unfold dec, int_min, int_max in *. destruct (Z.ltb_spec z 0); cbn [length]; [specialize (Hn (- z))|specialize (Hn z)]; lia.
Qed.
Lemma error_code_length z : int_min <= z <= int_max -> (length (!"error " ++ dec z) <= 40)%nat.
Proof. intros Hz. pose proof (dec_int_length z Hz). rewrite length_app. cbn. lia. Qed.
Lemma error_code_text_length error_code message :
  int_min <= error_code <= int_max -> (length (error_code_text error_code message) <= INLINE_BUFFER_SIZE)%nat.
Proof.
  intros Hc. pose proof (error_code_length error_code Hc). unfold error_code_text, INLINE_BUFFER_SIZE.
  set (code := !"error " ++ dec error_code) in *. clearbody code.
  destruct (Nat.leb_spec (length message + 2 + length code) 500); [|lia]. rewrite !length_app. cbn. lia.
Qed.
(** The size that is computed is that of the text. *)
Lemma error_code_size_ok error_code :
  int_min <= error_code <= int_max ->
  (let '(abs_value, n) := if error_code <? 0 then (u32 (0 - u32 error_code), 9%nat) else (u32 error_code, 8%nat) in
   (n + count_digits 32 abs_value)%nat) = (2 + length (!"error " ++ dec error_code))%nat.
Proof.
  intros Hc. unfold int_min, int_max in *. rewrite length_app. unfold dec, u32.
  destruct (Z.ltb_spec error_code 0).
  - replace (wrap_u 32 (0 - wrap_u 32 error_code)) with (- error_code).
    + rewrite count_digits_length by lia. done.
    + unfold wrap_u. rewrite Zminus_mod_idemp_r, Z.mod_small; lia.
  - rewrite wrap_u_id by lia. rewrite count_digits_length by lia. done.
Qed.
Lemma format_error_code_spec `{Grow} junk error_code message out :
  int_min <= error_code <= int_max -> (INLINE_BUFFER_SIZE <= capacity_ out)%nat ->
  holds (capacity_ out) (error_code_text error_code message) (format_error_code junk error_code message out).
Proof.
  intros Hc Hcap. pose proof (error_code_size_ok error_code Hc) as Hsize. pose proof (error_code_length error_code Hc) as Hlen.
  unfold format_error_code, error_code_text. change (length !": " + length !"error ")%nat with 8%nat.
  revert Hsize. destruct (if error_code <? 0 then _ else _) as [abs n]. intros ->.
  assert (Hw : write_decimal junk 32 error_code [] = dec error_code)
    by (unfold int_min, int_max in *; rewrite write_decimal_spec by lia; done).
  rewrite Hw. clear Hw. rewrite length_app in *. set (code := dec error_code) in *. clearbody code.
  unfold INLINE_BUFFER_SIZE in *. change (length !"error ") with 6%nat in *.
  pose proof (clear_holds out) as H0.
  assert (Hcode : forall t m, holds (capacity_ out) t m -> (length t + 6 + length code <= capacity_ out)%nat ->
    holds (capacity_ out) (t ++ !"error " ++ code) (let! b := m in put code (append !"error " b))).
  { intros t m Hm Hroom. pose proof (put_holds _ _ !"error " _ Hm ltac:(cbn; lia)) as H1.
    pose proof (put_holds _ _ code _ H1 ltac:(rewrite length_app; cbn; lia)) as H2. rewrite <- app_assoc in H2.
    destruct Hm as (b & -> & _). exact H2. }
  destruct (Nat.leb_spec (length message + 2 + (6 + length code)) 500),
    (Nat.leb_spec (length message) (500 - (2 + (6 + length code)))); try lia.
  - rewrite app_assoc. apply Hcode; [|rewrite length_app; cbn; lia].
    apply put_holds; [|cbn; lia]. by apply (put_holds _ [] message _ H0); cbn; lia.
  - by apply (Hcode [] _ H0); cbn; lia.
Qed.

(** (C38) The short form of an error fits.  For every [int], every message and
    every kind of buffer of the inline size (one that throws when it has to
    grow included), [format_error_code] returns without growing the buffer,
    and leaves at most [INLINE_BUFFER_SIZE] characters in it: the code, behind
    the message when the two fit. *)
Theorem error_code_fits `{Grow} junk error_code message out :
  int_min <= error_code <= int_max -> (INLINE_BUFFER_SIZE <= capacity_ out)%nat ->
  exists out', format_error_code junk error_code message out = Ok out'
  /\ content out' = error_code_text error_code message
  /\ (length (content out') <= INLINE_BUFFER_SIZE)%nat /\ capacity_ out' = capacity_ out.
Proof.
  intros Hc Hcap. destruct (format_error_code_spec junk error_code message out Hc Hcap) as (b & -> & _ & Ht & Hb).
  exists b. rewrite Ht. split_and!; [done..|by apply error_code_text_length|done].
Qed.
Lemma error_code_fits_witness :
  (exists out', format_error_code (H := FixedBuffer) nul int_min (repeat "x"%char 481) (new_fixed_buffer (repeat nul 500)) = Ok out'
   /\ content out' = error_code_text int_min (repeat "x"%char 481)
   /\ (length (content out') <= INLINE_BUFFER_SIZE)%nat
   /\ capacity_ out' = capacity_ (new_fixed_buffer (repeat nul 500)))
  /\ length (error_code_text int_min (repeat "x"%char 481)) = 500%nat
  /\ error_code_text (-3) (repeat "x"%char 491) = !"error -3".
Proof.
  split; [|split; vm_compute; reflexivity].
  apply (error_code_fits (H := FixedBuffer) nul int_min (repeat "x"%char 481) (new_fixed_buffer (repeat nul 500))).
  - vm_compute. split; discriminate.
  - vm_compute. apply le_n.
Defined.

(** ** The system's message *)
Section SystemMessage.
Variable junk : ascii.
Variable strerror_r : Z -> nat -> strerror_result.
Variable errno_after : Z.
Variable can_allocate : nat -> bool.
(** No object is larger than [size_t] can say. *)
Hypothesis allocation_limit : forall n, can_allocate n = true -> Z.of_nat n <= size_max.

Lemma strerror_loop_ends fuel error_code size :
  size_max < Z.of_nat size * 2 ^ Z.of_nat fuel -> Z.of_nat size <= size_max ->
  exists r, strerror_loop strerror_r errno_after can_allocate fuel error_code size = Some r.
Proof.
  revert size; induction fuel as [|fuel IH]; intros size Hf Hs; [simpl in Hf; lia|].
  cbn [strerror_loop]. destruct (safe_strerror _ _ _ _) as [result text]. destruct (result =? 0); [eauto|].
  destruct (negb _); [eauto|]. destruct (can_allocate (size * 2)) eqn:Ha; [|eauto]. apply IH.
  - rewrite Nat2Z.inj_succ, Z.pow_succ_r in Hf by lia. lia.
  - by apply allocation_limit.
Qed.
Lemma strerror_ends error_code :
  exists r, strerror_loop strerror_r errno_after can_allocate strerror_fuel error_code INLINE_BUFFER_SIZE = Some r.
Proof. apply strerror_loop_ends; unfold INLINE_BUFFER_SIZE, size_max; [|lia]. by vm_compute. Qed.

(** The GNU function: the text is static, or copied to the buffer as far as
    there is room. *)
Definition gnu_law (text : Z -> bytes) : Prop :=
  forall e n, strerror_r e n = GnuResult false (text e) \/ strerror_r e n = GnuResult true (take (n - 1) (text e)).
Lemma strerror_loop_gnu text fuel error_code size :
  gnu_law text -> (forall n, n <= 2 * length (text error_code) + 1000 -> can_allocate n = true)%nat ->
  (1 <= size)%nat -> (length (text error_code) + 1 < size * 2 ^ fuel)%nat -> (size <= 2 * length (text error_code) + 1000)%nat ->
  strerror_loop strerror_r errno_after can_allocate (S fuel) error_code size = Some (Some (text error_code)).
Proof.
  intros Hlaw Halloc. set (t := text error_code). revert size; induction fuel as [|fuel IH]; intros size Hs Hf Hmax;
    cbn [strerror_loop]; unfold safe_strerror; destruct (Hlaw error_code size) as [-> | ->]; try done; fold t; cbn [handle andb].
  - rewrite take_ge by (simpl in Hf; lia). simpl in Hf. destruct (Nat.eqb_spec (length t) (size - 1)); [lia|done].
  - destruct (Nat.eqb_spec (length (take (size - 1) t)) (size - 1)) as [E|E]; rewrite length_take in E.
    + change (ERANGE =? 0) with false. change (ERANGE =? ERANGE) with true. cbn [negb].
      rewrite Halloc by (fold t; lia). apply IH; fold t; try lia. simpl in Hf. lia.
    + change (0 =? 0) with true. cbn iota. rewrite take_ge by lia. done.
Qed.
Lemma format_system_error_spec `{Grow} error_code message out :
  int_min <= error_code <= int_max -> (INLINE_BUFFER_SIZE <= capacity_ out)%nat -> buffer_wf out ->
  exists out', format_system_error junk strerror_r errno_after can_allocate error_code message out = Some (Ok out')
  /\ (content out' = error_code_text error_code message
      \/ exists text, content out' = content out ++ message ++ !": " ++ text
         /\ strerror_loop strerror_r errno_after can_allocate strerror_fuel error_code INLINE_BUFFER_SIZE = Some (Some text)).
Proof.
  intros Hc Hcap Hwf. unfold format_system_error. destruct (strerror_ends error_code) as [[text|] Hr]; rewrite Hr.
  2: { destruct (format_error_code_spec junk error_code message out Hc Hcap) as (b & -> & _ & Ht & _). eauto. }
  destruct (put text (put !": " (append message out))) as [b|e] eqn:Hp.
  - exists b. split; [done|]. right. exists text. split; [|done]. unfold put in Hp.
    apply exc_bind_ok in Hp as (b2 & H2 & H3). apply exc_bind_ok in H2 as (b1 & H1 & H2).
    apply append_spec in H1 as [Hw1 H1]; [|done]. apply append_spec in H2 as [Hw2 H2]; [|done].
    apply append_spec in H3 as [_ H3]; [|done]. by rewrite H3, H2, H1, <- !app_assoc.
  - destruct (format_error_code_spec junk error_code message out Hc Hcap) as (b & -> & _ & Ht & _). eauto.
Qed.
Lemma format_system_error_gnu error_code message out text :
  gnu_law text -> (forall n, n <= 2 * length (text error_code) + 1000 -> can_allocate n = true)%nat -> buffer_wf out ->
  exists out', format_system_error (H := MemoryBuffer junk) junk strerror_r errno_after can_allocate error_code message out
    = Some (Ok out') /\ content out' = content out ++ message ++ !": " ++ text error_code.
Proof.
  intros Hlaw Halloc Hwf. unfold format_system_error, strerror_fuel.
  rewrite (strerror_loop_gnu text); [|done|done|unfold INLINE_BUFFER_SIZE; lia| |unfold INLINE_BUFFER_SIZE; lia].
  2: { pose proof (allocation_limit _ (Halloc (2 * length (text error_code) + 1000)%nat ltac:(lia))) as Hl.
       unfold size_max, INLINE_BUFFER_SIZE in *. apply Nat2Z.inj_lt. rewrite Nat2Z.inj_mul, Nat2Z.inj_pow. simpl Z.of_nat in *. lia. }
  destruct (append_total (H := MemoryBuffer junk) (memory_grow_total junk) message out Hwf) as (b1 & E1 & Hb1 & H1).
  destruct (append_total (H := MemoryBuffer junk) (memory_grow_total junk) !": " b1 Hb1) as (b2 & E2 & Hb2 & H2).
  destruct (append_total (H := MemoryBuffer junk) (memory_grow_total junk) (text error_code) b2 Hb2) as (b3 & E3 & Hb3 & H3).
  exists b3. unfold put. rewrite E1. cbn [exc_bind]. rewrite E2. cbn [exc_bind]. rewrite E3. split; [done|].
  by rewrite H3, H2, H1, <- !app_assoc.
Qed.
End SystemMessage.

(** An error always has a description.  Whatever [strerror_r] answers
    (either version, also a failure or a buffer that is never large enough),
    whatever the allocator refuses and whether the writer can grow,
    [format_system_error] comes to an end without an exception, as its
    [noexcept] promises: the writer holds the message and the system's text,
    or the short form with the code. *)
Theorem system_error_total `{Grow} junk strerror_r errno_after can_allocate error_code message out :
  (forall n, can_allocate n = true -> Z.of_nat n <= size_max) ->
  int_min <= error_code <= int_max -> (INLINE_BUFFER_SIZE <= capacity_ out)%nat -> buffer_wf out ->
  exists out', format_system_error junk strerror_r errno_after can_allocate error_code message out = Some (Ok out')
  /\ (content out' = error_code_text error_code message
      \/ exists text, content out' = content out ++ message ++ !": " ++ text).
Proof.
  intros Hlim Hc Hcap Hwf.
  destruct (format_system_error_spec junk strerror_r errno_after can_allocate Hlim error_code message out Hc Hcap Hwf)
    as (out' & E & [Ht|(text & Ht & _)]); exists out'; eauto.
Qed.
(** A C library that never finds room, and an allocator that gives up. *)
Definition never_enough (_ : Z) (_ : nat) : strerror_result := XsiResult (-1) !"Unkn".
Lemma system_error_total_witness :
  (exists out', format_system_error (H := FixedBuffer) nul never_enough ERANGE (fun n => (n <=? 4000)%nat) 2 !"cannot read"
      (new_fixed_buffer (repeat nul 500)) = Some (Ok out')
   /\ (content out' = error_code_text 2 !"cannot read"
       \/ exists text, content out' = content (new_fixed_buffer (repeat nul 500)) ++ !"cannot read" ++ !": " ++ text))
  /\ error_code_text 2 !"cannot read" = !"cannot read: error 2".
Proof.
  split; [|vm_compute; reflexivity].
  apply (system_error_total (H := FixedBuffer) nul never_enough ERANGE (fun n => (n <=? 4000)%nat) 2 !"cannot read"
    (new_fixed_buffer (repeat nul 500))).
  - intros n Hn. apply Nat.leb_le in Hn. apply (Z.le_trans _ 4000); [lia|]. vm_compute. discriminate.
  - vm_compute. split; discriminate.
  - vm_compute. apply le_n.
  - vm_compute. apply le_0_n.
Defined.

(** The text of a [SystemError] whose message is a template. *)
Lemma format_template_string junk locale_sep {D} `{FloatLibOk D} (args : list (Arg D)) l ts st :
  Forall arg_ok args -> Forall piece_ok l -> expand locale_sep args l 0 = Some (ts, st) ->
  format_to_string junk locale_sep (print l) args = Some (Ok ts).
Proof.
  intros Ha Hl He. unfold format_to_string.
  destruct (template_written junk locale_sep args l ts st (new_memory_buffer junk INLINE_BUFFER_SIZE) Ha Hl)
    as (b & -> & _ & Hc); [unfold buffer_wf; simpl; lia|done|]. cbn [option_map exc_map]. by rewrite Hc.
Qed.
(** Throwing and reporting an error come to an end. *)
Lemma format_to_string_total junk locale_sep {D} `{FloatLib D} format_str (args : list (Arg D)) `{!Plain args} :
  exists r, format_to_string junk locale_sep format_str args = Some r.
Proof.
  unfold format_to_string, writer_write, format.
  destruct (format_loop_ends (H0 := MemoryBuffer junk) junk locale_sep (arg_list args)
    (patient_list (H0 := MemoryBuffer junk) args (not_a_number args plain_args)) (S (length format_str)) [] format_str
    (new_formatter (new_memory_buffer junk INLINE_BUFFER_SIZE))) as (r & -> & _);
    [split; [unfold buffer_wf; simpl; lia|constructor]|lia|].
  destruct r; eexists; done.
Qed.
Lemma memory_put_total junk t m : (exists b, m = Ok b) -> exists b, put (H := MemoryBuffer junk) t m = Ok b.
Proof.
  intros [b ->]. unfold put. cbn [exc_bind]. unfold append, ensure. destruct (_ <? _)%nat; eexists; done.
Qed.
Lemma memory_error_code_total junk error_code message out :
  exists b, format_error_code (H := MemoryBuffer junk) junk error_code message out = Ok b.
Proof.
  unfold format_error_code. destruct (if error_code <? 0 then _ else _) as [a n].
  assert (Happ : forall t b, exists b', append (H := MemoryBuffer junk) t b = Ok b')
    by (intros t b; apply (memory_put_total junk t (Ok b)); eauto).
  destruct (_ <=? _)%nat; cbn [exc_bind].
  - destruct (memory_put_total junk !": " _ (Happ message (clear out))) as [b ->]. cbn [exc_bind].
    apply memory_put_total, Happ.
  - apply memory_put_total, Happ.
Qed.
Section Total.
Variable junk : ascii.
Variable locale_sep : bytes.
Variable strerror_r : Z -> nat -> strerror_result.
Variable errno_after : Z.
Variable can_allocate : nat -> bool.
Hypothesis allocation_limit : forall n, can_allocate n = true -> Z.of_nat n <= size_max.
Lemma memory_system_error_total error_code message out :
  exists b, format_system_error (H := MemoryBuffer junk) junk strerror_r errno_after can_allocate error_code message out
            = Some (Ok b).
Proof.
  unfold format_system_error. destruct (strerror_ends strerror_r errno_after can_allocate allocation_limit error_code)
    as [[text|] ->]; destruct (memory_error_code_total junk error_code message out) as [b ->]; [|eauto].
  destruct (put text _); eauto.
Qed.
Lemma system_error_some {D} `{FloatLib D} err_code format_str (args : list (Arg D)) `{!Plain args} :
  exists e, SystemError junk locale_sep strerror_r errno_after can_allocate err_code format_str args = Some e.
Proof.
  unfold SystemError. destruct (format_to_string_total junk locale_sep format_str args) as [[t|e] ->]; [|eauto].
  destruct (memory_system_error_total err_code t (new_memory_buffer junk INLINE_BUFFER_SIZE)) as [b ->]. eauto.
Qed.
Lemma report_total error_code message stderr :
  exists f, report_system_error junk strerror_r errno_after can_allocate error_code message stderr = Some (Ok f).
Proof.
  unfold report_system_error, report_error.
  destruct (memory_system_error_total error_code message (new_memory_buffer junk INLINE_BUFFER_SIZE)) as [b ->].
  eexists; done.
Qed.
End Total.
Lemma system_error_what junk locale_sep strerror_r errno_after can_allocate {D} `{FloatLibOk D} (args : list (Arg D))
    text l ts st err_code :
  (forall n, can_allocate n = true -> Z.of_nat n <= size_max) -> gnu_law strerror_r text ->
  (forall n, n <= 2 * length (text err_code) + 1000 -> can_allocate n = true)%nat ->
  Forall arg_ok args -> Forall piece_ok l -> expand locale_sep args l 0 = Some (ts, st) ->
  SystemError junk locale_sep strerror_r errno_after can_allocate err_code (print l) args
  = Some (runtime_error (ts ++ !": " ++ text err_code)).
Proof.
  intros Hlim Hlaw Halloc Ha Hl He. unfold SystemError. rewrite (format_template_string junk locale_sep args l ts st) by done.
  destruct (format_system_error_gnu junk strerror_r errno_after can_allocate Hlim err_code ts
    (new_memory_buffer junk INLINE_BUFFER_SIZE) text Hlaw Halloc) as (b & -> & Hc); [unfold buffer_wf; simpl; lia|].
  by rewrite Hc.
Qed.
