(* ===== verification/FmtPosix.v ===== *)
(** * Files and streams, [src/src/spdlog/fmt/bundled/posix.h] and [posix.cc]

    [File] owns a file descriptor ([fd_] is -1 when it has none) and
    [BufferedFile] owns a [FILE*] (null when it has none).  The objects live
    in a store, so that two arguments can be one object.  The kernel keeps the
    set of open descriptors; whether a call fails is an input, a list of
    replies (behind its end every call succeeds), and a call that needs a new
    descriptor gets the lowest free one.  As on Linux, [close] releases the
    descriptor also when it reports an error.  A stream is identified by the
    descriptor it was opened on.  What the files hold is not modelled.  The
    branches with rvalue references, not the ones for Windows. *)
From S2P Require Import Prelude Cxx FmtBuffer FmtDouble FmtFormat FmtPrintf FmtError.

Open Scope Z_scope.

(** ** The kernel and the objects *)
Inductive reply := Yields (n : Z) (data : bytes) | Fails (errno : Z).
Inductive object := FileObj (fd_ : Z) | BufferedObj (file_ : option Z).
Record world := World {
  fds : gset Z;
  replies : list reply;
  bad_closes : nat;          (* calls of [close] for a descriptor that is not open *)
  stderr_ : file;
  objects : gmap nat object
}.
Inductive outcome (A : Type) := Fine (a : A) | Threw (e : exn) | Undefined | Running.
Arguments Fine {A} a. Arguments Threw {A} e. Arguments Undefined {A}. Arguments Running {A}.
Definition M (A : Type) : Type := world -> world * outcome A.

Definition mret {A} (a : A) : M A := fun w => (w, Fine a).
Definition mraise {A} (o : outcome A) : M A := fun w => (w, o).
Definition mbind {A B} (m : M A) (f : A -> M B) : M B :=
  fun w => match m w with
           | (w, Fine a) => f a w
           | (w, Threw e) => (w, Threw e)
           | (w, Undefined) => (w, Undefined)
           | (w, Running) => (w, Running)
           end.
(** [try { m } catch (...) { h; throw; }] *)
Definition mcleanup {A} (m : M A) (h : M unit) : M A :=
  fun w => match m w with
           | (w, Threw e) => mbind h (fun _ => mraise (Threw e)) w
           | r => r
           end.
Notation "'do!' x := m 'in' k" := (mbind m (fun x => k))
  (at level 200, x pattern, right associativity) : cxx_scope.

Definition set_fds (s : gset Z) (w : world) : world := World s (replies w) (bad_closes w) (stderr_ w) (objects w).
Definition set_replies (l : list reply) (w : world) : world := World (fds w) l (bad_closes w) (stderr_ w) (objects w).
Definition set_objects (m : gmap nat object) (w : world) : world := World (fds w) (replies w) (bad_closes w) (stderr_ w) m.
Definition count_bad_close (w : world) : world :=
  World (fds w) (replies w) (S (bad_closes w)) (stderr_ w) (objects w).
Definition set_stderr (f : file) (w : world) : world := World (fds w) (replies w) (bad_closes w) f (objects w).
Definition modify (f : world -> world) : M unit := fun w => (f w, Fine tt).

(** *** System calls: a result, or -1 with [errno] *)
Inductive res (A : Type) := Got (a : A) | Errno (e : Z).
Arguments Got {A} a. Arguments Errno {A} e.
Definition EINTR : Z := 4.
Definition EBADF : Z := 9.

(** The lowest descriptor that is free. *)
Fixpoint lowest_from (fuel : nat) (i : Z) (s : gset Z) : Z :=
  match fuel with
  | O => i
  | S fuel => if decide (i ∈ s) then lowest_from fuel (i + 1) s else i
  end.
Definition lowest (s : gset Z) : Z := lowest_from (size s) 0 s.

Definition next_reply : M reply :=
  fun w => (set_replies (tail (replies w)) w, Fine (default (Yields 0 []) (head (replies w)))).
(** A call that needs nothing from the kernel's state. *)
Definition plain_call : M (res (Z * bytes)) :=
  do! r := next_reply in
  mret match r with Yields n data => Got (n, data) | Fails e => Errno e end.
(** A call on a descriptor. *)
Definition call_on (fd : Z) : M (res (Z * bytes)) :=
  fun w => if decide (fd ∈ fds w) then plain_call w else (w, Fine (Errno EBADF)).
Definition new_fd : M Z := fun w => let fd := lowest (fds w) in (set_fds ({[fd]} ∪ fds w) w, Fine fd).

Definition sys_open : M (res Z) :=
  do! r := plain_call in
  match r with Got _ => do! fd := new_fd in mret (Got fd) | Errno e => mret (Errno e) end.
Definition sys_close (fd : Z) : M (res unit) :=
  fun w =>
    if decide (fd ∈ fds w) then
      (do! _ := modify (set_fds (fds w ∖ {[fd]})) in
       do! r := plain_call in
       mret match r with Got _ => Got tt | Errno e => Errno e end) w
    else (count_bad_close w, Fine (Errno EBADF)).
Definition sys_dup (fd : Z) : M (res Z) :=
  do! r := call_on fd in
  match r with Got _ => do! fd := new_fd in mret (Got fd) | Errno e => mret (Errno e) end.
Definition sys_dup2 (fd fd' : Z) : M (res unit) :=
  if fd' <? 0 then mret (Errno EBADF)
  else
    do! r := call_on fd in
    match r with
    | Got _ => do! _ := modify (fun w => set_fds ({[fd']} ∪ fds w) w) in mret (Got tt)
    | Errno e => mret (Errno e)
    end.
Definition sys_pipe : M (res (Z * Z)) :=
  do! r := plain_call in
  match r with
  | Got _ => do! fd0 := new_fd in do! fd1 := new_fd in mret (Got (fd0, fd1))
  | Errno e => mret (Errno e)
  end.
(** [fopen], [fdopen], [fclose] and [fileno], a stream being its descriptor. *)
Definition sys_fopen : M (res Z) := sys_open.
Definition sys_fdopen (fd : Z) : M (res Z) :=
  do! r := call_on fd in mret match r with Got _ => Got fd | Errno e => Errno e end.
Definition sys_fclose (f : Z) : M (res unit) := sys_close f.
Definition sys_fileno (f : Z) : M (res Z) :=
  do! r := plain_call in mret match r with Got _ => Got f | Errno e => Errno e end.

(** [FMT_RETRY]: each turn takes a reply, so the replies that are left bound
    the turns. *)
Fixpoint retry {A} (fuel : nat) (call : M (res A)) : M (res A) :=
  match fuel with
  | O => mraise Running
  | S fuel =>
      do! r := call in
      match r with
      | Errno e => if e =? EINTR then retry fuel call else mret r
      | Got _ => mret r
      end
  end.
Definition FMT_RETRY {A} (call : M (res A)) : M (res A) := fun w => retry (S (length (replies w))) call w.

(** *** Objects *)
Definition get_object (o : nat) : M object :=
  fun w => match objects w !! o with Some x => (w, Fine x) | None => (w, Undefined) end.
Definition get_fd (o : nat) : M Z :=
  do! x := get_object o in match x with FileObj fd => mret fd | _ => mraise Undefined end.
Definition get_file (o : nat) : M (option Z) :=
  do! x := get_object o in match x with BufferedObj f => mret f | _ => mraise Undefined end.
Definition put_object (o : nat) (x : object) : M unit := modify (fun w => set_objects (<[o := x]> (objects w)) w).
Definition set_fd (o : nat) (fd : Z) : M unit := put_object o (FileObj fd).
Definition set_file (o : nat) (f : option Z) : M unit := put_object o (BufferedObj f).
(** The object a constructor makes; there is none before. *)
Definition construct (o : nat) (x : object) : M unit :=
  fun w => match objects w !! o with None => put_object o x w | Some _ => (w, Undefined) end.
Definition destroy (o : nat) : M unit := modify (fun w => set_objects (delete o (objects w)) w).

Section Posix.
Context {D : Type} `{FloatLib D}.
Variable junk : ascii.
Variable locale_sep : bytes.
Variable strerror_r : Z -> nat -> strerror_result.
Variable errno_after : Z.
Variable can_allocate : nat -> bool.

(** [FMT_THROW(SystemError(errno, ...))] *)
Definition throw_system_error {A} (errno : Z) (format_str : bytes) (args : list (Arg D)) : M A :=
  mraise match SystemError junk locale_sep strerror_r errno_after can_allocate errno format_str args with
         | Some e => Threw e
         | None => Running
         end.
Definition check {A} (r : res A) (format_str : bytes) (args : list (Arg D)) : M A :=
  match r with Got a => mret a | Errno e => throw_system_error e format_str args end.
(** [report_system_error] in a destructor; an exception would end the
    program. *)
Definition report (r : res unit) (message : bytes) : M unit :=
  match r with
  | Got _ => mret tt
  | Errno e =>
      fun w => match report_system_error junk strerror_r errno_after can_allocate e message (stderr_ w) with
               | Some (Ok f) => (set_stderr f w, Fine tt)
               | Some (Thrown _) => (w, Undefined)
               | None => (w, Running)
               end
  end.

(** ** BufferedFile *)
Definition BufferedFile_null (o : nat) : M unit := construct o (BufferedObj None).
Definition BufferedFile_open (o : nat) (filename : bytes) : M unit :=
  do! r := FMT_RETRY sys_fopen in
  do! f := check r !"cannot open file {}" [CSTRING 1 filename] in
  construct o (BufferedObj (Some f)).
Definition BufferedFile_close (o : nat) : M unit :=
  do! f := get_file o in
  match f with
  | None => mret tt
  | Some f =>
      do! result := sys_fclose f in
      do! _ := set_file o None in
      check result !"cannot close file" []
  end.
Definition BufferedFile_destroy (o : nat) : M unit :=
  do! f := get_file o in
  do! _ := (match f with
            | Some f => do! result := sys_fclose f in report result !"cannot close file"
            | None => mret tt
            end) in
  destroy o.
(** [file_(other.file_)] and [other.file_ = 0] *)
Definition BufferedFile_move (o other : nat) : M unit :=
  do! f := get_file other in
  do! _ := construct o (BufferedObj f) in set_file other None.
Definition BufferedFile_assign (o other : nat) : M unit :=
  do! _ := BufferedFile_close o in
  do! f := get_file other in
  do! _ := set_file o f in set_file other None.
Definition BufferedFile_get (o : nat) : M (option Z) := get_file o.
(** [fileno] of a null pointer is undefined behaviour. *)
Definition BufferedFile_fileno (o : nat) : M Z :=
  do! f := get_file o in
  match f with
  | Some f => do! r := sys_fileno f in check r !"cannot get file descriptor" []
  | None => mraise Undefined
  end.

(** ** File *)
Definition File_null (o : nat) : M unit := construct o (FileObj (-1)).
Definition File_open (o : nat) (path : bytes) : M unit :=
  do! r := FMT_RETRY sys_open in
  do! fd := check r !"cannot open file {}" [CSTRING 1 path] in
  construct o (FileObj fd).
Definition File_close (o : nat) : M unit :=
  do! fd := get_fd o in
  if fd =? -1 then mret tt
  else
    do! result := sys_close fd in
    do! _ := set_fd o (-1) in
    check result !"cannot close file" [].
(** The destructor's work on a descriptor. *)
Definition close_fd (fd : Z) : M unit :=
  if fd =? -1 then mret tt
  else do! result := sys_close fd in report result !"cannot close file".
Definition File_destroy (o : nat) : M unit :=
  do! fd := get_fd o in do! _ := close_fd fd in destroy o.
Definition File_move (o other : nat) : M unit :=
  do! fd := get_fd other in
  do! _ := construct o (FileObj fd) in set_fd other (-1).
Definition File_assign (o other : nat) : M unit :=
  do! _ := File_close o in
  do! fd := get_fd other in
  do! _ := set_fd o fd in set_fd other (-1).
(** [o = File(fd)]: the temporary is destroyed when the assignment throws. *)
Definition File_assign_temporary (o : nat) (fd : Z) : M unit :=
  do! _ := mcleanup (File_close o) (close_fd fd) in set_fd o fd.
Definition File_descriptor (o : nat) : M Z := get_fd o.

Definition File_size (o : nat) : M Z :=
  do! fd := get_fd o in
  do! r := call_on fd in
  do! (n, _) := check r !"cannot get file attributes" [] in mret n.
(** [read] gives at most [count] bytes, [write] takes at most all. *)
Definition File_read (o : nat) (count : nat) : M bytes :=
  do! fd := get_fd o in
  do! r := FMT_RETRY (call_on fd) in
  do! (_, data) := check r !"cannot read from file" [] in mret (take count data).
Definition File_write (o : nat) (buffer : bytes) : M nat :=
  do! fd := get_fd o in
  do! r := FMT_RETRY (call_on fd) in
  do! (n, _) := check r !"cannot write to file" [] in mret (Nat.min (Z.to_nat n) (length buffer)).
Definition File_dup (o : nat) (fd : Z) : M unit :=
  do! r := sys_dup fd in
  do! new_fd := check r !"cannot duplicate file descriptor {}" [INT fd] in
  construct o (FileObj new_fd).
Definition File_dup2 (o : nat) (fd : Z) : M unit :=
  do! fd_ := get_fd o in
  do! r := FMT_RETRY (sys_dup2 fd_ fd) in
  check r !"cannot duplicate file descriptor {} to {}" [INT fd_; INT fd].
(** The version with an [ErrorCode]: the value of [ec] behind the call. *)
Definition File_dup2_ec (o : nat) (fd ec : Z) : M Z :=
  do! fd_ := get_fd o in
  do! r := FMT_RETRY (sys_dup2 fd_ fd) in
  mret match r with Got _ => ec | Errno e => e end.
Definition File_pipe (read_end write_end : nat) : M unit :=
  do! _ := File_close read_end in
  do! _ := File_close write_end in
  do! r := sys_pipe in
  do! (fd0, fd1) := check r !"cannot create pipe" [] in
  do! _ := File_assign_temporary read_end fd0 in
  File_assign_temporary write_end fd1.
(** The new object takes the descriptor over. *)
Definition File_fdopen (o file : nat) : M unit :=
  do! fd := get_fd o in
  do! r := sys_fdopen fd in
  do! f := check r !"cannot associate stream with file descriptor" [] in
  do! _ := construct file (BufferedObj (Some f)) in set_fd o (-1).
Definition getpagesize : M Z :=
  do! r := plain_call in
  do! (size, _) := check r !"cannot get memory page size" [] in mret size.

(** ** A program that uses the classes *)
Inductive op :=
| OpBufferedNull (o : nat) | OpBufferedOpen (o : nat) (filename : bytes) | OpBufferedClose (o : nat)
| OpBufferedDestroy (o : nat) | OpBufferedMove (o other : nat) | OpBufferedAssign (o other : nat)
| OpFileno (o : nat)
| OpFileNull (o : nat) | OpFileOpen (o : nat) (path : bytes) | OpFileClose (o : nat)
| OpFileDestroy (o : nat) | OpFileMove (o other : nat) | OpFileAssign (o other : nat)
| OpSize (o : nat) | OpRead (o count : nat) | OpWrite (o : nat) (buffer : bytes)
| OpDup (o : nat) (fd : Z) | OpDup2 (o : nat) (fd : Z) | OpDup2Ec (o : nat) (fd ec : Z)
| OpPipe (read_end write_end : nat) | OpFdopen (o file : nat) | OpPagesize.
Definition ignore {A} (m : M A) : M unit := do! _ := m in mret tt.
Definition exec (x : op) : M unit :=
  match x with
  | OpBufferedNull o => BufferedFile_null o
  | OpBufferedOpen o name => BufferedFile_open o name
  | OpBufferedClose o => BufferedFile_close o
  | OpBufferedDestroy o => BufferedFile_destroy o
  | OpBufferedMove o other => BufferedFile_move o other
  | OpBufferedAssign o other => BufferedFile_assign o other
  | OpFileno o => ignore (BufferedFile_fileno o)
  | OpFileNull o => File_null o
  | OpFileOpen o path => File_open o path
  | OpFileClose o => File_close o
  | OpFileDestroy o => File_destroy o
  | OpFileMove o other => File_move o other
  | OpFileAssign o other => File_assign o other
  | OpSize o => ignore (File_size o)
  | OpRead o count => ignore (File_read o count)
  | OpWrite o buffer => ignore (File_write o buffer)
  | OpDup o fd => File_dup o fd
  | OpDup2 o fd => File_dup2 o fd
  | OpDup2Ec o fd ec => ignore (File_dup2_ec o fd ec)
  | OpPipe r w => File_pipe r w
  | OpFdopen o file => File_fdopen o file
  | OpPagesize => ignore getpagesize
  end.
(** The program goes on behind an exception; [false] when an operation was
    undefined (an object used before or after its life) or did not end. *)
Fixpoint exec_all (l : list op) (w : world) : world * bool :=
  match l with
  | [] => (w, true)
  | x :: l =>
      match exec x w with
      | (w, Fine _) | (w, Threw _) => exec_all l w
      | (w, _) => (w, false)
      end
  end.
(** The end of every object that is left. *)
Definition destroy_object (o : nat) (x : object) : M unit :=
  match x with FileObj _ => File_destroy o | BufferedObj _ => BufferedFile_destroy o end.
Fixpoint destroy_all (l : list (nat * object)) (w : world) : world * bool :=
  match l with
  | [] => (w, true)
  | (o, x) :: l =>
      match destroy_object o x w with
      | (w, Fine _) => destroy_all l w
      | (w, _) => (w, false)
      end
  end.
End Posix.
