(* ===== verification/FmtPosixFacts.v ===== *)
(** * Who owns a descriptor

    The invariant divides the open descriptors in three: those an object
    holds, each by one object; those in the hands of the operation that is
    running; and the others, which no operation touches.  A specification
    states what an operation does to the division, on a normal return and on
    an exception; operations are composed with the rules for [mbind] and
    [mcleanup]. *)
From S2P Require Import Prelude Cxx Fmt FmtFacts FmtBuffer FmtDouble FmtDoubleFacts FmtFormat FmtFormatFacts FmtTemplate FmtTemplateFacts FmtPrintf FmtError FmtPosix.

Open Scope Z_scope.

(** ** The lowest free descriptor *)
Lemma lowest_from_spec fuel i s :
  0 <= i -> i <= lowest_from fuel i s <= i + Z.of_nat fuel
  /\ (forall j, i <= j < lowest_from fuel i s -> j ∈ s)
  /\ (lowest_from fuel i s < i + Z.of_nat fuel -> lowest_from fuel i s ∉ s).
Proof.
  revert i; induction fuel as [|fuel IH]; intros i Hi; cbn [lowest_from]; [split_and!; lia|].
  destruct (decide (i ∈ s)) as [Hin|Hn].
  - destruct (IH (i + 1) ltac:(lia)) as (H1 & H2 & H3). split_and!; [lia|lia| |intros; apply H3; lia].
    intros j Hj. destruct (decide (j = i)) as [->|]; [done|]. apply H2. lia.
  - split_and!; [lia|lia|lia|done].
Qed.
Lemma lowest_free s : lowest s ∉ s /\ 0 <= lowest s.
Proof.
  unfold lowest. destruct (lowest_from_spec (size s) 0 s ltac:(lia)) as (H1 & H2 & H3). split; [|lia].
  destruct (decide (lowest_from (size s) 0 s < 0 + Z.of_nat (size s))) as [|Hge]; [auto|]. intros Hin.
  assert (Heq : lowest_from (size s) 0 s = Z.of_nat (size s)) by lia. rewrite Heq in *.
  assert (Hsub : list_to_set (seqZ 0 (Z.of_nat (size s) + 1)) ⊆ s).
  { intros j Hj. apply elem_of_list_to_set, elem_of_seqZ in Hj.
    destruct (decide (j = Z.of_nat (size s))) as [->|]; [done|]. apply H2. lia. }
  apply subseteq_size in Hsub. rewrite size_list_to_set, length_seqZ in Hsub by apply NoDup_seqZ. lia.
Qed.

(** ** Specifications *)
Definition spec {A} (P : world -> Prop) (m : M A) (Q : A -> world -> Prop) (E : world -> Prop) : Prop :=
  forall w, P w -> match m w with
                   | (w', Fine a) => Q a w'
                   | (w', Threw _) => E w'
                   | (_, Undefined) => True
                   | (_, Running) => False
                   end.
Lemma spec_bind {A B} P (m : M A) (f : A -> M B) Q R E :
  spec P m Q E -> (forall a, spec (Q a) (f a) R E) -> spec P (mbind m f) R E.
Proof.
  intros Hm Hf w Hw. specialize (Hm w Hw). unfold mbind. destruct (m w) as [w' [a|e| |]]; try done.
  by apply Hf.
Qed.
Lemma spec_ret {A} (a : A) (Q : A -> world -> Prop) E : spec (Q a) (mret a) Q E.
Proof. by intros w Hw. Qed.
Lemma spec_undefined {A} P Q E : spec P (mraise Undefined : M A) Q E.
Proof. by intros w Hw. Qed.
Lemma spec_pre {A} (P P' : world -> Prop) (m : M A) Q E : spec P' m Q E -> (forall w, P w -> P' w) -> spec P m Q E.
Proof. intros Hm HP w Hw. by apply Hm, HP. Qed.
Lemma spec_post {A} P (m : M A) (Q Q' : A -> world -> Prop) (E E' : world -> Prop) :
  spec P m Q E -> (forall a w, Q a w -> Q' a w) -> (forall w, E w -> E' w) -> spec P m Q' E'.
Proof. intros Hm HQ HE w Hw. specialize (Hm w Hw). destruct (m w) as [w' [a|e| |]]; auto. Qed.
Lemma spec_cleanup {A} P (m : M A) (h : M unit) Q E F :
  spec P m Q F -> spec F h (fun _ => E) E -> spec P (mcleanup m h) Q E.
Proof.
  intros Hm Hh w Hw. specialize (Hm w Hw). unfold mcleanup, mbind, mraise. destruct (m w) as [w' [a|e| |]]; try done.
  specialize (Hh w' Hm). by destruct (h w') as [w'' [u|e'| |]].
Qed.

(** *** The invariant *)
Definition fd_of (x : object) : option Z :=
  match x with FileObj fd => if fd =? -1 then None else Some fd | BufferedObj f => f end.
(** The object [o] holds [fd]. *)
Definition holder (m : gmap nat object) (o : nat) (fd : Z) : Prop := exists x, m !! o = Some x /\ fd_of x = Some fd.
Definition idle (m : gmap nat object) (o : nat) : Prop := forall fd, ~ holder m o fd.
Record division (ex rest s : gset Z) (m : gmap nat object) : Prop := {
  div_open fd : fd ∈ s <-> (exists o, holder m o fd) \/ fd ∈ ex \/ fd ∈ rest;
  div_once o o' fd : holder m o fd -> holder m o' fd -> o = o';
  div_held o fd : holder m o fd -> fd ∉ ex /\ fd ∉ rest;
  div_rest fd : fd ∈ ex -> fd ∉ rest;
  div_nat fd : fd ∈ s -> 0 <= fd
}.
Definition Inv (ex rest : gset Z) (w : world) : Prop :=
  division ex rest (fds w) (objects w) /\ bad_closes w = O.

Lemma holder_insert m o x o' fd :
  holder (<[o := x]> m) o' fd <-> (o' = o /\ fd_of x = Some fd) \/ (o' <> o /\ holder m o' fd).
Proof.
  unfold holder. destruct (decide (o' = o)) as [->|Hn].
  - rewrite lookup_insert_eq. naive_solver.
  - rewrite lookup_insert_ne by done. naive_solver.
Qed.
Lemma holder_delete m o o' fd : holder (delete o m) o' fd <-> o' <> o /\ holder m o' fd.
Proof.
  unfold holder. destruct (decide (o' = o)) as [->|Hn].
  - rewrite lookup_delete_eq. naive_solver.
  - rewrite lookup_delete_ne by done. naive_solver.
Qed.
Lemma holder_fun m o fd fd' : holder m o fd -> holder m o fd' -> fd = fd'.
Proof. unfold holder. naive_solver. Qed.
Lemma idle_new m o : m !! o = None -> idle m o.
Proof. intros Hn fd (x & Hx & _). by rewrite Hn in Hx. Qed.
Lemma idle_object m o x : m !! o = Some x -> fd_of x = None -> idle m o.
Proof. intros Ho Hx fd (y & Hy & Hfd). naive_solver. Qed.

Section Division.
Context (ex rest s : gset Z) (m : gmap nat object).
Hypothesis Hdiv : division ex rest s m.

(** A descriptor is opened; it is closed. *)
Lemma division_acquire fd : fd ∉ s -> 0 <= fd -> division ({[fd]} ∪ ex) rest ({[fd]} ∪ s) m.
Proof. intros Hn Hp. destruct Hdiv as [H1 H2 H3 H4 H5]. split; set_solver. Qed.
Lemma division_release fd : fd ∈ ex -> division (ex ∖ {[fd]}) rest (s ∖ {[fd]}) m.
Proof.
  intros Hin. destruct Hdiv as [H1 H2 H3 H4 H5]. split; [|done|set_solver..].
  intros fd'. rewrite !elem_of_difference, elem_of_singleton, H1. split; [naive_solver|].
  intros [[o Ho]|[[? ?]|Hr]]; [|set_solver|].
  - split; [eauto|]. intros ->. by destruct (H3 _ _ Ho).
  - split; [eauto|]. intros ->. by apply (H4 fd).
Qed.
(** An idle object takes a descriptor over; an object gives its own up. *)
Lemma division_give o x fd :
  idle m o -> fd_of x = Some fd -> fd ∈ ex -> division (ex ∖ {[fd]}) rest s (<[o := x]> m).
Proof.
  intros Hi Hx Hin. destruct Hdiv as [H1 H2 H3 H4 H5]. split; [| | | |done]; try setoid_rewrite holder_insert.
  - intros fd'. rewrite H1, elem_of_difference, elem_of_singleton. destruct (decide (fd' = fd)) as [->|Hne].
    + split; [intros _; left; exists o; by left|auto].
    + split.
      * intros [[o' Ho']|[?|?]]; [|naive_solver..]. left. exists o'. right. split; [|done]. intros ->. by apply (Hi fd').
      * intros [[o' [[-> ?]|[? ?]]]|[[? ?]|?]]; [congruence|eauto..].
  - intros o1 o2 fd' [[-> ?]|[? Ho1]] [[-> ?]|[? Ho2]]; simplify_eq; [done|..|eauto].
    + by destruct (H3 _ _ Ho2).
    + by destruct (H3 _ _ Ho1).
  - intros o' fd' [[-> ?]|[? Ho']]; simplify_eq; [|apply H3 in Ho'; set_solver].
    split; [set_solver|]. by apply H4.
  - set_solver.
Qed.
Lemma division_take o x fd :
  holder m o fd -> fd_of x = None -> division ({[fd]} ∪ ex) rest s (<[o := x]> m).
Proof.
  intros Ho Hx. destruct Hdiv as [H1 H2 H3 H4 H5]. split; [| | | |done]; try setoid_rewrite holder_insert.
  - intros fd'. rewrite H1, elem_of_union, elem_of_singleton. destruct (decide (fd' = fd)) as [->|Hne]; [naive_solver|].
    split; [|naive_solver]. intros [[o' Ho']|?]; [|naive_solver]. left. exists o'. right. split; [|done]. intros ->.
    by apply Hne, (holder_fun m o).
  - intros o1 o2 fd' [[-> ?]|[? Ho1]] [[-> ?]|[? Ho2]]; [done|congruence..|eauto].
  - intros o' fd' [[-> ?]|[Hne Ho']]; [congruence|]. pose proof (H3 _ _ Ho') as [? ?]. split; [|done].
    rewrite not_elem_of_union, not_elem_of_singleton. split; [|done]. intros ->. by apply Hne, (H2 o' o fd).
  - intros fd' Hin. destruct (H3 _ _ Ho). set_solver.
Qed.
(** An idle object stays idle, or goes. *)
Lemma division_idle o x : idle m o -> fd_of x = None -> division ex rest s (<[o := x]> m).
Proof.
  intros Hi Hx. assert (Hsame : forall o' fd, holder (<[o := x]> m) o' fd <-> holder m o' fd).
  { intros o' fd. rewrite holder_insert. split; [naive_solver|]. intros Ho'. right. split; [|done]. intros ->. by apply (Hi fd). }
  destruct Hdiv as [H1 H2 H3 H4 H5]. split; try setoid_rewrite Hsame; done.
Qed.
Lemma division_delete o : idle m o -> division ex rest s (delete o m).
Proof.
  intros Hi. assert (Hsame : forall o' fd, holder (delete o m) o' fd <-> holder m o' fd).
  { intros o' fd. rewrite holder_delete. split; [naive_solver|]. intros Ho'. split; [|done]. intros ->. by apply (Hi fd). }
  destruct Hdiv as [H1 H2 H3 H4 H5]. split; try setoid_rewrite Hsame; done.
Qed.
(** A descriptor that no one holds appears. *)
Lemma division_rest fd : fd ∉ s -> 0 <= fd -> division ex ({[fd]} ∪ rest) ({[fd]} ∪ s) m.
Proof.
  intros Hn Hp. destruct Hdiv as [H1 H2 H3 H4 H5]. split; [set_solver|done|..|set_solver].
  - intros o fd' Ho. destruct (H3 _ _ Ho). split; [done|]. rewrite not_elem_of_union, not_elem_of_singleton.
    split; [|done]. intros ->. apply Hn, H1. eauto.
  - set_solver.
Qed.
End Division.

(** *** The state an operation works on *)
Definition Raw (s : gset Z) (m : gmap nat object) (w : world) : Prop :=
  fds w = s /\ objects w = m /\ bad_closes w = O.
Definition State (ex rest : gset Z) (m : gmap nat object) (w : world) : Prop :=
  exists s, division ex rest s m /\ Raw s m w.
Lemma inv_state ex rest w : Inv ex rest w <-> State ex rest (objects w) w.
Proof. unfold Inv, State, Raw. naive_solver. Qed.

(** ** System calls

    A call ends at once, and [EINTR] has taken a reply. *)
Definition call_spec {A} (P : world -> Prop) (call : M (res A)) (Q : A -> world -> Prop) : Prop :=
  forall w, P w -> match call w with
                   | (w', Fine (Got a)) => Q a w'
                   | (w', Fine (Errno e)) => P w' /\ (e = EINTR -> length (replies w') < length (replies w))%nat
                   | _ => False
                   end.
Lemma call_once {A} P (call : M (res A)) Q E :
  call_spec P call Q -> spec P call (fun r w => match r with Got a => Q a w | Errno _ => P w end) E.
Proof. intros Hc w Hw. specialize (Hc w Hw). destruct (call w) as [w' [[a|e]|e| |]]; naive_solver. Qed.
Lemma retry_spec {A} P (call : M (res A)) Q E fuel :
  call_spec P call Q ->
  spec (fun w => P w /\ (length (replies w) < fuel)%nat) (retry fuel call)
    (fun r w => match r with Got a => Q a w | Errno e => P w /\ e <> EINTR end) E.
Proof.
  intros Hc. induction fuel as [|fuel IH]; intros w [Hw Hl]; [lia|]. cbn [retry]. unfold mbind. specialize (Hc w Hw).
  destruct (call w) as [w' [[a|e]|e| |]]; try done. destruct Hc as [HP He].
  destruct (Z.eqb_spec e EINTR) as [->|Hne]; [|done]. apply IH. split; [done|]. specialize (He eq_refl). lia.
Qed.
Lemma call_retry {A} P (call : M (res A)) Q E :
  call_spec P call Q ->
  spec P (FMT_RETRY call) (fun r w => match r with Got a => Q a w | Errno e => P w /\ e <> EINTR end) E.
Proof. intros Hc w Hw. apply (retry_spec P call Q E (S (length (replies w))) Hc w). split; [done|lia]. Qed.

Lemma plain_spec s m : call_spec (Raw s m) plain_call (fun _ => Raw s m).
Proof.
  intros w (Hs & Hm & Hb). unfold plain_call, next_reply, mbind, mret.
  destruct (replies w) as [|[n d|e] l]; cbn [head tail default]; [done|done|]. simpl. split; [done|lia].
Qed.
Lemma call_on_spec fd s m : call_spec (Raw s m) (call_on fd) (fun _ w => Raw s m w /\ fd ∈ s).
Proof.
  intros w Hw. unfold call_on. destruct (decide _) as [Hin|_]; [|by split]. pose proof (plain_spec s m w Hw) as Hp.
  destruct Hw as (<- & _). destruct (plain_call w) as [w' [[a|e]|e| |]]; done.
Qed.
Lemma new_fd_spec s m E :
  spec (Raw s m) new_fd (fun fd w => Raw ({[fd]} ∪ s) m w /\ fd ∉ s /\ 0 <= fd) E.
Proof. intros w (<- & Hm & Hb). destruct (lowest_free (fds w)). by split_and!. Qed.
Lemma open_spec s m : call_spec (Raw s m) sys_open (fun fd w => Raw ({[fd]} ∪ s) m w /\ fd ∉ s /\ 0 <= fd).
Proof.
  intros w Hw. unfold sys_open. unfold mbind at 1. pose proof (plain_spec s m w Hw) as Hp.
  destruct (plain_call w) as [w' [[a|e]|e| |]]; try done.
  destruct Hp as (<- & Hm & Hb), (lowest_free (fds w')). by split_and!.
Qed.
Lemma dup_spec fd s m : call_spec (Raw s m) (sys_dup fd) (fun fd w => Raw ({[fd]} ∪ s) m w /\ fd ∉ s /\ 0 <= fd).
Proof.
  intros w Hw. unfold sys_dup. unfold mbind at 1. pose proof (call_on_spec fd s m w Hw) as Hp.
  destruct (call_on fd w) as [w' [[a|e]|e| |]]; try done.
  destruct Hp as [(<- & Hm & Hb) _], (lowest_free (fds w')). by split_and!.
Qed.
Lemma dup2_spec fd fd' s m :
  call_spec (Raw s m) (sys_dup2 fd fd') (fun _ w => Raw ({[fd']} ∪ s) m w /\ 0 <= fd').
Proof.
  intros w Hw. unfold sys_dup2. destruct (Z.ltb_spec fd' 0); [by split|]. unfold mbind.
  pose proof (call_on_spec fd s m w Hw) as Hp. destruct (call_on fd w) as [w' [[a|e]|e| |]]; try done.
  destruct Hp as [(<- & <- & ?) _]. by split_and!.
Qed.
Lemma fdopen_spec fd s m : call_spec (Raw s m) (sys_fdopen fd) (fun f w => Raw s m w /\ f = fd /\ fd ∈ s).
Proof.
  intros w Hw. unfold sys_fdopen, mbind. pose proof (call_on_spec fd s m w Hw) as Hp.
  destruct (call_on fd w) as [w' [[a|e]|e| |]]; naive_solver.
Qed.
Lemma fileno_spec f s m : call_spec (Raw s m) (sys_fileno f) (fun _ => Raw s m).
Proof.
  intros w Hw. unfold sys_fileno, mbind. pose proof (plain_spec s m w Hw) as Hp.
  by destruct (plain_call w) as [w' [[a|e]|e| |]].
Qed.
(** [close] releases an open descriptor, whatever it answers. *)
Lemma close_spec fd s m E : fd ∈ s -> spec (Raw s m) (sys_close fd) (fun _ => Raw (s ∖ {[fd]}) m) E.
Proof.
  intros Hin w (Hs & Hm & Hb). unfold sys_close. destruct (decide (fd ∈ fds w)) as [_|]; [|by rewrite Hs in *].
  unfold mbind, modify. assert (Hw : Raw (s ∖ {[fd]}) m (set_fds (fds w ∖ {[fd]}) w)) by (split_and!; cbn; by rewrite ?Hs).
  pose proof (plain_spec _ m _ Hw) as Hp. destruct (plain_call _) as [w' [[a|e]|e| |]]; naive_solver.
Qed.
Lemma pipe_spec s m :
  call_spec (Raw s m) sys_pipe (fun p w => Raw ({[p.2]} ∪ ({[p.1]} ∪ s)) m w
    /\ p.1 ∉ s /\ 0 <= p.1 /\ p.2 ∉ {[p.1]} ∪ s /\ 0 <= p.2).
Proof.
  intros w Hw. unfold sys_pipe, mbind. pose proof (plain_spec s m w Hw) as Hp.
  destruct (plain_call w) as [w' [[a|e]|e| |]]; try done.
  destruct Hp as (<- & Hm & Hb). destruct (lowest_free (fds w')), (lowest_free ({[lowest (fds w')]} ∪ fds w')).
  by split_and!.
Qed.

(** ** Steps of the division that belong together *)
Section Steps.
Context (ex rest s : gset Z) (m : gmap nat object).
Hypothesis Hdiv : division ex rest s m.

Lemma division_sets ex' s' : ex' = ex -> s' = s -> division ex' rest s' m.
Proof. by intros -> ->. Qed.
Lemma ex_open fd : fd ∈ ex -> fd ∈ s.
Proof. intros. apply (div_open _ _ _ _ Hdiv). auto. Qed.
Lemma held_open o fd : holder m o fd -> fd ∈ s.
Proof. intros. apply (div_open _ _ _ _ Hdiv). eauto. Qed.
Lemma take_release o x fd :
  holder m o fd -> fd_of x = None -> division ex rest (s ∖ {[fd]}) (<[o := x]> m).
Proof.
  intros Ho Hx. pose proof (div_held _ _ _ _ Hdiv o fd Ho) as [Hn _].
  replace ex with (({[fd]} ∪ ex) ∖ {[fd]}) by set_solver.
  apply division_release; [by apply division_take|set_solver].
Qed.
Lemma give_fresh o x fd :
  fd ∉ s -> 0 <= fd -> idle m o -> fd_of x = Some fd -> division ex rest ({[fd]} ∪ s) (<[o := x]> m).
Proof.
  intros Hn Hp Hi Hx. assert (fd ∉ ex) by (intros ?%ex_open; done).
  replace ex with (({[fd]} ∪ ex) ∖ {[fd]}) by set_solver.
  apply division_give; [by apply division_acquire|done|done|set_solver].
Qed.
(** What [other] holds goes to [o]. *)
Lemma move_division o other x y z :
  idle m o -> m !! other = Some y -> fd_of x = fd_of y -> fd_of z = None ->
  division ex rest s (<[other := z]> (<[o := x]> m)).
Proof.
  intros Hi Hy Hx Hz. destruct (decide (o = other)) as [->|Hne]; [rewrite insert_insert_eq; by apply division_idle|].
  rewrite insert_insert_ne by done. destruct (fd_of y) as [fd|] eqn:Hfd.
  - assert (Ho : holder m other fd) by (by exists y). pose proof (div_held _ _ _ _ Hdiv other fd Ho) as [Hn _].
    replace ex with (({[fd]} ∪ ex) ∖ {[fd]}) by set_solver.
    apply division_give; [by apply division_take| |done|set_solver].
    intros fd' [[? _]|[_ ?]]%holder_insert; [congruence|by apply (Hi fd')].
  - apply division_idle; [|intros fd' [[? _]|[_ ?]]%holder_insert; [congruence|by apply (Hi fd')]|done].
    apply division_idle; [done|by apply (idle_object m other y)|done].
Qed.
End Steps.
Lemma fd_of_nat fd : 0 <= fd -> fd_of (FileObj fd) = Some fd.
Proof. intros. unfold fd_of. destruct (Z.eqb_spec fd (-1)); [lia|done]. Qed.
Lemma file_idle m o fd : m !! o = Some (FileObj fd) -> fd = -1 -> idle m o.
Proof. intros Ho ->. by apply (idle_object m o (FileObj (-1))). Qed.
Lemma state_insert_id ex rest (m : gmap nat object) o x w : m !! o = Some x -> State ex rest m w -> State ex rest (<[o := x]> m) w.
Proof. intros. by rewrite insert_id. Qed.

(** ** The operations *)
Section Operations.
Context {D : Type} `{FloatLib D}.
Variable junk : ascii.
Variable locale_sep : bytes.
Variable strerror_r : Z -> nat -> strerror_result.
Variable errno_after : Z.
Variable can_allocate : nat -> bool.
Hypothesis allocation_limit : forall n, can_allocate n = true -> Z.of_nat n <= size_max.
Notation check := (check junk locale_sep strerror_r errno_after can_allocate).
Notation report := (report junk strerror_r errno_after can_allocate).

Lemma check_spec {A} (r : res A) format_str (args : list (Arg D)) `{!Plain args} (Q : A -> world -> Prop) (E : world -> Prop) :
  spec (fun w => match r with Got a => Q a w | Errno _ => E w end) (check r format_str args) Q E.
Proof.
  intros w Hw. destruct r as [a|e]; [done|]. unfold FmtPosix.check, throw_system_error, mraise.
  destruct (system_error_some junk locale_sep strerror_r errno_after can_allocate allocation_limit e format_str args)
    as [x ->]. done.
Qed.
Lemma report_spec r message s m E : spec (Raw s m) (report r message) (fun _ => Raw s m) E.
Proof.
  intros w Hw. destruct r as [a|e]; [done|]. unfold FmtPosix.report.
  destruct (report_total junk strerror_r errno_after can_allocate allocation_limit e message (stderr_ w)) as [f ->].
  by destruct Hw as (<- & <- & ?).
Qed.
Lemma get_object_spec {A} o (k : object -> M A) s m Q E :
  (forall x, m !! o = Some x -> spec (Raw s m) (k x) Q E) -> spec (Raw s m) (mbind (get_object o) k) Q E.
Proof.
  intros Hk w Hw. unfold mbind, get_object. destruct Hw as (Hs & Hm & Hb). rewrite Hm.
  destruct (m !! o) as [x|] eqn:Hx; [|done]. by apply (Hk x).
Qed.
Lemma mbind_assoc {A B C} (n : M A) (f : A -> M B) (g : B -> M C) w :
  mbind (mbind n f) g w = mbind n (fun a => mbind (f a) g) w.
Proof. unfold mbind. by destruct (n w) as [w' [a|e| |]]. Qed.
Lemma spec_assoc {A B C} P (n : M A) (f : A -> M B) (g : B -> M C) Q E :
  spec P (mbind n (fun a => mbind (f a) g)) Q E -> spec P (mbind (mbind n f) g) Q E.
Proof. intros Hs w Hw. rewrite mbind_assoc. by apply Hs. Qed.
Lemma get_fd_spec {A} o (k : Z -> M A) s m Q E :
  (forall fd, m !! o = Some (FileObj fd) -> spec (Raw s m) (k fd) Q E) -> spec (Raw s m) (mbind (get_fd o) k) Q E.
Proof.
  intros Hk. unfold get_fd. apply spec_assoc, get_object_spec. intros [fd|f] Hx; [by apply (Hk fd)|].
  intros w Hw. done.
Qed.
Lemma get_file_spec {A} o (k : option Z -> M A) s m Q E :
  (forall f, m !! o = Some (BufferedObj f) -> spec (Raw s m) (k f) Q E) -> spec (Raw s m) (mbind (get_file o) k) Q E.
Proof.
  intros Hk. unfold get_file. apply spec_assoc, get_object_spec. intros [fd|f] Hx; [|by apply (Hk f)].
  intros w Hw. done.
Qed.
Lemma put_spec o x s m E : spec (Raw s m) (put_object o x) (fun _ => Raw s (<[o := x]> m)) E.
Proof. intros w (Hs & Hm & Hb). subst. unfold put_object, modify. by split_and!. Qed.
Lemma construct_spec o x s m E :
  spec (Raw s m) (construct o x) (fun _ w => m !! o = None /\ Raw s (<[o := x]> m) w) E.
Proof.
  intros w Hw. unfold construct. destruct Hw as (Hs & Hm & Hb). subst.
  destruct (objects w !! o) eqn:Ho; [done|]. unfold put_object, modify. by split_and!.
Qed.
(** From a state: the division is a fact of its own. *)
Lemma spec_state {A} ex rest m (k : M A) Q E :
  (forall s, division ex rest s m -> spec (Raw s m) k Q E) -> spec (State ex rest m) k Q E.
Proof. intros Hk w (s & Hd & Hw). by apply (Hk s). Qed.
Lemma state_intro ex rest s m w : division ex rest s m -> Raw s m w -> State ex rest m w.
Proof. intros. by exists s. Qed.
Lemma state_inv rest m w : State ∅ rest m w -> Inv ∅ rest w.
Proof. intros (s & Hd & <- & <- & Hb). by split. Qed.
(** The end of an operation that calls [k] for what a call gave. *)
Lemma check_then {A B} (r : res A) format_str (args : list (Arg D)) `{!Plain args} (k : A -> M B) P Q E :
  (forall a, r = Got a -> spec P (k a) Q E) -> (forall e w, r = Errno e -> P w -> E w) ->
  spec P (mbind (check r format_str args) k) Q E.
Proof.
  intros Hk HE. apply spec_bind with (Q := fun a w => P w /\ r = Got a).
  - apply spec_pre with (P' := fun w => match r with Got a => P w /\ r = Got a | Errno _ => E w end).
    + apply (check_spec _ _ _ (fun a w => P w /\ r = Got a)).
    + intros w Hw. destruct r; eauto.
  - intros a w [Hw Hr]. by apply (Hk a Hr).
Qed.

(** *** Closing *)
Lemma close_held {A} ex rest m o x fd (k : res unit -> M A) Q E :
  holder m o fd -> fd_of x = None ->
  (forall r, spec (State ex rest (<[o := x]> m)) (k r) Q E) ->
  spec (State ex rest m) (do! result := sys_close fd in do! _ := put_object o x in k result) Q E.
Proof.
  intros Ho Hx Hk. apply spec_state. intros s Hd.
  eapply spec_bind; [apply close_spec, (held_open _ _ _ _ Hd o fd Ho)|]. intros r.
  eapply spec_bind; [apply put_spec|]. intros u. eapply spec_pre; [apply Hk|]. intros w Hw.
  eapply state_intro; [|exact Hw]. by apply take_release.
Qed.
Lemma finish_check ex rest m (r : res unit) msg :
  spec (State ex rest m) (check r msg ([] : list (Arg D))) (fun _ => State ex rest m) (State ex rest m).
Proof.
  eapply spec_pre; [apply (check_spec _ _ _ (fun _ => State ex rest m))|]. intros w Hw. by destruct r.
Qed.
Lemma file_close_spec ex rest m o :
  spec (State ex rest m) (File_close junk locale_sep strerror_r errno_after can_allocate o)
    (fun _ => State ex rest (<[o := FileObj (-1)]> m)) (State ex rest (<[o := FileObj (-1)]> m)).
Proof.
  unfold File_close. apply spec_state. intros s Hd. apply get_fd_spec. intros fd Ho.
  destruct (Z.eqb_spec fd (-1)) as [->|Hfd].
  - intros w Hw. apply state_insert_id; [done|]. by exists s.
  - eapply spec_pre; [|intros w Hw; by apply (state_intro ex rest s m)].
    apply (close_held _ _ _ o (FileObj (-1)) fd); [|done|intros r; apply finish_check].
    exists (FileObj fd). split; [done|]. unfold fd_of. by destruct (Z.eqb_spec fd (-1)).
Qed.
Lemma buffered_close_spec ex rest m o :
  spec (State ex rest m) (BufferedFile_close junk locale_sep strerror_r errno_after can_allocate o)
    (fun _ => State ex rest (<[o := BufferedObj None]> m)) (State ex rest (<[o := BufferedObj None]> m)).
Proof.
  unfold BufferedFile_close. apply spec_state. intros s Hd. apply get_file_spec. intros [fd|] Ho.
  - eapply spec_pre; [|intros w Hw; by apply (state_intro ex rest s m)].
    apply (close_held _ _ _ o (BufferedObj None) fd); [|done|intros r; apply finish_check].
    by exists (BufferedObj (Some fd)).
  - intros w Hw. apply state_insert_id; [done|]. by exists s.
Qed.
(** The destructors. *)
Lemma destroy_held ex rest m o fd msg E :
  holder m o fd ->
  spec (State ex rest m) (do! _ := (do! result := sys_close fd in report result msg) in destroy o)
    (fun _ => State ex rest (delete o m)) E.
Proof.
  intros Ho. apply spec_state. intros s Hd. eapply spec_bind.
  - eapply spec_bind; [apply close_spec, (held_open _ _ _ _ Hd o fd Ho)|]. intros r. apply report_spec.
  - intros u w (Hs & Hm & Hb). exists (s ∖ {[fd]}). split; [|by subst].
    rewrite <- (delete_insert_eq m o (FileObj (-1))). apply division_delete; [by apply take_release|].
    by apply (idle_object _ _ (FileObj (-1))); [apply lookup_insert_eq|].
Qed.
Lemma destroy_idle ex rest m o E :
  idle m o -> spec (State ex rest m) (destroy o) (fun _ => State ex rest (delete o m)) E.
Proof. intros Hi w (s & Hd & Hs & Hm & Hb). exists s. split; [by apply division_delete|by subst]. Qed.
Lemma file_destroy_spec ex rest m o E :
  spec (State ex rest m) (File_destroy junk strerror_r errno_after can_allocate o)
    (fun _ => State ex rest (delete o m)) E.
Proof.
  unfold File_destroy. apply spec_state. intros s Hd. apply get_fd_spec. intros fd Ho. unfold close_fd.
  eapply spec_pre; [|intros w Hw; by apply (state_intro ex rest s m)].
  destruct (Z.eqb_spec fd (-1)) as [->|Hfd].
  - apply (destroy_idle ex rest m o). by apply (file_idle m o (-1)).
  - apply destroy_held. exists (FileObj fd). split; [done|]. unfold fd_of. by destruct (Z.eqb_spec fd (-1)).
Qed.
Lemma buffered_destroy_spec ex rest m o E :
  spec (State ex rest m) (BufferedFile_destroy junk strerror_r errno_after can_allocate o)
    (fun _ => State ex rest (delete o m)) E.
Proof.
  unfold BufferedFile_destroy. apply spec_state. intros s Hd. apply get_file_spec. intros [fd|] Ho.
  - eapply spec_pre; [|intros w Hw; by apply (state_intro ex rest s m)].
    apply destroy_held. by exists (BufferedObj (Some fd)).
  - eapply spec_pre; [|intros w Hw; by apply (state_intro ex rest s m)].
    apply (destroy_idle ex rest m o). by apply (idle_object m o (BufferedObj None)).
Qed.

(** *** Constructors *)
Lemma spec_inv {A} rest (k : M A) Q E :
  (forall m, spec (State ∅ rest m) k Q E) -> spec (Inv ∅ rest) k Q E.
Proof. intros Hk w Hw. apply (Hk (objects w)). by apply inv_state. Qed.
Lemma raw_inv rest s m w : division ∅ rest s m -> Raw s m w -> Inv ∅ rest w.
Proof. intros Hd (<- & <- & Hb). by split. Qed.
Lemma construct_idle rest m o x E :
  fd_of x = None -> spec (State ∅ rest m) (construct o x) (fun _ => Inv ∅ rest) E.
Proof.
  intros Hx. apply spec_state. intros s Hd. eapply spec_post; [apply construct_spec| |done].
  intros u w [Ho Hw]. eapply raw_inv; [|exact Hw]. apply division_idle; [done|by apply idle_new|done].
Qed.
(** An object is made for the descriptor a call opened. *)
Definition fresh_call (call : M (res Z)) : Prop :=
  forall s m E, spec (Raw s m) call
    (fun r w => match r with Got fd => Raw ({[fd]} ∪ s) m w /\ fd ∉ s /\ 0 <= fd | Errno _ => Raw s m w end) E.
Lemma fresh_open : fresh_call (FMT_RETRY sys_open).
Proof.
  intros s m E. eapply spec_post; [apply call_retry, open_spec| |]; [|done]. intros [fd|e] w; naive_solver.
Qed.
Lemma fresh_dup fd : fresh_call (sys_dup fd).
Proof. intros s m E. apply call_once, dup_spec. Qed.
Lemma construct_fresh rest m o (mk : Z -> object) call format_str (args : list (Arg D)) `{!Plain args} :
  fresh_call call -> (forall fd, 0 <= fd -> fd_of (mk fd) = Some fd) ->
  spec (State ∅ rest m) (do! r := call in do! fd := check r format_str args in construct o (mk fd))
    (fun _ => Inv ∅ rest) (Inv ∅ rest).
Proof.
  intros Hcall Hmk. apply spec_state. intros s Hd. eapply spec_bind; [apply (Hcall s m)|].
  intros r. apply check_then; [apply _| |intros e w -> Hw; by apply (raw_inv rest s m)].
  intros fd ->. intros w (Hw & Hn & Hp). pose proof (construct_spec o (mk fd) ({[fd]} ∪ s) m (fun _ => False) w Hw) as Hc.
  destruct (construct o (mk fd) w) as [w' [u|e| |]]; try done. destruct Hc as [Ho Hw'].
  eapply raw_inv; [|exact Hw']. apply give_fresh; [done..|by apply idle_new|by apply Hmk].
Qed.

(** *** Moves *)
Lemma file_move_spec rest m o other :
  spec (State ∅ rest m) (File_move o other) (fun _ => Inv ∅ rest) (Inv ∅ rest).
Proof.
  apply spec_state. intros s Hd. apply get_fd_spec. intros fd Hoth.
  eapply spec_bind; [apply construct_spec|]. intros u w [Ho Hw].
  destruct Hw as (<- & Hm & Hb). unfold set_fd, put_object, modify. eapply raw_inv; [|split_and!; [done|cbn; by rewrite Hm|done]].
  eapply move_division; [done|by apply idle_new|exact Hoth|done|done].
Qed.
Lemma buffered_move_spec rest m o other :
  spec (State ∅ rest m) (BufferedFile_move o other) (fun _ => Inv ∅ rest) (Inv ∅ rest).
Proof.
  apply spec_state. intros s Hd. apply get_file_spec. intros f Hoth.
  eapply spec_bind; [apply construct_spec|]. intros u w [Ho Hw].
  destruct Hw as (<- & Hm & Hb). unfold set_file, put_object, modify. eapply raw_inv; [|split_and!; [done|cbn; by rewrite Hm|done]].
  eapply move_division; [done|by apply idle_new|exact Hoth|done|done].
Qed.
Lemma closed_idle m o x : fd_of x = None -> idle (<[o := x]> m) o.
Proof. intros Hx. apply (idle_object _ _ x); [apply lookup_insert_eq|done]. Qed.
Lemma file_assign_spec rest m o other :
  spec (State ∅ rest m) (File_assign junk locale_sep strerror_r errno_after can_allocate o other)
    (fun _ => Inv ∅ rest) (Inv ∅ rest).
Proof.
  unfold File_assign. eapply spec_bind; [eapply spec_post; [apply file_close_spec|done|apply state_inv]|].
  intros u. cbn beta. apply spec_state. intros s Hd. apply get_fd_spec. intros fd Hoth.
  eapply spec_bind; [apply put_spec|]. intros u' w (<- & Hm & Hb). unfold set_fd, put_object, modify.
  eapply raw_inv; [|split_and!; [done|cbn; by rewrite Hm|done]].
  eapply move_division; [done|by apply closed_idle|exact Hoth|done|done].
Qed.
Lemma buffered_assign_spec rest m o other :
  spec (State ∅ rest m) (BufferedFile_assign junk locale_sep strerror_r errno_after can_allocate o other)
    (fun _ => Inv ∅ rest) (Inv ∅ rest).
Proof.
  unfold BufferedFile_assign. eapply spec_bind; [eapply spec_post; [apply buffered_close_spec|done|apply state_inv]|].
  intros u. cbn beta. apply spec_state. intros s Hd. apply get_file_spec. intros f Hoth.
  eapply spec_bind; [apply put_spec|]. intros u' w (<- & Hm & Hb). unfold set_file, put_object, modify.
  eapply raw_inv; [|split_and!; [done|cbn; by rewrite Hm|done]].
  eapply move_division; [done|by apply closed_idle|exact Hoth|done|done].
Qed.
Lemma file_fdopen_spec rest m o file :
  spec (State ∅ rest m) (File_fdopen junk locale_sep strerror_r errno_after can_allocate o file)
    (fun _ => Inv ∅ rest) (Inv ∅ rest).
Proof.
  apply spec_state. intros s Hd. apply get_fd_spec. intros fd Ho.
  eapply spec_bind; [apply call_once, fdopen_spec|]. intros r.
  apply check_then; [apply _| |intros e w -> Hw; by apply (raw_inv rest s m)]. intros f ->.
  intros w (Hw & -> & Hin). unfold mbind. pose proof (construct_spec file (BufferedObj (Some fd)) s m (fun _ => False) w Hw) as Hc.
  destruct (construct file _ w) as [w' [u|e| |]]; try done. destruct Hc as [Hf (<- & Hm & Hb)].
  unfold set_fd, put_object, modify. eapply raw_inv; [|split_and!; [done|cbn; by rewrite Hm|done]].
  eapply move_division; [done|by apply idle_new|exact Ho| |done].
  symmetry. apply fd_of_nat. by apply (div_nat _ _ _ _ Hd).
Qed.

(** *** Pipes *)
Lemma close_fd_spec ex rest m fd E :
  fd ∉ ex -> 0 <= fd ->
  spec (State ({[fd]} ∪ ex) rest m) (close_fd junk strerror_r errno_after can_allocate fd) (fun _ => State ex rest m) E.
Proof.
  intros Hn Hp. apply spec_state. intros s Hd. unfold close_fd. destruct (Z.eqb_spec fd (-1)); [lia|].
  eapply spec_bind; [apply close_spec, (ex_open _ _ _ _ Hd); set_solver|]. intros r.
  eapply spec_post; [apply report_spec| |done]. intros u w Hw. eapply state_intro; [|exact Hw].
  replace ex with (({[fd]} ∪ ex) ∖ {[fd]}) by set_solver. apply division_release; [done|set_solver].
Qed.
Lemma set_fd_give ex rest m o fd E :
  idle m o -> fd ∉ ex -> 0 <= fd ->
  spec (State ({[fd]} ∪ ex) rest m) (set_fd o fd) (fun _ => State ex rest (<[o := FileObj fd]> m)) E.
Proof.
  intros Hi Hn Hp. apply spec_state. intros s Hd. eapply spec_post; [apply put_spec| |done].
  intros u w Hw. eapply state_intro; [|exact Hw]. replace ex with (({[fd]} ∪ ex) ∖ {[fd]}) by set_solver.
  apply division_give; [done|done|by apply fd_of_nat|set_solver].
Qed.
Notation assign_temporary := (File_assign_temporary junk locale_sep strerror_r errno_after can_allocate).
Lemma assign_temporary_spec ex rest m o fd :
  fd ∉ ex -> 0 <= fd ->
  spec (State ({[fd]} ∪ ex) rest m) (assign_temporary o fd)
    (fun _ => State ex rest (<[o := FileObj fd]> m)) (State ex rest (<[o := FileObj (-1)]> m)).
Proof.
  intros Hn Hp. unfold File_assign_temporary. eapply spec_bind.
  - eapply spec_cleanup; [apply file_close_spec|]. by apply close_fd_spec.
  - intros u. eapply spec_post; [by apply (set_fd_give ex rest (<[o := FileObj (-1)]> m)); [apply closed_idle|..]| |done].
    intros u' w. by rewrite insert_insert_eq.
Qed.
(** To an object that is closed the assignment does not throw. *)
Lemma assign_temporary_closed ex rest m o fd E :
  m !! o = Some (FileObj (-1)) -> fd ∉ ex -> 0 <= fd ->
  spec (State ({[fd]} ∪ ex) rest m) (assign_temporary o fd) (fun _ => State ex rest (<[o := FileObj fd]> m)) E.
Proof.
  intros Ho Hn Hp. unfold File_assign_temporary, mcleanup, File_close. eapply spec_bind with (Q := fun _ => State ({[fd]} ∪ ex) rest m).
  - apply spec_state. intros s Hd w Hw. unfold mbind, get_fd, get_object, mret. destruct Hw as (<- & <- & Hb).
    unfold mbind. rewrite Ho. change (-1 =? -1) with true. cbn iota. by exists (fds w).
  - intros u. apply set_fd_give; [by apply (file_idle m o (-1))|done|done].
Qed.
Lemma file_pipe_spec rest m r w :
  spec (State ∅ rest m) (File_pipe junk locale_sep strerror_r errno_after can_allocate r w)
    (fun _ => Inv ∅ rest) (Inv ∅ rest).
Proof.
  unfold File_pipe. eapply spec_bind; [eapply spec_post; [apply file_close_spec|done|apply state_inv]|]. intros u. cbn beta.
  eapply spec_bind; [eapply spec_post; [apply file_close_spec|done|apply state_inv]|]. intros u'. cbn beta.
  set (m2 := <[w := FileObj (-1)]> (<[r := FileObj (-1)]> m)).
  assert (Hr : m2 !! r = Some (FileObj (-1))).
  { unfold m2. destruct (decide (w = r)) as [->|]; [apply lookup_insert_eq|].
    rewrite lookup_insert_ne by done. apply lookup_insert_eq. }
  apply spec_state. intros s Hd. eapply spec_bind; [apply call_once, pipe_spec|]. intros res.
  apply check_then; [apply _| |intros e x -> Hx; by apply (raw_inv rest s m2)]. intros [fd0 fd1] ->. cbn [fst snd].
  intros x (Hx & Hn0 & Hp0 & Hn1 & Hp1).
  assert (Hst : State ({[fd0]} ∪ {[fd1]}) rest m2 x).
  { eapply state_intro; [|exact Hx]. replace ({[fd0]} ∪ {[fd1]}) with ({[fd1]} ∪ ({[fd0]} ∪ (∅ : gset Z))) by set_solver.
    apply division_acquire; [|done|done]. by apply division_acquire. }
  revert x Hst Hx. cut (spec (State ({[fd0]} ∪ {[fd1]}) rest m2)
    (do! _ := assign_temporary r fd0 in assign_temporary w fd1) (fun _ => Inv ∅ rest) (Inv ∅ rest));
    [intros Hc x Hst _; by apply Hc|].
  eapply spec_bind; [apply assign_temporary_closed; [done|set_solver|done]|]. intros u2. cbn beta.
  replace ({[fd1]} : gset Z) with ({[fd1]} ∪ (∅ : gset Z)) by set_solver.
  eapply spec_post; [apply assign_temporary_spec; [set_solver|done]| |]; [intros u3 x; apply state_inv|intros x; apply state_inv].
Qed.

(** *** Calls that leave the descriptors alone *)
Lemma call_on_raw fd s m E : spec (Raw s m) (call_on fd) (fun r w => Raw s m w) E.
Proof. eapply spec_post; [apply call_once, call_on_spec| |done]. intros [a|e] w; naive_solver. Qed.
Lemma retry_on_raw fd s m E : spec (Raw s m) (FMT_RETRY (call_on fd)) (fun r w => Raw s m w) E.
Proof. eapply spec_post; [apply call_retry, call_on_spec| |done]. intros [a|e] w; naive_solver. Qed.
Lemma plain_raw s m E : spec (Raw s m) plain_call (fun r w => Raw s m w) E.
Proof. eapply spec_post; [apply call_once, plain_spec| |done]. intros [a|e] w; naive_solver. Qed.
Lemma fileno_raw f s m E : spec (Raw s m) (sys_fileno f) (fun r w => Raw s m w) E.
Proof. eapply spec_post; [apply call_once, fileno_spec| |done]. intros [a|e] w; naive_solver. Qed.
Lemma check_raw {A B} rest s m (r : res A) format_str (args : list (Arg D)) `{!Plain args} (k : A -> M B) :
  division ∅ rest s m -> (forall a w, exists b, k a w = (w, Fine b)) ->
  spec (Raw s m) (do! a := check r format_str args in k a) (fun _ => Inv ∅ rest) (Inv ∅ rest).
Proof.
  intros Hd Hk. apply check_then; [apply _| |intros e w _ Hw; by apply (raw_inv rest s m)].
  intros a _ w Hw. destruct (Hk a w) as [b ->]. by apply (raw_inv rest s m).
Qed.
Lemma spec_ignore {A} P (n : M A) R : spec P n (fun _ => R) R -> spec P (ignore n) (fun _ => R) R.
Proof. intros Hn. eapply spec_bind; [exact Hn|]. by intros a w Hw. Qed.

(** [dup2] may open a descriptor that no object holds. *)
Definition Grown (new rest : gset Z) (w : world) : Prop :=
  exists rest', rest ⊆ rest' /\ rest' ⊆ new ∪ rest /\ Inv ∅ rest' w.
Lemma inv_grown new rest w : Inv ∅ rest w -> Grown new rest w.
Proof. intros. exists rest. split_and!; [done|set_solver|done]. Qed.
Lemma dup2_grown rest m fd fd' E :
  spec (State ∅ rest m) (FMT_RETRY (sys_dup2 fd fd')) (fun r => Grown {[fd']} rest) E.
Proof.
  apply spec_state. intros s Hd. eapply spec_post; [apply call_retry, dup2_spec| |done].
  intros [u|e] w; [|intros [Hw _]; by apply inv_grown, (raw_inv rest s m)]. intros [Hw Hp].
  destruct (decide (fd' ∈ s)) as [Hin|Hn].
  - apply inv_grown, (raw_inv rest s m); [done|]. replace s with ({[fd']} ∪ s) by set_solver. done.
  - exists ({[fd']} ∪ rest). split_and!; [set_solver|done|]. eapply raw_inv; [|exact Hw]. by apply division_rest.
Qed.
Lemma file_dup2_spec rest m o fd :
  spec (State ∅ rest m) (File_dup2 junk locale_sep strerror_r errno_after can_allocate o fd)
    (fun _ => Grown {[fd]} rest) (Grown {[fd]} rest).
Proof.
  apply spec_state. intros s Hd. apply get_fd_spec. intros fd_ _.
  eapply spec_pre; [|intros w Hw; by apply (state_intro ∅ rest s m)].
  eapply spec_bind; [apply dup2_grown|]. intros r. cbn beta.
  eapply spec_pre; [apply (check_spec _ _ _ (fun _ => Grown {[fd]} rest))|]. intros w Hw. by destruct r.
Qed.

(** *** Every operation *)
Notation exec := (exec junk locale_sep strerror_r errno_after can_allocate).
Definition dup2_target (x : op) : gset Z :=
  match x with OpDup2 _ fd | OpDup2Ec _ fd _ => {[fd]} | _ => ∅ end.
Lemma inv_to_grown x rest m (k : M unit) :
  spec (State ∅ rest m) k (fun _ => Inv ∅ rest) (Inv ∅ rest) ->
  spec (State ∅ rest m) k (fun _ => Grown (dup2_target x) rest) (Grown (dup2_target x) rest).
Proof. intros Hk. eapply spec_post; [exact Hk|by intros ? ?; apply inv_grown|by intros ?; apply inv_grown]. Qed.
Lemma state_to_inv rest m m' (k : M unit) :
  spec (State ∅ rest m) k (fun _ => State ∅ rest m') (State ∅ rest m') ->
  spec (State ∅ rest m) k (fun _ => Inv ∅ rest) (Inv ∅ rest).
Proof. intros Hk. eapply spec_post; [exact Hk|intros u w; apply state_inv|intros w; apply state_inv]. Qed.
(** A call on the descriptor of an object, repeated or not, whose result is checked. *)
Ltac on_descriptor raw :=
  apply spec_ignore, spec_state; intros ? ?; apply get_fd_spec; intros ? _;
  eapply spec_bind; [apply raw|]; intros r; apply check_raw; [apply _|done|]; intros [? ?] w; by eexists.
Lemma exec_spec x rest :
  spec (Inv ∅ rest) (exec x) (fun _ => Grown (dup2_target x) rest) (Grown (dup2_target x) rest).
Proof.
  apply spec_inv. intros m.
  destruct x; cbn [FmtPosix.exec];
    lazymatch goal with
    | |- context [dup2_target (OpDup2 _ _)] => idtac
    | |- context [dup2_target (OpDup2Ec _ _ _)] => idtac
    | _ => apply inv_to_grown
    end.
  - by apply construct_idle.
  - apply construct_fresh; [apply _|apply fresh_open|done].
  - eapply state_to_inv, buffered_close_spec.
  - eapply state_to_inv, buffered_destroy_spec.
  - apply buffered_move_spec.
  - apply buffered_assign_spec.
  - apply spec_ignore, spec_state. intros s Hd. apply get_file_spec. intros [f|] _; [|by intros w Hw].
    eapply spec_bind; [apply fileno_raw|]. intros r.
    eapply spec_pre; [apply (check_spec _ _ _ (fun _ => Inv ∅ rest))|]. intros w Hw.
    destruct r; by apply (raw_inv rest s m).
  - by apply construct_idle.
  - apply construct_fresh; [apply _|apply fresh_open|apply fd_of_nat].
  - eapply state_to_inv, file_close_spec.
  - eapply state_to_inv, file_destroy_spec.
  - apply file_move_spec.
  - apply file_assign_spec.
  - on_descriptor call_on_raw.
  - on_descriptor retry_on_raw.
  - on_descriptor retry_on_raw.
  - apply construct_fresh; [apply _|apply fresh_dup|apply fd_of_nat].
  - apply file_dup2_spec.
  - apply spec_ignore, spec_state. intros s Hd. apply get_fd_spec. intros fd_ _.
    eapply spec_pre; [|intros w Hw; by apply (state_intro ∅ rest s m)].
    eapply spec_bind; [apply dup2_grown|]. by intros r w Hw.
  - apply file_pipe_spec.
  - apply file_fdopen_spec.
  - apply spec_ignore, spec_state. intros s Hd. eapply spec_bind; [apply plain_raw|]. intros r.
    apply check_raw; [apply _|done|]. intros [n d] w. by exists n.
Qed.

(** ** Programs *)
Notation exec_all := (exec_all junk locale_sep strerror_r errno_after can_allocate).
Notation destroy_object := (destroy_object junk strerror_r errno_after can_allocate).
Notation destroy_all := (destroy_all junk strerror_r errno_after can_allocate).
Definition dup2_targets (l : list op) : gset Z := ⋃ (map dup2_target l).
Lemma exec_all_grown l rest w w' :
  Inv ∅ rest w -> exec_all l w = (w', true) -> Grown (dup2_targets l) rest w'.
Proof.
  revert rest w; induction l as [|x l IH]; intros rest w Hw He; cbn [exec_all] in He; [simplify_eq; by apply inv_grown|].
  pose proof (exec_spec x rest w Hw) as Hx.
  assert (Hnext : forall w1, Grown (dup2_target x) rest w1 -> exec_all l w1 = (w', true) -> Grown (dup2_targets (x :: l)) rest w').
  { intros w1 (r1 & Hr1 & Hr1' & Hi1) He1. destruct (IH _ _ Hi1 He1) as (r2 & Hr2 & Hr2' & Hi2). exists r2.
    split_and!; [by etrans| |done]. change (dup2_targets (x :: l)) with (dup2_target x ∪ dup2_targets l).
    clear - Hr1' Hr2'. generalize dependent (dup2_targets l). generalize dependent (dup2_target x).
    intros s1 H1 s2 H2. set_solver. }
  destruct (exec x w) as [w1 [u|e| |]]; try done; by apply (Hnext w1).
Qed.
(** A destructor of an object that is there returns. *)
Lemma close_returns fd w : exists w' r, sys_close fd w = (w', Fine r).
Proof.
  unfold sys_close. destruct (decide _); [|eauto]. unfold mbind, modify, plain_call, next_reply, mret. unfold mbind.
  destruct (head _) as [[]|]; cbn; eauto.
Qed.
Lemma report_returns (r : res unit) message w : exists w', report r message w = (w', Fine tt).
Proof.
  destruct r as [[]|e]; [by eexists|]. unfold FmtPosix.report.
  destruct (report_total junk strerror_r errno_after can_allocate allocation_limit e message (stderr_ w)) as [f ->]. eauto.
Qed.
Lemma destroy_returns o x w : objects w !! o = Some x -> exists w', destroy_object o x w = (w', Fine tt).
Proof.
  intros Ho. assert (Hrel : forall fd msg w, exists w', (do! result := sys_close fd in report result msg) w = (w', Fine tt)).
  { intros fd msg w0. unfold mbind. destruct (close_returns fd w0) as (w1 & r & ->). apply report_returns. }
  assert (Hend : forall n : M unit, (exists w', n w = (w', Fine tt)) ->
    exists w', (do! _ := n in destroy o) w = (w', Fine tt)).
  { intros n [w' E]. unfold mbind. rewrite E. by eexists. }
  destruct x as [fd|f]; cbn [FmtPosix.destroy_object]; unfold File_destroy, BufferedFile_destroy, get_fd, get_file.
  - rewrite mbind_assoc. unfold mbind at 1, get_object. rewrite Ho. apply Hend. unfold close_fd.
    destruct (_ =? _); [by eexists|apply Hrel].
  - rewrite mbind_assoc. unfold mbind at 1, get_object. rewrite Ho. apply Hend.
    destruct f; [apply Hrel|by eexists].
Qed.
Lemma destroy_object_state rest m o x E :
  spec (State ∅ rest m) (destroy_object o x) (fun _ => State ∅ rest (delete o m)) E.
Proof. destruct x; [apply file_destroy_spec|apply buffered_destroy_spec]. Qed.
Lemma destroy_all_state rest l w :
  NoDup l.*1 -> State ∅ rest (list_to_map l) w ->
  exists w', destroy_all l w = (w', true) /\ State ∅ rest ∅ w'.
Proof.
  revert w; induction l as [|[o x] l IH]; intros w Hnd Hw; [by exists w|]. cbn [destroy_all].
  apply NoDup_cons in Hnd as [Ho Hnd].
  pose proof (destroy_object_state rest _ o x (fun _ => False) w Hw) as Hd.
  destruct (destroy_returns o x w) as [w1 E].
  { destruct Hw as (s & _ & _ & -> & _). apply lookup_insert_eq. }
  rewrite E in *. apply IH; [done|]. cbn [list_to_map foldr] in Hd. rewrite delete_insert_id in Hd; [done|].
  by apply not_elem_of_list_to_map.
Qed.
End Operations.

(** (C37) Descriptors do not leak and are closed once.  Take any program that
    uses [File] and [BufferedFile] objects (opening, duplicating, moving and
    assigning, also an object to itself, pipes, also both ends to one object,
    and [fdopen]), whatever calls fail and whatever is thrown, that keeps to
    the lives of the objects.  Behind it each object that holds a descriptor
    holds an open one that no other object holds; and when the objects that
    are left have been destroyed, the descriptors that are open are those
    that were open before, and targets of [dup2]; [close] was never called
    for a descriptor that was not open. *)
Theorem posix_no_leak {D} `{FloatLib D} junk locale_sep strerror_r errno_after can_allocate l w0 w1 :
  (forall n, can_allocate n = true -> Z.of_nat n <= size_max) ->
  objects w0 = ∅ -> bad_closes w0 = O -> (forall fd, fd ∈ fds w0 -> 0 <= fd) ->
  exec_all (D := D) junk locale_sep strerror_r errno_after can_allocate l w0 = (w1, true) ->
  (forall o o' fd, holder (objects w1) o fd -> fd ∈ fds w1 /\ (holder (objects w1) o' fd -> o = o'))
  /\ exists w2,
     destroy_all junk strerror_r errno_after can_allocate (map_to_list (objects w1)) w1 = (w2, true)
     /\ objects w2 = ∅ /\ bad_closes w2 = O
     /\ fds w0 ⊆ fds w2 /\ fds w2 ⊆ dup2_targets l ∪ fds w0.
Proof.
  intros Hlim Ho Hb Hp He.
  assert (H0 : Inv ∅ (fds w0) w0).
  { split; [|done]. rewrite Ho. assert (Hn : forall o fd, ~ holder ∅ o fd) by (intros o fd (x & Hx & _); done).
    split; [|intros o o' fd Hh; by destruct (Hn o fd)|intros o fd Hh; by destruct (Hn o fd)|set_solver|done].
    intros fd. split; [auto|]. intros [[o Hh]|[?|?]]; [by destruct (Hn o fd)|set_solver|done]. }
  destruct (exec_all_grown junk locale_sep strerror_r errno_after can_allocate Hlim l _ w0 w1 H0 He)
    as (rest & Hr1 & Hr2 & Hinv).
  split.
  { destruct Hinv as [Hd _]. intros o o' fd Hh. split; [by apply (held_open _ _ _ _ Hd o)|].
    by apply (div_once _ _ _ _ Hd). }
  destruct (destroy_all_state junk strerror_r errno_after can_allocate Hlim rest (map_to_list (objects w1)) w1)
    as (w2 & Hd & s & Hdiv & Hs & Hm & Hb2); [apply NoDup_fst_map_to_list| |].
  { rewrite list_to_map_to_list. by apply inv_state. }
  exists w2. split_and!; [done..| |].
  - intros fd Hfd. rewrite Hs. apply (div_open _ _ _ _ Hdiv). right. right. by apply Hr1.
  - intros fd. rewrite Hs, (div_open _ _ _ _ Hdiv). intros [(o & x & Hx & _)|[?|?]]; [done|set_solver|by apply Hr2].
Qed.
(** A concrete C library: descriptors 0 to 2 are open; an interrupted [open],
    a [close] that reports an error in an assignment, a pipe to one object. *)
Definition sample_text (_ : Z) : bytes := !"It failed".
Definition sample_strerror (e : Z) (n : nat) : strerror_result := GnuResult false (sample_text e).
Definition sample_alloc (n : nat) : bool := (n <=? 2000)%nat.
Definition ok_reply : reply := Yields 0 [].
Definition sample_world (l : list reply) : world := World {[0; 1; 2]} l O (FmtPrintf.File [] 1000) ∅.
Definition sample_ops : list op :=
  [OpFileOpen 0 !"a"; OpFileOpen 1 !"b"; OpFileAssign 0 1; OpDup 2 4; OpFdopen 2 3; OpBufferedNull 4;
   OpBufferedAssign 4 3; OpFileNull 5; OpPipe 5 5; OpFileMove 6 5; OpFileAssign 6 6; OpFileDestroy 0; OpDup2 1 9].
Definition sample_replies : list reply := [Fails EINTR; ok_reply; ok_reply; Fails 5].
Definition sample_run := exec_all (D := Z) nul !"," sample_strerror 0 sample_alloc sample_ops (sample_world sample_replies).
Lemma posix_no_leak_witness :
  let w1 := sample_run.1 in
  sample_run.2 = true /\ elements (fds w1) = [9; 3; 4; 2; 1; 0]
  /\ (forall o o' fd, holder (objects w1) o fd -> fd ∈ fds w1 /\ (holder (objects w1) o' fd -> o = o'))
  /\ exists w2, destroy_all nul sample_strerror 0 sample_alloc (map_to_list (objects w1)) w1 = (w2, true)
     /\ objects w2 = ∅ /\ bad_closes w2 = O
     /\ fds (sample_world sample_replies) ⊆ fds w2 /\ fds w2 ⊆ dup2_targets sample_ops ∪ fds (sample_world sample_replies).
Proof.
  split; [vm_compute; reflexivity|]. split; [vm_compute; reflexivity|].
  apply (posix_no_leak (D := Z) nul !"," sample_strerror 0 sample_alloc sample_ops (sample_world sample_replies)).
  - intros n Hn. apply Nat.leb_le in Hn. apply (Z.le_trans _ 2000); [lia|]. vm_compute. discriminate.
  - reflexivity.
  - reflexivity.
  - intros fd Hfd. change (fd ∈ ({[0; 1; 2]} : gset Z)) in Hfd. set_solver by lia.
  - vm_compute. reflexivity.
Defined.

(** ** What the operations report *)
Section Reports.
Context {D : Type} `{FloatLibOk D}.
Variable junk : ascii.
Variable locale_sep : bytes.
Variable strerror_r : Z -> nat -> strerror_result.
Variable errno_after : Z.
Variable can_allocate : nat -> bool.
Hypothesis allocation_limit : forall n, can_allocate n = true -> Z.of_nat n <= size_max.
Variable text : Z -> bytes.
Hypothesis text_law : gnu_law strerror_r text.
Hypothesis enough_memory : forall e n, (n <= 2 * length (text e) + 1000)%nat -> can_allocate n = true.

Definition error_of (message : bytes) (e : Z) : exn := runtime_error (message ++ !": " ++ text e).
Lemma check_reports {A} e l ts st (args : list (Arg D)) w :
  Forall arg_ok args -> Forall piece_ok l -> expand locale_sep args l 0 = Some (ts, st) ->
  check junk locale_sep strerror_r errno_after can_allocate (Errno e : res A) (print l) args w
  = (w, Threw (error_of ts e)).
Proof.
  intros Ha Hl He. unfold check, throw_system_error, mraise.
  by rewrite (system_error_what junk locale_sep strerror_r errno_after can_allocate args text l ts st)
    by (done || apply enough_memory).
Qed.
(** A message without arguments, with a file name, with numbers. *)
Lemma check_text {A} e t w :
  Forall (fun c => c <> nul) t -> escape t = t ->
  check junk locale_sep strerror_r errno_after can_allocate (Errno e : res A) t ([] : list (Arg D)) w
  = (w, Threw (error_of t e)).
Proof.
  intros Ht Hesc. assert (Hp : print [Text t] = t) by (unfold print; simpl; by rewrite Hesc, app_nil_r).
  rewrite <- Hp at 1. apply (check_reports e [Text t] t 0); [done|by repeat constructor|]. simpl. by rewrite app_nil_r.
Qed.
Lemma check_name {A} e name w :
  check junk locale_sep strerror_r errno_after can_allocate (Errno e : res A) !"cannot open file {}" [CSTRING 1 name : Arg D] w
  = (w, Threw (error_of (!"cannot open file " ++ name) e)).
Proof.
  apply (check_reports e [Text !"cannot open file "; Field Auto None] (!"cannot open file " ++ name) 1);
    [by repeat constructor|repeat constructor; discriminate|].
  rewrite expand_text. rewrite (expand_plain_field locale_sep _ (CSTRING 1 name) name) by done. cbn. by rewrite app_nil_r.
Qed.

(** Calls that were interrupted, then fail. *)
Definition interrupted (n : nat) (e : Z) (l : list reply) : list reply := repeat (Fails EINTR) n ++ Fails e :: l.
Lemma plain_fails e l w : replies w = Fails e :: l -> plain_call w = (set_replies l w, Fine (Errno e)).
Proof. intros Hr. unfold plain_call, next_reply, mbind, mret. by rewrite Hr. Qed.
Definition fails_with {A} (s : gset Z) (call : M (res A)) : Prop :=
  forall e l w, fds w = s -> replies w = Fails e :: l -> call w = (set_replies l w, Fine (Errno e)).
Lemma retry_fails {A} s (call : M (res A)) e n l w fuel :
  fails_with s call -> e <> EINTR -> fds w = s ->
  replies w = interrupted n e l -> (n < fuel)%nat -> retry fuel call w = (set_replies l w, Fine (Errno e)).
Proof.
  intros Hcall He. revert w fuel; induction n as [|n IH]; intros w [|fuel] Hs Hr Hf; try lia; cbn [retry]; unfold mbind.
  - rewrite (Hcall e l w Hs Hr). destruct (Z.eqb_spec e EINTR); done.
  - rewrite (Hcall EINTR (interrupted n e l) w Hs Hr). change (EINTR =? EINTR) with true. cbn iota.
    rewrite (IH (set_replies (interrupted n e l) w) fuel); [done|done|done|lia].
Qed.
Lemma retry_call_fails {A} (call : M (res A)) e n l w :
  fails_with (fds w) call -> e <> EINTR -> replies w = interrupted n e l ->
  FMT_RETRY call w = (set_replies l w, Fine (Errno e)).
Proof.
  intros Hc He Hr. unfold FMT_RETRY. apply (retry_fails (fds w) call e n); try done.
  rewrite Hr. unfold interrupted. rewrite length_app, repeat_length. simpl. lia.
Qed.
Lemma open_fails s : fails_with s sys_open.
Proof. intros e l w _ Hr. unfold sys_open, mbind. by rewrite (plain_fails e l w). Qed.
Lemma call_on_fails s fd : fd ∈ s -> fails_with s (call_on fd).
Proof. intros Hin e l w <- Hr. unfold call_on. rewrite decide_True by done. by apply plain_fails. Qed.
Lemma get_fd_run {A} o fd (k : Z -> M A) w : objects w !! o = Some (FileObj fd) -> mbind (get_fd o) k w = k fd w.
Proof. intros Ho. unfold mbind, get_fd, get_object. unfold mbind. by rewrite Ho. Qed.

(** What a failed operation on a file says.  Opening, reading and writing
    are tried again as often as they are interrupted; the first other error
    is thrown as a [SystemError] with the operation's message, the file's name
    where there is one, and the system's text.  [close] is not tried again:
    the object is empty behind the exception.  An object that holds nothing
    reports a bad descriptor. *)
Theorem posix_reports n e l o fd path count buffer w :
  e <> EINTR -> replies w = interrupted n e l -> objects w !! o = Some (FileObj fd) -> fd ∈ fds w -> 0 <= fd ->
  let throws {A} (m : M A) (message : bytes) := m w = (set_replies l w, Threw (error_of message e)) in
  (forall o', throws (File_open (D := D) junk locale_sep strerror_r errno_after can_allocate o' path)
                (!"cannot open file " ++ path))
  /\ throws (File_read (D := D) junk locale_sep strerror_r errno_after can_allocate o count) !"cannot read from file"
  /\ throws (File_write (D := D) junk locale_sep strerror_r errno_after can_allocate o buffer) !"cannot write to file"
  /\ (forall e' l', replies w = Fails e' :: l' ->
      File_close (D := D) junk locale_sep strerror_r errno_after can_allocate o w
      = (set_objects (<[o := FileObj (-1)]> (objects w)) (set_replies l' (set_fds (fds w ∖ {[fd]}) w)),
         Threw (error_of !"cannot close file" e')))
  /\ (forall o', objects w !! o' = Some (FileObj (-1)) -> -1 ∉ fds w ->
      File_read (D := D) junk locale_sep strerror_r errno_after can_allocate o' count w
      = (w, Threw (error_of !"cannot read from file" EBADF))).
Proof.
  intros He Hr Ho Hin Hp throws. split_and!.
  - intros o'. unfold throws, File_open, mbind at 1. rewrite (retry_call_fails _ e n l w) by (done || apply open_fails).
    unfold mbind. by rewrite check_name.
  - unfold throws, File_read. rewrite (get_fd_run o fd) by done. unfold mbind at 1.
    rewrite (retry_call_fails _ e n l w) by (done || by apply call_on_fails). unfold mbind.
    by rewrite check_text by (done || by repeat constructor).
  - unfold throws, File_write. rewrite (get_fd_run o fd) by done. unfold mbind at 1.
    rewrite (retry_call_fails _ e n l w) by (done || by apply call_on_fails). unfold mbind.
    by rewrite check_text by (done || by repeat constructor).
  - intros e' l' Hr'. unfold File_close. rewrite (get_fd_run o fd) by done. destruct (Z.eqb_spec fd (-1)); [lia|].
    unfold mbind at 1, sys_close. rewrite decide_True by done. unfold mbind at 1, modify. unfold mbind at 1.
    rewrite (plain_fails e' l') by done. unfold mret at 1, mbind, set_fd, put_object, modify.
    by rewrite check_text by (done || by repeat constructor).
  - intros o' Ho' Hn. unfold File_read. rewrite (get_fd_run o' (-1)) by done. unfold mbind at 1.
    assert (Hc : FMT_RETRY (call_on (-1)) w = (w, Fine (Errno EBADF))).
    { unfold FMT_RETRY. cbn [retry]. unfold mbind, call_on. rewrite decide_False by done. done. }
    rewrite Hc. unfold mbind. by rewrite check_text by (done || by repeat constructor).
Qed.
End Reports.
Definition sample_object_world (l : list reply) : world :=
  World {[0; 1; 2; 3]} l O (FmtPrintf.File [] 1000) {[0%nat := FileObj 3]}.
Lemma posix_reports_witness :
  let w := sample_object_world [Fails EINTR; Fails EINTR; Fails 13] in
  File_open (D := Z) nul !"," sample_strerror 0 sample_alloc 7 !"a.txt" w
  = (set_replies [] w, Threw (runtime_error !"cannot open file a.txt: It failed")).
Proof.
  intros w. refine (proj1 (posix_reports nul !"," sample_strerror 0 sample_alloc _ sample_text _ _
    2 13 [] 0 3 !"a.txt" 4 !"xy" w _ _ _ _ _) 7%nat).
  - intros n Hn. apply Nat.leb_le in Hn. apply (Z.le_trans _ 2000); [lia|]. vm_compute. discriminate.
  - intros e n. by left.
  - intros e n Hn. apply Nat.leb_le. revert Hn. unfold sample_text. cbn [length lit String.list_ascii_of_string]. lia.
  - discriminate.
  - reflexivity.
  - reflexivity.
  - apply (bool_decide_unpack _). vm_compute. exact I.
  - lia.
Defined.

(** ** A corner *)

(** The comment in [File::pipe] says that the assignments do not throw because
    both objects are closed; when they are one object the second assignment
    closes the first end, which can fail. *)
Example pipe_to_one_object_throws :
  let w := World {[0; 1; 2]} [ok_reply; Fails 5] O (FmtPrintf.File [] 1000) {[0%nat := FileObj (-1)]} in
  (File_pipe (D := Z) nul !"," sample_strerror 0 sample_alloc 0 0 w).2 = Threw (runtime_error !"cannot close file: It failed").
Proof. vm_compute. reflexivity. Qed.
