(* ===== verification/FmtStream.v ===== *)
(** * fmt and the streams, [src/src/spdlog/fmt/bundled/ostream.h],
      [ostream.cc] and [time.h]

    An argument of class type is printed by its own [operator<<] into a
    [FormatBuf], a stream buffer over a [MemoryBuffer]; [FmtFormat] takes the
    text that arrives there as the argument.  The formatted text goes to an
    [std::ostream] in pieces of at most [max_size] characters.  A broken-down
    time is formatted with the C library's [strftime], a parameter. *)
From S2P Require Import Prelude Cxx Fmt FmtFacts FmtBuffer FmtDouble FmtDoubleFacts FmtFormat FmtPrintf.

(** ** FormatBuf *)
Section FormatBuf.
Context `{Grow}.

(** The put area is from [pptr] to [epptr] of the memory of the buffer, whose
    begin is [start_]. *)
Record format_buf := FormatBuf { fb_buffer : buffer; pptr : nat; epptr : nat }.
Definition new_format_buf (b : buffer) : format_buf := FormatBuf b 0 (capacity_ b).
Definition fb_size (fb : format_buf) : nat := pptr fb.
(** [overflow(ch)]; no character is [eof]. *)
Definition overflow (ch : option ascii) (fb : format_buf) : exc format_buf :=
  match ch with
  | None => Ok fb
  | Some c =>
      let buf_size := fb_size fb in
      let! b := resize buf_size (fb_buffer fb) in
      let! b := reserve (buf_size * 2) b in
      Ok (FormatBuf (poke buf_size [c] b) (buf_size + 1) (buf_size * 2))
  end.
(** What the library does with a character: [sputc]. *)
Definition sputc (c : ascii) (fb : format_buf) : exc format_buf :=
  if (pptr fb <? epptr fb)%nat
  then Ok (FormatBuf (poke (pptr fb) [c] (fb_buffer fb)) (S (pptr fb)) (epptr fb))
  else overflow (Some c) fb.
(** [output << value]: the characters of the value, one after the other. *)
Fixpoint sputn (s : bytes) (fb : format_buf) : exc format_buf :=
  match s with
  | [] => Ok fb
  | c :: s => let! fb := sputc c fb in sputn s fb
  end.
(** [BasicStringRef(&buffer[0], format_buf.size())] *)
Definition fb_text (fb : format_buf) : bytes := take (fb_size fb) (ptr_ (fb_buffer fb)).
(** [format(f, format_str, value)] up to the call of [f.format]. *)
Definition stream_text (value : bytes) (b : buffer) : exc bytes :=
  exc_map fb_text (sputn value (new_format_buf b)).
End FormatBuf.

(** ** Writing to a stream *)

(** [do { os.write(data, n); ... } while (size != 0)]; [data] has [size]
    characters left. *)
Fixpoint write_loop (fuel max_size : nat) (data : bytes) (size : nat) (os : bytes) : option bytes :=
  match fuel with
  | O => None
  | S fuel =>
      let n := if (size <=? max_size)%nat then size else max_size in
      let os := os ++ take n data in
      let size := (size - n)%nat in
      if (size =? 0)%nat then Some os else write_loop fuel max_size (drop n data) size os
  end.
Definition write_stream (max_size : nat) (w os : bytes) : option bytes :=
  write_loop (S (length w)) max_size w (length w) os.

Section Streams.
Context {D : Type} `{FloatLib D}.
Variable junk : ascii.
Variable locale_sep : bytes.
(** The largest [std::streamsize]. *)
Variable max_size : nat.
(** [None] is a loop that has not ended. *)
Definition print_stream (os format_str : bytes) (args : list (Arg D)) : option (exc bytes) :=
  match format_to_string junk locale_sep format_str args with
  | None => None
  | Some (Thrown e) => Some (Thrown e)
  | Some (Ok w) => Ok <$> write_stream max_size w os
  end.
Definition fprintf_stream (os format_str : bytes) (args : list (Arg D)) : option (exc (bytes * Z)) :=
  match sprintf junk locale_sep format_str args with
  | None => None
  | Some (Thrown e) => Some (Thrown e)
  | Some (Ok w) => (fun os => Ok (os, i32 (len w))) <$> write_stream max_size w os
  end.
End Streams.

(** ** time.h *)
Section Time.
Context {D TM : Type} `{Grow}.
(** The text [strftime] makes of a format and a time; it is written with a NUL
    behind it when it fits, and the answer is 0 when it does not. *)
Variable strftime : bytes -> TM -> bytes.
Definition call_strftime (start size : nat) (format : bytes) (tm : TM) (b : buffer) : buffer * nat :=
  let text := strftime format tm in
  if (length text <? size)%nat then (poke start (text ++ [nul]) b, length text) else (b, O).

(** [for (;;)]: [format_size] counts the NUL of the format. *)
Fixpoint strftime_loop (fuel : nat) (start : nat) (format : bytes) (tm : TM) (b : buffer) : option (exc buffer) :=
  match fuel with
  | O => None
  | S fuel =>
      let format_size := S (length format) in
      let size := (capacity_ b - start)%nat in
      let '(b, count) := call_strftime start size format tm b in
      if negb (count =? 0)%nat then Some (resize (start + count) b)
      else if (format_size * 256 <=? size)%nat then Some (Ok b)
      else
        match reserve (capacity_ b + (if (10 <? size)%nat then size else 10)) b with
        | Thrown e => Some (Thrown e)
        | Ok b => strftime_loop fuel start format tm b
        end
  end.
Definition strftime_fuel (format : bytes) : nat := S (S (length format) * 256).

(** [while ( *end && *end != '}') ++end;] *)
Fixpoint scan_time_format (s : bytes) : bytes * bytes :=
  match s with
  | c :: s' => if bool_decide (c = nul) || bool_decide (c = "}"%char) then ([], s)
               else let '(l, r) := scan_time_format s' in (c :: l, r)
  | [] => ([], [])
  end.
(** [format(f, format_str, tm)]: the rest of the format string, and the
    formatter. *)
Definition format_time (tm : TM) (s : bytes) (f : @formatter D) : option (exc (bytes * @formatter D)) :=
  let s := if at_char ":" s then next s else s in
  let '(format, rest) := scan_time_format s in
  if negb (at_char "}" rest) then Some (Thrown (FormatError !"missing '}' in format string"))
  else
    option_map (exc_map (fun b => (next rest, set_buffer b f)))
      (strftime_loop (strftime_fuel format) (size_ (buffer_ f)) format tm (buffer_ f)).
End Time.

(** ** Lemmas *)

(** *** The stream buffer collects the text *)
Section FormatBufFacts.
Context `{Grow}.

(** The characters so far are at the begin, and the put area lies in the
    memory. *)
Definition collects (t : bytes) (fb : format_buf) : Prop :=
  pptr fb = length t /\ fb_text fb = t /\ (pptr fb <= epptr fb)%nat
  /\ (epptr fb <= capacity_ (fb_buffer fb))%nat /\ (1 <= epptr fb)%nat.

Lemma poke_text p c b t :
  (p < capacity_ b)%nat -> take p (ptr_ b) = t -> length t = p ->
  take (S p) (ptr_ (poke p [c] b)) = t ++ [c] /\ capacity_ (poke p [c] b) = capacity_ b.
Proof.
  unfold capacity_, poke, copy. cbn [ptr_ list_inserts]. intros Hp Ht Hl. rewrite length_insert. split; [|done].
  rewrite (take_S_r _ _ c) by (by apply list_lookup_insert_eq). by rewrite take_insert_ge, Ht by lia.
Qed.
Lemma sputc_collects t c fb fb' : collects t fb -> sputc c fb = Ok fb' -> collects (t ++ [c]) fb'.
Proof.
  intros (Hp & Ht & Hpe & Hcap & Hpos) Hs. unfold fb_text, fb_size in Ht. unfold sputc in Hs.
  destruct (Nat.ltb_spec (pptr fb) (epptr fb)) as [Hlt|Hge].
  - injection Hs as <-. destruct (poke_text (pptr fb) c (fb_buffer fb) t ltac:(lia) Ht ltac:(lia)) as [Htext Hc].
    unfold collects, fb_text, fb_size. cbn [pptr epptr fb_buffer]. rewrite length_app. cbn [length].
    split_and!; [lia|done|lia|by rewrite Hc|lia].
  - unfold overflow, fb_size in Hs. apply exc_bind_ok in Hs as (b1 & H1 & Hs). apply exc_bind_ok in Hs as (b2 & H2 & Hs).
    injection Hs as <-. unfold resize, ensure in H1. rewrite (proj2 (Nat.ltb_ge _ _)) in H1 by lia.
    cbn [exc_bind] in H1. injection H1 as <-.
    assert (Hwf : buffer_wf (set_size (pptr fb) (fb_buffer fb))) by (unfold buffer_wf; simpl; unfold capacity_ in *; simpl; lia).
    apply reserve_spec in H2 as (Hwf2 & Hc2 & Hs2 & Hr2); [|done]. unfold content in Hc2. rewrite Hs2 in Hc2. cbn in Hc2.
    destruct (poke_text (pptr fb) c b2 t ltac:(lia)) as [Htext Hc]; [by rewrite Hc2|lia|].
    unfold collects, fb_text, fb_size. cbn [pptr epptr fb_buffer]. rewrite length_app, Nat.add_1_r. cbn [length].
    split_and!; [lia|done|lia|by rewrite Hc|lia].
Qed.
Lemma sputn_collects s t fb fb' : collects t fb -> sputn s fb = Ok fb' -> collects (t ++ s) fb'.
Proof.
  revert t fb; induction s as [|c s IH]; intros t fb Hc Hs; cbn [sputn] in Hs; [simplify_eq; by rewrite app_nil_r|].
  apply exc_bind_ok in Hs as (fb1 & H1 & Hs). apply (sputc_collects t) in H1; [|done].
  apply (IH (t ++ [c])) in Hs; [|done]. by rewrite <- app_assoc in Hs.
Qed.
End FormatBufFacts.

Lemma sputn_total junk s fb : exists fb', sputn (H := MemoryBuffer junk) s fb = Ok fb'.
Proof.
  revert fb; induction s as [|c s IH]; intros fb; cbn [sputn]; [eauto|].
  assert (exists fb1, sputc (H := MemoryBuffer junk) c fb = Ok fb1) as [fb1 ->]; [|apply IH].
  unfold sputc, overflow, resize, reserve, ensure. destruct (_ <? _)%nat; [eauto|].
  destruct (_ <? _)%nat; cbn [exc_bind grow MemoryBuffer]; destruct (_ <? _)%nat; cbn [exc_bind]; eauto.
Qed.
Lemma new_collects b : (1 <= capacity_ b)%nat -> collects [] (new_format_buf b).
Proof. intros Hc. unfold collects, fb_text, fb_size. cbn [pptr epptr fb_buffer new_format_buf length]. split_and!; done || lia. Qed.

(** Arguments of class type.  Whatever text an [operator<<] writes, of
    any length, [FormatBuf] collects exactly that text: on a memory buffer it
    always does, and over any buffer class when nothing is thrown. *)
Theorem stream_collects junk value b :
  (1 <= capacity_ b)%nat ->
  stream_text (H := MemoryBuffer junk) value b = Ok value
  /\ forall G : Grow, forall t, stream_text (H := G) value b = Ok t -> t = value.
Proof.
  intros Hc. assert (Hany : forall G : Grow, forall t, stream_text (H := G) value b = Ok t -> t = value).
  { intros G t Ht. unfold stream_text in Ht. destruct (sputn value (new_format_buf b)) as [fb|e] eqn:Hs; simplify_eq/=.
    by apply (sputn_collects value [] _ fb (new_collects b Hc)) in Hs as (_ & -> & _). }
  split; [|done]. destruct (sputn_total junk value (new_format_buf b)) as [fb Hs].
  assert (Ht : stream_text (H := MemoryBuffer junk) value b = Ok (fb_text fb)) by (unfold stream_text; by rewrite Hs).
  by rewrite Ht, <- (Hany _ _ Ht).
Qed.
Lemma stream_collects_witness :
  stream_text (H := MemoryBuffer nul) !"a long text" (new_memory_buffer nul 2) = Ok !"a long text"
  /\ forall G : Grow, forall t, stream_text (H := G) !"a long text" (new_memory_buffer nul 2) = Ok t -> t = !"a long text".
Proof. apply (stream_collects nul !"a long text" (new_memory_buffer nul 2)). vm_compute. by repeat constructor. Defined.

(** *** Writing in pieces *)
Lemma write_loop_spec fuel max_size data size os :
  (1 <= max_size)%nat -> size = length data -> (size < fuel)%nat ->
  write_loop fuel max_size data size os = Some (os ++ data).
Proof.
  intros Hm; revert data size os; induction fuel as [|fuel IH]; intros data size os Hs Hf; [lia|]. cbn [write_loop].
  set (n := if (size <=? max_size)%nat then size else max_size).
  assert (Hn : (n <= size)%nat /\ (size = 0 \/ 1 <= n)%nat) by (unfold n; destruct (Nat.leb_spec size max_size); lia).
  clearbody n. destruct (Nat.eqb_spec (size - n) 0).
  - f_equal. rewrite take_ge by lia. done.
  - rewrite IH; [by rewrite <- app_assoc, take_drop|rewrite length_drop; lia|lia].
Qed.
Lemma write_stream_spec max_size w os : (1 <= max_size)%nat -> write_stream max_size w os = Some (os ++ w).
Proof. intros. apply write_loop_spec; done || lia. Qed.
(** The text of [format] arrives on the stream, whatever the pieces; the
    result of [fprintf] is its length. *)
Lemma print_stream_spec junk locale_sep max_size {D} `{FloatLib D} os format_str (args : list (Arg D)) :
  (1 <= max_size)%nat ->
  print_stream junk locale_sep max_size os format_str args
  = option_map (exc_map (fun t => os ++ t)) (format_to_string junk locale_sep format_str args).
Proof.
  intros. unfold print_stream. destruct (format_to_string _ _ _ _) as [[t|e]|]; [|done..]. by rewrite write_stream_spec.
Qed.
Lemma fprintf_stream_spec junk locale_sep max_size {D} `{FloatLib D} os format_str (args : list (Arg D)) :
  (1 <= max_size)%nat ->
  fprintf_stream junk locale_sep max_size os format_str args
  = option_map (exc_map (fun t => (os ++ t, i32 (len t)))) (sprintf junk locale_sep format_str args).
Proof.
  intros. unfold fprintf_stream. destruct (sprintf _ _ _ _) as [[t|e]|]; [|done..]. by rewrite write_stream_spec.
Qed.

(** *** Times *)
Section TimeFacts.
Context {D TM : Type} `{Grow}.
Variable strftime : bytes -> TM -> bytes.

Lemma scan_time_format_spec format rest :
  Forall (fun c => c <> nul /\ c <> "}"%char) format -> scan_time_format (format ++ "}"%char :: rest) = (format, "}"%char :: rest).
Proof.
  intros Hf. induction Hf as [|c l [Hc1 Hc2] _ IH]; cbn [app scan_time_format]; [done|].
  rewrite !bool_decide_eq_false_2 by done. cbn [orb]. by rewrite IH.
Qed.
(** The text, or nothing when 256 times the format was not enough. *)
Definition time_done format tm (b b' : buffer) : Prop :=
  buffer_wf b' /\ (content b' = content b ++ strftime format tm
    \/ (content b' = content b /\ (S (length format) * 256 <= length (strftime format tm))%nat)).
Lemma poke_beyond b p t :
  size_ b = p -> (p + length t < capacity_ b)%nat ->
  take p (ptr_ (poke p (t ++ [nul]) b)) = content b /\ take (p + length t) (ptr_ (poke p (t ++ [nul]) b)) = content b ++ t
  /\ capacity_ (poke p (t ++ [nul]) b) = capacity_ b.
Proof.
  unfold capacity_, content, poke. cbn [ptr_ size_]. intros <- Hroom.
  assert (Hl : length (take (size_ b) (ptr_ b)) = size_ b) by (rewrite length_take; lia).
  rewrite (copy_at (take (size_ b) (ptr_ b)) (take (S (length t)) (drop (size_ b) (ptr_ b)))
    (drop (S (length t)) (drop (size_ b) (ptr_ b))));
    [|by rewrite !take_drop|done|rewrite length_app, length_take, length_drop; cbn [length]; lia].
  split_and!.
  - by rewrite take_app_length'.
  - rewrite app_assoc, app_assoc, <- app_assoc. rewrite take_app_length'; [done|]. rewrite length_app. lia.
  - rewrite !length_app, Hl, !length_drop. simpl. lia.
Qed.
Lemma strftime_loop_spec fuel start format tm b b0 :
  buffer_wf b -> size_ b = start -> content b = content b0 -> (1 <= fuel)%nat ->
  (S (length format) * 256 < capacity_ b - start + fuel)%nat ->
  exists r, strftime_loop strftime fuel start format tm b = Some r
  /\ forall b', r = Ok b' -> time_done format tm b0 b'.
Proof.
  unfold time_done. set (limit := (S (length format) * 256)%nat). set (text := strftime format tm).
  revert b; induction fuel as [|fuel IH]; intros b Hwf Hst Hc Hf1 Hf; [lia|]. cbn [strftime_loop].
  unfold call_strftime. fold text. fold limit.
  assert (Hempty : forall b1, size_ b1 = start -> content b1 = content b0 -> buffer_wf b1 -> capacity_ b1 = capacity_ b ->
    (text = [] \/ capacity_ b - start <= length text)%nat ->
    exists r, (if (limit <=? capacity_ b - start)%nat then Some (Ok b1)
       else match reserve (capacity_ b1 + (if (10 <? capacity_ b - start)%nat then capacity_ b - start else 10)) b1 with
            | Thrown e => Some (Thrown e)
            | Ok b => strftime_loop strftime fuel start format tm b
            end) = Some r
    /\ forall b', r = Ok b' -> buffer_wf b' /\ (content b' = content b0 ++ text
         \/ (content b' = content b0 /\ (limit <= length text)%nat))).
  { intros b1 Hs1 Hc1 Hwf1 Hcap1 Htext. destruct (Nat.leb_spec limit (capacity_ b - start)).
    - eexists; split; [done|]. intros b' [= <-]. split; [done|]. destruct Htext as [->|]; [left; by rewrite app_nil_r|right; split; [done|lia]].
    - destruct (reserve _ b1) as [b2|e] eqn:Hr; [|by eexists]. apply reserve_spec in Hr as (Hwf2 & Hc2 & Hs2 & Hr2); [|done].
      assert (start <= capacity_ b)%nat by (unfold buffer_wf in Hwf; lia).
      assert (capacity_ b + 10 <= capacity_ b2)%nat by (destruct (Nat.ltb_spec 10 (capacity_ b - start)); lia).
      apply IH; [done|congruence|congruence|lia|lia]. }
  destruct (Nat.ltb_spec (length text) (capacity_ b - start)) as [Hfit|Hno].
  - destruct (poke_beyond b start text Hst ltac:(lia)) as (H1 & H2 & H3).
    destruct (Nat.eqb_spec (length text) 0) as [E|E]; cbn [negb].
    + apply Hempty; [done|rewrite <- Hc, <- H1; unfold content; cbn [poke size_]; by rewrite Hst| |done|left; by apply length_zero_iff_nil].
      unfold buffer_wf in *. rewrite H3. by cbn [poke size_].
    + eexists; split; [done|]. intros b' Hr. unfold resize, ensure in Hr.
      rewrite (proj2 (Nat.ltb_ge _ _)) in Hr by (rewrite H3; lia). cbn [exc_bind] in Hr. injection Hr as <-. split.
      * unfold buffer_wf, set_size. cbn [size_]. change (capacity_ (Buffer ?p ?n)) with (length p). unfold capacity_ in *. lia.
      * left. unfold content at 1, set_size. cbn [size_ ptr_]. rewrite <- Hc. exact H2.
  - change (negb (0 =? 0)%nat) with false. cbn iota. apply Hempty; [done..|by right].
Qed.
End TimeFacts.

(** Times.  A field with a time ends whatever [strftime] answers (also
    when it always answers nothing): the text is appended, and when nothing
    is appended the text is empty or 256 times longer than its format.  Behind
    the field the format string goes on behind the closing brace. *)
Theorem time_formats {D TM} (G : Grow) (strftime : bytes -> TM -> bytes) tm format rest (f : @formatter D) :
  Forall (fun c => c <> nul /\ c <> "}"%char) format -> buffer_wf (buffer_ f) ->
  exists r, format_time (D := D) strftime tm (":"%char :: format ++ "}"%char :: rest) f = Some r
  /\ forall s' f', r = Ok (s', f') ->
     s' = rest /\ buffer_wf (buffer_ f')
     /\ (content (buffer_ f') = content (buffer_ f) ++ strftime format tm
         \/ (content (buffer_ f') = content (buffer_ f)
             /\ (S (length format) * 256 <= length (strftime format tm))%nat)).
Proof.
  intros Hf Hwf. unfold format_time. change (at_char ":" (":"%char :: _)) with true. cbn iota. cbn [next tail].
  rewrite scan_time_format_spec by done. change (at_char "}" ("}"%char :: rest)) with true. cbn [negb].
  destruct (strftime_loop_spec strftime (strftime_fuel format) (size_ (buffer_ f)) format tm (buffer_ f) (buffer_ f))
    as ([b|e] & -> & Hd); [done..|unfold strftime_fuel; lia|unfold strftime_fuel; lia| |].
  - eexists; split; [done|]. intros s' f' [= <- <-]. split; [done|]. by apply Hd.
  - by eexists.
Qed.
(** A [strftime] that prints a number for each character of the format. *)
Definition sample_strftime (format : bytes) (n : Z) : bytes := concat (map (fun _ => dec n) format).
Lemma time_formats_witness :
  (exists r, format_time (D := Z) (H := MemoryBuffer nul) sample_strftime 2017 (":"%char :: !"%Y" ++ "}"%char :: !" rest")
      (new_formatter (new_memory_buffer nul 1)) = Some r
   /\ forall s' f', r = Ok (s', f') ->
     s' = !" rest" /\ buffer_wf (buffer_ f')
     /\ (content (buffer_ f') = [] ++ sample_strftime !"%Y" 2017
         \/ (content (buffer_ f') = [] /\ (S 2 * 256 <= length (sample_strftime !"%Y" 2017))%nat)))
  /\ sample_strftime !"%Y" 2017 = !"20172017".
Proof.
  split; [|vm_compute; reflexivity].
  apply (time_formats (D := Z) (MemoryBuffer nul) sample_strftime 2017 !"%Y" !" rest" (new_formatter (new_memory_buffer nul 1))).
  - repeat constructor; discriminate.
  - vm_compute. apply le_0_n.
Defined.
