(* ===== verification/FmtValues.v ===== *)
(** * Values of the bundled fmt library: FormatInt, string references,
      [MakeValue] and the stream operators of the writer,
      [src/src/spdlog/fmt/bundled/format.h]

    The parts a program meets before any format string is parsed.  [FormatInt]
    writes a number backwards into an array of its own; the free function
    [format_decimal] writes one forwards through a pointer; a string reference
    compares like [memcmp] and then by size; [MakeValue] stores a C++ value in
    one member of a union and tells its type apart, and the visitor reads the
    member that the type names; [operator<<] of the writer appends.  The width
    of [long] is a parameter, 32 or 64. *)
From S2P Require Import Prelude Cxx Fmt FmtFacts FmtBuffer FmtDouble FmtFormat FmtTemplate FmtTemplateFacts FmtPrintf.

Open Scope Z_scope.

(** The values of a C++ integer type. *)
Definition in_type (t : int_type) (z : Z) : Prop :=
  if is_signed t then - 2 ^ (bits t - 1) <= z < 2 ^ (bits t - 1) else 0 <= z < 2 ^ bits t.
Definition machine_type (t : int_type) : Prop := bits t = 8 \/ bits t = 16 \/ bits t = 32 \/ bits t = 64.
Definition pair_char (i : Z) : ascii := nth (Z.to_nat i) DIGITS nul.

(** ** FormatInt *)
Module FormatInt.
Definition BUFFER_SIZE : nat := 22.   (* [digits10] of [ULongLong], 19, and 3 *)
(** [buffer_] and [str_], a pointer into it. *)
Record t := Make { array : bytes; str_ : nat }.

(** The loop of [format_decimal]: the pointer goes to the left. *)
Fixpoint decimal_loop (fuel : nat) (value : Z) (st : bytes * nat) : bytes * nat :=
  match fuel with
  | O => st
  | S fuel =>
      if 100 <=? value then
        let index := value mod 100 * 2 in
        let st := put_back (pair_char (index + 1)) st in
        decimal_loop fuel (value / 100) (put_back (pair_char index) st)
      else if value <? 10 then put_back (digit_char value) st
      else
        let index := value * 2 in
        put_back (pair_char index) (put_back (pair_char (index + 1)) st)
  end.
Definition format_decimal (value : Z) (a : bytes) : bytes * nat :=
  decimal_loop (dec_fuel value) value (a, (BUFFER_SIZE - 1)%nat).
Definition FormatSigned (value : Z) (a : bytes) : bytes * nat :=
  let abs_value := u64 value in
  let negative := value <? 0 in
  let abs_value := if negative then u64 (0 - abs_value) else abs_value in
  let st := format_decimal abs_value a in
  if negative then put_back "-"%char st else st.
(** The constructors, for [int], [long], [long long] and their unsigned
    types; [a] is what the array held. *)
Definition new (ty : int_type) (value : Z) (a : bytes) : t :=
  let st := if is_signed ty then FormatSigned value a else format_decimal value a in Make st.1 st.2.

Definition size (f : t) : nat := (BUFFER_SIZE - 1 - str_ f)%nat.
Definition data (f : t) : bytes := drop (str_ f) (array f).
Definition c_str (f : t) : t * bytes :=
  let f := Make (<[(BUFFER_SIZE - 1)%nat := nul]> (array f)) (str_ f) in (f, data f).
Definition str (f : t) : bytes := take (size f) (data f).
End FormatInt.

(** ** [format_decimal(char *&buffer, T value)] *)

(** [*buffer++ = c] *)
Definition put_next (c : ascii) (st : bytes * nat) : bytes * nat := (<[st.2 := c]> st.1, S st.2).
Definition format_decimal_at (t : int_type) (value : Z) (st : bytes * nat) : bytes * nat :=
  let w := main_width t in
  let abs_value := wrap_u w value in
  let '(abs_value, st) :=
    if value <? 0 then (wrap_u w (0 - abs_value), put_next "-"%char st) else (abs_value, st) in
  if abs_value <? 100 then
    if abs_value <? 10 then put_next (digit_char abs_value) st
    else
      let index := abs_value * 2 in
      put_next (pair_char (index + 1)) (put_next (pair_char index) st)
  else
    let num_digits := count_digits w abs_value in
    (format_decimal None st.2 abs_value num_digits st.1, (st.2 + num_digits)%nat).

(** ** String references *)
Module StringRef.
(** [std::char_traits<char>::compare(a, b, n)] *)
Fixpoint traits_compare (n : nat) (a b : bytes) : Z :=
  match n, a, b with
  | S n, x :: a, y :: b =>
      if char_code x =? char_code y then traits_compare n a b else char_code x - char_code y
  | _, _, _ => 0
  end.
Definition compare (lhs other : bytes) : Z :=
  let size := if (length lhs <? length other)%nat then length lhs else length other in
  let result := traits_compare size lhs other in
  if result =? 0
  then if (length lhs =? length other)%nat then 0
       else if (length lhs <? length other)%nat then -1 else 1
  else result.
Definition eq (lhs rhs : bytes) : bool := compare lhs rhs =? 0.
Definition ne (lhs rhs : bytes) : bool := negb (compare lhs rhs =? 0).
Definition lt (lhs rhs : bytes) : bool := compare lhs rhs <? 0.
Definition le (lhs rhs : bytes) : bool := compare lhs rhs <=? 0.
Definition gt (lhs rhs : bytes) : bool := 0 <? compare lhs rhs.
Definition ge (lhs rhs : bytes) : bool := 0 <=? compare lhs rhs.

(** The lexicographic order of byte strings. *)
Inductive lex_lt : bytes -> bytes -> Prop :=
| lex_end y b : lex_lt [] (y :: b)
| lex_here x y a b : char_code x < char_code y -> lex_lt (x :: a) (y :: b)
| lex_there x a b : lex_lt a b -> lex_lt (x :: a) (x :: b).
End StringRef.

(** ** Facts *)
Lemma char_code_injective x y : char_code x = char_code y -> x = y.
Proof.
  unfold char_code. intros Hc. rewrite <- (ascii_N_embedding x), <- (ascii_N_embedding y). f_equal. lia.
Qed.

Lemma decimal_loop_text fuel v b p i :
  (FormatInt.decimal_loop fuel v (b, p)).1 = format_decimal_loop fuel None v (b, p, i).
Proof.
  revert v b p i; induction fuel as [|fuel IH]; intros v b p i; [done|].
  cbn [FormatInt.decimal_loop format_decimal_loop]. case_match.
  - unfold thousands, put_digit. cbn [fst snd]. apply IH.
  - by case_match.
Qed.
Lemma decimal_loop_pointer fuel v b p :
  0 <= v -> (Z.to_nat (Z.log2 v) < fuel)%nat ->
  (FormatInt.decimal_loop fuel v (b, p)).2 = (p - length (dec_nat v))%nat.
Proof.
  revert v b p; induction fuel as [|fuel IH]; intros v b p Hv Hf; [lia|].
  cbn [FormatInt.decimal_loop]. destruct (100 <=? v) eqn:H1; bool_to_prop.
  - unfold put_back. cbn [fst snd]. pose proof (log2_div100 v H1). pose proof (Z.log2_nonneg (v / 100)).
    rewrite IH by (try apply Z.div_pos; lia).
    rewrite (dec_nat_div v 2) by done. change (10 ^ Z.of_nat 2) with 100. lia.
  - destruct (v <? 10) eqn:H2; bool_to_prop; unfold put_back; cbn [fst snd].
    + rewrite dec_nat_small by done. simpl. lia.
    + rewrite (dec_nat_length v 1) by (simpl; lia). lia.
Qed.
Lemma format_decimal_back v l1 hole l3 :
  0 <= v < 2 ^ 64 -> length hole = length (dec_nat v) -> (length l1 + length hole = FormatInt.BUFFER_SIZE - 1)%nat ->
  FormatInt.format_decimal v (l1 ++ hole ++ l3) = (l1 ++ dec_nat v ++ l3, length l1).
Proof.
  intros Hv Hh Hp. unfold FormatInt.format_decimal.
  pose proof (dec_nat_len_bound 64 v ltac:(by right) Hv) as Hb.
  pose proof (format_decimal_spec None v l1 hole l3 0 (FormatInt.BUFFER_SIZE - 1)) as Hf.
  rewrite grouped_none, rev_involutive in Hf. specialize (Hf ltac:(lia) Hb Hh ltac:(lia)).
  rewrite (surjective_pairing (FormatInt.decimal_loop _ _ _)). f_equal.
  - by rewrite (decimal_loop_text _ _ _ _ 0).
  - rewrite decimal_loop_pointer by (unfold dec_fuel; lia). lia.
Qed.
(** The digits fit, with a place for the sign and one for the NUL. *)
Lemma dec_nat_at_most k n : 0 <= n < 10 ^ Z.of_nat (S k) -> (1 <= length (dec_nat n) <= S k)%nat.
Proof.
  revert n; induction k as [|k IH]; intros n Hn.
  - rewrite dec_nat_small by (simpl in Hn; lia). simpl. lia.
  - destruct (Z.lt_ge_cases n 10); [rewrite dec_nat_small by done; simpl; lia|].
    rewrite dec_nat_step, length_app by done. cbn [length].
    rewrite (Nat2Z.inj_succ (S k)), Z.pow_succ_r in Hn by lia.
    specialize (IH (n / 10)). pose proof (Z.div_pos n 10). pose proof (Z.div_lt_upper_bound n 10 (10 ^ Z.of_nat (S k))). lia.
Qed.
Lemma dec_nat_64 v : 0 <= v < 2 ^ 64 -> (1 <= length (dec_nat v) <= 20)%nat.
Proof. intros Hv. apply (dec_nat_at_most 19). change (10 ^ Z.of_nat 20) with 100000000000000000000. lia. Qed.

(** A signed value of any machine type, in two's complement. *)
Lemma abs_wrap w value :
  0 < w -> - 2 ^ (w - 1) <= value < 2 ^ w ->
  (if value <? 0 then wrap_u w (0 - wrap_u w value) else wrap_u w value) = Z.abs value
  /\ 0 <= Z.abs value < 2 ^ w.
Proof.
  intros Hw Hv. destruct (abs_value_ok w value Hw Hv) as [Ha Hr]. unfold abs_value in Ha. done.
Qed.
Lemma in_type_range t z : machine_type t -> in_type t z -> - 2 ^ (bits t - 1) <= z < 2 ^ bits t.
Proof.
  unfold machine_type, in_type. intros [Ht|[Ht|[Ht|Ht]]]; rewrite Ht; destruct (is_signed t); simpl; lia.
Qed.
Lemma in_type_main t z : machine_type t -> in_type t z -> - 2 ^ (main_width t - 1) <= z < 2 ^ main_width t.
Proof.
  unfold machine_type, in_type, main_width.
  intros [Ht|[Ht|[Ht|Ht]]]; rewrite Ht; destruct (is_signed t); simpl; lia.
Qed.
Lemma main_width_cases t : main_width t = 32 \/ main_width t = 64.
Proof. unfold main_width. case_match; auto. Qed.
Lemma in_type_64 t z : machine_type t -> in_type t z -> - 2 ^ 63 <= z < 2 ^ 64.
Proof.
  unfold machine_type, in_type. intros [Ht|[Ht|[Ht|Ht]]]; rewrite Ht; destruct (is_signed t); simpl; lia.
Qed.

(** The decimal text, cut into the sign and the digits. *)
Lemma dec_split z : dec z = (if z <? 0 then ["-"%char] else []) ++ dec_nat (Z.abs z).
Proof.
  unfold dec. destruct (z <? 0) eqn:?; bool_to_prop; simpl; do 2 f_equal; lia.
Qed.

(** [FormatInt] of a value: what lies in the array and where [str_] points. *)
Lemma format_int_array ty value a :
  machine_type ty -> in_type ty value -> length a = FormatInt.BUFFER_SIZE ->
  exists l c, FormatInt.new ty value a = FormatInt.Make (l ++ dec value ++ [c]) (length l)
    /\ (length l + length (dec value) = FormatInt.BUFFER_SIZE - 1)%nat /\ (0 < length l)%nat.
Proof.
  intros Ht Hv Ha. pose proof (in_type_64 ty value Ht Hv) as Hr.
  destruct (abs_wrap 64 value ltac:(done) ltac:(lia)) as [Habs Hrange].
  pose proof (dec_nat_64 (Z.abs value) Hrange) as Hl.
  set (k := (FormatInt.BUFFER_SIZE - 1 - length (dec_nat (Z.abs value)))%nat).
  assert (Hk : (0 < k)%nat) by (unfold k, FormatInt.BUFFER_SIZE; lia).
  destruct (split_length a k (length (dec_nat (Z.abs value)) + 1)) as (l1 & r & -> & Hl1 & Hr1);
    [unfold k, FormatInt.BUFFER_SIZE in *; lia|].
  destruct (split_length r _ _ Hr1) as (hole & [|c [|]] & -> & Hh & ?); [done| |done].
  pose proof (format_decimal_back (Z.abs value) l1 hole [c] Hrange Hh) as Hd.
  rewrite (dec_split value). unfold FormatInt.new, FormatInt.FormatSigned, u64.
  destruct (value <? 0) eqn:Hneg; bool_to_prop.
  - destruct (is_signed ty) eqn:Hs; [|unfold in_type in Hv; rewrite Hs in Hv; lia].
    rewrite Habs, Hd by (rewrite Hl1, Hh; unfold k, FormatInt.BUFFER_SIZE; lia).
    destruct (split_length l1 (k - 1) 1) as (l2 & [|x [|]] & -> & Hl2 & ?); [lia|done| |done].
    exists l2, c. unfold put_back. cbn [fst snd]. replace (pred _) with (length l2) by (rewrite length_app; simpl; lia).
    rewrite <- !app_assoc. cbn [app]. rewrite insert_mid. split; [done|].
    pose proof (dec_nat_at_most 18 (Z.abs value)) as H19. change (10 ^ Z.of_nat 19) with 10000000000000000000 in H19.
    cbn [app length]. unfold k, FormatInt.BUFFER_SIZE in *. lia.
  - exists l1, c. rewrite Habs. replace (FormatInt.format_decimal value) with (FormatInt.format_decimal (Z.abs value)) by (f_equal; lia).
    rewrite Hd by (rewrite Hl1, Hh; unfold k, FormatInt.BUFFER_SIZE; lia).
    destruct (is_signed ty); (split; [done|]); cbn [app]; unfold k, FormatInt.BUFFER_SIZE in *; lia.
Qed.
(** (C39) [FormatInt].  For every integer type of the machine and every value
    of it, the smallest ones included, and whatever the array held before,
    the object's text is the decimal numeral with its sign; its size is the
    length of that text; the pointer stays inside the array, with a place left
    before it; and [c_str] is the text and the terminating NUL. *)
Theorem format_int_text ty value a :
  machine_type ty -> in_type ty value -> length a = FormatInt.BUFFER_SIZE ->
  let f := FormatInt.new ty value a in
  FormatInt.str f = dec value /\ FormatInt.size f = length (dec value)
  /\ (0 < FormatInt.str_ f < FormatInt.BUFFER_SIZE - 1)%nat
  /\ length (FormatInt.array f) = FormatInt.BUFFER_SIZE
  /\ (FormatInt.c_str f).2 = dec value ++ [nul].
Proof.
  intros Ht Hv Ha. destruct (format_int_array ty value a Ht Hv Ha) as (l & c & -> & Hlen & Hpos).
  assert (Hd : (0 < length (dec value))%nat) by (pose proof (dec_nonempty value); destruct (dec value); [done|simpl; lia]).
  unfold FormatInt.str, FormatInt.size, FormatInt.data, FormatInt.c_str. cbn [FormatInt.array FormatInt.str_ fst snd].
  rewrite drop_app_length. rewrite take_app_length' by lia.
  split_and!; [done|lia|lia|lia|rewrite !length_app; simpl; unfold FormatInt.BUFFER_SIZE in *; lia|].
  unfold FormatInt.data. cbn [FormatInt.array FormatInt.str_]. rewrite <- Hlen, app_assoc, <- length_app, insert_mid.
  by rewrite <- app_assoc, drop_app_length.
Qed.
Lemma format_int_text_witness :
  FormatInt.str (FormatInt.new c_llong llong_min (repeat space 22)) = !"-9223372036854775808"
  /\ (FormatInt.c_str (FormatInt.new c_ullong size_max (repeat space 22))).2 = !"18446744073709551615" ++ [nul].
Proof.
  split.
  - apply (format_int_text c_llong llong_min (repeat space 22));
      [unfold machine_type; simpl; lia|vm_compute; split; [discriminate|reflexivity]|reflexivity].
  - apply (format_int_text c_ullong size_max (repeat space 22));
      [unfold machine_type; simpl; lia|vm_compute; split; [discriminate|reflexivity]|reflexivity].
Defined.

(** *** Writing forwards *)
Lemma put_next_mid c l1 x l3 : put_next c (l1 ++ x :: l3, length l1) = ((l1 ++ [c]) ++ l3, length (l1 ++ [c])).
Proof.
  unfold put_next. cbn [fst snd]. rewrite insert_mid, <- app_assoc, length_app. simpl. f_equal. lia.
Qed.
Lemma decimal_forward w n l1 hole l3 :
  w = 32 \/ w = 64 -> 0 <= n < 2 ^ w -> length hole = length (dec_nat n) ->
  (let st := (l1 ++ hole ++ l3, length l1) in
   if n <? 100 then
     if n <? 10 then put_next (digit_char n) st
     else put_next (pair_char (n * 2 + 1)) (put_next (pair_char (n * 2)) st)
   else (format_decimal None st.2 n (count_digits w n) st.1, (st.2 + count_digits w n)%nat))
  = (l1 ++ dec_nat n ++ l3, (length l1 + length (dec_nat n))%nat).
Proof.
  intros Hw Hn Hh. cbv zeta. destruct (n <? 100) eqn:H1; [destruct (n <? 10) eqn:H2|]; bool_to_prop.
  - rewrite dec_nat_small in * by done. destruct hole as [|x [|]]; try done. cbn [app].
    rewrite put_next_mid, <- app_assoc, length_app. done.
  - assert (Htwo : dec_nat n = [digit_char (n / 10); digit_char (n mod 10)]).
    { by rewrite dec_nat_step, dec_nat_small by (try apply Z.div_lt_upper_bound; lia). }
    rewrite Htwo in *.
    destruct hole as [|x [|y [|]]]; try done. cbn [app].
    destruct (DIGITS_pair n ltac:(lia)) as [E1 E2]. unfold pair_char. rewrite E1, E2.
    rewrite put_next_mid, put_next_mid, <- !app_assoc, !length_app. done.
  - rewrite count_digits_length by done. cbn [fst snd]. f_equal.
    pose proof (dec_nat_len_bound w n Hw Hn).
    rewrite format_decimal_spec; [by rewrite grouped_none, rev_involutive|lia|done| |lia].
    by rewrite grouped_none, rev_involutive.
Qed.
(** The free function writes the numeral at the pointer, moves the pointer
    behind it and touches nothing else. *)
Lemma format_decimal_at_spec t value l1 hole l3 :
  machine_type t -> in_type t value -> length hole = length (dec value) ->
  format_decimal_at t value (l1 ++ hole ++ l3, length l1)
  = (l1 ++ dec value ++ l3, (length l1 + length (dec value))%nat).
Proof.
  intros Ht Hv Hh. pose proof (main_width_cases t) as Hw.
  destruct (abs_wrap (main_width t) value ltac:(lia) (in_type_main t value Ht Hv)) as [Ha Hr].
  rewrite dec_split in *. unfold format_decimal_at. destruct (value <? 0) eqn:Hneg; bool_to_prop; rewrite Ha.
  - cbn [app] in *. destruct hole as [|x hole]; [done|]. cbn [app]. rewrite put_next_mid.
    rewrite (decimal_forward (main_width t)) by (auto || (simpl in Hh; lia)).
    rewrite <- app_assoc, length_app. simpl. f_equal. lia.
  - by rewrite (decimal_forward (main_width t)) by auto.
Qed.

(** *** The order of string references *)
Lemma lex_lt_irrefl a : ~ StringRef.lex_lt a a.
Proof. induction a as [|x a IH]; inversion 1; subst; [lia|done]. Qed.
Lemma lex_lt_trans a b c : StringRef.lex_lt a b -> StringRef.lex_lt b c -> StringRef.lex_lt a c.
Proof.
  intros Hab. revert c; induction Hab; intros c Hbc; inversion Hbc; subst; constructor; auto; lia.
Qed.
Lemma compare_cons x y a b :
  StringRef.compare (x :: a) (y :: b) =
  if char_code x =? char_code y then StringRef.compare a b else char_code x - char_code y.
Proof.
  unfold StringRef.compare. cbn [length].
  change (S (length a) <? S (length b))%nat with (length a <? length b)%nat.
  change (S (length a) =? S (length b))%nat with (length a =? length b)%nat.
  destruct (length a <? length b)%nat; cbn [StringRef.traits_compare];
    destruct (char_code x =? char_code y) eqn:E; bool_to_prop; try done;
    (replace (char_code x - char_code y =? 0) with false by (symmetry; apply Z.eqb_neq; lia)); done.
Qed.
Lemma compare_spec a b :
  match StringRef.compare a b ?= 0 with
  | Eq => a = b | Lt => StringRef.lex_lt a b | Gt => StringRef.lex_lt b a
  end.
Proof.
  revert b; induction a as [|x a IH]; intros [|y b]; [done|apply StringRef.lex_end..|].
  rewrite compare_cons. destruct (char_code x =? char_code y) eqn:E; bool_to_prop.
  - apply char_code_injective in E as ->. specialize (IH b).
    destruct (StringRef.compare a b ?= 0); [by subst|by constructor..].
  - destruct (char_code x - char_code y ?= 0) eqn:C; [apply Z.compare_eq_iff in C; lia| |];
      constructor; [rewrite Z.compare_lt_iff in C|rewrite Z.compare_gt_iff in C]; lia.
Qed.
(** String references.  The operators decide equality and the
    lexicographic order of the bytes, which is a strict total order: exactly
    one of [<], [==] and [>] holds, and the other operators are their
    complements. *)
Theorem string_ref_order a b :
  (StringRef.eq a b = true <-> a = b) /\ (StringRef.lt a b = true <-> StringRef.lex_lt a b)
  /\ (StringRef.gt a b = true <-> StringRef.lex_lt b a)
  /\ StringRef.ne a b = negb (StringRef.eq a b)
  /\ StringRef.le a b = negb (StringRef.gt a b) /\ StringRef.ge a b = negb (StringRef.lt a b)
  /\ (a = b /\ ~ StringRef.lex_lt a b /\ ~ StringRef.lex_lt b a
      \/ a <> b /\ StringRef.lex_lt a b /\ ~ StringRef.lex_lt b a
      \/ a <> b /\ ~ StringRef.lex_lt a b /\ StringRef.lex_lt b a)
  /\ (forall c, StringRef.lex_lt a b -> StringRef.lex_lt b c -> StringRef.lex_lt a c).
Proof.
  unfold StringRef.eq, StringRef.ne, StringRef.lt, StringRef.le, StringRef.gt, StringRef.ge.
  pose proof (compare_spec a b) as Hc. pose proof (lex_lt_irrefl a) as Ha.
  assert (Hasym : StringRef.lex_lt a b -> ~ StringRef.lex_lt b a).
  { intros H1 H2. apply Ha. by eapply lex_lt_trans. }
  assert (Hne : StringRef.lex_lt a b \/ StringRef.lex_lt b a -> a <> b) by (intros [?|?] ->; done).
  destruct (Z.compare_spec (StringRef.compare a b) 0) as [E|E|E].
  - subst b. rewrite E. split_and!; first [by intros ?; apply lex_lt_trans|naive_solver].
  - rewrite (proj2 (Z.eqb_neq _ 0)), (proj2 (Z.ltb_lt _ 0)), (proj2 (Z.leb_le _ 0)), (proj2 (Z.ltb_ge 0 _)),
      (proj2 (Z.leb_gt 0 _)) by lia.
    split_and!; first [by intros ?; apply lex_lt_trans|naive_solver].
  - rewrite (proj2 (Z.eqb_neq _ 0)), (proj2 (Z.ltb_ge _ 0)), (proj2 (Z.leb_gt _ 0)), (proj2 (Z.ltb_lt 0 _)),
      (proj2 (Z.leb_le 0 _)) by lia.
    split_and!; first [by intros ?; apply lex_lt_trans|naive_solver].
Qed.
