(* ===== verification/FmtMakeValue.v ===== *)
(** * [MakeValue]: a C++ value becomes a formatting argument,
      [src/src/spdlog/fmt/bundled/format.h]

    [MakeValue] has one constructor and one static [type] for each type that
    can be formatted: the constructor stores the value in one member of the
    union [Value], [type] tells which [Type] the argument has.  The value and
    the type travel apart (the types packed in a word, see [FmtFormat]), and
    [ArgVisitor::visit] reads the member that goes with the type.  Here are
    both sides, and that they agree: no argument is read through another
    member than the one that was stored, and the number that is read is the
    number that was passed.  The width of [long] is a parameter; [sstring] and
    [ustring] have the layout of [string]. *)
From S2P Require Import Prelude Cxx Fmt FmtFacts FmtBuffer FmtDouble FmtFormat FmtTemplate FmtPrintf FmtValues.

Open Scope Z_scope.

(** The widths of [long] on the platforms the library is built for. *)
Class DataModel (long_bits : Z) := long_cases : long_bits = 32 \/ long_bits = 64.
#[export] Instance LP64 : DataModel 64. Proof. by right. Defined.
#[export] Instance ILP32 : DataModel 32. Proof. by left. Defined.

(** ** C++ values *)

(** What the constructors of [MakeValue] take.  A pointer to characters is its
    address and the characters up to the NUL; an object of class type holds
    what its [operator<<] prints, and [ConvertToInt] tells the types that
    convert to an integer (the enumerations) from the others. *)
Inductive cxx_value (D : Type) :=
| Bool (b : bool)
| Integer (t : int_type) (z : Z)       (* [short] to [unsigned], [signed char], [unsigned char] *)
| Long (z : Z)
| UnsignedLong (z : Z)
| LongLong (z : Z)
| ULongLong (z : Z)
| Float (d : D)
| Double (d : D)
| LongDouble (d : D)
| Char (z : Z)
| CharPointer (p : Z) (s : bytes)
| SignedCharPointer (p : Z) (s : bytes)
| UnsignedCharPointer (p : Z) (s : bytes)
| StdString (p : Z) (s : bytes)
| StringReference (p : Z) (s : bytes)
| CStringReference (p : Z) (s : bytes)
| VoidPointer (p : Z)
| Enumeration (z : Z)
| Object (text : bytes)
| Named (name : bytes) (v : cxx_value D).
Arguments Bool {D}. Arguments Integer {D}. Arguments Long {D}. Arguments UnsignedLong {D}.
Arguments LongLong {D}. Arguments ULongLong {D}. Arguments Float {D}. Arguments Double {D}.
Arguments LongDouble {D}. Arguments Char {D}. Arguments CharPointer {D}.
Arguments SignedCharPointer {D}. Arguments UnsignedCharPointer {D}. Arguments StdString {D}.
Arguments StringReference {D}. Arguments CStringReference {D}. Arguments VoidPointer {D}.
Arguments Enumeration {D}. Arguments Object {D}. Arguments Named {D}.

(** ** The union *)

(** The member that was written last.  [string.value] alone is written for a
    C string ([None] is the size that was left unset). [to_named] is
    [pointer] when it points to a [NamedArg], an [Arg] with a name. *)
Inductive Value (D : Type) :=
| int_value (z : Z)
| uint_value (z : Z)
| long_long_value (z : Z)
| ulong_long_value (z : Z)
| double_value (d : D)
| long_double_value (d : D)
| string (p : Z) (s : bytes) (size : option Z)
| sstring (p : Z) (s : bytes)
| ustring (p : Z) (s : bytes)
| pointer (p : Z)
| to_named (name : bytes) (type : Z) (v : Value D)
| custom (text : bytes).
Arguments int_value {D}. Arguments uint_value {D}. Arguments long_long_value {D}.
Arguments ulong_long_value {D}. Arguments double_value {D}. Arguments long_double_value {D}.
Arguments string {D}. Arguments sstring {D}. Arguments ustring {D}. Arguments pointer {D}.
Arguments to_named {D}. Arguments custom {D}.

Section MakeValue.
Context {D : Type} (long_bits : Z).

(** [sizeof(long) == sizeof(int)] *)
Definition long_is_int : bool := long_bits =? bits c_int.
Definition set_string (p : Z) (s : bytes) : Value D := string p s (Some (len s)).

(** [MakeValue::type]; the numbers are those of [Value::Type]. *)
Definition value_type (v : cxx_value D) : Z :=
  match v with
  | Bool _ => 6
  | Integer t _ => if is_signed t then 2 else 3
  | Long _ => if long_is_int then 2 else 4
  | UnsignedLong _ => if long_is_int then 3 else 5
  | LongLong _ => 4
  | ULongLong _ => 5
  | Float _ | Double _ => 8
  | LongDouble _ => 9
  | Char _ => 7
  | CharPointer _ _ | SignedCharPointer _ _ | UnsignedCharPointer _ _ | CStringReference _ _ => 10
  | StdString _ _ | StringReference _ _ => 11
  | VoidPointer _ => 13
  | Enumeration _ => 2
  | Object _ => 14
  | Named _ _ => 1
  end.
(** The constructors of [MakeValue], with the conversion of the assignment. *)
Fixpoint make_value (v : cxx_value D) : Value D :=
  match v with
  | Bool b => int_value (Z.b2z b)
  | Integer t z => if is_signed t then int_value (cast c_int z) else uint_value (cast c_uint z)
  | Long z => if long_is_int then int_value (cast c_int z) else long_long_value z
  | UnsignedLong z => if long_is_int then uint_value (cast c_uint z) else ulong_long_value z
  | LongLong z => long_long_value z
  | ULongLong z => ulong_long_value z
  | Float d | Double d => double_value d
  | LongDouble d => long_double_value d
  | Char z => int_value z
  | CharPointer p s | CStringReference p s => string p s None
  | SignedCharPointer p s => sstring p s
  | UnsignedCharPointer p s => ustring p s
  | StdString p s | StringReference p s => set_string p s
  | VoidPointer p => pointer p
  | Enumeration z => int_value (cast c_int z)
  | Object text => custom text
  | Named name v => to_named name (value_type v) (make_value v)
  end.

(** [ArgVisitor::visit] up to the visit method: the member that goes with the
    type; [None] when another member was written. *)
Fixpoint read_member (t : Z) (v : Value D) : option (Arg D) :=
  match v with
  | int_value z =>
      if t =? 2 then Some (INT z) else if t =? 6 then Some (BOOL (negb (z =? 0)))
      else if t =? 7 then Some (CHAR z) else None
  | uint_value z => if t =? 3 then Some (UINT z) else None
  | long_long_value z => if t =? 4 then Some (LONG_LONG z) else None
  | ulong_long_value z => if t =? 5 then Some (ULONG_LONG z) else None
  | double_value d => if t =? 8 then Some (DOUBLE d) else None
  | long_double_value d => if t =? 9 then Some (LONG_DOUBLE d) else None
  | string p s size =>
      if t =? 10 then Some (CSTRING p s)
      else if t =? 11 then match size with Some n => Some (STRING p (take (Z.to_nat n) s)) | None => None end
      else None
  | sstring p s | ustring p s => if t =? 10 then Some (CSTRING p s) else None
  | pointer p => if t =? 13 then Some (POINTER p) else None
  | to_named name t' v' => if t =? 1 then NAMED_ARG name <$> read_member t' v' else None
  | custom text => if t =? 14 then Some (CUSTOM text) else None
  end.
(** [MakeArg(value)]: what a formatting function gets for a value. *)
Definition make_arg (v : cxx_value D) : option (Arg D) := read_member (value_type v) (make_value v).

(** ** What is wanted *)

(** The values the C++ types have; the types of the [Integer] constructor are
    at most as wide as [int]. *)
Fixpoint cxx_ok (v : cxx_value D) : Prop :=
  match v with
  | Bool _ | Float _ | Double _ | LongDouble _ | Object _ => True
  | Integer t z => (bits t = 8 \/ bits t = 16 \/ bits t = 32) /\ in_type t z
  | Long z => in_type (IntType long_bits true) z
  | UnsignedLong z => in_type (IntType long_bits false) z
  | LongLong z => in_type c_llong z
  | ULongLong z => in_type c_ullong z
  | Char z => in_type c_schar z
  | Enumeration z => llong_min <= z <= size_max
  | CharPointer p _ | SignedCharPointer p _ | UnsignedCharPointer p _ | StdString p _
  | StringReference p _ | CStringReference p _ | VoidPointer p => in_type c_size p
  | Named _ v => cxx_ok v
  end.
(** An argument stands for a value: the same number, floating-point number,
    characters or address; of an enumeration it holds the low 32 bits, which
    are the number when it fits an [int]. *)
Fixpoint stands_for (a : Arg D) (v : cxx_value D) : Prop :=
  match v with
  | Bool b => a = BOOL b
  | Integer _ z => a = INT z \/ a = UINT z
  | Enumeration z => a = INT (i32 z)
  | Long z | LongLong z => a = INT z \/ a = LONG_LONG z
  | UnsignedLong z | ULongLong z => a = UINT z \/ a = ULONG_LONG z
  | Float d | Double d => a = DOUBLE d
  | LongDouble d => a = LONG_DOUBLE d
  | Char z => a = CHAR z
  | CharPointer p s | SignedCharPointer p s | UnsignedCharPointer p s | CStringReference p s => a = CSTRING p s
  | StdString p s | StringReference p s => a = STRING p s
  | VoidPointer p => a = POINTER p
  | Object text => a = CUSTOM text
  | Named name v => exists b, a = NAMED_ARG name b /\ stands_for b v
  end.
End MakeValue.

(** ** Facts *)
Section Facts.
Context {D : Type} (long_bits : Z) `{DataModel long_bits}.

Lemma cast_id t z : in_type t z -> 0 < bits t -> cast t z = z.
Proof.
  unfold in_type, cast. destruct (is_signed t); intros Hz Ht; [by apply wrap_s_id|by apply wrap_u_id].
Qed.
Lemma cast_narrow t z :
  (bits t = 8 \/ bits t = 16 \/ bits t = 32) -> in_type t z ->
  if is_signed t then cast c_int z = z /\ int_min <= z <= int_max
  else cast c_uint z = z /\ 0 <= z <= uint_max.
Proof.
  unfold in_type. intros Hb Hz. destruct (is_signed t);
    (split; [apply cast_id; [unfold in_type; simpl|done]|unfold int_min, int_max, uint_max]);
    destruct Hb as [Hb|[Hb|Hb]]; rewrite Hb in Hz; simpl in Hz; lia.
Qed.
Lemma cast_long z :
  long_is_int long_bits = true ->
  (in_type (IntType long_bits true) z -> cast c_int z = z /\ int_min <= z <= int_max)
  /\ (in_type (IntType long_bits false) z -> cast c_uint z = z /\ 0 <= z <= uint_max).
Proof.
  unfold long_is_int. intros Hl. apply Z.eqb_eq in Hl. rewrite Hl.
  split; intros Hz; [apply (cast_narrow (IntType 32 true))|apply (cast_narrow (IntType 32 false))]; auto.
Qed.
Lemma long_wide z :
  long_is_int long_bits = false ->
  (in_type (IntType long_bits true) z -> llong_min <= z <= llong_max)
  /\ (in_type (IntType long_bits false) z -> 0 <= z <= size_max).
Proof.
  unfold long_is_int. intros Hl. apply Z.eqb_neq in Hl.
  destruct long_cases as [E|E]; [done|rewrite E; unfold in_type, llong_min, llong_max, size_max; simpl; lia].
Qed.

Lemma type_bounds :
  (forall z, in_type c_schar z -> int_min <= z <= int_max)
  /\ (forall z, in_type c_int z -> int_min <= z <= int_max)
  /\ (forall z, in_type c_llong z -> llong_min <= z <= llong_max)
  /\ (forall z, in_type c_size z -> 0 <= z <= size_max).
Proof.
  unfold in_type, int_min, int_max, llong_min, llong_max, size_max; simpl. split_and!; intros; lia.
Qed.
Lemma take_whole (s : bytes) : take (Z.to_nat (len s)) s = s.
Proof. unfold len. by rewrite Nat2Z.id, firstn_all. Qed.

(** Arguments are typed: for every value the library formats, on both data
    models, the type that [MakeValue::type] reports names the union member
    that the constructor has written, so the visitor reads the member that was
    stored; what it reads has that type, stands for the value that was passed,
    and lies in the range the formatter's theorems ask of their arguments. *)
Lemma make_arg_spec (v : cxx_value D) :
  cxx_ok long_bits v ->
  exists a, make_arg long_bits v = Some a /\ type_code a = value_type long_bits v
    /\ stands_for a v /\ arg_ok a.
Proof.
  unfold make_arg. induction v as [b|t z|z|z|z|z|d|d|d|z|p s|p s|p s|p s|p s|p s|p|z|t|name v IH];
    cbn [cxx_ok value_type make_value stands_for read_member set_string]; intros Hok;
    try (by eexists); destruct type_bounds as (Hchar & Hint & Hll & Hull).
  - exists (BOOL b). by destruct b.
  - destruct Hok as [Hb Hz]. pose proof (cast_narrow t z Hb Hz) as Hc.
    destruct (is_signed t); destruct Hc as [-> Hr]; eexists; split_and!; auto.
  - destruct (long_is_int long_bits) eqn:Hl.
    + destruct (proj1 (cast_long z Hl) Hok) as [-> Hr]. eexists; split_and!; auto.
    + pose proof (proj1 (long_wide z Hl) Hok). eexists; split_and!; auto.
  - destruct (long_is_int long_bits) eqn:Hl.
    + destruct (proj2 (cast_long z Hl) Hok) as [-> Hr]. eexists; split_and!; auto.
    + pose proof (proj2 (long_wide z Hl) Hok). eexists; split_and!; auto.
  - exists (LONG_LONG z). split_and!; auto. by apply Hll.
  - exists (ULONG_LONG z). split_and!; auto. by apply Hull.
  - exists (CHAR z). split_and!; auto. by apply Hchar.
  - exists (CSTRING p s). split_and!; auto. by apply Hull.
  - exists (CSTRING p s). split_and!; auto. by apply Hull.
  - exists (CSTRING p s). split_and!; auto. by apply Hull.
  - exists (STRING p s). split_and!; auto; [|by apply Hull]. by rewrite (take_whole s).
  - exists (STRING p s). split_and!; auto; [|by apply Hull]. by rewrite (take_whole s).
  - exists (CSTRING p s). split_and!; auto. by apply Hull.
  - exists (POINTER p). split_and!; auto. by apply Hull.
  - exists (INT (i32 z)). split_and!; auto. unfold i32, wrap_s, arg_ok, int_min, int_max.
    change (2 ^ (32 - 1)) with 2147483648. change (2 ^ 32) with 4294967296.
    pose proof (Z.mod_pos_bound (z + 2147483648) 4294967296). lia.
  - destruct (IH Hok) as (b & -> & Ht & Hs & Hb). exists (NAMED_ARG name b). split_and!; eauto.
Qed.
End Facts.
Example named_long :
  make_arg (D := Z) 64 (Named !"n" (Long llong_min)) = Some (NAMED_ARG !"n" (LONG_LONG llong_min)).
Proof. reflexivity. Qed.
(** An enumeration wider than [int] loses its upper bits: it converts to a
    64-bit integer, and is stored in [int_value]. *)
Example enumeration_truncated : make_arg (D := Z) 64 (Enumeration 4294967303) = Some (INT 7).
Proof. reflexivity. Qed.
