(* ===== verification/FmtVariadic.v ===== *)
(** * Variadic calls: from C++ arguments to an [ArgList],
      [src/src/spdlog/fmt/bundled/format.h]

    A variadic formatting function packs the types of its arguments four bits
    each in a word and their values in an array: bare [Value]s when there are
    fewer than sixteen, otherwise [Arg]s (a [Value] with its type) and an end
    marker.  [ArgList] holds the word and an untyped pointer to one array or
    the other.  Here the word, the array, [operator[]] and [ArgMap::init] are
    at the level of those unions, where reading the wrong array, past its end
    or the wrong member is undefined behaviour ([None]).  The theorem is that
    none of it happens: the list refines the list of typed arguments that
    [FmtFormat.format] works on. *)
From S2P Require Import Prelude Cxx Fmt FmtFacts FmtBuffer FmtDouble FmtFormat FmtArgsFacts.
From S2P Require Import FmtTemplate FmtValues FmtMakeValue.

Open Scope Z_scope.

Section Variadic.
Context {D : Type} (long_bits : Z).

(** ** Building the list *)

(** [ArgArray<N>::Type]: the array that [values_] or [args_] points to. *)
Inductive ArgArray :=
| Values (l : list (Value D))
| Args (l : list (Z * Value D)).
Record RawList := MkRawList { raw_types : Z; raw_array : ArgArray }.

(** [make_type(first, tail...)] *)
Fixpoint make_types (vs : list (cxx_value D)) : Z :=
  match vs with
  | [] => 0
  | first :: tail => Z.lor (value_type long_bits first) (u64 (Z.shiftl (make_types tail) 4))
  end.
(** [make_type] of compilers without variadic templates: fifteen parameters,
    each 0 unless it is given. *)
Definition make_type_15 (t : nat -> Z) : Z :=
  let at_ n k := u64 (Z.shiftl (t n) k) in
  Z.lor (Z.lor (Z.lor (Z.lor (Z.lor (Z.lor (Z.lor (Z.lor (Z.lor (Z.lor (Z.lor (Z.lor (Z.lor (Z.lor
    (t 0%nat) (at_ 1%nat 4)) (at_ 2%nat 8)) (at_ 3%nat 12)) (at_ 4%nat 16)) (at_ 5%nat 20))
    (at_ 6%nat 24)) (at_ 7%nat 28)) (at_ 8%nat 32)) (at_ 9%nat 36)) (at_ 10%nat 40))
    (at_ 11%nat 44)) (at_ 12%nat 48)) (at_ 13%nat 52)) (at_ 14%nat 56).
(** [MakeArg]: the value with its type. *)
Definition make_typed (v : cxx_value D) : Z * Value D := (value_type long_bits v, make_value long_bits v).
(** The [typename ArgArray::Type array{...}] of the macros: [N > 0 ? N : 1]
    values, or [N + 1] arguments; elements without initialiser are zero. *)
Definition make_array (vs : list (cxx_value D)) : ArgArray :=
  if len vs <? MAX_PACKED_ARGS then
    Values (match vs with [] => [int_value 0] | _ => map (make_value long_bits) vs end)
  else Args (map make_typed vs ++ [(0, int_value 0)]).
Definition variadic (vs : list (cxx_value D)) : RawList := MkRawList (make_types vs) (make_array vs).

(** ** Reading it *)

(** [ArgList::type] *)
Definition raw_type (l : RawList) (index : Z) : Z :=
  let shift := index * 4 in
  Z.shiftr (Z.land (raw_types l) (u64 (Z.shiftl 15 shift))) shift.
(** [use_values ? values_[index] : args_[index]] *)
Definition element (use_values : bool) (l : RawList) (index : Z) : option (Value D) :=
  match raw_array l with
  | Values a => if use_values then a !! Z.to_nat index else None
  | Args a => if use_values then None else snd <$> a !! Z.to_nat index
  end.
(** [args_], from the [n]-th on. *)
Definition args_from (l : RawList) (n : Z) : list (Z * Value D) :=
  match raw_array l with Args a => drop (Z.to_nat n) a | Values _ => [] end.
(** An [Arg] is a type and a value; the value is indeterminate when the type
    is [NONE]. *)
Definition RawArg := (Z * option (Value D))%type.
(** The loop of [operator[]] over the arguments that are not packed. *)
Fixpoint raw_walk (rest : list (Z * Value D)) (steps : Z) : option RawArg :=
  match rest with
  | [] => None
  | (t, v) :: rest =>
      if t =? 0 then Some (t, Some v)
      else if steps =? 0 then Some (t, Some v) else raw_walk rest (steps - 1)
  end.
(** [ArgList::operator[]] *)
Definition raw_at (l : RawList) (index : Z) : option RawArg :=
  let use_values := raw_type l (MAX_PACKED_ARGS - 1) =? 0 in
  if index <? MAX_PACKED_ARGS then
    let t := raw_type l index in
    if t =? 0 then Some (t, None)
    else v ← element use_values l index; Some (t, Some v)
  else if use_values then Some (0, None)
  else raw_walk (args_from l MAX_PACKED_ARGS) (index - MAX_PACKED_ARGS).
(** What the visitor gets from an [Arg]. *)
Definition read_arg (a : RawArg) : option (Arg D) :=
  if a.1 =? 0 then Some NONE else v ← a.2; read_member a.1 v.

(** [ArgMap::init]: a [NAMED_ARG] is pushed with its name and as an [Arg]. *)
Definition RawMap := list (bytes * RawArg).
Definition raw_push (t : Z) (v : option (Value D)) (m : RawMap) : option RawMap :=
  if t =? 1 then
    match v with
    | Some (to_named name t' v') => Some (m ++ [(name, (t', Some v'))])
    | _ => None
    end
  else Some m.
Fixpoint raw_init_packed (fuel : nat) (use_values : bool) (l : RawList) (i : Z) (m : RawMap) : option RawMap :=
  match fuel with
  | O => Some m
  | S fuel =>
      let t := raw_type l i in
      if use_values && (t =? 0) then Some m
      else m ← raw_push t (element use_values l i) m; raw_init_packed fuel use_values l (i + 1) m
  end.
Fixpoint raw_init_rest (rest : list (Z * Value D)) (m : RawMap) : option RawMap :=
  match rest with
  | [] => None
  | (t, v) :: rest =>
      if t =? 0 then Some m else m ← raw_push t (Some v) m; raw_init_rest rest m
  end.
Definition raw_map_init (l : RawList) (m : RawMap) : option RawMap :=
  if bool_decide (m <> []) then Some m
  else
    let use_values := raw_type l (MAX_PACKED_ARGS - 1) =? 0 in
    m ← raw_init_packed (Z.to_nat MAX_PACKED_ARGS) use_values l 0 m;
    if use_values then Some m else raw_init_rest (args_from l MAX_PACKED_ARGS) m.
(** The entries of the map as the formatter sees them. *)
Definition read_map (m : RawMap) : option (@ArgMap D) :=
  mapM (fun p => a ← read_arg p.2; Some (p.1, a)) m.
End Variadic.
Arguments RawList : clear implicits.
Arguments RawArg : clear implicits.
Arguments RawMap : clear implicits.

(** ** Facts *)
Section Facts.
Context {D : Type} (long_bits : Z) `{DataModel long_bits}.
Implicit Types vs : list (cxx_value D).

Lemma value_type_range (v : cxx_value D) : 0 < value_type long_bits v < 16.
Proof. destruct v; cbn [value_type]; repeat case_match; lia. Qed.

(** The argument of a value. *)
Definition arg_of (v : cxx_value D) : Arg D := default NONE (make_arg long_bits v).

Lemma arg_of_spec v :
  cxx_ok long_bits v ->
  read_member (value_type long_bits v) (make_value long_bits v) = Some (arg_of v)
  /\ type_code (arg_of v) = value_type long_bits v /\ stands_for (arg_of v) v /\ arg_ok (arg_of v).
Proof.
  intros Hok. destruct (make_arg_spec long_bits v Hok) as (a & Ha & Ht & Hs & Hr).
  unfold arg_of. fold (make_arg long_bits v). by rewrite Ha.
Qed.
Lemma arg_of_real vs : Forall (cxx_ok long_bits) vs -> Forall real (map arg_of vs).
Proof.
  intros Hok. apply Forall_map. eapply Forall_impl; [exact Hok|]. intros v Hv E. simpl in E.
  destruct (arg_of_spec v Hv) as (_ & Ht & _). rewrite E in Ht. pose proof (value_type_range v). simpl in Ht. lia.
Qed.
Lemma make_types_spec vs :
  Forall (cxx_ok long_bits) vs -> make_types long_bits vs = make_type (map arg_of vs).
Proof.
  induction 1 as [|v vs Hv _ IH]; [done|]. cbn [make_types map make_type].
  by rewrite IH, (proj1 (proj2 (arg_of_spec v Hv))).
Qed.
Lemma raw_type_spec vs i :
  Forall (cxx_ok long_bits) vs ->
  raw_type (variadic long_bits vs) i = arg_type (arg_list (map arg_of vs)) i.
Proof. intros Hok. unfold raw_type, arg_type. cbn [raw_types variadic types_ arg_list]. by rewrite make_types_spec. Qed.
Lemma raw_use_values vs :
  Forall (cxx_ok long_bits) vs ->
  (raw_type (variadic long_bits vs) (MAX_PACKED_ARGS - 1) =? 0) = (len vs <? MAX_PACKED_ARGS).
Proof.
  intros Hok. rewrite raw_type_spec, use_values_spec by (done || by apply arg_of_real).
  unfold len. by rewrite length_map.
Qed.

(** The array that is read is the one that was built. *)
Lemma element_spec vs i v :
  vs !! i = Some v ->
  element (len vs <? MAX_PACKED_ARGS) (variadic long_bits vs) (Z.of_nat i) = Some (make_value long_bits v).
Proof.
  intros Hi. unfold element, variadic, make_array. cbn [raw_array].
  destruct (len vs <? MAX_PACKED_ARGS); rewrite Nat2Z.id.
  - destruct vs as [|w vs]; [done|]. by rewrite list_lookup_fmap, Hi.
  - rewrite lookup_app_l by (rewrite length_map; by apply lookup_lt_Some in Hi).
    by rewrite list_lookup_fmap, Hi.
Qed.
Lemma args_from_spec vs :
  MAX_PACKED_ARGS <= len vs ->
  args_from (variadic long_bits vs) MAX_PACKED_ARGS
    = map (make_typed long_bits) (drop 16 vs) ++ [(0, int_value 0)].
Proof.
  intros Hl. unfold args_from, variadic, make_array. cbn [raw_array].
  destruct (Z.ltb_spec (len vs) MAX_PACKED_ARGS); [lia|]. unfold MAX_PACKED_ARGS, len in *.
  change (Z.to_nat 16) with 16%nat. rewrite drop_app_le by (rewrite length_map; lia). by rewrite skipn_map.
Qed.

(** *** [operator[]] *)
Lemma raw_walk_spec vs steps :
  Forall (cxx_ok long_bits) vs -> 0 <= steps ->
  raw_walk (map (make_typed long_bits) vs ++ [(0, int_value 0)]) steps ≫= read_arg
    = Some (nth (Z.to_nat steps) (map arg_of vs) NONE).
Proof.
  intros Hok; revert steps; induction Hok as [|v vs Hv _ IH]; intros steps Hs; cbn [map app raw_walk].
  { destruct (Z.to_nat steps); done. }
  unfold make_typed at 1. pose proof (value_type_range v) as Ht.
  destruct (Z.eqb_spec (value_type long_bits v) 0) as [|Hn]; [lia|].
  destruct (Z.eqb_spec steps 0) as [->|]; simpl.
  - unfold read_arg. simpl. destruct (Z.eqb_spec (value_type long_bits v) 0); [done|].
    apply (proj1 (arg_of_spec v Hv)).
  - rewrite IH by lia. by replace (Z.to_nat steps) with (S (Z.to_nat (steps - 1))) by lia.
Qed.
Lemma raw_at_spec vs i :
  Forall (cxx_ok long_bits) vs -> 0 <= i ->
  raw_at (variadic long_bits vs) i ≫= read_arg = Some (nth (Z.to_nat i) (map arg_of vs) NONE).
Proof.
  intros Hok Hi. unfold raw_at. rewrite raw_use_values by done.
  destruct (Z.ltb_spec i MAX_PACKED_ARGS) as [Hs|Hs].
  - rewrite raw_type_spec, arg_type_spec by (unfold MAX_PACKED_ARGS in Hs; done || lia).
    destruct (vs !! Z.to_nat i) as [v|] eqn:Hv.
    + assert (Ha : nth (Z.to_nat i) (map arg_of vs) NONE = arg_of v).
      { rewrite nth_lookup, list_lookup_fmap, Hv. done. }
      assert (Hvo : cxx_ok long_bits v) by (by eapply Forall_lookup_1).
      destruct (arg_of_spec v Hvo) as (Hr & Ht & _). rewrite Ha, Ht.
      pose proof (value_type_range v). destruct (Z.eqb_spec (value_type long_bits v) 0) as [|Hn]; [lia|].
      rewrite <- (Z2Nat.id i) at 1 by lia. rewrite (element_spec _ _ _ Hv). simpl. unfold read_arg. simpl.
      by destruct (Z.eqb_spec (value_type long_bits v) 0).
    + apply lookup_ge_None in Hv. rewrite nth_overflow by (rewrite length_map; lia). done.
  - destruct (Z.ltb_spec (len vs) MAX_PACKED_ARGS) as [Hl|Hl]; unfold MAX_PACKED_ARGS, len in Hs, Hl.
    + rewrite nth_overflow by (rewrite length_map; lia). done.
    + rewrite args_from_spec, raw_walk_spec by (done || (by apply Forall_drop) || (unfold MAX_PACKED_ARGS, len; lia)).
      f_equal. rewrite <- skipn_map, !nth_lookup, lookup_drop.
      do 2 f_equal. unfold MAX_PACKED_ARGS. lia.
Qed.

(** *** Names *)
Definition raw_named vs : RawMap D :=
  omap (fun v => match v with Named n w => Some (n, (value_type long_bits w, Some (make_value long_bits w))) | _ => None end) vs.

Lemma raw_named_app vs ws : raw_named (vs ++ ws) = raw_named vs ++ raw_named ws.
Proof. apply omap_app. Qed.
Lemma raw_push_spec v m :
  raw_push (value_type long_bits v) (Some (make_value long_bits v)) m = Some (m ++ raw_named [v]).
Proof.
  unfold raw_push, raw_named. destruct v; cbn [value_type make_value]; repeat case_match; simpl in *; simplify_eq;
    by rewrite ?app_nil_r.
Qed.
Lemma raw_init_packed_spec vs fuel i m :
  Forall (cxx_ok long_bits) vs -> (i + fuel <= 16)%nat ->
  ((fuel <= length vs - i)%nat \/ (len vs <? MAX_PACKED_ARGS) = true /\ (length vs - i < fuel)%nat) ->
  raw_init_packed fuel (len vs <? MAX_PACKED_ARGS) (variadic long_bits vs) (Z.of_nat i) m
    = Some (m ++ raw_named (take fuel (drop i vs))).
Proof.
  intros Hok. revert i m; induction fuel as [|fuel IH]; intros i m Hi Hf; cbn [raw_init_packed].
  { by rewrite take_0, app_nil_r. }
  rewrite raw_type_spec, arg_type_spec, Nat2Z.id by (done || lia).
  destruct (vs !! i) as [v|] eqn:Hv.
  - assert (Hvo : cxx_ok long_bits v) by (by eapply Forall_lookup_1). pose proof (value_type_range v).
    replace (nth i (map arg_of vs) NONE) with (arg_of v) by (by rewrite nth_lookup, list_lookup_fmap, Hv).
    rewrite (proj1 (proj2 (arg_of_spec v Hvo))), (element_spec _ _ _ Hv).
    replace (value_type long_bits v =? 0) with false by (symmetry; apply Z.eqb_neq; lia).
    rewrite andb_false_r, raw_push_spec. cbn [mbind option_bind]. replace (Z.of_nat i + 1) with (Z.of_nat (S i)) by lia.
    apply lookup_lt_Some in Hv as Hl.
    rewrite IH; [|lia|destruct Hf as [|[-> ?]]; [left; lia|right; split; [done|lia]]].
    rewrite <- app_assoc, <- raw_named_app. by rewrite (drop_S vs v i Hv).
  - apply lookup_ge_None in Hv. destruct Hf as [|[-> _]]; [lia|].
    rewrite nth_overflow by (rewrite length_map; lia). rewrite drop_ge by lia. simpl. by rewrite app_nil_r.
Qed.
Lemma raw_init_rest_spec vs m :
  raw_init_rest (map (make_typed long_bits) vs ++ [(0, int_value 0)]) m = Some (m ++ raw_named vs).
Proof.
  revert m; induction vs as [|v vs IH]; intros m; cbn [map app raw_init_rest]; [by rewrite app_nil_r|].
  unfold make_typed at 1. pose proof (value_type_range v).
  destruct (Z.eqb_spec (value_type long_bits v) 0); [lia|]. rewrite raw_push_spec. cbn [mbind option_bind].
  by rewrite IH, <- app_assoc, <- raw_named_app.
Qed.
Lemma raw_map_init_spec vs :
  Forall (cxx_ok long_bits) vs -> raw_map_init (variadic long_bits vs) [] = Some (raw_named vs).
Proof.
  intros Hok. unfold raw_map_init. rewrite bool_decide_eq_false_2 by (by intros E).
  rewrite raw_use_values by done. change (Z.to_nat MAX_PACKED_ARGS) with 16%nat. change 0 with (Z.of_nat 0).
  rewrite (raw_init_packed_spec vs 16 0); [|done|lia|].
  2: { destruct (Z.ltb_spec (len vs) MAX_PACKED_ARGS) as [Hl|Hl]; unfold len, MAX_PACKED_ARGS in Hl;
       [right; split; [done|lia]|left; lia]. }
  rewrite drop_0. cbn [mbind option_bind app].
  destruct (Z.ltb_spec (len vs) MAX_PACKED_ARGS) as [Hl|Hl].
  - rewrite take_ge by (unfold len, MAX_PACKED_ARGS in Hl; lia). done.
  - by rewrite args_from_spec, raw_init_rest_spec, <- raw_named_app, take_drop by done.
Qed.
Lemma read_map_spec vs :
  Forall (cxx_ok long_bits) vs -> read_map (raw_named vs) = Some (named (map arg_of vs)).
Proof.
  induction 1 as [|v vs Hv _ IH]; [done|]. unfold read_map, raw_named in *. cbn [omap list_omap map named foldr].
  destruct v as [| | | | | | | | | | | | | | | | | | |n w]; try (rewrite IH;
    destruct (arg_of_spec _ Hv) as (_ & _ & Hs & _); cbn [stands_for] in Hs; by destruct_or? Hs; rewrite Hs).
  destruct (arg_of_spec w Hv) as (Hr & _ & _). pose proof (value_type_range w).
  assert (Ha : arg_of (Named n w) = NAMED_ARG n (arg_of w)).
  { unfold arg_of at 1, make_arg. cbn [value_type make_value read_member]. by rewrite Hr. }
  cbn [mapM]. rewrite IH, Ha. unfold read_arg. simpl.
  destruct (Z.eqb_spec (value_type long_bits w) 0); [lia|]. by rewrite Hr.
Qed.
End Facts.

(** (C35) Variadic calls are safe and typed.  Whatever values a formatting
    function is called with, any number of them, on both data models: no
    argument is read from the wrong array, past its end or through a member
    of the union other than the one that was stored, not even at an index
    past the last argument, nor in the search for names.  What is read are
    arguments that stand for the values passed, in order (for an enumeration
    wider than [int] that is its low 32 bits, see [enumeration_truncated]);
    the list and the map of names are those of these arguments. *)
Theorem variadic_typed {D} long_bits `{DataModel long_bits} (vs : list (cxx_value D)) :
  Forall (cxx_ok long_bits) vs ->
  exists args : list (Arg D), Forall2 stands_for args vs /\ Forall arg_ok args
    /\ raw_types (variadic long_bits vs) = types_ (arg_list args)
    /\ (forall i, 0 <= i -> raw_at (variadic long_bits vs) i ≫= read_arg = Some (arg_at (arg_list args) i))
    /\ raw_map_init (variadic long_bits vs) [] ≫= read_map = Some (map_init (arg_list args) []).
Proof.
  intros Hok. exists (map (arg_of long_bits) vs). pose proof (arg_of_real long_bits vs Hok) as Hr. split_and!.
  - apply Forall2_fmap_l, Forall_Forall2_diag. eapply Forall_impl; [exact Hok|]. intros v Hv. apply (arg_of_spec long_bits v Hv).
  - apply Forall_map. eapply Forall_impl; [exact Hok|]. intros v Hv. apply (arg_of_spec long_bits v Hv).
  - by apply make_types_spec.
  - intros i Hi. by rewrite raw_at_spec, arg_at_spec.
  - rewrite raw_map_init_spec, map_init_spec by auto. cbn [mbind option_bind]. by apply read_map_spec.
Qed.
Lemma variadic_typed_witness :
  let vs : list (cxx_value Z) := repeat (Long (-1)) 15 ++ [StdString 16 !"x"; Named !"n" (Bool true); Char 65] in
  exists args, Forall2 stands_for args vs
    /\ raw_at (variadic 64 vs) 17 ≫= read_arg = Some (arg_at (arg_list args) 17)
    /\ raw_map_init (variadic 64 vs) [] ≫= read_map = Some (map_init (arg_list args) []).
Proof.
  intros vs. assert (Hok : Forall (cxx_ok 64) vs).
  { repeat constructor; vm_compute; (discriminate || reflexivity || (split; [discriminate|reflexivity])). }
  destruct (variadic_typed 64 vs Hok) as (args & Hs & _ & _ & Hi & Hm).
  exists args. split; [exact Hs|]. split; [apply Hi; discriminate|exact Hm].
Defined.

(** Compilers without variadic templates compute the same word: fifteen
    types, shifted one by one, are the types packed recursively. *)
Section Fallback.
Lemma u64_shiftl_lor a b k : 0 <= k -> u64 (Z.shiftl (Z.lor a b) k) = Z.lor (u64 (Z.shiftl a k)) (u64 (Z.shiftl b k)).
Proof.
  intros Hk. unfold u64, wrap_u. apply Z.bits_inj'. intros j Hj. rewrite Z.lor_spec.
  destruct (decide (j < 64)).
  - by rewrite !Z.mod_pow2_bits_low, Z.shiftl_lor, Z.lor_spec by lia.
  - by rewrite !Z.mod_pow2_bits_high by lia.
Qed.
Lemma u64_shiftl_twice a j k :
  0 <= j -> 0 <= k -> u64 (Z.shiftl (u64 (Z.shiftl a j)) k) = u64 (Z.shiftl a (j + k)).
Proof.
  intros Hj Hk. unfold u64, wrap_u. apply Z.bits_inj'. intros i Hi.
  destruct (decide (i < 64)).
  - rewrite !Z.mod_pow2_bits_low, !Z.shiftl_spec by lia.
    destruct (decide (i < k)).
    + by rewrite !Z.testbit_neg_r by lia.
    + rewrite Z.mod_pow2_bits_low, Z.shiftl_spec by lia. f_equal. lia.
  - by rewrite !Z.mod_pow2_bits_high by lia.
Qed.
Lemma u64_shiftl_0 k : u64 (Z.shiftl 0 k) = 0.
Proof. by rewrite Z.shiftl_0_l. Qed.
End Fallback.

Theorem make_type_fallback {D} long_bits (vs : list (cxx_value D)) :
  (length vs <= 15)%nat ->
  make_type_15 (fun n => nth n (map (value_type long_bits) vs) 0) = make_types long_bits vs.
Proof.
  intros Hl. unfold make_type_15.
  do 16 (destruct vs as [|? vs];
    [cbn [make_types map nth]; repeat rewrite ?u64_shiftl_lor, ?u64_shiftl_twice by lia;
     rewrite ?u64_shiftl_0, ?Z.lor_0_r, ?Z.lor_assoc; reflexivity|]).
  simpl in Hl. lia.
Qed.
