(* ===== verification/FmtWriter.v ===== *)
(** * The stream operators of the writer,
      [src/src/spdlog/fmt/bundled/format.h]

    [BasicWriter::operator<<] for numbers, characters, strings and the
    specifiers that [bin], [oct], [hex], [hexu] and [pad] return; [str] and
    [c_str] of the writer.  The buffer is any of the [Grow] interface. *)
From S2P Require Import Prelude Cxx Fmt FmtFacts FmtBuffer FmtDouble FmtDoubleFacts FmtFormat FmtTemplate FmtTemplateFacts FmtPrintf FmtValues.

Open Scope Z_scope.

(** ** Specifiers *)

(** [IntFormatSpec<T, SpecT>] *)
Record IntFormatSpec := IntFormat { value_type : int_type; value_ : Z; spec_ : int_spec }.
(** [StrFormatSpec], an [AlignSpec] with the string. *)
Record StrFormatSpec := StrFormat { str_ : bytes; str_width : nat; str_fill : ascii }.

Definition bin (t : int_type) (value : Z) : IntFormatSpec := IntFormat t value (TypeSpec "b").
Definition oct (t : int_type) (value : Z) : IntFormatSpec := IntFormat t value (TypeSpec "o").
Definition hex (t : int_type) (value : Z) : IntFormatSpec := IntFormat t value (TypeSpec "x").
Definition hexu (t : int_type) (value : Z) : IntFormatSpec := IntFormat t value (TypeSpec "X").
Definition pad (f : IntFormatSpec) (width : nat) (fill : ascii) : IntFormatSpec :=
  IntFormat (value_type f) (value_ f) (AlignTypeSpec (type (spec_ f)) width fill).
Definition pad_int (t : int_type) (value : Z) (width : nat) (fill : ascii) : IntFormatSpec :=
  IntFormat t value (AlignTypeSpec nul width fill).
Definition pad_str (str : bytes) (width : nat) (fill : ascii) : StrFormatSpec := StrFormat str width fill.

(** ** [operator<<] *)
Inductive operand (D : Type) :=
| Out_int (t : int_type) (z : Z)
| Out_double (d : D)
| Out_long_double (d : D)
| Out_char (c : ascii)
| Out_string (s : bytes)
| Out_int_spec (f : IntFormatSpec)
| Out_str_spec (f : StrFormatSpec).
Arguments Out_int {D}. Arguments Out_double {D}. Arguments Out_long_double {D}. Arguments Out_char {D}.
Arguments Out_string {D}. Arguments Out_int_spec {D}. Arguments Out_str_spec {D}.

Section Writer.
Context {D : Type} `{FloatLib D} `{Grow}.
Variable junk : ascii.
Variable locale_sep : bytes.

Definition put_int_spec (f : IntFormatSpec) (b : buffer) : exc buffer :=
  emit (write_int junk (area_moves b) (main_width (value_type f)) locale_sep (value_ f) (spec_ f) []) b.
Definition put_str_spec (f : StrFormatSpec) (b : buffer) : exc buffer :=
  append (write_str junk (str_ f) (str_width f) (str_fill f) ALIGN_DEFAULT []) b.
(** Signed integers by [write_decimal], unsigned ones by an [IntFormatSpec]. *)
Definition put_int (t : int_type) (z : Z) (b : buffer) : exc buffer :=
  if is_signed t then append (write_decimal junk (main_width t) z []) b
  else put_int_spec (IntFormat t z (TypeSpec nul)) b.
(** [None] is a loop of [write_double] that has not ended. *)
Definition stream_out (op : operand D) (b : buffer) : option (exc buffer) :=
  match op with
  | Out_int t z => Some (put_int t z b)
  | Out_double d => write_double junk false d new_spec b
  | Out_long_double d => write_double junk true d new_spec b
  | Out_char c => Some (push_back c b)
  | Out_string s => Some (append s b)
  | Out_int_spec f => Some (put_int_spec f b)
  | Out_str_spec f => Some (put_str_spec f b)
  end.
(** [w << a << b << ...] *)
Fixpoint stream_all (ops : list (operand D)) (b : buffer) : option (exc buffer) :=
  match ops with
  | [] => Some (Ok b)
  | op :: ops =>
      match stream_out op b with
      | Some (Ok b) => stream_all ops b
      | r => r
      end
  end.

(** [BasicWriter::str] and [c_str] *)
Definition writer_str (b : buffer) : bytes := take (size_ b) (ptr_ b).
Definition writer_c_str (b : buffer) : exc (buffer * bytes) :=
  let size := size_ b in
  let! b := reserve (size + 1) b in
  let b := poke size [nul] b in
  Ok (b, ptr_ b).

End Writer.

(** ** What is written *)
Section Text.
Context {D : Type} `{FloatLibOk D} `{Grow}.
Variable junk : ascii.
Variable locale_sep : bytes.
Hypothesis grow_total : forall n b, exists b', grow n b = Ok b'.

Definition operand_ok (op : operand D) : Prop :=
  match op with
  | Out_int t z => machine_type t /\ in_type t z
  | Out_int_spec f => machine_type (value_type f) /\ in_type (value_type f) (value_ f)
  | _ => True
  end.
Definition operand_text (op : operand D) : option bytes :=
  match op with
  | Out_int t z => Some (dec z)
  | Out_double d => arg_text locale_sep (DOUBLE d) new_spec
  | Out_long_double d => arg_text locale_sep (LONG_DOUBLE d) new_spec
  | Out_char c => Some [c]
  | Out_string s => Some s
  | Out_int_spec f =>
      digits ← numeral locale_sep (type (spec_ f)) (Z.abs (value_ f));
      if padded_behind (spec_ f) (int_prefix (value_ f) (spec_ f)) digits then None
      else Some (render (spec_ f) (int_prefix (value_ f) (spec_ f)) digits)
  | Out_str_spec f => Some (str_ f ++ repeat (str_fill f) (str_width f - length (str_ f)))
  end.
Definition all_text (ops : list (operand D)) : option bytes :=
  foldr (fun op acc => t ← operand_text op; ts ← acc; Some (t ++ ts)) (Some []) ops.

Lemma c_str_spec b :
  buffer_wf b ->
  exists bc mem, writer_c_str b = Ok (bc, mem) /\ take (size_ b + 1) mem = content b ++ [nul] /\ content bc = content b.
Proof.
  intros Hb. unfold writer_c_str, reserve.
  assert (Hr : exists b1, ensure (capacity_ b <? size_ b + 1)%nat (size_ b + 1) b = Ok b1).
  { unfold ensure. destruct (capacity_ b <? _)%nat; [apply grow_total|by eexists]. }
  destruct Hr as (b1 & Hr). rewrite Hr. cbn [exc_bind].
  apply (reserve_spec (size_ b + 1)) in Hr as (Hw1 & Hc1 & Hs1 & Hcap); [|done].
  unfold capacity_ in Hcap. destruct (split_length (ptr_ b1) (size_ b) (length (ptr_ b1) - size_ b)) as (l1 & l2 & Hp & Hl1 & Hl2); [lia|].
  destruct l2 as [|x l2]; [simpl in Hl2; lia|].
  assert (Hl : l1 = content b) by (rewrite <- Hc1; unfold content; by rewrite Hs1, Hp, take_app_length').
  eexists _, _. split; [reflexivity|]. unfold poke, content at 2. cbn [ptr_ size_]. rewrite Hp.
  rewrite (copy_at l1 [x] l2) by (done || by rewrite Hl1).
  rewrite Hs1. split; [|by rewrite take_app_length'].
  rewrite (app_assoc l1 [nul] l2), take_app_length' by (rewrite length_app; simpl; lia). by rewrite Hl.
Qed.
Lemma int_spec_appends t z sp b ds :
  machine_type t -> in_type t z -> numeral locale_sep (type sp) (Z.abs z) = Some ds ->
  padded_behind sp (int_prefix z sp) ds = false -> buffer_wf b ->
  appends (render sp (int_prefix z sp) ds) b (put_int_spec junk locale_sep (IntFormat t z sp) b).
Proof.
  intros Ht Hz Hd Hp Hb. unfold put_int_spec, emit. cbn [value_type value_ spec_].
  rewrite write_int_spec by (apply main_width_cases || by apply in_type_main).
  rewrite Hd, kept_digits_all by done. by apply appends_append.
Qed.
Lemma put_int_appends t z b :
  machine_type t -> in_type t z -> buffer_wf b -> appends (dec z) b (put_int junk locale_sep t z b).
Proof.
  intros Ht Hz Hb. unfold put_int. destruct (is_signed t) eqn:Hs.
  - rewrite write_decimal_spec by (apply main_width_cases || by apply in_type_main). by apply appends_append.
  - pose proof (int_spec_appends t z (TypeSpec nul) b (dec_nat (Z.abs z)) Ht Hz eq_refl eq_refl Hb) as Hi.
    unfold in_type in Hz. rewrite Hs in Hz. unfold int_prefix, sign_prefix in Hi. cbn [flag render] in Hi.
    rewrite dec_split. destruct (z <? 0) eqn:E; bool_to_prop; [lia|]. exact Hi.
Qed.
Lemma stream_out_appends op b t :
  operand_ok op -> operand_text op = Some t -> buffer_wf b ->
  exists m, stream_out junk locale_sep op b = Some m /\ appends t b m.
Proof.
  intros Hok Ht Hb. destruct op as [ty z|d|d|c|s|f|f]; cbn [operand_ok operand_text stream_out] in *;
    try (by apply double_appends); eexists; (split; [done|]).
  - simplify_eq. destruct Hok. by apply put_int_appends.
  - simplify_eq. rewrite push_back_append by done. by apply appends_append.
  - simplify_eq. by apply appends_append.
  - destruct f as [ty z sp]. cbn [value_type value_ spec_] in *.
    destruct Hok, (numeral _ _ _) eqn:Hn; simplify_eq/=.
    destruct (padded_behind _ _ _) eqn:Hp; [done|]. simplify_eq. by apply int_spec_appends.
  - simplify_eq. unfold put_str_spec. rewrite write_str_spec. by apply appends_append.
Qed.
(** The stream operators.  A chain [w << a << b << ...] of numbers,
    characters, strings and padded or radix specifiers appends the texts of
    its operands in order to whatever the writer held, on every buffer that
    can grow; [str] is then the whole text, and [c_str] the text and a
    terminating NUL, with the writer's content unchanged. *)
Theorem writer_streams ops b ts :
  Forall operand_ok ops -> all_text ops = Some ts -> buffer_wf b ->
  exists b' bc mem, stream_all junk locale_sep ops b = Some (Ok b') /\ writer_str b' = content b ++ ts
    /\ writer_c_str b' = Ok (bc, mem) /\ take (size_ b' + 1) mem = content b ++ ts ++ [nul]
    /\ content bc = content b'.
Proof.
  intros Hok Ht Hb.
  assert (exists b', stream_all junk locale_sep ops b = Some (Ok b') /\ buffer_wf b' /\ content b' = content b ++ ts)
    as (b' & Hs & Hb' & Hc).
  { revert b ts Ht Hb; induction Hok as [|op ops Ho Hall IH]; intros b ts Ht Hb; cbn [all_text foldr stream_all] in *.
    - simplify_eq. exists b. by rewrite app_nil_r.
    - destruct (operand_text op) as [t|] eqn:Et; [|done]. fold (all_text ops) in Ht.
      destruct (all_text ops) as [ts'|] eqn:Ets; simplify_eq/=.
      destruct (stream_out_appends op b t Ho Et Hb) as (m & -> & b1 & -> & Hb1 & Hc1).
      destruct (IH b1 ts' eq_refl Hb1) as (b' & -> & Hb' & Hc'). exists b'.
      by rewrite Hc', Hc1, app_assoc. }
  exists b'. destruct (c_str_spec b' Hb') as (bc & mem & Hr & Hm & Hk). exists bc, mem.
  split_and!; try done. by rewrite Hm, Hc, app_assoc.
Qed.
End Text.
(** The examples of the header's comments, [pad(hex(0xcafe), 8, '0')] and
    [pad("abc", 8)], and the smallest integer. *)
Lemma writer_streams_witness :
  exists b' bc mem,
    stream_all (D := Z) (H0 := MemoryBuffer nul) nul []
      [Out_int_spec (pad (hex c_int 51966) 8 "0"); Out_char "|"; Out_str_spec (pad_str !"abc" 8 space);
       Out_string !"|"; Out_int c_int int_min; Out_int_spec (pad_int c_uint 7 3 "*")] (new_memory_buffer nul 4)
    = Some (Ok b')
    /\ writer_str b' = !"0000cafe|abc     |-2147483648**7"
    /\ writer_c_str (H0 := MemoryBuffer nul) b' = Ok (bc, mem)
    /\ take (size_ b' + 1) mem = !"0000cafe|abc     |-2147483648**7" ++ [nul]
    /\ content bc = content b'.
Proof.
  refine (writer_streams (D := Z) (H1 := MemoryBuffer nul) nul [] (fun n b => ex_intro _ _ eq_refl) _ (new_memory_buffer nul 4)
    !"0000cafe|abc     |-2147483648**7" _ _ _).
  - repeat (constructor; [first [exact I|split; [unfold machine_type; simpl; lia|vm_compute; split; done]]|]).
    constructor.
  - reflexivity.
  - vm_compute. lia.
Defined.
