(* ===== verification/PatternFormatter.v ===== *)
(** * The formatter of log lines,
      [src/src/spdlog/details/pattern_formatter_impl.h], and the parts of
      [details/os.h] it calls

    One constructor per flag formatter class; a pattern is compiled to a list
    of them.  Calendar times come from the C library's [localtime_r], a
    parameter, as the process identifier is.  An index outside one of the
    name arrays is undefined behaviour of the code: the theorems ask for a
    calendar time in range. *)
From S2P Require Import Prelude Cxx Fmt Logging.

Open Scope Z_scope.

(** [std::tm] *)
Record tm := Tm {
  tm_sec : Z; tm_min : Z; tm_hour : Z; tm_mday : Z; tm_mon : Z; tm_year : Z; tm_wday : Z;
  tm_gmtoff : Z
}.

(** ** Names *)
Definition ampm (t : tm) : bytes := if 12 <=? tm_hour t then !"PM" else !"AM".
Definition to12h (t : tm) : Z := if 12 <? tm_hour t then tm_hour t - 12 else tm_hour t.
Definition days : list bytes := [ !"Sun"; !"Mon"; !"Tue"; !"Wed"; !"Thu"; !"Fri"; !"Sat" ].
Definition full_days : list bytes :=
  [ !"Sunday"; !"Monday"; !"Tuesday"; !"Wednesday"; !"Thursday"; !"Friday"; !"Saturday" ].
Definition months : list bytes :=
  [ !"Jan"; !"Feb"; !"Mar"; !"Apr"; !"May"; !"June"; !"July"; !"Aug"; !"Sept"; !"Oct"; !"Nov"; !"Dec" ].
Definition full_months : list bytes :=
  [ !"January"; !"February"; !"March"; !"April"; !"May"; !"June"; !"July"; !"August"; !"September";
    !"October"; !"November"; !"December" ].
Definition at_index (names : list bytes) (i : Z) : bytes := nth (Z.to_nat i) names [].

(** ** Formatters *)
Inductive flag_formatter :=
| name_formatter | level_formatter | short_level_formatter
| a_formatter | A_formatter | b_formatter | B_formatter | c_formatter | C_formatter | D_formatter
| Y_formatter | m_formatter | d_formatter | H_formatter | I_formatter | M_formatter | S_formatter
| e_formatter | f_formatter | F_formatter | p_formatter | r_formatter | R_formatter | T_formatter
| z_formatter | t_formatter | pid_formatter | v_formatter
| ch_formatter (ch : ascii) | aggregate_formatter (str : bytes) | full_formatter.

Section Format.
Variable junk : ascii.
Variable pid : Z.

(** [w << fmt::pad(v, width, '0')] of an [int] *)
Definition pad (v : Z) (width : nat) (w : bytes) : exc bytes :=
  write_int junk not_asked 32 [] v (AlignTypeSpec nul width "0"%char) w.
(** [w << v] of an [int] *)
Definition put_int (v : Z) (w : bytes) : bytes := write_decimal junk 32 v w.

Definition pad_n_join2 (v1 v2 : Z) (sep : ascii) (w : bytes) : exc bytes :=
  let! w := pad v1 2 w in pad v2 2 (w ++ [sep]).
Definition pad_n_join3 (v1 v2 v3 : Z) (sep : ascii) (w : bytes) : exc bytes :=
  let! w := pad v1 2 w in let! w := pad v2 2 (w ++ [sep]) in pad v3 2 (w ++ [sep]).

(** [duration_cast<...>(duration).count() % n]: the clock counts
    nanoseconds; division and remainder truncate. *)
Definition subsecond (unit n : Z) (time : Z) : Z := i32 (Z.rem (Z.quot time unit) n).

(** [os::utc_minutes_offset] *)
Definition utc_minutes_offset (t : tm) : Z := i32 (Z.quot (tm_gmtoff t) 60).

Definition format_z (t : tm) (w : bytes) : exc bytes :=
  let total_minutes := utc_minutes_offset t in
  let sign := if total_minutes <? 0 then "-"%char else "+"%char in
  let total_minutes := if total_minutes <? 0 then i32 (- total_minutes) else total_minutes in
  pad_n_join2 (Z.quot total_minutes 60) (Z.rem total_minutes 60) ":"%char (w ++ [sign]).

(** [pattern: [%Y-%m-%d %H:%M:%S.%e] [%n] [%l] %v] *)
Definition pad_unsigned (v : Z) (width : nat) (w : bytes) : exc bytes :=
  write_int junk not_asked 32 [] (u32 v) (AlignTypeSpec nul width "0"%char) w.
Definition format_full (m : log_msg) (t : tm) (w : bytes) : exc bytes :=
  let millis := Z.rem (Z.quot (msg_time m) 1000000) 1000 in
  let! w := write_int junk not_asked 32 [] (u32 (tm_year t + 1900)) (TypeSpec nul) (w ++ !"[") in
  let! w := pad_unsigned (tm_mon t + 1) 2 (w ++ !"-") in
  let! w := pad_unsigned (tm_mday t) 2 (w ++ !"-") in
  let! w := pad_unsigned (tm_hour t) 2 (w ++ !" ") in
  let! w := pad_unsigned (tm_min t) 2 (w ++ !":") in
  let! w := pad_unsigned (tm_sec t) 2 (w ++ !":") in
  let! w := pad_unsigned millis 3 (w ++ !".") in
  Ok (w ++ !"] " ++ !"[" ++ msg_logger_name m ++ !"] " ++ !"[" ++ to_str (msg_level m) ++ !"] " ++ raw m).

(** The virtual [format] of each class, on the characters written so far. *)
Definition format_name (m : log_msg) (w : bytes) : exc bytes := Ok (w ++ msg_logger_name m).
Definition format_level (m : log_msg) (w : bytes) : exc bytes := Ok (w ++ to_str (msg_level m)).
Definition format_short_level (m : log_msg) (w : bytes) : exc bytes :=
  Ok (w ++ to_short_str (msg_level m)).
Definition format_a (t : tm) (w : bytes) : exc bytes := Ok (w ++ at_index days (tm_wday t)).
Definition format_A (t : tm) (w : bytes) : exc bytes := Ok (w ++ at_index full_days (tm_wday t)).
Definition format_b (t : tm) (w : bytes) : exc bytes := Ok (w ++ at_index months (tm_mon t)).
Definition format_B (t : tm) (w : bytes) : exc bytes := Ok (w ++ at_index full_months (tm_mon t)).
Definition format_c (t : tm) (w : bytes) : exc bytes :=
  let w := put_int (tm_mday t)
             (w ++ at_index days (tm_wday t) ++ !" " ++ at_index months (tm_mon t) ++ !" ") in
  let! w := pad_n_join3 (tm_hour t) (tm_min t) (tm_sec t) ":"%char (w ++ !" ") in
  Ok (put_int (tm_year t + 1900) (w ++ !" ")).
Definition format_C (t : tm) (w : bytes) : exc bytes := pad (Z.rem (tm_year t) 100) 2 w.
Definition format_D (t : tm) (w : bytes) : exc bytes :=
  pad_n_join3 (tm_mon t + 1) (tm_mday t) (Z.rem (tm_year t) 100) "/"%char w.
Definition format_Y (t : tm) (w : bytes) : exc bytes := Ok (put_int (tm_year t + 1900) w).
Definition format_m (t : tm) (w : bytes) : exc bytes := pad (tm_mon t + 1) 2 w.
Definition format_d (t : tm) (w : bytes) : exc bytes := pad (tm_mday t) 2 w.
Definition format_H (t : tm) (w : bytes) : exc bytes := pad (tm_hour t) 2 w.
Definition format_I (t : tm) (w : bytes) : exc bytes := pad (to12h t) 2 w.
Definition format_M (t : tm) (w : bytes) : exc bytes := pad (tm_min t) 2 w.
Definition format_S (t : tm) (w : bytes) : exc bytes := pad (tm_sec t) 2 w.
Definition format_e (m : log_msg) (w : bytes) : exc bytes :=
  pad (subsecond 1000000 1000 (msg_time m)) 3 w.
Definition format_f (m : log_msg) (w : bytes) : exc bytes :=
  pad (subsecond 1000 1000000 (msg_time m)) 6 w.
Definition format_F (m : log_msg) (w : bytes) : exc bytes :=
  pad (subsecond 1 1000000000 (msg_time m)) 9 w.
Definition format_p (t : tm) (w : bytes) : exc bytes := Ok (w ++ ampm t).
Definition format_r (t : tm) (w : bytes) : exc bytes :=
  let! w := pad_n_join3 (to12h t) (tm_min t) (tm_sec t) ":"%char w in Ok (w ++ !" " ++ ampm t).
Definition format_R (t : tm) (w : bytes) : exc bytes := pad_n_join2 (tm_hour t) (tm_min t) ":"%char w.
Definition format_T (t : tm) (w : bytes) : exc bytes :=
  pad_n_join3 (tm_hour t) (tm_min t) (tm_sec t) ":"%char w.
Definition format_t (m : log_msg) (w : bytes) : exc bytes :=
  write_int junk not_asked 64 [] (msg_thread_id m) (TypeSpec nul) w.
Definition format_pid (w : bytes) : exc bytes := Ok (put_int pid w).
Definition format_v (m : log_msg) (w : bytes) : exc bytes := Ok (w ++ raw m).
Definition format_ch (ch : ascii) (w : bytes) : exc bytes := Ok (w ++ [ch]).
Definition format_aggregate (str : bytes) (w : bytes) : exc bytes := Ok (w ++ str).

Definition format_flag (f : flag_formatter) (m : log_msg) (t : tm) (w : bytes) : exc bytes :=
  match f with
  | name_formatter => format_name m w
  | level_formatter => format_level m w
  | short_level_formatter => format_short_level m w
  | a_formatter => format_a t w
  | A_formatter => format_A t w
  | b_formatter => format_b t w
  | B_formatter => format_B t w
  | c_formatter => format_c t w
  | C_formatter => format_C t w
  | D_formatter => format_D t w
  | Y_formatter => format_Y t w
  | m_formatter => format_m t w
  | d_formatter => format_d t w
  | H_formatter => format_H t w
  | I_formatter => format_I t w
  | M_formatter => format_M t w
  | S_formatter => format_S t w
  | e_formatter => format_e m w
  | f_formatter => format_f m w
  | F_formatter => format_F m w
  | p_formatter => format_p t w
  | r_formatter => format_r t w
  | R_formatter => format_R t w
  | T_formatter => format_T t w
  | z_formatter => format_z t w
  | t_formatter => format_t m w
  | pid_formatter => format_pid w
  | v_formatter => format_v m w
  | ch_formatter ch => format_ch ch w
  | aggregate_formatter str => format_aggregate str w
  | full_formatter => format_full m t w
  end.

(** ** The pattern *)
Definition percent : ascii := "%"%char.
Definition flag_table : list (ascii * flag_formatter) :=
  [("n"%char, name_formatter); ("l"%char, level_formatter); ("L"%char, short_level_formatter);
   ("t"%char, t_formatter); ("v"%char, v_formatter); ("a"%char, a_formatter); ("A"%char, A_formatter);
   ("b"%char, b_formatter); ("h"%char, b_formatter); ("B"%char, B_formatter); ("c"%char, c_formatter);
   ("C"%char, C_formatter); ("Y"%char, Y_formatter); ("D"%char, D_formatter); ("x"%char, D_formatter);
   ("m"%char, m_formatter); ("d"%char, d_formatter); ("H"%char, H_formatter); ("I"%char, I_formatter);
   ("M"%char, M_formatter); ("S"%char, S_formatter); ("e"%char, e_formatter); ("f"%char, f_formatter);
   ("F"%char, F_formatter); ("p"%char, p_formatter); ("r"%char, r_formatter); ("R"%char, R_formatter);
   ("T"%char, T_formatter); ("X"%char, T_formatter); ("z"%char, z_formatter); ("+"%char, full_formatter);
   ("P"%char, pid_formatter)].
Fixpoint find_flag (flag : ascii) (table : list (ascii * flag_formatter)) : option flag_formatter :=
  match table with
  | [] => None
  | (c, f) :: table => if decide (c = flag) then Some f else find_flag flag table
  end.
Definition handle_flag (flag : ascii) (fs : list flag_formatter) : list flag_formatter :=
  match find_flag flag flag_table with
  | Some f => fs ++ [f]
  | None => fs ++ [ch_formatter percent] ++ [ch_formatter flag]
  end.

(** [if (user_chars) _formatters.push_back(std::move(user_chars))] *)
Definition push_user (user_chars : option bytes) (fs : list flag_formatter) : list flag_formatter :=
  match user_chars with Some s => fs ++ [aggregate_formatter s] | None => fs end.
Fixpoint compile_loop (pattern : bytes) (user_chars : option bytes) (fs : list flag_formatter) :
    list flag_formatter :=
  match pattern with
  | [] => push_user user_chars fs
  | c :: pattern =>
      if decide (c = percent) then
        let fs := push_user user_chars fs in
        match pattern with
        | [] => fs
        | flag :: pattern => compile_loop pattern None (handle_flag flag fs)
        end
      else compile_loop pattern (Some (default [] user_chars ++ [c])) fs
  end.
Definition compile_pattern (pattern : bytes) : list flag_formatter := compile_loop pattern None [].

(** [os::localtime]; [to_time_t] truncates to seconds. *)
Variable localtime : Z -> tm.
Definition to_time_t (time : Z) : Z := Z.quot time 1000000000.
Definition eol : bytes := [lf].

(** [pattern_formatter::format] *)
Fixpoint format_loop (fs : list flag_formatter) (m : log_msg) (t : tm) (w : bytes) : exc bytes :=
  match fs with
  | [] => Ok w
  | f :: fs => let! w := format_flag f m t w in format_loop fs m t w
  end.
Definition with_formatted (w : bytes) (m : log_msg) : log_msg :=
  LogMsg (msg_logger_name m) (msg_level m) (msg_time m) (msg_thread_id m) (raw m) w.
Definition format (fs : list flag_formatter) (m : log_msg) : exc log_msg :=
  let t := localtime (to_time_t (msg_time m)) in
  let! w := format_loop fs m t (formatted m) in
  Ok (with_formatted (w ++ eol) m).
End Format.
