(* ===== verification/PatternFormatterFacts.v ===== *)
(** * Log lines: the text of a pattern, and the time stamp read back

    The reference [flag_text] has its own names of days, months and levels and
    its own twelve-hour clock; the tables of the formatter are compared with
    them. *)
From S2P Require Import Prelude Cxx Fmt FmtFacts Logging PatternFormatter.

Open Scope Z_scope.

(** A calendar time in range, as [localtime_r] gives for the years 1900 to
    9999. *)
Record valid_tm (t : tm) : Prop := {
  v_sec : 0 <= tm_sec t <= 60; v_min : 0 <= tm_min t <= 59; v_hour : 0 <= tm_hour t <= 23;
  v_mday : 1 <= tm_mday t <= 31; v_mon : 0 <= tm_mon t <= 11; v_wday : 0 <= tm_wday t <= 6;
  v_year : 0 <= tm_year t <= 8099; v_gmtoff : -86400 < tm_gmtoff t < 86400
}.
(** A message after the epoch, before the clock wraps. *)
Record valid_msg (m : log_msg) : Prop := {
  v_time : 0 <= msg_time m <= llong_max; v_thread : 0 <= msg_thread_id m <= size_max
}.

(** A number with leading zeros up to a width. *)
Definition zeros (width : nat) (v : Z) : bytes :=
  repeat "0"%char (width - length (dec_nat v)) ++ dec_nat v.
Definition join2 (v1 v2 : Z) (sep : ascii) : bytes := zeros 2 v1 ++ [sep] ++ zeros 2 v2.
Definition join3 (v1 v2 v3 : Z) (sep : ascii) : bytes := join2 v1 v2 sep ++ [sep] ++ zeros 2 v3.

Section Text.
Variable pid : Z.

(** What each flag stands for. *)
Definition z_text (t : tm) : bytes :=
  let minutes := Z.abs (Z.quot (tm_gmtoff t) 60) in
  (if Z.quot (tm_gmtoff t) 60 <? 0 then !"-" else !"+") ++ join2 (minutes / 60) (minutes mod 60) ":"%char.
Definition stamp (m : log_msg) (t : tm) : bytes :=
  !"[" ++ dec_nat (tm_year t + 1900) ++ !"-" ++ join2 (tm_mon t + 1) (tm_mday t) "-"%char ++ !" "
  ++ join3 (tm_hour t) (tm_min t) (tm_sec t) ":"%char ++ !"."
  ++ zeros 3 (msg_time m / 1000000 mod 1000) ++ !"] ".
Definition text_of (f : flag_formatter) (m : log_msg) (t : tm) : bytes :=
  match f with
  | name_formatter => msg_logger_name m
  | level_formatter => to_str (msg_level m)
  | short_level_formatter => to_short_str (msg_level m)
  | a_formatter => at_index days (tm_wday t)
  | A_formatter => at_index full_days (tm_wday t)
  | b_formatter => at_index months (tm_mon t)
  | B_formatter => at_index full_months (tm_mon t)
  | c_formatter =>
      at_index days (tm_wday t) ++ !" " ++ at_index months (tm_mon t) ++ !" " ++ dec_nat (tm_mday t)
      ++ !" " ++ join3 (tm_hour t) (tm_min t) (tm_sec t) ":"%char ++ !" " ++ dec_nat (tm_year t + 1900)
  | C_formatter => zeros 2 (tm_year t mod 100)
  | D_formatter => join3 (tm_mon t + 1) (tm_mday t) (tm_year t mod 100) "/"%char
  | Y_formatter => dec_nat (tm_year t + 1900)
  | m_formatter => zeros 2 (tm_mon t + 1)
  | d_formatter => zeros 2 (tm_mday t)
  | H_formatter => zeros 2 (tm_hour t)
  | I_formatter => zeros 2 (to12h t)
  | M_formatter => zeros 2 (tm_min t)
  | S_formatter => zeros 2 (tm_sec t)
  | e_formatter => zeros 3 (msg_time m / 1000000 mod 1000)
  | f_formatter => zeros 6 (msg_time m / 1000 mod 1000000)
  | F_formatter => zeros 9 (msg_time m mod 1000000000)
  | p_formatter => ampm t
  | r_formatter => join3 (to12h t) (tm_min t) (tm_sec t) ":"%char ++ !" " ++ ampm t
  | R_formatter => join2 (tm_hour t) (tm_min t) ":"%char
  | T_formatter => join3 (tm_hour t) (tm_min t) (tm_sec t) ":"%char
  | z_formatter => z_text t
  | t_formatter => dec_nat (msg_thread_id m)
  | pid_formatter => dec_nat pid
  | v_formatter => raw m
  | ch_formatter ch => [ch]
  | aggregate_formatter str => str
  | full_formatter =>
      stamp m t ++ !"[" ++ msg_logger_name m ++ !"] [" ++ to_str (msg_level m) ++ !"] " ++ raw m
  end.

(** *** The reference: what a flag stands for, from the calendar alone

    The names of days and months, the clock of twelve hours and the names of
    the levels are given again here, so that the tables of the code are
    checked and not repeated. *)
Definition weekday (i : Z) : bytes :=
  match i with
  | 0 => !"Sunday" | 1 => !"Monday" | 2 => !"Tuesday" | 3 => !"Wednesday" | 4 => !"Thursday"
  | 5 => !"Friday" | _ => !"Saturday"
  end.
Definition month (i : Z) : bytes :=
  match i with
  | 1 => !"January" | 2 => !"February" | 3 => !"March" | 4 => !"April" | 5 => !"May" | 6 => !"June"
  | 7 => !"July" | 8 => !"August" | 9 => !"September" | 10 => !"October" | 11 => !"November"
  | _ => !"December"
  end.
(** Three letters, four for June, July and September. *)
Definition short_month (i : Z) : bytes :=
  take (if (i =? 6) || (i =? 7) || (i =? 9) then 4 else 3) (month i).
(** The hour of a clock face, and which half of the day it is; midnight is
    printed as hour 00, where a clock face shows 12. *)
Definition face_hour (hour : Z) : Z := if hour =? 0 then 0 else (hour - 1) mod 12 + 1.
Definition half_day (hour : Z) : bytes := if hour / 12 =? 0 then !"AM" else !"PM".
Definition level_name (l : level_enum) : bytes :=
  match l with
  | trace => !"trace" | debug => !"debug" | info => !"info" | warn => !"warning" | err => !"error"
  | critical => !"critical" | off => !"off"
  end.
Definition level_letter (l : level_enum) : bytes :=
  match l with
  | trace => !"T" | debug => !"D" | info => !"I" | warn => !"W" | err => !"E" | critical => !"C" | off => !"O"
  end.
Definition flag_text (flag : ascii) (m : log_msg) (t : tm) : bytes :=
  let clock := join3 (tm_hour t) (tm_min t) (tm_sec t) ":" in
  let date := join3 (tm_mon t + 1) (tm_mday t) (tm_year t mod 100) "/" in
  (match flag with
   | "n" => msg_logger_name m
   | "l" => level_name (msg_level m)
   | "L" => level_letter (msg_level m)
   | "t" => dec_nat (msg_thread_id m)
   | "P" => dec_nat pid
   | "v" => raw m
   | "a" => take 3 (weekday (tm_wday t))
   | "A" => weekday (tm_wday t)
   | "b" | "h" => short_month (tm_mon t + 1)
   | "B" => month (tm_mon t + 1)
   | "c" => take 3 (weekday (tm_wday t)) ++ !" " ++ short_month (tm_mon t + 1) ++ !" " ++ dec_nat (tm_mday t)
            ++ !" " ++ clock ++ !" " ++ dec_nat (tm_year t + 1900)
   | "C" => zeros 2 (tm_year t mod 100)
   | "Y" => dec_nat (tm_year t + 1900)
   | "D" | "x" => date
   | "m" => zeros 2 (tm_mon t + 1)
   | "d" => zeros 2 (tm_mday t)
   | "H" => zeros 2 (tm_hour t)
   | "I" => zeros 2 (face_hour (tm_hour t))
   | "M" => zeros 2 (tm_min t)
   | "S" => zeros 2 (tm_sec t)
   | "e" => zeros 3 (msg_time m / 1000000 mod 1000)
   | "f" => zeros 6 (msg_time m / 1000 mod 1000000)
   | "F" => zeros 9 (msg_time m mod 1000000000)
   | "p" => half_day (tm_hour t)
   | "r" => join3 (face_hour (tm_hour t)) (tm_min t) (tm_sec t) ":" ++ !" " ++ half_day (tm_hour t)
   | "R" => join2 (tm_hour t) (tm_min t) ":"
   | "T" | "X" => clock
   | "z" => z_text t
   | "+" => stamp m t ++ !"[" ++ msg_logger_name m ++ !"] [" ++ level_name (msg_level m) ++ !"] " ++ raw m
   | _ => !"%" ++ [flag]
   end)%char.
(** The text of a pattern: a percent sign at its very end is dropped. *)
Fixpoint pattern_text (pattern : bytes) (m : log_msg) (t : tm) : bytes :=
  match pattern with
  | [] => []
  | c :: pattern =>
      if decide (c = "%"%char) then
        match pattern with
        | [] => []
        | flag :: pattern => flag_text flag m t ++ pattern_text pattern m t
        end
      else c :: pattern_text pattern m t
  end.
Definition texts (fs : list flag_formatter) (m : log_msg) (t : tm) : bytes :=
  concat ((fun f => text_of f m t) <$> fs).

Lemma texts_app fs gs m t : texts (fs ++ gs) m t = texts fs m t ++ texts gs m t.
Proof. unfold texts. by rewrite fmap_app, concat_app. Qed.
Lemma texts_push_user user fs m t : texts (push_user user fs) m t = texts fs m t ++ default [] user.
Proof. destruct user; simpl; rewrite ?texts_app; unfold texts; simpl; by rewrite ?app_nil_r. Qed.
(** The tables of the code agree with the reference. *)
Lemma day_names i : 0 <= i <= 6 -> at_index full_days i = weekday i /\ at_index days i = take 3 (weekday i).
Proof.
  intros Hi. assert (Hc : i = 0 \/ i = 1 \/ i = 2 \/ i = 3 \/ i = 4 \/ i = 5 \/ i = 6) by lia.
  by destruct_or! Hc; subst.
Qed.
Lemma month_names i :
  0 <= i <= 11 -> at_index full_months i = month (i + 1) /\ at_index months i = short_month (i + 1).
Proof.
  intros Hi. assert (Hc : i = 0 \/ i = 1 \/ i = 2 \/ i = 3 \/ i = 4 \/ i = 5 \/ i = 6 \/ i = 7 \/ i = 8
    \/ i = 9 \/ i = 10 \/ i = 11) by lia.
  by destruct_or! Hc; subst.
Qed.
Lemma clock_face t : 0 <= tm_hour t <= 23 -> to12h t = face_hour (tm_hour t) /\ ampm t = half_day (tm_hour t).
Proof.
  intros Hh. unfold to12h, face_hour, ampm, half_day. split.
  - destruct (Z.ltb_spec 12 (tm_hour t)), (Z.eqb_spec (tm_hour t) 0); try lia; Z.to_euclidean_division_equations; lia.
  - destruct (Z.leb_spec 12 (tm_hour t)), (Z.eqb_spec (tm_hour t / 12) 0); try done;
      Z.to_euclidean_division_equations; lia.
Qed.
Lemma level_texts l : to_str l = level_name l /\ to_short_str l = level_letter l.
Proof. by destruct l. Qed.
Lemma find_flag_text flag m t :
  valid_tm t ->
  match find_flag flag flag_table with Some f => text_of f m t | None => [percent; flag] end = flag_text flag m t.
Proof.
  intros []. destruct (day_names (tm_wday t)) as [Hd1 Hd2]; [done|]. destruct (month_names (tm_mon t)) as [Hm1 Hm2]; [done|].
  destruct (clock_face t) as [Hh1 Hh2]; [done|]. destruct (level_texts (msg_level m)) as [Hl1 Hl2].
  unfold flag_table. cbn [find_flag].
  repeat (case_decide; [subst flag; cbn [text_of]; unfold flag_text; rewrite ?Hd1, ?Hd2, ?Hm1, ?Hm2, ?Hh1, ?Hh2, ?Hl1, ?Hl2; reflexivity|]).
  destruct flag as [[] [] [] [] [] [] [] []]; first [reflexivity|congruence].
Qed.
Lemma texts_handle_flag flag fs m t :
  valid_tm t -> texts (handle_flag flag fs) m t = texts fs m t ++ flag_text flag m t.
Proof.
  intros Ht. rewrite <- find_flag_text by done. unfold handle_flag.
  destruct (find_flag flag flag_table); rewrite texts_app; unfold texts; simpl; by rewrite ?app_nil_r.
Qed.
Lemma compile_loop_text n pattern user fs m t :
  valid_tm t -> (length pattern <= n)%nat ->
  texts (compile_loop pattern user fs) m t
  = texts fs m t ++ default [] user ++ pattern_text pattern m t.
Proof.
  intros Ht. revert pattern user fs; induction n as [|n IH]; intros pattern user fs Hn;
    (destruct pattern as [|c pattern]; [simpl; by rewrite texts_push_user, app_nil_r|simpl in Hn; try lia]).
  cbn [compile_loop pattern_text]. unfold percent. case_decide.
  - destruct pattern as [|flag pattern]; [by rewrite texts_push_user, app_nil_r|]. simpl in Hn.
    rewrite IH, texts_handle_flag, texts_push_user by (done || lia). simpl. by rewrite <- !app_assoc.
  - rewrite IH by lia. simpl. by rewrite <- !app_assoc.
Qed.
End Text.

(** ** The writes *)
Section Writes.
Variable junk : ascii.
Variable pid : Z.
Hypothesis pid_ok : 0 <= pid <= int_max.

Lemma sign_prefix_plain v s : 0 <= v -> flag s SIGN_FLAG = false -> sign_prefix v s = [].
Proof. intros Hv Hs. unfold sign_prefix. rewrite Hs. by destruct (v <? 0) eqn:?; bool_to_prop; [lia|]. Qed.
Lemma write_unsigned_text w v b :
  w = 32 \/ w = 64 -> 0 <= v < 2 ^ w -> write_int junk not_asked w [] v (TypeSpec nul) b = Ok (b ++ dec_nat v).
Proof.
  intros Hw Hv. assert (0 < 2 ^ (w - 1)) by (apply Z.pow_pos_nonneg; lia).
  rewrite write_int_decimal, sign_prefix_plain by (done || lia). simpl. by rewrite Z.abs_eq by lia.
Qed.
Lemma pad_text_ok v width w : 0 <= v <= int_max -> pad junk v width w = Ok (w ++ zeros width v).
Proof.
  unfold int_max. intros Hv. unfold pad.
  rewrite write_int_decimal, sign_prefix_plain by (done || lia || (by left)).
  cbn [render precision]. rewrite (proj2 (Z.ltb_ge _ _)) by (unfold len; lia).
  unfold pad_text, zeros. simpl. by rewrite Z.abs_eq by lia.
Qed.
Lemma pad_unsigned_ok v width w : 0 <= v <= int_max -> pad_unsigned junk v width w = Ok (w ++ zeros width v).
Proof.
  intros Hv. unfold pad_unsigned, u32. unfold int_max in Hv. rewrite wrap_u_id by lia.
  by apply (pad_text_ok v).
Qed.
Lemma put_int_text v w : 0 <= v <= int_max -> put_int junk v w = w ++ dec_nat v.
Proof.
  unfold int_max. intros Hv. unfold put_int. rewrite write_decimal_spec by (lia || (by left)).
  unfold dec. by destruct (v <? 0) eqn:?; bool_to_prop; [lia|].
Qed.
Lemma pad_n_join2_text v1 v2 sep w :
  0 <= v1 <= int_max -> 0 <= v2 <= int_max -> pad_n_join2 junk v1 v2 sep w = Ok (w ++ join2 v1 v2 sep).
Proof.
  intros. unfold pad_n_join2, join2. rewrite pad_text_ok by done. cbn [exc_bind]. rewrite pad_text_ok by done.
  by rewrite <- !app_assoc.
Qed.
Lemma pad_n_join3_text v1 v2 v3 sep w :
  0 <= v1 <= int_max -> 0 <= v2 <= int_max -> 0 <= v3 <= int_max ->
  pad_n_join3 junk v1 v2 v3 sep w = Ok (w ++ join3 v1 v2 v3 sep).
Proof.
  intros. unfold pad_n_join3, join3, join2. rewrite pad_text_ok by done. cbn [exc_bind].
  rewrite pad_text_ok by done. cbn [exc_bind]. rewrite pad_text_ok by done. by rewrite <- !app_assoc.
Qed.
Lemma subsecond_text unit n time :
  0 <= time -> 0 < unit -> 0 < n <= int_max -> subsecond unit n time = time / unit mod n.
Proof.
  unfold int_max. intros Ht Hu Hn. unfold subsecond. rewrite Z.quot_div_nonneg by lia.
  pose proof (Z.div_pos time unit Ht Hu). rewrite Z.rem_mod_nonneg by lia.
  pose proof (Z.mod_pos_bound (time / unit) n). apply i32_id. unfold int_min, int_max. lia.
Qed.
Lemma subsecond_range unit n time : 0 < n <= int_max -> 0 <= time / unit mod n <= int_max.
Proof. intros. pose proof (Z.mod_pos_bound (time / unit) n). lia. Qed.

Lemma format_z_text t w : valid_tm t -> format_z junk t w = Ok (w ++ z_text t).
Proof.
  intros []. unfold format_z, z_text, utc_minutes_offset.
  assert (Hq : -1440 < Z.quot (tm_gmtoff t) 60 < 1440) by (Z.to_euclidean_division_equations; lia).
  rewrite i32_id by (unfold int_min, int_max; lia). set (q := Z.quot (tm_gmtoff t) 60) in *.
  assert (Hd : 0 <= Z.abs q / 60 <= int_max) by (unfold int_max; Z.to_euclidean_division_equations; lia).
  assert (Hr : 0 <= Z.abs q mod 60 <= int_max) by (unfold int_max; Z.to_euclidean_division_equations; lia).
  assert (Habs : (if q <? 0 then i32 (- q) else q) = Z.abs q).
  { destruct (q <? 0) eqn:?; bool_to_prop; [rewrite i32_id by (unfold int_min, int_max; lia)|]; lia. }
  rewrite Habs, Z.quot_div_nonneg, Z.rem_mod_nonneg by lia.
  rewrite pad_n_join2_text by done. rewrite <- app_assoc. by destruct (q <? 0).
Qed.
Lemma bind_ok {A B} (a : A) (f : A -> exc B) : exc_bind (Ok a) f = f a.
Proof. done. Qed.
Lemma format_full_text m t w :
  valid_tm t -> valid_msg m -> format_full junk m t w = Ok (w ++ text_of pid full_formatter m t).
Proof.
  intros [] []. unfold format_full. rewrite Z.quot_div_nonneg by lia.
  pose proof (Z.div_pos (msg_time m) 1000000). rewrite Z.rem_mod_nonneg by lia.
  pose proof (subsecond_range 1000000 1000 (msg_time m) ltac:(unfold int_max; lia)).
  unfold u32 at 1. rewrite wrap_u_id by lia.
  rewrite write_unsigned_text, bind_ok by (lia || (by left)). cbn beta.
  repeat (rewrite pad_unsigned_ok, bind_ok by (done || unfold int_max; lia); cbn beta).
  unfold text_of, stamp, join3, join2. f_equal. rewrite <- !app_assoc. done.
Qed.

#[local] Opaque pad pad_n_join2 pad_n_join3 put_int write_int format_z format_full zeros join2 join3.
Lemma format_flag_text f m t w :
  valid_tm t -> valid_msg m -> format_flag junk pid f m t w = Ok (w ++ text_of pid f m t).
Proof.
  intros Ht Hm. pose proof Ht as []. pose proof Hm as [].
  assert (H12 : 0 <= to12h t <= int_max) by (unfold to12h, int_max; case_match; bool_to_prop; lia).
  assert (Hrem : Z.rem (tm_year t) 100 = tm_year t mod 100) by (apply Z.rem_mod_nonneg; lia).
  assert (Hmod : 0 <= tm_year t mod 100 <= int_max)
    by (pose proof (Z.mod_pos_bound (tm_year t) 100); unfold int_max; lia).
  destruct f; cbn [format_flag text_of];
    unfold format_name, format_level, format_short_level, format_a, format_A, format_b, format_B,
      format_c, format_C, format_D, format_Y, format_m, format_d, format_H, format_I, format_M,
      format_S, format_e, format_f, format_F, format_p, format_r, format_R, format_T, format_t,
      format_pid, format_v, format_ch, format_aggregate; rewrite ?Hrem;
    rewrite ?subsecond_text, ?Z.div_1_r by (done || unfold int_max; lia);
    try (apply pad_text_ok; first [done|by apply subsecond_range|unfold int_max; lia]);
    try (apply pad_n_join3_text; first [done|unfold int_max; lia]);
    try (apply pad_n_join2_text; first [done|unfold int_max; lia]);
    try (rewrite put_int_text by (done || unfold int_max; lia)); try done.
  - rewrite pad_n_join3_text by (unfold int_max; lia). cbn [exc_bind].
    rewrite put_int_text by (unfold int_max; lia). by rewrite <- !app_assoc.
  - apply pad_text_ok. pose proof (Z.mod_pos_bound (msg_time m) 1000000000). unfold int_max. lia.
  - rewrite pad_n_join3_text by (done || unfold int_max; lia). cbn [exc_bind]. by rewrite <- !app_assoc.
  - by apply format_z_text.
  - unfold size_max in *. rewrite write_unsigned_text by (lia || (by right)). done.
  - by apply format_full_text.
Qed.
Lemma format_loop_text fs m t w :
  valid_tm t -> valid_msg m -> format_loop junk pid fs m t w = Ok (w ++ texts pid fs m t).
Proof.
  intros Ht Hm. revert w; induction fs as [|f fs IH]; intros w; cbn [format_loop].
  - by rewrite app_nil_r.
  - rewrite format_flag_text by done. cbn [exc_bind]. rewrite IH. unfold texts. simpl.
    by rewrite app_assoc.
Qed.

(** (C33) What a log line says.  For every pattern, a message of valid time
    formatted with the compiled pattern gets exactly the pattern's text and
    one line feed: each flag replaced by its field of the calendar, the clock
    or the message, as the reference [flag_text] says with names and a clock
    of its own, every other character as it is, an unknown flag with its
    percent sign; no exception leaves the formatter.  The hour of midnight is
    00 in the twelve-hour formats, as the code prints it. *)
Theorem pattern_formats localtime pattern m :
  valid_tm (localtime (to_time_t (msg_time m))) -> valid_msg m ->
  format junk pid localtime (compile_pattern pattern) m
  = Ok (with_formatted
          (formatted m ++ pattern_text pid pattern m (localtime (to_time_t (msg_time m))) ++ [lf]) m).
Proof.
  intros Ht Hm. unfold format, compile_pattern. rewrite format_loop_text by done. cbn [exc_bind].
  rewrite (compile_loop_text pid (length pattern)) by done.
  unfold eol. by rewrite <- app_assoc.
Qed.
End Writes.

(** ** The time stamp read back *)

(** The decimal number at a given column. *)
Definition field (pos width : nat) (line : bytes) : option Z := parse_digits (take width (drop pos line)).
Definition parse_stamp (line : bytes) : option (list Z) :=
  mapM (fun '(pos, width) => field pos width line)
    [(1, 4); (6, 2); (9, 2); (12, 2); (15, 2); (18, 2); (21, 3)]%nat.

#[local] Transparent zeros join2 join3.
Lemma zeros_length width v : (length (dec_nat v) <= width)%nat -> length (zeros width v) = width.
Proof. intros. unfold zeros. rewrite length_app, repeat_length. lia. Qed.
Lemma dec_nat_length_le n k : 0 <= n < 10 ^ Z.of_nat (S k) -> (length (dec_nat n) <= S k)%nat.
Proof.
  revert n; induction k as [|k IH]; intros n Hn.
  - by rewrite dec_nat_small by (simpl in Hn; lia).
  - destruct (decide (n < 10)); [rewrite dec_nat_small by done; simpl; lia|].
    rewrite dec_nat_step, length_app by lia. rewrite (Nat2Z.inj_succ (S k)), Z.pow_succ_r in Hn by lia.
    assert (length (dec_nat (n / 10)) <= S k)%nat; [|simpl; lia].
    apply IH. split; [apply Z.div_pos; lia|apply Z.div_lt_upper_bound; lia].
Qed.
Lemma parse_zeros width v : 0 <= v -> parse_digits (zeros width v) = Some v.
Proof.
  intros Hv. unfold zeros. induction (width - length (dec_nat v))%nat as [|n IH]; [by apply parse_digits_dec|].
  simpl in *. f_equal. unfold parse_digits in IH.
  destruct (repeat "0"%char n ++ dec_nat v) as [|c l]; [done|].
  destruct (digit_val c); [|done]. injection IH as IH. exact IH.
Qed.
Lemma parse_columns y mo d h mi sec ms rest :
  length y = 4%nat -> Forall (fun f => length f = 2%nat) [mo; d; h; mi; sec] -> length ms = 3%nat ->
  parse_stamp (!"[" ++ y ++ !"-" ++ mo ++ !"-" ++ d ++ !" " ++ h ++ !":" ++ mi ++ !":" ++ sec ++ !"."
               ++ ms ++ rest)
  = mapM parse_digits [y; mo; d; h; mi; sec; ms].
Proof.
  intros Hy H2 Hms. repeat (apply Forall_cons in H2 as [? H2]).
  destruct y as [|? [|? [|? [|? [|]]]]]; try done. destruct ms as [|? [|? [|? [|]]]]; try done.
  repeat match goal with
  | H : length ?l = 2%nat |- _ => destruct l as [|? [|? [|]]]; try done; clear H
  end.
Qed.

(** The time stamp of a log line can be read back: from the line of
    the default pattern, year (four digits), month, day, hour, minute, second
    and millisecond are found at fixed columns, whatever the name and the
    text of the message are. *)
Theorem stamp_roundtrip pid m t :
  valid_tm t -> 0 <= msg_time m ->
  parse_stamp (text_of pid full_formatter m t)
  = Some [tm_year t + 1900; tm_mon t + 1; tm_mday t; tm_hour t; tm_min t; tm_sec t;
          msg_time m / 1000000 mod 1000].
Proof.
  intros [] Hm. cbn [text_of]. unfold stamp, join3, join2.
  pose proof (Z.mod_pos_bound (msg_time m / 1000000) 1000).
  assert (Hy : length (dec_nat (tm_year t + 1900)) = 4%nat) by (apply dec_nat_length; [simpl; lia|right; simpl; lia]).
  assert (H2 : forall v, 0 <= v < 100 -> length (zeros 2 v) = 2%nat)
    by (intros; by apply zeros_length, dec_nat_length_le).
  assert (H3 : forall v, 0 <= v < 1000 -> length (zeros 3 v) = 3%nat)
    by (intros; by apply zeros_length, dec_nat_length_le).
  rewrite <- !app_assoc. etrans.
  - refine (parse_columns (dec_nat (tm_year t + 1900)) (zeros 2 (tm_mon t + 1)) (zeros 2 (tm_mday t))
      (zeros 2 (tm_hour t)) (zeros 2 (tm_min t)) (zeros 2 (tm_sec t)) (zeros 3 _) _ Hy _ _);
      [repeat (apply Forall_cons_2; [apply H2; lia|]); apply Forall_nil_2|apply H3; lia].
  - cbn [mapM]. rewrite parse_digits_dec, !parse_zeros by lia. done.
Qed.

(** ** A message of 31 December 2016, one second before the new year *)
Definition new_year : tm := Tm 59 59 23 31 11 116 6 (-18000).
Definition hello : log_msg := LogMsg !"main" warn 1483246799042000000 7 !"hello %" [].
Lemma new_year_ok : valid_tm new_year.
Proof. split; simpl; lia. Qed.
Lemma pattern_formats_witness :
  format nul 4242 (fun _ => new_year) (compile_pattern !"%+|%I %p%z [%P:%t] 100%% %") hello
  = Ok (with_formatted
          (!"[2016-12-31 23:59:59.042] [main] [warning] hello %|11 PM-05:00 [4242:7] 100%% " ++ [lf]) hello).
Proof.
  rewrite (pattern_formats nul 4242 ltac:(split; discriminate) (fun _ => new_year)
    !"%+|%I %p%z [%P:%t] 100%% %" hello new_year_ok ltac:(split; vm_compute; split; discriminate)).
  vm_compute. reflexivity.
Defined.
Lemma stamp_roundtrip_witness :
  text_of 4242 full_formatter hello new_year = !"[2016-12-31 23:59:59.042] [main] [warning] hello %"
  /\ parse_stamp (text_of 4242 full_formatter hello new_year) = Some [2016; 12; 31; 23; 59; 59; 42].
Proof.
  split; [vm_compute; reflexivity|].
  rewrite (stamp_roundtrip 4242 hello new_year new_year_ok ltac:(vm_compute; discriminate)).
  vm_compute. reflexivity.
Defined.
