(* ===== verification/Platform.v ===== *)
(** * The platform layer, [src/src/spdlog/details/os.h]

    What the wrappers of system calls do beside the call: comparing broken-down
    times, the offset from UTC computed from a local and a UTC time where
    [struct tm] has no [tm_gmtoff], close-on-exec, the text of an error number
    and the cached thread id.  The system calls are parameters.  (The file
    functions are in [FileSinks], the offset read from [tm_gmtoff] in
    [PatternFormatter].) *)
From S2P Require Import Prelude Cxx Store.

Open Scope Z_scope.

(** ** Broken-down times *)
Record os_tm := OsTm {
  sec : Z; min : Z; hour : Z; mday : Z; mon : Z; year : Z; yday : Z; isdst : Z
}.
(** [operator==] and [operator!=] *)
Definition tm_eq (tm1 tm2 : os_tm) : bool :=
  (sec tm1 =? sec tm2) && (min tm1 =? min tm2) && (hour tm1 =? hour tm2) && (mday tm1 =? mday tm2)
  && (mon tm1 =? mon tm2) && (year tm1 =? year tm2) && (isdst tm1 =? isdst tm2).
Definition tm_ne (tm1 tm2 : os_tm) : bool := negb (tm_eq tm1 tm2).

(** ** The offset from UTC *)

(** Signed arithmetic: [None] is an overflow, which is undefined behaviour. *)
Definition in_int (z : Z) : option Z := if (int_min <=? z) && (z <=? int_max) then Some z else None.
Definition in_long (long_bits z : Z) : option Z :=
  if (- 2 ^ (long_bits - 1) <=? z) && (z <? 2 ^ (long_bits - 1)) then Some z else None.

(** [helper::calculate_gmt_offset], in seconds; [/] truncates.  The years and
    the differences of members are [int], the rest is [long]. *)
Definition calculate_gmt_offset (long_bits : Z) (localtm gmtm : os_tm) : option Z :=
  let in_long := in_long long_bits in
  local_year ← in_int (year localtm + (1900 - 1));
  gmt_year ← in_int (year gmtm + (1900 - 1));
  day_of_year ← in_int (yday localtm - yday gmtm);
  fours ← in_int (Z.shiftr local_year 2 - Z.shiftr gmt_year 2);
  days1 ← in_int (day_of_year + fours);
  centuries ← in_int (Z.quot local_year 100 - Z.quot gmt_year 100);
  days2 ← in_int (days1 - centuries);
  leap_centuries ← in_int (Z.shiftr (Z.quot local_year 100) 2 - Z.shiftr (Z.quot gmt_year 100) 2);
  days3 ← in_int (days2 + leap_centuries);
  years ← in_int (local_year - gmt_year);
  year_days ← in_long (years * 365);
  days ← in_long (days3 + year_days);
  hour_diff ← in_int (hour localtm - hour gmtm);
  hours1 ← in_long (24 * days);
  hours ← in_long (hours1 + hour_diff);
  min_diff ← in_int (min localtm - min gmtm);
  mins1 ← in_long (60 * hours);
  mins ← in_long (mins1 + min_diff);
  sec_diff ← in_int (sec localtm - sec gmtm);
  secs1 ← in_long (60 * mins);
  in_long (secs1 + sec_diff).
(** [utc_minutes_offset] of a system without [tm_gmtoff]; [gmtime] is the UTC
    time of the moment. *)
Definition utc_minutes_offset_sun (long_bits : Z) (gmtime tm : os_tm) : option Z :=
  offset_seconds ← calculate_gmt_offset long_bits tm gmtime;
  Some (i32 (Z.quot offset_seconds 60)).

(** *** The calendar *)
Definition leap (y : Z) : bool := (y mod 4 =? 0) && (negb (y mod 100 =? 0) || (y mod 400 =? 0)).
Definition year_length (y : Z) : Z := if leap y then 366 else 365.
(** The days of the years 1 to [n]. *)
Fixpoint days_of_years (n : nat) : Z :=
  match n with O => 0 | S n' => days_of_years n' + year_length (Z.of_nat n) end.
(** The seconds from the first of January of the year 1 on. *)
Definition civil_seconds (t : os_tm) : Z :=
  (((days_of_years (Z.to_nat (year t + 1899)) + yday t) * 24 + hour t) * 60 + min t) * 60 + sec t.

Lemma days_of_years_closed n :
  days_of_years n = 365 * Z.of_nat n + Z.of_nat n / 4 - Z.of_nat n / 100 + Z.of_nat n / 100 / 4.
Proof.
  induction n as [|n IH]; [done|]. cbn [days_of_years]. rewrite IH. clear IH.
  unfold year_length, leap. rewrite !Z.div_div, Nat2Z.inj_succ by lia. change (100 * 4) with 400.
  set (z := Z.of_nat n). assert (0 <= z) by lia. clearbody z. unfold Z.succ.
  destruct ((z + 1) mod 4 =? 0) eqn:E4, ((z + 1) mod 100 =? 0) eqn:E100, ((z + 1) mod 400 =? 0) eqn:E400;
    bool_to_prop; cbn [andb orb negb]; Z.to_euclidean_division_equations; lia.
Qed.
(** The members [localtime] and [gmtime] give, in a year the code can add
    1899 to. *)
Record civil_tm (t : os_tm) : Prop := {
  c_sec : 0 <= sec t <= 60; c_min : 0 <= min t <= 59; c_hour : 0 <= hour t <= 23; c_yday : 0 <= yday t <= 365;
  c_year : -1899 <= year t <= int_max - 1899
}.
(** [long] has 64 bits, or 32 and the years are near. *)
Definition near (long_bits : Z) (localtm gmtm : os_tm) : Prop :=
  long_bits = 64 \/ long_bits = 32 /\ Z.abs (year localtm - year gmtm) <= 60.

Lemma in_int_ok z : int_min <= z <= int_max -> in_int z = Some z.
Proof. intros []. unfold in_int. by rewrite !(proj2 (Z.leb_le _ _)). Qed.
Lemma in_long_ok long_bits z : - 2 ^ (long_bits - 1) <= z < 2 ^ (long_bits - 1) -> in_long long_bits z = Some z.
Proof. intros []. unfold in_long. by rewrite (proj2 (Z.leb_le _ _)), (proj2 (Z.ltb_lt _ _)). Qed.
(** Behind the years: what remains of the computation, in exact numbers. *)
Definition leap_days (y : Z) : Z := y / 4 - y / 100 + y / 100 / 4.
Lemma leap_days_diff y1 y2 : y2 <= y1 -> 0 <= leap_days y1 - leap_days y2 <= y1 - y2.
Proof. unfold leap_days. intros. Z.to_euclidean_division_equations; lia. Qed.
Lemma civil_seconds_closed t :
  -1899 <= year t ->
  civil_seconds t
  = (((365 * (year t + 1899) + leap_days (year t + 1899) + yday t) * 24 + hour t) * 60 + min t) * 60 + sec t.
Proof.
  intros Hy. unfold civil_seconds, leap_days. rewrite days_of_years_closed, Z2Nat.id by lia. lia.
Qed.

(** (C40) The offset from UTC.  On a system whose [struct tm] does not tell it,
    the offset computed from the local and the UTC time of one moment is the
    difference of the two times on the civil calendar, in seconds, for every
    pair of dates from the year 1 to the last year whose number plus 1899 is
    an [int]: leap years, the centuries and a change of the year between the
    two included; no [int] and no [long] overflows on the way, where [long]
    has 64 bits, or has 32 and the years are at most 60 apart. *)
Theorem gmt_offset_civil long_bits localtm gmtm :
  civil_tm localtm -> civil_tm gmtm -> near long_bits localtm gmtm ->
  calculate_gmt_offset long_bits localtm gmtm = Some (civil_seconds localtm - civil_seconds gmtm).
Proof.
  intros [Hs1 Hm1 Hh1 Hd1 Hy1] [Hs2 Hm2 Hh2 Hd2 Hy2] Hn. rewrite !civil_seconds_closed by lia.
  unfold calculate_gmt_offset. change (1900 - 1) with 1899.
  assert (Hn' : long_bits = 64 \/ long_bits = 32 /\ Z.abs ((year localtm + 1899) - (year gmtm + 1899)) <= 60)
    by (destruct Hn as [|[]]; [by left|right; split; [done|lia]]). clear Hn.
  set (y1 := year localtm + 1899) in *. set (y2 := year gmtm + 1899) in *.
  assert (Hr1 : 0 <= y1 <= int_max) by lia. assert (Hr2 : 0 <= y2 <= int_max) by lia. clearbody y1 y2. clear Hy1 Hy2.
  assert (Hl : Z.abs (leap_days y1 - leap_days y2) <= Z.abs (y1 - y2))
    by (destruct (Z.le_ge_cases y1 y2); [pose proof (leap_days_diff y2 y1)|pose proof (leap_days_diff y1 y2)]; lia).
  unfold leap_days in *.
  assert (Hq : forall y, 0 <= y <= int_max -> 0 <= y / 4 <= 536870911 /\ 0 <= y / 100 <= 21474836 /\ 0 <= y / 100 / 4 <= 5368709)
    by (intros y; unfold int_max; Z.to_euclidean_division_equations; lia).
  pose proof (Hq y1 Hr1) as (? & ? & ?). pose proof (Hq y2 Hr2) as (? & ? & ?). clear Hq.
  unfold int_max in *.
  repeat (rewrite in_int_ok by (unfold int_min, int_max; lia); cbn [mbind option_bind]);
    rewrite ?Z.shiftr_div_pow2, ?Z.quot_div_nonneg by lia; change (2 ^ 2) with 4.
  generalize dependent (y1 / 100 / 4). generalize dependent (y2 / 100 / 4). generalize dependent (y1 / 100).
  generalize dependent (y2 / 100). generalize dependent (y1 / 4). generalize dependent (y2 / 4). intros.
  destruct Hn' as [-> | [-> Hn]];
    repeat (first [rewrite in_int_ok by (unfold int_min, int_max; lia)
                  |rewrite in_long_ok by (cbn -[Z.mul Z.add Z.sub]; lia)]; cbn [mbind option_bind]); f_equal; lia.
Qed.
(** The end of the leap year 2000, nine hours east of Greenwich. *)
Lemma gmt_offset_civil_witness :
  calculate_gmt_offset 32 (OsTm 0 30 8 1 0 101 0 0) (OsTm 0 30 23 31 11 100 365 0) = Some (9 * 3600)
  /\ civil_seconds (OsTm 0 30 8 1 0 101 0 0) - civil_seconds (OsTm 0 30 23 31 11 100 365 0) = 9 * 3600.
Proof.
  rewrite (gmt_offset_civil 32 (OsTm 0 30 8 1 0 101 0 0) (OsTm 0 30 23 31 11 100 365 0));
    [|split; vm_compute; split; discriminate|split; vm_compute; split; discriminate|right; split; [done|vm_compute; discriminate]].
  split; vm_compute; reflexivity.
Defined.
(** Outside of that range something overflows: the year, or [long]. *)
Example gmt_offset_overflows :
  calculate_gmt_offset 64 (OsTm 0 0 0 1 0 (int_max - 1898) 0 0) (OsTm 0 0 0 1 0 0 0 0) = None
  /\ calculate_gmt_offset 32 (OsTm 0 0 0 1 0 100 0 0) (OsTm 0 0 0 1 0 0 0 0) = None.
Proof. split; vm_compute; reflexivity. Qed.

(** ** System calls *)
Section Calls.
Variable fcntl_cloexec : Z -> Z.             (* [fcntl(fd, F_SETFD, FD_CLOEXEC)] *)
Variable strerror_gnu : Z -> bytes -> bytes.  (* the text the GNU [strerror_r] returns *)
Variable strerror_posix : Z -> nat -> Z * bytes.
Variable gettid : Z.

Definition prevent_child_fd (fd : Z) (errno : Z) : exc unit :=
  if fcntl_cloexec fd =? -1
  then Thrown (spdlog_ex (!"fcntl with FD_CLOEXEC failed: " ++ strerror_gnu errno []))
  else Ok tt.
(** [errno_str]: the GNU version, and the POSIX one with its buffer of 256
    characters. *)
Definition errno_str (err_num : Z) : bytes := strerror_gnu err_num [].
Definition errno_str_posix (err_num : Z) : bytes :=
  let '(result, text) := strerror_posix err_num 256 in
  if result =? 0 then text else !"Unknown error".
(** [thread_id]: the system is asked at the first call of a thread only;
    [tid] is the thread-local variable. *)
Definition thread_id (tid : option Z) : Z * option Z :=
  match tid with
  | Some t => (t, tid)
  | None => let t := wrap_u 64 gettid in (t, Some t)
  end.
End Calls.
