(* ===== verification/FileSinks.v ===== *)
(** * File sinks, [src/src/spdlog/details/file_helper.h] and
      [sinks/file_sinks.h], with the functions of [details/os.h] they call

    The file system is a map from names to contents.  Each call of the C
    library that can fail takes the next answer of a given list ([None]: it
    succeeds; [Some k]: it fails, and a short [fwrite] has written [k]
    bytes); the answers after the list are successes.  What [fwrite] has
    taken counts as written ([fflush] has no effect here), and nothing else
    changes the files while the sink runs.  Writing to a null [FILE*] is
    undefined behaviour. *)
From S2P Require Import Prelude Cxx PatternFormatter.

Open Scope Z_scope.

(** ** Effects *)
Inductive outcome (A : Type) := Fine (a : A) | Threw (e : exn) | Undefined.
Arguments Fine {A} a. Arguments Threw {A} e. Arguments Undefined {A}.

Record world := World {
  w_files : gmap bytes bytes;
  w_answers : list (option nat);
  _fd : option bytes;
  _filename : bytes;
  _current_size : Z
}.
Definition M (A : Type) : Type := world -> world * outcome A.
Definition mret {A} (a : A) : M A := fun w => (w, Fine a).
Definition mthrow {A} (e : exn) : M A := fun w => (w, Threw e).
Definition mundefined {A} : M A := fun w => (w, Undefined).
Definition mbind {A B} (m : M A) (f : A -> M B) : M B :=
  fun w => match m w with
           | (w, Fine a) => f a w
           | (w, Threw e) => (w, Threw e)
           | (w, Undefined) => (w, Undefined)
           end.
Definition mget {A} (f : world -> A) : M A := fun w => (w, Fine (f w)).
Notation "'do!' x := m 'in' k" := (mbind m (fun x => k))
  (at level 200, x pattern, right associativity) : cxx_scope.

Definition set_files (fs : gmap bytes bytes) : M unit :=
  fun w => (World fs (w_answers w) (_fd w) (_filename w) (_current_size w), Fine tt).
Definition set_fd (fd : option bytes) : M unit :=
  fun w => (World (w_files w) (w_answers w) fd (_filename w) (_current_size w), Fine tt).
Definition set_filename (name : bytes) : M unit :=
  fun w => (World (w_files w) (w_answers w) (_fd w) name (_current_size w), Fine tt).
Definition set_size (n : Z) : M unit :=
  fun w => (World (w_files w) (w_answers w) (_fd w) (_filename w) n, Fine tt).
Definition answer : M (option nat) :=
  fun w => (World (w_files w) (tail (w_answers w)) (_fd w) (_filename w) (_current_size w),
            Fine (default None (head (w_answers w)))).

Section Sinks.
(** [errno_str(errno)] *)
Variable errno_str : bytes.
Definition errno_ex (msg : bytes) : exn := spdlog_ex (msg ++ !": " ++ errno_str).

(** ** os.h *)

(** [fopen] with mode [wb] or [ab]. *)
Definition opened (fs : gmap bytes bytes) (name : bytes) (truncate : bool) : gmap bytes bytes :=
  if truncate then <[name := []]> fs else <[name := default [] (fs !! name)]> fs.
Definition fopen_s (name : bytes) (truncate : bool) : M bool :=
  do! a := answer in
  match a with
  | None =>
      do! fs := mget w_files in
      do! _ := set_files (opened fs name truncate) in
      do! _ := set_fd (Some name) in mret true
  | Some _ => do! _ := set_fd None in mret false
  end.
Definition file_exists (name : bytes) : M bool := mget (fun w => bool_decide (is_Some (w_files w !! name))).
(** [remove] and [rename]: [true] is success. *)
Definition os_remove (name : bytes) : M bool :=
  do! a := answer in
  match a with
  | None => do! fs := mget w_files in do! _ := set_files (delete name fs) in mret true
  | Some _ => mret false
  end.
Definition os_rename (src target : bytes) : M bool :=
  do! a := answer in
  do! fs := mget w_files in
  match a, fs !! src with
  | None, Some content =>
      do! _ := set_files (<[target := content]> (delete src fs)) in mret true
  | _, _ => mret false
  end.
Definition filesize (name : bytes) : M Z :=
  do! a := answer in
  match a with
  | None => mget (fun w => len (default [] (w_files w !! name)))
  | Some _ => mthrow (errno_ex !"Failed getting file size from fd")
  end.

(** ** file_helper.h *)
Definition open_tries : nat := 5.
Definition fh_close : M unit := set_fd None.
Fixpoint open_loop (tries : nat) (fname : bytes) (truncate : bool) : M bool :=
  match tries with
  | O => mret false
  | S tries => do! ok := fopen_s fname truncate in if ok then mret true else open_loop tries fname truncate
  end.
Definition fh_open (fname : bytes) (truncate : bool) : M unit :=
  do! _ := fh_close in
  do! _ := set_filename fname in
  do! ok := open_loop open_tries fname truncate in
  if ok then mret tt else mthrow (errno_ex (!"Failed opening file " ++ fname ++ !" for writing")).
Definition reopen (truncate : bool) : M unit :=
  do! name := mget _filename in
  if decide (name = []) then mthrow (spdlog_ex !"Failed re opening file - was not opened before")
  else fh_open name truncate.
Definition fh_write (msg : bytes) : M unit :=
  do! fd := mget _fd in
  match fd with
  | None => mundefined
  | Some name =>
      do! a := answer in
      do! fs := mget w_files in
      let old := default [] (fs !! name) in
      match a with
      | None => set_files (<[name := old ++ msg]> fs)
      | Some k =>
          do! _ := set_files (<[name := old ++ take k msg]> fs) in
          do! fname := mget _filename in
          mthrow (errno_ex (!"Failed writing to file " ++ fname))
      end
  end.
Definition fh_size : M Z :=
  do! fd := mget _fd in
  do! fname := mget _filename in
  match fd with
  | None => mthrow (spdlog_ex (!"Cannot use size() on closed file " ++ fname))
  | Some name => filesize name
  end.

(** ** simple_file_sink *)
Definition new_simple (filename : bytes) (truncate : bool) : M unit := fh_open filename truncate.
Definition simple_sink_it (msg : bytes) : M unit := fh_write msg.

(** ** rotating_file_sink *)
Section Rotating.
Variable _base_filename : bytes.
Variable _max_size : Z.
Variable _max_files : nat.

Definition calc_filename (filename : bytes) (index : nat) : bytes :=
  if (index =? 0)%nat then filename else filename ++ !"." ++ dec (Z.of_nat index).

Definition new_rotating : M unit :=
  do! _ := fh_open (calc_filename _base_filename 0) false in
  do! n := fh_size in set_size n.

(** One turn of the loop of [_rotate]: file [i - 1] becomes file [i]. *)
Definition shift_file (i : nat) : M unit :=
  let src := calc_filename _base_filename (i - 1) in
  let target := calc_filename _base_filename i in
  do! there := file_exists target in
  do! _ :=
    if there then
      do! ok := os_remove target in
      if ok then mret tt
      else mthrow (errno_ex (!"rotating_file_sink: failed removing " ++ target))
    else mret tt in
  do! there := file_exists src in
  if there then
    do! ok := os_rename src target in
    if ok then mret tt
    else mthrow (errno_ex (!"rotating_file_sink: failed renaming " ++ src ++ !" to " ++ target))
  else mret tt.
Fixpoint rotate_loop (i : nat) : M unit :=
  match i with
  | O => mret tt
  | S i' => do! _ := shift_file i in rotate_loop i'
  end.
Definition _rotate : M unit :=
  do! _ := fh_close in
  do! _ := rotate_loop _max_files in
  reopen true.
Definition rotating_sink_it (msg : bytes) : M unit :=
  do! n := mget _current_size in
  let n := u64 (n + len msg) in
  do! _ := set_size n in
  do! _ :=
    if _max_size <? n then do! _ := _rotate in set_size (len msg) else mret tt in
  fh_write msg.

(** A sequence of messages, as long as none throws. *)
Fixpoint rotating_run (msgs : list bytes) : M unit :=
  match msgs with
  | [] => mret tt
  | msg :: msgs => do! _ := rotating_sink_it msg in rotating_run msgs
  end.
End Rotating.

(** ** daily_file_sink *)
Section Daily.
(** The C library's clock conversions; [set_time t h m] is [t] with the hour
    and minute of a rotation and second 0, as [mktime] takes it. *)
Variable localtime : Z -> tm.
Variable mktime : tm -> Z.
Variables (_rotation_h _rotation_m : Z).

Definition second : Z := 1000000000.
Definition pad2 (v : Z) : bytes := (if v <? 10 then !"0" else []) ++ dec v.
(** The two name calculators, for the years 1000 to 9999. *)
Definition dateonly_daily_filename (basename : bytes) (t : tm) : bytes :=
  basename ++ !"_" ++ dec (tm_year t + 1900) ++ !"-" ++ pad2 (tm_mon t + 1) ++ !"-" ++ pad2 (tm_mday t).
Definition default_daily_filename (basename : bytes) (t : tm) : bytes :=
  dateonly_daily_filename basename t ++ !"_" ++ pad2 (tm_hour t) ++ !"-" ++ pad2 (tm_min t).

Definition _next_rotation_tp (now : Z) : Z :=
  let date := localtime (to_time_t now) in
  let date := Tm 0 _rotation_m _rotation_h (tm_mday date) (tm_mon date) (tm_year date)
                (tm_wday date) (tm_gmtoff date) in
  let rotation_time := mktime date * second in
  if now <? rotation_time then rotation_time else rotation_time + 24 * 3600 * second.

(** The file name calculator, and the rotation time the sink keeps; the clock
    is read once for each use. *)
Variable name_of : tm -> bytes.
Definition new_daily (now1 now2 : Z) : M Z :=
  if (_rotation_h <? 0) || (23 <? _rotation_h) || (_rotation_m <? 0) || (59 <? _rotation_m)
  then mthrow (spdlog_ex !"daily_file_sink: Invalid rotation time in ctor")
  else
    do! _ := fh_open (name_of (localtime (to_time_t now2))) false in mret (_next_rotation_tp now1).
Definition daily_sink_it (now1 now2 now3 rotation_tp : Z) (msg : bytes) : M Z :=
  do! tp :=
    if rotation_tp <=? now1 then
      do! _ := fh_open (name_of (localtime (to_time_t now2))) false in mret (_next_rotation_tp now3)
    else mret rotation_tp in
  do! _ := fh_write msg in mret tp.
End Daily.
End Sinks.
