(* ===== verification/FileSinksFacts.v ===== *)
(** * File sinks: rotation keeps the newest data, and failures are retried

    The reference of rotation is a function from numbers to contents, the
    generations of the log: [spec_run] shifts them, [spec_dropped] collects
    what the last one held. *)
From S2P Require Import Prelude Cxx PatternFormatter FileSinks.

Open Scope Z_scope.

Lemma dec_inj a b : dec a = dec b -> a = b.
Proof. intros Heq. pose proof (strtol_dec a) as Ha. rewrite Heq, strtol_dec in Ha. congruence. Qed.

(** [w] with other files and another open file. *)
Definition with_fs (fs : gmap bytes bytes) (fd : option bytes) (w : world) : world :=
  World fs (w_answers w) fd (_filename w) (_current_size w).

Section Rotating.
Variable errno_str : bytes.
Variable base : bytes.
Variable max_size : Z.
Variable max_files : nat.
Notation name := (calc_filename base).
Notation sink_it := (rotating_sink_it errno_str base max_size max_files).

Lemma name_inj i j : name i = name j -> i = j.
Proof.
  unfold calc_filename. destruct i as [|i], j as [|j]; simpl; intros Heq; try done.
  - apply (f_equal length) in Heq. rewrite length_app in Heq. simpl in Heq. lia.
  - apply (f_equal length) in Heq. rewrite length_app in Heq. simpl in Heq. lia.
  - apply app_inv_head in Heq. injection Heq as Heq%dec_inj. lia.
Qed.
Lemma name_ne i j : i <> j -> name i <> name j.
Proof. intros Hne Heq. by apply Hne, name_inj. Qed.

(** ** Generations: what file [i] holds *)
Abbreviation gens := (nat -> option bytes) (only parsing).
Definition shift_gens (n : nat) (g : gens) : gens :=
  fun i => match i with
           | O => if (n =? 0)%nat then g O else None
           | S j => if (i <=? n)%nat then g j else g i
           end.
Definition set_newest (c : bytes) (g : gens) : gens := fun i => match i with O => Some c | S _ => g i end.
Definition holds (fs : gmap bytes bytes) (g : gens) : Prop := forall i, fs !! name i = g i.

(** *** One turn of the loop *)
Definition shifted (i : nat) (fs : gmap bytes bytes) : gmap bytes bytes :=
  let fs := delete (name i) fs in
  match fs !! name (i - 1) with
  | Some c => <[name i := c]> (delete (name (i - 1)) fs)
  | None => fs
  end.
Lemma shift_file_ok i w :
  (0 < i)%nat -> w_answers w = [] ->
  shift_file errno_str base i w = (with_fs (shifted i (w_files w)) (_fd w) w, Fine tt).
Proof.
  intros Hi Ha. destruct w as [fs ans fd fn n]. simpl in Ha. subst ans.
  assert (Hne : name i <> name (i - 1)) by (apply name_ne; lia).
  unfold shift_file, shifted, file_exists, os_remove, os_rename, mbind, mget, answer, set_files, mret,
    with_fs; simpl.
  rewrite lookup_delete_ne by done.
  case_bool_decide as Ht; simpl; rewrite ?lookup_delete_ne by done.
  - destruct (fs !! name (i - 1)) eqn:Hs; rewrite ?Hs; simpl; [|done].
    by rewrite lookup_delete_ne, Hs by done.
  - apply eq_None_not_Some in Ht. rewrite (delete_id fs) by done.
    destruct (fs !! name (i - 1)) eqn:Hs; rewrite ?Hs; simpl; [|done]. by rewrite Hs.
Qed.
Lemma shifted_holds i fs g :
  (0 < i)%nat -> holds fs g ->
  holds (shifted i fs) (fun j => if decide (j = i) then g (i - 1)%nat
                                 else if decide (j = i - 1)%nat then None else g j).
Proof.
  intros Hi Hg j. unfold shifted. assert (name i <> name (i - 1)) by (apply name_ne; lia).
  rewrite lookup_delete_ne, Hg by done. destruct (g (i - 1)%nat) as [c|] eqn:Hc.
  - case_decide; [subst; by rewrite lookup_insert_eq|].
    rewrite lookup_insert_ne by (by apply name_ne).
    case_decide; [subst; by rewrite lookup_delete_eq|].
    rewrite !lookup_delete_ne by (by apply name_ne). apply Hg.
  - case_decide; [subst; by rewrite lookup_delete_eq|].
    rewrite lookup_delete_ne by (by apply name_ne). rewrite Hg. case_decide; [by subst|done].
Qed.
(** Files with other names are left alone. *)
Definition others (fs fs' : gmap bytes bytes) : Prop :=
  forall nm, (forall i, nm <> name i) -> fs' !! nm = fs !! nm.
Lemma shifted_others i fs : others fs (shifted i fs).
Proof.
  intros nm Hnm. unfold shifted. pose proof (Hnm i). pose proof (Hnm (i - 1)%nat).
  case_match; by rewrite ?lookup_insert_ne, ?lookup_delete_ne.
Qed.

Definition shift_one (i : nat) (g : gens) : gens :=
  fun j => if decide (j = i) then g (i - 1)%nat
           else if decide (j = i - 1)%nat then None else g j.
Lemma shift_gens_S n g i : shift_gens n (shift_one (S n) g) i = shift_gens (S n) g i.
Proof.
  unfold shift_gens, shift_one. replace (S n - 1)%nat with n by lia. destruct i as [|j].
  - destruct n; simpl; [by repeat case_decide|done].
  - destruct (S j <=? n)%nat eqn:H1; [apply Nat.leb_le in H1|apply Nat.leb_gt in H1];
      (destruct (S j <=? S n)%nat eqn:H2; [apply Nat.leb_le in H2|apply Nat.leb_gt in H2]);
      repeat case_decide; try done; try lia. f_equal. lia.
Qed.
Lemma rotate_loop_ok n w g :
  w_answers w = [] -> holds (w_files w) g ->
  exists fs, rotate_loop errno_str base n w = (with_fs fs (_fd w) w, Fine tt)
    /\ holds fs (shift_gens n g) /\ others (w_files w) fs.
Proof.
  revert w g; induction n as [|n IH]; intros w g Ha Hg.
  - exists (w_files w). split; [by destruct w|]. split; [by intros [|i]; apply Hg|done].
  - cbn [rotate_loop]. unfold mbind. rewrite shift_file_ok by (done || lia).
    destruct (IH (with_fs (shifted (S n) (w_files w)) (_fd w) w) (shift_one (S n) g) Ha) as (fs & Hr & Hh & Ho).
    { apply shifted_holds; [lia|done]. }
    exists fs. rewrite Hr. split; [done|]. split.
    + intros j. by rewrite Hh, shift_gens_S.
    + intros nm Hnm. rewrite Ho by done. by apply shifted_others.
Qed.

(** ** The sink *)

(** The abstract sink: generations and the size of the newest one. *)
Definition spec_sink_it (msg : bytes) (s : gens * Z) : gens * Z :=
  let n := u64 (s.2 + len msg) in
  if max_size <? n then (set_newest msg (shift_gens max_files s.1), len msg)
  else (set_newest (default [] (s.1 O) ++ msg) s.1, n).
Record refines (fs0 : gmap bytes bytes) (s : gens * Z) (w : world) : Prop := {
  r_answers : w_answers w = []; r_fd : _fd w = Some (name 0); r_filename : _filename w = name 0;
  r_size : _current_size w = s.2; r_holds : holds (w_files w) s.1; r_others : others fs0 (w_files w)
}.
Lemma holds_newest fs g c : holds fs g -> holds (<[name 0 := c]> fs) (set_newest c g).
Proof.
  intros Hg [|i]; simpl; [by rewrite lookup_insert_eq|].
  rewrite lookup_insert_ne by (by apply name_ne). apply Hg.
Qed.
Lemma others_newest fs0 fs c : others fs0 fs -> others fs0 (<[name 0 := c]> fs).
Proof. intros Ho nm Hnm. rewrite lookup_insert_ne by (symmetry; apply Hnm). by apply Ho. Qed.
Lemma write_refines fs0 g n msg w :
  refines fs0 (g, n) w -> exists w', fh_write errno_str msg w = (w', Fine tt)
    /\ refines fs0 (set_newest (default [] (g O) ++ msg) g, n) w'.
Proof.
  intros []. destruct w as [fs ans fd fn m]. simpl in *. subst.
  eexists. unfold fh_write, mbind, mget, answer, set_files; simpl. split; [reflexivity|].
  pose proof (r_holds0 O) as H0. simpl in H0. rewrite H0.
  split; simpl; try done; [by apply holds_newest|by apply others_newest].
Qed.
Lemma rotate_refines fs0 g n w :
  base <> [] -> refines fs0 (g, n) w ->
  exists w', _rotate errno_str base max_files w = (w', Fine tt)
    /\ refines fs0 (set_newest [] (shift_gens max_files g), n) w'.
Proof.
  intros Hb [Ha Hfd Hfn Hs Hg Ho]. destruct w as [fs ans fd fn m]. simpl in *. subst.
  unfold _rotate. unfold mbind at 1. unfold fh_close, set_fd at 1; simpl.
  destruct (rotate_loop_ok max_files (World fs [] None (name 0) n) g eq_refl Hg) as (fs' & Hr & Hh & Ho').
  unfold mbind at 1. rewrite Hr. unfold reopen, mbind at 1, mget; simpl. rewrite decide_False by done.
  eexists. split; [reflexivity|]. split; simpl; try done; [by apply holds_newest|].
  apply others_newest. intros nm Hnm. rewrite Ho' by done. by apply Ho.
Qed.
Lemma sink_it_refines fs0 s msg w :
  base <> [] -> refines fs0 s w ->
  exists w', sink_it msg w = (w', Fine tt) /\ refines fs0 (spec_sink_it msg s) w'.
Proof.
  intros Hb Hr. destruct s as [g n]. pose proof (r_size _ _ _ Hr) as Hn. simpl in Hn.
  unfold rotating_sink_it, spec_sink_it. cbn [fst snd].
  unfold mbind at 1, mget. rewrite Hn. unfold mbind at 1, set_size at 1.
  set (w1 := World _ _ _ _ _).
  assert (Hr1 : refines fs0 (g, u64 (n + len msg)) w1) by (by destruct Hr).
  destruct (max_size <? u64 (n + len msg)).
  - destruct (rotate_refines fs0 _ _ _ Hb Hr1) as (w2 & Hrot & Hr2).
    unfold mbind at 1, mbind at 1. rewrite Hrot. unfold set_size at 1.
    set (w3 := World _ _ _ _ _).
    assert (Hr3 : refines fs0 (set_newest [] (shift_gens max_files g), len msg) w3) by (by destruct Hr2).
    destruct (write_refines fs0 _ _ msg _ Hr3) as (w4 & Hw & Hr4). exists w4. split; [done|].
    destruct Hr4 as [H1 H2 H3 H4 H5 H6]. split; try done. intros i. rewrite H5. by destruct i.
  - unfold mbind at 1, mret. by apply write_refines.
Qed.

Lemma new_rotating_refines w :
  w_answers w = [] -> exists w' g, new_rotating errno_str base w = (w', Fine tt)
    /\ g = set_newest (default [] (w_files w !! name 0)) (fun i => w_files w !! name i)
    /\ refines (w_files w) (g, len (default [] (w_files w !! name 0))) w'.
Proof.
  intros Ha. destruct w as [fs ans fd fn n]. simpl in Ha. subst ans. simpl w_files.
  eexists. eexists. split; [|split; [reflexivity|]].
  - unfold new_rotating, fh_open, fh_size, filesize. unfold mbind, mret, mget; simpl. reflexivity.
  - simpl. split; simpl; try done.
    + by rewrite lookup_insert_eq.
    + apply (holds_newest _ (fun i => fs !! name i)). by intros i.
    + by apply others_newest.
Qed.

Definition spec_run (msgs : list bytes) (s : gens * Z) : gens * Z := fold_left (fun s m => spec_sink_it m s) msgs s.
Lemma run_refines fs0 msgs s w :
  base <> [] -> refines fs0 s w ->
  exists w', rotating_run errno_str base max_size max_files msgs w = (w', Fine tt)
    /\ refines fs0 (spec_run msgs s) w'.
Proof.
  intros Hb. revert s w; induction msgs as [|m msgs IH]; intros s w Hr; [by exists w|].
  destruct (sink_it_refines fs0 s m w Hb Hr) as (w1 & Hs & Hr1).
  destruct (IH _ _ Hr1) as (w2 & Hs2 & Hr2). exists w2. split; [|done].
  cbn [rotating_run]. unfold mbind at 1. by rewrite Hs.
Qed.

(** *** What is kept: the files from the oldest to the newest *)
Fixpoint older (n : nat) (g : gens) : bytes :=
  match n with O => [] | S n' => default [] (g n) ++ older n' g end.
Definition kept (g : gens) : bytes := older max_files g ++ default [] (g O).

Lemma kept_ext g1 g2 : (forall i, default [] (g1 i) = default [] (g2 i)) -> kept g1 = kept g2.
Proof.
  intros Heq. unfold kept. f_equal; [|apply Heq].
  induction max_files as [|n IH]; simpl; [done|]. by rewrite Heq, IH.
Qed.
Lemma older_newest n c g : older n (set_newest c g) = older n g.
Proof. induction n; simpl; congruence. Qed.
Lemma older_shift n N g :
  (n <= N)%nat ->
  older n (shift_gens N g) = match n with O => [] | S m => older m g ++ default [] (g O) end.
Proof.
  induction n as [|n IH]; intros Hn; [done|]. cbn [older]. rewrite IH by lia. unfold shift_gens at 1.
  rewrite (proj2 (Nat.leb_le _ _)) by done. destruct n; cbn [older]; [by rewrite app_nil_r|].
  by rewrite <- app_assoc.
Qed.
(** What a message drops: nothing, or, when it rotates the files, what the
    last of them held. *)
Definition spec_lost (msg : bytes) (s : gens * Z) : bytes :=
  if max_size <? u64 (s.2 + len msg) then default [] (s.1 max_files) else [].
Fixpoint spec_dropped (msgs : list bytes) (s : gens * Z) : bytes :=
  match msgs with [] => [] | m :: msgs => spec_lost m s ++ spec_dropped msgs (spec_sink_it m s) end.
Lemma spec_keeps msg s : kept s.1 ++ msg = spec_lost msg s ++ kept (spec_sink_it msg s).1.
Proof.
  destruct s as [g n]. unfold spec_sink_it, spec_lost. cbn [fst snd]. case_match; cbn [fst]; unfold kept.
  - rewrite older_newest, older_shift by done. cbn [set_newest default]. destruct max_files as [|k]; [done|].
    cbn [older]. by rewrite <- !app_assoc.
  - rewrite older_newest. cbn [set_newest default]. by rewrite <- app_assoc.
Qed.
Lemma spec_run_keeps msgs s :
  kept s.1 ++ concat msgs = spec_dropped msgs s ++ kept (spec_run msgs s).1.
Proof.
  revert s; induction msgs as [|m msgs IH]; intros s; simpl; [by rewrite app_nil_r|].
  by rewrite app_assoc, spec_keeps, <- !app_assoc, IH.
Qed.

(** *** The size of the newest file *)
Definition small (n : Z) : Prop := n < 2 ^ 63.
Lemma spec_size msg s :
  small max_size -> small (len msg) -> 0 <= s.2 -> small s.2 -> s.2 = len (default [] (s.1 O)) ->
  let s' := spec_sink_it msg s in
  exists c, s'.1 O = Some c /\ s'.2 = len c /\ small (len c) /\ (len c <= max_size \/ c = msg).
Proof.
  unfold small. intros Hmax Hm H0 Hs Heq. destruct s as [g n]. cbn [fst snd] in *.
  unfold spec_sink_it. cbn [fst snd]. pose proof (len_nonneg msg).
  rewrite u64_id by (unfold size_max; lia). destruct (max_size <? n + len msg) eqn:E; bool_to_prop; simpl.
  - eexists. split; [done|]. auto.
  - eexists. split; [done|]. autorewrite with cxx. rewrite <- Heq. auto with lia.
Qed.
Lemma spec_run_size msgs s :
  small max_size -> Forall (fun m => small (len m)) msgs -> small s.2 -> s.2 = len (default [] (s.1 O)) ->
  msgs = [] \/ exists c, (spec_run msgs s).1 O = Some c /\ (len c <= max_size \/ c ∈ msgs).
Proof.
  intros Hmax Hms. revert s; induction Hms as [|m msgs Hm Hms IH]; intros s Hs Heq; [by left|right].
  pose proof (len_nonneg (default [] (s.1 O))).
  destruct (spec_size m s Hmax Hm ltac:(lia) Hs Heq) as (c & H1 & H2 & H3 & H4).
  destruct (IH (spec_sink_it m s)) as [-> | (c' & Hc & Hcase)]; [by rewrite H2|by rewrite H1|..].
  - exists c. split; [done|]. destruct H4 as [Hle|Hcm]; [by left|right]. rewrite Hcm. apply list_elem_of_here.
  - exists c'. split; [done|]. destruct Hcase; [by left|right]. by apply list_elem_of_further.
Qed.
End Rotating.

(** The files when the sink has been made: the current one exists. *)
Definition start_gens (base : bytes) (w : world) : (nat -> option bytes) * Z :=
  let newest := default [] (w_files w !! base) in
  (set_newest newest (fun i => w_files w !! calc_filename base i), len newest).

(** (C26) Rotation keeps the newest data.  A rotating sink on a file system
    that does not fail, given any messages: none throws; every file of the
    sink holds exactly what [spec_run] says, where a message that would take
    the current file over the limit moves the content of each file to the next
    one, up to the last, and starts a new one; so the files, read from the
    oldest to the newest, hold everything that was ever in them and was
    logged, every message whole and in order, less what the last file held
    each time the files were rotated; the current file is within the size
    limit or is one single message; and no other file is touched. *)
Theorem rotating_keeps_newest errno_str base max_size max_files w msgs :
  base <> [] -> w_answers w = [] -> small max_size ->
  small (len (default [] (w_files w !! base))) -> Forall (fun m => small (len m)) msgs ->
  exists w', (do! _ := new_rotating errno_str base in
              rotating_run errno_str base max_size max_files msgs) w = (w', Fine tt)
    /\ (forall i, w_files w' !! calc_filename base i
                  = (spec_run max_size max_files msgs (start_gens base w)).1 i)
    /\ kept max_files (fun i => w_files w !! calc_filename base i) ++ concat msgs
       = spec_dropped max_size max_files msgs (start_gens base w)
         ++ kept max_files (fun i => w_files w' !! calc_filename base i)
    /\ (msgs = [] \/ exists c, w_files w' !! base = Some c /\ (len c <= max_size \/ c ∈ msgs))
    /\ (forall name, (forall i, name <> calc_filename base i) -> w_files w' !! name = w_files w !! name).
Proof.
  intros Hb Ha Hmax Hsmall Hms.
  destruct (new_rotating_refines errno_str base w Ha) as (w1 & g & Hnew & Hg & Hr1).
  destruct (run_refines errno_str base max_size max_files _ msgs _ _ Hb Hr1) as (w2 & Hrun & Hr2).
  exists w2. unfold mbind. rewrite Hnew. split; [done|].
  assert (Heq : (g, len (default [] (w_files w !! base))) = start_gens base w) by (by subst g).
  change (calc_filename base 0) with base in *. rewrite Heq in *. set (s0 := start_gens base w) in *.
  destruct Hr2 as [_ _ _ _ Hh Ho]. split; [exact Hh|]. split; [|split; [|done]].
  - rewrite (kept_ext _ (fun i => w_files w2 !! _) (spec_run max_size max_files msgs s0).1)
      by (intros; by rewrite Hh).
    rewrite <- spec_run_keeps. f_equal. apply kept_ext. intros i. by destruct i.
  - destruct (spec_run_size max_size max_files msgs s0 Hmax Hms Hsmall eq_refl) as [|(c & Hc & Hcase)];
      [by left|right]. exists c. split; [|done]. rewrite <- Hc. apply (Hh O).
Qed.

(** Two files of at most ten bytes behind the current one. *)
Definition log_world (fs : gmap bytes bytes) (answers : list (option nat)) : world := World fs answers None [] 0.
Definition three_files : gmap bytes bytes :=
  {[ !"a" := !"0000"; !"a.1" := !"old"; !"a.2" := !"older"; !"a.3" := !"not ours" ]}.
Lemma rotating_keeps_newest_witness :
  let w' := ((do! _ := new_rotating [] !"a" in
              rotating_run [] !"a" 10 2 [ !"11111"; !"222222222222"; !"333" ]) (log_world three_files [])).1 in
  w_files w' !! !"a" = Some !"333" /\ w_files w' !! !"a.1" = Some !"222222222222"
  /\ w_files w' !! !"a.2" = Some !"000011111"
  /\ w_files w' !! !"a.3" = Some !"not ours"
  /\ !"olderold000011111222222222222333"
     = !"olderold" ++ kept 2 (fun i => w_files w' !! calc_filename !"a" i).
Proof.
  destruct (rotating_keeps_newest [] !"a" 10 2 (log_world three_files []) [ !"11111"; !"222222222222"; !"333" ])
    as (w' & Hrun & _ & Hkept & _); [done|done|reflexivity|reflexivity|repeat constructor|].
  rewrite Hrun. cbn [fst]. replace w' with (((do! _ := new_rotating [] !"a" in
              rotating_run [] !"a" 10 2 [ !"11111"; !"222222222222"; !"333" ]) (log_world three_files [])).1)
    in * by (by rewrite Hrun).
  do 4 (split; [vm_compute; reflexivity|]). exact Hkept.
Defined.

(** ** Failures

    A step that never writes to a closed file and leaves the counted size as
    it is. *)
Definition keeps {A} (m : M A) : Prop :=
  forall w, (m w).2 <> Undefined /\ _current_size (m w).1 = _current_size w.
Lemma keeps_bind {A B} (m : M A) (f : A -> M B) :
  keeps m -> (forall a, keeps (f a)) -> keeps (mbind m f).
Proof.
  intros Hm Hf w. unfold mbind. destruct (Hm w) as [H1 H2].
  destruct (m w) as [w1 [a|e|]]; cbn [fst snd] in *; [|done|done].
  destruct (Hf a w1) as [H3 H4]. split; [done|congruence].
Qed.
Lemma keeps_ret {A} (a : A) : keeps (mret a). Proof. done. Qed.
Lemma keeps_throw {A} e : keeps (@mthrow A e). Proof. done. Qed.
Lemma keeps_get {A} (f : world -> A) : keeps (mget f). Proof. done. Qed.
Lemma keeps_set_files fs : keeps (set_files fs). Proof. done. Qed.
Lemma keeps_set_fd fd : keeps (set_fd fd). Proof. done. Qed.
Lemma keeps_set_filename n : keeps (set_filename n). Proof. done. Qed.
Lemma keeps_answer : keeps answer. Proof. done. Qed.
Create HintDb sinks.
#[local] Hint Resolve @keeps_bind @keeps_ret @keeps_throw @keeps_get keeps_set_files keeps_set_fd
  keeps_set_filename keeps_answer : sinks.
Ltac keep_step :=
  first [apply keeps_bind; [|intros ?]|progress eauto with sinks|case_match].

Section Failures.
Variable errno_str : bytes.
Variable base : bytes.
Variable max_size : Z.
Variable max_files : nat.

Lemma keeps_fopen nm tr : keeps (fopen_s nm tr).
Proof. unfold fopen_s. repeat keep_step. Qed.
Lemma keeps_open_loop n nm tr : keeps (open_loop n nm tr).
Proof. induction n; simpl; repeat (keep_step || apply keeps_fopen). Qed.
Lemma keeps_reopen : keeps (reopen errno_str true).
Proof. unfold reopen, fh_open, fh_close. repeat (keep_step || apply keeps_open_loop). Qed.
Lemma keeps_shift i : keeps (shift_file errno_str base i).
Proof. unfold shift_file, file_exists, os_remove, os_rename. repeat keep_step. Qed.
Lemma keeps_rotate_loop n : keeps (rotate_loop errno_str base n).
Proof. induction n; simpl; repeat (keep_step || apply keeps_shift). Qed.
Lemma keeps_rotate : keeps (_rotate errno_str base max_files).
Proof. unfold _rotate, fh_close. repeat (keep_step || apply keeps_rotate_loop || apply keeps_reopen). Qed.

(** A rotation that returns has opened the file again. *)
Lemma open_loop_opens n nm tr w w' : open_loop n nm tr w = (w', Fine true) -> _fd w' = Some nm.
Proof.
  revert w; induction n as [|n IH]; intros w; simpl; [by intros [= <-]|].
  unfold mbind, fopen_s, mbind, answer, mget, set_files, set_fd, mret. simpl.
  destruct (default None (head (w_answers w))); [apply IH|]. by intros [= <-].
Qed.
Lemma rotate_opens w w' : _rotate errno_str base max_files w = (w', Fine tt) -> is_Some (_fd w').
Proof.
  unfold _rotate. unfold mbind at 1. destruct (fh_close w) as [w1 [u|e|]]; [|done|done].
  unfold mbind at 1. destruct (rotate_loop _ _ _ w1) as [w2 [u2|e|]]; [|done|done].
  unfold reopen, mbind at 1, mget. case_decide; [done|].
  unfold fh_open, fh_close. unfold mbind at 1, set_fd. unfold mbind at 1, set_filename. unfold mbind at 1.
  destruct (open_loop _ _ _ _) as [w3 [[]|e|]] eqn:Ho; try done. intros [= <-]. apply open_loop_opens in Ho. by eauto.
Qed.

(** The sink is usable: the file is open, or the next message rotates. *)
Definition usable (w : world) : Prop := is_Some (_fd w) \/ max_size < _current_size w.
Lemma write_open msg w :
  is_Some (_fd w) -> (fh_write errno_str msg w).2 <> Undefined
  /\ is_Some (_fd (fh_write errno_str msg w).1)
  /\ _current_size (fh_write errno_str msg w).1 = _current_size w.
Proof.
  intros [nm Hfd]. unfold fh_write, mbind, mget, answer, set_files, mthrow. rewrite Hfd. simpl.
  destruct (default None (head (w_answers w))); simpl; rewrite Hfd; by eauto.
Qed.
Definition still_usable (n : Z) (r : world * outcome unit) : Prop :=
  r.2 <> Undefined /\ usable r.1 /\ 0 <= _current_size r.1 <= n.
Lemma sink_usable msg w :
  usable w -> 0 <= _current_size w -> _current_size w + len msg <= size_max ->
  still_usable (_current_size w + len msg) (rotating_sink_it errno_str base max_size max_files msg w).
Proof.
  intros Hu H0 Hb. pose proof (len_nonneg msg). unfold rotating_sink_it.
  unfold mbind at 1, mget. rewrite u64_id by lia. unfold mbind at 1, set_size at 1.
  set (n := _current_size w + len msg) in *. set (w1 := World _ _ _ _ _).
  destruct (max_size <? n) eqn:Hn; bool_to_prop.
  - unfold mbind at 1, mbind at 1. destruct (keeps_rotate w1) as [Hr1 Hr2].
    destruct (_rotate errno_str base max_files w1) as [w2 [[]|e|]] eqn:Hrot; cbn [fst snd] in *; [| |done].
    + apply rotate_opens in Hrot. unfold set_size. cbn iota beta.
      set (w3 := World _ _ _ _ _). destruct (write_open msg w3 Hrot) as (H1 & H2 & H3).
      split; [done|]. split; [by left|]. rewrite H3. simpl. lia.
    + unfold still_usable, usable; cbn [fst snd]. rewrite Hr2. split; [done|]. split; [right; simpl; lia|]. simpl. lia.
  - unfold mbind at 1, mret. destruct Hu as [Hu|]; [|lia].
    destruct (write_open msg w1 Hu) as (H1 & H2 & H3).
    split; [done|]. split; [by left|]. rewrite H3. simpl. lia.
Qed.

(** The logger catches what a sink throws and goes on with the next message. *)
Fixpoint caught_run (msgs : list bytes) (w : world) : world * outcome unit :=
  match msgs with
  | [] => (w, Fine tt)
  | msg :: msgs =>
      match rotating_sink_it errno_str base max_size max_files msg w with
      | (w, Undefined) => (w, Undefined)
      | (w, _) => caught_run msgs w
      end
  end.

(** Failures of the file system.  Whatever calls of the C library fail
    during a rotating sink's life, in whatever order (also in the middle of a
    rotation, after the current file was closed): when the logger catches the
    exceptions, no later message is ever written to a closed file, because a
    rotation that failed is tried again by the next message, until it
    succeeds.  (Less than 2^64 bytes are logged.) *)
Theorem rotating_survives_failures msgs w :
  usable w -> 0 <= _current_size w -> _current_size w + len (concat msgs) <= size_max ->
  (caught_run msgs w).2 = Fine tt /\ usable (caught_run msgs w).1.
Proof.
  revert w; induction msgs as [|m msgs IH]; intros w Hu H0 Hb; [done|].
  cbn [caught_run concat] in *. rewrite len_app in Hb. pose proof (len_nonneg (concat msgs)).
  destruct (sink_usable m w Hu H0 ltac:(lia)) as (H1 & H2 & H3).
  destruct (rotating_sink_it _ _ _ _ m w) as [w1 [u|e|]]; cbn [fst snd] in *; [| |done]; apply IH; (done || lia).
Qed.
End Failures.

(** The second rename of the rotation fails, then the removal, then the disk
    works again. *)
Definition failing : world :=
  World {[ !"a" := !"00000000"; !"a.1" := !"old" ]} [None; Some O; Some O] (Some !"a") !"a" 8.
Lemma rotating_survives_failures_witness :
  (caught_run [] !"a" 10 2 [ !"111"; !"222"; !"333" ] failing).2 = Fine tt
  /\ w_files (caught_run [] !"a" 10 2 [ !"111"; !"222"; !"333" ] failing).1 !! !"a" = Some !"333".
Proof.
  split; [|vm_compute; reflexivity].
  apply (rotating_survives_failures [] !"a" 10 2 [ !"111"; !"222"; !"333" ] failing);
    [left; eexists; reflexivity|vm_compute; discriminate|vm_compute; discriminate].
Defined.
