(* ===== verification/FileLoggers.v ===== *)
(** * The factories of file loggers, [src/src/spdlog/details/spdlog_impl.h]

    A factory first makes the sink, which opens its file, and then asks the
    registry for a logger: an exception of either leaves through the factory.
    [M] is the file system of [FileSinks], the registry that of [Logging]. *)
From S2P Require Import Prelude Cxx Logging PatternFormatter FileSinks FileSinksFacts.

Open Scope Z_scope.

Section Factories.
Context {F H : Type}.
Variables (default_formatter : F) (default_handler : H) (queue_size_ok : Z -> bool).
Variable errno_str : bytes.
Implicit Types lh : log_heap F H.

(** [spdlog::create<Sink>(logger_name, args...)] for a file sink; [sink] is
    its pointer, [K] what the sink keeps besides the file.  When the name is
    taken the sink is destroyed, and its file closed. *)
Definition create_file_logger {K} (make : M K) (name : bytes) (sink : nat) lh :
    M (log_heap F H * nat * K) :=
  do! k := make in
  match create default_formatter default_handler queue_size_ok name [sink] lh with
  | Ok (lh, p) => mret (lh, p, k)
  | Thrown e => do! _ := fh_close in mthrow e
  end.

Definition basic_logger_mt (name filename : bytes) (truncate : bool) :=
  create_file_logger (new_simple errno_str filename truncate) name.
Definition rotating_logger_mt (name filename : bytes) :=
  create_file_logger (new_rotating errno_str filename) name.
Definition daily_logger_mt (localtime : Z -> tm) (mktime : tm -> Z) (name_of : tm -> bytes)
    (name : bytes) (hour minute now1 now2 : Z) :=
  create_file_logger (new_daily errno_str localtime mktime hour minute name_of now1 now2) name.

(** A sink that cannot be made leaves the registry as it was; a logger is only
    made over a sink that was. *)
Lemma create_file_logger_spec {K} (make : M K) name sink lh w :
  match create_file_logger make name sink lh w with
  | (w', Fine (lh', p, k)) => make w = (w', Fine k)
      /\ create default_formatter default_handler queue_size_ok name [sink] lh = Ok (lh', p)
  | (w', Threw e) => make w = (w', Threw e)
      \/ exists w1 k, make w = (w1, Fine k) /\ w_files w' = w_files w1 /\ _fd w' = None
         /\ create default_formatter default_handler queue_size_ok name [sink] lh = Thrown e
  | (w', Undefined) => make w = (w', Undefined)
  end.
Proof.
  unfold create_file_logger, mbind. destruct (make w) as [w1 [k|e|]]; [|by left|done].
  destruct (create _ _ _ _ _ _) as [[lh' p]|e]; [done|]. right. by exists w1, k.
Qed.

(** Asking for a second logger of the same name, with [truncate], empties the
    file of the first one before it is told that the name is taken. *)
Theorem taken_name_truncates name filename sink lh w :
  is_Some (_loggers (lh_registry lh) !! name) -> head (w_answers w) = Some None \/ w_answers w = [] ->
  exists w', basic_logger_mt name filename true sink lh w = (w', Threw (exists_message name))
  /\ w_files w' = <[filename := []]> (w_files w) /\ _fd w' = None.
Proof.
  intros [p Hp] Ha. unfold basic_logger_mt, create_file_logger, create, throw_if_exists. rewrite Hp. cbn [exc_bind].
  unfold new_simple, fh_open, fh_close, mbind. cbn [set_fd set_filename]. unfold open_tries, open_loop, fopen_s, mbind.
  cbn. destruct w as [fs answers fd fname size]. cbn [w_answers] in Ha.
  destruct answers as [|[k|] answers]; cbn in *; [|by destruct Ha|]; by eexists.
Qed.
End Factories.

Lemma taken_name_truncates_witness :
  exists w', basic_logger_mt tt tt (fun _ => true) !"" !"log" !"a.txt" true 1
      (LogHeap (with_loggers {[ !"log" := 0%nat ]} new_registry) ∅ 1)
      (World {[ !"a.txt" := !"old lines" ]} [] None [] 0) = (w', Threw (exists_message !"log"))
  /\ w_files w' !! !"a.txt" = Some [].
Proof.
  destruct (taken_name_truncates tt tt (fun _ => true) !"" !"log" !"a.txt" 1
    (LogHeap (with_loggers {[ !"log" := 0%nat ]} new_registry) ∅ 1)
    (World {[ !"a.txt" := !"old lines" ]} [] None [] 0)) as (w' & Hw & Hf & _).
  - exists 0%nat. vm_compute. reflexivity.
  - right. reflexivity.
  - exists w'. split; [exact Hw|]. rewrite Hf. vm_compute. reflexivity.
Defined.
