(* ===== verification/AsyncLog.v ===== *)
(** * The asynchronous logger, [src/src/spdlog/details/async_log_helper.h]
      and [details/async_logger_impl.h]

    Any number of threads push messages on the queue, one worker thread pops
    them and drives the sinks.  The queue appears by what [AsyncQueue] proves
    of it: a bounded FIFO whose [enqueue] may also refuse while a value is
    being copied out or an older sequence number is read, and whose [dequeue]
    may also refuse while the next value is being copied in.  [wait_empty_q]
    tests the list itself; under the memory orders of the code the test may
    also succeed when other threads' later messages are still queued, see
    [WeakQueueFacts.approx_size_drained].  A step is one attempt to enqueue, one test of
    the queue's size, or one call of [process_next_msg]; only the worker
    touches the sinks. *)
From S2P Require Import Prelude Cxx Logging.

Open Scope Z_scope.

(** ** async_msg *)
Inductive async_msg_type := msg_log | msg_flush | msg_terminate.
#[export] Instance async_msg_type_eq_dec : EqDecision async_msg_type.
Proof. solve_decision. Defined.

Record async_msg := AsyncMsg {
  am_logger_name : bytes; am_level : level_enum; am_time : Z; am_thread_id : Z; am_txt : bytes;
  am_type : async_msg_type
}.
(** [async_msg(type)] sets the type only; nobody reads the other members. *)
Definition control_msg (t : async_msg_type) : async_msg := AsyncMsg [] trace 0 0 [] t.
Definition of_log_msg (m : log_msg) : async_msg :=
  AsyncMsg (msg_logger_name m) (msg_level m) (msg_time m) (msg_thread_id m) (raw m) msg_log.
(** Into a new [log_msg]: [raw] and [formatted] start empty. *)
Definition fill_log_msg (a : async_msg) : log_msg :=
  LogMsg (am_logger_name a) (am_level a) (am_time a) (am_thread_id a) (am_txt a) [].

(** ** The queue *)
Definition q_enqueue {A} (cap : Z) (busy : bool) (v : A) (q : list A) : list A * bool :=
  if busy || (cap <=? len q) then (q, false) else (q ++ [v], true).
Definition q_dequeue {A} (late : bool) (q : list A) : option (A * list A) :=
  match q with v :: q => if late then None else Some (v, q) | [] => None end.

(** ** sleep_or_yield: what the thread does, by the time since the last
    operation in nanoseconds *)
Inductive pause := Spin | Yield | SleepMs (ms : Z).
Definition sleep_or_yield (now last_op_time : Z) : pause :=
  let time_since_op := now - last_op_time in
  if time_since_op <=? 50000 then Spin
  else if time_since_op <=? 100000 then Yield
  else if time_since_op <=? 200000000 then SleepMs 20
  else SleepMs 200.

Section Helper.
Context {F S : Type} `{SinkImpl S}.
Variable format : F -> log_msg -> exc log_msg.

(** What a thread that uses the logger is doing: pushing messages, in order
    (and then perhaps waiting for the queue to be empty), waiting, or, in the
    destructor, waiting for the worker. *)
Inductive producer :=
| PIdle
| PPush (msgs : list async_msg) (wait : bool) (join : bool)
| PWait
| PJoin.

(** What the worker did to the sinks. *)
Inductive sink_op := OpMsg (m : log_msg) | OpFlush.

(** [async_log_helper], its threads, and, for the statements, the history:
    what the queue accepted, what was popped, what was given up because the
    queue was full, what was done to the sinks, and the texts the error
    handler got. *)
Record helper := Helper {
  a_formatter : F;
  a_sink_ptrs : list nat;
  a_settings : async_settings;
  a_q : list async_msg;
  a_flush_requested : bool;
  a_terminate_requested : bool;
  a_last_pop : Z;
  a_last_flush : Z;
  a_active : bool;
  a_heap : sinks S;
  a_threads : gmap nat producer;
  a_pause : pause;
  a_accepted : list async_msg;
  a_popped : list async_msg;
  a_dropped : list async_msg;
  a_ops : list sink_op;
  a_errors : list bytes
}.
Definition new_helper (f : F) (ps : list nat) (st : async_settings) (h : sinks S) (now : Z) : helper :=
  Helper f ps st [] false false now now true h ∅ Spin [] [] [] [] [].

Definition set_q (q : list async_msg) (acc : list async_msg) (s : helper) : helper :=
  Helper (a_formatter s) (a_sink_ptrs s) (a_settings s) q (a_flush_requested s)
    (a_terminate_requested s) (a_last_pop s) (a_last_flush s) (a_active s) (a_heap s) (a_threads s)
    (a_pause s) acc (a_popped s) (a_dropped s) (a_ops s) (a_errors s).
Definition set_thread (t : nat) (p : producer) (s : helper) : helper :=
  Helper (a_formatter s) (a_sink_ptrs s) (a_settings s) (a_q s) (a_flush_requested s)
    (a_terminate_requested s) (a_last_pop s) (a_last_flush s) (a_active s) (a_heap s)
    (<[t := p]> (a_threads s)) (a_pause s) (a_accepted s) (a_popped s) (a_dropped s) (a_ops s)
    (a_errors s).
Definition drop_msg (m : async_msg) (s : helper) : helper :=
  Helper (a_formatter s) (a_sink_ptrs s) (a_settings s) (a_q s) (a_flush_requested s)
    (a_terminate_requested s) (a_last_pop s) (a_last_flush s) (a_active s) (a_heap s) (a_threads s)
    (a_pause s) (a_accepted s) (a_popped s) (a_dropped s ++ [m]) (a_ops s) (a_errors s).

(** *** Producers *)
Definition producer_of (t : nat) (s : helper) : producer := default PIdle (a_threads s !! t).
(** Where a thread goes when its messages are pushed. *)
Definition after_push (msgs : list async_msg) (wait join : bool) : producer :=
  match msgs with
  | _ :: _ => PPush msgs wait join
  | [] => if join then PJoin else if wait then PWait else PIdle
  end.
(** One attempt of [push_msg]: a refusal ends the call when the policy is to
    discard, and is followed by [sleep_or_yield] and another attempt when it
    is not. *)
Definition push_msg (t : nat) (busy : bool) (s : helper) : helper :=
  match producer_of t s with
  | PPush (m :: msgs) wait join =>
      match q_enqueue (queue_size (a_settings s)) busy m (a_q s) with
      | (q, true) => set_thread t (after_push msgs wait join) (set_q q (a_accepted s ++ [m]) s)
      | (_, false) =>
          if decide (overflow_policy (a_settings s) = discard_log_msg)
          then set_thread t (after_push msgs wait join) (drop_msg m s)
          else s
      end
  | _ => s
  end.
(** [wait_empty_q]: one test of [_q.approx_size() > 0]. *)
Definition wait_empty_q (t : nat) (s : helper) : helper :=
  match producer_of t s with
  | PWait => if 0 <? len (a_q s) then s else set_thread t PIdle s
  | _ => s
  end.
(** The end of the destructor's [join]. *)
Definition join (t : nat) (s : helper) : helper :=
  match producer_of t s with
  | PJoin => if a_active s then s else set_thread t PIdle s
  | _ => s
  end.

(** [async_logger::_sink_it], [flush] and the destructor: what they push. *)
Definition async_sink_it (flush_level : level_enum) (m : log_msg) : list async_msg :=
  of_log_msg m ::
  (if level_geb (msg_level m) flush_level && negb (bool_decide (msg_level m = off))
   then [control_msg msg_flush] else []).

(** *** The worker *)
Definition handle_flush_interval (now now2 : Z) (s : helper) : helper :=
  let interval := flush_interval_ms (a_settings s) in
  if a_flush_requested s
     || (negb (interval =? 0) && (interval * 1000000 <=? now - a_last_flush s))
  then Helper (a_formatter s) (a_sink_ptrs s) (a_settings s) (a_q s) false
         (a_terminate_requested s) (a_last_pop s) now2 (a_active s)
         (flush_all (a_sink_ptrs s) (a_heap s)) (a_threads s) (a_pause s) (a_accepted s)
         (a_popped s) (a_dropped s) (a_ops s ++ [OpFlush]) (a_errors s)
  else s.
(** Whether [handle_flush_interval] moved [now] to the time of the flush. *)
Definition now_after (now now2 : Z) (s : helper) : Z :=
  if a_flush_requested s
     || (negb (flush_interval_ms (a_settings s) =? 0)
         && (flush_interval_ms (a_settings s) * 1000000 <=? now - a_last_flush s))
  then now2 else now.
Definition set_pause (p : pause) (s : helper) : helper :=
  Helper (a_formatter s) (a_sink_ptrs s) (a_settings s) (a_q s) (a_flush_requested s)
    (a_terminate_requested s) (a_last_pop s) (a_last_flush s) (a_active s) (a_heap s) (a_threads s)
    p (a_accepted s) (a_popped s) (a_dropped s) (a_ops s) (a_errors s).
Definition pop (m : async_msg) (q : list async_msg) (now : Z) (flush terminate : bool) (s : helper) :
    helper :=
  Helper (a_formatter s) (a_sink_ptrs s) (a_settings s) q (a_flush_requested s || flush)
    (a_terminate_requested s || terminate) now (a_last_flush s) (a_active s) (a_heap s)
    (a_threads s) (a_pause s) (a_accepted s) (a_popped s ++ [m]) (a_dropped s) (a_ops s) (a_errors s).
Definition set_heap (h : sinks S) (op : sink_op) (s : helper) : helper :=
  Helper (a_formatter s) (a_sink_ptrs s) (a_settings s) (a_q s) (a_flush_requested s)
    (a_terminate_requested s) (a_last_pop s) (a_last_flush s) (a_active s) h (a_threads s)
    (a_pause s) (a_accepted s) (a_popped s) (a_dropped s) (a_ops s ++ [op]) (a_errors s).

(** [_formatter->format(msg)] and the loop over the sinks. *)
Definition deliver (f : F) (ps : list nat) (m : log_msg) (h : sinks S) : sinks S * exc unit :=
  match format f m with
  | Thrown e => (h, Thrown e)
  | Ok m => log_to m ps h
  end.

Definition process_next_msg (late : bool) (now now2 : Z) (s : helper) : helper * exc bool :=
  match q_dequeue late (a_q s) with
  | Some (m, q) =>
      match am_type m with
      | msg_flush => (pop m q now true false s, Ok true)
      | msg_terminate => (pop m q now true true s, Ok true)
      | msg_log =>
          let s := pop m q now false false s in
          let '(h, r) := deliver (a_formatter s) (a_sink_ptrs s) (fill_log_msg m) (a_heap s) in
          (set_heap h (OpMsg (fill_log_msg m)) s, exc_map (fun _ => true) r)
      end
  | None =>
      let s' := handle_flush_interval now now2 s in
      let s' := set_pause (sleep_or_yield (now_after now now2 s) (a_last_pop s)) s' in
      (s', Ok (negb (a_terminate_requested s')))
  end.

Definition set_active (b : bool) (s : helper) : helper :=
  Helper (a_formatter s) (a_sink_ptrs s) (a_settings s) (a_q s) (a_flush_requested s)
    (a_terminate_requested s) (a_last_pop s) (a_last_flush s) b (a_heap s) (a_threads s)
    (a_pause s) (a_accepted s) (a_popped s) (a_dropped s) (a_ops s) (a_errors s).
Definition call_handler (e : exn) (s : helper) : helper :=
  Helper (a_formatter s) (a_sink_ptrs s) (a_settings s) (a_q s) (a_flush_requested s)
    (a_terminate_requested s) (a_last_pop s) (a_last_flush s) (a_active s) (a_heap s) (a_threads s)
    (a_pause s) (a_accepted s) (a_popped s) (a_dropped s) (a_ops s) (a_errors s ++ [what e]).
(** One turn of [worker_loop]: an exception leaves [active] as it was. *)
Definition worker_loop (late : bool) (now now2 : Z) (s : helper) : helper :=
  if a_active s then
    match process_next_msg late now now2 s with
    | (s, Ok active) => set_active active s
    | (s, Thrown e) => call_handler e s
    end
  else s.

(** *** Interleavings *)
Inductive a_event :=
| EvLog (t : nat) (flush_level : level_enum) (m : log_msg)
| EvFlush (t : nat) (wait : bool)
| EvDestroy (t : nat)
| EvPush (t : nat) (busy : bool)
| EvWait (t : nat)
| EvJoin (t : nat)
| EvWorker (late : bool) (now now2 : Z).
Definition start (t : nat) (p : producer) (s : helper) : option helper :=
  match producer_of t s with PIdle => Some (set_thread t p s) | _ => None end.
Definition a_step (e : a_event) (s : helper) : option helper :=
  match e with
  | EvLog t lvl m => start t (PPush (async_sink_it lvl m) false false) s
  | EvFlush t wait => start t (PPush [control_msg msg_flush] wait false) s
  | EvDestroy t => start t (PPush [control_msg msg_terminate] false true) s
  | EvPush t busy => Some (push_msg t busy s)
  | EvWait t => Some (wait_empty_q t s)
  | EvJoin t => Some (join t s)
  | EvWorker late now now2 => Some (worker_loop late now now2 s)
  end.
Fixpoint a_run (evs : list a_event) (s : helper) : option helper :=
  match evs with
  | [] => Some s
  | e :: evs => match a_step e s with Some s => a_run evs s | None => None end
  end.
End Helper.
Arguments helper F S : clear implicits.
