(* ===== verification/AsyncLogFacts.v ===== *)
(** * The asynchronous logger: delivery in order, and what a full queue or a
    terminated worker loses *)
From S2P Require Import Prelude Cxx Logging AsyncLog.

Open Scope Z_scope.

Definition is_log (m : async_msg) : Prop := am_type m = msg_log.
#[export] Instance is_log_dec m : Decision (is_log m).
Proof. unfold is_log. apply _. Defined.

Section Delivery.
Context {F S : Type} `{SinkImpl S}.
Variable format : F -> log_msg -> exc log_msg.
Variables (f : F) (ps : list nat) (st : async_settings) (h0 : sinks S).
Implicit Types s : helper F S.

(** Replaying what was done to the sinks: their state, and what was thrown. *)
Definition replay_op (h : sinks S) (op : sink_op) : sinks S :=
  match op with OpMsg m => (deliver format f ps m h).1 | OpFlush => flush_all ps h end.
Definition op_error (h : sinks S) (op : sink_op) : list bytes :=
  match op with
  | OpMsg m => match (deliver format f ps m h).2 with Thrown e => [what e] | Ok _ => [] end
  | OpFlush => []
  end.
Definition replay (ops : list sink_op) : sinks S := fold_left replay_op ops h0.
Fixpoint errors_from (h : sinks S) (ops : list sink_op) : list bytes :=
  match ops with [] => [] | op :: ops => op_error h op ++ errors_from (replay_op h op) ops end.
Definition op_msg (op : sink_op) : option log_msg := match op with OpMsg m => Some m | OpFlush => None end.
Definition is_terminate (m : async_msg) : bool := bool_decide (am_type m = msg_terminate).

Lemma errors_from_app h ops1 ops2 :
  errors_from h (ops1 ++ ops2) = errors_from h ops1 ++ errors_from (fold_left replay_op ops1 h) ops2.
Proof. revert h; induction ops1 as [|op ops1 IH]; intros h; simpl; [done|]. by rewrite IH, app_assoc. Qed.
Lemma replay_snoc ops op : replay (ops ++ [op]) = replay_op (replay ops) op.
Proof. unfold replay. by rewrite fold_left_app. Qed.

Record inv s : Prop := {
  i_const : a_formatter s = f /\ a_sink_ptrs s = ps /\ a_settings s = st;
  i_fifo : a_accepted s = a_popped s ++ a_q s;
  i_bound : len (a_q s) <= Z.max 0 (queue_size st);
  i_heap : a_heap s = replay (a_ops s);
  i_errors : a_errors s = errors_from h0 (a_ops s);
  i_msgs : omap op_msg (a_ops s) = fill_log_msg <$> filter is_log (a_popped s);
  i_dropped : overflow_policy st = block_retry -> a_dropped s = [];
  i_terminate : a_terminate_requested s = existsb is_terminate (a_popped s);
  i_pending : a_terminate_requested s = true -> a_active s = true -> a_flush_requested s = true;
  i_exit : a_active s = false -> a_terminate_requested s = true /\ last (a_ops s) = Some OpFlush
}.

Lemma inv_thread t p s : inv s -> inv (set_thread t p s).
Proof. by intros []. Qed.
Lemma inv_push t busy s : inv s -> inv (push_msg t busy s).
Proof.
  intros Hi. unfold push_msg. destruct (producer_of t s) as [|[|m msgs] wait jn| |]; try done.
  unfold q_enqueue. destruct (busy || _) eqn:Hfull.
  - case_decide as Hpol; [|done]. apply inv_thread. destruct Hi as [(Hf & Hp & Hs) ? ? ? ? ? ? ? ? ?].
    split; try done. rewrite Hs in Hpol. congruence.
  - bool_to_prop. apply inv_thread. destruct Hi as [(Hf & Hp & Hs) ? ? ? ? ? ? ? ? ?]. split; try done; simpl.
    + rewrite i_fifo0. by rewrite app_assoc.
    + rewrite Hs in *. autorewrite with cxx. lia.
Qed.
(** A control message is popped. *)
Lemma inv_pop_control m q now s :
  inv s -> a_active s = true -> a_q s = m :: q -> am_type m <> msg_log ->
  inv (set_active true (pop m q now true (is_terminate m) s)).
Proof.
  intros [Hc ? ? ? ? ? ? ? ? ?] Hact Hq Hm. split; try done; simpl.
  - by rewrite i_fifo0, Hq, <- app_assoc.
  - rewrite Hq in *. autorewrite with cxx in *. lia.
  - by rewrite i_msgs0, filter_app, filter_cons_False, filter_nil, app_nil_r.
  - rewrite existsb_app, i_terminate0. simpl. by rewrite orb_false_r.
  - intros _ _. by rewrite orb_true_r.
Qed.
(** A log message is popped and delivered; the worker stays active, also when
    a sink throws. *)
Lemma inv_pop_log m q now s :
  inv s -> a_active s = true -> a_q s = m :: q -> is_log m ->
  let s1 := pop m q now false false s in
  let '(h, r) := deliver format (a_formatter s1) (a_sink_ptrs s1) (fill_log_msg m) (a_heap s1) in
  let s2 := set_heap h (OpMsg (fill_log_msg m)) s1 in
  inv (match r with Ok _ => set_active true s2 | Thrown e => call_handler e s2 end).
Proof.
  intros [(Hf & Hp & Hs) ? ? ? ? ? ? ? ? ?] Hact Hq Hm. simpl. rewrite Hf, Hp.
  destruct (deliver format f ps (fill_log_msg m) (a_heap s)) as [h r] eqn:Hd.
  assert (Hrep : h = replay (a_ops s ++ [OpMsg (fill_log_msg m)])).
  { rewrite replay_snoc. simpl. by rewrite <- i_heap0, Hd. }
  assert (Herr : errors_from h0 (a_ops s ++ [OpMsg (fill_log_msg m)])
                 = a_errors s ++ match r with Thrown e => [what e] | Ok _ => [] end).
  { rewrite errors_from_app, <- i_errors0. change (fold_left replay_op (a_ops s) h0) with (replay (a_ops s)).
    simpl. by rewrite <- i_heap0, Hd, app_nil_r. }
  assert (Hmsgs : omap op_msg (a_ops s ++ [OpMsg (fill_log_msg m)])
                  = fill_log_msg <$> filter is_log (a_popped s ++ [m])).
  { rewrite omap_app, i_msgs0, filter_app, filter_cons_True, filter_nil, fmap_app by done. done. }
  assert (Hter : a_terminate_requested s || false = existsb is_terminate (a_popped s ++ [m])).
  { rewrite existsb_app, i_terminate0. simpl. unfold is_terminate. rewrite Hm. done. }
  assert (Hlen : len q <= Z.max 0 (queue_size st)) by (rewrite Hq in *; autorewrite with cxx in *; lia).
  assert (Hacc : a_accepted s = (a_popped s ++ [m]) ++ q) by (by rewrite i_fifo0, Hq, <- app_assoc).
  destruct r as [u|e]; split; try done; simpl; try congruence;
    first [by rewrite Herr, ?app_nil_r|rewrite !orb_false_r; by auto].
Qed.
(** The queue is empty (or its next value is late). *)
Lemma inv_empty now now2 s :
  inv s -> a_active s = true ->
  let s1 := set_pause (sleep_or_yield (now_after now now2 s) (a_last_pop s)) (handle_flush_interval now now2 s) in
  inv (set_active (negb (a_terminate_requested s1)) s1).
Proof.
  intros Hi Hact. pose proof Hi as [(Hf & Hp & Hs) ? ? ? ? ? ? ? ? ?].
  unfold handle_flush_interval. destruct (a_flush_requested s || _) eqn:Hfl; simpl.
  - split; try done; simpl.
    + by rewrite replay_snoc, <- i_heap0, Hp.
    + rewrite errors_from_app, <- i_errors0. simpl. by rewrite app_nil_r.
    + by rewrite omap_app, i_msgs0, app_nil_r.
    + by intros ->.
    + intros Ht%negb_false_iff. split; [done|]. by rewrite last_snoc.
  - bool_to_prop. split; try done; simpl.
    + intros Ht Hn. by rewrite Ht in Hn.
    + intros Ht%negb_false_iff. rewrite i_pending0 in *; done.
Qed.
Lemma inv_worker late now now2 s : inv s -> inv (worker_loop format late now now2 s).
Proof.
  intros Hi. unfold worker_loop. destruct (a_active s) eqn:Hact; [|done].
  unfold process_next_msg, q_dequeue. destruct (a_q s) as [|m q] eqn:Hq; [by apply inv_empty|].
  destruct late; [by apply inv_empty|]. destruct (am_type m) eqn:Hm.
  - pose proof (inv_pop_log m q now s Hi Hact Hq Hm) as Hl. simpl in Hl |- *.
    destruct (deliver _ _ _ _ _) as [h [u|e]]; exact Hl.
  - pose proof (inv_pop_control m q now s Hi Hact Hq ltac:(congruence)) as Hc.
    unfold is_terminate in Hc. by rewrite Hm in Hc.
  - pose proof (inv_pop_control m q now s Hi Hact Hq ltac:(congruence)) as Hc.
    unfold is_terminate in Hc. by rewrite Hm in Hc.
Qed.
Lemma helper_inv_step e s s' : inv s -> a_step format e s = Some s' -> inv s'.
Proof.
  intros Hi. destruct e; simpl; unfold start; intros Hs;
    try (case_match; [|done..]); simplify_eq; auto using inv_thread, inv_push, inv_worker.
  - unfold wait_empty_q. repeat case_match; auto using inv_thread.
  - unfold join. repeat case_match; auto using inv_thread.
Qed.
Lemma helper_inv_run evs s s' : inv s -> a_run format evs s = Some s' -> inv s'.
Proof.
  revert s; induction evs as [|e evs IH]; intros s Hi; simpl; [by intros [= <-]|].
  destruct (a_step format e s) as [s1|] eqn:E; [|done]. eauto using helper_inv_step.
Qed.
Lemma helper_inv_new now : inv (new_helper f ps st h0 now).
Proof. split; try done; simpl. unfold len; simpl. lia. Qed.

(** ** The threads: with the blocking policy every message a thread pushes is
    accepted, in the thread's order *)
Definition pending (t : nat) s : list async_msg :=
  match producer_of t s with PPush msgs _ _ => msgs | _ => [] end.
Definition pushed_by (t : nat) (e : a_event) : list async_msg :=
  match e with
  | EvLog t' lvl m => if decide (t' = t) then async_sink_it lvl m else []
  | EvFlush t' _ => if decide (t' = t) then [control_msg msg_flush] else []
  | EvDestroy t' => if decide (t' = t) then [control_msg msg_terminate] else []
  | EvPush _ _ | EvWait _ | EvJoin _ | EvWorker _ _ _ => []
  end.
(** The messages of a thread among messages with their threads. *)
Definition of_thread (t : nat) (tagged : list (nat * async_msg)) : list async_msg :=
  (filter (fun tm => tm.1 = t) tagged).*2.
Definition ordered (pushed : nat -> list async_msg) s : Prop :=
  overflow_policy (a_settings s) = block_retry
  /\ exists tagged, tagged.*2 = a_accepted s /\ forall t, of_thread t tagged ++ pending t s = pushed t.

Lemma producer_of_set t t' p s :
  producer_of t' (set_thread t p s) = if decide (t' = t) then p else producer_of t' s.
Proof.
  unfold producer_of. simpl. case_decide; subst; [by rewrite lookup_insert_eq|].
  by rewrite lookup_insert_ne.
Qed.
(** Only the thread and the queue of a push matter. *)
Lemma ordered_same pushed s s' :
  ordered pushed s -> a_settings s' = a_settings s -> a_accepted s' = a_accepted s ->
  (forall t, pending t s' = pending t s) -> ordered pushed s'.
Proof.
  intros [Hp (tagged & Ha & Ht)] Hs' Ha' Hp'. split; [congruence|]. exists tagged.
  split; [congruence|]. intros t. by rewrite Hp'.
Qed.
Lemma ordered_start pushed t p s s' :
  ordered pushed s -> start t p s = Some s' ->
  ordered (fun t' => pushed t' ++ if decide (t = t') then match p with PPush msgs _ _ => msgs | _ => [] end else []) s'.
Proof.
  unfold start. intros [Hp (tagged & Ha & Ht)] Hs. destruct (producer_of t s) eqn:Hidle; simplify_eq.
  split; [done|]. exists tagged. split; [done|]. intros t'. unfold pending. rewrite producer_of_set, <- Ht, <- app_assoc.
  f_equal. destruct (decide (t' = t)) as [->|Hne].
  - rewrite decide_True by done. unfold pending. by rewrite Hidle.
  - rewrite decide_False by done. by rewrite app_nil_r.
Qed.
Lemma ordered_push pushed t busy s : ordered pushed s -> ordered pushed (push_msg t busy s).
Proof.
  intros Ho. unfold push_msg. destruct (producer_of t s) as [|[|m msgs] wait jn| |] eqn:Hpr; try done.
  pose proof Ho as [Hp (tagged & Ha & Ht)]. unfold q_enqueue. destruct (busy || _).
  { rewrite Hp. by case_decide. }
  split; [done|]. exists (tagged ++ [(t, m)]). split; [by rewrite fmap_app, Ha|]. intros t'.
  unfold pending, of_thread. rewrite producer_of_set, filter_app, fmap_app, <- Ht.
  change (producer_of t' (set_q _ _ s)) with (producer_of t' s). unfold pending, of_thread. case_decide as E.
  - subst t'. rewrite filter_cons_True, filter_nil, Hpr, <- app_assoc by done. simpl. f_equal.
    destruct msgs; [by destruct jn, wait|done].
  - rewrite filter_cons_False, filter_nil by (simpl; congruence). simpl. by rewrite app_nil_r.
Qed.
Lemma worker_keeps late now now2 s :
  let s' := worker_loop format late now now2 s in
  a_settings s' = a_settings s /\ a_accepted s' = a_accepted s /\ a_threads s' = a_threads s.
Proof.
  unfold worker_loop, process_next_msg, handle_flush_interval. repeat case_match; simplify_eq/=; try done;
    repeat case_match; simplify_eq/=; done.
Qed.
Lemma ordered_step pushed e s s' :
  ordered pushed s -> a_step format e s = Some s' -> ordered (fun t => pushed t ++ pushed_by t e) s'.
Proof.
  intros Ho Hs.
  assert (Hquiet : ordered pushed s' -> ordered (fun t => pushed t ++ []) s').
  { intros [Hp (tagged & Ha & Ht)]. split; [done|]. exists tagged. split; [done|]. intros t.
    by rewrite app_nil_r. }
  destruct e; simpl in Hs |- *; try (exact (ordered_start _ _ _ _ _ Ho Hs)); simplify_eq; apply Hquiet.
  - by apply ordered_push.
  - unfold wait_empty_q. destruct (producer_of t s) eqn:Hpr; try done. case_match; [done|].
    eapply ordered_same; [done..|]. intros t'. unfold pending. rewrite producer_of_set. case_decide; [|done].
    subst. by rewrite Hpr.
  - unfold join. destruct (producer_of t s) eqn:Hpr; try done. case_match; [done|].
    eapply ordered_same; [done..|]. intros t'. unfold pending. rewrite producer_of_set. case_decide; [|done].
    subst. by rewrite Hpr.
  - destruct (worker_keeps late now now2 s) as (Hst & Hac & Hth).
    eapply ordered_same; [done..|]. intros t. unfold pending, producer_of. by rewrite Hth.
Qed.
Lemma ordered_run pushed evs s s' :
  ordered pushed s -> a_run format evs s = Some s' ->
  ordered (fun t => pushed t ++ (evs ≫= pushed_by t)) s'.
Proof.
  revert pushed s; induction evs as [|e evs IH]; intros pushed s Ho; simpl.
  - intros [= <-]. destruct Ho as [Hp (tagged & Ha & Ht)]. split; [done|]. exists tagged. split; [done|].
    intros t. by rewrite app_nil_r.
  - destruct (a_step format e s) as [s1|] eqn:E; [|done]. intros Hr.
    destruct (IH _ _ (ordered_step _ _ _ _ Ho E) Hr) as [Hp (tagged & Ha & Ht)]. split; [done|].
    exists tagged. split; [done|]. intros t. by rewrite Ht, <- app_assoc.
Qed.
(** From the start: what the threads pushed, in their orders, is what the
    queue accepted and what they still hold. *)
Lemma thread_order now evs s :
  overflow_policy st = block_retry -> a_run format evs (new_helper f ps st h0 now) = Some s ->
  exists tagged, tagged.*2 = a_accepted s
  /\ forall t, of_thread t tagged ++ pending t s = evs ≫= pushed_by t.
Proof.
  intros Hp Hr. apply (ordered_run (fun _ => [])) in Hr as [_ Hr]; [exact Hr|].
  split; [done|]. by exists [].
Qed.

Lemma first_terminate (l : list async_msg) :
  existsb is_terminate l = true ->
  exists before m after, l = before ++ m :: after /\ am_type m = msg_terminate
    /\ existsb is_terminate before = false.
Proof.
  induction l as [|x l IH]; simpl; [done|]. destruct (is_terminate x) eqn:Hx; simpl.
  - intros _. exists [], x, l. split; [done|]. split; [|done]. unfold is_terminate in Hx. by bool_to_prop.
  - intros (before & m & after & -> & Hm & Hb)%IH. exists (x :: before), m, after. simpl. by rewrite Hx.
Qed.

(** (C25) Delivery.  However the threads that log, flush or destroy the
    logger are interleaved with the worker, and whatever the formatter and the
    sinks throw: the messages popped are the messages accepted, in order, up to
    those still in the queue, which is never over its size; the sinks got
    exactly the log messages popped, each once, in that order, with flushes
    between, and every exception went to the error handler, without stopping
    the worker; with the blocking policy nothing is given up, and every
    thread's messages are accepted in the thread's order, up to those it still
    holds; and when the worker has ended, the sinks were flushed after the last
    message they got, a termination message was popped, every log message
    accepted before the first one was given to the sinks, and nothing is left
    in the queue if nothing was accepted after it.  What is accepted after a
    termination message may stay in the queue for good, see [left_behind]. *)
Theorem async_delivery now evs s :
  a_run format evs (new_helper f ps st h0 now) = Some s ->
  a_accepted s = a_popped s ++ a_q s /\ len (a_q s) <= Z.max 0 (queue_size st)
  /\ omap op_msg (a_ops s) = fill_log_msg <$> filter is_log (a_popped s)
  /\ a_heap s = replay (a_ops s) /\ a_errors s = errors_from h0 (a_ops s)
  /\ (overflow_policy st = block_retry -> a_dropped s = []
       /\ exists tagged, tagged.*2 = a_accepted s
          /\ forall t, of_thread t tagged ++ pending t s = evs ≫= pushed_by t)
  /\ (a_active s = false ->
       last (a_ops s) = Some OpFlush
       /\ exists before m after, a_popped s = before ++ m :: after /\ am_type m = msg_terminate
          /\ existsb is_terminate before = false
          /\ (fill_log_msg <$> filter is_log before) `prefix_of` omap op_msg (a_ops s)
          /\ (a_accepted s = before ++ [m] -> a_q s = [])).
Proof.
  intros Hr. destruct (helper_inv_run _ _ _ (helper_inv_new now) Hr) as [_ Hfifo ? ? ? Hmsgs ? Ht ? Hx].
  do 5 (split; [done|]). split; [by eauto using thread_order|]. intros Hact. destruct (Hx Hact) as [Htr Hlast]. split; [done|].
  rewrite Ht in Htr. destruct (first_terminate _ Htr) as (before & m & after & Hpop & Hm & Hb).
  exists before, m, after. do 3 (split; [done|]). split.
  - rewrite Hmsgs, Hpop, filter_app, fmap_app. by eexists.
  - rewrite Hfifo, Hpop, <- app_assoc, <- app_comm_cons. intros [= Hnil]%(inj (app before)). by apply app_eq_nil in Hnil as [_ ?].
Qed.
End Delivery.

(** ** A sink that keeps the texts it gets, and refuses one *)
#[local] Instance text_sink : SinkImpl (list bytes) := {
  sink_it m t := if decide (raw m = !"bad") then (t, Thrown (runtime_error !"disk full"))
                 else (t ++ [raw m], Ok tt);
  sink_flush t := t ++ [ !"<flush>" ]
}.
Definition plain_format (f : unit) (m : log_msg) : exc log_msg := Ok m.
Definition text_msg (text : bytes) : log_msg := LogMsg !"log" info 0 1 text [].
Definition async_demo (policy : async_overflow_policy) : helper unit (list bytes) :=
  new_helper tt [0%nat] (AsyncSettings 2 policy 0) {[ 0%nat := new_sink [] ]} 0.
(** Two threads fill a queue of two, a third message is refused and pushed
    again; then the logger is destroyed. *)
Definition async_events : list a_event :=
  [EvLog 1 off (text_msg !"one"); EvLog 2 off (text_msg !"bad"); EvPush 2 false; EvPush 1 false;
   EvLog 3 off (text_msg !"two"); EvPush 3 false; EvWorker false 1 1; EvPush 3 false;
   EvWorker false 2 2; EvDestroy 1; EvPush 1 false; EvWorker false 3 3; EvWorker true 4 4;
   EvWorker false 5 5; EvWorker false 6 6; EvJoin 1].
Definition async_end (policy : async_overflow_policy) : helper unit (list bytes) :=
  default (async_demo policy) (a_run plain_format async_events (async_demo policy)).
Lemma async_delivery_witness :
  a_active (async_end block_retry) = false
  /\ (sink_state <$> a_heap (async_end block_retry)) !! 0%nat = Some [ !"one"; !"two"; !"<flush>" ]
  /\ a_errors (async_end block_retry) = [ !"disk full" ]
  /\ a_accepted (async_end block_retry)
     = a_popped (async_end block_retry) ++ a_q (async_end block_retry).
Proof.
  split; [vm_compute; reflexivity|]. split; [vm_compute; reflexivity|]. split; [vm_compute; reflexivity|].
  assert (Hr : a_run plain_format async_events (async_demo block_retry) = Some (async_end block_retry))
    by (vm_compute; reflexivity).
  destruct (async_delivery plain_format tt [0%nat] (AsyncSettings 2 block_retry 0) {[ 0%nat := new_sink [] ]}
    0 async_events _ Hr) as [Hacc _]. exact Hacc.
Defined.
(** With the other policy the refused message is lost. *)
Lemma async_discard_demo :
  (sink_state <$> a_heap (async_end discard_log_msg)) !! 0%nat = Some [ !"one"; !"<flush>" ]
  /\ am_txt <$> a_dropped (async_end discard_log_msg) = [ !"two" ].
Proof. split; vm_compute; reflexivity. Qed.

(** A message that a thread pushes behind the termination message of another
    thread may stay in the queue: the worker ends, the destructor's [join]
    returns, and the sinks never get the message. *)
Lemma left_behind :
  let evs := [EvDestroy 1; EvPush 1 false; EvWorker false 1 1; EvWorker false 2 2;
              EvLog 2 off (text_msg !"late"); EvPush 2 false; EvJoin 1] in
  option_map (fun s => (producer_of 1 s, a_active s, am_txt <$> a_q s, (sink_state <$> a_heap s) !! 0%nat))
    (a_run plain_format evs (async_demo block_retry))
  = Some (PIdle, false, [ !"late" ], Some [ !"<flush>" ]).
Proof. vm_compute. reflexivity. Qed.

(** The policy that discards applies to the termination message as well: on a
    full queue it is lost, the worker empties the queue and goes on waiting,
    and the destructor's [join] waits for it. *)
Lemma termination_discarded :
  let evs := [EvLog 1 off (text_msg !"one"); EvPush 1 false; EvLog 1 off (text_msg !"two"); EvPush 1 false;
              EvDestroy 1; EvPush 1 false; EvWorker false 1 1; EvWorker false 2 2; EvWorker false 3 3; EvJoin 1] in
  option_map (fun s => (producer_of 1 s, a_active s, a_q s, am_type <$> a_dropped s))
    (a_run plain_format evs (async_demo discard_log_msg))
  = Some (PJoin, true, [], [msg_terminate]).
Proof. vm_compute. reflexivity. Qed.

(** [flush(true)] returns when its message has been popped: the sinks need not
    have been flushed yet (the worker does that when it next finds the queue
    empty). *)
Lemma flush_returns_early :
  let evs := [EvLog 1 off (text_msg !"one"); EvPush 1 false; EvFlush 1 true; EvPush 1 false;
              EvWorker false 1 1; EvWorker false 2 2; EvWait 1] in
  exists s, a_run plain_format evs (async_demo block_retry) = Some s /\ producer_of 1 s = PIdle
    /\ (sink_state <$> a_heap s) !! 0%nat = Some [ !"one" ].
Proof. eexists. split; [reflexivity|]. split; vm_compute; reflexivity. Qed.
