(* ===== verification/AsyncQueue.v ===== *)
(** * The queue between producers and worker is the lock-free one

    [AsyncLog] works on a list with [q_enqueue], which may refuse when it is
    told that the queue is busy, and [q_dequeue], which may refuse when it is
    told that a value is late.  The bounded queue under the memory orders of
    its code refines that list: every access of it is one of the two
    operations, or changes nothing, a refusal included. *)
From S2P Require Import Prelude Cxx Logging MpmcQueue Atomics WeakQueue WeakQueueFacts AsyncLog.

Open Scope Z_scope.

(** A step on the list that [AsyncLog] allows, by the thread's place in the
    code. *)
Definition list_step {T} (size : Z) (pc : qpc T) (l l' : list T) : Prop :=
  match pc with
  | ECas x _ => exists busy b, q_enqueue size busy x l = (l', b)
  | DCas _ => l' = l \/ exists x, q_dequeue false l = Some (x, l')
  | _ => l' = l
  end.

(** (C31) The queue refines the list the asynchronous logger is verified with.
    From any state reached from a new queue, by any interleaving and any reads
    the memory orders allow, each access acts on the values held as follows:
    the exchange of [enqueue] is [q_enqueue] on the list (and never exceeds
    the capacity), the exchange of [dequeue] changes nothing or is
    [q_dequeue], and every other access, refusals included, changes nothing. *)
Theorem async_queue_refines {T} size sched (w0 w w' : wqueue T) t c :
  new_wqueue size = Ok w0 -> wq_run sched w0 = Some (w, false) -> wq_step t c w = Next w' ->
  len (w_in w') + size <= 2 ^ 62 ->
  list_step size (wthread t w).1 (wheld w) (wheld w').
Proof.
  intros Hnew Hrun Hstep Hb.
  destruct (weak_step_list size sched w0 w w' t c Hnew Hrun Hstep Hb)
    as [->|[(x & pos & Hpc & -> & Hl)|(x & pos & Hpc & ->)]].
  - destruct (wthread t w).1; simpl; try done; [|by left]. by exists true, false.
  - rewrite Hpc. exists false, true. unfold q_enqueue. cbn [orb].
    destruct (Z.leb_spec size (len (wheld w))); [|done]. rewrite len_app, len_cons, len_nil in Hl. lia.
  - rewrite Hpc. right. by exists x.
Qed.
Lemma async_queue_refines_witness :
  let w := final (take 17 stale) two_weak_cells in
  let w' := after 4 (AT 0) w in
  wheld w = [7; 8]%nat /\ wheld w' = [8]%nat
  /\ (wthread 4%nat w).1 = DCas 0 /\ list_step 2 (wthread 4%nat w).1 (wheld w) (wheld w').
Proof.
  split; [vm_compute; reflexivity|]. split; [vm_compute; reflexivity|].
  split; [vm_compute; reflexivity|].
  refine (async_queue_refines 2 (take 17 stale) two_weak_cells _ _ 4 (AT 0) eq_refl _ _ _).
  - apply run_final. vm_compute. reflexivity.
  - apply step_after. vm_compute. reflexivity.
  - vm_compute. discriminate.
Defined.
