(* ===== verification/Console.v ===== *)
(** * Console, stream and composite sinks,
      [src/src/spdlog/sinks/stdout_sinks.h], [ostream_sink.h], [null_sink.h],
      [ansicolor_sink.h], [syslog_sink.h], [dist_sink.h]; the logger factories
      of [details/spdlog_impl.h]; and the default error handler of
      [details/logger_impl.h]

    Sinks refer to each other by pointers and may be shared, so they live in a
    heap; what they write goes to the streams of the process.  A stream keeps
    what was written and how much of it was flushed.  [None] is a call that
    does not return: a sink that reaches itself waits for its own mutex (or
    recurses without end). *)
From S2P Require Import Prelude Cxx Logging Fmt PatternFormatter FmtBuffer FmtDouble FmtFormat.

Open Scope Z_scope.

(** ** Streams *)
Record stream := Stream { written : bytes; flushed : bytes }.
Definition empty_stream : stream := Stream [] [].
(** [fwrite] and [std::ostream::write] *)
Definition stream_write (text : bytes) (s : stream) : stream :=
  Stream (written s ++ text) (flushed s).
(** [fflush] and [std::ostream::flush] *)
Definition stream_flush (s : stream) : stream := Stream (written s) (written s).

(** [stdout_sink::_sink_it] and [stdout_sink::flush]; those of [stderr_sink]
    differ in the stream. *)
Definition std_sink_it (m : log_msg) (s : stream) : stream :=
  stream_flush (stream_write (formatted m) s).
Definition std_flush (s : stream) : stream := stream_flush s.
(** A logger whose only sinks are of this kind. *)
#[export] Instance stdout_sink_impl : SinkImpl stream := {
  sink_it m s := (std_sink_it m s, Ok tt);
  sink_flush := std_flush
}.

(** [ostream_sink::_sink_it] *)
Definition ostream_sink_it (force_flush : bool) (m : log_msg) (s : stream) : stream :=
  let s := stream_write (formatted m) s in
  if force_flush then stream_flush s else s.

(** ** ansicolor_sink *)
Definition esc (code : string) : bytes := "027"%char :: "["%char :: lit code ++ !"m".
Definition reset := esc "00".
Definition bold := esc "1".
Definition red := esc "31".
Definition yellow := esc "33".
Definition cyan := esc "36".
Definition on_red := esc "41".
(** [std::map<level_enum, std::string> colors_], with every level set. *)
Definition colors := level_enum -> bytes.
Definition default_colors : colors := fun l =>
  match l with
  | trace => cyan
  | debug => cyan
  | info => bold
  | warn => yellow ++ bold
  | err => red ++ bold
  | critical => bold ++ on_red
  | off => reset
  end.
(** The message handed to the wrapped sink: [raw] is not copied. *)
Definition color_msg (cs : colors) (m : log_msg) : log_msg :=
  LogMsg (msg_logger_name m) (msg_level m) (msg_time m) (msg_thread_id m) []
    (cs (msg_level m) ++ formatted m ++ reset).

(** ** syslog_sink *)
Definition LOG_CRIT := 2.
Definition LOG_ERR := 3.
Definition LOG_WARNING := 4.
Definition LOG_INFO := 6.
Definition LOG_DEBUG := 7.
Definition syslog_prio_from_level (m : log_msg) : Z :=
  match msg_level m with
  | trace => LOG_DEBUG
  | debug => LOG_DEBUG
  | info => LOG_INFO
  | warn => LOG_WARNING
  | err => LOG_ERR
  | critical => LOG_CRIT
  | off => LOG_INFO
  end.
(** [c_str()] handed to a function that reads up to the first NUL. *)
Fixpoint c_string (s : bytes) : bytes :=
  match s with
  | [] => []
  | c :: s => if decide (c = nul) then [] else c :: c_string s
  end.
Definition syslog_entry (m : log_msg) : Z * bytes :=
  (syslog_prio_from_level m, c_string (raw m)).

(** ** The sinks of a process *)
Inductive sink_kind :=
| stdout_sink
| stderr_sink
| ostream_sink (_ostream : nat) (_force_flush : bool)
| null_sink
| syslog_sink
| ansicolor_sink (sink_ : nat) (colors_ : colors)
| dist_sink (_sinks : list nat).

Record console := Console {
  c_sinks : gmap nat (sink sink_kind);
  c_next : nat;
  c_stdout : stream;
  c_stderr : stream;
  c_ostreams : gmap nat stream;
  c_syslog : list (Z * bytes)
}.
Definition on_stdout (f : stream -> stream) (c : console) : console :=
  Console (c_sinks c) (c_next c) (f (c_stdout c)) (c_stderr c) (c_ostreams c) (c_syslog c).
Definition on_stderr (f : stream -> stream) (c : console) : console :=
  Console (c_sinks c) (c_next c) (c_stdout c) (f (c_stderr c)) (c_ostreams c) (c_syslog c).
Definition on_ostream (os : nat) (f : stream -> stream) (c : console) : console :=
  Console (c_sinks c) (c_next c) (c_stdout c) (c_stderr c)
    (<[os := f (default empty_stream (c_ostreams c !! os))]> (c_ostreams c)) (c_syslog c).
Definition on_syslog (e : Z * bytes) (c : console) : console :=
  Console (c_sinks c) (c_next c) (c_stdout c) (c_stderr c) (c_ostreams c) (c_syslog c ++ [e]).
Definition with_sinks (h : gmap nat (sink sink_kind)) (n : nat) (c : console) : console :=
  Console h n (c_stdout c) (c_stderr c) (c_ostreams c) (c_syslog c).

(** [for (auto &sink : _sinks) if (sink->should_log(msg.level)) sink->log(msg);],
    the loop of [dist_sink::_sink_it] and of [logger::_sink_it], over the
    virtual [log]. *)
Fixpoint log_each (log : nat -> console -> option console) (lvl : level_enum) (ps : list nat)
    (c : console) : option console :=
  match ps with
  | [] => Some c
  | p :: ps =>
      match c_sinks c !! p with
      | Some s =>
          if sink_should_log lvl s
          then match log p c with Some c => log_each log lvl ps c | None => None end
          else log_each log lvl ps c
      | None => None
      end
  end.
(** [for (auto &sink : _sinks) sink->flush();] *)
Fixpoint flush_each (flush : nat -> console -> option console) (ps : list nat) (c : console) :
    option console :=
  match ps with
  | [] => Some c
  | p :: ps => match flush p c with Some c => flush_each flush ps c | None => None end
  end.

(** The virtual [sink::log]; the fuel bounds the nesting of sinks. *)
Fixpoint console_log (fuel : nat) (m : log_msg) (p : nat) (c : console) : option console :=
  match fuel with
  | O => None
  | S fuel =>
      match sink_state <$> c_sinks c !! p with
      | None => None
      | Some stdout_sink => Some (on_stdout (std_sink_it m) c)
      | Some stderr_sink => Some (on_stderr (std_sink_it m) c)
      | Some (ostream_sink os ff) => Some (on_ostream os (ostream_sink_it ff m) c)
      | Some null_sink => Some c
      | Some syslog_sink => Some (on_syslog (syslog_entry m) c)
      | Some (ansicolor_sink p cs) => console_log fuel (color_msg cs m) p c
      | Some (dist_sink ps) => log_each (console_log fuel m) (msg_level m) ps c
      end
  end.
(** The virtual [sink::flush]. *)
Fixpoint console_flush (fuel : nat) (p : nat) (c : console) : option console :=
  match fuel with
  | O => None
  | S fuel =>
      match sink_state <$> c_sinks c !! p with
      | None => None
      | Some stdout_sink => Some (on_stdout std_flush c)
      | Some stderr_sink => Some (on_stderr std_flush c)
      | Some (ostream_sink os _) => Some (on_ostream os stream_flush c)
      | Some null_sink | Some syslog_sink => Some c
      | Some (ansicolor_sink p _) => console_flush fuel p c
      | Some (dist_sink ps) => flush_each (console_flush fuel) ps c
      end
  end.

(** Changing a composite sink. *)
Definition on_sink (f : sink_kind -> sink_kind) (p : nat) (c : console) : console :=
  with_sinks (alter (fun s => Sink (sink_level s) (f (sink_state s))) p (c_sinks c)) (c_next c) c.
Definition add_sink (q : nat) : nat -> console -> console :=
  on_sink (fun k => match k with dist_sink ps => dist_sink (ps ++ [q]) | k => k end).
Definition remove_sink (q : nat) : nat -> console -> console :=
  on_sink (fun k =>
    match k with dist_sink ps => dist_sink (filter (fun p => p <> q) ps) | k => k end).
Definition set_color (l : level_enum) (color : bytes) : nat -> console -> console :=
  on_sink (fun k =>
    match k with
    | ansicolor_sink p cs => ansicolor_sink p (fun l' => if decide (l' = l) then color else cs l')
    | k => k
    end).

(** ** Factories, [spdlog_impl.h] *)

(** The singletons of [instance()]: one object per stream and kind of mutex. *)
Definition stdout_sink_mt_instance : nat := 0.
Definition stdout_sink_st_instance : nat := 1.
Definition stderr_sink_mt_instance : nat := 2.
Definition stderr_sink_st_instance : nat := 3.
Definition new_console : console :=
  Console (<[stdout_sink_mt_instance := new_sink stdout_sink]>
          (<[stdout_sink_st_instance := new_sink stdout_sink]>
          (<[stderr_sink_mt_instance := new_sink stderr_sink]>
          {[stderr_sink_st_instance := new_sink stderr_sink]}))) 4 empty_stream empty_stream ∅ [].

(** [std::make_shared<Sink>(args...)] *)
Definition make_sink (k : sink_kind) (c : console) : console * nat :=
  (with_sinks (<[c_next c := new_sink k]> (c_sinks c)) (S (c_next c)) c, c_next c).

Section Factories.
Context {F H : Type}.
Variables (default_formatter : F) (default_handler : H) (queue_size_ok : Z -> bool).
Implicit Types w : log_heap F H.
Definition registry_create (name : bytes) (ps : list nat) w : exc (log_heap F H * nat) :=
  create default_formatter default_handler queue_size_ok name ps w.

Definition stdout_logger_mt (name : bytes) w := registry_create name [stdout_sink_mt_instance] w.
Definition stdout_logger_st (name : bytes) w := registry_create name [stdout_sink_st_instance] w.
Definition stderr_logger_mt (name : bytes) w := registry_create name [stderr_sink_mt_instance] w.
Definition stderr_logger_st (name : bytes) w := registry_create name [stderr_sink_st_instance] w.

(** [spdlog::create<Sink>(logger_name, args...)].  When the name is taken the
    new sink is destroyed again: an [ansicolor_sink] flushes the sink it
    wraps. *)
Definition destroy_sink (p : nat) (c : console) : console :=
  let c' := match sink_state <$> c_sinks c !! p with
            | Some (ansicolor_sink _ _) => default c (console_flush (S (size (c_sinks c))) p c)
            | _ => c
            end in
  with_sinks (delete p (c_sinks c')) (c_next c') c'.
Definition create_with (k : sink_kind) (name : bytes) (w : log_heap F H) (c : console) :
    console * exc (log_heap F H * nat) :=
  let '(c, p) := make_sink k c in
  match registry_create name [p] w with
  | Ok r => (c, Ok r)
  | Thrown e => (destroy_sink p c, Thrown e)
  end.
Definition color_of (p : nat) : sink_kind := ansicolor_sink p default_colors.
Definition stdout_color_mt := create_with (color_of stdout_sink_mt_instance).
Definition stdout_color_st := create_with (color_of stdout_sink_st_instance).
Definition stderr_color_mt := create_with (color_of stderr_sink_mt_instance).
Definition stderr_color_st := create_with (color_of stderr_sink_st_instance).
End Factories.

(** [registry::set_pattern] and [logger::set_pattern] *)
Definition set_pattern {H} (pattern : bytes) (w : log_heap (list flag_formatter) H) :=
  set_registry_formatter (compile_pattern pattern) w.
Definition logger_set_pattern {H} (pattern : bytes) (l : logger (list flag_formatter) H) :=
  set_formatter (compile_pattern pattern) l.

(** ** The default error handler *)

(** [strftime] with ["%Y-%m-%d %H:%M:%S"], the year after 1900. *)
Definition two_digits (n : Z) : bytes :=
  if n <? 10 then "0"%char :: dec_nat n else dec_nat n.
Definition date_text (t : tm) : bytes :=
  dec_nat (tm_year t + 1900) ++ !"-" ++ two_digits (tm_mon t + 1) ++ !"-" ++ two_digits (tm_mday t)
  ++ !" " ++ two_digits (tm_hour t) ++ !":" ++ two_digits (tm_min t) ++ !":" ++ two_digits (tm_sec t).

Section ErrorHandler.
Context {D : Type} `{FloatLib D}.
Variables (junk : ascii) (locale_sep : bytes) (localtime : Z -> tm).

(** [_last_err_time] and the error stream; [None] is a loop that has not
    ended (it does not happen). *)
Record handler_state := HandlerState { _last_err_time : Z; h_stderr : stream }.
Definition err_format : bytes := !"[*** LOG ERROR ***] [{}] [{}] [{}]{}".
Definition err_args (name msg date : bytes) : list (Arg D) :=
  [STRING 1 name; STRING 1 msg; CSTRING 1 date; CSTRING 1 eol].
Definition _default_err_handler (name msg : bytes) (now : Z) (s : handler_state) :
    option (exc handler_state) :=
  if now - _last_err_time s <? 60 then Some (Ok s)
  else
    let date_buf := date_text (localtime now) in
    exc_map (fun b => HandlerState now
                        (std_sink_it (LogMsg [] off 0 0 [] (content b)) (h_stderr s)))
    <$> writer_write (H0 := MemoryBuffer junk) junk locale_sep err_format
          (err_args name msg date_buf) (new_memory_buffer junk INLINE_BUFFER_SIZE).

(** The errors of a logger, one after the other, each with its time. *)
Fixpoint handle_errors (name : bytes) (errors : list (Z * bytes)) (s : handler_state) :
    option (exc handler_state) :=
  match errors with
  | [] => Some (Ok s)
  | (now, msg) :: errors =>
      match _default_err_handler name msg now s with
      | Some (Ok s) => handle_errors name errors s
      | r => r
      end
  end.
End ErrorHandler.
