(* ===== verification/ConsoleFacts.v ===== *)
(** * Console and composite sinks: what reaches the streams, and the rate of
      the error handler *)
From S2P Require Import Prelude Cxx Logging Fmt FmtFacts PatternFormatter PatternFormatterFacts FmtBuffer FmtDouble FmtDoubleFacts FmtFormat FmtFormatFacts FmtTemplate FmtTemplateFacts Console.

Open Scope Z_scope.

(** ** Sinks as a tree: the reference

    The pointers below a sink, followed: what the sink means, without a heap,
    sharing or streams. *)
Inductive sink_tree :=
| TStdout | TStderr | TOstream (os : nat) (force_flush : bool) | TNull | TSyslog
| TColor (cs : colors) (t : sink_tree)
| TDist (ts : list (level_enum * sink_tree)).

Fixpoint tree_of (fuel : nat) (h : gmap nat (sink sink_kind)) (p : nat) : option sink_tree :=
  match fuel with
  | O => None
  | S fuel =>
      match sink_state <$> h !! p with
      | None => None
      | Some stdout_sink => Some TStdout
      | Some stderr_sink => Some TStderr
      | Some (ostream_sink os ff) => Some (TOstream os ff)
      | Some null_sink => Some TNull
      | Some syslog_sink => Some TSyslog
      | Some (ansicolor_sink p cs) => TColor cs <$> tree_of fuel h p
      | Some (dist_sink ps) =>
          TDist <$> mapM (fun q => s ← h !! q; t ← tree_of fuel h q; Some (sink_level s, t)) ps
      end
  end.

(** Where a text goes, and the texts a message sends there, in order: every
    sink of a [dist_sink] is asked for its level; the sink behind colours is
    not. *)
Inductive dest := ToStdout | ToStderr | ToOstream (os : nat).
#[export] Instance dest_eq_dec : EqDecision dest.
Proof. solve_decision. Defined.
Fixpoint tree_texts (d : dest) (m : log_msg) (t : sink_tree) : list bytes :=
  match t with
  | TStdout => if decide (d = ToStdout) then [formatted m] else []
  | TStderr => if decide (d = ToStderr) then [formatted m] else []
  | TOstream os _ => if decide (d = ToOstream os) then [formatted m] else []
  | TNull | TSyslog => []
  | TColor cs t => tree_texts d (color_msg cs m) t
  | TDist ts =>
      concat (map (fun '(l, t) => if level_geb (msg_level m) l then tree_texts d m t else []) ts)
  end.
Fixpoint tree_syslog (m : log_msg) (t : sink_tree) : list (Z * bytes) :=
  match t with
  | TSyslog => [syslog_entry m]
  | TStdout | TStderr | TOstream _ _ | TNull => []
  | TColor cs t => tree_syslog (color_msg cs m) t
  | TDist ts =>
      concat (map (fun '(l, t) => if level_geb (msg_level m) l then tree_syslog m t else []) ts)
  end.

Definition stream_of (d : dest) (c : console) : stream :=
  match d with
  | ToStdout => c_stdout c
  | ToStderr => c_stderr c
  | ToOstream os => default empty_stream (c_ostreams c !! os)
  end.
Definition all_flushed (s : stream) : Prop := flushed s = written s.

(** What a call does to the console: [ts] went to the streams, [es] to the
    system log; standard output and error never keep an unflushed text. *)
Record delivered (ts : dest -> list bytes) (es : list (Z * bytes)) (c c' : console) : Prop := {
  d_sinks : c_sinks c' = c_sinks c /\ c_next c' = c_next c;
  d_texts d : written (stream_of d c') = written (stream_of d c) ++ concat (ts d);
  d_syslog : c_syslog c' = c_syslog c ++ es;
  d_stdout : all_flushed (c_stdout c) -> all_flushed (c_stdout c');
  d_stderr : all_flushed (c_stderr c) -> all_flushed (c_stderr c')
}.
Lemma delivered_nothing c : delivered (fun _ => []) [] c c.
Proof. split; try done; [intros d|]; by rewrite app_nil_r. Qed.
Lemma delivered_trans ts1 es1 ts2 es2 c1 c2 c3 :
  delivered ts1 es1 c1 c2 -> delivered ts2 es2 c2 c3 ->
  delivered (fun d => ts1 d ++ ts2 d) (es1 ++ es2) c1 c3.
Proof.
  intros [[] Ht1 ? ? ?] [[] Ht2 ? ? ?]. split; [split; congruence|..|auto|auto].
  - intros d. by rewrite Ht2, Ht1, concat_app, app_assoc.
  - rewrite app_assoc. congruence.
Qed.
Lemma delivered_std (d : dest) (on : (stream -> stream) -> console -> console) m c :
  (d = ToStdout /\ on = on_stdout) \/ (d = ToStderr /\ on = on_stderr) ->
  delivered (fun d' => if decide (d' = d) then [formatted m] else []) [] c (on (std_sink_it m) c).
Proof.
  intros [[-> ->]|[-> ->]]; split; try done; try (by simpl; rewrite app_nil_r);
    intros []; simpl; rewrite ?app_nil_r; try case_decide; by simplify_eq/=; rewrite ?app_nil_r.
Qed.
Lemma delivered_ostream os ff m c :
  delivered (fun d' => if decide (d' = ToOstream os) then [formatted m] else []) [] c
    (on_ostream os (ostream_sink_it ff m) c).
Proof.
  split; try done; try (by simpl; rewrite app_nil_r). intros d'. case_decide; subst.
  - simpl. rewrite lookup_insert_eq, app_nil_r. by destruct ff.
  - destruct d'; simpl; rewrite ?app_nil_r; try done. rewrite lookup_insert_ne by congruence. done.
Qed.

(** The loop over the sinks, when each call delivers its tree. *)
Lemma log_each_delivers log m h ps ts c :
  c_sinks c = h ->
  Forall2 (fun q (lt : level_enum * sink_tree) => (sink_level <$> h !! q) = Some lt.1
    /\ forall c, c_sinks c = h -> exists c', log q c = Some c'
       /\ delivered (fun d => tree_texts d m lt.2) (tree_syslog m lt.2) c c') ps ts ->
  exists c', log_each log (msg_level m) ps c = Some c'
  /\ delivered (fun d => tree_texts d m (TDist ts)) (tree_syslog m (TDist ts)) c c'.
Proof.
  intros Hc Hf. revert c Hc.
  induction Hf as [|q [l t] ps ts [Hl Hlog] _ IH]; intros c Hc; cbn [log_each].
  { exists c. split; [done|]. apply delivered_nothing. }
  rewrite Hc. apply fmap_Some in Hl as (s & -> & Hs). cbn [fst] in Hs. subst l.
  cbn [tree_texts tree_syslog map concat]. unfold sink_should_log.
  destruct (level_geb (msg_level m) (sink_level s)).
  - destruct (Hlog c Hc) as (c1 & -> & Hd1). destruct (IH c1) as (c2 & -> & Hd2).
    { pose proof (d_sinks _ _ _ _ Hd1) as []. congruence. }
    exists c2. split; [done|]. by eapply delivered_trans.
  - destruct (IH c Hc) as (c2 & -> & Hd2). by exists c2.
Qed.

Lemma console_log_tree fuel m h p t c :
  c_sinks c = h -> tree_of fuel h p = Some t ->
  exists c', console_log fuel m p c = Some c'
  /\ delivered (fun d => tree_texts d m t) (tree_syslog m t) c c'.
Proof.
  revert m p t c; induction fuel as [|fuel IH]; intros m p t c Hc Ht; [done|].
  cbn [tree_of console_log] in *. rewrite Hc. destruct (sink_state <$> h !! p) as [k|]; [|done].
  destruct k as [| |os ff| | |q cs|ps]; simplify_eq.
  - eexists; split; [done|]. apply (delivered_std ToStdout on_stdout). by left.
  - eexists; split; [done|]. apply (delivered_std ToStderr on_stderr). by right.
  - eexists; split; [done|]. apply delivered_ostream.
  - exists c. split; [done|]. apply delivered_nothing.
  - eexists; split; [done|]. split; try done. intros d. destruct d; by rewrite app_nil_r.
  - apply fmap_Some in Ht as (t' & Ht & ->). by apply (IH (color_msg cs m)).
  - apply fmap_Some in Ht as (ts & Hts & ->). apply mapM_Some in Hts.
    apply (log_each_delivers _ m (c_sinks c)); [done|]. eapply Forall2_impl; [exact Hts|].
    intros q [l t'] Hq. destruct (c_sinks c !! q) as [s|] eqn:Hs; [|done]. simpl in Hq.
    destruct (tree_of fuel (c_sinks c) q) as [t0|] eqn:Ht0; [|done]. simplify_eq/=. split; [done|].
    intros c0 Hc0. by apply IH.
Qed.

(** ** Heaps without a cycle *)
Definition children (k : sink_kind) : list nat :=
  match k with ansicolor_sink p _ => [p] | dist_sink ps => ps | _ => [] end.
Definition well_nested (rank : nat -> nat) (h : gmap nat (sink sink_kind)) : Prop :=
  forall p s, h !! p = Some s ->
  Forall (fun q => is_Some (h !! q) /\ (rank q < rank p)%nat) (children (sink_state s)).

Lemma tree_exists rank h fuel p :
  well_nested rank h -> is_Some (h !! p) -> (rank p < fuel)%nat -> is_Some (tree_of fuel h p).
Proof.
  intros Hh. revert p; induction fuel as [|fuel IH]; intros p [s Hs] Hf; [lia|]. cbn [tree_of].
  pose proof (Hh p s Hs) as Hch. rewrite Hs. cbn [fmap option_fmap option_map].
  destruct (sink_state s) as [| |os ff| | |q cs|ps]; try (by eexists); cbn [children] in Hch.
  - apply Forall_cons in Hch as [[Hq Hr] _]. destruct (IH q Hq ltac:(lia)) as [t ->]. by eexists.
  - apply fmap_is_Some, mapM_is_Some. eapply Forall_impl; [exact Hch|]. intros q [[s' Hq] Hr].
    destruct (IH q (ex_intro _ s' Hq) ltac:(lia)) as [t Ht]. simpl. rewrite Hq. simpl. rewrite Ht. by eexists.
Qed.
(** The sinks of a fresh process are nested, and stay so as sinks are made and
    added below sinks of a higher rank. *)
Lemma new_console_nested : well_nested (fun _ => O) (c_sinks new_console).
Proof.
  intros p s. unfold new_console. cbn [c_sinks]. rewrite !lookup_insert_Some, lookup_singleton_Some.
  intros Hs. repeat destruct Hs as [[? <-]|[? Hs]]; [constructor..|]. by destruct Hs as [_ <-].
Qed.
Lemma foldr_max_lt n l : n ∈ l -> (n < S (foldr Nat.max O l))%nat.
Proof. induction 1; simpl; lia. Qed.
Lemma make_sink_nested rank k c :
  well_nested rank (c_sinks c) -> c_sinks c !! c_next c = None ->
  Forall (fun q => is_Some (c_sinks c !! q)) (children k) ->
  exists rank', well_nested rank' (c_sinks (make_sink k c).1)
  /\ forall p, is_Some (c_sinks c !! p) -> rank' p = rank p.
Proof.
  intros Hn Hnew Hk. set (top := S (foldr Nat.max O (rank <$> children k))).
  assert (Htop : Forall (fun q => (rank q < top)%nat) (children k)).
  { apply Forall_forall. intros q Hq. unfold top. apply foldr_max_lt. by apply list_elem_of_fmap_2. }
  exists (fun p => if decide (p = c_next c) then top else rank p). cbn [make_sink fst with_sinks c_sinks].
  assert (Hold : forall q, is_Some (c_sinks c !! q) -> q <> c_next c)
    by (intros q [s Hs] ->; congruence).
  split; [|intros p Hp%Hold; by case_decide]. intros p s Hs.
  assert (Hc : forall l r, Forall (fun q => is_Some (c_sinks c !! q) /\ (rank q < r)%nat) l ->
    Forall (fun q => is_Some (<[c_next c := new_sink k]> (c_sinks c) !! q)
      /\ ((if decide (q = c_next c) then top else rank q) < r)%nat) l).
  { intros l r Hl. eapply Forall_impl; [exact Hl|]. intros q [Hq Hr]. pose proof (Hold q Hq).
    rewrite lookup_insert_ne by done. case_decide; [done|]. done. }
  apply lookup_insert_Some in Hs as [[<- <-]|[Hne Hs]].
  - case_decide; [|done]. apply Hc. apply Forall_and. by split.
  - case_decide; [congruence|]. apply Hc. by apply (Hn p s).
Qed.

(** (C20) Composite sinks.  In any heap of sinks without a cycle, shared
    sinks included, [log] on any sink returns, and what it does is what the
    tree below the sink says: each stream gets the texts of the leaves that
    write to it, once per path, in order, those behind a [dist_sink] only when
    their level admits the message, those behind colours with the colour of
    the level around them; the system log gets its entries; no sink object
    changes; and standard output and error keep no unflushed text. *)
Theorem console_log_delivers rank fuel m p c :
  well_nested rank (c_sinks c) -> is_Some (c_sinks c !! p) -> (rank p < fuel)%nat ->
  exists t c', tree_of fuel (c_sinks c) p = Some t /\ console_log fuel m p c = Some c'
  /\ c_sinks c' = c_sinks c
  /\ (forall d, written (stream_of d c') = written (stream_of d c) ++ concat (tree_texts d m t))
  /\ c_syslog c' = c_syslog c ++ tree_syslog m t
  /\ (all_flushed (c_stdout c) -> all_flushed (c_stdout c'))
  /\ (all_flushed (c_stderr c) -> all_flushed (c_stderr c')).
Proof.
  intros Hn Hp Hf. destruct (tree_exists rank _ fuel p Hn Hp Hf) as [t Ht].
  destruct (console_log_tree fuel m _ p t c eq_refl Ht) as (c' & Hl & [[]]). by exists t, c'.
Qed.

(** A sink that contains itself never returns, whatever the fuel. *)
Lemma self_contained_never_returns fuel m p l c :
  c_sinks c !! p = Some (Sink l (dist_sink [p])) -> level_geb (msg_level m) l = true ->
  console_log fuel m p c = None.
Proof.
  intros Hp Hl. induction fuel as [|fuel IH]; [done|]. cbn [console_log log_each]. rewrite Hp.
  cbn [fmap option_fmap option_map sink_state log_each]. rewrite Hp. unfold sink_should_log. cbn [sink_level].
  by rewrite Hl, IH.
Qed.

(** Two loggers' sinks over one terminal: a [dist_sink] of the coloured
    standard output, of standard error from [err] on, and of the system log
    behind colours, all wrapping shared sinks.  Behind colours the level of the
    wrapped sink is not asked for, and the system log gets an empty line. *)
Definition demo_console : console :=
  let c := with_sinks (sink_set_level critical <$> c_sinks new_console) 4 new_console in
  let c := (make_sink (ansicolor_sink stdout_sink_mt_instance default_colors) c).1 in
  let c := (make_sink syslog_sink c).1 in
  let c := (make_sink (ansicolor_sink 5 default_colors) c).1 in
  add_sink 6 7 (add_sink stderr_sink_mt_instance 7 (add_sink 4 7 (make_sink (dist_sink []) c).1)).
Definition demo_msg : log_msg := LogMsg !"main" err 0 1 !"boom" !"boom!".
Definition demo_rank (p : nat) : nat := match p with 4 | 6 => 1 | 7 => 2 | _ => 0 end%nat.
Lemma demo_nested : well_nested demo_rank (c_sinks demo_console).
Proof.
  apply (map_Forall_to_list (fun p s => Forall (fun q => is_Some (c_sinks demo_console !! q)
    /\ (demo_rank q < demo_rank p)%nat) (children (sink_state s)))).
  vm_compute. repeat (constructor; try done); try (eexists; reflexivity); try lia.
Qed.
Lemma console_log_delivers_witness :
  exists t c', tree_of 3 (c_sinks demo_console) 7 = Some t
  /\ console_log 3 demo_msg 7 demo_console = Some c'
  /\ written (c_stdout c') = concat (tree_texts ToStdout demo_msg t)
  /\ concat (tree_texts ToStdout demo_msg t) = esc "31" ++ esc "1" ++ !"boom!" ++ esc "00"
  /\ tree_texts ToStderr demo_msg t = [] /\ c_syslog c' = [(LOG_ERR, [])].
Proof.
  destruct (console_log_delivers demo_rank 3 demo_msg 7 demo_console demo_nested
    ltac:(eexists; reflexivity) ltac:(simpl; lia)) as (t & c' & Ht & Hl & _ & Hw & Hs & _).
  exists t, c'. split; [exact Ht|]. split; [exact Hl|]. split; [exact (Hw ToStdout)|].
  assert (Heq : Some t = tree_of 3 (c_sinks demo_console) 7) by (symmetry; exact Ht).
  vm_compute in Heq. injection Heq as ->. split; [vm_compute; reflexivity|].
  split; [vm_compute; reflexivity|]. rewrite Hs. vm_compute. reflexivity.
Defined.

(** ** The default error handler *)
Definition error_line (name msg date : bytes) : bytes :=
  !"[*** LOG ERROR ***] [" ++ name ++ !"] [" ++ msg ++ !"] [" ++ date ++ !"]" ++ eol.
Definition err_template : list piece :=
  [Text !"[*** LOG ERROR ***] ["; Field Auto None; Text !"] ["; Field Auto None; Text !"] [";
   Field Auto None; Text !"]"; Field Auto None].

(** Of a sequence of errors, those at least a minute after the last one that
    is kept. *)
Fixpoint throttled (last : Z) (errors : list (Z * bytes)) : list (Z * bytes) :=
  match errors with
  | [] => []
  | (now, msg) :: errors =>
      if now - last <? 60 then throttled last errors else (now, msg) :: throttled now errors
  end.
(** Times that are a minute apart, the first from [t]. *)
Fixpoint minute_apart (t : Z) (times : list Z) : Prop :=
  match times with [] => True | u :: times => t + 60 <= u /\ minute_apart u times end.
Lemma throttled_apart last errors : minute_apart last (throttled last errors).*1.
Proof.
  revert last; induction errors as [|[now msg] errors IH]; intros last; cbn [throttled]; [done|].
  destruct (now - last <? 60) eqn:?; bool_to_prop; [done|]. cbn. split; [lia|done].
Qed.

Section Errors.
Context {D : Type} `{FloatLibOk D}.
Variables (junk : ascii) (locale_sep : bytes) (localtime : Z -> tm).

Lemma err_format_printed : print err_template = err_format.
Proof. reflexivity. Qed.
Lemma err_expand name msg date :
  expand locale_sep (err_args name msg date : list (Arg D)) err_template 0
  = Some (error_line name msg date, 4).
Proof.
  unfold err_template, err_args. rewrite expand_text.
  do 4 (erewrite expand_plain_field by (lia || reflexivity); rewrite ?expand_text).
  cbn [expand mbind option_bind fst snd].
  unfold error_line. by rewrite ?app_nil_r, <- ?app_assoc.
Qed.
Lemma handler_writes name msg now s :
  60 <= now - _last_err_time s ->
  _default_err_handler (D := D) junk locale_sep localtime name msg now s
  = Some (Ok (HandlerState now
      (stream_flush (stream_write (error_line name msg (date_text (localtime now))) (h_stderr s))))).
Proof.
  intros Hn. unfold _default_err_handler. rewrite (proj2 (Z.ltb_ge _ _)) by lia.
  destruct (template_written junk locale_sep (err_args name msg (date_text (localtime now)) : list (Arg D))
    err_template (error_line name msg (date_text (localtime now))) 4 (new_memory_buffer junk INLINE_BUFFER_SIZE))
    as (b & Hw & _ & Hc).
  - repeat constructor; vm_compute; discriminate.
  - repeat constructor; discriminate.
  - vm_compute. lia.
  - apply err_expand.
  - rewrite <- err_format_printed, Hw. cbn [fmap option_fmap option_map exc_map].
    by rewrite Hc.
Qed.

(** (C21) The default error handler.  Whatever errors a logger reports, at
    whatever times, no exception leaves the handler, and standard error gets,
    flushed, one line for each error that comes at least a minute after the
    last line printed: its name, the error and the time, as they are, braces
    included; the errors in between are dropped. *)
Theorem errors_throttled name errors s :
  let kept := throttled (_last_err_time s) errors in
  let line := fun e : Z * bytes => error_line name e.2 (date_text (localtime e.1)) in
  exists s', handle_errors (D := D) junk locale_sep localtime name errors s = Some (Ok s')
  /\ written (h_stderr s') = written (h_stderr s) ++ concat (line <$> kept)
  /\ _last_err_time s' = default (_last_err_time s) (last kept.*1)
  /\ minute_apart (_last_err_time s) kept.*1
  /\ (all_flushed (h_stderr s) -> all_flushed (h_stderr s')).
Proof.
  intros kept line. enough (exists s', handle_errors (D := D) junk locale_sep localtime name errors s = Some (Ok s')
    /\ written (h_stderr s') = written (h_stderr s) ++ concat (line <$> kept)
    /\ _last_err_time s' = default (_last_err_time s) (last kept.*1)
    /\ (all_flushed (h_stderr s) -> all_flushed (h_stderr s'))) as (s' & ? & ? & ? & ?)
    by (exists s'; split_and!; try done; apply throttled_apart).
  unfold kept. clear kept. revert s; induction errors as [|[now msg] errors IH]; intros s; cbn [handle_errors throttled].
  { exists s. by rewrite app_nil_r. }
  destruct (now - _last_err_time s <? 60) eqn:Hn; bool_to_prop.
  - unfold _default_err_handler at 1. rewrite (proj2 (Z.ltb_lt _ _)) by done. apply IH.
  - rewrite handler_writes by lia. destruct (IH (HandlerState now
      (stream_flush (stream_write (line (now, msg)) (h_stderr s))))) as (s' & Hs & Hw & Hl & Hf).
    exists s'. split; [exact Hs|]. cbn [h_stderr _last_err_time stream_flush stream_write written] in *.
    split; [by rewrite Hw, <- app_assoc|]. split; [|intros _; by apply Hf].
    rewrite Hl, fmap_cons, last_cons. by destruct (last _).
Qed.
End Errors.

(** Four errors within two minutes: two are printed. *)
Definition fixed_time (t : Z) : tm := Tm t 5 4 3 1 117 5 0.
Definition some_errors : list (Z * bytes) :=
  [(100, !"disk full"); (120, !"no {} here"); (159, !"disk full"); (160, !"{0} no")].
Lemma errors_throttled_witness :
  exists s', handle_errors (D := Z) nul !"," (fun t => fixed_time (t mod 60)) !"main" some_errors
               (HandlerState 0 empty_stream) = Some (Ok s')
  /\ written (h_stderr s')
     = !"[*** LOG ERROR ***] [main] [disk full] [2017-02-03 04:05:40]" ++ [lf]
       ++ !"[*** LOG ERROR ***] [main] [{0} no] [2017-02-03 04:05:40]" ++ [lf]
  /\ _last_err_time s' = 160.
Proof.
  destruct (errors_throttled (D := Z) nul !"," (fun t => fixed_time (t mod 60)) !"main" some_errors
    (HandlerState 0 empty_stream)) as (s' & Hs & Hw & Hl & _).
  exists s'. split; [exact Hs|]. rewrite Hw, Hl. split; vm_compute; reflexivity.
Defined.
