(* ===== verification/SyslogSink.v ===== *)
(** * The sink that writes to syslog, [src/src/spdlog/sinks/syslog_sink.h]

    [openlog], [syslog] and [closelog] work on state of the whole process: the
    last [openlog] sets the ident and the facility of every later message, and
    keeps the pointer to the ident rather than a copy.  A sink owns the string
    behind the pointer it passes.  The model keeps the strings of the sinks
    that are alive, so that a pointer to the string of a sink that is gone can
    be told; the sink is compiled when [SPDLOG_ENABLE_SYSLOG] is defined. *)
From S2P Require Import Prelude Cxx Logging Console.

Open Scope Z_scope.

(** ** <syslog.h> *)

(** [LOG_USER], the facility 1 above the three bits of the priority. *)
Definition LOG_USER : Z := 8.

(** A message in the log: its priority and facility, the tag in front of it
    ([None]: the program's name), the text. *)
Record entry := Entry { e_priority : Z; e_tag : option bytes; e_text : bytes }.

(** [LogIdent]: the pointer [openlog] was given, null or to the [_ident] of a
    sink. *)
Record world := World {
  sinks_alive : gmap nat (bytes * list Z);
  log_ident : option nat;
  log_facility : Z;
  log_entries : list entry
}.
Definition new_process : world := World ∅ None LOG_USER [].

Definition openlog (ident : option nat) (facility : Z) (w : world) : world :=
  World (sinks_alive w) ident facility (log_entries w).
(** [syslog(priority, "%s", text)]; [None] is the use of a pointer to a string
    that is gone. *)
Definition syslog (priority : Z) (text : bytes) (w : world) : option world :=
  tag ← match log_ident w with
        | None => Some None
        | Some o => '(s, _) ← sinks_alive w !! o; Some (Some (c_string s))
        end;
  Some (World (sinks_alive w) (log_ident w) (log_facility w)
          (log_entries w ++ [Entry (Z.lor priority (log_facility w)) tag (c_string text)])).

(** ** [class syslog_sink] *)

(** [_priorities], in the order of [level_enum]. *)
Definition priorities : list Z :=
  [LOG_DEBUG; LOG_DEBUG; LOG_INFO; LOG_WARNING; LOG_ERR; LOG_CRIT; LOG_INFO].
Definition new_syslog_sink (o : nat) (ident : bytes) (facility : Z) (w : world) : world :=
  let w := World (<[o := (ident, priorities)]> (sinks_alive w)) (log_ident w) (log_facility w) (log_entries w) in
  openlog (if bool_decide (ident = []) then None else Some o) facility w.
(** [closelog] closes the connection, which opens again when it is needed. *)
Definition destroy_syslog_sink (o : nat) (w : world) : world :=
  World (delete o (sinks_alive w)) (log_ident w) (log_facility w) (log_entries w).
Definition syslog_prio_from_level (o : nat) (msg : log_msg) (w : world) : option Z :=
  '(_, p) ← sinks_alive w !! o; p !! Z.to_nat (level_int (msg_level msg)).
Definition syslog_log (o : nat) (msg : log_msg) (w : world) : option world :=
  p ← syslog_prio_from_level o msg w; syslog p (raw msg) w.
Fixpoint syslog_log_all (o : nat) (msgs : list log_msg) (w : world) : option world :=
  match msgs with
  | [] => Some w
  | m :: msgs => w ← syslog_log o m w; syslog_log_all o msgs w
  end.

(** ** What is logged *)

(** The entry a message should make: what [Console.syslog_entry] says of it,
    under the sink's ident and facility. *)
Definition entry_of (ident : bytes) (facility : Z) (m : log_msg) : entry :=
  let '(prio, text) := syslog_entry m in
  Entry (Z.lor prio facility) (if bool_decide (ident = []) then None else Some (c_string ident)) text.

Lemma prio_in_range o ident m w :
  sinks_alive w !! o = Some (ident, priorities) -> syslog_prio_from_level o m w = Some (Console.syslog_prio_from_level m).
Proof. intros Ho. unfold syslog_prio_from_level, Console.syslog_prio_from_level. rewrite Ho. simpl. by destruct (msg_level m). Qed.

(** A sink logs each message under its ident and facility, with the priority
    of its level and the text up to the first NUL (a percent sign in it means
    nothing), as long as no other sink is created; what is more severe never
    gets a less urgent priority. *)
Theorem syslog_sink_logs o ident facility msgs w :
  (exists w', syslog_log_all o msgs (new_syslog_sink o ident facility w) = Some w'
     /\ log_entries w' = log_entries w ++ map (entry_of ident facility) msgs)
  /\ forall a b, level_int (msg_level a) <= level_int (msg_level b) -> msg_level b <> off ->
       Console.syslog_prio_from_level b <= Console.syslog_prio_from_level a.
Proof.
  split; [|unfold Console.syslog_prio_from_level; intros a b; destruct (msg_level a), (msg_level b); simpl; unfold LOG_DEBUG, LOG_INFO, LOG_WARNING, LOG_ERR, LOG_CRIT; (lia || done)].
  assert (Hall : forall w1, sinks_alive w1 !! o = Some (ident, priorities) ->
    log_ident w1 = (if bool_decide (ident = []) then None else Some o) -> log_facility w1 = facility ->
    exists w', syslog_log_all o msgs w1 = Some w' /\ log_entries w' = log_entries w1 ++ map (entry_of ident facility) msgs).
  { induction msgs as [|m msgs IH]; intros w1 Ho Hi Hf; cbn [syslog_log_all map].
    { exists w1. by rewrite app_nil_r. }
    unfold syslog_log at 1. rewrite (prio_in_range o ident m w1 Ho). simpl. unfold syslog.
    rewrite Hi. case_bool_decide as He; rewrite ?Ho; simpl;
      (edestruct IH as (w' & -> & Hw'); [| | |exists w'; split; [done|]]; simpl; try done);
      rewrite Hw'; simpl; rewrite <- app_assoc; unfold entry_of at 2; cbn [syslog_entry]; rewrite Hf;
      [by rewrite bool_decide_eq_true_2|by rewrite bool_decide_eq_false_2]. }
  apply (Hall (new_syslog_sink o ident facility w)); simpl; [by rewrite lookup_insert_eq|done|done].
Qed.

(** Two sinks: the second [openlog] renames the first sink's messages, and
    when the second sink is gone the first one's next message reads the string
    that went with it. *)
Definition two_sinks : world := new_syslog_sink 2 !"b" LOG_USER (new_syslog_sink 1 !"a" LOG_USER new_process).
Definition a_message : log_msg := with_raw !"100%" (new_log_msg [] err 0 0).
Example first_sink_renamed :
  log_entries <$> syslog_log 1 a_message two_sinks = Some [Entry 11 (Some !"b") !"100%"]
  /\ syslog_log 1 a_message (destroy_syslog_sink 2 two_sinks) = None.
Proof. by vm_compute. Qed.
