(* ===== verification/SystemSinks.v ===== *)
(** * The sinks of Android and Windows, [src/src/spdlog/sinks/android_sink.h],
      [msvc_sink.h] and [wincolor_sink.h], and [details/null_mutex.h]

    Each hands its messages to one call of its system.  The colour sink of
    Windows makes four, on attributes the whole console shares: it is modelled
    one call per step, with threads and the mutex of each sink, which may be a
    [null_mutex]. *)
From S2P Require Import Prelude Cxx Logging LoggingFacts Console.

Open Scope Z_scope.

(** ** android_sink *)

(** <android/log.h> *)
Definition ANDROID_LOG_DEFAULT : Z := 1.
Definition ANDROID_LOG_VERBOSE : Z := 2.
Definition ANDROID_LOG_DEBUG : Z := 3.
Definition ANDROID_LOG_INFO : Z := 4.
Definition ANDROID_LOG_WARN : Z := 5.
Definition ANDROID_LOG_ERROR : Z := 6.
Definition ANDROID_LOG_FATAL : Z := 7.

Definition convert_to_android (level : level_enum) : Z :=
  match level with
  | trace => ANDROID_LOG_VERBOSE
  | debug => ANDROID_LOG_DEBUG
  | info => ANDROID_LOG_INFO
  | warn => ANDROID_LOG_WARN
  | err => ANDROID_LOG_ERROR
  | critical => ANDROID_LOG_FATAL
  | off => ANDROID_LOG_DEFAULT
  end.

Section Android.
(** [__android_log_write] on the state of the log, with its result, and the
    texts of errors. *)
Context {W : Type}.
Variable __android_log_write : Z -> bytes -> bytes -> W -> W * Z.
Variable errno_str : Z -> bytes.

(** The tag, and the log. *)
Record android_sink := AndroidSink { _tag : bytes; a_log : W }.
Definition android_log (msg : log_msg) (s : android_sink) : android_sink * exc unit :=
  let priority := convert_to_android (msg_level msg) in
  let '(w, ret) := __android_log_write priority (c_string (_tag s)) (c_string (formatted msg)) (a_log s) in
  (AndroidSink (_tag s) w,
   if ret <? 0 then Thrown (spdlog_ex (!"__android_log_write() failed: " ++ errno_str ret)) else Ok tt).
#[local] Instance android_sink_impl : SinkImpl android_sink := { sink_it := android_log; sink_flush s := s }.

(** A logger whose only sink writes to the log of Android makes one call of
    the system for a message its levels admit, and none for another; the error
    handler is told exactly when that call fails. *)
Theorem android_logs {F H} (format : F -> log_msg -> exc log_msg) lvl text m now tid (l : logger F H) p s (h : sinks android_sink) :
  _sinks l = [p] -> h !! p = Some s ->
  format (_formatter l) (with_raw text (new_log_msg (_name l) lvl now tid)) = Ok m -> msg_level m = lvl ->
  let '(w, ret) := __android_log_write (convert_to_android lvl) (c_string (_tag (sink_state s)))
                     (c_string (formatted m)) (a_log (sink_state s)) in
  let '(h', told) := log format lvl (Ok text) now tid l h in
  if should_log lvl l && sink_should_log lvl s
  then a_log ∘ sink_state <$> h' !! p = Some w
       /\ told = if ret <? 0 then Some (!"__android_log_write() failed: " ++ errno_str ret) else None
  else a_log ∘ sink_state <$> h' !! p = Some (a_log (sink_state s)) /\ told = None.
Proof.
  intros Hp Hs Hf Hm. unfold log, _sink_it. destruct (__android_log_write _ _ _ _) as [w ret] eqn:Hw.
  destruct (should_log lvl l); [|simpl; by rewrite Hs]. cbn [negb andb].
  rewrite Hf, Hp. cbn [log_to]. rewrite Hs, Hm.
  destruct (sink_should_log lvl s); cbn [andb].
  - unfold sink_log. rewrite Hs. cbn [sink_it android_sink_impl]. unfold android_log. rewrite Hm, Hw.
    destruct (ret <? 0); cbn [fst snd]; [by rewrite lookup_insert_eq|].
    destruct (_should_flush_on m l); [|by rewrite lookup_insert_eq].
    unfold flush_all. simpl. by rewrite lookup_alter_eq, lookup_insert_eq.
  - destruct (_should_flush_on m l); [|by rewrite Hs]. unfold flush_all. simpl. by rewrite lookup_alter_eq, Hs.
Qed.
End Android.

(** A more severe level never gets a lower priority. *)
Lemma android_priorities_ordered a b :
  level_int a <= level_int b -> b <> off -> convert_to_android a <= convert_to_android b.
Proof. destruct a, b; by vm_compute. Qed.

(** ** msvc_sink *)

(** The text that [OutputDebugStringA] has sent to the debugger. *)
Record msvc_sink := MsvcSink { debugger : bytes }.
Definition OutputDebugStringA (text : bytes) (s : msvc_sink) : msvc_sink := MsvcSink (debugger s ++ text).
Definition msvc_sink_it (msg : log_msg) (s : msvc_sink) : msvc_sink :=
  OutputDebugStringA (c_string (formatted msg)) s.

(** ** wincolor_sink *)

(** <wincon.h> *)
Definition FOREGROUND_BLUE : Z := 1.
Definition FOREGROUND_GREEN : Z := 2.
Definition FOREGROUND_RED : Z := 4.
Definition FOREGROUND_INTENSITY : Z := 8.
Definition BACKGROUND_RED : Z := 64.

Definition BOLD : Z := FOREGROUND_INTENSITY.
Definition RED : Z := FOREGROUND_RED.
Definition CYAN : Z := Z.lor FOREGROUND_GREEN FOREGROUND_BLUE.
Definition WHITE : Z := Z.lor (Z.lor FOREGROUND_RED FOREGROUND_GREEN) FOREGROUND_BLUE.
Definition YELLOW : Z := Z.lor FOREGROUND_RED FOREGROUND_GREEN.

Definition win_colors := level_enum -> Z.
Definition default_win_colors : win_colors := fun l =>
  match l with
  | trace => CYAN
  | debug => CYAN
  | info => Z.lor WHITE BOLD
  | warn => Z.lor YELLOW BOLD
  | err => Z.lor RED BOLD
  | critical => Z.lor (Z.lor BACKGROUND_RED WHITE) BOLD
  | off => 0
  end.

(** A console: the attributes the next character gets, and the characters so
    far with theirs. *)
Record screen := Screen { attributes : Z; cells : list (Z * ascii) }.
Definition SetConsoleTextAttribute (a : Z) (s : screen) : screen := Screen a (cells s).
Definition WriteConsoleA (text : bytes) (s : screen) : screen :=
  Screen (attributes s) (cells s ++ map (pair (attributes s)) text).

(** [Mutex] is [std::mutex] or [details::null_mutex], whose [lock] and
    [unlock] do nothing. *)
Inductive mutex := std_mutex | null_mutex.
#[export] Instance mutex_eq_dec : EqDecision mutex.
Proof. solve_decision. Defined.
(** A sink: its mutex, [out_handle_] and [colors_]. *)
Record wincolor_sink := WinColorSink { w_mutex : mutex; out_handle_ : nat; colors_ : win_colors }.
Definition new_wincolor_sink (m : mutex) (std_handle : nat) : wincolor_sink :=
  WinColorSink m std_handle default_win_colors.

(** Where a thread is in [_sink_it]: before each of the four calls, and before
    the return to [log], which unlocks. *)
Inductive win_pc :=
| WGet (text : bytes) (color : Z)
| WSet (text : bytes) (color orig_attribs : Z)
| WWrite (text : bytes) (orig_attribs : Z)
| WReset (orig_attribs : Z)
| WReturn.

(** The process: the consoles by handle (a handle that is redirected to a file
    is none), the sinks, which mutexes are locked, the threads that are in a
    call, with its sink; and for the statements, the colour and the text of
    each call in the order they came through the mutex. *)
Record windows := Windows {
  w_consoles : gmap nat screen;
  w_sinks : gmap nat wincolor_sink;
  w_locked : gset nat;
  w_threads : gmap nat (nat * win_pc);
  w_calls : list (Z * bytes)
}.
Definition on_console (f : screen -> screen) (k : wincolor_sink) (w : windows) : windows :=
  Windows (alter f (out_handle_ k) (w_consoles w)) (w_sinks w) (w_locked w) (w_threads w) (w_calls w).
Definition win_goto (t p : nat) (pc : win_pc) (w : windows) : windows :=
  Windows (w_consoles w) (w_sinks w) (w_locked w) (<[t := (p, pc)]> (w_threads w)) (w_calls w).

(** A thread calls [log], or [set_color], or makes its next call of the
    system; [garbage] is what the variable for the attributes holds when
    [GetConsoleScreenBufferInfo] fails. *)
Inductive win_step := WLog (p : nat) (msg : log_msg) | WSetColor (p : nat) (l : level_enum) (color : Z) | WStep (garbage : Z).
Definition can_lock (p : nat) (k : wincolor_sink) (w : windows) : bool :=
  bool_decide (w_mutex k = null_mutex) || negb (bool_decide (p ∈ w_locked w)).

Definition win_run1 (t : nat) (e : win_step) (w : windows) : option windows :=
  match e, w_threads w !! t with
  | WLog p msg, None =>
      k ← w_sinks w !! p;
      let call := (colors_ k (msg_level msg), formatted msg) in
      if can_lock p k w then
        Some (Windows (w_consoles w) (w_sinks w) (if decide (w_mutex k = std_mutex) then {[p]} ∪ w_locked w else w_locked w)
                (<[t := (p, WGet call.2 call.1)]> (w_threads w)) (w_calls w ++ [call]))
      else None
  | WSetColor p l color, None =>
      k ← w_sinks w !! p;
      if can_lock p k w then
        Some (Windows (w_consoles w)
                (<[p := WinColorSink (w_mutex k) (out_handle_ k) (fun l' => if decide (l' = l) then color else colors_ k l')]> (w_sinks w))
                (w_locked w) (w_threads w) (w_calls w))
      else None
  | WStep garbage, Some (p, pc) =>
      k ← w_sinks w !! p;
      match pc with
      | WGet text color =>
          Some (win_goto t p (WSet text color (default garbage (attributes <$> w_consoles w !! out_handle_ k))) w)
      | WSet text color orig => Some (win_goto t p (WWrite text orig) (on_console (SetConsoleTextAttribute color) k w))
      | WWrite text orig => Some (win_goto t p (WReset orig) (on_console (WriteConsoleA text) k w))
      | WReset orig => Some (win_goto t p WReturn (on_console (SetConsoleTextAttribute orig) k w))
      | WReturn =>
          Some (Windows (w_consoles w) (w_sinks w)
                  (if decide (w_mutex k = std_mutex) then w_locked w ∖ {[p]} else w_locked w) (delete t (w_threads w)) (w_calls w))
      end
  | _, _ => None
  end.
Fixpoint win_run (sched : list (nat * win_step)) (w : windows) : option windows :=
  match sched with
  | [] => Some w
  | (t, e) :: sched => w ← win_run1 t e w; win_run sched w
  end.

(** *** One sink with a mutex *)
Definition painted (calls : list (Z * bytes)) : list (Z * ascii) :=
  concat (map (fun '(color, text) => map (pair color) text) calls).
Lemma painted_snoc calls color text : painted (calls ++ [(color, text)]) = painted calls ++ map (pair color) text.
Proof. unfold painted. by rewrite map_app, concat_app; simpl; rewrite app_nil_r. Qed.

(** What the console shows, by where the holder of the mutex is. *)
Definition mid_call (a0 : Z) (s : screen) (color : Z) (text : bytes) (before : list (Z * ascii)) (pc : win_pc) : Prop :=
  match pc with
  | WGet t c => t = text /\ c = color /\ s = Screen a0 before
  | WSet t c orig => t = text /\ c = color /\ orig = a0 /\ s = Screen a0 before
  | WWrite t orig => t = text /\ orig = a0 /\ s = Screen color before
  | WReset orig => orig = a0 /\ s = Screen color (before ++ map (pair color) text)
  | WReturn => s = Screen a0 (before ++ map (pair color) text)
  end.
Record painting (p hd : nat) (s0 : screen) (w : windows) : Prop := {
  p_sink : exists cs, w_sinks w !! p = Some (WinColorSink std_mutex hd cs);
  p_state : exists s, w_consoles w !! hd = Some s /\
    ((w_threads w = ∅ /\ p ∉ w_locked w /\ s = Screen (attributes s0) (cells s0 ++ painted (w_calls w)))
     \/ exists t pc calls color text, w_threads w = {[t := (p, pc)]} /\ p ∈ w_locked w
          /\ w_calls w = calls ++ [(color, text)]
          /\ mid_call (attributes s0) s color text (cells s0 ++ painted calls) pc)
}.
(** The events of threads that use no sink but [p]. *)
Definition uses (p : nat) (e : win_step) : Prop :=
  match e with WLog q _ | WSetColor q _ _ => q = p | WStep _ => True end.

Lemma painting_step p hd s0 t e w w' :
  painting p hd s0 w -> uses p e -> win_run1 t e w = Some w' -> painting p hd s0 w'.
Proof.
  intros [[cs Hk] (s & Hs & Hst)] Hu Hr. destruct e as [q msg|q l color|garbage]; simpl in Hu; subst; unfold win_run1 in Hr.
  - destruct (w_threads w !! t) eqn:Ht; [done|]. rewrite Hk in Hr. unfold can_lock in Hr. simpl in Hr.
    destruct Hst as [(Hth & Hl & ->)|(? & ? & ? & ? & ? & _ & Hl & _)]; case_bool_decide; try done. simplify_eq/=.
    split; [by exists cs|]. eexists. split; [exact Hs|right]. do 5 eexists. rewrite Hth. simpl.
    split_and!; [done|set_solver|done|by split_and!].
  - destruct (w_threads w !! t) eqn:Ht; [done|]. rewrite Hk in Hr. unfold can_lock in Hr. simpl in Hr.
    destruct Hst as [(Hth & Hl & ->)|(? & ? & ? & ? & ? & _ & Hl & _)]; case_bool_decide; try done. simplify_eq/=.
    split; [simpl; rewrite lookup_insert_eq; eauto|]. eexists. split; [exact Hs|by left].
  - destruct Hst as [(Hth & _)|(t' & pc & calls & color & text & Hth & Hl & Hc & Hm)]; rewrite Hth in Hr; [done|].
    destruct (decide (t' = t)) as [->|Hne]; [rewrite lookup_singleton_eq in Hr|by rewrite lookup_singleton_ne in Hr].
    rewrite Hk in Hr. destruct pc; simpl in Hm; destruct_and?; subst; simpl in Hr; simplify_eq;
      (split; [by exists cs|]); simpl; rewrite ?Hs; simpl; rewrite ?lookup_alter_eq, ?Hs; simpl.
    5: { eexists. split; [done|left]. rewrite Hc, painted_snoc, app_assoc, delete_singleton_eq.
         split_and!; [done|set_solver|done]. }
    all: eexists; split; [done|right]; rewrite ?Hth, ?insert_singleton_eq; do 5 eexists;
      (split; [done|split; [done|split; [exact Hc|simpl; by split_and?]]]).
Qed.
Lemma painting_run p hd s0 sched w w' :
  painting p hd s0 w -> Forall (fun te => uses p te.2) sched -> win_run sched w = Some w' -> painting p hd s0 w'.
Proof.
  intros Hp Hu. revert w Hp. induction Hu as [|[t e] sched He _ IH]; intros w Hp; simpl; [by intros [= <-]|].
  destruct (win_run1 t e w) as [w1|] eqn:E; simpl; [|done]. apply IH. by apply (painting_step p hd s0 t e w).
Qed.

(** A sink with a mutex, alone on its console: whatever threads log and change
    colours, the console shows the text of each call in the colour its level
    then had, in the order of the calls; between calls the attributes are what
    they were at first. *)
Theorem wincolor_paints p hd k s0 sched w :
  w_mutex k = std_mutex -> out_handle_ k = hd -> Forall (fun te => uses p te.2) sched ->
  win_run sched (Windows {[hd := s0]} {[p := k]} ∅ ∅ []) = Some w ->
  exists s, w_consoles w !! hd = Some s
    /\ cells s `prefix_of` cells s0 ++ painted (w_calls w)
    /\ (w_threads w = ∅ -> s = Screen (attributes s0) (cells s0 ++ painted (w_calls w))).
Proof.
  intros Hm Hh Hu Hr. destruct k as [m hd' cs]; simpl in *; subst.
  eapply (painting_run p hd s0) in Hr as [_ (s & Hs & Hst)]; [|clear Hr|done].
  - exists s. split; [done|]. destruct Hst as [(_ & _ & ->)|(t & pc & calls & color & text & Hth & _ & Hc & Hpc)]; [done|].
    split; [|rewrite Hth; intros E; by apply map_non_empty_singleton in E].
    rewrite Hc, painted_snoc, app_assoc. destruct pc; simpl in Hpc; destruct_and?; subst; simpl; (done || by apply prefix_app_r).
  - split; simpl; [exists cs; by rewrite lookup_singleton_eq|]. exists s0. rewrite lookup_singleton_eq. split; [done|left].
    destruct s0. split_and!; [done|set_solver|]. simpl. by rewrite app_nil_r.
Qed.

(** *** Concrete runs *)
Definition line (l : level_enum) (text : bytes) : log_msg := LogMsg [] l 0 0 [] text.
Definition grey : screen := Screen WHITE [].
Definition whole (t p : nat) (l : level_enum) (text : bytes) : list (nat * win_step) :=
  (t, WLog p (line l text)) :: repeat (t, WStep 0) 5.
Definition two_lines : list (nat * win_step) :=
  whole 1 0 err !"x" ++ [(2%nat, WSetColor 0 info CYAN)] ++ whole 2 0 info !"y".
Definition one_sink : windows := Windows {[9%nat := grey]} {[0%nat := new_wincolor_sink std_mutex 9]} ∅ ∅ [].
Lemma wincolor_paints_witness :
  win_run two_lines one_sink <> None
  /\ forall w, win_run two_lines one_sink = Some w ->
       exists s, w_consoles w !! 9%nat = Some s /\ (w_threads w = ∅ -> cells s = painted (w_calls w)).
Proof.
  split; [vm_compute; discriminate|]. intros w Hr.
  destruct (wincolor_paints 0 9 (new_wincolor_sink std_mutex 9) grey two_lines w eq_refl eq_refl ltac:(repeat constructor) Hr)
    as (s & Hs & _ & H). exists s. split; [exact Hs|]. intros Ht. rewrite (H Ht). reflexivity.
Defined.

(** Two sinks on one console, as two calls of a factory or a logger on stdout
    and one on stderr make them, have two mutexes; and a [null_mutex] locks
    nothing.  The second call takes the colour of the first for the original one:
    both texts come in a wrong colour, and the console stays red. *)
Definition two_calls (p q : nat) : list (nat * win_step) :=
  [(1%nat, WLog p (line err !"x")); (1%nat, WStep 0); (1%nat, WStep 0);
   (2%nat, WLog q (line info !"y")); (2%nat, WStep 0); (2%nat, WStep 0);
   (1%nat, WStep 0); (1%nat, WStep 0); (1%nat, WStep 0); (2%nat, WStep 0); (2%nat, WStep 0); (2%nat, WStep 0)].
Definition shown (sched : list (nat * win_step)) (ks : gmap nat wincolor_sink) : option (option screen) :=
  (fun w => w_consoles w !! 9%nat) <$> win_run sched (Windows {[9%nat := grey]} ks ∅ ∅ []).
Definition red_console : screen := Screen (Z.lor RED BOLD) [(Z.lor WHITE BOLD, "x"%char); (WHITE, "y"%char)].
Example two_sinks_stay_red :
  shown (two_calls 0 1) {[0%nat := new_wincolor_sink std_mutex 9; 1%nat := new_wincolor_sink std_mutex 9]} = Some (Some red_console)
  /\ shown (two_calls 0 0) {[0%nat := new_wincolor_sink null_mutex 9]} = Some (Some red_console)
  /\ shown (two_calls 0 0) {[0%nat := new_wincolor_sink std_mutex 9]} = None.
Proof. by vm_compute. Qed.

(** Output that is redirected to a file is no console: every call of the
    system fails, and the text is lost. *)
Example redirected_is_lost :
  w_consoles <$> win_run (whole 1 0 err !"x") (Windows ∅ {[0%nat := new_wincolor_sink std_mutex 9]} ∅ ∅ []) = Some ∅.
Proof. by vm_compute. Qed.
