(* ===== verification/ProgramLog.v ===== *)
(** * The log of the program, from the call to standard output

    [log::create] makes an asynchronous logger over [stdout_sink]; threads
    call it with format strings; its worker formats the messages with the
    pattern [%+] and writes them.  This file puts the parts together: the
    registry ([Logging]), format strings ([FmtFormat]), the helper thread
    ([AsyncLog]), the formatter ([PatternFormatter]) and the sink
    ([Console]).  The theorem follows every message from the call to the line. *)
From S2P Require Import Prelude Cxx Logging Fmt FmtFacts PatternFormatter PatternFormatterFacts FmtBuffer FmtDouble FmtDoubleFacts FmtFormat FmtFormatFacts FmtTemplate FmtTemplateFacts MpmcQueue AsyncLog AsyncLogFacts Console.

Open Scope Z_scope.

(** What a call of the logger passes: [log(lvl, fmt, args...)], or a text that
    is no format string, [log(lvl, msg)]. *)
Inductive body (D : Type) := Format (fmt : bytes) (args : list (Arg D)) | Plain (msg : bytes).
Arguments Format {D}. Arguments Plain {D}.
(** A call with the time and the thread id its message gets. *)
Record call (D : Type) := Call {
  call_thread : nat; call_level : level_enum; call_body : body D; call_time : Z; call_tid : Z
}.
Arguments Call {D}. Arguments call_thread {D}. Arguments call_level {D}. Arguments call_body {D}.
Arguments call_time {D}. Arguments call_tid {D}.

(** What happens in the program: a thread logs, flushes or destroys the
    logger, goes on with the push or wait it is in, or the worker takes a
    turn. *)
Inductive p_step (D : Type) :=
| SLog (c : call D)
| SFlush (t : nat)
| SDestroy (t : nat)
| SPush (t : nat) (busy : bool)
| SWait (t : nat)
| SJoin (t : nat)
| SWorker (late : bool) (now now2 : Z).
Arguments SLog {D}. Arguments SFlush {D}. Arguments SDestroy {D}. Arguments SPush {D}.
Arguments SWait {D}. Arguments SJoin {D}. Arguments SWorker {D}.

Section Events.
Context {F H D : Type} `{FloatLib D}.
Variables (junk : ascii) (locale_sep : bytes).
Implicit Types l : logger F H.

(** The constructor of [async_logger] starts the helper with the logger's
    formatter and sinks. *)
Definition start_helper l (h : gmap nat (sink stream)) (now : Z) : option (helper F stream) :=
  st ← _async l; Some (new_helper (_formatter l) (_sinks l) st h now).

(** [log_msg.raw.write(fmt, args...)] and [log_msg.raw << msg] *)
Definition write_raw (bd : body D) : option (exc buffer) :=
  let raw := new_memory_buffer junk INLINE_BUFFER_SIZE in
  match bd with
  | Format fmt args => writer_write (H0 := MemoryBuffer junk) junk locale_sep fmt args raw
  | Plain msg => Some (append (H := MemoryBuffer junk) msg raw)
  end.
(** [logger::log] up to the first push of [async_logger::_sink_it].  An
    exception of the format string goes to the error handler: nothing is
    pushed. *)
Definition log_events l (c : call D) : list a_event :=
  if negb (should_log (call_level c) l) then []
  else
    match write_raw (call_body c) with
    | Some (Ok b) =>
        [EvLog (call_thread c) (_flush_level l)
           (with_raw (content b) (new_log_msg (_name l) (call_level c) (call_time c) (call_tid c)))]
    | _ => []
    end.
(** [async_logger::flush] waits. *)
Definition step_events l (s : p_step D) : list a_event :=
  match s with
  | SLog c => log_events l c
  | SFlush t => [EvFlush t true]
  | SDestroy t => [EvDestroy t]
  | SPush t busy => [EvPush t busy]
  | SWait t => [EvWait t]
  | SJoin t => [EvJoin t]
  | SWorker late now now2 => [EvWorker late now now2]
  end.
End Events.

(** The logger of [log::create] in a fresh process; [None] is an exception. *)
Definition program_logger {F H} (default_formatter : F) (default_handler : H) (name level : bytes) :
    option (logger F H) :=
  match log_create default_formatter default_handler queue_size_ok stdout_sink_mt_instance
          name level new_log_heap with
  | (w, Ok p) => lh_objects w !! p
  | (_, Thrown _) => None
  end.

(** ** The reference: what each call should print *)
Section Reference.
Context {D : Type} `{FloatLibOk D}.
Variables (junk : ascii) (locale_sep : bytes) (localtime : Z -> tm) (pid : Z).

(** [text] is what the call says: the expansion of a template whose printed
    form is the format string, or the text itself. *)
Definition body_ok (bd : body D) (text : bytes) : Prop :=
  match bd with
  | Format fmt args =>
      Forall arg_ok args /\ exists l st, fmt = print l /\ Forall piece_ok l
      /\ expand locale_sep args l 0 = Some (text, st)
  | Plain msg => text = msg
  end.
(** A call that says [text], with the clock in range. *)
Record call_ok (text : call D -> bytes) (c : call D) : Prop := {
  c_body : body_ok (call_body c) (text c);
  c_time : 0 <= call_time c <= llong_max;
  c_tid : 0 <= call_tid c <= size_max;
  c_tm : valid_tm (localtime (to_time_t (call_time c)))
}.

Definition call_msg (text : call D -> bytes) (name : bytes) (c : call D) : log_msg :=
  LogMsg name (call_level c) (call_time c) (call_tid c) (text c) [].
(** The messages a step of thread [t] asks for, when the logger's level is
    [v]. *)
Definition asked (text : call D -> bytes) (name : bytes) (v : level_enum) (t : nat) (s : p_step D) :
    list async_msg :=
  match s with
  | SLog c => if decide (call_thread c = t)
              then if level_geb (call_level c) v then [of_log_msg (call_msg text name c)] else []
              else []
  | SFlush t' => if decide (t' = t) then [control_msg msg_flush] else []
  | SDestroy t' => if decide (t' = t) then [control_msg msg_terminate] else []
  | SPush _ _ | SWait _ | SJoin _ | SWorker _ _ _ => []
  end.
(** The line of a message. *)
Definition line_of (a : async_msg) : bytes :=
  let m := fill_log_msg a in
  text_of pid full_formatter m (localtime (to_time_t (msg_time m))) ++ [lf].

(** ** Proof *)
Definition good_msg (m : log_msg) : Prop :=
  valid_msg m /\ valid_tm (localtime (to_time_t (msg_time m))) /\ formatted m = [].
Hypothesis pid_ok : 0 <= pid <= int_max.

Abbreviation fmt := (PatternFormatter.format junk pid localtime) (only parsing).
Definition full_line : list flag_formatter := compile_pattern !"%+".
Definition stdout_heap (out : bytes) : gmap nat (sink stream) := {[ 0%nat := new_sink (Stream out out) ]}.

Lemma deliver_line out m :
  good_msg m ->
  deliver fmt full_line [0%nat] m (stdout_heap out)
  = (stdout_heap (out ++ text_of pid full_formatter m (localtime (to_time_t (msg_time m))) ++ [lf]), Ok tt).
Proof.
  intros (Hm & Ht & Hf). unfold deliver, PatternFormatter.format.
  rewrite format_loop_text by done. cbn [exc_bind].
  set (t := localtime _). change (texts pid full_line m t) with (text_of pid full_formatter m t ++ []).
  rewrite Hf, app_nil_l, app_nil_r. unfold log_to, sink_log, stdout_heap. rewrite !lookup_singleton_eq.
  replace (sink_should_log _ _) with true
    by (unfold sink_should_log, level_geb; cbn; by destruct (msg_level m)).
  cbn [sink_it stdout_sink_impl]. by rewrite insert_singleton_eq.
Qed.
Definition msg_line (m : log_msg) : bytes :=
  text_of pid full_formatter m (localtime (to_time_t (msg_time m))) ++ [lf].
Lemma flush_stdout out : flush_all [0%nat] (stdout_heap out) = stdout_heap out.
Proof. unfold flush_all, stdout_heap. simpl. by rewrite alter_singleton_eq. Qed.
Lemma replay_lines ops out :
  Forall good_msg (omap op_msg ops) ->
  fold_left (replay_op fmt full_line [0%nat]) ops (stdout_heap out)
  = stdout_heap (out ++ concat (msg_line <$> omap op_msg ops))
  /\ errors_from fmt full_line [0%nat] (stdout_heap out) ops = [].
Proof.
  revert out; induction ops as [|[m|] ops IH]; intros out Hg; cbn [fold_left errors_from replay_op op_error].
  - simpl. by rewrite app_nil_r.
  - simpl in Hg. apply Forall_cons in Hg as [Hm Hg]. rewrite deliver_line by done. fold (msg_line m). cbn [fst snd app].
    destruct (IH (out ++ msg_line m) Hg) as [-> ->]. simpl. by rewrite <- app_assoc.
  - rewrite flush_stdout. by apply IH.
Qed.

Lemma write_raw_text bd text :
  body_ok bd text -> exists b, write_raw junk locale_sep bd = Some (Ok b) /\ content b = text.
Proof.
  assert (Hwf : buffer_wf (new_memory_buffer junk INLINE_BUFFER_SIZE)) by (vm_compute; lia).
  destruct bd as [f args|msg]; cbn [body_ok write_raw].
  - intros (Hargs & l & st & -> & Hl & Hex).
    destruct (template_written junk locale_sep args l text st _ Hargs Hl Hwf Hex) as (b & -> & _ & Hc). eauto.
  - intros ->. destruct (append_total (H := MemoryBuffer junk) (memory_grow_total junk) msg _ Hwf)
      as (b & -> & _ & Hc). eauto.
Qed.
(** What a call pushes is what it asks for. *)
Lemma log_events_asked {F H'} text (l : logger F H') v name t c :
  call_ok text c -> _name l = name -> _flush_level l = off ->
  (forall lvl, should_log lvl l = level_geb lvl v) ->
  (log_events junk locale_sep l c ≫= pushed_by t) = asked text name v t (SLog c).
Proof.
  intros [Hb _ _ _] Hn Hfl Hlvl. unfold log_events. rewrite Hlvl. cbn [asked].
  destruct (level_geb (call_level c) v) eqn:Hv; cbn [negb]; [|by case_decide].
  destruct (write_raw_text _ _ Hb) as (b & -> & Hc).
  cbn [mbind list_bind pushed_by]. rewrite app_nil_r, Hc, Hfl, Hn. case_decide; [|done].
  unfold async_sink_it, level_geb, call_msg. simpl. by destruct (call_level c).
Qed.
Lemma steps_asked {F H'} text (l : logger F H') v name t steps :
  Forall (fun s => match s with SLog c => call_ok text c | _ => True end) steps ->
  _name l = name -> _flush_level l = off -> (forall lvl, should_log lvl l = level_geb lvl v) ->
  ((steps ≫= step_events junk locale_sep l) ≫= pushed_by t) = steps ≫= asked text name v t.
Proof.
  intros Hs Hn Hf Hl. induction Hs as [|s steps Hs _ IH]; [done|]. cbn [mbind list_bind] in *.
  rewrite bind_app, IH. f_equal. destruct s as [c|? |? |? ? |? |? |? ? ?]; [by apply log_events_asked|..];
    cbn; by rewrite ?app_nil_r.
Qed.

Lemma program_logger_spec {H'} (dh : H') name level l :
  program_logger full_line dh name level = Some l ->
  exists v, level_of_name level = Some v /\ _name l = name /\ _flush_level l = off
  /\ _formatter l = full_line /\ _sinks l = [0%nat] /\ _async l = Some (AsyncSettings 8192 block_retry 0)
  /\ forall lvl, should_log lvl l = level_geb lvl v.
Proof.
  unfold program_logger, log_create, create, throw_if_exists.
  set (fs := full_line). cbn -[alter insert lookup level_of_name]. rewrite lookup_empty.
  change (Z.land 8192 (8192 - 1) =? 0) with true. cbn -[alter insert lookup level_of_name].
  destruct (level_of_name level) as [v|]; [|done]. cbn [lh_objects]. rewrite lookup_alter_eq, lookup_insert_eq.
  intros [= <-]. by exists v.
Qed.
(** A message popped was asked for by a call, so its line can be formatted. *)
Lemma popped_good text name v steps tagged (pending : nat -> list async_msg) popped rest :
  Forall (fun s => match s with SLog c => call_ok text c | _ => True end) steps ->
  (forall t, of_thread t tagged ++ pending t = steps ≫= asked text name v t) ->
  tagged.*2 = popped ++ rest -> Forall good_msg (fill_log_msg <$> filter is_log popped).
Proof.
  intros Hs Ht Hp. apply Forall_fmap, Forall_forall. intros a [Hlog Ha]%list_elem_of_filter.
  assert (Hin : a ∈ tagged.*2) by (rewrite Hp; apply elem_of_app; auto).
  apply list_elem_of_fmap in Hin as ([t a'] & -> & Hin). cbn [snd] in *.
  assert (Hask : a' ∈ steps ≫= asked text name v t).
  { rewrite <- Ht. apply elem_of_app. left. apply list_elem_of_fmap. exists (t, a').
    split; [done|]. by apply list_elem_of_filter. }
  apply list_elem_of_bind in Hask as (s & Hask & Hs'). rewrite Forall_forall in Hs. specialize (Hs s Hs').
  destruct s; cbn [asked] in Hask; repeat case_match;
    rewrite ?elem_of_nil, ?list_elem_of_singleton in Hask; subst; try done.
  destruct Hs. by split; [split|].
Qed.

(** The parts put together. *)
Lemma program_log_core {H'} (dh : H') text name level l steps now s0 s :
  program_logger full_line dh name level = Some l ->
  start_helper l (stdout_heap []) now = Some s0 ->
  Forall (fun s => match s with SLog c => call_ok text c | _ => True end) steps ->
  a_run fmt (steps ≫= step_events junk locale_sep l) s0 = Some s ->
  exists v tagged, level_of_name level = Some v
  /\ (forall t, of_thread t tagged ++ pending t s = steps ≫= asked text name v t)
  /\ tagged.*2 = a_popped s ++ a_q s /\ len (a_q s) <= 8192
  /\ a_heap s = stdout_heap (concat (line_of <$> filter is_log (a_popped s)))
  /\ a_errors s = []
  /\ (a_active s = false -> exists m, m ∈ a_popped s /\ am_type m = msg_terminate).
Proof.
  intros Hl Hs0 Hok Hr. destruct (program_logger_spec _ _ _ _ Hl) as (v & Hv & Hn & Hfl & Hf & Hs & Has & Hlvl).
  unfold start_helper in Hs0. rewrite Has in Hs0. cbn [mbind option_bind] in Hs0. simplify_eq. rewrite Hf, Hs in Hr.
  destruct (thread_order fmt full_line [0%nat] (AsyncSettings 8192 block_retry 0) (stdout_heap []) now _ _ eq_refl Hr)
    as (tagged & Hta & Ht).
  assert (Hask : forall t, of_thread t tagged ++ pending t s = steps ≫= asked text (_name l) v t)
    by (intros t; rewrite Ht; by apply steps_asked).
  destruct (helper_inv_run fmt full_line [0%nat] (AsyncSettings 8192 block_retry 0) (stdout_heap []) _ _ _
    (helper_inv_new _ _ _ _ _ now) Hr) as [_ Hfifo Hlen Hheap Herr Hmsgs _ Hter _ Hexit].
  rewrite Hfifo in Hta. pose proof (popped_good _ _ _ _ _ _ _ _ Hok Hask Hta) as Hgood.
  rewrite <- Hmsgs in Hgood. destruct (replay_lines (a_ops s) [] Hgood) as [Hrep Hnone].
  exists v, tagged. split; [done|]. split; [done|]. split; [done|]. split; [simpl in Hlen; lia|].
  split; [|split; [by rewrite Herr|]].
  - rewrite Hheap. unfold replay. rewrite Hrep, Hmsgs, app_nil_l, <- list_fmap_compose. done.
  - intros Hact. destruct (Hexit Hact) as [Htr _]. rewrite Hter in Htr.
    apply existsb_exists in Htr as (m & Hm%list_elem_of_In & Htm). exists m. split; [done|].
    unfold is_terminate in Htm. by bool_to_prop.
Qed.

(** (C19) The log of the program, end to end.  Create the logger as
    the program does, with any level name [log::create] takes, and let any
    threads log, flush and destroy it in any interleaving with its worker,
    every call with a format string that fits its arguments (or with a plain
    text).  Then: what each
    thread has had accepted and still holds is exactly what its calls asked
    for, in its order, the calls below the level left out and no other; the
    queue is taken in one order; and standard output holds, flushed, exactly
    one line per message taken from the queue, in that order: its time stamp,
    the logger's name, the level, and the expansion of the call's template.
    No error is reported, and when the worker has ended it has taken a
    termination message. *)
Theorem program_log_lines {H'} (dh : H') text name level l steps now s0 s :
  program_logger full_line dh name level = Some l ->
  start_helper l (stdout_heap []) now = Some s0 ->
  Forall (fun s => match s with SLog c => call_ok text c | _ => True end) steps ->
  a_run fmt (steps ≫= step_events junk locale_sep l) s0 = Some s ->
  exists v tagged, level_of_name level = Some v
  /\ (forall t, of_thread t tagged ++ pending t s = steps ≫= asked text name v t)
  /\ tagged.*2 = a_popped s ++ a_q s /\ len (a_q s) <= 8192
  /\ a_heap s = stdout_heap (concat (line_of <$> filter is_log (a_popped s)))
  /\ a_errors s = []
  /\ (a_active s = false -> exists m, m ∈ a_popped s /\ am_type m = msg_terminate).
Proof. apply program_log_core. Qed.
End Reference.

(** ** Two threads and a level *)
Definition get_miss : call Z :=
  Call 1 warn (Format !"{} misses: {:>4}" [STRING 1 !"get"; INT 12]) 1483246799042000000 7.
Definition below_level : call Z := Call 2 debug (Format !"{{}}" []) 1483246799042000000 8.
Definition started : call Z := Call 2 info (Plain !"started") 1483246799043000000 8.
Definition demo_text (c : call Z) : bytes :=
  if decide (call_thread c = 1%nat) then !"get misses:   12"
  else if decide (call_level c = debug) then !"{}" else !"started".
Definition demo_steps : list (p_step Z) :=
  [SLog get_miss; SLog below_level; SLog started; SPush 2 false; SPush 1 true; SPush 1 false;
   SWorker false 1 1; SDestroy 2; SPush 2 false; SWorker false 2 2; SWorker false 3 3; SWorker false 4 4;
   SJoin 2].
Definition demo_logger : logger (list flag_formatter) unit :=
  default (new_logger [] tt [] [] None) (program_logger full_line tt !"main" !"info").
Definition demo_start : helper (list flag_formatter) stream :=
  default (new_helper [] [] (AsyncSettings 0 block_retry 0) ∅ 0) (start_helper demo_logger (stdout_heap []) 0).
Definition demo_end : helper (list flag_formatter) stream :=
  default demo_start (a_run (PatternFormatter.format nul 1 (fun _ => new_year))
    (demo_steps ≫= step_events nul !"," demo_logger) demo_start).
Definition demo_ok (s : p_step Z) : Prop :=
  match s with SLog c => call_ok !"," (fun _ => new_year) demo_text c | _ => True end.
Lemma demo_call_ok c :
  body_ok !"," (call_body c) (demo_text c) ->
  0 <= call_time c <= llong_max -> 0 <= call_tid c <= size_max -> demo_ok (SLog c).
Proof. intros. split; eauto using new_year_ok. Qed.
Lemma demo_calls_ok : Forall demo_ok demo_steps.
Proof.
  repeat (apply Forall_cons_2 || apply Forall_nil_2); try exact I;
    (apply demo_call_ok; [|split; vm_compute; discriminate..]).
  - split; [repeat constructor; vm_compute; discriminate|].
    exists [Field Auto None; Text !" misses: ";
      Field Auto (Some (FieldSpec None (Some ALIGN_RIGHT) None false false (Some (Lit 4)) None None))], 2.
    split; [vm_compute; reflexivity|]. split; [|vm_compute; reflexivity].
    repeat constructor; try discriminate; vm_compute; discriminate.
  - split; [constructor|]. exists [Text !"{}"], 0. split; [vm_compute; reflexivity|].
    split; [repeat constructor; discriminate|vm_compute; reflexivity].
  - reflexivity.
Qed.
Lemma program_log_lines_witness :
  a_active demo_end = false
  /\ a_heap demo_end
     = stdout_heap (!"[2016-12-31 23:59:59.043] [main] [info] started" ++ [lf]
                    ++ !"[2016-12-31 23:59:59.042] [main] [warning] get misses:   12" ++ [lf])
  /\ a_errors demo_end = [].
Proof.
  split; [vm_compute; reflexivity|].
  assert (Hr : a_run (PatternFormatter.format nul 1 (fun _ => new_year))
    (demo_steps ≫= step_events nul !"," demo_logger) demo_start = Some demo_end) by (vm_compute; reflexivity).
  destruct (program_log_lines nul !"," (fun _ => new_year) 1 ltac:(split; discriminate) tt demo_text !"main" !"info"
    demo_logger demo_steps 0 demo_start demo_end) as (v & tagged & _ & _ & _ & _ & Hh & He & _).
  - vm_compute. reflexivity.
  - vm_compute. reflexivity.
  - exact demo_calls_ok.
  - exact Hr.
  - split; [|exact He]. rewrite Hh. vm_compute. reflexivity.
Defined.
