(* ===== verification/Facade.v ===== *)
(** * The functions of namespace [spdlog] and the methods of a logger,
      [src/src/spdlog/details/spdlog_impl.h] and [details/logger_impl.h]

    What a program calls: the free functions, which go to the one registry of
    the process, and the setters and the methods per level of a logger it has
    got.  Any sequence of such calls keeps the registry consistent, and the
    loggers it made follow its settings. *)
From S2P Require Import Prelude Cxx Logging PatternFormatter FmtBuffer FmtDouble FmtDoubleFacts FmtFormat Console AsyncLog ProgramLog.

Open Scope Z_scope.

(** ** The methods of a logger *)
Section Methods.
Context {D : Type}.
(** The calling thread, the time and the thread's id. *)
Variables (thread : nat) (now tid : Z).
Definition log_fmt (lvl : level_enum) (fmt : bytes) (args : list (Arg D)) : call D := Call thread lvl (Format fmt args) now tid.
Definition log_text (lvl : level_enum) (msg : bytes) : call D := Call thread lvl (Plain msg) now tid.

Definition trace_fmt := log_fmt trace.
Definition debug_fmt := log_fmt debug.
Definition info_fmt := log_fmt info.
Definition warn_fmt := log_fmt warn.
Definition error_fmt := log_fmt err.
Definition critical_fmt := log_fmt critical.
Definition trace_text := log_text trace.
Definition debug_text := log_text debug.
Definition info_text := log_text info.
Definition warn_text := log_text warn.
Definition error_text := log_text err.
Definition critical_text := log_text critical.
End Methods.

(** The setters, which keep the name. *)
Section Api.
Context {F H : Type}.
Variables (default_formatter : F) (default_handler : H) (queue_size_ok : Z -> bool).
Implicit Types (w : log_heap F H) (l : logger F H).

Inductive setter := SSetFormatter (f : F) | SSetLevel (v : level_enum) | SSetErrorHandler (h : H) | SFlushOn (v : level_enum).
Definition set_on (s : setter) : logger F H -> logger F H :=
  match s with
  | SSetFormatter f => set_formatter f
  | SSetLevel v => logger_set_level v
  | SSetErrorHandler h => logger_set_error_handler h
  | SFlushOn v => flush_on v
  end.

(** ** The free functions *)
Definition spdlog_register_logger (p : nat) w : log_heap F H * exc unit :=
  match register_logger p w with Ok w => (w, Ok tt) | Thrown e => (w, Thrown e) end.
Definition spdlog_get (name : bytes) w : option nat := registry_get name w.
Definition spdlog_drop (name : bytes) w : log_heap F H := drop_logger name w.
Definition spdlog_create (name : bytes) (sinks : list nat) w : log_heap F H * exc nat :=
  match create default_formatter default_handler queue_size_ok name sinks w with
  | Ok (w, p) => (w, Ok p)
  | Thrown e => (w, Thrown e)
  end.
Definition spdlog_set_formatter (f : F) w : log_heap F H := set_registry_formatter f w.
Definition spdlog_set_level (v : level_enum) w : log_heap F H := set_registry_level v w.
Definition spdlog_set_error_handler (h : H) w : log_heap F H := set_registry_error_handler h w.
Definition spdlog_set_async_mode (q_size : Z) (policy : async_overflow_policy) (flush_ms : Z) w : log_heap F H :=
  set_async_mode q_size policy flush_ms w.
Definition spdlog_set_sync_mode w : log_heap F H := set_sync_mode w.
Definition spdlog_apply_all (f : logger F H -> logger F H) w : log_heap F H := apply_all f w.
Definition spdlog_drop_all w : log_heap F H := drop_all w.

(** A call of the program; [ANew] makes a logger object outside the registry,
    and [AOn] calls a setter of a logger the program holds. *)
Inductive api :=
| ANew (name : bytes) (sinks : list nat) (async : option async_settings)
| ARegister (p : nat)
| ADrop (name : bytes)
| ACreate (name : bytes) (sinks : list nat)
| ASetFormatter (f : F)
| ASetLevel (v : level_enum)
| ASetErrorHandler (h : H)
| ASetAsyncMode (q_size : Z) (policy : async_overflow_policy) (flush_ms : Z)
| ASetSyncMode
| AApplyAll (s : setter)
| ADropAll
| AOn (p : nat) (s : setter).

Definition api_step (a : api) w : log_heap F H :=
  match a with
  | ANew name sinks async =>
      LogHeap (lh_registry w) (<[lh_next w := new_logger default_formatter default_handler name sinks async]> (lh_objects w))
        (S (lh_next w))
  | ARegister p => (spdlog_register_logger p w).1
  | ADrop name => spdlog_drop name w
  | ACreate name sinks => (spdlog_create name sinks w).1
  | ASetFormatter f => spdlog_set_formatter f w
  | ASetLevel v => spdlog_set_level v w
  | ASetErrorHandler h => spdlog_set_error_handler h w
  | ASetAsyncMode q_size policy flush_ms => spdlog_set_async_mode q_size policy flush_ms w
  | ASetSyncMode => spdlog_set_sync_mode w
  | AApplyAll s => spdlog_apply_all (set_on s) w
  | ADropAll => spdlog_drop_all w
  | AOn p s => LogHeap (lh_registry w) (alter (set_on s) p (lh_objects w)) (lh_next w)
  end.
Definition api_run (calls : list api) w : log_heap F H := fold_left (fun w a => api_step a w) calls w.

(** For the statement: the loggers the registry made that are still in it and
    were not changed behind its back. *)
Definition following_step (a : api) w (made : gset nat) : gset nat :=
  match a with
  | ACreate name sinks =>
      match spdlog_create name sinks w with (_, Ok p) => {[p]} ∪ made | _ => made end
  | ADrop name => match spdlog_get name w with Some p => made ∖ {[p]} | None => made end
  | ADropAll | AApplyAll _ => ∅
  | AOn p _ => made ∖ {[p]}
  | _ => made
  end.
Fixpoint following (calls : list api) w (made : gset nat) : gset nat :=
  match calls with
  | [] => made
  | a :: calls => following calls (api_step a w) (following_step a w made)
  end.

(** ** The registry stays consistent *)

(** A logger has the settings of the registry. *)
Definition follows (r : registry F H) l : Prop :=
  _level l = r_level r /\ _formatter l = default default_formatter (Logging.r_formatter r)
  /\ _err_handler l = default default_handler (r_err_handler r).
Record registry_ok (w : log_heap F H) (made : gset nat) : Prop := {
  k_names : forall name p, _loggers (lh_registry w) !! name = Some p ->
    exists l, lh_objects w !! p = Some l /\ _name l = name;
  k_next : forall p, (lh_next w <= p)%nat -> lh_objects w !! p = None;
  k_made : forall p, p ∈ made -> exists l, lh_objects w !! p = Some l
    /\ _loggers (lh_registry w) !! _name l = Some p /\ follows (lh_registry w) l
}.

Lemma apply_all_lookup f w p :
  lh_objects (apply_all f w) !! p
  = (fun l => if is_registered (lh_registry w) p then f l else l) <$> lh_objects w !! p.
Proof. unfold apply_all. simpl. rewrite map_lookup_imap. by destruct (lh_objects w !! p). Qed.
Lemma registered_by_name (r : registry F H) name p : _loggers r !! name = Some p -> is_registered r p = true.
Proof.
  intros Hp. apply bool_decide_eq_true_2, list_elem_of_fmap. exists (name, p). split; [done|].
  by apply elem_of_map_to_list.
Qed.
Lemma set_on_name s l : _name (set_on s l) = _name l.
Proof. by destruct s. Qed.

(** A call that changes settings, or logger objects in place. *)
Lemma ok_in_place w w' made made' (g : nat -> logger F H -> logger F H) :
  registry_ok w made -> _loggers (lh_registry w') = _loggers (lh_registry w) -> lh_next w' = lh_next w ->
  (forall p, lh_objects w' !! p = g p <$> lh_objects w !! p) -> (forall p l, _name (g p l) = _name l) ->
  made' ⊆ made ->
  (forall p l, p ∈ made' -> is_registered (lh_registry w) p = true -> follows (lh_registry w) l -> follows (lh_registry w') (g p l)) ->
  registry_ok w' made'.
Proof.
  intros [Hn Hx Hm] Hl Hnx Ho Hg Hsub Hf. split.
  - intros name p. rewrite Hl. intros (l & Hp & <-)%Hn. rewrite Ho, Hp. exists (g p l). by rewrite Hg.
  - intros p Hp. rewrite Hnx in Hp. by rewrite Ho, Hx.
  - intros p Hp. destruct (Hm p) as (l & Hpl & Hr & Hfl); [set_solver|]. exists (g p l). rewrite Ho, Hpl, Hg, Hl.
    split; [done|]. split; [done|]. apply Hf; [done| |done]. by eapply registered_by_name.
Qed.

Lemma fresh_pointer w made p l : registry_ok w made -> lh_objects w !! p = Some l -> lh_next w <> p.
Proof. intros Hok Hp <-. by rewrite (k_next _ _ Hok) in Hp. Qed.
Lemma new_ok l w made :
  registry_ok w made -> registry_ok (LogHeap (lh_registry w) (<[lh_next w := l]> (lh_objects w)) (S (lh_next w))) made.
Proof.
  intros Hok. pose proof Hok as [Hn Hx Hm]. split; simpl.
  - intros n p (l' & Hp & <-)%Hn. exists l'. by rewrite lookup_insert_ne by by eapply fresh_pointer.
  - intros p Hp. rewrite lookup_insert_ne by lia. apply Hx. lia.
  - intros p (l' & Hp & ?)%Hm. exists l'. by rewrite lookup_insert_ne by by eapply fresh_pointer.
Qed.
Lemma register_ok p w made : registry_ok w made -> registry_ok (spdlog_register_logger p w).1 made.
Proof.
  intros Hok. pose proof Hok as [Hn Hx Hm]. unfold spdlog_register_logger, register_logger, throw_if_exists.
  destruct (lh_objects w !! p) as [l|] eqn:Hp; [|done].
  destruct (_loggers (lh_registry w) !! _name l) as [q|] eqn:Hq; [done|]. split; simpl; [|done|].
  - intros n q. destruct (decide (n = _name l)) as [->|Hne].
    + rewrite lookup_insert_eq. intros [= <-]. eauto.
    + rewrite lookup_insert_ne by done. apply Hn.
  - intros q (l' & Hql & Hr & Hf)%Hm. exists l'. split; [done|]. split; [|done].
    rewrite lookup_insert_ne; [done|]. intros E. rewrite <- E, Hq in Hr. done.
Qed.
Lemma drop_ok name w made :
  registry_ok w made -> registry_ok (spdlog_drop name w) (following_step (ADrop name) w made).
Proof.
  intros [Hn Hx Hm]. unfold spdlog_drop, drop_logger. split; simpl; [|done|].
  - intros n p [Hne Hp]%lookup_delete_Some. by apply Hn.
  - unfold spdlog_get, registry_get. intros p Hp.
    assert (Hpm : p ∈ made) by (destruct (_loggers (lh_registry w) !! name); set_solver).
    destruct (Hm p Hpm) as (l & Hpl & Hr & Hf). exists l. split; [done|]. split; [|done].
    rewrite lookup_delete_ne; [done|]. intros ->. rewrite Hr in Hp. set_solver.
Qed.
Lemma create_ok name sinks w made :
  registry_ok w made ->
  registry_ok (spdlog_create name sinks w).1 (following_step (ACreate name sinks) w made).
Proof.
  intros Hok. pose proof Hok as [Hn Hx Hm]. simpl. unfold spdlog_create, create, throw_if_exists.
  destruct (_loggers (lh_registry w) !! name) as [q|] eqn:Hq; [done|]. cbn [exc_bind].
  match goal with |- context [exc_bind ?x _] => destruct x as [async|e]; [|done] end. cbn [exc_bind fst].
  set (l0 := logger_set_level _ _).
  assert (Hl0 : _name l0 = name /\ follows (lh_registry w) l0).
  { unfold l0, follows. destruct (Logging.r_formatter _), (r_err_handler _); by split_and!. }
  destruct (new_ok l0 w made Hok) as [_ Hx' _]. split; simpl; [|exact Hx'|].
  - intros n p. destruct (decide (n = name)) as [->|Hne].
    + rewrite lookup_insert_eq. intros [= <-]. exists l0. rewrite lookup_insert_eq. by destruct Hl0.
    + rewrite lookup_insert_ne by done. intros (l & Hp & <-)%Hn. exists l.
      by rewrite lookup_insert_ne by by eapply fresh_pointer.
  - intros p [->%elem_of_singleton|Hp]%elem_of_union.
    + destruct Hl0 as [E Hf]. exists l0. by rewrite E, !lookup_insert_eq.
    + destruct (Hm p Hp) as (l & Hpl & Hr & Hf). exists l. rewrite lookup_insert_ne by by eapply fresh_pointer.
      split; [done|]. split; [|done]. rewrite lookup_insert_ne; [done|]. intros E. rewrite <- E, Hq in Hr. done.
Qed.
(** A setting of the registry goes to all its loggers. *)
Lemma setting_ok s w w' made :
  registry_ok w made -> _loggers (lh_registry w') = _loggers (lh_registry w) -> lh_next w' = lh_next w ->
  lh_objects w' = lh_objects (apply_all (set_on s) w) ->
  (forall l, follows (lh_registry w) l -> follows (lh_registry w') (set_on s l)) ->
  registry_ok w' made.
Proof.
  intros Hok Hl Hx Ho Hf.
  apply (ok_in_place w w' made made (fun p l => if is_registered (lh_registry w) p then set_on s l else l)); try done.
  - intros p. rewrite Ho. apply apply_all_lookup.
  - intros p l. destruct (is_registered _ _); [apply set_on_name|done].
  - intros p l _ ->. apply Hf.
Qed.

Lemma api_step_ok a w made : registry_ok w made -> registry_ok (api_step a w) (following_step a w made).
Proof.
  intros Hok. destruct a as [name sinks async|p|name|name sinks|f|v|h|q pol ms| |s| |p s].
  - by apply new_ok.
  - by apply register_ok.
  - by apply drop_ok.
  - by apply create_ok.
  - apply (setting_ok (SSetFormatter f) w); try done. unfold follows. simpl. tauto.
  - apply (setting_ok (SSetLevel v) w); try done. unfold follows. simpl. tauto.
  - apply (setting_ok (SSetErrorHandler h) w); try done. unfold follows. simpl. tauto.
  - apply (ok_in_place w _ made made (fun _ l => l)); try done. intros p. simpl. by destruct (lh_objects w !! p).
  - apply (ok_in_place w _ made made (fun _ l => l)); try done. intros p. simpl. by destruct (lh_objects w !! p).
  - apply (ok_in_place w _ made _ (fun p l => if is_registered (lh_registry w) p then set_on s l else l));
      try done; [apply apply_all_lookup|].
    intros p l. destruct (is_registered _ _); [apply set_on_name|done].
  - destruct Hok as [Hn Hx Hm]. split; simpl; [done|done|]. intros p Hp. set_solver.
  - apply (ok_in_place w _ made _ (fun q l => if decide (p = q) then set_on s l else l)); try done; simpl; [| |set_solver|].
    + intros q. rewrite lookup_alter. case_decide; subst; [done|by destruct (lh_objects w !! q)].
    + intros q l. case_decide; [apply set_on_name|done].
    + intros q l Hq _ Hf. rewrite decide_False by set_solver. done.
Qed.

(** Whatever a program calls: a name finds a logger of that name, and a logger
    the registry made has the level, the formatter and the error handler last
    set for all, as long as it is registered and nobody changed it alone. *)
Theorem settings_reach_loggers calls :
  let w := api_run calls new_log_heap in
  (forall name p, spdlog_get name w = Some p -> exists l, lh_objects w !! p = Some l /\ _name l = name)
  /\ forall p, p ∈ following calls new_log_heap ∅ ->
       exists l, lh_objects w !! p = Some l /\ spdlog_get (_name l) w = Some p /\ follows (lh_registry w) l.
Proof.
  assert (Hall : forall w made, registry_ok w made -> registry_ok (api_run calls w) (following calls w made)).
  { induction calls as [|a calls IH]; intros w made Hok; simpl; [done|]. by apply IH, api_step_ok. }
  destruct (Hall new_log_heap ∅) as [Hn _ Hm]; [|by split].
  split; simpl; [by intros name p ?%lookup_empty_Some|done|set_solver].
Qed.
End Api.
Arguments api F H : clear implicits.

Definition spdlog_set_pattern {H} (format_string : bytes) (w : log_heap (list flag_formatter) H) :
    log_heap (list flag_formatter) H :=
  set_pattern format_string w.
(** [set_pattern] is one of the calls of the theorem. *)
Lemma set_pattern_call {H} dh qs s (w : log_heap (list flag_formatter) H) :
  spdlog_set_pattern s w = api_step full_line dh qs (ASetFormatter (compile_pattern s)) w.
Proof. done. Qed.

(** ** Concrete calls *)

(** A logger made by hand and registered keeps its level when a level was set
    before; one the registry makes gets it. *)
Example registered_keeps_level :
  let calls : list (api unit unit) :=
    [ASetLevel err; ANew !"own" [] None; ARegister 0; ACreate !"made" []; ACreate !"made" []] in
  let w := api_run tt tt (fun _ => true) calls new_log_heap in
  (_level <$> lh_objects w !! 0%nat) = Some info /\ (_level <$> lh_objects w !! 1%nat) = Some err
  /\ spdlog_get !"own" w = Some 0%nat /\ spdlog_get !"made" w = Some 1%nat /\ lh_next w = 2%nat
  /\ following tt tt (fun _ => true) calls new_log_heap ∅ = {[1%nat]}.
Proof. by vm_compute. Qed.

(** The methods, from the least severe to the most severe. *)
Definition methods {D} (msg : bytes) : list (call D) :=
  map (fun f => f 0%nat 0 0 msg) [trace_text; debug_text; info_text; warn_text; error_text; critical_text].
(** A logger at level [err] logs what [error] and [critical] are given. *)
Example methods_admitted :
  map (fun c => length (log_events (D := Z) Ascii.zero [] (Logger !"l" [] tt err off tt None) c)) (methods !"x") = [0; 0; 0; 0; 1; 1]%nat.
Proof. by vm_compute. Qed.
