(* ===== verification/LogSites.v ===== *)
(** * The log statements of the program, [src/src/service.cpp] and
      [src/src/quitsies/db/rocks.cpp]

    One constructor per statement, with the values it prints.  [site_body] is
    the format string and the arguments as they are written in the source,
    [site_text] what the line should say.  The theorems show that every
    statement prints its text whatever the values are, alone and on its way
    through the program's logger to standard output. *)
From S2P Require Import Prelude Cxx Logging Fmt FmtFacts FmtBuffer FmtDouble FmtDoubleFacts FmtFormat FmtFormatFacts FmtTemplate FmtTemplateFacts PatternFormatter PatternFormatterFacts AsyncLog AsyncLogFacts Console ProgramLog.

Open Scope Z_scope.

Inductive site :=
| http_listening (http_address http_port http_prefix : bytes) (n_http_threads : Z)
| tcp_listening (tcp_address tcp_port : bytes) (n_tcp_threads : Z)
| statsd_connecting (statsd_address statsd_port : bytes)
| open_failed (what : bytes)
| exiting
| key_get_failed (key status : bytes)
| key_put_failed (key status : bytes)
| backup_creating (backup_path : bytes)
| backup_create_failed (status : bytes)
| backup_created (backup_path : bytes)
| backup_purging (backup_path : bytes)
| backup_purge_failed (status : bytes)
| backup_purged (backup_path : bytes)
| backup_read_failed (status : bytes)
| setting_up (_path : bytes)
| restore_failed (status : bytes)
| restored
| debug_mode
| folder_size_failed (what : bytes).

Definition site_level (s : site) : level_enum :=
  match s with
  | open_failed _ | key_get_failed _ _ | key_put_failed _ _ | backup_create_failed _
  | backup_purge_failed _ | backup_read_failed _ | restore_failed _ => err
  | folder_size_failed _ => debug
  | _ => info
  end.

(** [std::string] and [const char*] arguments; the address of the text is not
    null. *)
Section Body.
Context {D : Type}.
Definition str (s : bytes) : Arg D := STRING 1 s.
Definition cstr (s : bytes) : Arg D := CSTRING 1 s.
Definition long_long (z : Z) : Arg D := LONG_LONG z.

Definition site_body (s : site) : body D :=
  match s with
  | http_listening a p pre n =>
      Format !"REST API listening at http://{}:{}{} with {} threads." [str a; str p; str pre; long_long n]
  | tcp_listening a p n =>
      Format !"Memcached API listening at tcp://{}:{} with {} threads." [str a; str p; long_long n]
  | statsd_connecting a p => Format !"Attempting to connect to statsd server at {}:{}" [str a; str p]
  | open_failed w => Format !"Failed to open database: {}, terminating application." [cstr w]
  | exiting => Plain !"Process exiting, closing DB"
  | key_get_failed k st => Format !"failed to obtain key {}: {}" [str k; str st]
  | key_put_failed k st => Format !"failed to set key {}: {}" [str k; str st]
  | backup_creating p => Format !"attempting to create new backup at: {}" [str p]
  | backup_create_failed st => Format !"failed to create new backup: {}" [str st]
  | backup_created p => Format !"created new backup at: {}" [str p]
  | backup_purging p => Format !"attempting to purge old backups at: {}" [str p]
  | backup_purge_failed st => Format !"failed to purge backups: {}" [str st]
  | backup_purged p => Format !"purged old backups at: {}" [str p]
  | backup_read_failed st => Format !"failed to read backup: {}" [str st]
  | setting_up p => Format !"setting up DB at {}" [str p]
  | restore_failed st => Format !"failed to restore backup: {}" [str st]
  | restored => Plain !"successfully restored backup."
  | debug_mode =>
      Plain !"DEBUG MODE: Collecting granular rocksdb metrics. This will have a small impact on performance."
  | folder_size_failed w => Format !"Failed to evaluate folder size for metrics: {}" [cstr w]
  end.
End Body.

(** ** What each statement says *)
Definition site_text (s : site) : bytes :=
  match s with
  | http_listening a p pre n =>
      !"REST API listening at http://" ++ a ++ !":" ++ p ++ pre ++ !" with " ++ dec n ++ !" threads."
  | tcp_listening a p n =>
      !"Memcached API listening at tcp://" ++ a ++ !":" ++ p ++ !" with " ++ dec n ++ !" threads."
  | statsd_connecting a p => !"Attempting to connect to statsd server at " ++ a ++ !":" ++ p
  | open_failed w => !"Failed to open database: " ++ w ++ !", terminating application."
  | exiting => !"Process exiting, closing DB"
  | key_get_failed k st => !"failed to obtain key " ++ k ++ !": " ++ st
  | key_put_failed k st => !"failed to set key " ++ k ++ !": " ++ st
  | backup_creating p => !"attempting to create new backup at: " ++ p
  | backup_create_failed st => !"failed to create new backup: " ++ st
  | backup_created p => !"created new backup at: " ++ p
  | backup_purging p => !"attempting to purge old backups at: " ++ p
  | backup_purge_failed st => !"failed to purge backups: " ++ st
  | backup_purged p => !"purged old backups at: " ++ p
  | backup_read_failed st => !"failed to read backup: " ++ st
  | setting_up p => !"setting up DB at " ++ p
  | restore_failed st => !"failed to restore backup: " ++ st
  | restored => !"successfully restored backup."
  | debug_mode =>
      !"DEBUG MODE: Collecting granular rocksdb metrics. This will have a small impact on performance."
  | folder_size_failed w => !"Failed to evaluate folder size for metrics: " ++ w
  end.
(** The numbers of threads are [long long]. *)
Definition site_range (s : site) : Prop :=
  match s with
  | http_listening _ _ _ n | tcp_listening _ _ n => llong_min <= n <= llong_max
  | _ => True
  end.

(** The format strings as templates: texts, with a field between them. *)
Fixpoint fields (ts : list bytes) : list piece :=
  match ts with
  | [] => []
  | [t] => [Text t]
  | t :: ts => Text t :: Field Auto None :: fields ts
  end.
Definition site_pieces (s : site) : list bytes :=
  match s with
  | http_listening _ _ _ _ => [ !"REST API listening at http://"; !":"; []; !" with "; !" threads." ]
  | tcp_listening _ _ _ => [ !"Memcached API listening at tcp://"; !":"; !" with "; !" threads." ]
  | statsd_connecting _ _ => [ !"Attempting to connect to statsd server at "; !":"; [] ]
  | open_failed _ => [ !"Failed to open database: "; !", terminating application." ]
  | key_get_failed _ _ => [ !"failed to obtain key "; !": "; [] ]
  | key_put_failed _ _ => [ !"failed to set key "; !": "; [] ]
  | backup_creating _ => [ !"attempting to create new backup at: "; [] ]
  | backup_create_failed _ => [ !"failed to create new backup: "; [] ]
  | backup_created _ => [ !"created new backup at: "; [] ]
  | backup_purging _ => [ !"attempting to purge old backups at: "; [] ]
  | backup_purge_failed _ => [ !"failed to purge backups: "; [] ]
  | backup_purged _ => [ !"purged old backups at: "; [] ]
  | backup_read_failed _ => [ !"failed to read backup: "; [] ]
  | setting_up _ => [ !"setting up DB at "; [] ]
  | restore_failed _ => [ !"failed to restore backup: "; [] ]
  | folder_size_failed _ => [ !"Failed to evaluate folder size for metrics: "; [] ]
  | exiting | restored | debug_mode => []
  end.
Definition site_values (s : site) : list bytes :=
  match s with
  | http_listening a p pre n => [a; p; pre; dec n]
  | tcp_listening a p n => [a; p; dec n]
  | statsd_connecting v1 v2 | key_get_failed v1 v2 | key_put_failed v1 v2 => [v1; v2]
  | open_failed v | backup_creating v | backup_create_failed v | backup_created v | backup_purging v
  | backup_purge_failed v | backup_purged v | backup_read_failed v | setting_up v | restore_failed v
  | folder_size_failed v => [v]
  | exiting | restored | debug_mode => []
  end.

Section Texts.
Context {D : Type} `{FloatLibOk D}.
Variables (junk : ascii) (locale_sep : bytes).

(** The texts and the arguments in turn. *)
Fixpoint weave (ts : list bytes) (vs : list bytes) : bytes :=
  match ts, vs with
  | t :: ts, v :: vs => t ++ v ++ weave ts vs
  | t :: _, [] => t
  | [], _ => []
  end.
Lemma expand_fields (args : list (Arg D)) ts vs pre :
  length ts = S (length vs) -> Forall2 (fun a v => plain_text a = Some v) args vs ->
  expand locale_sep (pre ++ args) (fields ts) (len pre) = Some (weave ts vs, len pre + len vs).
Proof.
  revert args vs pre; induction ts as [|t ts IH]; intros args vs pre Hl Ha; [done|].
  destruct Ha as [|a v args vs Hav Ha]; simpl in Hl; destruct ts as [|t' ts]; try done.
  - cbn [fields weave]. rewrite expand_text. cbn. rewrite app_nil_r. f_equal. f_equal. unfold len. simpl. lia.
  - change (fields (t :: t' :: ts)) with (Text t :: Field Auto None :: fields (t' :: ts)).
    rewrite expand_text, (expand_plain_field _ _ a v).
    + specialize (IH args vs (pre ++ [a]) ltac:(simpl in *; lia) Ha). rewrite <- app_assoc in IH. cbn [app] in IH.
      replace (len pre + 1) with (len (pre ++ [a])) by (unfold len; rewrite length_app; simpl; lia).
      rewrite IH. cbn [mbind option_bind fst snd weave]. do 2 f_equal. unfold len. rewrite length_app. simpl. lia.
    + unfold len. lia.
    + unfold len. rewrite Nat2Z.id, app_nth2, Nat.sub_diag by lia. done.
    + done.
Qed.
Lemma fields_ok ts : Forall (Forall (fun c => c <> nul)) ts -> Forall piece_ok (fields ts).
Proof.
  induction 1 as [|t ts Ht Hts IH]; [constructor|]. destruct ts as [|t' ts]; cbn [fields].
  - by repeat constructor.
  - constructor; [done|]. constructor; [done|]. exact IH.
Qed.

Lemma format_body_ok f (args : list (Arg D)) ts vs :
  f = print (fields ts) -> Forall (Forall (fun c => c <> nul)) ts -> Forall arg_ok args ->
  length ts = S (length vs) -> Forall2 (fun a v => plain_text a = Some v) args vs ->
  body_ok locale_sep (Format f args) (weave ts vs).
Proof.
  intros -> Hts Hargs Hl Hv. split; [done|]. exists (fields ts), (0 + len vs).
  split; [done|]. split; [by apply fields_ok|]. exact (expand_fields args ts vs [] Hl Hv).
Qed.
Lemma site_text_woven s :
  site_pieces s <> [] -> site_text s = weave (site_pieces s) (site_values s).
Proof. intros Hs. destruct s; try done; cbn [site_text site_pieces site_values weave]; by rewrite ?app_nil_r. Qed.
Lemma site_body_ok s : site_range s -> body_ok (D := D) locale_sep (site_body s) (site_text s).
Proof.
  intros Hr. destruct (decide (site_pieces s = [])) as [Hp|Hp]; [by destruct s|].
  rewrite site_text_woven by done. destruct s; try done; cbn [site_body];
    (apply format_body_ok; [reflexivity|repeat constructor; discriminate| |reflexivity|repeat constructor]);
    repeat (apply Forall_cons_2; [first [exact Hr|vm_compute; split; discriminate]|]); apply Forall_nil_2.
Qed.

(** (C23) The log statements.  Every log statement of the program, with any
    values for its arguments, writes exactly the text it is meant to write: no
    format string throws, whatever braces the values contain. *)
Theorem sites_formatted s :
  site_range s ->
  exists b, write_raw (D := D) junk locale_sep (site_body s) = Some (Ok b) /\ content b = site_text s.
Proof. intros Hr. apply write_raw_text. by apply site_body_ok. Qed.

(** With the statements of the program as the calls, standard output of the
    process holds one line per accepted call, each with the text the statement
    is meant to write. *)
Section Lines.
Variables (localtime : Z -> tm) (pid : Z) (site_of : call D -> site).
Hypothesis pid_ok : 0 <= pid <= int_max.
Definition site_call (c : call D) : Prop :=
  call_body c = site_body (site_of c) /\ call_level c = site_level (site_of c) /\ site_range (site_of c)
  /\ 0 <= call_time c <= llong_max /\ 0 <= call_tid c <= size_max
  /\ valid_tm (localtime (to_time_t (call_time c))).
Corollary program_site_lines {H'} (dh : H') name level l steps now s0 s :
  program_logger full_line dh name level = Some l ->
  start_helper l (stdout_heap []) now = Some s0 ->
  Forall (fun s => match s with SLog c => site_call c | _ => True end) steps ->
  a_run (PatternFormatter.format junk pid localtime) (steps ≫= step_events junk locale_sep l) s0 = Some s ->
  exists v tagged, level_of_name level = Some v
  /\ (forall t, of_thread t tagged ++ pending t s = steps ≫= asked (fun c => site_text (site_of c)) name v t)
  /\ tagged.*2 = a_popped s ++ a_q s
  /\ a_heap s = stdout_heap (concat (line_of localtime pid <$> filter is_log (a_popped s)))
  /\ a_errors s = [].
Proof.
  intros Hl Hs0 Hs Hr.
  destruct (program_log_core junk locale_sep localtime pid pid_ok dh (fun c => site_text (site_of c))
    name level l steps now s0 s Hl Hs0) as (v & tagged & ? & ? & ? & _ & ? & ? & _); [|done|by exists v, tagged].
  eapply Forall_impl; [exact Hs|]. intros [c|?|?|? ?|?|?|? ? ?]; try done.
  intros (Hb & _ & Hrg & ? & ? & ?). split; [|done..]. rewrite Hb. by apply site_body_ok.
Qed.
End Lines.
End Texts.

Lemma sites_formatted_witness :
  exists b, write_raw (D := Z) nul !"," (site_body (http_listening !"::1" !"{0}" !"/" (-9223372036854775808)))
            = Some (Ok b)
  /\ content b = !"REST API listening at http://::1:{0}/ with -9223372036854775808 threads.".
Proof.
  destruct (sites_formatted (D := Z) nul !"," (http_listening !"::1" !"{0}" !"/" (-9223372036854775808))
    ltac:(vm_compute; split; discriminate)) as (b & Hb & Hc).
  exists b. split; [exact Hb|]. rewrite Hc. vm_compute. reflexivity.
Defined.
