(* ===== verification/Program.v ===== *)
(** * The program as a whole, [src/src/service.cpp]

    [Service] models [main] up to the point where it serves.  Here is the rest:
    the construction of the two servers, the thread of the memcached server
    next to the loop of the HTTP server, and the end.  The constructors of the
    servers and what their loops do are code of boost::asio and served: what
    happens to them, and in which order, is a list of events.  The second part
    shows that everything the store puts in its log is one of the log
    statements of [LogSites]. *)
From S2P Require Import Prelude Cxx Store Aggregator Rocks RocksFacts OptionHandler Options Logging Service ServiceFacts LogSites.

Open Scope Z_scope.

(** ** [main] from the servers to the end *)

(** What happens once the memcached server is constructed: its [run], on
    [mem_thread], returns or throws; on the main thread the HTTP server is
    constructed or its constructor throws, and its [run] returns or throws. *)
Inductive server_event :=
| MemReturns
| MemThrows (e : exn)
| HttpConstructed
| HttpThrows (e : exn)
| HttpReturns.
#[export] Instance server_event_eq_dec : EqDecision server_event.
Proof. solve_decision. Defined.


Section Main.
Context {W DB F H : Type} `{RocksDB DB} `{RocksEnv W DB}.
Variable ub_front : bytes -> exc (list bytes).
Variables (default_formatter : F) (default_handler : H) (queue_size_ok : Z -> bool) (stdout_sink : nat).
Variable resolve_and_open : bytes -> bytes -> exc unit.







End Main.

(** ** The store's log *)
Definition store_level (l : Rocks.log_level) : level_enum :=
  match l with LDebug => debug | LInfo => info | LError => err end.
Definition from_site (e : Rocks.log_level * bytes) : Prop :=
  exists s, site_range s /\ store_level e.1 = site_level s /\ e.2 = site_text s.

Section StoreLog.
Context {W DB A : Type} `{RocksDB DB} `{Aggregator A epoch_fn} `{RocksEnv W DB}.
Implicit Types r : rocks DB A.
Definition says_sites r : Prop := Forall from_site (Rocks._log r).

Lemma says_call l msg s r :
  site_range s -> store_level l = site_level s -> msg = site_text s ->
  says_sites r -> says_sites (log_call l msg r).
Proof.
  intros Hr Hl Hm Hs. apply Forall_app. split; [done|]. apply Forall_cons. split; [by exists s|done].
Qed.
Lemma count_log name r r' : count name r = Some r' -> Rocks._log r' = Rocks._log r.
Proof. unfold count. intros (a & _ & ->)%fmap_Some. done. Qed.
Lemma get_log key r r' x : get key r = Some (r', x) -> Rocks._log r' = Rocks._log r.
Proof.
  unfold get. intros (d & _ & Hg)%bind_Some. destruct (db_Get key d) as [[d' s] v].
  destruct (s_ok s); apply bind_Some in Hg as (r1 & Hc & Hg); simplify_eq; by apply count_log in Hc.
Qed.
Lemma put_log key v r r' x : put key v r = Some (r', x) -> Rocks._log r' = Rocks._log r.
Proof.
  unfold put. intros (d & _ & Hp)%bind_Some. destruct (db_Put key v d) as [d' s].
  destruct (s_ok s); apply bind_Some in Hp as (r1 & Hc & Hp); simplify_eq; by apply count_log in Hc.
Qed.
Lemma del_log key r r' x : del key r = Some (r', x) -> Rocks._log r' = Rocks._log r.
Proof.
  unfold del. intros (d & _ & Hp)%bind_Some. destruct (db_Delete key d) as [d' s].
  apply bind_Some in Hp as (r1 & Hc & Hp). simplify_eq. by apply count_log in Hc.
Qed.
Lemma says_same r r' : Rocks._log r' = Rocks._log r -> says_sites r -> says_sites r'.
Proof. unfold says_sites. by intros ->. Qed.

Lemma restore_says peek (w : W) r w' x r' :
  restore_backup peek w r = (w', x, r') -> says_sites r ->
  says_sites r' /\ forall r1, x = Ok r1 -> says_sites r1.
Proof.
  unfold restore_backup. intros Hr Hs. destruct (negb (restore_confirmed peek)); simplify_eq; [done|].
  destruct (BackupEngineReadOnly_Open _ _) as [[w1 s] e].
  destruct (if s_ok s then _ else _) as [w2 s2]. destruct (negb (s_ok s2)); simplify_eq.
  - split; [|done]. by apply (says_call _ _ (restore_failed (s_ToString s2))).
  - split; [|intros r1 [= <-]]; by apply (says_call _ _ restored).
Qed.
Lemma open_db_says (w : W) r w' x r' : open_db w r = (w', x, r') -> says_sites r -> says_sites r'.
Proof.
  unfold open_db. intros Ho Hs.
  assert (Hd : says_sites (debug_stats (normalise_ttl r))).
  { unfold debug_stats. destruct (_debug _); [|done]. by apply (says_call _ _ debug_mode (normalise_ttl r)). }
  destruct (DBWithTTL_Open _ _ _ _) as [[w1 s] d]. destruct (negb (s_ok s)); simplify_eq.
  - eapply says_same; [|exact Hd]. done.
  - eapply says_same; [|exact Hd]. destruct (_local_stats _); done.
Qed.
Lemma open_says stats peek (w : W) r w' x r' : open stats peek w r = (w', x, r') -> says_sites r'.
Proof.
  unfold open. set (r0 := log_call LInfo _ _). assert (Hr0 : says_sites r0).
  { apply (says_call _ _ (setting_up (_path r))); try done. apply Forall_nil_2. }
  clearbody r0. destruct (_restore r0); [|by intros Ho; eapply open_db_says].
  destruct (restore_backup peek w r0) as [[w1 x1] r1] eqn:Hre. apply restore_says in Hre as [H1' H2']; [|done].
  destruct x1 as [r2|e]; [|by intros [= _ _ <-]]. intros Ho. eapply open_db_says; [exact Ho|auto].
Qed.

Lemma backup_create_says res (w : W) r w' r' res' :
  http_backup_create res w r = Some (w', r', res') -> says_sites r -> says_sites r'.
Proof.
  unfold http_backup_create. intros Hc Hs. set (r0 := log_call _ _ r) in Hc.
  assert (Hs0 : says_sites r0) by (by apply (says_call _ _ (backup_creating (backup_path r)))).
  clearbody r0. destruct (BackupEngine_Open _ w) as [[w1 s] e].
  apply bind_Some in Hc as ([w2 s2] & _ & Hc).
  destruct (negb (s_ok s2)); apply bind_Some in Hc as (r1 & Hct%count_log & Hc); simplify_eq;
    assert (Hs1 : says_sites r1) by (by eapply says_same).
  - by apply (says_call _ _ (backup_create_failed (s_ToString s2))).
  - by apply (says_call _ _ (backup_created (backup_path r1))).
Qed.
Lemma backup_clean_says res (w : W) r w' r' res' :
  http_backup_clean res w r = Some (w', r', res') -> says_sites r -> says_sites r'.
Proof.
  unfold http_backup_clean. intros Hc Hs. set (r0 := log_call _ _ r) in Hc.
  assert (Hs0 : says_sites r0) by (by apply (says_call _ _ (backup_purging (backup_path r)))).
  clearbody r0. destruct (BackupEngine_Open _ w) as [[w1 s] e].
  destruct (if s_ok s then _ else _) as [w2 s2].
  destruct (negb (s_ok s2)); apply bind_Some in Hc as (r1 & Hct%count_log & Hc); simplify_eq;
    assert (Hs1 : says_sites r1) by (by eapply says_same).
  - by apply (says_call _ _ (backup_purge_failed (s_ToString s2))).
  - by apply (says_call _ _ (backup_purged (backup_path r1))).
Qed.

(** What a running program does with its store. *)
Inductive store_step : rocks DB A -> rocks DB A -> Prop :=
| Step_get key r r' x : get key r = Some (r', x) -> store_step r r'
| Step_put key v r r' x : put key v r = Some (r', x) -> store_step r r'
| Step_del key r r' x : del key r = Some (r', x) -> store_step r r'
| Step_lock r r' : lock r = Some r' -> store_step r r'
| Step_unlock r : store_step r (unlock r)
| Step_http_get key res r r' res' : http_key_get key res r = Some (r', res') -> store_step r r'
| Step_http_put key v res r r' res' : http_key_put key v res r = Some (r', res') -> store_step r r'
| Step_create res (w : W) r w' r' res' : http_backup_create res w r = Some (w', r', res') -> store_step r r'
| Step_clean res (w : W) r w' r' res' : http_backup_clean res w r = Some (w', r', res') -> store_step r r'
| Step_info res (w : W) r w' r' res' : http_backup_info res w r = (w', r', res') -> store_step r r'.

Lemma step_says r r' : store_step r r' -> says_sites r -> says_sites r'.
Proof.
  intros Hst Hs. destruct Hst as [key r r' x Hg|key v r r' x Hp|key r r' x Hd|r r' Hl|r|key res r r' res' Hg
    |key v res r r' res' Hp|res w r w' r' res' Hc|res w r w' r' res' Hc|res w r w' r' res' Hc].
  - eapply says_same; [by eapply get_log|done].
  - eapply says_same; [by eapply put_log|done].
  - eapply says_same; [by eapply del_log|done].
  - unfold lock in Hl. case_match; by simplify_eq.
  - done.
  - unfold http_key_get in Hg. apply bind_Some in Hg as ([r1 [st v]] & Hget & Hg).
    assert (Hs1 : says_sites r1) by (eapply says_same; [by eapply get_log|done]).
    destruct (ok st); simplify_eq; [done|]. destruct (is_not_found st); simplify_eq; [done|].
    by apply (says_call _ _ (key_get_failed key (to_string st))).
  - unfold http_key_put in Hp. apply bind_Some in Hp as ([r1 st] & Hput & Hp).
    assert (Hs1 : says_sites r1) by (eapply says_same; [by eapply put_log|done]).
    destruct (negb (ok st)); simplify_eq; [|done]. by apply (says_call _ _ (key_put_failed key (to_string st))).
  - by eapply backup_create_says.
  - by eapply backup_clean_says.
  - unfold http_backup_info in Hc. destruct (BackupEngine_Open _ w) as [[w1 s] e].
    destruct (negb (s_ok s)); simplify_eq; [|done]. by apply (says_call _ _ (backup_read_failed (s_ToString s))).
Qed.

(** Everything the store logs, from its opening on, is a log statement of the
    program with its text. *)
Theorem store_log_says stats peek (w : W) r w' x r1 r2 :
  open stats peek w r = (w', x, r1) -> rtc store_step r1 r2 -> Forall from_site (Rocks._log r2).
Proof.
  intros Ho%open_says Hst. induction Hst as [ra|ra rb rc Hs _ IH]; [done|]. eauto using step_says.
Qed.
End StoreLog.
